(* ===== verification/_CoqProject ===== *)
-Q . S2P
Prelude.v
Order.v
TypeConfig.v
LogId.v
Vote.v
Quorum.v
Progress.v
LogIdList.v
Config.v
ConfigText.v
ProgressEntry.v
IOState.v
Membership.v
Proposer.v
RaftState.v
Errors.v
Command.v
EngineBase.v
LogHandler.v
FollowingHandler.v
ReplicationHandler.v
VoteHandler.v
EngineImpl.v
Evolves.v
Pledges.v
CoreState.v
RaftCore.v
CoreRun.v
CoreCommands.v
Reads.v
Storage.v
Replication.v
Tick.v
Wait.v
RaftApi.v
SnapshotTransport.v
Network.v
StorageHelper.v
MemStore.v
KvStore.v
Rocks.v
RocksMachine.v
RocksKv.v
Worker.v
Election.v
Purge.v
Cluster.v
LeaderLog.v
Applies.v
Scenarios.v
Startup.v
