(* ===== verification/Prelude.v ===== *)
(** * A verification of the openraft consensus engine

    openraft (src/openraft) is a Raft implementation in Rust: a synchronous consensus engine, the task
    [RaftCore] that runs it, the tasks around it (replication, state machine worker, tick, heartbeats),
    the handle [Raft] that applications call, and the traits an application implements (log store, state
    machine, network).  This library models each of these as executable Rocq definitions that follow the
    source function by function, and proves what makes them correct.

    ** How the program is modelled

    - Rust code that may panic returns [Outcome]; [Result] is Rust's [Result].  The code is taken as
      built with debug assertions, so a failed [debug_assert!] is a panic, like [unwrap] of [None],
      [unreachable!] and the underflow of an unsigned subtraction.
    - A [u64] is an [N].  Subtractions are checked; additions do not wrap (log indexes, terms and
      times start near zero and grow by one).  Durations and instants are milliseconds.
    - Code that mutates fields runs in the state monad [ST]: [M] over [Rt], the engine with its clock
      (EngineBase), and [CM] over [Core], the state of [RaftCore] with its channels and the list of its
      effects (CoreState).
    - Traits are classes; what their documentation asks of an implementation is a second class of laws:
      [RaftLeaderId], [QuorumSet] and [QuorumLaws], [LogStateReader], [RaftLogStorage] with
      [LogStoreLaws], [RaftStateMachine] with [StateMachineLaws], [SnapshotIO] with [SnapshotIOLaws],
      [SerdeJson] with [SerdeJsonLaws], [RaftNetworkV1], [RaftNetworkV2] and [RaftNetworkFactory].
      Clients are proved against the class, and the implementations of the repository are instances
      with the laws proved.  Libraries the code calls are classes too, with the laws their documentation
      gives and an instance that has them: [RocksDB] with [RocksDBLaws], [ByteOrder] with [ByteOrderLaws].
    - What is outside of a task is arbitrary: results of the network, of the log store and of the clock
      are functions of the number of the interaction, or lists of events.

    ** The files, in dependency order (paths under src/openraft/src)

    The data.
    - Prelude, Order: [Outcome], [Result], [ST] with its weakest preconditions [wp], the lists, and
      Rust's [Ord] with the tactic [order].
    - TypeConfig: type_config.rs and vote/leader_id/: the class of type configurations, and the two
      leader ids, [LeaderIdAdv] and [LeaderIdStd] (standard Raft: one leader per term).
    - LogId: log_id/, log_id_range.rs.  Vote: vote/, with the partial order of votes.
    - Quorum: quorum/.  Progress: progress/mod.rs ([VecProgress]).
    - LogIdList: engine/log_id_list.rs, leader_log_ids.rs: the compressed log ids and loading them by
      binary search.
    - Config: config/config.rs, utime.rs (leases), raft_state/log_state_reader.rs.  ConfigText: the
      defaults, the parsers of the fields, building a configuration, and the flags of a running node.
    - ProgressEntry: progress/entry/, progress/inflight/.  IOState: raft_state/io_state.rs, io_state/.
    - Membership: membership/, raft_state/membership_state/, change_members.rs.
    - Proposer: entry/, proposer/.  RaftState: raft_state/mod.rs and storage/snapshot_meta.rs, with the
      invariant [raft_state_ok].
    - Errors: error.rs, error/, storage_error.rs.  Command: raft/message/, engine/command.rs,
      engine_output.rs, core/sm/command.rs.

    The engine: each handler reads and writes the engine and pushes commands to its output queue.
    - EngineBase: the engine and its monad.  LogHandler: engine/handler/{log,snapshot,server_state}_handler.
    - FollowingHandler, ReplicationHandler (with the leader handler), VoteHandler (with the establish
      handler): the handlers of the same names.  EngineImpl: engine/engine_impl.rs, the entry points.
    - Evolves: what every operation keeps (votes, commit position and clock only move forward), by a
      generic symbolic execution of the handlers, [keeps_by], with the hint database [keeps].
    - Election, Purge: functional specifications of elections and purges, on the definitions above.
    - Pledges: the election invariant [node_ok] of the engine, again with [keeps_by].

    The runtime.
    - CoreState: core/notification.rs, core/raft_msg/, core/heartbeat/, the state of [RaftCore].
    - RaftCore: core/raft_core.rs: the handlers of messages and notifications, the execution of commands
      ([run_command]), and the main loop.
    - CoreRun: what every round keeps.  CoreCommands: the order of execution.  Reads: linearizable reads.
    - Cluster: nodes over an unreliable network, with crashes and restarts.
    - LeaderLog: the log of a leader over any run of a node, with a relation every handler keeps.
    - Applies: what [RaftCore] tells the state machine worker, and the two together.

    Around the runtime.
    - Storage: storage/v2/ and the abstract log store.  StorageHelper: storage/helper.rs, loading the
      state of a node at startup.  MemStore: stores/memstore/src/lib.rs, an implementation of both stores.
      KvStore: the stores of examples/memstore and examples/raft-kv-memstore.  Rocks, RocksMachine:
      examples/rocksstore, a log store and a state machine on RocksDB.  RocksKv: the state machine of
      examples/raft-kv-rocksdb, whose snapshot builders share its pairs: a store of shared cells, and
      handles on it.
    - Replication: replication/: the task of a leader for one follower.
    - SnapshotTransport: network/snapshot_transport.rs: sending and receiving a snapshot in chunks.
    - Network: network/v1/, network/v2/: the traits of the network and the adapter between them.
    - Worker: core/sm/worker.rs.  Tick: core/tick.rs.  Wait: metrics/wait.rs.
    - RaftApi: raft/: the handle, and how the end of the task is reported.
    - Startup: [Raft::new] (raft/mod.rs), which puts a node together, raft/runtime_config_handle.rs and
      the getters of the handle.
    - Scenarios: concrete runs that show what the findings of the development are about.

    ** How the parts interact

    A message or notification is taken by [RaftCore.select] or [RaftCore.process], the handler calls the
    engine ([engine]), and [RaftCore.run_engine_commands] executes the commands the engine queued: store
    operations, RPCs, requests to the replication tasks and to the worker, replies.  These are the list
    [out] of a [Core].  A store operation may fail ([store_fault]); when it completes, a notification
    [N_LocalIO] arrives.  The other tasks are separate definitions with their own state: [Replication]
    takes the requests [RaftCore] sends and returns notifications, [Worker] takes the state machine
    commands, [RaftApi] sends messages and waits for replies.

    ** What is proved

    - Elections: in standard mode two nodes that lead in one term are the same node, whatever the network
      does and whichever nodes crash and start again ([election_safety]); the committed votes of a term
      are one vote ([one_leader_accepted]); a node gives one vote in a term over all its lives
      ([one_vote_across_restarts]), and has saved it before ([votes_given_are_saved]).  The small steps of
      the cluster are those of the main loop ([round_is_turns]).  A leader only appends to its log
      ([leader_append_only]).  The memberships in use share a
      configuration pairwise ([coherent]): one membership, or a joint one with the ones before and after
      it; [change_safe] and [coherent_quorums_intersect] are why a change goes from one to the next.
    - The engine: every branch of the vote, append-entries, snapshot, purge and replication handlers has
      its functional specification; [raft_state_ok] is kept by them; the leader only commits entries of
      its own that a quorum has ([leader_commit_spec]); the run of a node never goes back ([run_monotone]).
    - The runtime: commands are executed in order and a round per command is enough
      ([run_commands_in_order]); a client is answered at most once ([client_answered_once]); a read is
      confirmed by a quorum ([read_answer], [ensure_linearizable_applied]); every committed entry is applied
      once and in order ([applies_in_order]), and the state machine has exactly these entries, over a
      restart too ([restarted_node_catches_up]).
    - Replication: what is sent is the log, what is reported is what the follower said, a range is
      delivered within a bound ([replication_sends_log], [replication_reports_truth], [range_delivered],
      [replication_converges]); snapshots arrive byte for byte ([snapshot_transfer_exact],
      [snapshot_transfer_completes]).
    - Storage: all stores of the repository satisfy the laws of the storage traits; the store on RocksDB
      refines the abstract log whatever errors the data base reports ([rocks_log_store_refines]) and its
      state machine survives a crash ([rocks_restart]); where a snapshot build runs beside other
      operations, entries that overtake it do no harm ([overtaken_snapshot_converges]), an installation
      that overtakes it is lost at a restart ([overtaken_by_install]); a node made of lawful stores is ready and
      satisfies the invariants ([raft_new_ready]).
    - Data: log id lists, quorums, progress, membership changes, as stated with each.

    What is not proved is that the logs of different nodes agree (log matching, state machine safety).
    As the code is, it does not hold for a leader that crashes and starts again without entries it had
    not flushed ([Scenarios.restarted_leader_reuses_log_id]).

    ** Bounds and fuel

    [run_loop] takes a round per queued command; [key_loop] (the binary search for key log ids) a number
    linear in the length of the log; [reapply_loop] a round per entry; [membership_loop] one per index;
    [send_loop] the faults of the network, a round per chunk and two more; [read_loop] a read per byte of
    room.  For each a theorem says that the fuel is enough.  The main loop of a task is a function of the
    events of each iteration, so it takes no fuel.

    ** Assumptions of the cluster

    A node that starts again has the vote it saved last, memberships in use, and nothing else is assumed
    of what it has read back ([booted]).  A save that fails is not persisted.  A handler that panics or
    returns an error is a node that crashes before the handler: the effects of a panicking command that
    came before the panic are not counted.  The network does not make up committed votes, granted votes
    and memberships; every other message may arrive at any time.

    ** Not modelled

    - The async runtime: tasks and channels are lists and events, and a spawned task is its handle with
      its first messages.  Locks are held within one operation.
    - The wrapper [Valid], which re-runs [validate] at each access; that it keeps holding is what the
      invariants show.
    - Formatting and tracing, the command line parser (clap), the deprecated waits.
    - Vectors do not run out of memory; the capacity of the buffer of a chunk is the chunk size.
    - Procedural macros, the runtime adapters (rt-monoio, tokio), the HTTP and RPC glue of the examples,
      example stores that repeat the ones above, benchmarks and tests. *)

From stdpp Require Export base tactics option list numbers sorting gmap strings.
From Stdlib Require Export Lia.
From Corelib Require Export ssreflect.
#[global] Open Scope general_if_scope.
Ltac done := stdpp.tactics.done.

(** ** Rust values

    [Result] is Rust's [Result<T, E>]; [Outcome] is the result of running a piece of Rust code that
    may panic: a failed [debug_assert!], an [unwrap] of [None], an [unreachable!] or an
    arithmetic underflow (the code is modelled as built with debug assertions on). *)

Inductive Result (T E : Type) : Type :=
| ROk (t : T)
| RErr (e : E).
Arguments ROk {T E} t.
Arguments RErr {T E} e.

Inductive Outcome (A : Type) : Type :=
| Done (a : A)
| Panic (why : string).
Arguments Done {A} a.
Arguments Panic {A} why.

Definition is_ok {T E} (r : Result T E) : bool :=
  match r with ROk _ => true | RErr _ => false end.

#[global] Instance outcome_ret : MRet Outcome := λ _, Done.
#[global] Instance outcome_bind : MBind Outcome := λ _ _ k m,
  match m with Done a => k a | Panic w => Panic w end.
#[global] Instance outcome_fmap : FMap Outcome := λ _ _ f m,
  match m with Done a => Done (f a) | Panic w => Panic w end.

(** [debug_assert!(b, why)] *)
Definition assert_ (b : bool) (why : string) : Outcome unit :=
  if b then Done tt else Panic why.

(** [Option::unwrap] / [expect] *)
Definition unwrap {A} (o : option A) (why : string) : Outcome A :=
  match o with Some a => Done a | None => Panic why end.

(** [a - b] on [u64]: underflow panics. *)
Definition sub_u64 (a b : N) : Outcome N :=
  if (b <=? a)%N then Done (a - b)%N else Panic "attempt to subtract with overflow".

(** [u64::saturating_sub] *)
Definition saturating_sub (a b : N) : N := (a - b)%N.

(** ** A state monad with panics *)

Definition ST (S A : Type) : Type := S → Outcome (A * S).

#[global] Instance st_ret S : MRet (ST S) := λ _ a s, Done (a, s).
#[global] Instance st_bind S : MBind (ST S) := λ _ _ k m s,
  match m s with Done (a, s') => k a s' | Panic w => Panic w end.
#[global] Instance st_fmap S : FMap (ST S) := λ _ _ f m s,
  match m s with Done (a, s') => Done (f a, s') | Panic w => Panic w end.

Definition st_get {S} : ST S S := λ s, Done (s, s).
Definition st_put {S} (s : S) : ST S unit := λ _, Done (tt, s).
Definition st_gets {S A} (f : S → A) : ST S A := λ s, Done (f s, s).
Definition st_modify {S} (f : S → S) : ST S unit := λ s, Done (tt, f s).
Definition lift {S A} (o : Outcome A) : ST S A := λ s,
  match o with Done a => Done (a, s) | Panic w => Panic w end.

(** [for x in l { body }] *)
Fixpoint st_for {S A} (l : list A) (body : A → ST S unit) : ST S unit :=
  match l with
  | [] => mret tt
  | x :: l' => body x ≫= λ _, st_for l' body
  end.

(** Total correctness: [wp m Q s] says that running [m] from [s] does not panic and ends in a
    result and a state that satisfy [Q]. *)
Definition wp {S A} (m : ST S A) (Q : A → S → Prop) (s : S) : Prop :=
  match m s with Done (a, s') => Q a s' | Panic _ => False end.

Section wp.
Context {S : Type}.
Implicit Types s : S.

Lemma wp_ret {A} (a : A) Q s : Q a s → wp (mret a) Q s.
Proof. done. Qed.

Lemma wp_bind {A B} (m : ST S A) (k : A → ST S B) Q s :
  wp m (λ a, wp (k a) Q) s → wp (m ≫= k) Q s.
Proof. rw /wp /mbind /st_bind. by destruct (m s) as [[a s']|]. Qed.

Lemma st_bind_inv {A B} (m : ST S A) (k : A → ST S B) s b s' :
  (m ≫= k) s = Done (b, s') → ∃ a s1, m s = Done (a, s1) ∧ k a s1 = Done (b, s').
Proof. rw /mbind /st_bind. destruct (m s) as [[a s1]|]; [|done]. eauto. Qed.

Lemma st_bind_run {A B} (m : ST S A) (k : A → ST S B) s a s' : m s = Done (a, s') → (m ≫= k) s = k a s'.
Proof. rw /mbind /st_bind. by intros ->. Qed.

Lemma wp_mono {A} (m : ST S A) (P Q : A → S → Prop) s :
  wp m P s → (∀ a s', P a s' → Q a s') → wp m Q s.
Proof. rw /wp. destruct (m s) as [[a s']|]; naive_solver. Qed.

Lemma wp_get Q s : Q s s → wp st_get Q s.
Proof. done. Qed.

Lemma wp_gets {A} (f : S → A) Q s : Q (f s) s → wp (st_gets f) Q s.
Proof. done. Qed.

Lemma wp_put s' Q s : Q tt s' → wp (st_put s') Q s.
Proof. done. Qed.

Lemma wp_modify f Q s : Q tt (f s) → wp (st_modify f) Q s.
Proof. done. Qed.

Lemma wp_lift {A} (o : Outcome A) a Q s :
  o = Done a → Q a s → wp (lift o) Q s.
Proof. by intros ->. Qed.

Lemma wp_assert b why Q s : b = true → Q tt s → wp (lift (assert_ b why)) Q s.
Proof. by intros ->. Qed.

Lemma wp_unwrap {A} (o : option A) a why Q s :
  o = Some a → Q a s → wp (lift (unwrap o why)) Q s.
Proof. by intros ->. Qed.

Lemma wp_for {A} (l : list A) body (I : list A → S → Prop) Q s :
  I l s →
  (∀ x l' s, I (x :: l') s → wp (body x) (λ _, I l') s) →
  (∀ s, I [] s → Q tt s) →
  wp (st_for l body) Q s.
Proof.
  intros HI Hstep Hend. revert s HI. induction l as [|x l IH]; intros s HI; simpl.
  - by apply Hend.
  - apply wp_bind. eapply wp_mono; [by apply (Hstep x l)|]. intros [] s' HI'. by apply IH.
Qed.

(** Reading a [wp] fact back as an equation on the run. *)
Lemma wp_elim {A} (m : ST S A) Q s :
  wp m Q s ↔ ∃ a s', m s = Done (a, s') ∧ Q a s'.
Proof. rw /wp. destruct (m s) as [[a s']|]; naive_solver. Qed.
End wp.

(** Partial correctness: [post m Q s] says that if running [m] from [s] ends, it ends with [Q]. *)
Definition post {S A} (m : ST S A) (Q : A → S → Prop) (s : S) : Prop := ∀ a s', m s = Done (a, s') → Q a s'.

Section post.
Context {S : Type}.
Implicit Types s : S.

Lemma post_bind {A B} (m : ST S A) (k : A → ST S B) Q s : post m (λ a, post (k a) Q) s → post (m ≫= k) Q s.
Proof. intros H b s' (a & s1 & Hm & Hk)%st_bind_inv. exact (H a s1 Hm b s' Hk). Qed.
Lemma post_ret {A} (a : A) (Q : A → S → Prop) s : Q a s → post (mret a) Q s.
Proof. by intros H ? ? [= <- <-]. Qed.
Lemma post_lift {A} (o : Outcome A) (Q : A → S → Prop) s : (∀ a, o = Done a → Q a s) → post (lift o) Q s.
Proof. intros H a s'. rw /lift. destruct o; [|done]. intros [= <- <-]. by apply H. Qed.
Lemma post_modify f (Q : unit → S → Prop) s : Q tt (f s) → post (st_modify f) Q s.
Proof. by intros H [] ? [= <-]. Qed.
Lemma post_put s' (Q : unit → S → Prop) s : Q tt s' → post (st_put s') Q s.
Proof. by intros H [] ? [= <-]. Qed.
Lemma post_get (Q : S → S → Prop) s : Q s s → post st_get Q s.
Proof. by intros H ? ? [= <- <-]. Qed.
Lemma post_mono {A} (m : ST S A) (P Q : A → S → Prop) s : post m P s → (∀ a s', P a s' → Q a s') → post m Q s.
Proof. intros Hm H a s' Hr. by apply H, Hm. Qed.
Lemma post_for {A} (l : list A) body (I : S → Prop) s :
  I s → (∀ x s, x ∈ l → I s → post (body x) (λ _, I) s) → post (st_for l body) (λ _, I) s.
Proof.
  intros HI Hb. revert s HI. induction l as [|x l IH]; intros s HI; simpl; [by apply post_ret|].
  apply post_bind. eapply post_mono; [apply Hb; [left|done]|]. intros [] s' HI'. apply IH; [|done].
  intros y s1 Hy. apply Hb. by right.
Qed.
End post.

(** Total and partial correctness. *)
Section wp_and_post.
Context {S A : Type}.
Implicit Types (n : ST S A) (Q : A → S → Prop).

Lemma wp_post n Q s : wp n Q s → post n Q s.
Proof. rw /wp /post. intros H a s' Hr. by rw Hr in H. Qed.
Lemma wp_and n P Q s : wp n P s → post n Q s → wp n (λ a s', P a s' ∧ Q a s') s.
Proof. rw /wp /post. destruct (n s) as [[a s']|]; [|done]. by auto. Qed.
Lemma wp_of_run n a Q s s' : n s = Done (a, s') → Q a s' → wp n Q s.
Proof. intros Hn HQ. by rw /wp Hn. Qed.
End wp_and_post.

(** Running on a part of the state. *)
Definition zoom {S T A} (get : S → T) (put : S → T → S) (m : ST T A) : ST S A := λ s,
  match m (get s) with Done (a, t) => Done (a, put s t) | Panic w => Panic w end.

Lemma wp_zoom {S T A} (get : S → T) (put : S → T → S) (n : ST T A) (Q : A → S → Prop) s :
  wp n (λ a t, Q a (put s t)) (get s) → wp (zoom get put n) Q s.
Proof. rw /wp /zoom. by destruct (n (get s)) as [[a t]|]. Qed.

(** ** Fallible code: the operator [?]

    [try_bind] continues with the value of an [Ok] and returns an [Err] as it is. *)
Definition try_bind {S A B E} (m : ST S (Result A E)) (k : A → ST S (Result B E)) : ST S (Result B E) :=
  m ≫= λ r, match r with ROk a => k a | RErr e => mret (RErr e) end.
Notation "x ←? m ; k" := (try_bind m (λ x, k)) (at level 20, m at level 100, k at level 200).

(** Reading the state without changing it. *)
Definition st_reads {S A} (f : S → Outcome A) : ST S A := λ s,
  match f s with Done a => Done (a, s) | Panic w => Panic w end.

(** [wpr P m Q s]: running [m] from [s] does not panic, and either returns [Ok a] in a state with
    [Q a], or an error that satisfies [P]. *)
Definition wpr {S A E} (P : E → Prop) (m : ST S (Result A E)) (Q : A → S → Prop) (s : S) : Prop :=
  wp m (λ r s', match r with ROk a => Q a s' | RErr e => P e end) s.

Section wpr.
Context {S E : Type} (P : E → Prop).
Implicit Types s : S.

Lemma wpr_ret {A} (a : A) (Q : A → S → Prop) s : Q a s → wpr P (mret (ROk a)) Q s.
Proof. done. Qed.
Lemma wpr_try {A B} (m : ST S (Result A E)) (k : A → ST S (Result B E)) Q s :
  wpr P m (λ a, wpr P (k a) Q) s → wpr P (try_bind m k) Q s.
Proof. intros Hm. apply wp_bind. eapply wp_mono; [exact Hm|]. by intros [a|e] s'. Qed.
Lemma wpr_bind {A B} (m : ST S A) (k : A → ST S (Result B E)) Q s :
  wp m (λ a, wpr P (k a) Q) s → wpr P (m ≫= k) Q s.
Proof. apply wp_bind. Qed.
Lemma wpr_mono {A} (m : ST S (Result A E)) (Q R : A → S → Prop) s :
  wpr P m Q s → (∀ a s', Q a s' → R a s') → wpr P m R s.
Proof. intros Hm H. eapply wp_mono; [exact Hm|]. intros [a|e] s' HQ; [by apply H|done]. Qed.

(** Without possible errors, the code returns. *)
Lemma wpr_total {A} (m : ST S (Result A E)) (Q : A → S → Prop) s :
  (∀ e, ¬ P e) → wpr P m Q s → ∃ a s', m s = Done (ROk a, s') ∧ Q a s'.
Proof.
  intros HP (r & s' & Hrun & HQ)%wp_elim. destruct r as [a|e]; [eauto|]. by apply HP in HQ.
Qed.
End wpr.

(** Partial correctness of fallible code: [Q] for an [Ok], [P] for an [Err]. *)
Definition postr {S A E} (P : E → S → Prop) (m : ST S (Result A E)) (Q : A → S → Prop) (s : S) : Prop :=
  post m (λ r s', match r with ROk a => Q a s' | RErr e => P e s' end) s.
Lemma postr_try {S A B E} (P : E → S → Prop) (m : ST S (Result A E)) (k : A → ST S (Result B E)) Q s :
  postr P m (λ a, postr P (k a) Q) s → postr P (try_bind m k) Q s.
Proof. intros Hm. apply post_bind. eapply post_mono; [exact Hm|]. intros [a|e] s'; [done|]. intros H. by apply post_ret. Qed.

(** One symbolic execution step of a monadic handler. *)
Ltac wp_step :=
  lazymatch goal with
  | |- wp (_ ≫= _) _ _ => apply wp_bind
  | |- wp (mret _) _ _ => apply wp_ret
  | |- wp st_get _ _ => apply wp_get
  | |- wp (st_gets _) _ _ => apply wp_gets
  | |- wp (st_put _) _ _ => apply wp_put
  | |- wp (st_modify _) _ _ => apply wp_modify
  end.
Ltac wp_steps := repeat (wp_step; cbn beta).

(** ** Lists *)
Section filter.
Context {A} (P : A → Prop) `{!∀ x, Decision (P x)}.

Lemma filter_all_true (l : list A) : Forall P l → filter P l = l.
Proof. induction 1; [done|]. rw filter_cons_True; [done|]. by f_equal. Qed.

Lemma filter_all_false (l : list A) : Forall (λ x, ¬ P x) l → filter P l = [].
Proof. induction 1; [done|]. by rw filter_cons_False. Qed.
End filter.

Lemma list_insert_middle {A} (a b : list A) x y : <[length a := x]> (a ++ y :: b) = a ++ x :: b.
Proof. induction a; simpl; by f_equal. Qed.

Lemma lookup_after {A} (l1 l2 : list A) x y : (l1 ++ x :: y :: l2) !! S (length l1) = Some y.
Proof. by induction l1. Qed.

Lemma insert_after {A} (l1 l2 : list A) x y z :
  <[S (length l1) := z]> (l1 ++ x :: y :: l2) = l1 ++ x :: z :: l2.
Proof. induction l1; simpl; by f_equal. Qed.

Lemma lookup_snoc_last {A} (l : list A) x : (l ++ [x]) !! (length (l ++ [x]) - 1) = Some x.
Proof. rw length_app /= Nat.add_sub. by rw list_lookup_middle. Qed.
