(* ===== verification/Order.v ===== *)
(** * Rust's [Ord] and [PartialOrd]

    [Ord] is the total order of a Rust type with [derive(PartialOrd, Ord)]: a three-way comparison
    [cmp] with its laws.  The Rust operators [<], [<=], [>], [>=] and [std::cmp::{min,max}] are the
    boolean functions [ltb], [leb] and the functions [omin], [omax]; [≺] and [⪯] are their
    propositional counterparts, and the tactic [order] decides the goals about them that follow
    from the laws of a total order. *)

From S2P Require Export Prelude.

Class Ord (A : Type) := {
  cmp : A → A → comparison;
  cmp_eq a b : cmp a b = Eq ↔ a = b;
  cmp_opp a b : cmp b a = CompOpp (cmp a b);
  cmp_trans a b c : cmp a b = Lt → cmp b c = Lt → cmp a c = Lt;
}.
#[global] Hint Mode Ord ! : typeclass_instances.

Definition olt `{Ord A} (a b : A) : Prop := cmp a b = Lt.
Definition ole `{Ord A} (a b : A) : Prop := cmp a b ≠ Gt.

Definition ltb `{Ord A} (a b : A) : bool := match cmp a b with Lt => true | _ => false end.
Definition leb `{Ord A} (a b : A) : bool := match cmp a b with Gt => false | _ => true end.

(** [std::cmp::max] and [std::cmp::min] *)
Definition omax `{Ord A} (a b : A) : A := if ltb b a then a else b.
Definition omin `{Ord A} (a b : A) : A := if ltb b a then b else a.

Declare Scope ord_scope.
Delimit Scope ord_scope with ord.
Notation "a ≺ b" := (olt a b) (at level 70) : ord_scope.
Notation "a ⪯ b" := (ole a b) (at level 70) : ord_scope.
Notation "a ≺? b" := (ltb a b) (at level 70) : ord_scope.
Notation "a ⪯? b" := (leb a b) (at level 70) : ord_scope.
Open Scope ord_scope.

Section laws.
Context `{Ord A}.
Implicit Types a b c : A.

Lemma cmp_refl a : cmp a a = Eq.
Proof. by apply cmp_eq. Qed.

Lemma olt_irrefl a : ¬ a ≺ a.
Proof. rw /olt cmp_refl. done. Qed.

Lemma olt_trans a b c : a ≺ b → b ≺ c → a ≺ c.
Proof. apply cmp_trans. Qed.

Lemma ole_refl a : a ⪯ a.
Proof. rw /ole cmp_refl. done. Qed.

Lemma ole_lt_eq a b : a ⪯ b ↔ a ≺ b ∨ a = b.
Proof.
  rw /ole /olt -cmp_eq. destruct (cmp a b); naive_solver.
Qed.

Lemma olt_le a b : a ≺ b → a ⪯ b.
Proof. rw ole_lt_eq. auto. Qed.

Lemma not_ole a b : ¬ a ⪯ b ↔ b ≺ a.
Proof.
  rw /ole /olt (cmp_opp a b). destruct (cmp a b); naive_solver.
Qed.

Lemma not_olt a b : ¬ a ≺ b ↔ b ⪯ a.
Proof.
  rw /ole /olt (cmp_opp a b). destruct (cmp a b); naive_solver.
Qed.

Lemma ole_trans a b c : a ⪯ b → b ⪯ c → a ⪯ c.
Proof. rw !ole_lt_eq. intros [?| ->] [?| ->]; eauto using olt_trans. Qed.

Lemma ole_lt_trans a b c : a ⪯ b → b ≺ c → a ≺ c.
Proof. rw !ole_lt_eq. intros [?| ->]; eauto using olt_trans. Qed.

Lemma olt_le_trans a b c : a ≺ b → b ⪯ c → a ≺ c.
Proof. rw !ole_lt_eq. intros ? [?| <-]; eauto using olt_trans. Qed.

Lemma ole_antisymm a b : a ⪯ b → b ⪯ a → a = b.
Proof.
  rw !ole_lt_eq. intros [Hab| ->] [Hba|?]; try done.
  by destruct (olt_irrefl a); eauto using olt_trans.
Qed.

Lemma ole_or_lt a b : a ⪯ b ∨ b ≺ a.
Proof. rw -not_ole /ole. destruct (cmp a b); naive_solver. Qed.

Lemma ltb_lt a b : (a ≺? b) = true ↔ a ≺ b.
Proof. rw /ltb /olt. destruct (cmp a b); naive_solver. Qed.

Lemma leb_le a b : (a ⪯? b) = true ↔ a ⪯ b.
Proof. rw /leb /ole. destruct (cmp a b); naive_solver. Qed.

Lemma ltb_ge a b : (a ≺? b) = false ↔ b ⪯ a.
Proof. rw -not_olt -ltb_lt. destruct (a ≺? b); naive_solver. Qed.

Lemma leb_gt a b : (a ⪯? b) = false ↔ b ≺ a.
Proof. rw -not_ole -leb_le. destruct (a ⪯? b); naive_solver. Qed.

#[global] Instance olt_dec a b : Decision (a ≺ b).
Proof. rw /olt /Decision. destruct (cmp a b); [right|left|right]; done. Defined.

#[global] Instance ole_dec a b : Decision (a ⪯ b).
Proof. rw /ole /Decision. destruct (cmp a b); [left|left|right]; naive_solver. Defined.
End laws.

#[global] Instance ord_eq_dec `{Ord A} : EqDecision A | 100.
Proof.
  intros a b. destruct (cmp a b) eqn:E.
  - left. by apply cmp_eq.
  - right. intros ->. by rw cmp_refl in E.
  - right. intros ->. by rw cmp_refl in E.
Defined.

(** Case analysis on a Rust comparison. *)
Inductive cmp_spec {A} `{Ord A} (a b : A) : bool → Prop :=
| CmpTrue : a ≺ b → cmp_spec a b true
| CmpFalse : b ⪯ a → cmp_spec a b false.

Lemma ltbP `{Ord A} (a b : A) : cmp_spec a b (a ≺? b).
Proof.
  destruct (a ≺? b) eqn:E; constructor; [by apply ltb_lt|by apply ltb_ge].
Qed.

Inductive cmp_spec_le {A} `{Ord A} (a b : A) : bool → Prop :=
| CmpLeTrue : a ⪯ b → cmp_spec_le a b true
| CmpLeFalse : b ≺ a → cmp_spec_le a b false.

Lemma lebP `{Ord A} (a b : A) : cmp_spec_le a b (a ⪯? b).
Proof.
  destruct (a ⪯? b) eqn:E; constructor; [by apply leb_le|by apply leb_gt].
Qed.

(** [order]: goals and contradictions that follow from the laws of a total order, by saturating
    the hypotheses under transitivity. *)
Ltac order_normalize :=
  repeat match goal with
  | H : ¬ (_ ≺ _) |- _ => apply not_olt in H
  | H : ¬ (_ ⪯ _) |- _ => apply not_ole in H
  | H : (_ ≺? _) = true |- _ => apply ltb_lt in H
  | H : (_ ≺? _) = false |- _ => apply ltb_ge in H
  | H : (_ ⪯? _) = true |- _ => apply leb_le in H
  | H : (_ ⪯? _) = false |- _ => apply leb_gt in H
  end.

Ltac order_saturate :=
  repeat match goal with
  | H : ?a ≺ ?a |- _ => destruct (olt_irrefl a H)
  | H1 : ?a ≺ ?b, H2 : ?b ≺ ?c |- _ =>
      lazymatch goal with _ : a ≺ c |- _ => fail | _ => pose proof (olt_trans _ _ _ H1 H2) end
  | H1 : ?a ⪯ ?b, H2 : ?b ≺ ?c |- _ =>
      lazymatch goal with _ : a ≺ c |- _ => fail | _ => pose proof (ole_lt_trans _ _ _ H1 H2) end
  | H1 : ?a ≺ ?b, H2 : ?b ⪯ ?c |- _ =>
      lazymatch goal with _ : a ≺ c |- _ => fail | _ => pose proof (olt_le_trans _ _ _ H1 H2) end
  | H1 : ?a ⪯ ?b, H2 : ?b ⪯ ?c |- _ =>
      lazymatch goal with _ : a ⪯ c |- _ => fail | _ => pose proof (ole_trans _ _ _ H1 H2) end
  end.

Ltac order :=
  intros; subst; order_normalize;
  lazymatch goal with
  | |- ?a ⪯ ?b => let H := fresh in
      destruct (ole_or_lt a b) as [H|H]; [exact H|exfalso; order_saturate; fail]
  | |- ?a ≺ ?b => let H := fresh in
      destruct (ole_or_lt b a) as [H|H]; [exfalso; order_saturate; fail|exact H]
  | |- ?a = ?b => apply ole_antisymm; order
  | |- (?a ≺? ?b) = true => apply ltb_lt; order
  | |- (?a ⪯? ?b) = true => apply leb_le; order
  | |- (?a ≺? ?b) = false => apply ltb_ge; order
  | |- (?a ⪯? ?b) = false => apply leb_gt; order
  | |- ¬ _ => let H := fresh in intros H; order
  | |- _ => exfalso; order_saturate; fail
  end.

Create HintDb raft_ord discriminated.
#[export] Hint Resolve ole_refl olt_le olt_trans ole_trans ole_lt_trans olt_le_trans : raft_ord.

(** ** Instances *)

#[global] Program Instance N_ord : Ord N := {| cmp := N.compare |}.
Next Obligation. intros a b; cbn. by rw N.compare_eq_iff. Qed.
Next Obligation. intros a b; cbn. apply N.compare_antisym. Qed.
Next Obligation. intros a b c; cbn. rw !N.compare_lt_iff. lia. Qed.

Lemma N_olt (a b : N) : a ≺ b ↔ (a < b)%N.
Proof. apply N.compare_lt_iff. Qed.
Lemma N_ole (a b : N) : a ⪯ b ↔ (a ≤ b)%N.
Proof. apply N.compare_le_iff. Qed.

Definition bool_cmp (a b : bool) : comparison :=
  match a, b with
  | false, true => Lt | true, false => Gt | _, _ => Eq
  end.
#[global] Program Instance bool_ord : Ord bool := {| cmp := bool_cmp |}.
Next Obligation. by intros [] []. Qed.
Next Obligation. by intros [] []. Qed.
Next Obligation. by intros [] [] []. Qed.

(** Rust orders [Option<T>] with [None] below every [Some]. *)
Definition option_cmp `{Ord A} (a b : option A) : comparison :=
  match a, b with
  | None, None => Eq
  | None, Some _ => Lt
  | Some _, None => Gt
  | Some a, Some b => cmp a b
  end.
#[global] Program Instance option_ord `{Ord A} : Ord (option A) := {| cmp := option_cmp |}.
Next Obligation. intros A ? [a|] [b|]; cbn; rw ?cmp_eq; naive_solver. Qed.
Next Obligation. intros A ? [a|] [b|]; cbn; by rw ?(cmp_opp a). Qed.
Next Obligation.
  intros A ? [a|] [b|] [c|]; cbn; try done. apply cmp_trans.
Qed.

(** The derived order of a two-field struct (or a pair): lexicographic. *)
Definition lex_cmp `{Ord A, Ord B} (a1 a2 : A) (b1 b2 : B) : comparison :=
  match cmp a1 a2 with Eq => cmp b1 b2 | c => c end.
#[global] Program Instance pair_ord `{Ord A, Ord B} : Ord (A * B) :=
  {| cmp := λ p q, lex_cmp p.1 q.1 p.2 q.2 |}.
Next Obligation.
  intros A ? B ? [a1 b1] [a2 b2]; rw /lex_cmp /=.
  destruct (cmp a1 a2) eqn:E.
  - apply cmp_eq in E as ->. rw cmp_eq. naive_solver.
  - split; [done|]. intros [= -> ->]. by rw cmp_refl in E.
  - split; [done|]. intros [= -> ->]. by rw cmp_refl in E.
Qed.
Next Obligation.
  intros A ? B ? [a1 b1] [a2 b2]; rw /lex_cmp /=.
  rw (cmp_opp a1 a2). by destruct (cmp a1 a2); rw /= ?(cmp_opp b1 b2).
Qed.
Next Obligation.
  intros A ? B ? [a1 b1] [a2 b2] [a3 b3]; rw /lex_cmp /=.
  destruct (cmp a1 a2) eqn:E1, (cmp a2 a3) eqn:E2; try done.
  - apply cmp_eq in E1 as ->, E2 as ->. rw cmp_refl. apply cmp_trans.
  - by apply cmp_eq in E1 as ->; rw E2.
  - by apply cmp_eq in E2 as ->; rw E1.
  - by rw (cmp_trans _ _ _ E1 E2).
Qed.

Lemma pair_olt `{Ord A, Ord B} (p q : A * B) :
  p ≺ q ↔ p.1 ≺ q.1 ∨ p.1 = q.1 ∧ p.2 ≺ q.2.
Proof.
  rw /olt /= /lex_cmp. destruct (cmp p.1 q.1) eqn:E.
  - apply cmp_eq in E. naive_solver.
  - naive_solver.
  - split; [done|]. intros [?|[HE _]]; [done|]. rw HE cmp_refl in E. done.
Qed.

(** Transporting an order along an injection (a struct and the tuple of its fields). *)
Program Definition ord_inj {A B} `{Ord B} (f : A → B) (Hf : ∀ x y, f x = f y → x = y) : Ord A :=
  {| cmp := λ x y, cmp (f x) (f y) |}.
Next Obligation. intros. rw cmp_eq. naive_solver. Qed.
Next Obligation. intros. apply cmp_opp. Qed.
Next Obligation. intros; cbn in *. eapply cmp_trans; eassumption. Qed.

Section option_order.
Context `{Ord A}.
Implicit Types o : option A.

Lemma None_le o : None ⪯ o.
Proof. by destruct o. Qed.
Lemma Some_olt (a b : A) : Some a ≺ Some b ↔ a ≺ b.
Proof. done. Qed.
Lemma Some_ole (a b : A) : Some a ⪯ Some b ↔ a ⪯ b.
Proof. done. Qed.
Lemma olt_None o : ¬ o ≺ None.
Proof. by destruct o. Qed.
Lemma olt_Some_inv o1 o2 : o1 ≺ o2 → ∃ b, o2 = Some b.
Proof. destruct o2; [eauto|by destruct o1]. Qed.
Lemma ole_None o : o ⪯ None → o = None.
Proof. by destruct o. Qed.
End option_order.

Section minmax.
Context `{Ord A}.
Implicit Types a b c : A.

Lemma omax_l a b : a ⪯ omax a b.
Proof. rw /omax. destruct (ltbP b a); order. Qed.
Lemma omax_r a b : b ⪯ omax a b.
Proof. rw /omax. destruct (ltbP b a); order. Qed.
Lemma omax_lub a b c : a ⪯ c → b ⪯ c → omax a b ⪯ c.
Proof. rw /omax. destruct (ltbP b a); order. Qed.
Lemma omax_r_eq a b : a ⪯ b → omax a b = b.
Proof. rw /omax. destruct (ltbP b a); [intros; exfalso; order|done]. Qed.
Lemma omax_l_eq a b : b ⪯ a → omax a b = a.
Proof. rw /omax. destruct (ltbP b a); [done|]. intros. apply ole_antisymm; order. Qed.
Lemma omin_l a b : omin a b ⪯ a.
Proof. rw /omin. destruct (ltbP b a); order. Qed.
Lemma omin_r a b : omin a b ⪯ b.
Proof. rw /omin. destruct (ltbP b a); order. Qed.
Lemma omin_glb a b c : c ⪯ a → c ⪯ b → c ⪯ omin a b.
Proof. rw /omin. destruct (ltbP b a); order. Qed.
End minmax.
#[export] Hint Resolve None_le omax_l omax_r omin_l omin_r : raft_ord.
