(* ===== verification/TypeConfig.v ===== *)
(** * Type configuration and leader ids

    The traits [RaftTypeConfig] (openraft/src/type_config.rs) and [RaftLeaderId]
    (openraft/src/vote/leader_id/raft_leader_id.rs) as type classes.  Node ids and terms are the
    [u64] of the default configuration, modelled as [N]; leader ids stay abstract, with the two
    implementations of the source as instances: [LeaderIdAdv] (totally ordered, several leaders
    per term) and [LeaderIdStd] (standard Raft, one leader per term).  The laws of the class are
    what the rest of the development uses of a leader id. *)

From S2P Require Export Order.

Notation NodeId := N (only parsing).
Notation Term := N (only parsing).

(** [RaftTerm::next] *)
Definition next_term (t : Term) : Term := (t + 1)%N.

Class RaftLeaderId (LID CLID : Type) `{Ord CLID} := {
  lid_new : Term → NodeId → LID;
  lid_term : LID → Term;
  lid_node_id : LID → option NodeId;
  lid_to_committed : LID → CLID;
  lid_partial_cmp : LID → LID → option comparison;
  lid_default : LID;
  clid_default : CLID;

  lid_new_term t n : lid_term (lid_new t n) = t;
  lid_new_node_id t n : lid_node_id (lid_new t n) = Some n;
  lid_cmp_eq a b : lid_partial_cmp a b = Some Eq ↔ a = b;
  lid_cmp_opp a b : lid_partial_cmp b a = CompOpp <$> lid_partial_cmp a b;
  lid_cmp_trans a b c :
    lid_partial_cmp a b = Some Lt → lid_partial_cmp b c = Some Lt → lid_partial_cmp a c = Some Lt;
  lid_cmp_incomp_l a b c :
    lid_partial_cmp a b = None → lid_partial_cmp b c = Some Lt → lid_partial_cmp a c = Some Lt;
  lid_cmp_incomp_r a b c :
    lid_partial_cmp a b = Some Lt → lid_partial_cmp b c = None → lid_partial_cmp a c = Some Lt;
  lid_cmp_term a b : (lid_term a < lid_term b)%N → lid_partial_cmp a b = Some Lt;
  lid_cmp_term_le a b : lid_partial_cmp a b ≠ Some Gt → (lid_term a ≤ lid_term b)%N;
  lid_to_committed_mono a b :
    lid_partial_cmp a b = Some Lt → lid_to_committed a ⪯ lid_to_committed b;
  lid_default_min a : lid_partial_cmp lid_default a ≠ Some Gt;
  lid_default_comparable a : lid_partial_cmp lid_default a ≠ None;
  lid_default_committed : lid_to_committed lid_default = clid_default;
}.
#[global] Hint Mode RaftLeaderId ! - - : typeclass_instances.

Class RaftTypeConfig : Type := {
  (** Application data of a log entry. *)
  D : Type;
  (** The result of applying an entry. *)
  R : Type;
  (** Node information, e.g. its address. *)
  Node : Type;
  SnapshotData : Type;
  LeaderId : Type;
  CommittedLeaderId : Type;
  node_eq_dec :: EqDecision Node;
  leader_id_eq_dec :: EqDecision LeaderId;
  clid_ord :: Ord CommittedLeaderId;
  raft_leader_id :: RaftLeaderId LeaderId CommittedLeaderId;
}.

(** ** [LeaderIdCompare] (leader_id_cmp.rs) *)
Module LeaderIdCompare.
Definition std (a b : Term * option NodeId) : option comparison :=
  match cmp a.1 b.1 with
  | Eq =>
      match a.2, b.2 with
      | None, None => Some Eq
      | Some _, None => Some Gt
      | None, Some _ => Some Lt
      | Some x, Some y => if decide (x = y) then Some Eq else None
      end
  | c => Some c
  end.

Definition adv (a b : Term * option NodeId) : option comparison :=
  Some (cmp a b).
End LeaderIdCompare.

(** ** [leader_id_adv::LeaderId]: totally ordered by (term, node id) *)
Module LeaderIdAdv.
Record LeaderId := { term : Term; node_id : NodeId }.

Definition key (l : LeaderId) : N * N := (l.(term), l.(node_id)).

Definition new (term : Term) (node_id : NodeId) : LeaderId := {| term := term; node_id := node_id |}.
Definition get_node_id (l : LeaderId) : option NodeId := Some l.(node_id).
Definition to_committed (l : LeaderId) : LeaderId := l.
Definition default : LeaderId := {| term := 0; node_id := 0 |}.

Lemma key_inj a b : key a = key b → a = b.
Proof. destruct a, b. rw /key /=. naive_solver. Qed.

(** [derive(PartialOrd, Ord)] *)
#[global] Instance leader_id_ord : Ord LeaderId := ord_inj key key_inj.

Definition partial_cmp (a b : LeaderId) : option comparison := Some (cmp a b).

(** The derived order is the one [LeaderIdCompare::adv] provides. *)
Lemma partial_cmp_adv a b :
  partial_cmp a b = LeaderIdCompare.adv (a.(term), get_node_id a) (b.(term), get_node_id b).
Proof. done. Qed.

Lemma cmp_term_lt (a b : LeaderId) : (a.(term) < b.(term))%N → cmp a b = Lt.
Proof.
  intros Hlt. rw /= /lex_cmp /key /=.
  by apply N.compare_lt_iff in Hlt as ->.
Qed.

#[global] Program Instance raft_leader_id : RaftLeaderId LeaderId LeaderId := {|
  lid_new := new; lid_term := term; lid_node_id := get_node_id;
  lid_to_committed := to_committed; lid_partial_cmp := partial_cmp;
  lid_default := default; clid_default := default;
|}.
Next Obligation. done. Qed.
Next Obligation. done. Qed.
Next Obligation. intros a b. rw /partial_cmp -cmp_eq. split; congruence. Qed.
Next Obligation. intros a b. rw /partial_cmp cmp_opp. done. Qed.
Next Obligation.
  rw /partial_cmp. intros a b c [= H1] [= H2]. f_equal. exact (cmp_trans a b c H1 H2).
Qed.
Next Obligation. done. Qed.
Next Obligation. done. Qed.
Next Obligation. intros a b Hlt. rw /partial_cmp. f_equal. by apply cmp_term_lt. Qed.
Next Obligation.
  intros a b Hle. destruct (decide (a.(term) ≤ b.(term))%N) as [|Hgt]; [done|].
  exfalso. apply Hle. rw /partial_cmp cmp_opp (cmp_term_lt b a); [lia|done].
Qed.
Next Obligation. rw /partial_cmp. intros a b [= Hlt]. by apply olt_le. Qed.
Next Obligation.
  intros [t n]. rw /partial_cmp /= /lex_cmp /key /=.
  destruct t, n; done.
Qed.
Next Obligation. done. Qed.
Next Obligation. done. Qed.
End LeaderIdAdv.

(** ** [leader_id_std::LeaderId]: standard Raft, at most one leader per term *)
Module LeaderIdStd.
Record LeaderId := { term : Term; voted_for : option NodeId }.

(** [CommittedLeaderId]: only the term is kept. *)
Record CommittedLeaderId := { cterm : Term }.

Definition new (term : Term) (node_id : NodeId) : LeaderId :=
  {| term := term; voted_for := Some node_id |}.
Definition new_committed (term : Term) (node_id : NodeId) : CommittedLeaderId :=
  {| cterm := term |}.
Definition to_committed (l : LeaderId) : CommittedLeaderId := new_committed l.(term) 0.
Definition default : LeaderId := {| term := 0; voted_for := None |}.

Definition partial_cmp (a b : LeaderId) : option comparison :=
  LeaderIdCompare.std (a.(term), a.(voted_for)) (b.(term), b.(voted_for)).

Lemma cterm_inj a b : cterm a = cterm b → a = b.
Proof. destruct a, b. naive_solver. Qed.
#[global] Instance committed_ord : Ord CommittedLeaderId := ord_inj cterm cterm_inj.

(** Every comparison result, by terms and then by [voted_for]. *)
Lemma partial_cmp_cases a b :
  (a.(term) < b.(term))%N ∧ partial_cmp a b = Some Lt ∨
  (b.(term) < a.(term))%N ∧ partial_cmp a b = Some Gt ∨
  a.(term) = b.(term) ∧
    partial_cmp a b =
      match a.(voted_for), b.(voted_for) with
      | None, None => Some Eq
      | Some _, None => Some Gt
      | None, Some _ => Some Lt
      | Some x, Some y => if decide (x = y) then Some Eq else None
      end.
Proof.
  rw /partial_cmp /LeaderIdCompare.std /=.
  destruct (N.compare_spec a.(term) b.(term)); naive_solver.
Qed.

Ltac cases a b :=
  let H := fresh in
  destruct (partial_cmp_cases a b) as [[? H]|[[? H]|[? H]]]; rw ?H; revert H.

#[global] Program Instance raft_leader_id : RaftLeaderId LeaderId CommittedLeaderId := {|
  lid_new := new; lid_term := term; lid_node_id := voted_for;
  lid_to_committed := to_committed; lid_partial_cmp := partial_cmp;
  lid_default := default; clid_default := {| cterm := 0 |};
|}.
Next Obligation. done. Qed.
Next Obligation. done. Qed.
Next Obligation.
  intros a b. cases a b; [naive_solver lia..|].
  destruct a as [ta [va|]], b as [tb [vb|]]; simpl in *; try case_decide; naive_solver.
Qed.
Next Obligation.
  intros a b. cases a b; cases b a; try lia; try done.
  destruct a as [ta [va|]], b as [tb [vb|]]; simpl in *; repeat case_decide; naive_solver.
Qed.
Next Obligation.
  intros a b c. cases a b; cases b c; cases a c; try lia; try done;
  destruct a as [ta [va|]], b as [tb [vb|]], c as [tc [vc|]]; simpl in *;
    repeat case_decide; subst; try done; try lia.
Qed.
Next Obligation.
  intros a b c. cases a b; cases b c; cases a c; try lia; try done;
  destruct a as [ta [va|]], b as [tb [vb|]], c as [tc [vc|]]; simpl in *;
    repeat case_decide; subst; try done; try lia.
Qed.
Next Obligation.
  intros a b c. cases a b; cases b c; cases a c; try lia; try done;
  destruct a as [ta [va|]], b as [tb [vb|]], c as [tc [vc|]]; simpl in *;
    repeat case_decide; subst; try done; try lia.
Qed.
Next Obligation. intros a b. cases a b; try done; lia. Qed.
Next Obligation. intros a b. cases a b; try done; lia. Qed.
Next Obligation.
  intros a b. cases a b; try done; intros _ _; apply N_ole; simpl; lia.
Qed.
Next Obligation.
  intros a. cases default a; try done; simpl in *; [lia|].
  by destruct (voted_for a).
Qed.
Next Obligation.
  intros a. cases default a; try done. simpl in *. by destruct (voted_for a).
Qed.
Next Obligation. done. Qed.
End LeaderIdStd.

(** ** The type configuration of the engine's unit tests (engine/testing.rs), used by the witnesses *)
#[global] Instance leader_id_adv_eq_dec : EqDecision LeaderIdAdv.LeaderId.
Proof. solve_decision. Defined.
#[global] Instance leader_id_std_eq_dec : EqDecision LeaderIdStd.LeaderId.
Proof. solve_decision. Defined.

Definition UTConfig : RaftTypeConfig := {|
  D := unit; R := unit; Node := unit; SnapshotData := unit;
  LeaderId := LeaderIdAdv.LeaderId; CommittedLeaderId := LeaderIdAdv.LeaderId;
|}.

(** The same with the leader id of standard Raft. *)
Definition StdConfig : RaftTypeConfig := {|
  D := unit; R := unit; Node := unit; SnapshotData := unit;
  LeaderId := LeaderIdStd.LeaderId; CommittedLeaderId := LeaderIdStd.CommittedLeaderId;
|}.
