(* ===== verification/LogId.v ===== *)
(** * Log ids (openraft/src/log_id/, openraft/src/log_id_range.rs)

    A log id is the committed leader id that proposed an entry together with the index of the
    entry; it is ordered lexicographically.  [RefLogId] of the source is a borrowed view of a log
    id with the same two fields and the same derived order, so it is the same type here. *)

From S2P Require Export TypeConfig.

Section log_id.
Context {C : RaftTypeConfig}.

Record LogId := { leader_id : CommittedLeaderId; index : N }.

Definition LogId_new (leader_id : CommittedLeaderId) (index : N) : LogId :=
  {| leader_id := leader_id; index := index |}.

(** [LogId::default()] *)
Definition LogId_default : LogId := {| leader_id := clid_default (LID := LeaderId); index := 0 |}.

Definition log_id_key (l : LogId) : CommittedLeaderId * N := (l.(leader_id), l.(index)).

Lemma log_id_key_inj a b : log_id_key a = log_id_key b → a = b.
Proof. destruct a, b. rw /log_id_key /=. naive_solver. Qed.

(** [derive(PartialOrd, Ord)] *)
#[global] Instance log_id_ord : Ord LogId := ord_inj log_id_key log_id_key_inj.

(** [LogIdOptionExt] / [OptionRaftLogIdExt] *)
Definition opt_index (o : option LogId) : option N := index <$> o.

Definition next_index (o : option LogId) : N :=
  match o with None => 0 | Some log_id => log_id.(index) + 1 end%N.

Definition opt_leader_id (o : option LogId) : option CommittedLeaderId := leader_id <$> o.

(** [LogIdRange]: the open-closed range [(prev, last]] *)
Record LogIdRange := { prev : option LogId; last : option LogId }.

Definition LogIdRange_new (prev last : option LogId) : LogIdRange := {| prev := prev; last := last |}.

Definition LogIdRange_validate (r : LogIdRange) : bool := r.(prev) ⪯? r.(last).

Definition LogIdRange_len (r : LogIdRange) : Outcome N :=
  sub_u64 (next_index r.(last)) (next_index r.(prev)).

Lemma log_id_olt (a b : LogId) :
  a ≺ b ↔ a.(leader_id) ≺ b.(leader_id) ∨ a.(leader_id) = b.(leader_id) ∧ (a.(index) < b.(index))%N.
Proof. rw -N_olt. apply (pair_olt (log_id_key a) (log_id_key b)). Qed.

Lemma log_id_ole (a b : LogId) :
  a ⪯ b ↔ a.(leader_id) ≺ b.(leader_id) ∨ a.(leader_id) = b.(leader_id) ∧ (a.(index) ≤ b.(index))%N.
Proof.
  rw ole_lt_eq log_id_olt. split.
  - intros [[?|[??]]| ->]; [auto|right; split; [done|lia]|right; split; [done|lia]].
  - intros [?|[? Hle]]; [auto|].
    destruct (decide (index a = index b)) as [Heq|Hne].
    + right. destruct a, b; simpl in *; congruence.
    + left. right. split; [done|lia].
Qed.

Lemma log_id_leader_le (a b : LogId) : a ⪯ b → a.(leader_id) ⪯ b.(leader_id).
Proof. rw log_id_ole. intros [?|[-> _]]; order. Qed.

(** Within a log whose leader ids do not decrease with the index, ordering log ids and ordering
    their indexes agree. *)
Lemma log_id_lt_of_index (a b : LogId) :
  a.(leader_id) ⪯ b.(leader_id) → (a.(index) < b.(index))%N → a ≺ b.
Proof.
  intros Hl Hi. apply log_id_olt. apply ole_lt_eq in Hl as [?|?]; auto.
Qed.
End log_id.

(** [LogIndexOptionExt] for [Option<u64>] *)
Definition log_index_next (o : option N) : N :=
  match o with None => 0 | Some v => v + 1 end%N.

Definition log_index_prev (o : option N) : Outcome (option N) :=
  match o with
  | None => Panic "None has no previous value"
  | Some v => Done (if decide (v = 0)%N then None else Some (v - 1)%N)
  end.

Definition log_index_add (o : option N) (v : N) : Outcome (option N) :=
  log_index_prev (Some (log_index_next o + v)%N).

Lemma log_index_add_spec o v :
  log_index_add o v =
    Done (match o with
          | Some i => Some (i + v)%N
          | None => if decide (v = 0)%N then None else Some (v - 1)%N
          end).
Proof.
  rw /log_index_add /=. destruct o as [i|]; simpl.
  - rw decide_False; [lia|]. do 2 f_equal. lia.
  - done.
Qed.

#[global] Instance log_id_eq_dec {C : RaftTypeConfig} : EqDecision LogId.
Proof. apply _. Defined.
#[global] Instance log_id_range_eq_dec {C : RaftTypeConfig} : EqDecision LogIdRange.
Proof. solve_decision. Defined.

#[export] Hint Resolve log_id_leader_le : raft_ord.

(** Log ids of the test configuration, for the witnesses. *)
Definition ut_log_id (term node_id index : N) : LogId (C := UTConfig) :=
  LogId_new (C := UTConfig) (LeaderIdAdv.new term node_id) index.
