(* ===== verification/Vote.v ===== *)
(** * Votes (openraft/src/vote/)

    A vote is the leader id a node votes for, with a flag telling whether a quorum granted it.
    Votes are compared through [RefVote]: by leader id first, and by the committed flag when the
    leader ids are equal or not comparable.  The comparison is partial, and it panics on two
    committed votes with incomparable leader ids.  [vote_cmp] is the panic-free order the proofs
    use, and [partial_cmp_spec] relates the two. *)

From S2P Require Export LogId.

Section vote.
Context {C : RaftTypeConfig}.

Record Vote := { vote_leader_id : LeaderId; vote_committed : bool }.

Definition from_leader_id (leader_id : LeaderId) (committed : bool) : Vote :=
  {| vote_leader_id := leader_id; vote_committed := committed |}.
Definition Vote_new (term : Term) (node_id : NodeId) : Vote :=
  {| vote_leader_id := lid_new term node_id; vote_committed := false |}.
Definition Vote_new_committed (term : Term) (node_id : NodeId) : Vote :=
  {| vote_leader_id := lid_new term node_id; vote_committed := true |}.
Definition Vote_default : Vote := {| vote_leader_id := lid_default; vote_committed := false |}.

Definition is_committed (v : Vote) : bool := v.(vote_committed).

(** [CommittedVote] and [NonCommittedVote] *)
Record CommittedVote := { cv_leader_id : LeaderId }.
Record NonCommittedVote := { ncv_leader_id : LeaderId }.
Inductive VoteStatus := Committed (v : CommittedVote) | Pending (v : NonCommittedVote).

Definition committed_into_vote (v : CommittedVote) : Vote := from_leader_id v.(cv_leader_id) true.
Definition non_committed_into_vote (v : NonCommittedVote) : Vote :=
  from_leader_id v.(ncv_leader_id) false.
Definition committed_leader_id (v : CommittedVote) : CommittedLeaderId :=
  lid_to_committed v.(cv_leader_id).

(** [RaftVoteExt] *)
Definition from_term_node_id (term : Term) (node_id : NodeId) : Vote :=
  from_leader_id (lid_new term node_id) false.
Definition vote_term (v : Vote) : Term := lid_term v.(vote_leader_id).
Definition leader_node_id (v : Vote) : option NodeId := lid_node_id v.(vote_leader_id).
Definition to_committed (v : Vote) : CommittedVote := {| cv_leader_id := v.(vote_leader_id) |}.
Definition to_non_committed (v : Vote) : NonCommittedVote := {| ncv_leader_id := v.(vote_leader_id) |}.
Definition into_vote_status (v : Vote) : VoteStatus :=
  if is_committed v then Committed (to_committed v) else Pending (to_non_committed v).
Definition is_same_leader (v : Vote) (leader_id : CommittedLeaderId) : bool :=
  bool_decide (lid_to_committed v.(vote_leader_id) = leader_id).

(** [RefVote] *)
Record RefVote := { rv_leader_id : option LeaderId; rv_committed : bool }.

Definition as_ref_vote (v : Vote) : RefVote :=
  {| rv_leader_id := Some v.(vote_leader_id); rv_committed := v.(vote_committed) |}.
Definition committed_as_ref_vote (v : CommittedVote) : RefVote :=
  {| rv_leader_id := Some v.(cv_leader_id); rv_committed := true |}.
Definition non_committed_as_ref_vote (v : NonCommittedVote) : RefVote :=
  {| rv_leader_id := Some v.(ncv_leader_id); rv_committed := false |}.

(** [PartialOrd] of [Option<&LeaderId>] *)
Definition opt_lid_partial_cmp (a b : option LeaderId) : option comparison :=
  match a, b with
  | None, None => Some Eq
  | None, Some _ => Some Lt
  | Some _, None => Some Gt
  | Some a, Some b => lid_partial_cmp a b
  end.

(** [impl PartialOrd for RefVote] *)
Definition RefVote_partial_cmp (a b : RefVote) : Outcome (option comparison) :=
  match opt_lid_partial_cmp a.(rv_leader_id) b.(rv_leader_id) with
  | Some Eq => Done (Some (cmp a.(rv_committed) b.(rv_committed)))
  | None =>
      match a.(rv_committed), b.(rv_committed) with
      | false, false => Done None
      | true, false => Done (Some Gt)
      | false, true => Done (Some Lt)
      | true, true => Panic "two incomparable leaders can not be both committed"
      end
  | c => Done c
  end.

(** The operators [>=] and [>] of a Rust [PartialOrd] type. *)
Definition pcmp_ge (c : option comparison) : bool :=
  match c with Some Gt | Some Eq => true | _ => false end.
Definition pcmp_gt (c : option comparison) : bool :=
  match c with Some Gt => true | _ => false end.

Definition ref_vote_ge (a b : RefVote) : Outcome bool := pcmp_ge <$> RefVote_partial_cmp a b.
Definition ref_vote_gt (a b : RefVote) : Outcome bool := pcmp_gt <$> RefVote_partial_cmp a b.

(** [impl Ord for CommittedVote] *)
Definition CommittedVote_cmp (a b : CommittedVote) : Outcome comparison :=
  c ← RefVote_partial_cmp (committed_as_ref_vote a) (committed_as_ref_vote b);
  unwrap c "called `Option::unwrap()` on a `None` value".

(** ** The order the proofs use *)

Definition vote_cmp (a b : Vote) : option comparison :=
  match lid_partial_cmp a.(vote_leader_id) b.(vote_leader_id) with
  | Some Eq => Some (cmp a.(vote_committed) b.(vote_committed))
  | None =>
      match a.(vote_committed), b.(vote_committed) with
      | true, false => Some Gt
      | false, true => Some Lt
      | _, _ => None
      end
  | c => c
  end.

Definition vote_lt (a b : Vote) : Prop := vote_cmp a b = Some Lt.
Definition vote_le (a b : Vote) : Prop := vote_lt a b ∨ a = b.

(** Two committed votes have comparable leader ids: what quorum intersection guarantees. *)
Definition vote_compat (a b : Vote) : Prop :=
  a.(vote_committed) = true → b.(vote_committed) = true →
  lid_partial_cmp a.(vote_leader_id) b.(vote_leader_id) ≠ None.

Lemma partial_cmp_spec (a b : Vote) :
  vote_compat a b → RefVote_partial_cmp (as_ref_vote a) (as_ref_vote b) = Done (vote_cmp a b).
Proof.
  rw /vote_compat /RefVote_partial_cmp /vote_cmp /=. intros Hc.
  destruct (lid_partial_cmp _ _) as [[]|]; try done.
  destruct (vote_committed a), (vote_committed b); naive_solver.
Qed.

Lemma vote_cmp_opp a b : vote_cmp b a = CompOpp <$> vote_cmp a b.
Proof.
  rw /vote_cmp (lid_cmp_opp (vote_leader_id a)).
  destruct (lid_partial_cmp _ _) as [[]|]; simpl; try done;
    by destruct (vote_committed a), (vote_committed b).
Qed.

Lemma lid_cmp_refl (a : LeaderId) : lid_partial_cmp a a = Some Eq.
Proof. by apply lid_cmp_eq. Qed.

Lemma vote_cmp_refl a : vote_cmp a a = Some Eq.
Proof. rw /vote_cmp lid_cmp_refl cmp_refl. done. Qed.

Lemma vote_cmp_eq a b : vote_cmp a b = Some Eq ↔ a = b.
Proof.
  split; [|intros ->; apply vote_cmp_refl].
  rw /vote_cmp. destruct (lid_partial_cmp _ _) as [[]|] eqn:E; try done.
  - apply lid_cmp_eq in E. destruct a as [? []], b as [? []]; simpl in *; congruence.
  - by destruct (vote_committed a), (vote_committed b).
Qed.

Lemma vote_lt_trans a b c : vote_lt a b → vote_lt b c → vote_lt a c.
Proof.
  rw /vote_lt /vote_cmp.
  destruct (lid_partial_cmp (vote_leader_id a) (vote_leader_id b)) as [[]|] eqn:E1; try done;
  destruct (lid_partial_cmp (vote_leader_id b) (vote_leader_id c)) as [[]|] eqn:E2; try done.
  - apply lid_cmp_eq in E1 as ->. rw E2. by destruct a as [? []], b as [? []], c as [? []].
  - apply lid_cmp_eq in E1 as ->. by rw E2.
  - apply lid_cmp_eq in E1 as ->. rw E2. by destruct a as [? []], b as [? []], c as [? []].
  - apply lid_cmp_eq in E2 as <-. by rw E1.
  - by rw (lid_cmp_trans _ _ _ E1 E2).
  - by rw (lid_cmp_incomp_r _ _ _ E1 E2).
  - apply lid_cmp_eq in E2 as <-. rw E1. by destruct a as [? []], b as [? []], c as [? []].
  - by rw (lid_cmp_incomp_l _ _ _ E1 E2).
  - by destruct a as [? []], b as [? []], c as [? []].
Qed.

Lemma vote_lt_irrefl a : ¬ vote_lt a a.
Proof. rw /vote_lt vote_cmp_refl. done. Qed.

Lemma vote_le_refl a : vote_le a a.
Proof. by right. Qed.

Lemma vote_le_trans a b c : vote_le a b → vote_le b c → vote_le a c.
Proof. intros [?| ->] [?| <-]; rw /vote_le; eauto using vote_lt_trans. Qed.

Lemma vote_lt_le_trans a b c : vote_lt a b → vote_le b c → vote_lt a c.
Proof. intros ? [?| <-]; eauto using vote_lt_trans. Qed.

Lemma vote_le_antisymm a b : vote_le a b → vote_le b a → a = b.
Proof.
  intros [Hab|?] [Hba|?]; try done.
  destruct (vote_lt_irrefl a). by eapply vote_lt_trans.
Qed.

Lemma vote_ge_cmp a b : pcmp_ge (vote_cmp a b) = true ↔ vote_le b a.
Proof.
  rw /vote_le /vote_lt (vote_cmp_opp a b) -(vote_cmp_eq b a) (vote_cmp_opp a b).
  destruct (vote_cmp a b) as [[]|]; simpl; naive_solver.
Qed.

Lemma vote_gt_cmp a b : pcmp_gt (vote_cmp a b) = true ↔ vote_lt b a.
Proof.
  rw /vote_lt (vote_cmp_opp a b). destruct (vote_cmp a b) as [[]|]; simpl; naive_solver.
Qed.

Lemma vote_le_leader a b :
  vote_le a b → vote_committed a = true →
  lid_partial_cmp a.(vote_leader_id) b.(vote_leader_id) = Some Lt ∨
  a.(vote_leader_id) = b.(vote_leader_id).
Proof.
  intros [Hlt| ->] Hca; [|by right].
  revert Hlt. rw /vote_lt /vote_cmp.
  destruct (lid_partial_cmp _ _) as [[]|] eqn:E; try done; auto.
  - intros _. right. by apply lid_cmp_eq.
  - rw Hca. by destruct (vote_committed b).
Qed.

Lemma vote_lt_term a b : vote_lt a b → (vote_term a ≤ vote_term b)%N.
Proof.
  rw /vote_lt /vote_cmp /vote_term. intros Hlt. apply lid_cmp_term_le.
  destruct (lid_partial_cmp _ _) as [[]|]; naive_solver.
Qed.

Lemma vote_le_term a b : vote_le a b → (vote_term a ≤ vote_term b)%N.
Proof. intros [?| ->]; [by apply vote_lt_term|done]. Qed.

Lemma vote_lt_of_term a b : (vote_term a < vote_term b)%N → vote_lt a b.
Proof. intros Hlt. by rw /vote_lt /vote_cmp (lid_cmp_term _ _ Hlt). Qed.
End vote.

#[global] Instance vote_eq_dec {C : RaftTypeConfig} : EqDecision Vote.
Proof. solve_decision. Defined.
#[global] Instance committed_vote_eq_dec {C : RaftTypeConfig} : EqDecision CommittedVote.
Proof. solve_decision. Defined.
#[global] Instance non_committed_vote_eq_dec {C : RaftTypeConfig} : EqDecision NonCommittedVote.
Proof. solve_decision. Defined.

Create HintDb vote discriminated.
#[export] Hint Resolve vote_le_refl vote_le_trans vote_lt_le_trans vote_lt_trans : vote.
