(* ===== verification/Quorum.v ===== *)
(** * Quorum sets (openraft/src/quorum/)

    The trait [QuorumSet] is the class [QuorumSet]; a [Vec] or a [BTreeSet] of node ids is a
    majority quorum set, and [Joint] requires a quorum in each of its children.  [QuorumLaws] is
    what the clients of a quorum set rely on: being a quorum is monotone, and two quorums meet.
    [coherent_intersect] and [find_coherent_spec] are the safety argument of a membership change. *)

From S2P Require Export Order.

Notation NodeId := N (only parsing).

(** ** [BTreeSet<NodeId>]: a finite set, iterated in ascending order *)
Definition btree_iter (s : gset N) : list N := merge_sort (≤)%N (elements s).

Class QuorumSet (QS : Type) := {
  is_quorum : QS → list NodeId → bool;
  qs_ids : QS → list NodeId;
}.
#[global] Hint Mode QuorumSet ! : typeclass_instances.

(** ** Majority quorum sets (quorum_set_impl.rs) *)

(** The loop [for id in ids { if self.contains(id) { count += 2; if count > limit { return true } } }] *)
Fixpoint count_quorum (contains : N → bool) (limit count : nat) (ids : list N) : bool :=
  match ids with
  | [] => false
  | id :: ids =>
      if contains id then
        let count := count + 2 in
        if limit <? count then true else count_quorum contains limit count ids
      else count_quorum contains limit count ids
  end.

Definition vec_is_quorum (qs ids : list N) : bool :=
  count_quorum (λ id, bool_decide (id ∈ qs)) (length qs) 0 ids.
Definition vec_ids (qs : list N) : list N := btree_iter (list_to_set qs).
#[global] Instance vec_quorum_set : QuorumSet (list N) :=
  {| is_quorum := vec_is_quorum; qs_ids := vec_ids |}.

Definition btree_is_quorum (qs : gset N) (ids : list N) : bool :=
  count_quorum (λ id, bool_decide (id ∈ qs)) (size qs) 0 ids.
#[global] Instance btree_quorum_set : QuorumSet (gset N) :=
  {| is_quorum := btree_is_quorum; qs_ids := btree_iter |}.

(** ** [Joint] (joint.rs, joint_impl.rs) *)
Record Joint (QS : Type) := Joint_new { children : list QS }.
Arguments Joint_new {QS} _.
Arguments children {QS} _.

Fixpoint joint_is_quorum `{QuorumSet QS} (data : list QS) (ids : list N) : bool :=
  match data with
  | [] => true
  | child :: data => if negb (is_quorum child ids) then false else joint_is_quorum data ids
  end.
Fixpoint joint_extend `{QuorumSet QS} (data : list QS) (ids : gset N) : gset N :=
  match data with
  | [] => ids
  | child :: data => joint_extend data (ids ∪ list_to_set (qs_ids child))
  end.
Definition joint_ids `{QuorumSet QS} (j : Joint QS) : list N := btree_iter (joint_extend j.(children) ∅).
#[global] Instance joint_quorum_set `{QuorumSet QS} : QuorumSet (Joint QS) :=
  {| is_quorum := λ j, joint_is_quorum j.(children); qs_ids := joint_ids |}.

(** [proposer::LeaderQuorumSet] *)
Notation LeaderQuorumSet := (Joint (list N)) (only parsing).

(** ** Coherence (coherent.rs, coherent_impl.rs) *)
Definition is_coherent_with `{EqDecision QS} (a b : Joint QS) : bool :=
  existsb (λ x, existsb (λ y, bool_decide (x = y)) b.(children)) a.(children).

Definition is_coherent_with_one `{EqDecision QS} (a : Joint QS) (other : QS) : bool :=
  existsb (λ x, bool_decide (x = other)) a.(children).

Definition find_coherent `{EqDecision QS} (a : Joint QS) (other : QS) : Joint QS :=
  if is_coherent_with_one a other then Joint_new [other]
  else match list.last a.(children) with
       | Some last => Joint_new [last; other]
       | None => Joint_new [other]
       end.

(** ** Lemmas *)

Lemma elem_of_btree_iter (s : gset N) x : x ∈ btree_iter s ↔ x ∈ s.
Proof. rw /btree_iter merge_sort_Permutation elem_of_elements. done. Qed.

Lemma btree_iter_NoDup (s : gset N) : NoDup (btree_iter s).
Proof. rw /btree_iter merge_sort_Permutation. apply NoDup_elements. Qed.

Lemma btree_iter_sorted (s : gset N) : Sorted (≤)%N (btree_iter s).
Proof. apply Sorted_merge_sort. intros x y. lia. Qed.

Lemma btree_iter_length (s : gset N) : length (btree_iter s) = size s.
Proof. rw /btree_iter merge_sort_Permutation. done. Qed.

Lemma count_quorum_spec contains limit count ids :
  count ≤ limit →
  count_quorum contains limit count ids = true ↔
    limit < count + 2 * length (filter (λ id, contains id = true) ids).
Proof.
  revert count. induction ids as [|id ids IH]; intros count Hle; simpl; [split; [done|lia]|].
  destruct (contains id) eqn:Hc.
  - rw filter_cons_True; [done|]. simpl. destruct (Nat.ltb_spec limit (count + 2)).
    + split; [lia|done].
    + rw IH; lia.
  - rw filter_cons_False; [congruence|]. by apply IH.
Qed.

(** The number of distinct members of [s] in a duplicate-free list. *)
Lemma count_members_le (s : gset N) (l : list N) :
  NoDup l → length (filter (λ x, x ∈ s) l) ≤ size s.
Proof.
  intros Hnd. rw -(size_list_to_set (C := gset N) (filter (λ x, x ∈ s) l)).
  { by apply NoDup_filter. }
  apply subseteq_size. intros x. rw elem_of_list_to_set list_elem_of_filter. tauto.
Qed.

Lemma count_members_meet (s : gset N) (l1 l2 : list N) :
  NoDup l1 → NoDup l2 →
  size s < length (filter (λ x, x ∈ s) l1) + length (filter (λ x, x ∈ s) l2) →
  ∃ x, x ∈ s ∧ x ∈ l1 ∧ x ∈ l2.
Proof.
  intros Hnd1 Hnd2 Hlt.
  set (A := list_to_set (filter (λ x, x ∈ s) l1) : gset N).
  set (B := list_to_set (filter (λ x, x ∈ s) l2) : gset N).
  destruct (decide (A ∩ B = ∅)) as [Hdisj|Hne].
  - exfalso. assert (size (A ∪ B) ≤ size s) as Hle.
    { apply subseteq_size. intros x.
      rw elem_of_union !elem_of_list_to_set !list_elem_of_filter. tauto. }
    rw size_union in Hle; [set_solver|].
    rw !size_list_to_set in Hle; [by apply NoDup_filter..|]. lia.
  - apply set_choose_L in Hne as [x Hx].
    rw /A /B elem_of_intersection !elem_of_list_to_set !list_elem_of_filter in Hx.
    naive_solver.
Qed.

Lemma count_members_mono (s : gset N) (l1 l2 : list N) :
  NoDup l1 → l1 ⊆ l2 →
  length (filter (λ x, x ∈ s) l1) ≤ length (filter (λ x, x ∈ s) l2).
Proof.
  intros Hnd Hsub. apply submseteq_length. apply NoDup_submseteq.
  - by apply NoDup_filter.
  - intros x. rw !list_elem_of_filter. naive_solver.
Qed.

(** What the clients of a quorum set rely on. *)
Class QuorumLaws (QS : Type) `{QuorumSet QS} := {
  quorum_mono (q : QS) (l1 l2 : list N) :
    NoDup l1 → l1 ⊆ l2 → is_quorum q l1 = true → is_quorum q l2 = true;
  quorum_intersect (q : QS) (l1 l2 : list N) :
    is_quorum q [] = false → NoDup l1 → NoDup l2 →
    is_quorum q l1 = true → is_quorum q l2 = true → ∃ x, x ∈ l1 ∧ x ∈ l2;
  quorum_ids_NoDup (q : QS) : NoDup (qs_ids q);
}.
#[global] Hint Mode QuorumLaws ! - : typeclass_instances.

Section majority.
Context (contains : N → bool) (s : gset N) (limit : nat).
Context (Hcontains : ∀ x, contains x = true ↔ x ∈ s) (Hlimit : size s ≤ limit).

Lemma count_quorum_members ids :
  count_quorum contains limit 0 ids = true ↔ limit < 2 * length (filter (λ x, x ∈ s) ids).
Proof.
  rw count_quorum_spec; [lia|].
  by rw (list_filter_iff _ (λ x, x ∈ s) ids Hcontains).
Qed.

Lemma majority_mono l1 l2 :
  NoDup l1 → l1 ⊆ l2 →
  count_quorum contains limit 0 l1 = true → count_quorum contains limit 0 l2 = true.
Proof.
  intros Hnd Hsub. rw !count_quorum_members.
  pose proof (count_members_mono s l1 l2 Hnd Hsub). lia.
Qed.

Lemma majority_meet l1 l2 :
  NoDup l1 → NoDup l2 →
  count_quorum contains limit 0 l1 = true → count_quorum contains limit 0 l2 = true →
  ∃ x, x ∈ s ∧ x ∈ l1 ∧ x ∈ l2.
Proof.
  intros Hnd1 Hnd2. rw !count_quorum_members. intros H1 H2.
  apply count_members_meet; [done..|lia].
Qed.
End majority.

Lemma vec_contains (qs : list N) x :
  bool_decide (x ∈ qs) = true ↔ x ∈ (list_to_set qs : gset N).
Proof. rw bool_decide_eq_true elem_of_list_to_set. done. Qed.

Lemma vec_limit (qs : list N) : size (list_to_set qs : gset N) ≤ length qs.
Proof.
  induction qs as [|x qs IH]; simpl; [apply Nat.le_0_l|].
  rw size_union_alt size_singleton. apply le_n_S. etrans; [|exact IH].
  apply subseteq_size. set_solver.
Qed.

#[global] Instance vec_quorum_laws : QuorumLaws (list N).
Proof.
  split.
  - intros q l1 l2. apply majority_mono with (list_to_set q); [apply vec_contains|apply vec_limit].
  - intros q l1 l2 _ Hnd1 Hnd2 Hq1 Hq2.
    destruct (majority_meet _ _ _ (vec_contains q) (vec_limit q) l1 l2) as (x & _ & ?); eauto.
  - intros q. apply btree_iter_NoDup.
Qed.

#[global] Instance btree_quorum_laws : QuorumLaws (gset N).
Proof.
  split.
  - intros q l1 l2. apply majority_mono with q; [intros x; by rw bool_decide_eq_true|done].
  - intros q l1 l2 _ Hnd1 Hnd2 Hq1 Hq2.
    destruct (majority_meet (λ id, bool_decide (id ∈ q)) q (size q)
      (λ x, bool_decide_eq_true _) (le_n _) l1 l2) as (x & _ & ?); eauto.
  - intros q. apply btree_iter_NoDup.
Qed.

Section joint.
Context `{QuorumLaws QS}.

Lemma joint_is_quorum_spec (data : list QS) ids :
  joint_is_quorum data ids = true ↔ ∀ c, c ∈ data → is_quorum c ids = true.
Proof.
  induction data as [|c data IH]; simpl; [set_solver|].
  setoid_rewrite elem_of_cons. destruct (is_quorum c ids) eqn:E; simpl; naive_solver.
Qed.

Lemma joint_extend_spec (data : list QS) (s : gset N) x :
  x ∈ joint_extend data s ↔ x ∈ s ∨ ∃ c, c ∈ data ∧ x ∈ qs_ids c.
Proof.
  revert s. induction data as [|c data IH]; intros s; simpl; [set_solver|].
  rw IH elem_of_union elem_of_list_to_set. set_solver.
Qed.

Lemma joint_is_quorum_false (data : list QS) ids :
  joint_is_quorum data ids = false → ∃ c, c ∈ data ∧ is_quorum c ids = false.
Proof.
  induction data as [|c data IH]; simpl; [done|].
  destruct (is_quorum c ids) eqn:E; simpl; [|set_solver]. intros (c' & ? & ?)%IH. set_solver.
Qed.

#[global] Instance joint_quorum_laws : QuorumLaws (Joint QS).
Proof.
  constructor; simpl.
  - intros q l1 l2 Hnd Hsub. rw !joint_is_quorum_spec. intros Hq c Hc.
    exact (quorum_mono c l1 l2 Hnd Hsub (Hq c Hc)).
  - intros q l1 l2 (c & Hc & Hne)%joint_is_quorum_false Hnd1 Hnd2.
    rw !joint_is_quorum_spec. intros Hq1 Hq2.
    exact (quorum_intersect c l1 l2 Hne Hnd1 Hnd2 (Hq1 c Hc) (Hq2 c Hc)).
  - intros q. apply btree_iter_NoDup.
Qed.

Lemma joint_elem_ids (data : list QS) x :
  x ∈ qs_ids (Joint_new data) ↔ ∃ c, c ∈ data ∧ x ∈ qs_ids c.
Proof. rw /= /joint_ids elem_of_btree_iter joint_extend_spec. set_solver. Qed.
End joint.

Section coherent.
Context `{EqDecision QS}.
Implicit Types a b : Joint QS.

Lemma is_coherent_with_spec a b :
  is_coherent_with a b = true ↔ ∃ c, c ∈ a.(children) ∧ c ∈ b.(children).
Proof.
  rw /is_coherent_with existsb_exists. setoid_rewrite existsb_exists.
  setoid_rewrite bool_decide_eq_true. setoid_rewrite <- list_elem_of_In. naive_solver.
Qed.

Lemma is_coherent_with_one_spec a c :
  is_coherent_with_one a c = true ↔ c ∈ a.(children).
Proof.
  rw /is_coherent_with_one existsb_exists. setoid_rewrite bool_decide_eq_true.
  setoid_rewrite <- list_elem_of_In. naive_solver.
Qed.

Lemma is_coherent_with_sym a b : is_coherent_with a b = is_coherent_with b a.
Proof. apply Bool.eq_iff_eq_true. rw !is_coherent_with_spec. naive_solver. Qed.

Lemma find_coherent_children a other :
  (find_coherent a other).(children) =
    (if is_coherent_with_one a other then [other]
     else match list.last a.(children) with Some l => [l; other] | None => [other] end).
Proof. rw /find_coherent. case_match; [done|]. by case_match. Qed.

Lemma find_coherent_other a other : is_coherent_with_one (find_coherent a other) other = true.
Proof.
  apply is_coherent_with_one_spec. rw find_coherent_children. repeat case_match; set_solver.
Qed.

Lemma find_coherent_self a other :
  a.(children) ≠ [] → is_coherent_with a (find_coherent a other) = true.
Proof.
  intros Hne. apply is_coherent_with_spec. rw find_coherent_children.
  destruct (is_coherent_with_one a other) eqn:E.
  { apply is_coherent_with_one_spec in E. set_solver. }
  destruct (list.last (children a)) as [l|] eqn:El; [|by apply last_None in El].
  apply last_Some in El as [l' El]. exists l. rw El. set_solver.
Qed.
End coherent.

(** Child [q] of a quorum set in which the empty list is not a quorum. *)
Definition nonvacuous `{QuorumSet QS} (j : Joint QS) : bool :=
  forallb (λ q, negb (is_quorum q [])) j.(children).

Lemma nonvacuous_child `{QuorumSet QS} (j : Joint QS) q :
  nonvacuous j = true → q ∈ j.(children) → is_quorum q [] = false.
Proof.
  rw /nonvacuous forallb_forall. intros Hall Hq%list_elem_of_In.
  apply Hall, negb_true_iff in Hq. done.
Qed.

(** A majority quorum set never accepts the empty list. *)
Lemma vec_nonvacuous (q : list N) : is_quorum q [] = false.
Proof. done. Qed.
Lemma btree_nonvacuous (q : gset N) : is_quorum q [] = false.
Proof. done. Qed.
#[export] Hint Resolve vec_nonvacuous btree_nonvacuous : core.

(** ** Properties *)

(** C25: quorums of coherent configurations intersect.  When [is_coherent_with] accepts two joint
    configurations of node sets, every quorum of one shares a node with every quorum of the other:
    this is what makes the step of a membership change safe. *)
Theorem coherent_quorums_intersect (a b : Joint (gset N)) (l1 l2 : list N) :
  is_coherent_with a b = true → NoDup l1 → NoDup l2 →
  is_quorum a l1 = true → is_quorum b l2 = true →
  ∃ x, x ∈ l1 ∧ x ∈ l2.
Proof.
  intros (c & Ha & Hb)%is_coherent_with_spec Hnd1 Hnd2.
  rw /= !joint_is_quorum_spec. intros Hq1 Hq2.
  eapply (quorum_intersect c); eauto.
Qed.

Lemma coherent_quorums_intersect_witness :
  ∃ x, x ∈ [2; 3; 5]%N ∧ x ∈ [1; 3; 4; 6]%N.
Proof.
  apply (coherent_quorums_intersect
           (Joint_new [list_to_set [1; 2; 3]; list_to_set [3; 4; 5]]%N)
           (Joint_new [list_to_set [3; 4; 5]; list_to_set [5; 6; 1]]%N));
    first [by vm_compute|by apply (bool_decide_unpack _)].
Defined.

(** [find_coherent] yields a configuration that is coherent with the current one (unless the
    current one is empty) and that contains the wanted node set; a second application with the
    same target yields exactly the uniform configuration of the target, so a change takes at most
    two steps. *)
Theorem find_coherent_spec `{EqDecision QS} (a : Joint QS) (other : QS) :
  (a.(children) ≠ [] → is_coherent_with a (find_coherent a other) = true) ∧
  is_coherent_with_one (find_coherent a other) other = true ∧
  find_coherent (find_coherent a other) other = Joint_new [other].
Proof.
  split; [apply find_coherent_self|]. split; [apply find_coherent_other|].
  rw {1}/find_coherent find_coherent_other. done.
Qed.

(** A list of distinct nodes is a quorum of a set of voters exactly when it holds more than
    half of the voters. *)
Theorem btree_is_quorum_spec (qs : gset N) (ids : list N) :
  NoDup ids →
  btree_is_quorum qs ids = bool_decide (size qs < 2 * size (qs ∩ list_to_set ids)).
Proof.
  intros Hnd. apply Bool.eq_iff_eq_true.
  rw bool_decide_eq_true (count_quorum_members _ qs).
  { intros x. by rw bool_decide_eq_true. }
  { done. }
  assert (length (filter (λ x, x ∈ qs) ids) = size (qs ∩ list_to_set ids)) as ->; [|done].
  rw -(size_list_to_set (C := gset N) (filter (λ x, x ∈ qs) ids)).
  { by apply NoDup_filter. }
  f_equal. apply set_eq. intros x. rw elem_of_intersection !elem_of_list_to_set list_elem_of_filter. done.
Qed.

Lemma btree_is_quorum_spec_witness :
  btree_is_quorum (list_to_set [1; 2; 3; 4]%N) [2; 4; 9]%N = false.
Proof. rw btree_is_quorum_spec; [by apply (bool_decide_unpack _)|done]. Defined.
