(* ===== verification/Progress.v ===== *)
(** * Progress tracking (openraft/src/progress/mod.rs)

    [VecProgress] keeps one value per node, voters first, and the greatest value granted by a
    quorum of the voters.  [update_with] re-computes the granted value only when the updated value
    passes it, relying on the voters whose value is above [granted] being sorted in descending
    order.  [vp_wf] is that invariant together with what [granted] means; [update_with_wf] shows
    that an update preserves it under the side condition the code relies on, and
    [update_above_granted_breaks_order] that without it the invariant is lost. *)

From S2P Require Export Quorum.

Record Stat := { update_count : N; move_count : N; is_quorum_count : N }.
Definition Stat_default : Stat := {| update_count := 0; move_count := 0; is_quorum_count := 0 |}.

(** [V: Borrow<P>] *)
Class Borrow (V P : Type) := borrow : V → P.
#[global] Instance borrow_refl {P} : Borrow P P := λ x, x.

Record VecProgress (V P QS : Type) := {
  quorum_set : QS;
  granted : P;
  voter_count : nat;
  vector : list (NodeId * V);
  stat : Stat;
}.
Arguments quorum_set {V P QS} _.
Arguments granted {V P QS} _.
Arguments voter_count {V P QS} _.
Arguments vector {V P QS} _.
Arguments stat {V P QS} _.

Section vec_progress.
Context {V P QS : Type} `{QuorumSet QS, Ord P, Borrow V P}.
Implicit Types p : VecProgress V P QS.

(** The progress value of an element of the vector. *)
Definition val (e : NodeId * V) : P := borrow e.2.

Definition VecProgress_new (quorum_set : QS) (learner_ids : list NodeId) (default_v : V) :
    VecProgress V P QS :=
  let vector := (λ id, (id, default_v)) <$> qs_ids quorum_set in
  let voter_count := length vector in
  {| quorum_set := quorum_set; granted := borrow default_v; voter_count := voter_count;
     vector := vector ++ ((λ id, (id, default_v)) <$> learner_ids); stat := Stat_default |}.

Definition vp_index p (target : NodeId) : option nat :=
  fst <$> list_find (λ elt, elt.1 = target) p.(vector).

Definition swap (l : list (NodeId * V)) (i j : nat) : Outcome (list (NodeId * V)) :=
  a ← unwrap (l !! i) "index out of bounds";
  b ← unwrap (l !! j) "index out of bounds";
  Done (<[i := b]> (<[j := a]> l)).

(** [for i in (0..index).rev() { .. }]: the vector and the new index of the element. *)
Fixpoint move_up_loop (l : list (NodeId * V)) (index : nat) : Outcome (list (NodeId * V) * nat) :=
  match index with
  | O => Done (l, 0)
  | S i =>
      a ← unwrap (l !! i) "index out of bounds";
      b ← unwrap (l !! S i) "index out of bounds";
      if val a ≺? val b then l ← swap l i (S i); move_up_loop l i else Done (l, S i)
  end.

Definition incr_update (s : Stat) : Stat :=
  {| update_count := s.(update_count) + 1; move_count := s.(move_count);
     is_quorum_count := s.(is_quorum_count) |}.
Definition incr_move (s : Stat) : Stat :=
  {| update_count := s.(update_count); move_count := s.(move_count) + 1;
     is_quorum_count := s.(is_quorum_count) |}.
Definition incr_is_quorum (s : Stat) : Stat :=
  {| update_count := s.(update_count); move_count := s.(move_count);
     is_quorum_count := s.(is_quorum_count) + 1 |}.

Definition set_vector p l : VecProgress V P QS :=
  {| quorum_set := p.(quorum_set); granted := p.(granted); voter_count := p.(voter_count);
     vector := l; stat := p.(stat) |}.
Definition set_stat p s : VecProgress V P QS :=
  {| quorum_set := p.(quorum_set); granted := p.(granted); voter_count := p.(voter_count);
     vector := p.(vector); stat := s |}.
Definition set_granted p g : VecProgress V P QS :=
  {| quorum_set := p.(quorum_set); granted := g; voter_count := p.(voter_count);
     vector := p.(vector); stat := p.(stat) |}.

Definition move_up p (index : nat) : Outcome (VecProgress V P QS * nat) :=
  let p := set_stat p (incr_move p.(stat)) in
  '(l, new_index) ← move_up_loop p.(vector) index;
  Done (set_vector p l, new_index).

(** [for i in new_index..self.voter_count { .. }], from high to low, with [n] indexes left. *)
Fixpoint grant_loop p (i n : nat) : Outcome (VecProgress V P QS) :=
  match n with
  | O => Done p
  | S n =>
      e ← unwrap (p.(vector) !! i) "index out of bounds";
      let prog := val e in
      if prog ⪯? p.(granted) then Done p
      else
        let it := (take (S i) p.(vector)).*1 in
        let p := set_stat p (incr_is_quorum p.(stat)) in
        if is_quorum p.(quorum_set) it then Done (set_granted p prog) else grant_loop p (S i) n
  end.

Definition update_with p (id : NodeId) (f : V → Outcome V) : Outcome (Result P P * VecProgress V P QS) :=
  let p := set_stat p (incr_update p.(stat)) in
  match vp_index p id with
  | None => Done (RErr p.(granted), p)
  | Some index =>
      elt ← unwrap (p.(vector) !! index) "index out of bounds";
      let prev_progress := borrow elt.2 in
      v ← f elt.2;
      let p := set_vector p (<[index := (elt.1, v)]> p.(vector)) in
      let new_progress := borrow v in
      _ ← assert_ (prev_progress ⪯? new_progress) "new_progress >= &prev_progress";
      let prev_le_granted := prev_progress ⪯? p.(granted) in
      let new_gt_granted := p.(granted) ≺? new_progress in
      if bool_decide (prev_progress = new_progress) then Done (ROk p.(granted), p)
      else if p.(voter_count) <=? index then Done (ROk p.(granted), p)
      else if prev_le_granted && new_gt_granted then
        '(p, new_index) ← move_up p index;
        p ← grant_loop p new_index (p.(voter_count) - new_index);
        Done (ROk p.(granted), p)
      else Done (ROk p.(granted), p)
  end.

Definition update p (id : NodeId) (value : V) : Outcome (Result P P * VecProgress V P QS) :=
  update_with p id (λ _, Done value).

Definition increase_to `{Ord V} p (id : NodeId) (value : V) : Outcome (Result P P * VecProgress V P QS) :=
  update_with p id (λ x, Done (if x ≺? value then value else x)).

Definition try_get p (id : NodeId) : option V :=
  index ← vp_index p id; snd <$> p.(vector) !! index.

(** [get_mut]: the value of [id] replaced by [f] of it, without touching [granted]. *)
Definition get_mut_with p (id : NodeId) (f : V → Outcome V) : Outcome (option (VecProgress V P QS)) :=
  match vp_index p id with
  | None => Done None
  | Some index =>
      elt ← unwrap (p.(vector) !! index) "index out of bounds";
      v ← f elt.2;
      Done (Some (set_vector p (<[index := (elt.1, v)]> p.(vector))))
  end.

Fixpoint update_all p (l : list (NodeId * V)) : Outcome (VecProgress V P QS) :=
  match l with
  | [] => Done p
  | (id, v) :: l => '(_, p) ← update p id v; update_all p l
  end.

Definition upgrade_quorum_set p (quorum_set : QS) (learner_ids : list NodeId) (default_v : V) :
    Outcome (VecProgress V P QS) :=
  let new_prog := VecProgress_new quorum_set learner_ids default_v in
  let new_prog := set_stat new_prog p.(stat) in
  update_all new_prog p.(vector).

Definition is_voter p (id : NodeId) : option bool :=
  index ← vp_index p id; Some (bool_decide (index < p.(voter_count))).

(** ** The invariant *)

Definition voters p : list (NodeId * V) := take p.(voter_count) p.(vector).

(** The ids, among [l], whose value reached [x]. *)
Definition ids_ge (x : P) (l : list (NodeId * V)) : list NodeId := (filter (λ e, x ⪯ val e) l).*1.

(** "Elements with values greater than the [granted] are sorted in descending order." *)
Definition above_rel (g : P) (a b : NodeId * V) : Prop := g ≺ val b → val b ⪯ val a.

(** [g] is the greatest value that a quorum of [l] reached. *)
Definition greatest_granted (qs : QS) (g : P) (l : list (NodeId * V)) : Prop :=
  is_quorum qs (ids_ge g l) = true ∧ ∀ x, g ≺ x → is_quorum qs (ids_ge x l) = false.

Record vp_wf p : Prop := {
  vp_nodup : NoDup p.(vector).*1;
  vp_count : p.(voter_count) ≤ length p.(vector);
  vp_ids : (voters p).*1 ≡ₚ qs_ids p.(quorum_set);
  vp_sorted : StronglySorted (above_rel p.(granted)) (voters p);
  vp_granted : greatest_granted p.(quorum_set) p.(granted) (voters p);
}.

(** The value of [id], as a map: what the vector represents. *)
Definition lookup_val p (id : NodeId) : option P := borrow <$> try_get p id.
End vec_progress.


(** ** Lemmas *)

Section vec_progress_lemmas.
Context {V P QS : Type} `{QuorumLaws QS, Ord P, Borrow V P}.
Implicit Types p : VecProgress V P QS.
Implicit Types l : list (NodeId * V).

Lemma swap_spec l1 l2 x y :
  swap (l1 ++ x :: y :: l2) (length l1) (S (length l1)) = Done (l1 ++ y :: x :: l2).
Proof.
  rw /swap lookup_after list_lookup_middle; [done|].
  cbn [mbind outcome_bind unwrap]. rw insert_after list_insert_middle. done.
Qed.

(** [move_up] moves the element at [length a] before the smaller elements that precede it. *)
Lemma move_up_loop_spec a b (e : NodeId * V) :
  ∃ a1 a2, a = a1 ++ a2 ∧
    move_up_loop (a ++ e :: b) (length a) = Done (a1 ++ e :: a2 ++ b, length a1) ∧
    (∀ x, x ∈ a2 → val x ≺ val e) ∧ (∀ x, list.last a1 = Some x → val e ⪯ val x).
Proof.
  revert b. induction a as [|x a IH] using rev_ind; intros b.
  { exists [], []. split_and!; [done..|set_solver|done]. }
  rw length_app Nat.add_1_r -app_assoc. cbn [move_up_loop app].
  rw lookup_after list_lookup_middle; [done|]. cbn [mbind outcome_bind unwrap].
  destruct (ltbP (val x) (val e)) as [Hlt|Hge].
  - rw swap_spec /=. destruct (IH (x :: b)) as (a1 & a2 & -> & -> & Ha2 & Hlast).
    exists a1, (a2 ++ [x]). split_and!; [by rw app_assoc|by rw -app_assoc| |done].
    intros y [?| ->%list_elem_of_singleton]%elem_of_app; auto.
  - exists (a ++ [x]), []. split_and!; [by rw app_nil_r| |set_solver|].
    + by rw length_app Nat.add_1_r /= -app_assoc.
    + rw last_snoc. by intros ? [= <-].
Qed.

Lemma above_sorted_weaken g g' l :
  g ⪯ g' → StronglySorted (above_rel g) l → StronglySorted (above_rel g') l.
Proof.
  intros Hg. induction 1 as [|e l Hs IH Hall]; constructor; [done|].
  eapply Forall_impl; [exact Hall|]. intros y Hr Hy. apply Hr. order.
Qed.

(** Above the granted value, "reached [x]" is a prefix of the voters. *)
Lemma filter_ge_prefix g x l :
  StronglySorted (above_rel g) l → g ≺ x →
  filter (λ e, x ⪯ val e) l = take (length (filter (λ e, x ⪯ val e) l)) l.
Proof.
  intros Hs Hx. induction l as [|e l IH]; [done|].
  apply StronglySorted_cons in Hs as [Hall Hs]. rw filter_cons. case_decide as Hd; simpl.
  - f_equal. by apply IH.
  - assert (filter (λ e, x ⪯ val e) l = []) as ->; [|done].
    apply filter_all_false. eapply Forall_impl; [exact Hall|]. intros y Hr Hy.
    apply Hd. unfold above_rel in Hr. assert (val y ⪯ val e) by (apply Hr; order). order.
Qed.

Lemma filter_ge_reach g x l i e :
  StronglySorted (above_rel g) l → g ≺ x → l !! i = Some e →
  x ⪯ val e ↔ i < length (filter (λ e, x ⪯ val e) l).
Proof.
  intros Hs Hx Hi. split; intros Hlt.
  - destruct (decide (i < length (filter (λ e, x ⪯ val e) l))) as [|Hge]; [done|exfalso].
    assert (e ∈ filter (λ e, x ⪯ val e) l) as Hin.
    { apply list_elem_of_filter. split; [done|]. by eapply list_elem_of_lookup_2. }
    rw -{1}(take_drop i l) filter_app length_app in Hge.
    assert (filter (λ e, x ⪯ val e) (take i l) = take i l) as Hall.
    { apply filter_all_true. apply Forall_forall. intros y [j [Hj Hji]]%elem_of_take.
      assert (above_rel g y e) as Hr.
      { rw -(take_drop i l) in Hs. eapply StronglySorted_app_1_elem_of; [exact Hs| |].
        - apply elem_of_take. eauto.
        - apply (list_elem_of_lookup_2 _ 0). rw lookup_drop Nat.add_0_r. done. }
      assert (val e ⪯ val y) by (apply Hr; order). order. }
    rw Hall length_take in Hge.
    assert (i < length l) by (by eapply lookup_lt_Some).
    assert (e ∈ filter (λ e, x ⪯ val e) (drop i l)) as Hin2.
    { apply list_elem_of_filter. split; [done|].
      apply (list_elem_of_lookup_2 _ 0). by rw lookup_drop Nat.add_0_r. }
    apply list_elem_of_In, in_split in Hin2 as (?&?&Heq). rw Heq length_app /= in Hge. lia.
  - assert (e ∈ filter (λ e, x ⪯ val e) l) as Hin; [|by apply list_elem_of_filter in Hin as []].
    rewrite -> (filter_ge_prefix g x l) by done. apply elem_of_take. eauto.
Qed.

Lemma ids_ge_mono g x l : g ⪯ x → ids_ge x l ⊆ ids_ge g l.
Proof.
  intros Hle id. rw /ids_ge !list_elem_of_fmap. intros (e & -> & He).
  exists e. split; [done|]. apply list_elem_of_filter in He as [??]. apply list_elem_of_filter.
  split; [order|done].
Qed.

Lemma ids_ge_NoDup x l : NoDup l.*1 → NoDup (ids_ge x l).
Proof.
  intros Hnd. rw /ids_ge. eapply sublist_NoDup; [exact Hnd|]. apply fmap_sublist, sublist_filter.
Qed.

(** The scan finds the greatest value a quorum reached, provided no quorum is found among the
    first [i] voters. *)
Lemma grant_loop_spec p vs ls n i g :
  p.(vector) = vs ++ ls → p.(granted) = g → NoDup vs.*1 → i + n = length vs →
  StronglySorted (above_rel g) vs →
  (∀ x, g ≺ x → length (filter (λ e, x ⪯ val e) vs) ≤ i →
        is_quorum p.(quorum_set) (ids_ge x vs) = false) →
  ∃ p', grant_loop p i n = Done p' ∧ p'.(vector) = vs ++ ls ∧
    p'.(quorum_set) = p.(quorum_set) ∧ p'.(voter_count) = p.(voter_count) ∧
    (p'.(granted) = g ∨
     g ≺ p'.(granted) ∧ is_quorum p.(quorum_set) (ids_ge p'.(granted) vs) = true) ∧
    (∀ x, p'.(granted) ≺ x → is_quorum p.(quorum_set) (ids_ge x vs) = false).
Proof.
  revert p i. induction n as [|n IH]; intros p i Hvec Hg Hnd Hlen Hs Hpre; cbn [grant_loop].
  { exists p. split_and!; [done..|by left|]. rw Hg. intros x Hx. apply Hpre; [done|].
    etrans; [apply length_filter|lia]. }
  destruct (lookup_lt_is_Some_2 vs i) as [e He]; [lia|].
  rw Hvec lookup_app_l; [lia|]. rw He. cbn [mbind outcome_bind unwrap]. rw Hg.
  destruct (lebP (val e) g) as [Hle|Hgt].
  { exists p. split_and!; [done..|by left|]. rw Hg. intros x Hx. apply Hpre; [done|].
    destruct (decide (i < length (filter (λ e, x ⪯ val e) vs))) as [Hi|]; [exfalso|lia].
    apply (filter_ge_reach g x vs i e Hs Hx He) in Hi. order. }
  rewrite -> take_app_le by lia. cbn [quorum_set set_stat].
  destruct (is_quorum (quorum_set p) (take (S i) vs).*1) eqn:Hq.
  - eexists. split; [done|]. cbn. split_and!; [done..| |].
    + right. split; [done|]. eapply quorum_mono; [| |exact Hq].
      * eapply sublist_NoDup; [exact Hnd|]. apply fmap_sublist, sublist_take.
      * intros id. rw /ids_ge !list_elem_of_fmap. intros (y & -> & (j & Hj & Hji)%elem_of_take).
        exists y. split; [done|]. apply list_elem_of_filter.
        split; [|by eapply list_elem_of_lookup_2].
        apply (filter_ge_reach g _ vs j y Hs Hgt Hj).
        apply (Nat.le_lt_trans _ i); [lia|]. apply (filter_ge_reach g _ vs i e Hs Hgt He). order.
    + intros x Hx. apply Hpre; [order|].
      destruct (decide (i < length (filter (λ e, x ⪯ val e) vs))) as [Hi|]; [exfalso|lia].
      apply (filter_ge_reach g x vs i e Hs) in Hi; [order| |done]. order.
  - set (p1 := set_stat p _).
    destruct (IH p1 (S i)) as (p' & Hrun & Hrest); [done..|lia|done| |].
    + intros x Hx Hm. cbn. destruct (decide (length (filter (λ e, x ⪯ val e) vs) = S i)) as [Hm'|].
      * rw /ids_ge. rewrite -> (filter_ge_prefix g x vs) by done. by rw Hm'.
      * apply Hpre; [done|lia].
    + exists p'. rw -Hvec. split; [exact Hrun|rw Hvec; exact Hrest].
Qed.

Lemma vp_index_lookup p id i :
  vp_index p id = Some i → ∃ v, p.(vector) !! i = Some (id, v).
Proof.
  rw /vp_index fmap_Some. intros ([j [id' v]] & (Hl & Hid & _)%list_find_Some & ->). cbn in *.
  subst. eauto.
Qed.

Lemma vp_index_None p id : vp_index p id = None ↔ id ∉ p.(vector).*1.
Proof.
  rw /vp_index fmap_None list_find_None Forall_forall. setoid_rewrite list_elem_of_fmap.
  naive_solver.
Qed.

Lemma try_get_elem p id v :
  NoDup p.(vector).*1 → try_get p id = Some v ↔ (id, v) ∈ p.(vector).
Proof.
  intros Hnd. rw /try_get. destruct (vp_index p id) as [i|] eqn:Hi; cbn.
  - destruct (vp_index_lookup _ _ _ Hi) as [w Hw]. rw Hw /=. split.
    + intros [= <-]. by eapply list_elem_of_lookup_2.
    + intros (j & Hj)%list_elem_of_lookup. f_equal.
      assert (i = j) as ->; [|congruence]. eapply NoDup_lookup; [exact Hnd| |].
      * by rw list_lookup_fmap Hw.
      * by rw list_lookup_fmap Hj.
  - apply vp_index_None in Hi. split; [done|]. intros Hin. destruct Hi.
    apply list_elem_of_fmap. by exists (id, v).
Qed.

(** The shape of the vector around a tracked node. *)
Lemma vp_index_split p id i :
  p.(voter_count) ≤ length p.(vector) → vp_index p id = Some i → i < p.(voter_count) →
  ∃ a v b ls, p.(vector) = (a ++ (id, v) :: b) ++ ls ∧ i = length a ∧
    voters p = a ++ (id, v) :: b ∧ p.(voter_count) = length (a ++ (id, v) :: b).
Proof.
  intros Hc (v & Hv)%vp_index_lookup Hi.
  assert (voters p !! i = Some (id, v)) as Hvv by by rw /voters lookup_take_lt.
  exists (take i (voters p)), v, (drop (S i) (voters p)), (drop p.(voter_count) p.(vector)).
  assert (i < length (voters p)) by by eapply lookup_lt_Some.
  rw take_drop_middle; [done|]. split_and!.
  - by rw /voters take_drop.
  - rw length_take. lia.
  - done.
  - rw /voters length_take. lia.
Qed.

Lemma vp_wf_intro p vs ls :
  p.(vector) = vs ++ ls → p.(voter_count) = length vs → NoDup p.(vector).*1 →
  vs.*1 ≡ₚ qs_ids p.(quorum_set) → StronglySorted (above_rel p.(granted)) vs →
  greatest_granted p.(quorum_set) p.(granted) vs → vp_wf p.
Proof.
  intros Hv Hc Hnd Hids Hs Hg.
  assert (voters p = vs) as Hvs by by rw /voters Hv Hc take_app_length.
  split; rw ?Hvs; try done. rw Hv Hc length_app. lia.
Qed.

(** Raising a voter's value. *)
Section raise.
Context (a b : list (NodeId * V)) (id : NodeId) (v v' : V) (g : P) (qs : QS).
Context (Hle : borrow v ⪯ borrow v') (Hnd : NoDup (a ++ (id, v) :: b).*1).

Lemma ids_ge_raise x :
  ids_ge x (a ++ (id, v) :: b) ⊆ ids_ge x (a ++ (id, v') :: b).
Proof using Hle.
  intros y. rw /ids_ge !filter_app !filter_cons /val /=.
  case_decide; case_decide; rw !fmap_app; [done|exfalso; order| |done].
  rw !elem_of_app /= elem_of_cons. tauto.
Qed.

Lemma ids_ge_raise_same x :
  (x ⪯ borrow v ↔ x ⪯ borrow v') →
  ids_ge x (a ++ (id, v') :: b) = ids_ge x (a ++ (id, v) :: b).
Proof.
  intros Hx. rw /ids_ge !filter_app !filter_cons /val /=.
  destruct (decide (x ⪯ borrow v)), (decide (x ⪯ borrow v')); try tauto; by rw !fmap_app.
Qed.

Lemma raise_granted :
  ¬ (borrow v ⪯ g ∧ g ≺ borrow v') →
  greatest_granted qs g (a ++ (id, v) :: b) → greatest_granted qs g (a ++ (id, v') :: b).
Proof using Hle Hnd H0.
  intros Hno [Hq Hmax]. split.
  - eapply quorum_mono; [by apply ids_ge_NoDup|apply ids_ge_raise|done].
  - intros x Hx. destruct (decide (x ⪯ borrow v)) as [Hxv|Hxv].
    { rw ids_ge_raise_same; [split; order|]. by apply Hmax. }
    destruct (decide (x ⪯ borrow v')) as [Hxv'|Hxv'].
    2:{ rw ids_ge_raise_same; [tauto|]. by apply Hmax. }
    apply not_true_iff_false. intros Hqx.
    assert (g ≺ borrow v) as Hgv.
    { destruct (decide (borrow v ⪯ g)); [|order]. destruct Hno. split; [done|order]. }
    apply Hmax in Hgv. apply not_true_iff_false in Hgv. apply Hgv.
    eapply quorum_mono; [| |exact Hqx].
    { apply ids_ge_NoDup. by rw fmap_app /= -(fmap_cons fst (id, v)) -fmap_app. }
    intros y. rw /ids_ge !list_elem_of_fmap. intros ([y' w] & -> & [Hw Hin]%list_elem_of_filter).
    rw /val /= in Hw. apply elem_of_app in Hin as [Hin|[[= -> ->]|Hin]%elem_of_cons].
    + exists (y', w). split; [done|]. apply list_elem_of_filter. rw /val /=. split; [order|set_solver].
    + exists (id, v). split; [done|]. apply list_elem_of_filter. rw /val /=. split; [order|set_solver].
    + exists (y', w). split; [done|]. apply list_elem_of_filter. rw /val /=. split; [order|set_solver].
Qed.

Lemma raise_sorted_in_place :
  (g ≺ borrow v' → ∀ x, x ∈ a → borrow v' ⪯ val x) →
  StronglySorted (above_rel g) (a ++ (id, v) :: b) →
  StronglySorted (above_rel g) (a ++ (id, v') :: b).
Proof using Hle.
  intros Ha. rw !StronglySorted_app !StronglySorted_cons !Forall_forall.
  intros (Hab & Hsa & Hb & Hsb). split_and!; [|done| |done].
  - intros x y Hx [-> |Hy]%elem_of_cons Hg; [by apply Ha|].
    apply Hab; [done|apply elem_of_cons; by right|done].
  - intros y Hy Hg. specialize (Hb y Hy Hg). rw /val /= in Hb |- *. order.
Qed.
End raise.

(** A voter that passes the granted value is moved up, before the smaller elements [a2]. *)
Section moved.
Context (a1 a2 b : list (NodeId * V)) (id : NodeId) (v v' : V) (g : P) (qs : QS).
Context (Hvg : borrow v ⪯ g) (Hgv : g ≺ borrow v').
Context (Hs : StronglySorted (above_rel g) ((a1 ++ a2) ++ (id, v) :: b)).
Context (Hlast : ∀ x, list.last a1 = Some x → borrow v' ⪯ val x).
Context (Ha2 : ∀ x, x ∈ a2 → val x ≺ borrow v').

Lemma moved_before x : x ∈ a1 → borrow v' ⪯ val x.
Proof using Hs Hlast Hgv.
  intros Hx. destruct (list.last a1) as [z|] eqn:Hz.
  2:{ apply last_None in Hz. rw Hz in Hx. by apply not_elem_of_nil in Hx. }
  pose proof (Hlast _ eq_refl) as Hzv. apply last_Some in Hz as [a1' Hz].
  rw Hz in Hx. apply elem_of_app in Hx as [Hx| ->%list_elem_of_singleton]; [|exact Hzv].
  assert (above_rel g x z) as Hr.
  { eapply StronglySorted_app_1_elem_of; [|exact Hx|by apply list_elem_of_singleton].
    rw -Hz. apply (StronglySorted_app_1_l _ a1 (a2 ++ (id, v) :: b)). rw app_assoc. exact Hs. }
  assert (val z ⪯ val x) by (apply Hr; order). order.
Qed.

Lemma moved_sorted : StronglySorted (above_rel g) (a1 ++ (id, v') :: a2 ++ b).
Proof using Hs Hlast Hgv Hvg Ha2.
  pose proof moved_before as Ha1. revert Hs.
  rw -app_assoc !StronglySorted_app !StronglySorted_cons !StronglySorted_app !Forall_forall.
  setoid_rewrite elem_of_app. setoid_rewrite elem_of_cons. setoid_rewrite elem_of_app.
  intros (Hx1 & Hsa1 & Hx2 & Hsa2 & Hx3 & Hsb). split_and!; [|done| | |done|done].
  - intros x y Hx [-> |Hy] Hg; [by apply Ha1|]. apply Hx1; [done|tauto|done].
  - intros y [Hy|Hy] Hg; [by apply olt_le, Ha2|].
    specialize (Hx3 y Hy Hg). rw /val /= in Hx3 Hg. rw /val /=. order.
  - intros x y Hx Hy Hg. apply Hx2; [done|tauto|done].
Qed.

Lemma moved_filter x :
  g ≺ x → length (filter (λ e, x ⪯ val e) (a1 ++ (id, v') :: a2 ++ b)) ≤ length a1 →
  ids_ge x (a1 ++ (id, v') :: a2 ++ b) = ids_ge x ((a1 ++ a2) ++ (id, v) :: b).
Proof using Hs Hlast Hgv Hvg.
  intros Hx. rw /ids_ge !filter_app !filter_cons !filter_app /val /= .
  destruct (decide (x ⪯ borrow v')) as [Hxv|Hxv].
  - rw (filter_all_true _ a1).
    { apply Forall_forall. intros y Hy%moved_before. unfold val in *. order. }
    rw !length_app /=. lia.
  - rw (decide_False (P := x ⪯ borrow v)); [order|]. by rw -app_assoc.
Qed.

Lemma moved_quorum :
  NoDup ((a1 ++ a2) ++ (id, v) :: b).*1 →
  is_quorum qs (ids_ge g ((a1 ++ a2) ++ (id, v) :: b)) = true →
  is_quorum qs (ids_ge g (a1 ++ (id, v') :: a2 ++ b)) = true.
Proof using Hgv Hvg H0.
  intros Hnd. apply quorum_mono; [by apply ids_ge_NoDup|].
  intros y. rw /ids_ge !filter_app !filter_cons !filter_app /val /=.
  rw (decide_True (P := g ⪯ borrow v')); [order|].
  case_decide; rw !fmap_app /= ?fmap_app; clear; set_solver.
Qed.
End moved.

Lemma raise_moved p a b ls id v v' g :
  borrow v ⪯ g → g ≺ borrow v' → NoDup (a ++ (id, v) :: b).*1 →
  StronglySorted (above_rel g) (a ++ (id, v) :: b) →
  greatest_granted p.(quorum_set) g (a ++ (id, v) :: b) →
  p.(vector) = (a ++ (id, v') :: b) ++ ls → p.(granted) = g →
  p.(voter_count) = length (a ++ (id, v') :: b) →
  ∃ p1 k p' vs, move_up p (length a) = Done (p1, k) ∧
    grant_loop p1 k (p1.(voter_count) - k) = Done p' ∧
    vs ≡ₚ a ++ (id, v') :: b ∧ p'.(vector) = vs ++ ls ∧ p'.(quorum_set) = p.(quorum_set) ∧
    p'.(voter_count) = length vs ∧ StronglySorted (above_rel p'.(granted)) vs ∧
    greatest_granted p.(quorum_set) p'.(granted) vs.
Proof.
  intros Hvg Hgv Hnd Hs [Hq Hmax] Hvec Hg Hc.
  destruct (move_up_loop_spec a (b ++ ls) (id, v')) as (a1 & a2 & -> & Hrun & Ha2 & Hlast).
  set (vs := a1 ++ (id, v') :: a2 ++ b).
  assert (vs ≡ₚ (a1 ++ a2) ++ (id, v') :: b) as Hperm.
  { rw /vs -app_assoc. by rw (Permutation_middle a2). }
  assert (NoDup vs.*1) as Hnd'.
  { rw Hperm fmap_app fmap_cons /= -(fmap_cons fst (id, v)) -fmap_app. done. }
  pose proof (moved_sorted a1 a2 b id v v' g Hvg Hgv Hs Hlast Ha2) as Hs'.
  exists (set_vector (set_stat p (incr_move (stat p))) (vs ++ ls)), (length a1).
  destruct (grant_loop_spec (set_vector (set_stat p (incr_move (stat p))) (vs ++ ls)) vs ls
              (p.(voter_count) - length a1) (length a1) g)
    as (p' & Hloop & Hv' & Hqs' & Hc' & Hg' & Hmax'); [done|done|done| | | |].
  { rw Hc -Hperm /vs length_app. lia. }
  { done. }
  { intros x Hx Hlen. cbn. rw /vs (moved_filter a1 a2 b id v v' g) //. by apply Hmax. }
  exists p', vs. split_and!; try done.
  - assert (vector p = (a1 ++ a2) ++ (id, v') :: b ++ ls) as Hvec'.
    { by rw Hvec -!app_assoc. }
    rw /move_up. cbn [vector set_stat]. rw Hvec' Hrun. cbn. rw /vs. do 3 f_equal.
    by rw -!app_assoc /= -!app_assoc.
  - rw Hc' /= Hc. by rw Hperm.
  - destruct Hg' as [-> |[Hlt _]]; [done|]. eapply above_sorted_weaken; [|exact Hs'].
    by apply olt_le.
  - split; [|done]. destruct Hg' as [-> |[_ ?]]; [|done]. by apply (moved_quorum a1 a2 b id v).
Qed.

(** The side condition under which [update_with] keeps the order: a voter that is already above
    the granted value does not overtake a voter before it. *)
Definition update_in_order p (id : NodeId) (v v' : V) : Prop :=
  p.(granted) ≺ borrow v → ∀ i, vp_index p id = Some i → i < p.(voter_count) →
  ∀ j e, j < i → p.(vector) !! j = Some e → borrow v' ⪯ val e.

(** What an update does to the vector, as a map. *)
Definition updated p p' (id : NodeId) (v' : V) : Prop :=
  p'.(quorum_set) = p.(quorum_set) ∧ p'.(voter_count) = p.(voter_count) ∧
  p'.(vector).*1 ≡ₚ p.(vector).*1 ∧
  (∀ id', is_voter p' id' = is_voter p id') ∧
  ∀ id', try_get p' id' = if decide (id = id') then Some v' else try_get p id'.

Lemma is_voter_spec p id :
  NoDup p.(vector).*1 → p.(voter_count) ≤ length p.(vector) →
  is_voter p id = if decide (id ∈ p.(vector).*1) then Some (bool_decide (id ∈ (voters p).*1)) else None.
Proof.
  intros Hnd Hc. rw /is_voter. destruct (vp_index p id) as [i|] eqn:Hi; cbn.
  - destruct (vp_index_lookup _ _ _ Hi) as [v Hv]. rw decide_True.
    { apply list_elem_of_fmap. exists (id, v). split; [done|]. by eapply list_elem_of_lookup_2. }
    f_equal. apply bool_decide_ext. rw /voters list_elem_of_fmap. split.
    + intros Hlt. exists (id, v). split; [done|]. apply elem_of_take. eauto.
    + intros ([id' w] & -> & (j & Hj & Hlt)%elem_of_take). cbn in *.
      assert (i = j) as ->; [|done]. eapply NoDup_lookup; [exact Hnd| |];
        rw list_lookup_fmap ?Hv ?Hj; done.
  - apply vp_index_None in Hi. by rw decide_False.
Qed.

(** An update that replaces one value and permutes the voters. *)
Lemma updated_intro p p' a b id v v' :
  NoDup p.(vector).*1 → p.(voter_count) ≤ length p.(vector) → p.(vector) = a ++ (id, v) :: b →
  p'.(vector) ≡ₚ a ++ (id, v') :: b → (voters p').*1 ≡ₚ (voters p).*1 →
  p'.(quorum_set) = p.(quorum_set) → p'.(voter_count) = p.(voter_count) →
  updated p p' id v'.
Proof.
  intros Hnd Hc Hv Hv' Hvs Hq Hc'.
  assert (p'.(vector).*1 ≡ₚ p.(vector).*1) as Hperm by by rw Hv Hv' !fmap_app.
  assert (NoDup p'.(vector).*1) as Hnd' by by rw Hperm.
  assert (length p'.(vector) = length p.(vector)) as Hlen by by rw Hv' Hv !length_app.
  split_and!; [done..| |].
  - intros id'. rw !is_voter_spec; try done; [lia|].
    rw (bool_decide_ext (id' ∈ (voters p').*1) (id' ∈ (voters p).*1)); [by rw Hvs|].
    assert (id' ∈ (vector p').*1 ↔ id' ∈ (vector p).*1) as Hiff by by rw Hperm.
    destruct (decide (id' ∈ (vector p').*1)); destruct (decide (id' ∈ (vector p).*1)); tauto.
  - intros id'. apply option_eq. intros w. rw try_get_elem; [done|]. rw Hv' elem_of_app elem_of_cons.
    pose proof Hnd as Hnd0. rw Hv fmap_app fmap_cons in Hnd. apply NoDup_app in Hnd as (_ & Ha & Hcons).
    cbn in Hcons. apply NoDup_cons in Hcons as [Hb _]. setoid_rewrite elem_of_cons in Ha.
    assert (∀ w l, (id, w) ∈ l → id ∈ l.*1) as Hin.
    { intros w' l Hw. apply list_elem_of_fmap. by exists (id, w'). }
    case_decide as Hd; [|rw try_get_elem; [exact Hnd0|]; rw Hv elem_of_app elem_of_cons; naive_solver].
    subst id'. split; [|intros [= ->]; auto].
    intros [Hw|[[= ->]|Hw]]; [|done|]; exfalso.
    + eapply Ha; [by eapply Hin|by left].
    + by apply Hb, (Hin w).
Qed.

(** Replacing the value in place. *)
Lemma update_in_place p i id v v' s :
  vp_wf p → vp_index p id = Some i → p.(vector) !! i = Some (id, v) → borrow v ⪯ borrow v' →
  (i < p.(voter_count) → ¬ (borrow v ⪯ p.(granted) ∧ p.(granted) ≺ borrow v')) →
  update_in_order p id v v' →
  let p' := set_vector (set_stat p s) (<[i := (id, v')]> p.(vector)) in
  vp_wf p' ∧ updated p p' id v'.
Proof.
  intros [Hnd Hc Hids Hs Hg] Hi Hiv Hle Hno Hord p'.
  pose proof (take_drop_middle _ _ _ Hiv) as Hsplit.
  set (a := take i (vector p)) in *. set (b := drop (S i) (vector p)) in *.
  assert (i = length a) as Ha.
  { rw /a length_take. apply lookup_lt_Some in Hiv. lia. }
  assert (<[i := (id, v')]> p.(vector) = a ++ (id, v') :: b) as Hins.
  { rw -Hsplit {1}Ha list_insert_middle. done. }
  destruct (decide (i < p.(voter_count))) as [Hlt|Hge].
  - destruct (vp_index_split p id i Hc Hi Hlt) as (a' & w & b' & ls & Hv & Ha' & Hvs & Hvc).
    assert (w = v) as ->.
    { rw Hv -app_assoc /= list_lookup_middle in Hiv; [done|]. by injection Hiv. }
    assert (<[i := (id, v')]> p.(vector) = (a' ++ (id, v') :: b') ++ ls) as Hins'.
    { by rw Hv Ha' -!app_assoc /= list_insert_middle. }
    assert (voter_count p = length (a' ++ (id, v') :: b')) as Hvc' by by rw Hvc !length_app.
    assert (voters p' = a' ++ (id, v') :: b') as Hvs'.
    { by rw /voters /= Hins' Hvc' take_app_length. }
    assert (NoDup (a' ++ (id, v) :: b').*1) as Hnd'.
    { rw Hv fmap_app in Hnd. by apply NoDup_app in Hnd as []. }
    rw Hvs in Hs Hg Hids. split.
    + apply (vp_wf_intro p' (a' ++ (id, v') :: b') ls); cbn.
      * done.
      * done.
      * by rw Hins' !fmap_app /= -(fmap_cons fst (id, v)) -!fmap_app -Hv.
      * by rw fmap_app /= -(fmap_cons fst (id, v)) -fmap_app.
      * apply (raise_sorted_in_place _ _ _ v); try done. intros Hgv x Hx.
        assert (p.(granted) ≺ borrow v) as Hgtv.
        { destruct (ole_or_lt (borrow v) p.(granted)); [|done]. by destruct (Hno Hlt). }
        apply list_elem_of_lookup in Hx as [j Hj].
        assert (j < length a') by by eapply lookup_lt_Some.
        apply (Hord Hgtv i Hi Hlt j x); [lia|]. rw Hv -app_assoc lookup_app_l; [lia|done].
      * apply raise_granted with v; auto.
    + apply (updated_intro p p' a b id v); try done.
      * by rw /= Hins.
      * by rw Hvs Hvs' !fmap_app.
  - assert (voters p' = voters p) as Hvs by (rw /voters /= take_insert_ge; [lia|done]).
    split.
    + split; rw ?Hvs; try done.
      * by rw /= Hins fmap_app /= -(fmap_cons fst (id, v)) -fmap_app Hsplit.
      * by rw /= length_insert.
    + apply (updated_intro p p' a b id v); try done; [by rw /= Hins|by rw Hvs].
Qed.

(** [update_with] under its side condition: it does not panic, the value of [id] becomes [v'], and
    the invariant, with the meaning of [granted], is preserved. *)
Lemma update_with_wf p id f v v' :
  vp_wf p → try_get p id = Some v → f v = Done v' → borrow v ⪯ borrow v' →
  update_in_order p id v v' →
  ∃ p', update_with p id f = Done (ROk p'.(granted), p') ∧ vp_wf p' ∧ updated p p' id v'.
Proof.
  intros Hwf Hget Hf Hle Hord.
  assert (∃ i, vp_index p id = Some i ∧ p.(vector) !! i = Some (id, v)) as (i & Hi & Hiv).
  { revert Hget. rw /try_get. destruct (vp_index p id) as [i|] eqn:Hi; [|done].
    destruct (vp_index_lookup _ _ _ Hi) as [w Hw]. cbn. rw Hw. intros [= ->]. eauto. }
  rw /update_with. set (p0 := set_stat p _).
  replace (vp_index p0 id) with (vp_index p id) by done. rw Hi.
  cbn [vector p0 set_stat]. rw Hiv. cbn [mbind outcome_bind unwrap snd fst]. rw Hf.
  cbn [mbind outcome_bind]. rw /assert_ (proj2 (leb_le _ _) Hle). cbn [mbind outcome_bind].
  rw /p0. clear p0. cbn [granted set_vector set_stat voter_count].
  pose proof (update_in_place p i id v v' (incr_update (stat p)) Hwf Hi Hiv Hle) as Hplace.
  set (p1 := set_vector (set_stat p (incr_update (stat p))) (<[i := (id, v')]> (vector p))) in Hplace.
  destruct (bool_decide_reflect (borrow v = borrow v')) as [Heq|Hne].
  { exists p1. split; [done|]. apply Hplace; [|done]. rw -Heq. intros _ [??]. order. }
  destruct (Nat.leb_spec (voter_count p) i) as [Hlrn|Hvot].
  { exists p1. split; [done|]. apply Hplace; [lia|done]. }
  destruct (lebP (borrow v) (granted p)) as [Hvg|Hvg]; cbn [andb].
  2:{ exists p1. split; [done|]. apply Hplace; [intros _ [??]; order|done]. }
  destruct (ltbP (granted p) (borrow v')) as [Hgv|Hgv].
  2:{ exists p1. split; [done|]. apply Hplace; [intros _ [??]; order|done]. }
  destruct Hwf as [Hnd Hc Hids Hs Hg].
  destruct (vp_index_split p id i Hc Hi Hvot) as (a & w & b & ls & Hv & -> & Hvs & Hvc).
  assert (w = v) as ->.
  { rw Hv -app_assoc /= list_lookup_middle in Hiv; [done|]. by injection Hiv. }
  rw Hvs in Hs Hg Hids.
  assert (NoDup (a ++ (id, v) :: b).*1) as Hnd'.
  { rw Hv fmap_app in Hnd. by apply NoDup_app in Hnd as []. }
  destruct (raise_moved (set_vector (set_stat p (incr_update (stat p)))
              (<[length a := (id, v')]> (vector p))) a b ls id v v' (granted p))
    as (p2 & k & p' & vs & Hmove & Hloop & Hperm & Hv' & Hq' & Hc' & Hs' & Hg'); try done.
  { by rw /= Hv -!app_assoc /= list_insert_middle. }
  { by rw /= Hvc !length_app. }
  rw Hmove. cbn [mbind outcome_bind]. rw Hloop. exists p'. split; [done|].
  assert (vs.*1 ≡ₚ (a ++ (id, v) :: b).*1) as Hpids by by rw Hperm !fmap_app.
  cbn in Hq', Hg'. split.
  - apply (vp_wf_intro p' vs ls); try done; rw ?Hq'; try done.
    + by rw Hv' fmap_app Hpids -fmap_app -Hv.
    + by rw Hpids.
  - apply (updated_intro p p' a (b ++ ls) id v); try done.
    + by rw Hv -app_assoc.
    + by rw Hv' Hperm -app_assoc.
    + by rw Hvs /voters Hv' Hc' take_app_length.
    + rw Hc' Hvc Hperm !length_app. done.
Qed.

Lemma update_with_unknown p id f :
  try_get p id = None → NoDup p.(vector).*1 →
  update_with p id f = Done (RErr p.(granted), set_stat p (incr_update p.(stat))).
Proof.
  intros Hget Hnd. rw /update_with. set (p0 := set_stat p _).
  replace (vp_index p0 id) with (vp_index p id) by done.
  destruct (vp_index p id) as [i|] eqn:Hi; [|done].
  destruct (vp_index_lookup _ _ _ Hi) as [w Hw]. by rw /try_get Hi /= Hw in Hget.
Qed.

Lemma try_get_None p id : try_get p id = None ↔ id ∉ p.(vector).*1.
Proof.
  rw -vp_index_None /try_get. destruct (vp_index p id) as [i|] eqn:Hi; [|done].
  destruct (vp_index_lookup _ _ _ Hi) as [w Hw]. cbn. by rw Hw.
Qed.

Lemma ids_ge_all x l : Forall (λ e, x ⪯ val e) l → ids_ge x l = l.*1.
Proof. intros Hall. by rw /ids_ge filter_all_true. Qed.

(** A lower bound of every value is below the granted value. *)
Lemma granted_lower_bound p d :
  vp_wf p → is_quorum p.(quorum_set) (qs_ids p.(quorum_set)) = true →
  Forall (λ e, d ⪯ val e) p.(vector) → d ⪯ p.(granted).
Proof.
  intros [Hnd Hc Hids Hs [_ Hmax]] Hq Hall.
  destruct (ole_or_lt d p.(granted)) as [|Hlt]; [done|exfalso].
  apply Hmax in Hlt. rw ids_ge_all in Hlt; [by apply Forall_take|].
  assert (is_quorum (quorum_set p) (voters p).*1 = true); [|congruence].
  eapply quorum_mono; [apply (quorum_ids_NoDup (quorum_set p))| |exact Hq]. intros y. by rw Hids.
Qed.

Lemma smallest_val (l : list (NodeId * V)) : l ≠ [] → ∃ e, e ∈ l ∧ ∀ x, x ∈ l → val e ⪯ val x.
Proof.
  induction l as [|a l IH]; [done|]. intros _. destruct l as [|b l].
  - exists a. split; [by left|]. intros x Hx. apply list_elem_of_singleton in Hx as ->. apply ole_refl.
  - destruct IH as (e & He & Hmin); [done|]. destruct (ole_or_lt (val a) (val e)) as [Hle|Hlt].
    + exists a. split; [by left|]. intros x [->|Hx]%elem_of_cons; [apply ole_refl|].
      eapply ole_trans; [exact Hle|by apply Hmin].
    + exists e. split; [by right|]. intros x [->|Hx]%elem_of_cons; [by apply olt_le|by apply Hmin].
Qed.

(** The granted value is the value of a voter. *)
Lemma granted_is_value (qs : QS) g (l : list (NodeId * V)) :
  NoDup l.*1 → is_quorum qs [] = false → greatest_granted qs g l → ∃ e, e ∈ l ∧ val e = g.
Proof.
  intros Hnd He [Hq Hmax]. rw /ids_ge in Hq.
  destruct (smallest_val (filter (λ e, g ⪯ val e) l)) as (e & [Hge Hin]%list_elem_of_filter & Hmin).
  { intros Hnil. by rw Hnil /= He in Hq. }
  exists e. split; [done|]. destruct (proj1 (ole_lt_eq g (val e)) Hge) as [Hlt|]; [|done].
  apply Hmax in Hlt. apply not_true_iff_false in Hlt. destruct Hlt. eapply quorum_mono; [| |exact Hq].
  { by apply (ids_ge_NoDup g). }
  intros y (x & -> & Hx)%list_elem_of_fmap. apply list_elem_of_fmap. exists x. split; [done|].
  apply list_elem_of_filter. split; [by apply Hmin|]. by apply list_elem_of_filter in Hx as [_ ?].
Qed.

(** What a fresh progress needs of its quorum set: distinct ids, and all the voters are a quorum
    while no node is not. *)
Record qs_ok (qs : QS) (learner_ids : list NodeId) : Prop := {
  qs_ok_nodup : NoDup (qs_ids qs ++ learner_ids);
  qs_ok_all : is_quorum qs (qs_ids qs) = true;
  qs_ok_none : is_quorum qs [] = false;
}.

Lemma new_ids qs learner_ids d :
  (VecProgress_new qs learner_ids d : VecProgress V P QS).(vector).*1 = qs_ids qs ++ learner_ids.
Proof. rw /= fmap_app -!list_fmap_compose /compose /=. by rw !list_fmap_id. Qed.

Lemma VecProgress_new_wf qs learner_ids d :
  qs_ok qs learner_ids → vp_wf (VecProgress_new qs learner_ids d : VecProgress V P QS).
Proof.
  intros [Hnd Hall Hnone]. set (p := VecProgress_new _ _ _).
  apply (vp_wf_intro p ((λ id, (id, d)) <$> qs_ids qs) ((λ id, (id, d)) <$> learner_ids)).
  - done.
  - done.
  - by rw new_ids.
  - by rw -list_fmap_compose /compose /= list_fmap_id.
  - cbn. clear. induction (qs_ids qs) as [|x l IH]; [by constructor|]. constructor; [done|].
    apply Forall_forall. intros y (id & -> & _)%list_elem_of_fmap Hlt. by destruct (olt_irrefl (borrow d)).
  - split; cbn.
    + rw ids_ge_all; [apply Forall_fmap, Forall_forall; intros; apply ole_refl|].
      by rw -list_fmap_compose /compose /= list_fmap_id.
    + intros x Hx. rw /ids_ge filter_all_false; [|done].
      apply Forall_fmap, Forall_forall. intros y _. rw /val /=. order.
Qed.

Lemma new_try_get qs learner_ids d id :
  NoDup (qs_ids qs ++ learner_ids) →
  try_get (VecProgress_new qs learner_ids d : VecProgress V P QS) id =
    if decide (id ∈ qs_ids qs ++ learner_ids) then Some d else None.
Proof.
  intros Hnd. case_decide as Hin.
  - apply try_get_elem; [by rw new_ids|]. cbn. rw -fmap_app list_elem_of_fmap. eauto.
  - apply try_get_None. by rw new_ids.
Qed.

Lemma vp_wf_stat p s : vp_wf p → vp_wf (set_stat p s).
Proof. by intros [????]; split. Qed.

Lemma update_all_spec p l d :
  vp_wf p → is_quorum p.(quorum_set) (qs_ids p.(quorum_set)) = true →
  NoDup l.*1 → Forall (λ e, borrow d ⪯ val e) l → Forall (λ e, borrow d ⪯ val e) p.(vector) →
  (∀ id, id ∈ l.*1 → try_get p id = None ∨ try_get p id = Some d) →
  ∃ p', update_all p l = Done p' ∧ vp_wf p' ∧ p'.(quorum_set) = p.(quorum_set) ∧
    p'.(voter_count) = p.(voter_count) ∧
    ∀ id, try_get p' id = if decide (id ∈ p.(vector).*1)
                          then match list_find (λ e, e.1 = id) l with
                               | Some (_, e) => Some e.2 | None => try_get p id end
                          else None.
Proof.
  revert p. induction l as [|[id v] l IH]; intros p Hwf Hq Hnd Hl Hp Hget; cbn [update_all].
  { exists p. split_and!; [done..|]. intros id. case_decide; [done|]. by apply try_get_None. }
  cbn in Hnd. apply NoDup_cons in Hnd as [Hid Hnd]. apply Forall_cons in Hl as [Hv Hl].
  destruct (Hget id) as [Hnone|Hsome]; [set_solver|..].
  - rw /update update_with_unknown; [done|by apply vp_nodup|]. cbn [mbind outcome_bind].
    destruct (IH (set_stat p (incr_update (stat p)))) as (p' & Hrun & Hwf' & Hq' & Hc' & Hget');
      [by apply vp_wf_stat|done|done|done|done| |].
    { intros id' Hin. apply (Hget id'). set_solver. }
    exists p'. split_and!; [done..|]. intros id'. rw Hget'. cbn [vector set_stat].
    case_decide; [|done]. cbn. destruct (decide (id = id')) as [<-|]; [|by destruct (list_find _ l) as [[]|]].
    by apply try_get_None in Hnone.
  - destruct (update_with_wf p id (λ _, Done v) d v) as (p1 & Hrun1 & Hwf1 & (Hq1 & Hc1 & Hids1 & _ & Hget1)).
    { done. } { done. } { done. } { exact Hv. }
    { intros Hlt. exfalso. pose proof (granted_lower_bound p (borrow d) Hwf Hq Hp). order. }
    rw /update Hrun1. cbn [mbind outcome_bind].
    destruct (IH p1) as (p' & Hrun & Hwf' & Hq' & Hc' & Hget').
    { done. } { by rw Hq1. } { done. } { done. }
    { apply Forall_forall. intros [id' w] Hw. apply try_get_elem in Hw; [|by apply vp_nodup].
      rw Hget1 in Hw. case_decide; [by simplify_eq|].
      apply try_get_elem in Hw; [|by apply vp_nodup]. rw Forall_forall in Hp. by apply Hp in Hw. }
    { intros id' Hin. rw Hget1. case_decide as Hd; [by subst|]. apply Hget. set_solver. }
    exists p'. rw Hq' Hc'. split_and!; [done..|]. intros id'. rw Hget' Hget1.
    assert (id' ∈ (vector p1).*1 ↔ id' ∈ (vector p).*1) as Hiff by by rw Hids1.
    destruct (decide (id' ∈ (vector p1).*1)), (decide (id' ∈ (vector p).*1)); try tauto.
    cbn. destruct (decide (id = id')) as [<-|]; [|by destruct (list_find _ l) as [[]|]].
    destruct (list_find _ l) as [[j w]|] eqn:Hf; [|done]. exfalso.
    apply list_find_Some in Hf as (Hw & <- & _). apply Hid, list_elem_of_fmap.
    exists w. split; [done|]. by eapply list_elem_of_lookup_2.
Qed.
End vec_progress_lemmas.

(** In a uniform configuration of at most three voters at most one voter is above the granted
    value, so the order cannot be lost. *)
Section small.
Context {V P : Type} `{Ord P, Borrow V P}.
Implicit Types p : VecProgress V P (Joint (list N)).

Lemma vec_two_of_three (c : list N) (x y : N) ids :
  length c ≤ 3 → x ≠ y → x ∈ c → y ∈ c → x ∈ ids → y ∈ ids → vec_is_quorum c ids = true.
Proof.
  intros Hc Hne Hx Hy Hxi Hyi. apply (count_quorum_members _ (list_to_set c)).
  { intros z. apply vec_contains. }
  { apply vec_limit. }
  assert ([x; y] ⊆+ filter (λ z, z ∈ (list_to_set c : gset N)) ids) as Hsub.
  { apply NoDup_submseteq; [by repeat constructor; set_solver|]. intros z Hz.
    apply list_elem_of_filter. rw elem_of_list_to_set. set_solver. }
  apply submseteq_length in Hsub. cbn in Hsub. lia.
Qed.

Lemma small_in_order p c id v v' :
  vp_wf p → p.(quorum_set) = Joint_new [c] → length c ≤ 3 → try_get p id = Some v →
  update_in_order p id v v'.
Proof.
  intros Hwf Hq Hc Hget Hlt i Hi Hiv j e Hji He. exfalso.
  destruct Hwf as [Hnd Hcnt Hids Hs [_ Hmax]].
  assert (p.(vector) !! i = Some (id, v)) as Hv.
  { destruct (vp_index_lookup _ _ _ Hi) as [w Hw]. rw /try_get Hi /= Hw in Hget. naive_solver. }
  assert (voters p !! i = Some (id, v)) as Hvi by by rw /voters lookup_take_lt.
  assert (voters p !! j = Some e) as Hvj by (rw /voters lookup_take_lt; [lia|done]).
  assert (borrow v ⪯ val e) as Hle.
  { apply (filter_ge_reach (granted p) (borrow v) (voters p) j e Hs Hlt Hvj).
    apply (Nat.lt_trans _ i); [done|].
    apply (filter_ge_reach (granted p) (borrow v) (voters p) i (id, v) Hs Hlt Hvi), ole_refl. }
  apply Hmax in Hlt. apply not_true_iff_false in Hlt. apply Hlt. rw Hq /=.
  assert (∀ k x, voters p !! k = Some x → borrow v ⪯ val x → x.1 ∈ c ∧ x.1 ∈ ids_ge (borrow v) (voters p))
    as Hin.
  { intros k x Hk Hx. assert (x ∈ voters p) by by eapply list_elem_of_lookup_2. split.
    - assert (x.1 ∈ (voters p).*1) as Hx1 by (apply list_elem_of_fmap; eauto).
      rw Hids Hq in Hx1. apply joint_elem_ids in Hx1 as (c' & ->%list_elem_of_singleton & Hx1).
      rw /= elem_of_btree_iter elem_of_list_to_set in Hx1. done.
    - apply list_elem_of_fmap. exists x. split; [done|]. by apply list_elem_of_filter. }
  destruct (Hin j e) as [??]; [done..|]. destruct (Hin i (id, v)) as [??]; [done|apply ole_refl|].
  rw (vec_two_of_three c e.1 id); try done. intros Heq.
  assert (i = j); [|lia]. eapply NoDup_lookup; [exact Hnd| |]; rw list_lookup_fmap ?Hv ?He //=.
  by rw Heq.
Qed.
End small.

(** ** Properties *)

Section properties.
Context {V P QS : Type} `{QuorumLaws QS, Ord P, Borrow V P}.
Implicit Types p : VecProgress V P QS.

(** C26: a monotone update of a learner, or of a voter that is not above the granted value, does
    not panic, changes exactly the value of the updated node, and re-establishes the invariant; in
    particular the [granted] value it returns is the greatest value a quorum of the voters has
    reached. *)
Theorem update_with_granted p id f v v' :
  vp_wf p → try_get p id = Some v → f v = Done v' → borrow v ⪯ borrow v' →
  (is_voter p id = Some true → borrow v ⪯ p.(granted)) →
  ∃ p', update_with p id f = Done (ROk p'.(granted), p') ∧ vp_wf p' ∧
    greatest_granted p.(quorum_set) p'.(granted) (voters p') ∧
    ∀ id', try_get p' id' = if decide (id = id') then Some v' else try_get p id'.
Proof.
  intros Hwf Hget Hf Hle Hvoter.
  destruct (update_with_wf p id f v v') as (p' & Hrun & Hwf' & (Hq & _ & _ & _ & Hget')); try done.
  { intros Hlt i Hi Hc. assert (is_voter p id = Some true) as Hv.
    { rw /is_voter Hi /=. by rw bool_decide_true. }
    apply Hvoter in Hv. order. }
  exists p'. split_and!; [done..| |done]. rw -Hq. by apply vp_granted.
Qed.

(** [upgrade_quorum_set] yields a well formed progress over the new quorum set that inherits
    the value of every node it keeps, whatever the order of the old vector was. *)
Theorem upgrade_quorum_set_spec p qs learner_ids d :
  NoDup p.(vector).*1 → qs_ok qs learner_ids → Forall (λ e, borrow d ⪯ val e) p.(vector) →
  ∃ p', upgrade_quorum_set p qs learner_ids d = Done p' ∧ vp_wf p' ∧ p'.(quorum_set) = qs ∧
    ∀ id, try_get p' id = if decide (id ∈ qs_ids qs ++ learner_ids)
                          then Some (default d (try_get p id)) else None.
Proof.
  intros Hnd Hok Hall. rw /upgrade_quorum_set.
  pose proof (VecProgress_new_wf qs learner_ids d Hok) as Hwf. destruct Hok as [Hnd' Hq Hnone].
  set (p0 := VecProgress_new qs learner_ids d) in *.
  destruct (update_all_spec (set_stat p0 p.(stat)) p.(vector) d) as (p' & Hrun & Hwf' & Hq' & _ & Hget').
  { by apply vp_wf_stat. } { done. } { done. } { done. }
  { apply Forall_app. split; apply Forall_fmap, Forall_forall; intros; apply ole_refl. }
  { intros id _. change (try_get (set_stat p0 (stat p)) id) with (try_get p0 id).
    rw new_try_get; [done|]. case_decide; auto. }
  exists p'. split_and!; [done..|]. intros id. rw Hget'.
  cbn [vector set_stat]. rw /p0 new_ids. case_decide as Hin; [|done].
  change (try_get (set_stat ?q (stat p)) id) with (try_get q id).
  rw new_try_get; [done|]. rw decide_True; [done|]. rw /try_get /vp_index.
  destruct (list_find _ (vector p)) as [[i e]|] eqn:Hf; [|done].
  apply list_find_Some in Hf as (Hi & _). cbn. by rw Hi.
Qed.
End properties.

(** In a uniform configuration of at most three voters every monotone update is correct: no
    side condition on the updated value is needed. *)
Theorem update_small_cluster {V P} `{Ord P, Borrow V P} (p : VecProgress V P (Joint (list N))) c id f v v' :
  vp_wf p → p.(quorum_set) = Joint_new [c] → length c ≤ 3 →
  try_get p id = Some v → f v = Done v' → borrow v ⪯ borrow v' →
  ∃ p', update_with p id f = Done (ROk p'.(granted), p') ∧ vp_wf p' ∧
    ∀ id', try_get p' id' = if decide (id = id') then Some v' else try_get p id'.
Proof.
  intros Hwf Hq Hc Hget Hf Hle.
  destruct (update_with_wf p id f v v') as (p' & Hrun & Hwf' & (_ & _ & _ & _ & Hget')); try done.
  { by eapply small_in_order. }
  eauto.
Qed.

(** Witnesses: five voters 0..4 at value 0, learners 6 and 7. *)
Definition prog5 : VecProgress N N (list N) := VecProgress_new [0; 1; 2; 3; 4]%N [6; 7]%N 0%N.
Definition prog3 : VecProgress N N (Joint (list N)) := VecProgress_new (Joint_new [[1; 2; 3]]%N) []%N 0%N.

Lemma prog5_wf : vp_wf prog5.
Proof. apply VecProgress_new_wf. split; [by apply (bool_decide_unpack _)|done|done]. Qed.
Lemma prog3_wf : vp_wf prog3.
Proof. apply VecProgress_new_wf. split; [by apply (bool_decide_unpack _)|done|done]. Qed.

Lemma update_with_granted_witness :
  ∃ p', update_with prog5 3%N (λ _, Done 7%N) = Done (ROk p'.(granted), p') ∧ vp_wf p' ∧
    greatest_granted prog5.(quorum_set) p'.(granted) (voters p') ∧
    ∀ id', try_get p' id' = if decide (3%N = id') then Some 7%N else try_get prog5 id'.
Proof.
  apply (update_with_granted prog5 3%N _ 0%N 7%N prog5_wf); by vm_compute.
Defined.

Lemma upgrade_quorum_set_witness :
  ∃ p', upgrade_quorum_set prog5 [2; 3; 8]%N [0]%N 0%N = Done p' ∧ vp_wf p' ∧
    p'.(quorum_set) = [2; 3; 8]%N ∧
    ∀ id, try_get p' id = if decide (id ∈ qs_ids [2; 3; 8]%N ++ [0]%N)
                          then Some (default 0%N (try_get prog5 id)) else None.
Proof.
  apply (upgrade_quorum_set_spec prog5).
  - by apply (bool_decide_unpack _).
  - split; [by apply (bool_decide_unpack _)|done|done].
  - by apply (bool_decide_unpack _).
Defined.

Lemma update_small_cluster_witness :
  ∃ p', update_with prog3 2%N (λ _, Done 7%N) = Done (ROk p'.(granted), p') ∧ vp_wf p' ∧
    ∀ id', try_get p' id' = if decide (2%N = id') then Some 7%N else try_get prog3 id'.
Proof.
  apply (update_small_cluster prog3 [1; 2; 3]%N 2%N _ 0%N 7%N prog3_wf); by vm_compute.
Defined.

(** Without the side condition the order is lost and a value is granted that no quorum
    reached.  With five voters, after [update(1,3)], [update(2,2)], [update(2,5)] (node 2 is above
    the granted value 0 and overtakes node 1, but is not moved up) and [update(3,4)], the granted
    value is 4 although only nodes 2 and 3 have reached 4. *)
Theorem update_above_granted_overgrants :
  ∃ p1 p2 p3 p4 r1 r2 r3,
    update prog5 1%N 3%N = Done (r1, p1) ∧ update p1 2%N 2%N = Done (r2, p2) ∧
    update p2 2%N 5%N = Done (r3, p3) ∧ update p3 3%N 4%N = Done (ROk 4%N, p4) ∧
    p4.(granted) = 4%N ∧ ids_ge 4%N (voters p4) = [2; 3]%N ∧
    is_quorum p4.(quorum_set) (ids_ge 4%N (voters p4)) = false.
Proof. do 7 eexists. split_and!; by vm_compute. Qed.
