(* ===== verification/LogIdList.v ===== *)
(** * Compact log id list (openraft/src/engine/log_id_list.rs, leader_log_ids.rs)

    [LogIdList] stores, of a whole log, only the ids of the entries that start a new leader, plus
    the last one.  [LogIdList.ref_at] reads any log id back.  The theorems relate every operation
    to the log it represents: [append] adds one entry and fills the gap before it, [truncate] and
    [purge] restrict the range of indexes, [extend] adds consecutive entries, and
    [get_key_log_ids] terminates and rebuilds the list of a stored log by binary search. *)

From S2P Require Export Vote.

Record LogIdList {C : RaftTypeConfig} := { key_log_ids : list LogId }.
Record LeaderLogIds {C : RaftTypeConfig} := { log_id_range : option (LogId * LogId) }.

(** [slice::binary_search_by] with the index as the key, on a list sorted by it: the position of
    the match, or the position where it would be inserted. *)
Fixpoint binary_search {C : RaftTypeConfig} (l : list LogId) (at_ : N) : Result nat nat :=
  match l with
  | [] => RErr 0
  | x :: l =>
      match cmp x.(index) at_ with
      | Eq => ROk 0
      | Gt => RErr 0
      | Lt => match binary_search l at_ with ROk i => ROk (S i) | RErr i => RErr (S i) end
      end
  end.

Module LeaderLogIds.
Section ops.
Context {C : RaftTypeConfig}.

Definition new_single (log_id : LogId) : LeaderLogIds := {| log_id_range := Some (log_id, log_id) |}.
Definition new_start_end (first last : LogId) : LeaderLogIds := {| log_id_range := Some (first, last) |}.
Definition first (l : LeaderLogIds) : option LogId := fst <$> l.(log_id_range).
Definition last (l : LeaderLogIds) : option LogId := snd <$> l.(log_id_range).
End ops.
End LeaderLogIds.

Module LogIdList.
Section ops.
Context {C : RaftTypeConfig}.

Definition new (key_log_ids : list LogId) : LogIdList := {| key_log_ids := key_log_ids |}.

Definition first (l : LogIdList) : option LogId := head l.(key_log_ids).
Definition last (l : LogIdList) : option LogId := list.last l.(key_log_ids).
Definition last_committed_leader_id (l : LogIdList) : option CommittedLeaderId :=
  leader_id <$> last l.

Definition append (l : LogIdList) (new_log_id : LogId) : Outcome LogIdList :=
  let ks := l.(key_log_ids) in
  let n := length ks in
  if n =? 0 then Done {| key_log_ids := ks ++ [new_log_id] |}
  else
    last ← unwrap (ks !! (n - 1)) "index out of bounds";
    _ ← assert_ (last ≺? new_log_id) "new_log_id > last";
    if n =? 1 then Done {| key_log_ids := ks ++ [new_log_id] |}
    else if bool_decide ((leader_id <$> ks !! (n - 2)) = Some last.(leader_id))
    then Done {| key_log_ids := <[n - 1 := new_log_id]> ks |}
    else Done {| key_log_ids := ks ++ [new_log_id] |}.

Definition extend_from_same_leader (l : LogIdList) (new_ids : list LogId) : Outcome LogIdList :=
  match new_ids with
  | [] => Done l
  | first :: it =>
      l ← append l first;
      match list.last it with
      | None => Done l
      | Some last =>
          _ ← assert_ (bool_decide (last.(leader_id) = first.(leader_id))) "same leader";
          if bool_decide (last = first) then Done l else append l last
      end
  end.

(** [for (i, log_id) in it.enumerate()] *)
Fixpoint extend_loop (l : LogIdList) (i len : nat) (it : list LogId) : Outcome LogIdList :=
  match it with
  | [] => Done l
  | log_id :: it =>
      l ← (if bool_decide (last_committed_leader_id l = Some log_id.(leader_id)) then Done l
           else append l log_id);
      l ← (if i =? len - 1
           then if bool_decide (last l = Some log_id) then Done l else append l log_id
           else Done l);
      extend_loop l (S i) len it
  end.

Definition extend (l : LogIdList) (new_ids : list LogId) : Outcome LogIdList :=
  extend_loop l 0 (length new_ids) new_ids.

(** The end of [truncate]: add a key log id if there is a gap between the last index and
    [at_ - 1]. *)
Definition truncate_fill (l : LogIdList) (at_ : N) : Outcome LogIdList :=
  match last l with
  | None => Done l
  | Some last =>
      prev ← sub_u64 at_ 1;
      if (last.(index) <? prev)%N then append l (LogId_new last.(leader_id) prev) else Done l
  end.

Definition truncate (l : LogIdList) (at_ : N) : Outcome LogIdList :=
  match binary_search l.(key_log_ids) at_ with
  | ROk i => truncate_fill {| key_log_ids := take i l.(key_log_ids) |} at_
  | RErr i =>
      if i =? length l.(key_log_ids) then Done l
      else truncate_fill {| key_log_ids := take i l.(key_log_ids) |} at_
  end.

Definition purge (l : LogIdList) (upto : LogId) : Outcome LogIdList :=
  if (next_index (last l) <=? upto.(index))%N then
    _ ← assert_ (last l ≺? Some upto) "Some(upto) > self.last()";
    Done {| key_log_ids := [upto] |}
  else
    k0 ← unwrap (l.(key_log_ids) !! 0) "index out of bounds";
    if (upto.(index) <? k0.(index))%N then Done l
    else
      match binary_search l.(key_log_ids) upto.(index) with
      | ROk i => Done (if 0 <? i then {| key_log_ids := drop i l.(key_log_ids) |} else l)
      | RErr i =>
          i ← sub_u64 (N.of_nat i) 1;
          match drop (N.to_nat i) l.(key_log_ids) with
          | [] => Panic "index out of bounds"
          | k :: ks => Done {| key_log_ids := LogId_new k.(leader_id) upto.(index) :: ks |}
          end
      end.

Definition ref_at (l : LogIdList) (index : N) : option LogId :=
  let at_ (change_point : nat) :=
    k ← l.(key_log_ids) !! change_point; Some (LogId_new k.(leader_id) index) in
  match binary_search l.(key_log_ids) index with
  | ROk i => at_ i
  | RErr i => if (i =? 0) || (i =? length l.(key_log_ids)) then None else at_ (i - 1)
  end.

Definition get (l : LogIdList) (index : N) : option LogId := ref_at l index.

Definition by_last_leader (l : LogIdList) : Outcome LeaderLogIds :=
  let ks := l.(key_log_ids) in
  let n := length ks in
  if n <? 2 then Done {| log_id_range := (λ x, (x, x)) <$> last l |}
  else
    a ← unwrap (ks !! (n - 1)) "index out of bounds";
    b ← unwrap (ks !! (n - 2)) "index out of bounds";
    if bool_decide (a.(leader_id) = b.(leader_id))
    then Done (LeaderLogIds.new_start_end b a)
    else last ← unwrap (last l) "unwrap"; Done (LeaderLogIds.new_single last).

(** [get_key_log_ids]: [sto] is [RaftLogReaderExt::get_log_id] of the application's log store.
    [fuel] bounds the number of iterations of the loop; [None] is "out of fuel". *)
Section load.
Context {E : Type} (sto : N → Result LogId E).

Definition push_key (res : list LogId) (x : LogId) : list LogId :=
  if (leader_id <$> list.last res) ≺? Some x.(leader_id) then res ++ [x] else res.

Fixpoint key_loop (fuel : nat) (stack : list (LogId * LogId)) (res : list LogId) :
    option (Result (list LogId) E) :=
  match fuel with
  | O => None
  | S fuel =>
      match stack with
      | [] => Some (ROk res)
      | (first, last) :: stack =>
          if bool_decide (first.(leader_id) = last.(leader_id)) then key_loop fuel stack (push_key res first)
          else if (first.(index) + 1 =? last.(index))%N then
            key_loop fuel stack (push_key res first ++ [last])
          else
            match sto ((first.(index) + last.(index)) / 2)%N with
            | RErr e => Some (RErr e)
            | ROk mid =>
                if bool_decide (first.(leader_id) = mid.(leader_id)) then
                  key_loop fuel ((mid, last) :: stack) (push_key res first)
                else if bool_decide (mid.(leader_id) = last.(leader_id)) then
                  key_loop fuel ((first, mid) :: stack) res
                else key_loop fuel ((first, mid) :: (mid, last) :: stack) res
            end
      end
  end.

Definition get_key_log_ids (fuel : nat) (first last : LogId) : option (Result (list LogId) E) :=
  match key_loop fuel [(first, last)] [] with
  | Some (ROk res) => Some (ROk (if bool_decide (list.last res = Some last) then res else res ++ [last]))
  | r => r
  end.
End load.

(** ** The invariant and the represented log *)

(** Indexes increase, and so do leader ids, except that the last two may share one. *)
Fixpoint keys_wf (l : list LogId) : bool :=
  match l with
  | a :: ((b :: t) as r) =>
      (a.(index) <? b.(index))%N &&
      (match t with [] => a.(leader_id) ⪯? b.(leader_id) | _ => a.(leader_id) ≺? b.(leader_id) end) &&
      keys_wf r
  | _ => true
  end.

Definition wf (l : LogIdList) : bool := keys_wf l.(key_log_ids).

(** The represented log, read front to back. *)
Fixpoint read (l : list LogId) (i : N) : option LogId :=
  match l with
  | [] => None
  | k :: t =>
      if (i <? k.(index))%N then None
      else if (i =? k.(index))%N then Some (LogId_new k.(leader_id) i)
      else match t with
           | [] => None
           | k' :: _ => if (i <? k'.(index))%N then Some (LogId_new k.(leader_id) i) else read t i
           end
  end.
End ops.
End LogIdList.

(** ** Lemmas *)

Section log_id_list_lemmas.
Context {C : RaftTypeConfig}.
Import LogIdList.
Implicit Types l : list LogId.

Lemma ref_at_read l i : ref_at (new l) i = read l i.
Proof.
  rw /ref_at /=. induction l as [|k t IH]; [done|]. cbn [read binary_search length].
  destruct (N.compare_spec k.(index) i) as [Heq|Hlt|Hgt]; cbn [cmp N_ord].
  - subst. rw N.compare_refl N.ltb_irrefl N.eqb_refl. done.
  - rw (proj2 (N.compare_lt_iff _ _) Hlt). rw (proj2 (N.ltb_ge _ _)); [lia|].
    rw (proj2 (N.eqb_neq _ _)); [lia|]. destruct t as [|k' t']; [done|].
    destruct (N.ltb_spec i k'.(index)) as [Hi|Hi].
    + cbn. by rw (proj2 (N.compare_gt_iff _ _) Hi).
    + rw -IH. destruct (binary_search (k' :: t') i) as [j|j] eqn:Hb; [done|].
      destruct j as [|j].
      { exfalso. revert Hb. cbn. destruct (N.compare_spec (index k') i); [done| |lia].
        by destruct (binary_search t' i). }
      cbn. by rw Nat.sub_0_r.
  - rw (proj2 (N.compare_gt_iff _ _) Hgt). by rw (proj2 (N.ltb_lt _ _) Hgt).
Qed.

Definition idx_lt (a b : LogId) : Prop := (a.(index) < b.(index))%N.
Definition key_lt (a b : LogId) : Prop := (a.(index) < b.(index))%N ∧ a.(leader_id) ≺ b.(leader_id).
Definition key_le (a b : LogId) : Prop := (a.(index) < b.(index))%N ∧ a.(leader_id) ⪯ b.(leader_id).

Lemma key_lt_le a b : key_lt a b → key_le a b.
Proof. intros [??]. split; [done|]. by apply olt_le. Qed.

Lemma key_le_olt a b : key_le a b → a ≺ b.
Proof. intros [??]. by apply log_id_lt_of_index. Qed.

#[global] Instance key_lt_trans : Transitive key_lt.
Proof. intros a b c [??] [??]. split; [lia|order]. Qed.
#[global] Instance key_le_trans : Transitive key_le.
Proof. intros a b c [??] [??]. split; [lia|order]. Qed.
#[global] Instance idx_lt_trans : Transitive idx_lt.
Proof. intros a b c. rw /idx_lt. lia. Qed.

(** All keys but the last are strictly increasing; the last one may repeat a leader. *)
Lemma keys_wf_snoc l a :
  keys_wf (l ++ [a]) = true ↔ Sorted key_lt l ∧ ∀ q, list.last l = Some q → key_le q a.
Proof.
  induction l as [|k [|k' l] IH].
  - split; [split; [constructor|done]|done].
  - cbn. rw !andb_true_iff N.ltb_lt leb_le. split.
    + intros [[??]_]. split; [repeat constructor|]. intros q [= <-]. done.
    + intros [_ Hq]. destruct (Hq k eq_refl). done.
  - cbn [app] in IH |- *. cbn [keys_wf]. rw andb_true_iff.
    change (match l ++ [a] with [] => true | b :: t => _ end) with (keys_wf (k' :: l ++ [a])).
    setoid_rewrite IH.
    assert (match l ++ [a] with [] => k.(leader_id) ⪯? k'.(leader_id)
            | _ :: _ => k.(leader_id) ≺? k'.(leader_id) end = (k.(leader_id) ≺? k'.(leader_id))) as ->
      by by destruct l.
    rw andb_true_iff N.ltb_lt ltb_lt. cbn [list.last].
    split; [intros [[??] [Hs Hq]]|intros [Hs Hq]].
    + split; [|done]. constructor; [done|]. by constructor.
    + apply Sorted_inv in Hs as [Hs Hh]. apply HdRel_inv in Hh as [??]. done.
Qed.

Lemma keys_wf_sorted l : keys_wf l = true → StronglySorted key_le l.
Proof.
  destruct l as [|a l _] using rev_ind; [constructor|].
  intros [Hs Hq]%keys_wf_snoc. apply Sorted_StronglySorted; [apply _|].
  apply Sorted_snoc.
  2:{ destruct l as [|q l _] using rev_ind; constructor. apply Hq. by rw last_snoc. }
  clear Hq. induction Hs as [|x l Hs IH Hh]; constructor; [done|].
  destruct Hh; constructor. by apply key_lt_le.
Qed.

Lemma keys_wf_idx l : keys_wf l = true → StronglySorted idx_lt l.
Proof.
  intros Hs%keys_wf_sorted. induction Hs as [|x l Hs IH Hall]; constructor; [done|].
  eapply Forall_impl; [exact Hall|]. by intros y [].
Qed.

Lemma keys_strict_wf l : Sorted key_lt l → keys_wf l = true.
Proof.
  destruct l as [|a l _] using rev_ind; [done|]. intros Hs. apply keys_wf_snoc. split.
  - apply StronglySorted_Sorted. apply Sorted_StronglySorted in Hs; [|apply _].
    by eapply StronglySorted_app_1_l.
  - intros q [l' ->]%last_Some. apply key_lt_le. apply Sorted_StronglySorted in Hs; [|apply _].
    eapply StronglySorted_app_1_elem_of; [exact Hs|set_solver|set_solver].
Qed.

Lemma keys_wf_prefix l1 l2 k : keys_wf (l1 ++ k :: l2) = true → Sorted key_lt l1.
Proof.
  destruct (exists_last (l := k :: l2)) as [l2' [z Hz]]; [done|]. rw Hz app_assoc.
  intros [Hs _]%keys_wf_snoc. apply StronglySorted_Sorted. apply Sorted_StronglySorted in Hs; [|apply _].
  by eapply StronglySorted_app_1_l.
Qed.

Lemma keys_wf_suffix l1 l2 : keys_wf (l1 ++ l2) = true → keys_wf l2 = true.
Proof.
  destruct l2 as [|z l2 _] using rev_ind; [done|]. rw app_assoc.
  intros [Hs Hq]%keys_wf_snoc. apply keys_wf_snoc. split.
  - apply StronglySorted_Sorted. apply Sorted_StronglySorted in Hs; [|apply _].
    by eapply StronglySorted_app_1_r.
  - intros q Hl. apply Hq. rw last_app Hl. done.
Qed.

(** A read is decided on one side of any key. *)
Lemma read_app l b t i :
  StronglySorted idx_lt (l ++ b :: t) →
  read (l ++ b :: t) i = if (i <? b.(index))%N then read (l ++ [b]) i else read (b :: t) i.
Proof.
  induction l as [|k l IH]; intros Hs.
  - cbn. destruct (N.ltb_spec i b.(index)); [done|]. done.
  - apply StronglySorted_cons in Hs as [Hall Hs]. specialize (IH Hs).
    assert (k.(index) < b.(index))%N as Hkb.
    { rw Forall_forall in Hall. apply Hall. set_solver. }
    destruct (N.ltb_spec i b.(index)) as [Hi|Hi].
    + destruct l as [|k' l]; cbn [app read] in IH |- *.
      * repeat case_match; try done; lia.
      * by rw IH.
    + rw -IH.
      destruct l as [|k' l]; cbn [app]; cbn [read].
      * destruct (N.ltb_spec i k.(index)); [lia|].
        destruct (N.eqb_spec i k.(index)); [lia|]. destruct (N.ltb_spec i b.(index)); [lia|done].
      * assert (k'.(index) < b.(index))%N.
        { apply StronglySorted_cons in Hs as [Hall' _]. rw Forall_forall in Hall'. apply Hall'. set_solver. }
        destruct (N.ltb_spec i k.(index)); [lia|]. destruct (N.eqb_spec i k.(index)); [lia|].
        destruct (N.ltb_spec i k'.(index)); [lia|done].
Qed.

Lemma read_last l q i :
  StronglySorted idx_lt (l ++ [q]) → (q.(index) < i)%N → read (l ++ [q]) i = None.
Proof.
  intros Hs Hi. rw read_app; [done|]. cbn.
  destruct (N.ltb_spec i q.(index)); [lia|]. by destruct (N.eqb_spec i q.(index)); [lia|].
Qed.

Lemma read_index l i x : read l i = Some x → x.(index) = i.
Proof.
  revert i. induction l as [|k t IH]; intros i; [done|]. cbn.
  repeat case_match; try done; try (by intros [= <-]); eauto.
Qed.

(** The shape of the keys after [append]. *)
Lemma append_keys l q x :
  q ≺ x → append (new (l ++ [q])) x =
    Done (new (match list.last l with
               | Some a => if decide (a.(leader_id) = q.(leader_id)) then l ++ [x] else l ++ [q; x]
               | None => [q; x]
               end)).
Proof.
  intros Hlt. rw /append. cbn [key_log_ids new].
  destruct (Nat.eqb_spec (length (l ++ [q])) 0) as [H0|_]; [rw length_app /= in H0; lia|].
  rw lookup_snoc_last. cbn [mbind outcome_bind unwrap]. rw (proj2 (ltb_lt _ _) Hlt).
  cbn [mbind outcome_bind assert_].
  destruct l as [|a l _] using rev_ind; [done|]. rw last_snoc.
  destruct (Nat.eqb_spec (length ((l ++ [a]) ++ [q])) 1) as [H1|_]; [rw !length_app /= in H1; lia|].
  assert (((l ++ [a]) ++ [q]) !! (length ((l ++ [a]) ++ [q]) - 2) = Some a) as ->.
  { rw -app_assoc /= length_app /= Nat.add_sub. by rw list_lookup_middle. }
  cbn [fmap option_fmap option_map]. case_decide as Hd.
  - rw bool_decide_true; [by rw Hd|].
    replace (length ((l ++ [a]) ++ [q]) - 1) with (length (l ++ [a])) by (rw !length_app /=; lia).
    by rw list_insert_middle.
  - rw bool_decide_false; [congruence|]. by rw -!app_assoc.
Qed.

(** [append] adds [x] and fills the gap before it with the leader of the last entry. *)
Definition append_read (l : list LogId) (q x : LogId) (i : N) : option LogId :=
  if (i <=? q.(index))%N then read l i
  else if (i <? x.(index))%N then Some (LogId_new q.(leader_id) i)
  else if (i =? x.(index))%N then Some x else None.

Lemma key_le_idx l : StronglySorted key_le l → StronglySorted idx_lt l.
Proof.
  induction 1 as [|x l Hs IH Hall]; constructor; [done|].
  eapply Forall_impl; [exact Hall|]. by intros y [].
Qed.

Lemma key_le_snoc l q x :
  StronglySorted key_le (l ++ [q]) → key_le q x → StronglySorted key_le (l ++ [q; x]).
Proof.
  intros Hs Hqx. replace (l ++ [q; x]) with ((l ++ [q]) ++ [x]) by by rw -app_assoc.
  apply Sorted_StronglySorted; [apply _|]. apply Sorted_snoc; [by apply StronglySorted_Sorted|].
  by constructor.
Qed.

(** Reading the entry pushed after the last one. *)
Lemma read_push l q x i :
  StronglySorted key_le (l ++ [q]) → key_le q x → read (l ++ [q; x]) i = append_read (l ++ [q]) q x i.
Proof.
  intros Hs Hqx. rw read_app; [by apply key_le_idx, key_le_snoc|]. rw /append_read (read_app l q []).
  { by apply key_le_idx. }
  destruct Hqx as [Hi _], x as [xl xi]. cbn in *.
  destruct (N.ltb_spec i q.(index)), (N.leb_spec i q.(index)); try lia; try done.
  - destruct (N.eqb_spec i q.(index)); [done|lia].
  - destruct (N.eqb_spec i q.(index)); [lia|]. destruct (N.ltb_spec i xi); [done|].
    by destruct (N.eqb_spec i xi) as [-> |].
Qed.

(** Reading the entry that replaces the last one, of the same leader as the one before it. *)
Lemma read_replace l a q x i :
  StronglySorted key_le (l ++ [a; q]) → key_le q x → a.(leader_id) = q.(leader_id) →
  read (l ++ [a; x]) i = append_read (l ++ [a; q]) q x i.
Proof.
  intros Hs Hqx Hd.
  assert (key_le a q) as Haq.
  { eapply (StronglySorted_app_1_elem_of _ (l ++ [a]) [q]); [by rw -app_assoc|set_solver..]. }
  assert (StronglySorted key_le (l ++ [a])) as Hsa.
  { eapply (StronglySorted_app_1_l _ _ [q]). by rw -app_assoc. }
  rw /append_read read_push; [done|by etrans|]. rw read_push; [done..|].
  rw /append_read. destruct Haq as [Haq _], Hqx as [Hqx _], x as [xl xi]. cbn in *. rw Hd.
  destruct (N.leb_spec i (index a)), (N.leb_spec i (index q)), (N.ltb_spec i xi); try lia; try done;
    destruct (N.ltb_spec i (index q)); try lia; try done.
  destruct (N.eqb_spec i (index q)); [|lia]. subst. by destruct q.
Qed.

Lemma append_wf l q x :
  keys_wf l = true → list.last l = Some q → key_le q x →
  ∃ l', append (new l) x = Done (new l') ∧ keys_wf l' = true ∧ list.last l' = Some x ∧
    head l' = head l ∧ ∀ i, read l' i = append_read l q x i.
Proof.
  intros Hwf [l0 ->]%last_Some Hqx. pose proof (key_le_olt _ _ Hqx) as Hlt.
  rw append_keys; [done|]. pose proof (proj1 (keys_wf_snoc _ _) Hwf) as [Hs Hq].
  pose proof (keys_wf_sorted _ Hwf) as Hle.
  destruct (list.last l0) as [a|] eqn:Hla.
  2:{ apply last_None in Hla as ->. exists [q; x]. split_and!; try done.
      - destruct Hqx as [Hi Hl]. cbn. apply N.ltb_lt in Hi. apply leb_le in Hl. by rw Hi Hl.
      - intros i. by apply (read_push []). }
  pose proof (Hq a eq_refl) as Haq. apply last_Some in Hla as [l1 ->]. case_decide as Hd.
  - exists ((l1 ++ [a]) ++ [x]). split_and!; [done| |by rw last_snoc|by destruct l1|].
    + apply keys_wf_snoc. split; [done|]. intros q'. rw last_snoc. intros [= <-]. by etrans.
    + intros i. rw -!app_assoc /= in Hle |- *. by apply read_replace.
  - exists ((l1 ++ [a]) ++ [q; x]). split_and!; [done| |by rw last_app|by destruct l1|].
    + replace ((l1 ++ [a]) ++ [q; x]) with (((l1 ++ [a]) ++ [q]) ++ [x]) by by rw -!app_assoc.
      apply keys_wf_snoc. split; [|intros q'; rw last_snoc; by intros [= <-]].
      apply Sorted_snoc; [done|]. constructor. destruct Haq as [? [?|?]%ole_lt_eq]; done.
    + intros i. by apply read_push.
Qed.

(** *** truncate and purge *)

Lemma binary_search_split l at_ :
  StronglySorted idx_lt l →
  ∃ l1 l2, l = l1 ++ l2 ∧ Forall (λ k, (k.(index) < at_)%N) l1 ∧ Forall (λ k, (at_ ≤ k.(index))%N) l2 ∧
    binary_search l at_ = match l2 with
                          | k :: _ => if decide (k.(index) = at_) then ROk (length l1) else RErr (length l1)
                          | [] => RErr (length l1)
                          end.
Proof.
  induction l as [|k l IH]; intros Hs; [by exists [], []|].
  apply StronglySorted_cons in Hs as [Hall Hs]. cbn.
  assert ((at_ ≤ k.(index))%N → Forall (λ k, (at_ ≤ k.(index))%N) (k :: l)) as Hge.
  { intros Hk. constructor; [done|]. eapply Forall_impl; [exact Hall|]. rw /idx_lt. lia. }
  destruct (N.compare_spec k.(index) at_) as [Heq|Hlt|Hgt].
  - exists [], (k :: l). split_and!; [done|constructor|apply Hge; lia|]. by rw decide_True.
  - destruct (IH Hs) as (l1 & l2 & -> & H1 & H2 & ->).
    exists (k :: l1), l2. split_and!; [done|by constructor|done|].
    destruct l2; [done|]. by case_decide.
  - exists [], (k :: l). split_and!; [done|constructor|apply Hge; lia|]. rw decide_False; [lia|done].
Qed.

Lemma read_below l i : Forall (λ k, (i < k.(index))%N) l → read l i = None.
Proof.
  destruct 1 as [|k l Hk]; [done|]. cbn. by destruct (N.ltb_spec i k.(index)); [|lia].
Qed.

Lemma read_beyond l i : Forall (λ k, (k.(index) < i)%N) l → read l i = None.
Proof.
  induction 1 as [|k l Hk Hl IH]; [done|]. cbn.
  destruct (N.ltb_spec i k.(index)); [done|]. destruct (N.eqb_spec i k.(index)); [lia|].
  destruct Hl as [|k' l Hk']; [done|]. by destruct (N.ltb_spec i k'.(index)); [lia|].
Qed.

Lemma read_prefix l q t i :
  StronglySorted idx_lt (l ++ q :: t) → (i ≤ q.(index))%N → read (l ++ q :: t) i = read (l ++ [q]) i.
Proof.
  intros Hs Hi. rw read_app; [done|]. rw (read_app l q []).
  { rw -(app_nil_r [q]) /=. apply (StronglySorted_app_1_l _ _ t). by rw -app_assoc. }
  cbn. destruct (N.ltb_spec i q.(index)); [done|]. by destruct (N.eqb_spec i q.(index)); [|lia].
Qed.

Lemma truncate_wf l at_ :
  keys_wf l = true →
  ∃ l', truncate (new l) at_ = Done (new l') ∧ keys_wf l' = true ∧
    ∀ i, read l' i = if (i <? at_)%N then read l i else None.
Proof.
  intros Hwf. pose proof (keys_wf_idx _ Hwf) as Hidx. rw /truncate. cbn [key_log_ids new].
  destruct (binary_search_split l at_ Hidx) as (l1 & l2 & -> & Hl1 & Hl2 & ->).
  destruct l2 as [|k l2].
  { rw app_nil_r Nat.eqb_refl in Hwf |- *. exists l1. split_and!; [done..|]. intros i.
    destruct (N.ltb_spec i at_); [done|]. apply read_beyond. eapply Forall_impl; [exact Hl1|]. cbn. lia. }
  apply Forall_cons in Hl2 as [Hk _].
  assert ((length l1 =? length (l1 ++ k :: l2)) = false) as Hneq.
  { apply Nat.eqb_neq. rw length_app /=. lia. }
  replace (match _ with ROk i => _ | RErr i => _ end) with (truncate_fill {| key_log_ids := l1 |} at_)
    by by case_decide; rw ?Hneq take_app_length.
  rw /truncate_fill /LogIdList.last. cbn [key_log_ids]. clear Hneq.
  destruct (list.last l1) as [q|] eqn:Hlast.
  2:{ apply last_None in Hlast as ->. exists []. split_and!; [done..|]. intros i.
      destruct (N.ltb_spec i at_); [|done]. cbn. by destruct (N.ltb_spec i k.(index)); [|lia]. }
  pose proof Hlast as [l0 ->]%last_Some. apply Forall_app in Hl1 as [_ Hq].
  apply Forall_cons in Hq as [Hq _]. rw -app_assoc /= in Hwf Hidx |- *.
  assert (keys_wf (l0 ++ [q]) = true) as Hwf1.
  { apply keys_strict_wf. eapply (keys_wf_prefix _ l2 k). by rw -app_assoc. }
  rw /sub_u64. destruct (N.leb_spec 1 at_); [|lia]. cbn [mbind outcome_bind].
  assert (∀ i, (q.(index) < i)%N → (i < at_)%N →
               read (l0 ++ q :: k :: l2) i = Some (LogId_new q.(leader_id) i)) as Hgap.
  { intros i Hi1 Hi2. rw read_app; [done|]. destruct (N.ltb_spec i q.(index)); [lia|]. cbn.
    destruct (N.ltb_spec i q.(index)); [lia|]. destruct (N.eqb_spec i q.(index)); [lia|].
    by destruct (N.ltb_spec i k.(index)); [|lia]. }
  destruct (N.ltb_spec q.(index) (at_ - 1)) as [Hlt|Hge].
  - destruct (append_wf (l0 ++ [q]) q (LogId_new q.(leader_id) (at_ - 1)))
      as (l' & Hrun & Hwf' & _ & _ & Hread); [done|by rw last_snoc|split; [done|apply ole_refl]|].
    exists l'. split_and!; [done..|]. intros i. rw Hread /append_read. cbn.
    destruct (N.leb_spec i q.(index)).
    + rw (read_prefix l0 q); [done..|]. by destruct (N.ltb_spec i at_); [|lia].
    + destruct (N.ltb_spec i at_) as [Hi|Hi].
      * rw Hgap; [done..|]. destruct (N.ltb_spec i (at_ - 1)); [done|].
        destruct (N.eqb_spec i (at_ - 1)) as [->|]; [done|lia].
      * destruct (N.ltb_spec i (at_ - 1)); [lia|]. by destruct (N.eqb_spec i (at_ - 1)); [lia|].
  - exists (l0 ++ [q]). split_and!; [done..|]. intros i. destruct (N.ltb_spec i at_).
    + rw (read_prefix l0 q); [done|lia|done].
    + apply read_last; [by apply keys_wf_idx|lia].
Qed.

Lemma purge_beyond l upto :
  (next_index (list.last l) ≤ upto.(index))%N → list.last l ≺ Some upto →
  purge (new l) upto = Done (new [upto]).
Proof.
  intros Hi Hlt. rw /purge /LogIdList.last /=. apply N.leb_le in Hi as ->.
  apply ltb_lt in Hlt as ->. done.
Qed.

Lemma purge_within l upto :
  keys_wf l = true → (upto.(index) < next_index (list.last l))%N →
  ∃ l', purge (new l) upto = Done (new l') ∧ keys_wf l' = true ∧ list.last l' = list.last l ∧
    ∀ i, read l' i = if (i <? upto.(index))%N then None else read l i.
Proof.
  intros Hwf Hlast. pose proof (keys_wf_idx _ Hwf) as Hidx.
  rw /purge /LogIdList.last. cbn [key_log_ids new].
  destruct (N.leb_spec (next_index (list.last l)) upto.(index)); [lia|].
  destruct l as [|k0 l]; [cbn in Hlast; lia|]. cbn [lookup list_lookup mbind outcome_bind unwrap].
  destruct (N.ltb_spec upto.(index) k0.(index)) as [Hlt|Hge].
  { exists (k0 :: l). split_and!; [done..|]. intros i. destruct (N.ltb_spec i upto.(index)); [|done].
    cbn. by destruct (N.ltb_spec i k0.(index)); [|lia]. }
  destruct (binary_search_split (k0 :: l) upto.(index) Hidx) as (l1 & l2 & Hl & Hl1 & Hl2 & ->).
  rw Hl in Hwf Hidx Hlast |- *.
  destruct l2 as [|k l2].
  { exfalso. rw app_nil_r in Hlast. destruct (list.last l1) as [q|] eqn:Hq; [|cbn in Hlast; lia].
    apply last_Some in Hq as [l0 ->]. apply Forall_app in Hl1 as [_ [Hq _]%Forall_cons].
    cbn in Hlast. lia. }
  apply Forall_cons in Hl2 as [Hk _]. case_decide as Hd.
  - exists (k :: l2). split_and!.
    + destruct (Nat.ltb_spec 0 (length l1)); [by rw drop_app_length|].
      destruct l1; [done|cbn in *; lia].
    + by eapply keys_wf_suffix.
    + by rw !last_app_cons.
    + intros i. rw (read_app l1); [done|]. rw Hd. destruct (N.ltb_spec i upto.(index)); [|done].
      cbn. by destruct (N.ltb_spec i k.(index)); [|lia].
  - destruct l1 as [|q l1 _] using rev_ind.
    { exfalso. cbn in Hl. injection Hl as -> ->. lia. }
    apply Forall_app in Hl1 as [_ [Hq _]%Forall_cons]. rw -app_assoc /= in Hwf Hidx |- *.
    rw /sub_u64 length_app /=. destruct (N.leb_spec 1 (N.of_nat (length l1 + 1))); [|lia].
    cbn [mbind outcome_bind].
    replace (N.to_nat (N.of_nat (length l1 + 1) - 1)) with (length l1) by lia. rw drop_app_length.
    exists (LogId_new q.(leader_id) upto.(index) :: k :: l2). split_and!; [done| | |].
    + apply keys_wf_suffix in Hwf. cbn in Hwf |- *. rw !andb_true_iff in Hwf |- *.
      destruct Hwf as [[_ ?] ?]. split_and!; [|done..]. apply N.ltb_lt. lia.
    + by rw !last_app_cons.
    + intros i. rw (read_app l1 q (k :: l2)); [done|]. cbn.
      destruct (N.ltb_spec i upto.(index)); [done|]. destruct (N.ltb_spec i q.(index)); [lia|].
      destruct (N.eqb_spec i q.(index)); [lia|].
      destruct (N.eqb_spec i upto.(index)); [|done]. by destruct (N.ltb_spec i k.(index)); [|lia].
Qed.

(** *** The represented log *)

Lemma read_last_key l q : keys_wf l = true → list.last l = Some q → read l q.(index) = Some q.
Proof.
  intros Hwf [l0 ->]%last_Some. rw read_app; [by apply keys_wf_idx|]. cbn.
  rw N.ltb_irrefl N.eqb_refl. by destruct q.
Qed.

Lemma read_first_key l k : head l = Some k → read l k.(index) = Some k.
Proof. destruct l; [done|]. intros [= ->]. cbn. rw N.ltb_irrefl N.eqb_refl. by destruct k. Qed.

(** Every read comes from a key at or before it. *)
Lemma read_key l i x :
  keys_wf l = true → read l i = Some x →
  ∃ l1 k l2, l = l1 ++ k :: l2 ∧ (k.(index) ≤ i)%N ∧ x = LogId_new k.(leader_id) i ∧
    match l2 with [] => i = k.(index) | k' :: _ => (i < k'.(index))%N end.
Proof.
  intros Hwf%keys_wf_idx. revert i x. induction Hwf as [|k l Hs IH Hall]; intros i x; cbn; [done|].
  destruct (N.ltb_spec i k.(index)); [done|]. destruct (N.eqb_spec i k.(index)) as [->|].
  - intros [= <-]. exists [], k, l. split_and!; [done..|]. destruct l as [|k' l]; [done|].
    by apply Forall_cons in Hall as [].
  - destruct l as [|k' l]; [done|]. destruct (N.ltb_spec i k'.(index)).
    + intros [= <-]. by exists [], k, (k' :: l).
    + intros (l1 & k1 & l2 & -> & ? & ? & ?)%IH. by exists (k :: l1), k1, l2.
Qed.

Lemma read_mono l i j x y :
  keys_wf l = true → read l i = Some x → read l j = Some y → (i ≤ j)%N →
  x.(leader_id) ⪯ y.(leader_id).
Proof.
  intros Hwf Hx Hy Hij.
  destruct (read_key _ _ _ Hwf Hx) as (l1 & k & l2 & Hl & Hk & -> & Hki).
  destruct (read_key _ _ _ Hwf Hy) as (l1' & k' & l2' & Hl' & Hk' & -> & Hki'). cbn.
  apply keys_wf_sorted in Hwf. pose proof Hwf as Hwf'.
  assert (k ∈ l1' ++ k' :: l2') as Hin by (rw -Hl' Hl; set_solver).
  rw Hl' in Hwf. apply elem_of_app in Hin as [Hin|[-> |Hin]%elem_of_cons].
  - by apply (StronglySorted_app_1_elem_of _ l1' (k' :: l2') k k' Hwf Hin); set_solver.
  - apply ole_refl.
  - exfalso. destruct l2' as [|z l2']; [set_solver|].
    apply StronglySorted_app_1_r, StronglySorted_cons in Hwf as [_ Hwf].
    assert (z.(index) ≤ k.(index))%N; [|lia].
    apply elem_of_cons in Hin as [-> |Hin]; [lia|].
    apply StronglySorted_cons in Hwf as [Hall _]. rw Forall_forall in Hall.
    destruct (Hall _ Hin). lia.
Qed.

Lemma sorted_last_le k l q :
  StronglySorted idx_lt (k :: l) → list.last (k :: l) = Some q → (k.(index) ≤ q.(index))%N.
Proof.
  intros [Hall _]%StronglySorted_cons [l' Hl]%last_Some.
  destruct l' as [|k' l']; [by injection Hl as -> _|]. injection Hl as <- Hl.
  rw Forall_forall in Hall. assert (idx_lt k q) by (apply Hall; rw Hl; set_solver).
  unfold idx_lt in *. lia.
Qed.

Lemma read_bounds l i x :
  keys_wf l = true → read l i = Some x →
  ∃ f q, head l = Some f ∧ list.last l = Some q ∧ (f.(index) ≤ i)%N ∧ (i ≤ q.(index))%N.
Proof.
  intros Hwf Hr. destruct (read_key _ _ _ Hwf Hr) as (l1 & k & l2 & Hl & Hk & _ & Hki).
  apply keys_wf_idx in Hwf. rw Hl in Hwf |- *.
  destruct (list.last (l1 ++ k :: l2)) as [q|] eqn:Hq; [|apply last_None in Hq; by destruct l1].
  exists (default k (head l1)), q. split_and!; [by destruct l1|done| |].
  - destruct l1 as [|f l1]; [done|]. cbn. apply StronglySorted_cons in Hwf as [Hall _].
    rw Forall_forall in Hall. assert (idx_lt f k) by (apply Hall; set_solver). unfold idx_lt in *. lia.
  - rw last_app_cons in Hq. apply StronglySorted_app_1_r in Hwf.
    destruct l2 as [|k' l2]; [injection Hq as <-; lia|].
    apply StronglySorted_cons in Hwf as [_ Hwf].
    pose proof (sorted_last_le k' l2 q Hwf Hq). lia.
Qed.

Lemma read_total l f q i :
  keys_wf l = true → head l = Some f → list.last l = Some q →
  (f.(index) ≤ i)%N → (i ≤ q.(index))%N → is_Some (read l i).
Proof.
  revert f. induction l as [|k l IH]; intros f Hwf [= ->] Hq Hf Hi. cbn.
  destruct (N.ltb_spec i f.(index)); [lia|]. destruct (N.eqb_spec i f.(index)); [done|].
  destruct l as [|k' l]; [injection Hq as ->; lia|].
  destruct (N.ltb_spec i k'.(index)); [done|]. apply (IH k'); [|done..].
  by apply (keys_wf_suffix [f]).
Qed.

(** *** extend *)

(** [b] is the entry after [a] in a log. *)
Definition log_next (a b : LogId) : Prop :=
  b.(index) = (a.(index) + 1)%N ∧ a.(leader_id) ⪯ b.(leader_id).

(** The log after adding the consecutive entries [x :: it] after the key [q]. *)
Definition extend_read (l : list LogId) (q x : LogId) (it : list LogId) (i : N) : option LogId :=
  if (i <=? q.(index))%N then read l i
  else if (i <? x.(index))%N then Some (LogId_new q.(leader_id) i)
  else (x :: it) !! N.to_nat (i - x.(index)).

Lemma extend_read_single l q x i :
  append_read l q x i = extend_read l q x [] i.
Proof.
  rw /append_read /extend_read. destruct (N.leb_spec i q.(index)); [done|].
  destruct (N.ltb_spec i x.(index)); [done|]. destruct (N.eqb_spec i x.(index)) as [->|].
  - by rw N.sub_diag.
  - by destruct (N.to_nat (i - index x)) eqn:E; [lia|].
Qed.

Lemma extend_loop_wf l q x it n len :
  keys_wf l = true → list.last l = Some q → key_le q x → Sorted log_next (x :: it) →
  n + S (length it) = len →
  ∃ l', extend_loop (new l) n len (x :: it) = Done (new l') ∧ keys_wf l' = true ∧
    list.last l' = list.last (x :: it) ∧ head l' = head l ∧ ∀ i, read l' i = extend_read l q x it i.
Proof.
  revert l q x n. induction it as [|y it IH]; intros l q x n Hwf Hq Hqx Hs Hlen;
    cbn [extend_loop]; rw /last_committed_leader_id /LogIdList.last; cbn [key_log_ids new];
    rw Hq; cbn [fmap option_fmap option_map].
  - assert ((n =? len - 1) = true) as -> by (apply Nat.eqb_eq; cbn in Hlen; lia).
    destruct (append_wf l q x Hwf Hq Hqx) as (l' & Hrun & Hwf' & Hl' & Hh & Hread).
    assert (∀ i, read l' i = extend_read l q x [] i) as Hread'.
    { intros i. by rw Hread extend_read_single. }
    destruct (bool_decide_reflect (Some (leader_id q) = Some (leader_id x))) as [Heq|Hne];
      cbn [mbind outcome_bind].
    + cbn [key_log_ids new]. rw Hq. rw bool_decide_false.
      { intros [= ->]. destruct Hqx. lia. }
      rw Hrun. cbn. eauto 10.
    + rw Hrun. cbn [mbind outcome_bind key_log_ids new]. rw Hl' bool_decide_true; [done|]. cbn. eauto 10.
  - assert ((n =? len - 1) = false) as -> by (apply Nat.eqb_neq; cbn in Hlen; lia).
    apply Sorted_inv in Hs as [Hs Hh]. apply HdRel_inv in Hh as [Hyi Hyl].
    destruct (bool_decide_reflect (Some (leader_id q) = Some (leader_id x))) as [Heq|Hne];
      cbn [mbind outcome_bind].
    + destruct (IH l q y (S n)) as (l' & Hrun & Hwf' & Hl' & Hhd & Hread); try done.
      { destruct Hqx. split; [lia|order]. }
      { cbn in *. lia. }
      exists l'. split_and!; [done..|]. intros i. rw Hread /extend_read.
      destruct Hqx as [Hqx _], x as [xl xi]. cbn in *. injection Heq as <-.
      destruct (N.leb_spec i (index q)); [done|]. rw Hyi.
      destruct (N.ltb_spec i (xi + 1)), (N.ltb_spec i xi); try lia; try done.
      * assert (i = xi) as -> by lia. by rw N.sub_diag.
      * replace (N.to_nat (i - xi)) with (S (N.to_nat (i - (xi + 1)))) by lia. done.
    + destruct (append_wf l q x Hwf Hq Hqx) as (l1 & Hrun1 & Hwf1 & Hl1 & Hhd1 & Hread1).
      rw Hrun1. cbn [mbind outcome_bind].
      destruct (IH l1 x y (S n)) as (l' & Hrun & Hwf' & Hl' & Hhd & Hread); try done.
      { split; [lia|done]. }
      { cbn in *. lia. }
      exists l'. rw Hhd Hhd1. split_and!; [done..|]. intros i. rw Hread /extend_read Hread1 extend_read_single /extend_read.
      destruct Hqx as [Hqx _], x as [xl xi]. cbn in *. rw Hyi.
      destruct (N.leb_spec i xi), (N.leb_spec i (index q)); try lia; try done.
      * destruct (N.ltb_spec i xi); [done|]. assert (i = xi) as -> by lia. by rw N.sub_diag.
      * destruct (N.ltb_spec i (xi + 1)); [lia|]. destruct (N.ltb_spec i xi); [lia|].
        replace (N.to_nat (i - xi)) with (S (N.to_nat (i - (xi + 1)))) by lia. done.
Qed.

(** The log after adding consecutive entries to [l]. *)
Definition extended (l ids : list LogId) (i : N) : option LogId :=
  match ids with
  | [] => read l i
  | x :: _ => if (i <? x.(index))%N then read l i else ids !! N.to_nat (i - x.(index))
  end.

(** [ids] continues the log [l]: its first entry is the next one after the last of [l]. *)
Definition continues (l ids : list LogId) : Prop :=
  Sorted log_next ids ∧
  ∀ q x, list.last l = Some q → head ids = Some x → log_next q x.

Lemma log_next_key a b : log_next a b → key_le a b.
Proof. intros [??]. split; [lia|done]. Qed.

Lemma log_next_sorted x l : Sorted log_next (x :: l) → StronglySorted key_le (x :: l).
Proof.
  intros Hs. apply Sorted_StronglySorted; [apply _|]. revert Hs. generalize (x :: l). clear.
  induction 1 as [|y l Hs IH Hh]; constructor; [done|]. destruct Hh; constructor. by apply log_next_key.
Qed.

Lemma extend_read_extended l q x it i :
  keys_wf l = true → list.last l = Some q → log_next q x →
  extend_read l q x it i = extended l (x :: it) i.
Proof.
  intros Hwf Hq [Hi _]. rw /extend_read /extended Hi.
  destruct (N.leb_spec i (index q)), (N.ltb_spec i (index q + 1)); try lia; done.
Qed.

Lemma read_single x i : read [x] i = if (i =? x.(index))%N then Some x else None.
Proof.
  cbn. destruct (N.eqb_spec i x.(index)) as [->|].
  - rw N.ltb_irrefl. by destruct x.
  - by case_match.
Qed.

Lemma extend_wf l ids :
  keys_wf l = true → continues l ids →
  ∃ l', extend (new l) ids = Done (new l') ∧ keys_wf l' = true ∧
    (list.last l' = match list.last ids with Some y => Some y | None => list.last l end) ∧
    (l ≠ [] → head l' = head l) ∧ ∀ i, read l' i = extended l ids i.
Proof.
  intros Hwf [Hs Hnext]. rw /extend. destruct ids as [|x it]; [by exists l|].
  destruct (list.last l) as [q|] eqn:Hq.
  - pose proof (Hnext q x eq_refl eq_refl) as Hqx.
    destruct (extend_loop_wf l q x it 0 (length (x :: it))) as (l' & Hrun & Hwf' & Hl' & Hh & Hread);
      [done|done|by apply log_next_key|done|done|].
    exists l'. split_and!; [done|done| |done|].
    + rw Hl'. destruct (list.last (x :: it)) eqn:E; [done|]. by apply last_None in E.
    + intros i. rw Hread. by apply extend_read_extended.
  - apply last_None in Hq as ->. cbn [extend_loop]. rw bool_decide_false; [done|].
    replace (append (new []) x) with (Done (new [x])) by done. cbn [mbind outcome_bind].
    destruct it as [|y it].
    + exists [x]. split_and!; [|done..|].
      { cbn. by rw bool_decide_true. }
      intros i. rw read_single /extended.
      destruct (N.eqb_spec i x.(index)) as [->|].
      * by rw N.ltb_irrefl N.sub_diag.
      * destruct (N.ltb_spec i x.(index)); [done|].
        by destruct (N.to_nat (i - index x)) eqn:E; [lia|].
    + cbn [length Nat.sub Nat.eqb]. apply Sorted_inv in Hs as [Hs Hh]. apply HdRel_inv in Hh as Hxy.
      destruct (extend_loop_wf [x] x y it 1 (S (S (length it)))) as (l' & Hrun & Hwf' & Hl' & Hh' & Hread);
        [done|done|by apply log_next_key|done|done|].
      exists l'. split_and!; [done|done| |done|].
      * rw Hl' last_cons_cons. destruct (list.last (y :: it)) eqn:E; [done|]. by apply last_None in E.
      * intros i. rw Hread extend_read_extended //. rw /extended read_single. destruct Hxy as [Hy _]. rw Hy.
        destruct (N.ltb_spec i (index x + 1)), (N.ltb_spec i (index x)); try lia.
        -- by destruct (N.eqb_spec i (index x)); [lia|].
        -- destruct (N.eqb_spec i (index x)) as [->|]; [|lia]. by rw N.sub_diag.
        -- replace (N.to_nat (i - index x)) with (S (N.to_nat (i - (index x + 1)))) by lia. done.
Qed.

Lemma log_next_lookup x it n y :
  Sorted log_next (x :: it) → (x :: it) !! n = Some y → y.(index) = (x.(index) + N.of_nat n)%N.
Proof.
  revert x n. induction it as [|z it IH]; intros x [|n] Hs; cbn; try (intros [= <-]; lia).
  apply Sorted_inv in Hs as [Hs [Hz _]%HdRel_inv]. intros Hy%(IH z n Hs). lia.
Qed.

(** Entries of one leader are determined by the first and the last. *)
Lemma same_leader_lookup x it z i :
  Sorted log_next (x :: it) → Forall (λ y, y.(leader_id) = x.(leader_id)) it →
  list.last (x :: it) = Some z →
  (x :: it) !! N.to_nat (i - x.(index)) =
    if (i <=? z.(index))%N then Some (LogId_new x.(leader_id) (N.max i x.(index))) else None.
Proof.
  intros Hs Hall Hz. rw last_lookup in Hz. pose proof (log_next_lookup _ _ _ _ Hs Hz) as Hzi. cbn in Hzi.
  destruct ((x :: it) !! N.to_nat (i - index x)) as [y|] eqn:Hy.
  - pose proof (log_next_lookup _ _ _ _ Hs Hy) as Hyi.
    pose proof (lookup_lt_Some _ _ _ Hy) as Hlt. cbn in Hlt.
    destruct (N.leb_spec i (index z)); [|lia]. f_equal.
    assert (y.(leader_id) = x.(leader_id)) as Hl.
    { apply list_elem_of_lookup_2, elem_of_cons in Hy as [->|Hy]; [done|].
      rw Forall_forall in Hall. by apply Hall. }
    destruct y as [yl yi]. cbn in *. subst. rw /LogId_new. f_equal. lia.
  - apply lookup_ge_None in Hy. cbn in Hy. by destruct (N.leb_spec i (index z)); [lia|].
Qed.

Lemma append_first l x :
  keys_wf l = true → (∀ q, list.last l = Some q → log_next q x) →
  ∃ l', append (new l) x = Done (new l') ∧ keys_wf l' = true ∧ list.last l' = Some x ∧
    (l ≠ [] → head l' = head l) ∧
    ∀ i, read l' i = if (i <? x.(index))%N then read l i else if (i =? x.(index))%N then Some x else None.
Proof.
  intros Hwf Hnext. destruct (list.last l) as [q|] eqn:Hq.
  - destruct (append_wf l q x) as (l' & ? & ? & ? & ? & Hread); [done..|by apply log_next_key, Hnext|].
    exists l'. split_and!; [done..|]. intros i. rw Hread /append_read.
    destruct (Hnext q eq_refl) as [-> _].
    destruct (N.leb_spec i (index q)), (N.ltb_spec i (index q + 1)); try lia; done.
  - apply last_None in Hq as ->. exists [x]. split_and!; [done..|]. intros i. rw read_single.
    destruct (N.ltb_spec i x.(index)), (N.eqb_spec i x.(index)); try lia; done.
Qed.

Lemma extend_from_same_leader_wf l ids :
  keys_wf l = true → continues l ids →
  (∀ x y, x ∈ ids → y ∈ ids → x.(leader_id) = y.(leader_id)) →
  ∃ l', extend_from_same_leader (new l) ids = Done (new l') ∧ keys_wf l' = true ∧
    (list.last l' = match list.last ids with Some y => Some y | None => list.last l end) ∧
    (l ≠ [] → head l' = head l) ∧ ∀ i, read l' i = extended l ids i.
Proof.
  intros Hwf [Hs Hnext] Hsame. rw /extend_from_same_leader. destruct ids as [|x it]; [by exists l|].
  destruct (append_first l x) as (l1 & Hrun & Hwf1 & Hl1 & Hh1 & Hread1); [done|naive_solver|].
  rw Hrun. cbn [mbind outcome_bind].
  assert (Forall (λ y, y.(leader_id) = x.(leader_id)) it) as Hall.
  { apply Forall_forall. intros y Hy. apply Hsame; set_solver. }
  destruct (list.last it) as [z|] eqn:Hz.
  2:{ apply last_None in Hz as ->. exists l1. split_and!; [done..|]. intros i. rw Hread1 /extended.
      destruct (N.ltb_spec i x.(index)); [done|]. destruct (N.eqb_spec i x.(index)) as [->|].
      - by rw N.sub_diag.
      - by destruct (N.to_nat (i - index x)) eqn:E; [lia|]. }
  assert (z ∈ it) as Hin by (apply last_Some in Hz as [? ->]; set_solver).
  assert (list.last (x :: it) = Some z) as Hzl by by rw last_cons Hz.
  assert (z.(leader_id) = x.(leader_id)) as Hzx by (apply Hsame; set_solver).
  assert (key_le x z) as Hkey.
  { apply log_next_sorted, StronglySorted_cons in Hs as [Hfa _]. rw Forall_forall in Hfa. by apply Hfa. }
  rw (bool_decide_true _ Hzx). cbn [assert_ mbind outcome_bind].
  rw (bool_decide_false (z = x)); [intros ->; destruct Hkey; lia|].
  destruct (append_wf l1 x z Hwf1 Hl1 Hkey) as (l' & Hrun' & Hwf' & Hl' & Hh' & Hread').
  exists l'. rw Hzl. split_and!; [done..| |].
  { intros Hne. rw Hh'. by apply Hh1. }
  intros i. rw Hread' /append_read Hread1 /extended (same_leader_lookup x it z) //.
  destruct Hkey as [Hkey _].
  destruct (N.leb_spec i (index x)), (N.ltb_spec i (index x)); try lia; try done.
  - assert (i = index x) as -> by lia. rw N.eqb_refl N.max_id. destruct (N.leb_spec (index x) (index z)); [|lia].
    by destruct x.
  - destruct (N.ltb_spec i (index z)), (N.leb_spec i (index z)); try lia.
    + rw N.max_l; [lia|done].
    + destruct (N.eqb_spec i (index z)) as [->|]; [|lia]. rw N.max_l; [lia|].
      rw -Hzx. by destruct z.
    + by destruct (N.eqb_spec i (index z)); [lia|].
Qed.

(** *** Loading the keys of a stored log *)
Section load.
Context {E : Type} (sto : N → Result LogId E) (lead : N → CommittedLeaderId) (a : N).
Definition entry_at (i : N) : LogId := LogId_new (lead i) i.

(** The keys of the log from [a] to [a + k]: its first entry and every change of leader. *)
Fixpoint ref_keys (k : nat) : list LogId :=
  match k with
  | O => [entry_at a]
  | S k' =>
      let i := (a + N.of_nat k)%N in
      ref_keys k' ++ (if bool_decide (lead (a + N.of_nat k') = lead i) then [] else [entry_at i])
  end.

Context (b : N) (Hab : (a ≤ b)%N).
Context (Hmono : ∀ i j, (a ≤ i)%N → (i ≤ j)%N → (j ≤ b)%N → lead i ⪯ lead j).
Context (Hsto : ∀ i, (a ≤ i)%N → (i ≤ b)%N → sto i = ROk (entry_at i)).

Lemma ref_keys_last k :
  (a + N.of_nat k ≤ b)%N →
  ∃ l q, ref_keys k = l ++ [q] ∧ q.(leader_id) = lead (a + N.of_nat k) ∧
    (a ≤ q.(index))%N ∧ (q.(index) ≤ a + N.of_nat k)%N ∧ q = entry_at q.(index) ∧ Sorted key_lt (ref_keys k) ∧
    head (ref_keys k) = Some (entry_at a) ∧
    (∀ i, (a ≤ i)%N → (i ≤ q.(index))%N → read (ref_keys k) i = Some (entry_at i)) ∧
    (∀ i, (q.(index) ≤ i)%N → (i ≤ a + N.of_nat k)%N → lead i = q.(leader_id)).
Proof using Hmono Hab.
  induction k as [|k IH]; intros Hk.
  { exists [], (entry_at a). cbn. rw N.add_0_r. split_and!; try done; try lia.
    - by repeat constructor.
    - intros i Hi1 Hi2. assert (i = a) as -> by lia. by rw N.ltb_irrefl N.eqb_refl.
    - intros i Hi1 Hi2. f_equal. lia. }
  destruct IH as (l & q & Hl & Hql & Hq1 & Hq2 & Hqe & Hs & Hh & Hread & Hconst); [lia|].
  cbn [ref_keys]. destruct (bool_decide_reflect (lead (a + N.of_nat k) = lead (a + N.of_nat (S k)))) as [Heq|Hne].
  - rw app_nil_r. exists l, q. split_and!; try done; [congruence|lia|].
    intros i Hi1 Hi2. destruct (decide (i = a + N.of_nat (S k))%N) as [->|]; [congruence|]. apply Hconst; lia.
  - set (x := entry_at (a + N.of_nat (S k))).
    assert (key_lt q x) as Hqx.
    { split; cbn; [lia|]. rw Hql. destruct (ole_lt_eq (lead (a + N.of_nat k)) (lead (a + N.of_nat (S k)))) as [Hle _].
      destruct Hle as [|]; [apply Hmono; lia|done|done]. }
    exists (ref_keys k), x. rw Hl in Hs Hread Hh |- *. split_and!; try done; try (cbn; lia).
    + apply Sorted_snoc; [done|]. by constructor.
    + rw head_app Hh. done.
    + intros i Hi1 Hi2. rw -app_assoc (read_push l q x).
      { apply Sorted_StronglySorted; [apply _|]. apply StronglySorted_Sorted, keys_wf_sorted.
        by apply keys_strict_wf. }
      { by apply key_lt_le. }
      rw /append_read. destruct (N.leb_spec i q.(index)); [by apply Hread|].
      destruct (N.ltb_spec i x.(index)).
      * rw /entry_at -(Hconst i); [lia|cbn in *; lia|done].
      * destruct (N.eqb_spec i x.(index)) as [->|]; [done|lia].
    + intros i Hi1 Hi2. cbn in Hi1. replace i with (a + N.of_nat (S k))%N by lia. done.
Qed.

(** Without a change of leader no key is added. *)
Lemma ref_keys_const k k' :
  k ≤ k' → (a + N.of_nat k' ≤ b)%N → lead (a + N.of_nat k) = lead (a + N.of_nat k') →
  ref_keys k' = ref_keys k.
Proof using Hmono Hab.
  induction 1 as [|k' Hle IH]; [done|]. intros Hb Heq. cbn [ref_keys].
  assert (lead (a + N.of_nat k') = lead (a + N.of_nat (S k'))) as Heq'.
  { apply ole_antisymm; [apply Hmono; lia|]. rw -Heq. apply Hmono; lia. }
  rw bool_decide_true; [done|]. rw app_nil_r. apply IH; [lia|congruence].
Qed.

Lemma push_ref_keys k k' :
  k ≤ k' → (a + N.of_nat k' ≤ b)%N → lead (a + N.of_nat k) = lead (a + N.of_nat k') →
  push_key (ref_keys k) (entry_at (a + N.of_nat k')) = ref_keys k'.
Proof using Hmono Hab.
  intros Hle Hb Heq. rw (ref_keys_const k k') //. rw /push_key.
  destruct (ref_keys_last k) as (l & q & -> & Hq & _); [lia|]. rw last_snoc. cbn [fmap option_fmap option_map].
  rw Hq Heq. cbn. rw (proj2 (ltb_ge _ _)); [apply ole_refl|done].
Qed.

Definition ent (k : nat) : LogId := entry_at (a + N.of_nat k).

(** The segments on the stack, as offsets from [a]: each one ends where, or in the same leader's
    range as, the next one starts. *)
Fixpoint chain (ks : list (nat * nat)) : Prop :=
  match ks with
  | [] => True
  | (f, l) :: ks' =>
      f ≤ l ∧ (a + N.of_nat l ≤ b)%N ∧
      match ks' with
      | [] => lead (a + N.of_nat l) = lead b
      | (f2, _) :: _ => l ≤ f2 ∧ lead (a + N.of_nat l) = lead (a + N.of_nat f2)
      end ∧ chain ks'
  end.

Fixpoint weight (ks : list (nat * nat)) : nat :=
  match ks with [] => 0 | (f, l) :: ks => Nat.max 1 (2 * (l - f) - 1) + weight ks end.

Definition found (ks : list (nat * nat)) (res : list LogId) : Prop :=
  match ks with
  | [] => res = ref_keys (N.to_nat (b - a))
  | (f, _) :: _ => push_key res (ent f) = ref_keys f
  end.

Lemma found_next (f l : nat) ks : chain ((f, l) :: ks) → found ks (ref_keys l).
Proof using Hmono Hab.
  cbn [chain]. intros (Hfl & Hl & Hnext & Hks). destruct ks as [|[f2 l2] ks]; cbn.
  - symmetry. apply ref_keys_const; [lia|lia|]. rw Hnext. f_equal. lia.
  - destruct Hnext as [??]. cbn [chain] in Hks. apply push_ref_keys; [done|lia|done].
Qed.

Lemma mid_offset (f l : nat) :
  ((a + N.of_nat f + (a + N.of_nat l)) / 2)%N = (a + N.of_nat ((f + l) / 2))%N.
Proof using Hab.
  rw Nat2N.inj_div. replace (N.of_nat 2) with 2%N by done.
  rw -N.div_add_l; [done|]. f_equal. lia.
Qed.

Lemma key_loop_spec fuel ks res :
  chain ks → found ks res → weight ks < fuel →
  key_loop sto fuel ((λ '(f, l), (ent f, ent l)) <$> ks) res = Some (ROk (ref_keys (N.to_nat (b - a)))).
Proof using Hmono Hab Hsto.
  revert ks res. induction fuel as [|fuel IH]; intros ks res Hc Hf Hw; [lia|].
  destruct ks as [|[f l] ks]; [by cbn in *; subst|]. cbn [fmap list_fmap key_loop].
  pose proof (found_next _ _ _ Hc) as Hnext.
  pose proof Hc as (Hfl & Hl & Hj & Hks). cbn in Hf.
  cbn [weight] in Hw.
  destruct (bool_decide_reflect (leader_id (ent f) = leader_id (ent l))) as [Heq|Hne].
  { apply IH; [done| |lia]. rw Hf -(ref_keys_const f l) //. }
  assert (f ≠ l) as Hne' by by intros ->.
  destruct (N.eqb_spec (index (ent f) + 1) (index (ent l))) as [Hadj|Hadj].
  { cbn in Hadj. assert (l = S f) as -> by lia. apply IH; [done| |lia].
    rw Hf. cbn [ref_keys] in Hnext. by rw bool_decide_false in Hnext. }
  cbn in Hadj. cbn [ent entry_at LogId_new index]. rw mid_offset.
  set (m := (f + l) / 2). assert (f < m < l) as Hm.
  { rw /m. split; [apply Nat.div_le_lower_bound; lia|apply Nat.div_lt_upper_bound; lia]. }
  clearbody m.
  rw Hsto; [lia|lia|]. fold (ent m). fold (ent l). fold (ent f).
  assert (chain ((m, l) :: ks)) as Hcm by (split_and!; [lia|done..]).
  destruct (bool_decide_reflect (leader_id (ent f) = leader_id (ent m))) as [Hfm|Hfm].
  { apply (IH ((m, l) :: ks)); [done| |cbn [weight]; lia].
    cbn [found]. rw Hf. apply push_ref_keys; [lia|lia|done]. }
  destruct (bool_decide_reflect (leader_id (ent m) = leader_id (ent l))) as [Hml|Hml].
  { apply (IH ((f, m) :: ks)); [|done|cbn [weight]; lia].
    split_and!; [lia|lia| |done]. destruct ks as [|[f2 l2] ks]; cbn in *; [congruence|].
    destruct Hj. split; [lia|congruence]. }
  apply (IH ((f, m) :: (m, l) :: ks)); [|done|cbn [weight]; lia].
  split_and!; try done; lia.
Qed.

(** The last step of [get_key_log_ids]: the last entry is always present. *)
Lemma get_key_log_ids_read fuel :
  2 * N.to_nat (b - a) + 2 ≤ fuel →
  ∃ res, get_key_log_ids sto fuel (entry_at a) (entry_at b) = Some (ROk res) ∧ keys_wf res = true ∧
    head res = Some (entry_at a) ∧ list.last res = Some (entry_at b) ∧
    ∀ i, (a ≤ i)%N → (i ≤ b)%N → read res i = Some (entry_at i).
Proof using Hmono Hab Hsto.
  intros Hfuel. set (K := N.to_nat (b - a)).
  assert (entry_at a = ent 0 ∧ entry_at b = ent K) as [Ha Hb].
  { rw /ent. split; f_equal; lia. }
  rw /get_key_log_ids {1}Ha {1}Hb (key_loop_spec fuel [(0, K)] []).
  { split_and!; [lia|lia| |done]. f_equal. lia. }
  { rw /found /push_key /=. rw /ent. by rw N.add_0_r. }
  { cbn [weight]. lia. }
  destruct (ref_keys_last K) as (l & q & Hl & Hql & Hq1 & Hq2 & Hqe & Hs & Hh & Hread & Hconst); [lia|].
  fold K. rw Hl last_snoc. assert (a + N.of_nat K = b)%N as HK by lia. rw HK in Hql Hq2 Hconst.
  destruct (bool_decide_reflect (Some q = Some (entry_at b))) as [[= Hqb]|Hne].
  - eexists. split; [done|]. rw -Hl. split_and!; [by apply keys_strict_wf|done|by rw Hl last_snoc Hqb|].
    rw Hqb in Hread. intros i ??. by apply Hread.
  - assert (q.(index) < b)%N as Hlt.
    { destruct (decide (q.(index) = b)) as [Hb'|]; [|lia]. destruct Hne. by rw Hqe Hb'. }
    assert (key_le q (entry_at b)) as Hkey.
    { split; [done|]. rw Hql. apply ole_refl. }
    eexists. split; [done|]. rw Hl in Hs Hh Hread. split_and!.
    + apply keys_wf_snoc. split; [done|]. intros q'. rw last_snoc. by intros [= <-].
    + by rw head_app Hh.
    + by rw last_snoc.
    + intros i Hi1 Hi2. rw -app_assoc (read_push l q).
      { by apply keys_wf_sorted, keys_strict_wf. }
      { done. }
      rw /append_read. destruct (N.leb_spec i q.(index)); [by apply Hread|]. cbn.
      destruct (N.ltb_spec i b).
      * rw /entry_at -(Hconst i); [lia|lia|done].
      * destruct (N.eqb_spec i b) as [->|]; [done|lia].
Qed.
End load.
End log_id_list_lemmas.

(** ** Properties *)

Section log_id_list_properties.
Context {C : RaftTypeConfig}.
Import LogIdList.
Implicit Types l : LogIdList.

(** [extend] with consecutive log ids that continue the log keeps the list well formed and
    represents the extended log: every old entry is read as before, every new one is read back. *)
Theorem log_id_list_extend l ids :
  wf l = true → continues l.(key_log_ids) ids →
  ∃ l', extend l ids = Done l' ∧ wf l' = true ∧
    (LogIdList.last l' = match list.last ids with Some y => Some y | None => LogIdList.last l end) ∧
    ∀ i, ref_at l' i = match ids with
                       | [] => ref_at l i
                       | x :: _ => if (i <? x.(index))%N then ref_at l i
                                   else ids !! N.to_nat (i - x.(index))
                       end.
Proof.
  destruct l as [l]. intros Hwf Hc. destruct (extend_wf l ids Hwf Hc) as (l' & ? & ? & ? & _ & Hread).
  exists (new l'). split_and!; [done..|]. intros i. rw !ref_at_read Hread /extended. by destruct ids.
Qed.

(** C40: for consecutive log ids of one leader the shortcut [extend_from_same_leader], which looks
    at the first and the last id only, represents the same log as [extend]. *)
Theorem extend_from_same_leader_equiv l ids :
  wf l = true → continues l.(key_log_ids) ids →
  (∀ x y, x ∈ ids → y ∈ ids → x.(leader_id) = y.(leader_id)) →
  ∃ l1 l2, extend_from_same_leader l ids = Done l1 ∧ extend l ids = Done l2 ∧
    wf l1 = true ∧ LogIdList.last l1 = LogIdList.last l2 ∧ ∀ i, ref_at l1 i = ref_at l2 i.
Proof.
  destruct l as [l]. intros Hwf Hc Hsame.
  destruct (extend_wf l ids Hwf Hc) as (l2 & ? & ? & Hl2 & _ & Hread2).
  destruct (extend_from_same_leader_wf l ids Hwf Hc Hsame) as (l1 & ? & ? & Hl1 & _ & Hread1).
  exists (new l1), (new l2). split_and!; [done..| |].
  - by rw /LogIdList.last /= Hl1 Hl2.
  - intros i. by rw !ref_at_read Hread1 Hread2.
Qed.

(** [truncate] never panics on a well formed list and removes exactly the entries at and after
    [at_]; in particular the entry before [at_] becomes the last one. *)
Theorem log_id_list_truncate l at_ :
  wf l = true →
  ∃ l', truncate l at_ = Done l' ∧ wf l' = true ∧
    ∀ i, ref_at l' i = if (i <? at_)%N then ref_at l i else None.
Proof.
  destruct l as [l]. intros Hwf. destruct (truncate_wf l at_ Hwf) as (l' & ? & ? & Hread).
  exists (new l'). split_and!; [done..|]. intros i. by rw !ref_at_read Hread.
Qed.

(** [purge] up to an entry within the log removes exactly the entries before it and keeps the
    last one; purging past the end leaves the purged id as the only entry. *)
Theorem log_id_list_purge l upto :
  wf l = true → (upto.(index) < next_index (LogIdList.last l))%N ∨ LogIdList.last l ≺ Some upto →
  ∃ l', purge l upto = Done l' ∧ wf l' = true ∧
    if (upto.(index) <? next_index (LogIdList.last l))%N
    then LogIdList.last l' = LogIdList.last l ∧
         ∀ i, ref_at l' i = if (i <? upto.(index))%N then None else ref_at l i
    else l'.(key_log_ids) = [upto].
Proof.
  destruct l as [l]. rw /LogIdList.last /=. intros Hwf Hor.
  destruct (N.ltb_spec upto.(index) (next_index (list.last l))) as [Hlt|Hge].
  - destruct (purge_within l upto Hwf Hlt) as (l' & ? & ? & ? & Hread).
    exists (new l'). split_and!; [done..|]. intros i. by rw !ref_at_read Hread.
  - destruct Hor as [|Hlt]; [lia|]. exists (new [upto]). split_and!; try done. by apply purge_beyond.
Qed.

(** [by_last_leader] returns the first and the last entry of the leader that wrote the end of
    the log: an entry belongs to that leader exactly when its index is in the range. *)
Theorem by_last_leader_spec l q :
  wf l = true → LogIdList.last l = Some q →
  ∃ f, by_last_leader l = Done {| log_id_range := Some (f, q) |} ∧ f.(leader_id) = q.(leader_id) ∧
    ∀ i x, ref_at l i = Some x → x.(leader_id) = q.(leader_id) ↔ (f.(index) ≤ i)%N.
Proof.
  destruct l as [l]. rw /LogIdList.last /wf. cbn [key_log_ids]. intros Hwf [l0 ->]%last_Some.
  assert (∀ f, f ∈ l0 ++ [q] → f.(leader_id) = q.(leader_id) →
    (∀ k, k ∈ l0 ++ [q] → (k.(index) < f.(index))%N → k.(leader_id) ≺ q.(leader_id)) →
    ∀ i x, ref_at (new (l0 ++ [q])) i = Some x → x.(leader_id) = q.(leader_id) ↔ (f.(index) ≤ i)%N) as Hkey.
  { intros f Hf Hfl Hbefore i x. rw ref_at_read. intros Hx.
    destruct (read_key _ _ _ Hwf Hx) as (l1 & k & l2 & Hl & Hk & -> & Hki). cbn. split.
    - intros Hkl. destruct (decide (index f ≤ i)%N) as [|Hlt]; [done|].
      assert (k.(leader_id) ≺ q.(leader_id)) as Hk'; [apply Hbefore; [rw Hl; set_solver|lia]|].
      rw Hkl in Hk'. by apply olt_irrefl in Hk'.
    - intros Hfi. apply ole_antisymm.
      + change (leader_id k) with (leader_id (LogId_new (leader_id k) i)).
        destruct (read_bounds _ _ _ Hwf Hx) as (_ & q' & _ & Hq' & _ & Hiq).
        rw last_snoc in Hq'. injection Hq' as <-.
        eapply (read_mono _ i q.(index)); [exact Hwf|exact Hx| |done].
        apply read_last_key; [done|]. by rw last_snoc.
      + rw -Hfl. apply list_elem_of_lookup in Hf as [nf Hnf].
        assert (read (l0 ++ [q]) f.(index) = Some f) as Hrf.
        { rw -{}(take_drop_middle _ _ _ Hnf) in Hwf |- *. rw read_app; [by apply keys_wf_idx|].
          cbn. rw N.ltb_irrefl N.eqb_refl. by destruct f. }
        change (leader_id k) with (leader_id (LogId_new (leader_id k) i)).
        eapply read_mono; [exact Hwf|exact Hrf|exact Hx|done]. }
  rw /by_last_leader. cbn [key_log_ids].
  destruct l0 as [|a l0 _] using rev_ind.
  { exists q. split; [done|]. split; [done|]. apply Hkey; [set_solver|done|].
    intros k [-> |[]%not_elem_of_nil]%elem_of_cons. lia. }
  destruct (Nat.ltb_spec (length ((l0 ++ [a]) ++ [q])) 2) as [Hlen|_]; [rw !length_app /= in Hlen; lia|].
  rw lookup_snoc_last. cbn [mbind outcome_bind unwrap].
  assert (((l0 ++ [a]) ++ [q]) !! (length ((l0 ++ [a]) ++ [q]) - 2) = Some a) as ->.
  { rw -app_assoc /= length_app /= Nat.add_sub. by rw list_lookup_middle. }
  cbn [mbind outcome_bind unwrap].
  pose proof Hwf as [Hs Hq]%keys_wf_snoc. rw last_snoc in Hq. specialize (Hq a eq_refl).
  apply Sorted_StronglySorted in Hs; [|apply _].
  pose proof (keys_wf_idx _ Hwf) as Hidx.
  destruct (bool_decide_reflect (leader_id q = leader_id a)) as [Heq|Hne].
  - exists a. split; [done|]. split; [done|]. apply Hkey; [set_solver|done|].
    intros k [[Hk| ->%list_elem_of_singleton]%elem_of_app| ->%list_elem_of_singleton]%elem_of_app Hlt;
      [|lia|destruct Hq; lia].
    assert (key_lt k a) as [_ ?]; [|congruence].
    eapply StronglySorted_app_1_elem_of; [exact Hs|done|set_solver].
  - exists q. rw /LogIdList.last. cbn [key_log_ids]. rw last_snoc. split; [done|]. split; [done|].
    apply Hkey; [set_solver|done|]. destruct Hq as [_ Hal].
    assert (a.(leader_id) ≺ q.(leader_id)) as Haq.
    { apply ole_lt_eq in Hal as [?|?]; [done|congruence]. }
    intros k [[Hk| ->%list_elem_of_singleton]%elem_of_app| ->%list_elem_of_singleton]%elem_of_app Hlt;
      [|done|lia].
    assert (key_lt k a) as [_ ?]; [|order].
    eapply StronglySorted_app_1_elem_of; [exact Hs|done|set_solver].
Qed.

(** C37: [get_key_log_ids] terminates: on a stored log from [a] to [b] whose leader ids do not
    decrease, [2 (b - a) + 2] iterations suffice, and the keys it returns represent exactly that
    log. *)
Theorem get_key_log_ids_spec {E} (sto : N → Result LogId E) lead a b fuel :
  (a ≤ b)%N →
  (∀ i j, (a ≤ i)%N → (i ≤ j)%N → (j ≤ b)%N → lead i ⪯ lead j) →
  (∀ i, (a ≤ i)%N → (i ≤ b)%N → sto i = ROk (LogId_new (lead i) i)) →
  2 * N.to_nat (b - a) + 2 ≤ fuel →
  ∃ res, get_key_log_ids sto fuel (LogId_new (lead a) a) (LogId_new (lead b) b) = Some (ROk res) ∧
    wf (new res) = true ∧ LogIdList.first (new res) = Some (LogId_new (lead a) a) ∧
    ∀ i, ref_at (new res) i =
         if ((a <=? i) && (i <=? b))%N then Some (LogId_new (lead i) i) else None.
Proof.
  intros Hab Hmono Hsto Hfuel.
  destruct (get_key_log_ids_read sto lead a b Hab Hmono Hsto fuel Hfuel) as (res & Hrun & Hwf & Hh & Hl & Hread).
  exists res. split_and!; [done..|]. intros i. rw ref_at_read.
  destruct (N.leb_spec a i), (N.leb_spec i b); cbn; [by apply Hread|..];
    destruct (read res i) as [x|] eqn:Hx; try done; exfalso;
    destruct (read_bounds _ _ _ Hwf Hx) as (f & q & Hf & Hq & ? & ?);
    rw Hh in Hf; rw Hl in Hq; simplify_eq; cbn in *; lia.
Qed.
End log_id_list_properties.

(** ** Witnesses, in the test configuration: leader 1 wrote the entries 2..3, leader 3 the entries
    4..6. *)
Section log_id_list_witnesses.
Import LogIdList.
#[local] Existing Instance UTConfig.

Definition ut_list : LogIdList := new [ut_log_id 1 1 2; ut_log_id 3 1 4; ut_log_id 3 1 6].

Lemma ut_continues : continues ut_list.(key_log_ids) [ut_log_id 3 1 7; ut_log_id 5 2 8; ut_log_id 5 2 9].
Proof.
  split.
  - repeat constructor; by vm_compute.
  - intros q x [= <-] [= <-]. split; by vm_compute.
Qed.

Lemma ut_continues_same : continues ut_list.(key_log_ids) [ut_log_id 5 2 7; ut_log_id 5 2 8].
Proof.
  split.
  - repeat constructor; by vm_compute.
  - intros q x [= <-] [= <-]. split; by vm_compute.
Qed.

Lemma log_id_list_extend_witness :
  ∃ l', extend ut_list [ut_log_id 3 1 7; ut_log_id 5 2 8; ut_log_id 5 2 9] = Done l' ∧ wf l' = true ∧
    LogIdList.last l' = Some (ut_log_id 5 2 9) ∧ ref_at l' 7 = Some (ut_log_id 3 1 7).
Proof.
  destruct (log_id_list_extend ut_list [ut_log_id 3 1 7; ut_log_id 5 2 8; ut_log_id 5 2 9] eq_refl ut_continues)
    as (l' & H1 & H2 & H3 & H4).
  exists l'. by rw H4.
Defined.

Lemma extend_from_same_leader_witness :
  ∃ l1 l2, extend_from_same_leader ut_list [ut_log_id 5 2 7; ut_log_id 5 2 8] = Done l1 ∧
    extend ut_list [ut_log_id 5 2 7; ut_log_id 5 2 8] = Done l2 ∧
    wf l1 = true ∧ LogIdList.last l1 = LogIdList.last l2 ∧ ∀ i, ref_at l1 i = ref_at l2 i.
Proof.
  apply (extend_from_same_leader_equiv ut_list _ eq_refl ut_continues_same).
  intros x y Hx Hy. rw !elem_of_cons !elem_of_nil in Hx Hy.
  destruct Hx as [-> |[-> |Hx]], Hy as [-> |[-> |Hy]]; by try destruct Hx; try destruct Hy.
Defined.

Lemma log_id_list_truncate_witness :
  ∃ l', truncate ut_list 4 = Done l' ∧ wf l' = true ∧ LogIdList.last l' = Some (ut_log_id 1 1 3).
Proof.
  destruct (log_id_list_truncate ut_list 4 eq_refl) as (l' & H1 & H2 & _).
  exists l'. split; [done|]. split; [done|]. vm_compute in H1. by injection H1 as <-.
Defined.

Lemma log_id_list_purge_witness :
  ∃ l', purge ut_list (ut_log_id 3 1 5) = Done l' ∧ wf l' = true ∧
    LogIdList.first l' = Some (ut_log_id 3 1 5).
Proof.
  destruct (log_id_list_purge ut_list (ut_log_id 3 1 5) eq_refl) as (l' & H1 & H2 & _).
  - left. by vm_compute.
  - exists l'. split; [done|]. split; [done|]. vm_compute in H1. by injection H1 as <-.
Defined.

Lemma by_last_leader_witness :
  ∃ f, by_last_leader ut_list = Done {| log_id_range := Some (f, ut_log_id 3 1 6) |} ∧
    f.(leader_id) = LeaderIdAdv.new 3 1.
Proof.
  destruct (by_last_leader_spec ut_list (ut_log_id 3 1 6) eq_refl eq_refl) as (f & H1 & H2 & _).
  exists f. done.
Defined.

(** The stored log with leaders 1, 1, 3, 3, 3 at the indexes 2..6. *)
Definition ut_lead (i : N) : CommittedLeaderId :=
  if (i <? 4)%N then LeaderIdAdv.new 1 1 else LeaderIdAdv.new 3 1.

Lemma get_key_log_ids_witness :
  ∃ res, get_key_log_ids (λ i, ROk (LogId_new (ut_lead i) i) : Result LogId unit) 10
           (ut_log_id 1 1 2) (ut_log_id 3 1 6) = Some (ROk res) ∧
    wf (new res) = true ∧ ref_at (new res) 3 = Some (ut_log_id 1 1 3).
Proof.
  destruct (get_key_log_ids_spec (λ i, ROk (LogId_new (ut_lead i) i) : Result LogId unit) ut_lead 2 6 10)
    as (res & H1 & H2 & _ & H4).
  - done.
  - intros i j _ Hij _. rw /ut_lead.
    destruct (N.ltb_spec i 4), (N.ltb_spec j 4); try lia; by vm_compute.
  - done.
  - vm_compute. lia.
  - exists res. split; [done|]. split; [done|]. by rw H4.
Defined.
End log_id_list_witnesses.
