(* ===== verification/Config.v ===== *)
(** * Configuration, leases and the log state interface

    [Config] and [SnapshotPolicy] (openraft/src/config/config.rs), [EngineConfig] and
    [time_state::Config] (openraft/src/engine/), [Leased] (openraft/src/utime.rs),
    [ServerState] (openraft/src/core/server_state.rs) and the trait [LogStateReader]
    (openraft/src/raft_state/log_state_reader.rs), the interface through which the snapshot policy
    and the replication progress read the state of the log.  Durations and instants are [N]. *)

From S2P Require Export LogId.

Notation Duration := N (only parsing).
Notation Instant := N (only parsing).

(** ** [ServerState] *)
Inductive ServerState := Learner | Follower | Candidate_ | Leader_ | Shutdown.
#[global] Instance server_state_eq_dec : EqDecision ServerState.
Proof. solve_decision. Defined.

Module ServerState.
Definition is_learner (s : ServerState) : bool := match s with Learner => true | _ => false end.
Definition is_follower (s : ServerState) : bool := match s with Follower => true | _ => false end.
Definition is_candidate (s : ServerState) : bool := match s with Candidate_ => true | _ => false end.
Definition is_leader (s : ServerState) : bool := match s with Leader_ => true | _ => false end.
End ServerState.

(** ** [LogStateReader] *)
Class LogStateReader {C : RaftTypeConfig} (S : Type) := {
  ref_log_id : S → N → option LogId;
  last_log_id : S → option LogId;
  committed : S → option LogId;
  io_applied : S → option LogId;
  io_snapshot_last_log_id : S → option LogId;
  io_purged : S → option LogId;
  snapshot_last_log_id : S → option LogId;
  purge_upto : S → option LogId;
  last_purged_log_id : S → option LogId;
}.
#[global] Hint Mode LogStateReader - ! : typeclass_instances.

Section log_state_reader.
Context {C : RaftTypeConfig} {S : Type} `{!LogStateReader S}.

Definition get_log_id (s : S) (index : N) : option LogId := ref_log_id s index.

Definition prev_log_id (s : S) (index : N) : option LogId :=
  if (index =? 0)%N then None else get_log_id s (index - 1).

Definition has_log_id (s : S) (log_id : LogId) : Outcome bool :=
  if (log_id.(index) <? next_index (committed s))%N then
    _ ← assert_ (Some log_id ⪯? committed s) "Some(log_id) <= committed";
    Done true
  else
    match ref_log_id s log_id.(index) with
    | Some local => Done (bool_decide (log_id = local))
    | None => Done false
    end.
End log_state_reader.

(** ** [SnapshotPolicy] and [Config] *)
Inductive SnapshotPolicy := LogsSinceLast (threshold : N) | Never.
#[global] Instance snapshot_policy_eq_dec : EqDecision SnapshotPolicy.
Proof. solve_decision. Defined.

Definition should_snapshot {C : RaftTypeConfig} {S : Type} `{!LogStateReader S} (p : SnapshotPolicy) (state : S) : bool :=
  match p with
  | LogsSinceLast threshold =>
      (next_index (snapshot_last_log_id state) + threshold <=? next_index (committed state))%N
  | Never => false
  end.

Module Config.
Record Config := {
  cluster_name : string;
  election_timeout_min : N;
  election_timeout_max : N;
  heartbeat_interval : N;
  install_snapshot_timeout : N;
  send_snapshot_timeout : N;
  max_payload_entries : N;
  replication_lag_threshold : N;
  snapshot_policy : SnapshotPolicy;
  snapshot_max_chunk_size : N;
  max_in_snapshot_log_to_keep : N;
  purge_batch_size : N;
  enable_tick : bool;
  enable_heartbeat : bool;
  enable_elect : bool;
  allow_log_reversion : option bool;
}.

(** The errors [validate] returns. *)
Inductive ConfigError :=
| ElectionTimeout (min max : N)
| ElectionTimeoutLTHeartBeat (election_timeout_min heartbeat_interval : N)
| MaxPayloadIs0.

Definition get_send_snapshot_timeout (c : Config) : Duration :=
  if (0 <? c.(send_snapshot_timeout))%N then c.(send_snapshot_timeout) else c.(install_snapshot_timeout).

Definition get_allow_log_reversion (c : Config) : bool := default false c.(allow_log_reversion).

Definition validate (c : Config) : Result Config ConfigError :=
  if (c.(election_timeout_max) <=? c.(election_timeout_min))%N then
    RErr (ElectionTimeout c.(election_timeout_min) c.(election_timeout_max))
  else if (c.(election_timeout_min) <=? c.(heartbeat_interval))%N then
    RErr (ElectionTimeoutLTHeartBeat c.(election_timeout_min) c.(heartbeat_interval))
  else if (c.(max_payload_entries) =? 0)%N then RErr MaxPayloadIs0
  else ROk c.
End Config.

(** ** [time_state::Config] and [EngineConfig] *)
Module TimeState.
Record Config := { election_timeout : Duration; smaller_log_timeout : Duration; leader_lease : Duration }.
Definition default : Config := {| election_timeout := 150; smaller_log_timeout := 200; leader_lease := 150 |}.
End TimeState.

Module EngineConfig.
Record EngineConfig := {
  id : NodeId;
  snapshot_policy : SnapshotPolicy;
  max_in_snapshot_log_to_keep : N;
  purge_batch_size : N;
  max_payload_entries : N;
  allow_log_reversion : bool;
  timer_config : TimeState.Config;
}.

(** [EngineConfig::new]; [rand_timeout] is the result of [Config::new_rand_election_timeout]. *)
Definition new (id : NodeId) (config : Config.Config) (rand_timeout : N) : EngineConfig := {|
  id := id;
  snapshot_policy := config.(Config.snapshot_policy);
  max_in_snapshot_log_to_keep := config.(Config.max_in_snapshot_log_to_keep);
  purge_batch_size := config.(Config.purge_batch_size);
  max_payload_entries := config.(Config.max_payload_entries);
  allow_log_reversion := Config.get_allow_log_reversion config;
  timer_config := {|
    TimeState.election_timeout := rand_timeout;
    TimeState.smaller_log_timeout := config.(Config.election_timeout_max) * 2;
    TimeState.leader_lease := config.(Config.election_timeout_max) |};
|}.

Definition new_default (id : NodeId) : EngineConfig := {|
  id := id; snapshot_policy := LogsSinceLast 5000; max_in_snapshot_log_to_keep := 1000;
  purge_batch_size := 256; max_payload_entries := 300; allow_log_reversion := false;
  timer_config := TimeState.default |}.
End EngineConfig.

(** ** [Leased] *)
Record Leased (T : Type) := {
  data : T;
  last_update : option Instant;
  lease : Duration;
  lease_enabled : bool;
}.
Arguments data {T} _.
Arguments last_update {T} _.
Arguments lease {T} _.
Arguments lease_enabled {T} _.

Module Leased.
Section ops.
Context {T : Type}.

Definition default (d : T) : Leased T :=
  {| data := d; last_update := None; lease := 0; lease_enabled := true |}.
Definition new (now : Instant) (lease : Duration) (data : T) : Leased T :=
  {| data := data; last_update := Some now; lease := lease; lease_enabled := true |}.
Definition without_last_update (data : T) : Leased T :=
  {| data := data; last_update := None; lease := 0; lease_enabled := true |}.
Definition update (l : Leased T) (now : Instant) (lease : Duration) (data : T) : Leased T :=
  {| data := data; last_update := Some now; lease := lease; lease_enabled := true |}.
Definition disable_lease (l : Leased T) : Leased T :=
  {| data := l.(data); last_update := l.(last_update); lease := 0; lease_enabled := false |}.
Definition is_expired (l : Leased T) (now : Instant) (timeout : Duration) : bool :=
  match l.(last_update) with
  | Some utime => (utime + l.(lease) + timeout <? now)%N
  | None => true
  end.
Definition touch (l : Leased T) (now : Instant) (lease_ : Duration) : Outcome (Leased T) :=
  _ ← assert_ (l.(last_update) ⪯? Some now) "expect now must >= self.utime";
  Done {| data := l.(data); last_update := Some now;
          lease := if l.(lease_enabled) then lease_ else l.(lease);
          lease_enabled := l.(lease_enabled) |}.
End ops.
End Leased.

(** ** Properties *)

(** A validated configuration gives the engine a randomised election timeout below the leader
    lease, and a non-empty replication batch. *)
Lemma validate_engine_config id c rand :
  Config.validate c = ROk c →
  (c.(Config.election_timeout_min) ≤ rand)%N → (rand < c.(Config.election_timeout_max))%N →
  let e := EngineConfig.new id c rand in
  let t := e.(EngineConfig.timer_config) in
  (c.(Config.heartbeat_interval) < t.(TimeState.election_timeout))%N ∧
  (t.(TimeState.election_timeout) < t.(TimeState.leader_lease))%N ∧
  (t.(TimeState.leader_lease) < t.(TimeState.smaller_log_timeout))%N ∧
  (0 < e.(EngineConfig.max_payload_entries))%N.
Proof.
  rw /Config.validate. intros Hv Hlo Hhi. repeat case_match; try done.
  rewrite -> ?N.leb_gt, ?N.eqb_neq in *. cbn. lia.
Qed.

(** The life of a lease: after an update at [now] the data is unexpired until [now + lease]
    (plus any extra timeout); once disabled, it is expired as soon as the clock moves, and
    [touch] does not revive it until the next [update]. *)
Theorem lease_spec {T} (l : Leased T) now lease_ d timeout t :
  (Leased.is_expired (Leased.update l now lease_ d) t timeout = false ↔ (t ≤ now + lease_ + timeout)%N) ∧
  (Leased.is_expired (Leased.disable_lease (Leased.update l now lease_ d)) t 0 = false ↔ (t ≤ now)%N) ∧
  ((now ≤ t)%N → ∃ l', Leased.touch (Leased.disable_lease (Leased.update l now lease_ d)) t lease_ = Done l' ∧
     l'.(data) = d ∧ l'.(lease) = 0%N ∧ l'.(last_update) = Some t ∧
     ∀ t', (t < t')%N → Leased.is_expired l' t' 0 = true) ∧
  ((now ≤ t)%N → ∃ l', Leased.touch (Leased.update l now lease_ d) t lease_ = Done l' ∧
     l'.(data) = d ∧ ∀ t', (t' ≤ t + lease_)%N → Leased.is_expired l' t' 0 = false).
Proof.
  rw /Leased.is_expired /=. split_and!.
  - rw N.ltb_ge. done.
  - rw N.ltb_ge. lia.
  - intros Hle. rw /Leased.touch /=. rw (proj2 (leb_le _ _)); [by apply N_ole|].
    eexists. split_and!; [done..|]. intros t' Ht. cbn. apply N.ltb_lt. lia.
  - intros Hle. rw /Leased.touch /=. rw (proj2 (leb_le _ _)); [by apply N_ole|].
    eexists. split_and!; [done..|]. intros t' Ht. cbn. apply N.ltb_ge. lia.
Qed.
