(* ===== verification/ConfigText.v ===== *)
(** * Configurations from text, and the switches at runtime (openraft/src/config/, raft/runtime_config_handle.rs)

    [Config::build] parses command line arguments with clap, which is a parameter here: it returns a
    configuration or an error message.  The parser of a snapshot policy is in the source, on top of
    [u64::from_str] of the standard library, which is modelled with its overflow check.  A string is the
    list of its bytes. *)

From S2P Require Export Config.
From stdpp Require Import pretty.
From Stdlib Require Import Ascii.

(** ** [u64::from_str] *)
Module FromStr.
Inductive ParseIntError := Empty | InvalidDigit | PosOverflow.

Definition to_string (e : ParseIntError) : string :=
  match e with
  | Empty => "cannot parse integer from empty string"
  | InvalidDigit => "invalid digit found in string"
  | PosOverflow => "number too large to fit in target type"
  end.

Definition u64_max : N := 18446744073709551615.
Definition checked (n : N) : option N := if (n <=? u64_max)%N then Some n else None.
Definition to_digit (c : ascii) : option N :=
  let n := N_of_ascii c in if ((48 <=? n) && (n <=? 57))%N then Some (n - 48)%N else None.

(** Each round multiplies first, but reports an invalid digit before the overflow. *)
Fixpoint digits_loop (result : N) (digits : string) : Result N ParseIntError :=
  match digits with
  | EmptyString => ROk result
  | String c digits =>
      let mul := checked (result * 10) in
      match to_digit c with
      | None => RErr InvalidDigit
      | Some x =>
          match mul with
          | None => RErr PosOverflow
          | Some m => match checked (m + x) with None => RErr PosOverflow | Some r => digits_loop r digits end
          end
      end
  end.

Definition parse_u64 (src : string) : Result N ParseIntError :=
  match src with
  | EmptyString => RErr Empty
  | String c rest =>
      if Ascii.eqb c "+" || Ascii.eqb c "-" then
        if String.eqb rest "" then RErr InvalidDigit
        else if Ascii.eqb c "+" then digits_loop 0 rest else digits_loop 0 src
      else digits_loop 0 src
  end.

(** [str::split] at a character: [n] separators give [n + 1] pieces. *)
Fixpoint split (sep : ascii) (src : string) : list string :=
  match src with
  | EmptyString => [""]
  | String c src =>
      if Ascii.eqb c sep then "" :: split sep src
      else match split sep src with elt :: elts => String c elt :: elts | [] => [String c ""] end
  end.
End FromStr.

(** ** [Config] *)
Module ConfigText.
Import FromStr.

(** [ConfigError]; the message of a clap error is its source. *)
Inductive ConfigError :=
| ParseError (source : string) (args : list string)
| Invalid (e : Config.ConfigError)
| InvalidSnapshotPolicy (invalid syntax : string)
| InvalidNumber (invalid reason : string).

Definition policy_syntax : string := "never|since_last:<num>".

Definition parse_snapshot_policy (src : string) : Result SnapshotPolicy ConfigError :=
  if String.eqb src "never" then ROk Never
  else
    match split ":" src with
    | [elt0; elt1] =>
        if negb (String.eqb elt0 "since_last") then RErr (InvalidSnapshotPolicy src policy_syntax)
        else
          match parse_u64 elt1 with
          | RErr e => RErr (InvalidNumber src (to_string e))
          | ROk n_logs => ROk (LogsSinceLast n_logs)
          end
    | _ => RErr (InvalidSnapshotPolicy src policy_syntax)
    end.

(** [byte_unit::Byte::from_str] is a parameter. *)
Definition parse_bytes_with_unit (byte_from_str : string → Result N string) (src : string) : Result N ConfigError :=
  match byte_from_str src with
  | RErr reason => RErr (InvalidNumber src reason)
  | ROk n => ROk n
  end.

(** The defaults of the attributes of [Config], which [Config::default] parses no arguments for. *)
Definition default : Config.Config := {|
  Config.cluster_name := "foo"; Config.election_timeout_min := 150; Config.election_timeout_max := 300;
  Config.heartbeat_interval := 50; Config.install_snapshot_timeout := 200; Config.send_snapshot_timeout := 0;
  Config.max_payload_entries := 300; Config.replication_lag_threshold := 5000;
  Config.snapshot_policy := LogsSinceLast 5000; Config.snapshot_max_chunk_size := 3 * 1024 * 1024;
  Config.max_in_snapshot_log_to_keep := 1000; Config.purge_batch_size := 1;
  Config.enable_tick := true; Config.enable_heartbeat := true; Config.enable_elect := true;
  Config.allow_log_reversion := None |}.

(** [Parser::try_parse_from] of clap is a parameter. *)
Definition build (try_parse_from : list string → Result Config.Config string) (args : list string) :
    Result Config.Config ConfigError :=
  match try_parse_from args with
  | RErr e => RErr (ParseError e args)
  | ROk config => match Config.validate config with ROk c => ROk c | RErr e => RErr (Invalid e) end
  end.

(** [gen_range] panics on an empty range; [rand] is the number it draws from a range that is not. *)
Definition new_rand_election_timeout (c : Config.Config) (rand : N) : Outcome N :=
  _ ← assert_ (c.(Config.election_timeout_min) <? c.(Config.election_timeout_max))%N "cannot sample empty range";
  Done rand.
End ConfigText.

(** [RuntimeConfig] *)
Module RuntimeConfig.
Record RuntimeConfig := { enable_heartbeat : bool; enable_elect : bool }.
Definition new (config : Config.Config) : RuntimeConfig :=
  {| enable_heartbeat := config.(Config.enable_heartbeat); enable_elect := config.(Config.enable_elect) |}.
End RuntimeConfig.

(** ** Parsing *)
Section parsing.
Import FromStr ConfigText.

Lemma to_digit_char x : (x < 10)%N → to_digit (pretty_N_char x) = Some x.
Proof.
  intros Hx. assert (∃ k : nat, x = N.of_nat k ∧ k < 10) as (k & -> & Hk) by (exists (N.to_nat x); lia).
  do 10 (destruct k as [|k]; [by vm_compute|]). lia.
Qed.

(** Reading back the digits of a number: its value, unless it is beyond [u64]. *)
Lemma digits_pretty x s :
  digits_loop 0 (pretty_N_go x s) = if (x <=? u64_max)%N then digits_loop x s else RErr PosOverflow.
Proof.
  revert s. induction (N.lt_wf_0 x) as [x _ IH]. intros s. destruct (decide (x = 0)%N) as [-> |Hx]; [by rw pretty_N_go_0|].
  rw pretty_N_go_step; [lia|]. rw IH; [apply N.div_lt; lia|].
  pose proof (N.div_mod x 10 ltac:(lia)) as Hdm. pose proof (N.mod_lt x 10 ltac:(lia)) as Hm.
  cbn [digits_loop]. rw to_digit_char; [lia|]. rw /checked.
  clear IH. generalize dependent (x / 10)%N. generalize dependent (x `mod` 10)%N. intros r Hm q Hdm.
  destruct (N.leb_spec x u64_max) as [Hle|Hgt].
  - destruct (N.leb_spec q u64_max); [|lia]. destruct (N.leb_spec (q * 10) u64_max); [|lia].
    replace (q * 10 + r)%N with x by lia. by destruct (N.leb_spec x u64_max); [|lia].
  - destruct (N.leb_spec q u64_max); [|done]. destruct (N.leb_spec (q * 10) u64_max); [|done].
    replace (q * 10 + r)%N with x by lia. by destruct (N.leb_spec x u64_max); [lia|].
Qed.

Lemma digits_bound r s n : (r ≤ u64_max)%N → digits_loop r s = ROk n → (n ≤ u64_max)%N.
Proof.
  revert r. induction s as [|c s IH]; intros r Hr; cbn; [by intros [= <-]|].
  destruct (to_digit c) as [x|]; [|done]. destruct (checked (r * 10)) as [m|]; [|done]. rw /checked.
  destruct (N.leb_spec (m + x) u64_max); [|done]. by apply IH.
Qed.

Lemma parse_u64_pretty (n : N) :
  parse_u64 (pretty n) = if (n <=? u64_max)%N then ROk n else RErr PosOverflow.
Proof.
  rw /pretty /pretty_N. case_decide as Hn; [by subst|].
  assert (∃ c s, pretty_N_go n "" = String c s ∧ Ascii.eqb c "+" = false ∧ Ascii.eqb c "-" = false) as (c & s & Heq & Hp & Hm).
  { assert (∀ x s, (0 < x)%N → ∃ c s', pretty_N_go x s = String c s' ∧ Ascii.eqb c "+" = false ∧ Ascii.eqb c "-" = false) as Hgo.
    { intros x. induction (N.lt_wf_0 x) as [x _ IH]. intros s Hx. rw pretty_N_go_step; [done|].
      destruct (decide (x / 10 = 0)%N) as [-> |Hd].
      - rw pretty_N_go_0. eexists _, _. split; [done|]. pose proof (N.mod_lt x 10 ltac:(lia)) as Hlt.
        generalize dependent (x `mod` 10)%N. intros y Hy.
        assert (∃ k : nat, y = N.of_nat k ∧ k < 10) as (k & -> & Hk) by (exists (N.to_nat y); lia).
        do 10 (destruct k as [|k]; [by vm_compute|]). lia.
      - apply IH; [apply N.div_lt; lia|by apply N.neq_0_lt_0]. }
    apply Hgo. lia. }
  pose proof (digits_pretty n "") as Hd. rw Heq in Hd |- *. cbn [parse_u64]. by rw Hp Hm Hd.
Qed.

Lemma parse_u64_bound s n : parse_u64 s = ROk n → (n ≤ u64_max)%N.
Proof.
  destruct s as [|c s]; [done|]. rw /parse_u64. destruct (_ || _); [destruct (String.eqb s ""); [done|]; destruct (Ascii.eqb c "+")|];
    by apply digits_bound.
Qed.

Lemma char_not_colon x : (x < 10)%N → Ascii.eqb (pretty_N_char x) ":" = false.
Proof.
  intros Hx. assert (∃ k : nat, x = N.of_nat k ∧ k < 10) as (k & -> & Hk) by (exists (N.to_nat x); lia).
  do 10 (destruct k as [|k]; [by vm_compute|]). lia.
Qed.
Lemma split_digits x s : split ":" s = [s] → split ":" (pretty_N_go x s) = [pretty_N_go x s].
Proof.
  revert s. induction (N.lt_wf_0 x) as [x _ IH]. intros s Hs. destruct (decide (x = 0)%N) as [-> |Hx]; [by rw pretty_N_go_0|].
  rw pretty_N_go_step; [lia|]. apply IH; [apply N.div_lt; lia|]. cbn [split].
  rw char_not_colon; [apply N.mod_lt; lia|]. by rw Hs.
Qed.
Lemma split_pretty (n : N) : split ":" (pretty n) = [pretty n].
Proof. rw /pretty /pretty_N. case_decide; [done|]. by apply split_digits. Qed.

(** The text of a snapshot policy means what it says: "never", or "since_last:" with a number in
    decimal; a number beyond [u64] is refused instead of wrapping around, whatever its digits. *)
Theorem snapshot_policy_from_text :
  parse_snapshot_policy "never" = ROk Never ∧
  (∀ n : N, parse_snapshot_policy ("since_last:" +:+ pretty n) =
     if (n <=? u64_max)%N then ROk (LogsSinceLast n)
     else RErr (InvalidNumber ("since_last:" +:+ pretty n) (to_string PosOverflow))) ∧
  (∀ src n, parse_snapshot_policy src = ROk (LogsSinceLast n) → (n ≤ u64_max)%N).
Proof.
  split; [done|]. split.
  - intros n. rw /parse_snapshot_policy.
    change (split ":" ("since_last:" +:+ pretty n)) with ("since_last" :: split ":" (pretty n)).
    rw split_pretty parse_u64_pretty. by destruct (n <=? u64_max)%N.
  - intros src n. rw /parse_snapshot_policy. destruct (String.eqb src "never"); [done|].
    destruct (split ":" src) as [|e0 [|e1 [|]]]; try done. destruct (negb _); [done|].
    destruct (parse_u64 e1) as [k|] eqn:Hk; [|done]. intros [= <-]. by eapply parse_u64_bound.
Qed.

(** A configuration that was validated leaves room for an election timeout; the default one is valid. *)
Lemma validate_timeouts c c' : Config.validate c = ROk c' →
  c' = c ∧ (c.(Config.election_timeout_min) < c.(Config.election_timeout_max))%N ∧
  (c.(Config.heartbeat_interval) < c.(Config.election_timeout_min))%N ∧ c.(Config.max_payload_entries) ≠ 0%N.
Proof.
  rw /Config.validate. destruct (N.leb_spec (Config.election_timeout_max c) (Config.election_timeout_min c)); [done|].
  destruct (N.leb_spec (Config.election_timeout_min c) (Config.heartbeat_interval c)); [done|].
  destruct (N.eqb_spec (Config.max_payload_entries c) 0); [done|]. by intros [= <-].
Qed.
Lemma default_valid : Config.validate default = ROk default.
Proof. done. Qed.
Lemma build_valid parse args c : build parse args = ROk c →
  parse args = ROk c ∧ Config.validate c = ROk c.
Proof.
  rw /build. destruct (parse args) as [c0|]; [|done]. destruct (Config.validate c0) as [c1|] eqn:Hv; [|done].
  intros [= <-]. by destruct (validate_timeouts _ _ Hv) as [-> _].
Qed.
End parsing.
