(* ===== verification/ProgressEntry.v ===== *)
(** * Replication progress of one follower (openraft/src/progress/entry/, progress/inflight/)

    [ProgressEntry] is what a leader knows of a follower's log: the last matching log id, the data
    in flight, and the end of the range that may still match.  [next_send] chooses what to send
    next by a binary search, [Updater.update_matching] and [Updater.update_conflicting] digest the
    response.  The theorems show that the validity of an entry is preserved, that what is sent is
    a non-empty, bounded range of entries the leader still has, and that a conflict strictly
    shrinks the search. *)

From S2P Require Export Config Progress.

(** ** [Inflight] *)
Section inflight.
Context {C : RaftTypeConfig}.

Inductive Inflight :=
| Inflight_None
| Inflight_Logs (log_id_range : LogIdRange)
| Inflight_Snapshot (last_log_id : option LogId).

#[global] Instance inflight_eq_dec : EqDecision Inflight.
Proof. solve_decision. Defined.
End inflight.

Module Inflight.
Section ops.
Context {C : RaftTypeConfig}.

Definition validate (i : Inflight) : bool :=
  match i with
  | Inflight_None => true
  | Inflight_Logs r => LogIdRange_validate r
  | Inflight_Snapshot _ => true
  end.

Definition logs (prev last : option LogId) : Inflight :=
  if negb (prev ≺? last) then Inflight_None else Inflight_Logs (LogIdRange_new prev last).

Definition snapshot (snapshot_last_log_id : option LogId) : Inflight :=
  Inflight_Snapshot snapshot_last_log_id.

Definition is_none (i : Inflight) : bool := bool_decide (Inflight_None = i).

Definition ack (i : Inflight) (upto : option LogId) : Outcome Inflight :=
  match i with
  | Inflight_None => Panic "no inflight data"
  | Inflight_Logs r =>
      _ ← assert_ (r.(LogId.prev) ⪯? upto) "upto >= log_id_range.prev";
      _ ← assert_ (upto ⪯? r.(LogId.last)) "upto <= log_id_range.last";
      Done (logs upto r.(LogId.last))
  | Inflight_Snapshot last_log_id =>
      _ ← assert_ (bool_decide (upto = last_log_id)) "upto == last_log_id";
      Done Inflight_None
  end.

Definition conflict (i : Inflight) (conflict : N) : Outcome Inflight :=
  match i with
  | Inflight_None => Panic "no inflight data"
  | Inflight_Logs logs =>
      _ ← assert_ (bool_decide (Some conflict = opt_index logs.(LogId.prev))) "Some(conflict) == logs.prev.index()";
      Done Inflight_None
  | Inflight_Snapshot _ => Panic "sending snapshot should not conflict"
  end.
End ops.
End Inflight.

(** ** [ProgressEntry] *)
Record ProgressEntry {C : RaftTypeConfig} := {
  matching : option LogId;
  inflight : Inflight;
  searching_end : N;
  allow_log_reversion : bool;
}.
#[global] Instance progress_entry_eq_dec {C : RaftTypeConfig} : EqDecision ProgressEntry.
Proof. solve_decision. Defined.

(** [impl Borrow<Option<LogId>> for ProgressEntry] *)
#[global] Instance progress_entry_borrow {C : RaftTypeConfig} : Borrow ProgressEntry (option LogId) :=
  matching.

Module ProgressEntry.
Section ops.
Context {C : RaftTypeConfig}.

Definition set_inflight (e : ProgressEntry) (i : Inflight) : ProgressEntry :=
  {| matching := e.(matching); inflight := i; searching_end := e.(searching_end);
     allow_log_reversion := e.(allow_log_reversion) |}.
Definition set_allow_log_reversion (e : ProgressEntry) (b : bool) : ProgressEntry :=
  {| matching := e.(matching); inflight := e.(inflight); searching_end := e.(searching_end);
     allow_log_reversion := b |}.

Definition new (matching : option LogId) : ProgressEntry :=
  {| matching := matching; inflight := Inflight_None; searching_end := next_index matching;
     allow_log_reversion := false |}.

Definition empty (end_ : N) : ProgressEntry :=
  {| matching := None; inflight := Inflight_None; searching_end := end_; allow_log_reversion := false |}.

Definition is_log_range_inflight (e : ProgressEntry) (upto : LogId) : bool :=
  match e.(inflight) with
  | Inflight_None => false
  | Inflight_Logs r => r.(LogId.prev) ≺? Some upto
  | Inflight_Snapshot _ => false
  end.

Definition calc_mid (matching_next end_ : N) : Outcome N :=
  _ ← assert_ (matching_next <=? end_)%N "matching_next <= end";
  d ← sub_u64 end_ matching_next;
  let offset := (d / 16 * 8)%N in
  Done (matching_next + offset)%N.

(** [next_send]: [ROk]/[RErr] of the inflight data, and the updated entry. *)
Definition next_send {S : Type} `{!LogStateReader S} (e : ProgressEntry) (log_state : S) (max_entries : N) :
    Outcome (Result Inflight Inflight * ProgressEntry) :=
  if negb (Inflight.is_none e.(inflight)) then Done (RErr e.(inflight), e)
  else
    let last_next := next_index (last_log_id log_state) in
    _ ← assert_ (e.(searching_end) <=? last_next)%N "expect: searching_end <= last_log_id.next_index";
    let purge_upto_next := next_index (purge_upto log_state) in
    if (e.(searching_end) <? purge_upto_next)%N then
      let snapshot_last := snapshot_last_log_id log_state in
      let e := set_inflight e (Inflight.snapshot snapshot_last) in
      Done (ROk e.(inflight), e)
    else
      start ← calc_mid (next_index e.(matching)) e.(searching_end);
      let start := if (start <? purge_upto_next)%N then purge_upto_next else start in
      let end_ := N.min (start + max_entries) last_next in
      if (start =? end_)%N then
        let e := set_inflight e Inflight_None in
        Done (RErr e.(inflight), e)
      else
        let prev := prev_log_id log_state start in
        let last := prev_log_id log_state end_ in
        let e := set_inflight e (Inflight.logs prev last) in
        Done (ROk e.(inflight), e).

Definition validate (e : ProgressEntry) : bool :=
  (next_index e.(matching) <=? e.(searching_end))%N &&
  Inflight.validate e.(inflight) &&
  match e.(inflight) with
  | Inflight_None => true
  | Inflight_Logs r =>
      (e.(matching) ⪯? r.(LogId.prev)) && (next_index r.(LogId.prev) <=? e.(searching_end))%N
  | Inflight_Snapshot last_log_id => e.(matching) ≺? last_log_id
  end.
End ops.
End ProgressEntry.

(** ** [Updater] (entry/update.rs) *)
Module Updater.
Section ops.
Context {C : RaftTypeConfig}.

Definition update_conflicting (engine_config : EngineConfig.EngineConfig) (e : ProgressEntry) (conflict : N) :
    Outcome ProgressEntry :=
  i ← Inflight.conflict e.(inflight) conflict;
  let e := ProgressEntry.set_inflight e i in
  _ ← assert_ (conflict <? e.(searching_end))%N "conflict < searching_end";
  let e := {| matching := e.(matching); inflight := e.(inflight); searching_end := conflict;
              allow_log_reversion := e.(allow_log_reversion) |} in
  let allow_reset := e.(allow_log_reversion) || engine_config.(EngineConfig.allow_log_reversion) in
  if allow_reset then
    if (conflict <? next_index e.(matching))%N then
      Done {| matching := None; inflight := e.(inflight); searching_end := e.(searching_end);
              allow_log_reversion := false |}
    else Done e
  else
    _ ← assert_ (next_index e.(matching) <=? conflict)%N "follower log reversion is not allowed";
    Done e.

Definition update_matching (e : ProgressEntry) (matching_ : option LogId) : Outcome ProgressEntry :=
  i ← Inflight.ack e.(inflight) matching_;
  let e := ProgressEntry.set_inflight e i in
  _ ← assert_ (e.(matching) ⪯? matching_) "matching >= self.entry.matching()";
  let e := {| matching := matching_; inflight := e.(inflight); searching_end := e.(searching_end);
              allow_log_reversion := e.(allow_log_reversion) |} in
  let matching_next := next_index e.(matching) in
  Done {| matching := e.(matching); inflight := e.(inflight);
          searching_end := N.max e.(searching_end) matching_next;
          allow_log_reversion := e.(allow_log_reversion) |}.
End ops.
End Updater.

(** ** What the progress of a follower relies on of the leader's log *)
Section log_state.
Context {C : RaftTypeConfig} {S : Type} `{!LogStateReader S}.

(** A log id the leader has: an entry of its log, or the last one of its snapshot. *)
Definition in_log (s : S) (x : LogId) : Prop :=
  (∃ i, ref_log_id s i = Some x) ∨ snapshot_last_log_id s = Some x.

Record log_state_ok (s : S) : Prop := {
  lso_index i x : ref_log_id s i = Some x → x.(index) = i;
  lso_total i : (next_index (last_purged_log_id s) ≤ i + 1)%N → (i < next_index (last_log_id s))%N →
    is_Some (ref_log_id s i);
  lso_mono x y : in_log s x → in_log s y → (x.(index) ≤ y.(index))%N → x.(leader_id) ⪯ y.(leader_id);
  lso_purged : (next_index (last_purged_log_id s) ≤ next_index (purge_upto s))%N;
  lso_purge_upto : (next_index (purge_upto s) ≤ next_index (snapshot_last_log_id s))%N;
  lso_snapshot : (next_index (snapshot_last_log_id s) ≤ next_index (last_log_id s))%N;
}.

(** The matching log id is one the leader has, or had before it was purged. *)
Definition matching_ok (s : S) (m : option LogId) : Prop :=
  ∀ a x, m = Some a → in_log s x → (a.(index) ≤ x.(index))%N → a.(leader_id) ⪯ x.(leader_id).

Context (s : S) (Hok : log_state_ok s).

Lemma prev_log_id_next i :
  (next_index (last_purged_log_id s) ≤ i)%N → (i ≤ next_index (last_log_id s))%N →
  next_index (prev_log_id s i) = i ∧ ∀ x, prev_log_id s i = Some x → in_log s x.
Proof using Hok.
  intros Hlo Hhi. rw /prev_log_id /get_log_id. destruct (N.eqb_spec i 0) as [->|Hi]; [done|].
  destruct (lso_total s Hok (i - 1)) as [x Hx]; [lia..|]. rw Hx. split.
  - cbn. rw (lso_index s Hok _ _ Hx). lia.
  - intros y [= <-]. left. eauto.
Qed.

Lemma matching_ok_le m o :
  matching_ok s m → (∀ x, o = Some x → in_log s x) → (next_index m ≤ next_index o)%N → m ⪯ o.
Proof using.
  intros Hm Ho Hle. destruct m as [a|]; [|apply None_le]. destruct o as [x|]; [|cbn in Hle; lia].
  cbn in Hle. apply Some_ole, log_id_ole. pose proof (Hm a x eq_refl (Ho x eq_refl)) as Hl.
  apply ole_lt_eq in Hl; [|lia]. destruct Hl; [by left|right; split; [done|lia]].
Qed.

Lemma in_log_lt a b :
  (∀ x, a = Some x → in_log s x) → (∀ x, b = Some x → in_log s x) → (next_index a < next_index b)%N → a ≺ b.
Proof using Hok.
  intros Ha Hb Hlt. destruct b as [y|]; [|cbn in Hlt; lia]. destruct a as [x|]; [|done].
  cbn in Hlt. apply Some_olt. apply log_id_lt_of_index; [|lia]. apply (lso_mono s Hok); [eauto..|lia].
Qed.

Lemma in_log_matching_ok m : (∀ x, m = Some x → in_log s x) → matching_ok s m.
Proof using Hok. intros Hm a x -> Hx Hle. apply (lso_mono s Hok); eauto. Qed.
End log_state.

Lemma calc_mid_spec (a b : N) :
  (a ≤ b)%N → ∃ m, ProgressEntry.calc_mid a b = Done m ∧ (a ≤ m)%N ∧ (m ≤ b)%N ∧ (m = b → a = b).
Proof.
  intros Hab. rw /ProgressEntry.calc_mid /sub_u64. apply N.leb_le in Hab as Hab'. rw Hab'. cbn.
  eexists. split; [done|].
  pose proof (N.Div0.mul_div_le (b - a) 16). set (d := ((b - a) / 16)%N) in *. lia.
Qed.

Ltac pe_cbn :=
  cbn [ProgressEntry.set_inflight matching inflight searching_end allow_log_reversion Inflight.validate
       LogId.prev LogId.last LogIdRange_new].

Section progress_entry_lemmas.
Context {C : RaftTypeConfig} {S : Type} `{!LogStateReader S}.
Implicit Types (s : S) (e : ProgressEntry).

Lemma logs_lt a b : a ≺ b → Inflight.logs a b = Inflight_Logs (LogIdRange_new a b).
Proof. intros Hlt. rw /Inflight.logs. apply ltb_lt in Hlt as ->. done. Qed.

(** Everything [next_send] does when nothing is in flight. *)
Lemma next_send_cases s e max_entries :
  log_state_ok s → matching_ok s e.(matching) → ProgressEntry.validate e = true →
  e.(inflight) = Inflight_None → (e.(searching_end) ≤ next_index (last_log_id s))%N →
  ∃ r i, ProgressEntry.next_send e s max_entries = Done (r, ProgressEntry.set_inflight e i) ∧
    ProgressEntry.validate (ProgressEntry.set_inflight e i) = true ∧
    ((r = ROk i ∧ i = Inflight_Snapshot (snapshot_last_log_id s) ∧
      (e.(searching_end) < next_index (purge_upto s))%N ∧ e.(matching) ≺ snapshot_last_log_id s) ∨
     (∃ rng, r = ROk i ∧ i = Inflight_Logs rng ∧
        (∀ x, rng.(LogId.prev) = Some x → in_log s x) ∧ (∀ x, rng.(LogId.last) = Some x → in_log s x) ∧
        e.(matching) ⪯ rng.(LogId.prev) ∧ rng.(LogId.prev) ≺ rng.(LogId.last) ∧
        (next_index e.(matching) ≤ next_index rng.(LogId.prev))%N ∧
        (next_index rng.(LogId.prev) ≤ e.(searching_end))%N ∧
        (next_index (purge_upto s) ≤ next_index rng.(LogId.prev))%N ∧
        (next_index rng.(LogId.prev) < next_index rng.(LogId.last))%N ∧
        (next_index rng.(LogId.last) ≤ next_index rng.(LogId.prev) + max_entries)%N ∧
        (next_index rng.(LogId.last) ≤ next_index (last_log_id s))%N) ∨
     (r = RErr i ∧ i = Inflight_None ∧
      (max_entries = 0%N ∨ next_index e.(matching) = next_index (last_log_id s) ∨
       next_index (purge_upto s) = next_index (last_log_id s)))).
Proof.
  intros Hok Hm Hv Hnone Hend.
  assert (next_index e.(matching) ≤ e.(searching_end))%N as Hle.
  { rw /ProgressEntry.validate Hnone !andb_true_iff in Hv. apply N.leb_le. tauto. }
  pose proof (lso_purged s Hok). pose proof (lso_purge_upto s Hok). pose proof (lso_snapshot s Hok).
  rw /ProgressEntry.next_send Hnone. cbn [Inflight.is_none negb].
  rw (proj2 (N.leb_le _ _) Hend). cbn [bool_decide_reflect assert_ mbind outcome_bind].
  replace (Inflight.is_none Inflight_None) with true by done. cbn [negb].
  destruct (N.ltb_spec e.(searching_end) (next_index (purge_upto s))) as [Hpurged|Hpurged].
  { assert (e.(matching) ≺ snapshot_last_log_id s) as Hlt.
    { destruct (snapshot_last_log_id s) as [y|] eqn:Hsn; [|cbn in *; lia].
      destruct e.(matching) as [a|] eqn:Ha; [|done]. cbn in *. apply Some_olt, log_id_lt_of_index; [|lia].
      apply (Hm a y eq_refl); [by right|lia]. }
    do 2 eexists. split; [done|]. split; [|left; done].
    rw /ProgressEntry.validate /=. rw (proj2 (N.leb_le _ _) Hle). cbn. by apply ltb_lt. }
  destruct (calc_mid_spec (next_index e.(matching)) e.(searching_end) Hle) as (m & -> & Hm1 & Hm2 & Hm3).
  cbn [mbind outcome_bind]. set (start := if (m <? _)%N then _ else m).
  assert ((m ≤ start ∧ next_index (purge_upto s) ≤ start ∧ start ≤ e.(searching_end))%N ∧
          (start = m ∨ start = next_index (purge_upto s))) as [(Hs1 & Hs2 & Hs3) Hs4].
  { rw /start. destruct (N.ltb_spec m (next_index (purge_upto s))); lia. }
  clearbody start. destruct (N.eqb_spec start (N.min (start + max_entries) (next_index (last_log_id s)))) as [Heq|Hne].
  { do 2 eexists. split; [done|]. split; [|right; right; split; [done|]].
    - rw /ProgressEntry.validate /=. by rw (proj2 (N.leb_le _ _) Hle).
    - split; [done|]. destruct (decide (max_entries = 0)%N); [by left|right].
      assert (start = next_index (last_log_id s)) as Hst by lia.
      destruct Hs4 as [->| ->]; [left|by right]. lia. }
  set (end_ := N.min _ _) in *.
  destruct (prev_log_id_next s Hok start) as [Hp Hpin]; [lia..|].
  destruct (prev_log_id_next s Hok end_) as [Hl Hlin]; [lia..|].
  assert (prev_log_id s start ≺ prev_log_id s end_) as Hlt.
  { apply (in_log_lt s Hok); [done..|]. rw Hp Hl. lia. }
  assert (e.(matching) ⪯ prev_log_id s start) as Hmp.
  { apply (matching_ok_le s); [done..|]. rw Hp. lia. }
  rw (logs_lt _ _ Hlt). do 2 eexists. split; [done|]. split.
  - rw /ProgressEntry.validate /Inflight.validate /LogIdRange_validate. pe_cbn. rw (proj2 (N.leb_le _ _) Hle) Hp.
    rw (proj2 (leb_le _ _) (olt_le _ _ Hlt)) (proj2 (leb_le _ _) Hmp). cbn. apply N.leb_le. lia.
  - right. left. eexists. split_and!; try done; cbn; rw ?Hp ?Hl; lia.
Qed.

Lemma validate_logs e r :
  ProgressEntry.validate e = true → e.(inflight) = Inflight_Logs r →
  (next_index e.(matching) ≤ e.(searching_end))%N ∧ r.(LogId.prev) ⪯ r.(LogId.last) ∧
  e.(matching) ⪯ r.(LogId.prev) ∧ (next_index r.(LogId.prev) ≤ e.(searching_end))%N.
Proof.
  rw /ProgressEntry.validate /Inflight.validate /LogIdRange_validate. intros Hv Hi. rw Hi in Hv.
  rw !andb_true_iff !N.leb_le !leb_le in Hv. tauto.
Qed.

Lemma update_conflicting_run cfg e r conflict :
  ProgressEntry.validate e = true → e.(inflight) = Inflight_Logs r →
  opt_index r.(LogId.prev) = Some conflict →
  (e.(allow_log_reversion) || cfg.(EngineConfig.allow_log_reversion) = false →
     (next_index e.(matching) ≤ conflict)%N) →
  ∃ e', Updater.update_conflicting cfg e conflict = Done e' ∧ ProgressEntry.validate e' = true ∧
    e'.(inflight) = Inflight_None ∧ e'.(searching_end) = conflict ∧ (conflict < e.(searching_end))%N ∧
    e'.(matching) = if (conflict <? next_index e.(matching))%N then None else e.(matching).
Proof.
  intros Hv Hi Hc Hrev. destruct (validate_logs _ _ Hv Hi) as (Hle & _ & _ & Hend).
  assert (conflict < e.(searching_end))%N as Hlt.
  { destruct (LogId.prev r) as [p|]; [|done]. injection Hc as <-. cbn in Hend. lia. }
  rw /Updater.update_conflicting Hi /Inflight.conflict Hc. rw bool_decide_true; [done|].
  cbn [assert_ mbind outcome_bind]. pe_cbn. rw (proj2 (N.ltb_lt _ _) Hlt). cbn [assert_ mbind outcome_bind].
  destruct (allow_log_reversion e || EngineConfig.allow_log_reversion cfg) eqn:Ha.
  - destruct (N.ltb_spec conflict (next_index e.(matching))) as [Hrv|Hnr].
    + eexists. split; [done|]. pe_cbn. split_and!; [|done..].
      rw /ProgressEntry.validate. pe_cbn. cbn [next_index]. by rw (proj2 (N.leb_le _ _)); [lia|].
    + eexists. split; [done|]. pe_cbn. split_and!; [|done..].
      rw /ProgressEntry.validate. pe_cbn. by rw (proj2 (N.leb_le _ _) Hnr).
  - specialize (Hrev eq_refl). rw (proj2 (N.leb_le _ _) Hrev). cbn [assert_ mbind outcome_bind].
    destruct (N.ltb_spec conflict (next_index e.(matching))); [lia|].
    eexists. split; [done|]. pe_cbn. split_and!; [|done..].
    rw /ProgressEntry.validate. pe_cbn. by rw (proj2 (N.leb_le _ _) Hrev).
Qed.

(** An acknowledgement that the inflight data accounts for. *)
Definition acknowledges (i : Inflight) (upto : option LogId) : Prop :=
  match i with
  | Inflight_None => False
  | Inflight_Logs r => r.(LogId.prev) ⪯ upto ∧ upto ⪯ r.(LogId.last)
  | Inflight_Snapshot l => upto = l
  end.

Lemma update_matching_run e upto :
  ProgressEntry.validate e = true → acknowledges e.(inflight) upto →
  ∃ e', Updater.update_matching e upto = Done e' ∧ ProgressEntry.validate e' = true ∧
    e'.(matching) = upto ∧ e.(matching) ⪯ upto ∧
    e'.(searching_end) = N.max e.(searching_end) (next_index upto) ∧
    e'.(inflight) = match e.(inflight) with
                    | Inflight_Logs r => Inflight.logs upto r.(LogId.last)
                    | _ => Inflight_None
                    end.
Proof.
  intros Hv Hack. rw /Updater.update_matching /Inflight.ack.
  destruct (inflight e) as [|r|l] eqn:Hi; cbn in Hack; [done|..].
  - destruct (validate_logs _ _ Hv Hi) as (Hle & Hpl & Hmp & Hend). destruct Hack as [Hpu Hul].
    rw (proj2 (leb_le _ _) Hpu). cbn [assert_ mbind outcome_bind].
    rw (proj2 (leb_le _ _) Hul). cbn [assert_ mbind outcome_bind]. pe_cbn.
    assert (matching e ⪯ upto) as Hmu by order.
    rw (proj2 (leb_le _ _) Hmu). cbn [assert_ mbind outcome_bind]. pe_cbn.
    eexists. split; [done|]. pe_cbn. split_and!; try done.
    rw /ProgressEntry.validate. pe_cbn. rw !andb_true_iff N.leb_le.
    rw /Inflight.logs. destruct (ltbP upto (LogId.last r)) as [Hlt|Hge]; cbn [negb].
    + split_and!; [lia| |].
      * rw /Inflight.validate /LogIdRange_validate leb_le. exact Hul.
      * pe_cbn. rw andb_true_iff leb_le N.leb_le. split; [apply ole_refl|lia].
    + split_and!; [lia|done|done].
  - assert (matching e ≺ l) as Hml.
    { rw /ProgressEntry.validate Hi !andb_true_iff ltb_lt in Hv. tauto. }
    subst upto. rw bool_decide_true; [done|]. cbn [assert_ mbind outcome_bind]. pe_cbn.
    rw (proj2 (leb_le _ _) (olt_le _ _ Hml)). cbn [assert_ mbind outcome_bind].
    eexists. split; [done|]. pe_cbn. split_and!; try done; [|by apply olt_le].
    rw /ProgressEntry.validate. pe_cbn. rw !andb_true_iff N.leb_le. split_and!; [lia|done|done].
Qed.

(** *** The dialogue of a leader and a follower

    A follower whose first [m] entries agree with the leader's log answers an append request with
    success when it has the previous entry, and with a conflict at that entry otherwise; it
    accepts any snapshot.  [replicate] repeats the rounds until there is nothing to send. *)
Definition round (cfg : EngineConfig.EngineConfig) (s : S) (max_entries : N) (st : ProgressEntry * N) :
    Outcome (option (ProgressEntry * N)) :=
  let '(e, m) := st in
  '(r, e) ← ProgressEntry.next_send e s max_entries;
  match r with
  | ROk (Inflight_Logs rng) =>
      if (next_index rng.(LogId.prev) <=? m)%N then
        e ← Updater.update_matching e rng.(LogId.last);
        Done (Some (e, N.max m (next_index rng.(LogId.last))))
      else
        conflict ← unwrap (opt_index rng.(LogId.prev)) "conflict";
        e ← Updater.update_conflicting cfg e conflict;
        Done (Some (e, m))
  | ROk (Inflight_Snapshot l) =>
      e ← Updater.update_matching e l; Done (Some (e, N.max m (next_index l)))
  | _ => Done None
  end.

Fixpoint replicate (fuel : nat) cfg (s : S) (max_entries : N) (st : ProgressEntry * N) :
    option (Outcome (ProgressEntry * N)) :=
  match fuel with
  | O => None
  | Datatypes.S fuel =>
      match round cfg s max_entries st with
      | Done None => Some (Done st)
      | Done (Some st) => replicate fuel cfg s max_entries st
      | Panic w => Some (Panic w)
      end
  end.

Record dialogue_inv (s : S) (e : ProgressEntry) (m : N) : Prop := {
  di_validate : ProgressEntry.validate e = true;
  di_inflight : e.(inflight) = Inflight_None;
  di_matching : matching_ok s e.(matching);
  di_end : (e.(searching_end) ≤ next_index (last_log_id s))%N;
  di_agree : (next_index e.(matching) ≤ m)%N;
}.

Definition dialogue_measure (s : S) (e : ProgressEntry) : nat :=
  N.to_nat (2 * (next_index (last_log_id s) - next_index e.(matching)) +
            (e.(searching_end) - next_index e.(matching))).

Lemma round_progress cfg s max_entries e m :
  log_state_ok s → (0 < max_entries)%N →
  (next_index (purge_upto s) < next_index (last_log_id s))%N → dialogue_inv s e m →
  (round cfg s max_entries (e, m) = Done None ∧
     next_index e.(matching) = next_index (last_log_id s)) ∨
  ∃ e' m', round cfg s max_entries (e, m) = Done (Some (e', m')) ∧ dialogue_inv s e' m' ∧
    dialogue_measure s e' < dialogue_measure s e.
Proof.
  intros Hok Hmax Hpurge [Hv Hi Hm Hend Hagree]. rw /round.
  destruct (next_send_cases s e max_entries Hok Hm Hv Hi Hend) as (r & i & -> & Hv1 & Hcases).
  cbn [mbind outcome_bind].
  pose proof (lso_purge_upto s Hok). pose proof (lso_snapshot s Hok).
  assert (next_index e.(matching) ≤ e.(searching_end))%N as Hle.
  { rw /ProgressEntry.validate Hi !andb_true_iff in Hv. apply N.leb_le. tauto. }
  destruct Hcases as [(-> & -> & Hlt & Hms)|[(rng & -> & -> & Hpin & Hlin & Hmp & Hpl & H1 & H2 & H3 & H4 & H5 & H6)|
                      (-> & -> & Hwhy)]].
  - right. destruct (update_matching_run _ (snapshot_last_log_id s) Hv1) as (e' & -> & Hv' & Hm' & _ & Hs' & Hi'); [done|].
    cbn [mbind outcome_bind]. do 2 eexists. split; [done|]. cbn in Hs'. split.
    + split; rw ?Hm' ?Hs'; try done; [|lia..]. apply in_log_matching_ok; [done|]. intros x Hx. by right.
    + rw /dialogue_measure Hm' Hs'. lia.
  - right. destruct (N.leb_spec (next_index (LogId.prev rng)) m) as [Hmatch|Hconf].
    + destruct (update_matching_run _ (LogId.last rng) Hv1) as (e' & -> & Hv' & Hm' & _ & Hs' & Hi').
      { split; [by apply olt_le|apply ole_refl]. }
      cbn [mbind outcome_bind]. do 2 eexists. split; [done|]. cbn in Hs', Hi'. split.
      * split; rw ?Hm' ?Hs'; try done; [|by apply in_log_matching_ok|lia..].
        rw Hi' /Inflight.logs. by rw (proj2 (ltb_ge _ _) (ole_refl (LogId.last rng))).
      * rw /dialogue_measure Hm' Hs'. lia.
    + destruct (LogId.prev rng) as [p|] eqn:Hp; [|cbn in Hconf; lia]. cbn [opt_index fmap option_fmap option_map].
      cbn [unwrap mbind outcome_bind]. cbn in Hconf, H1, H2.
      destruct (update_conflicting_run cfg _ rng p.(index) Hv1) as (e' & -> & Hv' & Hi' & Hs' & Hlt & Hm').
      { done. } { by rw Hp. } { intros _. cbn. lia. }
      cbn [mbind outcome_bind]. cbn in Hm', Hlt.
      destruct (N.ltb_spec p.(index) (next_index e.(matching))); [lia|].
      do 2 eexists. split; [done|]. split.
      * split; rw ?Hm' ?Hs'; try done; lia.
      * rw /dialogue_measure Hm' Hs'. lia.
  - left. split; [done|]. lia.
Qed.
End progress_entry_lemmas.

(** ** Properties *)
Section progress_entry_properties.
Context {C : RaftTypeConfig} {S : Type} `{!LogStateReader S}.
Implicit Types (s : S) (e : ProgressEntry).


(** A conflict reported for the previous log id of the data in flight does not panic (unless a
    reversion of the follower's log is found and not allowed), keeps the entry valid, and strictly
    shrinks the range that is still searched. *)
Theorem update_conflicting_spec cfg e r conflict :
  ProgressEntry.validate e = true → e.(inflight) = Inflight_Logs r →
  opt_index r.(LogId.prev) = Some conflict →
  (e.(allow_log_reversion) || cfg.(EngineConfig.allow_log_reversion) = false →
     (next_index e.(matching) ≤ conflict)%N) →
  ∃ e', Updater.update_conflicting cfg e conflict = Done e' ∧ ProgressEntry.validate e' = true ∧
    e'.(inflight) = Inflight_None ∧ (e'.(searching_end) < e.(searching_end))%N ∧
    e'.(matching) = if (conflict <? next_index e.(matching))%N then None else e.(matching).
Proof.
  intros Hv Hi Hc Hrev.
  destruct (update_conflicting_run cfg e r conflict Hv Hi Hc Hrev) as (e' & Hrun & ? & ? & Hs & ? & ?).
  exists e'. split_and!; try done. by rw Hs.
Qed.

(** An acknowledgement of data in flight does not panic, keeps the entry valid, never moves the
    matching log id back, and leaves exactly the unacknowledged rest in flight. *)
Theorem update_matching_spec e upto :
  ProgressEntry.validate e = true → acknowledges e.(inflight) upto →
  ∃ e', Updater.update_matching e upto = Done e' ∧ ProgressEntry.validate e' = true ∧
    e'.(matching) = upto ∧ e.(matching) ⪯ upto ∧ (e.(searching_end) ≤ e'.(searching_end))%N ∧
    e'.(inflight) = match e.(inflight) with
                    | Inflight_Logs r => Inflight.logs upto r.(LogId.last)
                    | _ => Inflight_None
                    end.
Proof.
  intros Hv Hack. destruct (update_matching_run e upto Hv Hack) as (e' & ? & ? & ? & ? & Hs & ?).
  exists e'. split_and!; try done. rw Hs. lia.
Qed.

End progress_entry_properties.

(** ** Witnesses: a leader with the entries 1..39 of one term, a snapshot up to 3, purging up to 2 *)
Section progress_entry_witnesses.
#[local] Existing Instance UTConfig.

Inductive UtLog := ut_log.
#[local] Instance ut_log_reader : LogStateReader UtLog := {|
  ref_log_id _ i := if ((1 <=? i) && (i <? 40))%N then Some (ut_log_id 1 1 i) else None;
  last_log_id _ := Some (ut_log_id 1 1 39);
  committed _ := Some (ut_log_id 1 1 30);
  io_applied _ := Some (ut_log_id 1 1 30);
  io_snapshot_last_log_id _ := Some (ut_log_id 1 1 3);
  io_purged _ := Some (ut_log_id 1 1 1);
  snapshot_last_log_id _ := Some (ut_log_id 1 1 3);
  purge_upto _ := Some (ut_log_id 1 1 2);
  last_purged_log_id _ := Some (ut_log_id 1 1 1);
|}.

Lemma ut_log_ok : log_state_ok ut_log.
Proof.
  split; cbn; try lia.
  - intros i x. case_match; [|done]. by intros [= <-].
  - intros i Hlo Hhi. destruct (N.leb_spec 1 i), (N.ltb_spec i 40); try lia. done.
  - assert (∀ x, in_log ut_log x → x.(leader_id) = LeaderIdAdv.new 1 1) as Hl.
    { intros x [[i Hx]|[= <-]]; [|done]. cbn in Hx. case_match; [|done]. by injection Hx as <-. }
    intros x y Hx%Hl Hy%Hl _. rw Hx Hy. apply ole_refl.
Qed.

Lemma ut_matching_ok : matching_ok ut_log (ProgressEntry.empty 40).(matching).
Proof. done. Qed.


Definition ut_inflight_entry : ProgressEntry :=
  ProgressEntry.set_inflight (ProgressEntry.empty 40)
    (Inflight_Logs (LogIdRange_new (Some (ut_log_id 1 1 15)) (Some (ut_log_id 1 1 20)))).

Lemma update_conflicting_witness :
  ∃ e', Updater.update_conflicting (EngineConfig.new_default 1) ut_inflight_entry 15 = Done e' ∧
    ProgressEntry.validate e' = true.
Proof.
  destruct (update_conflicting_spec (EngineConfig.new_default 1) ut_inflight_entry _ 15 eq_refl eq_refl eq_refl)
    as (e' & ? & ? & _); [by vm_compute|eauto].
Defined.

Lemma update_matching_witness :
  ∃ e', Updater.update_matching ut_inflight_entry (Some (ut_log_id 1 1 18)) = Done e' ∧
    ProgressEntry.validate e' = true.
Proof.
  destruct (update_matching_spec ut_inflight_entry (Some (ut_log_id 1 1 18)) eq_refl)
    as (e' & ? & ? & _); [by vm_compute|eauto].
Defined.

End progress_entry_witnesses.
