(* ===== verification/IOState.v ===== *)
(** * IO state (openraft/src/raft_state/io_state.rs, io_state/)

    [IOId] identifies a write to the log store: saving a vote, or appending entries on behalf of a
    leader.  [IOProgress] tracks how far writes have been accepted, submitted and flushed; the ids
    only move forward.  [IOState] adds what is applied, snapshotted and purged. *)

From S2P Require Export Vote.

Record LogIOId {C : RaftTypeConfig} := { committed_vote : CommittedVote; log_id : option LogId }.

Inductive IOId {C : RaftTypeConfig} :=
| IOId_Vote (v : NonCommittedVote)
| IOId_Log (l : LogIOId).

#[global] Instance log_io_id_eq_dec {C : RaftTypeConfig} : EqDecision LogIOId.
Proof. solve_decision. Defined.
#[global] Instance io_id_eq_dec {C : RaftTypeConfig} : EqDecision IOId.
Proof. solve_decision. Defined.

Module IOId.
Section ops.
Context {C : RaftTypeConfig}.

Definition new_vote_io (vote : NonCommittedVote) : IOId := IOId_Vote vote.
Definition new_log_io (committed_vote : CommittedVote) (last_log_id : option LogId) : IOId :=
  IOId_Log {| committed_vote := committed_vote; log_id := last_log_id |}.
Definition new (vote : Vote) : IOId :=
  if is_committed vote then new_log_io (to_committed vote) None else new_vote_io (to_non_committed vote).

Definition to_vote (i : IOId) : Vote :=
  match i with
  | IOId_Vote v => non_committed_into_vote v
  | IOId_Log l => committed_into_vote l.(committed_vote)
  end.
Definition as_ref_vote (i : IOId) : RefVote :=
  match i with
  | IOId_Vote v => non_committed_as_ref_vote v
  | IOId_Log l => committed_as_ref_vote l.(committed_vote)
  end.
Definition last_log_id (i : IOId) : option LogId :=
  match i with IOId_Vote _ => None | IOId_Log l => l.(log_id) end.

Definition partial_cmp (a b : IOId) : Outcome (option comparison) :=
  res ← RefVote_partial_cmp (as_ref_vote a) (as_ref_vote b);
  match res with
  | None => Done None
  | Some Lt => Done (Some Lt)
  | Some Gt => Done (Some Gt)
  | Some Eq => Done (Some (cmp (last_log_id a) (last_log_id b)))
  end.

(** [a <= b] *)
Definition le (a b : IOId) : Outcome bool :=
  (λ c, match c with Some Lt | Some Eq => true | _ => false end) <$> partial_cmp a b.
(** [a < b] *)
Definition lt (a b : IOId) : Outcome bool :=
  (λ c, match c with Some Lt => true | _ => false end) <$> partial_cmp a b.
End ops.
End IOId.

(** ** [IOProgress] *)
Record IOProgress (T : Type) := { accepted : option T; submitted : option T; flushed : option T }.
Arguments accepted {T} _.
Arguments submitted {T} _.
Arguments flushed {T} _.

Module IOProgress.
Section ops.
Context {T : Type} (le : T → T → Outcome bool).

Definition default : IOProgress T := {| accepted := None; submitted := None; flushed := None |}.

(** [Option::is_none_or] *)
Definition is_none_or (o : option T) (f : T → Outcome bool) : Outcome bool :=
  match o with None => Done true | Some x => f x end.

Definition accept (p : IOProgress T) (new_accepted : T) : Outcome (IOProgress T) :=
  b ← is_none_or p.(accepted) (λ accepted, le accepted new_accepted);
  _ ← assert_ b "expect accepted < new_accepted";
  Done {| accepted := Some new_accepted; submitted := p.(submitted); flushed := p.(flushed) |}.
Definition submit (p : IOProgress T) (new_submitted : T) : Outcome (IOProgress T) :=
  b ← is_none_or p.(submitted) (λ submitted, le submitted new_submitted);
  _ ← assert_ b "expect submitted < new_submitted";
  Done {| accepted := p.(accepted); submitted := Some new_submitted; flushed := p.(flushed) |}.
Definition flush (p : IOProgress T) (new_flushed : T) : Outcome (IOProgress T) :=
  b ← is_none_or p.(flushed) (λ flushed, le flushed new_flushed);
  _ ← assert_ b "expect flushed < new_flushed";
  Done {| accepted := p.(accepted); submitted := p.(submitted); flushed := Some new_flushed |}.

(** [less_equal!] on [Option]s: [None] is the least. *)
Definition opt_le (a b : option T) : Outcome bool :=
  match a, b with
  | None, _ => Done true
  | Some _, None => Done false
  | Some a, Some b => le a b
  end.

Definition validate (p : IOProgress T) : Outcome bool :=
  a ← opt_le p.(flushed) p.(submitted);
  if negb a then Done false else opt_le p.(submitted) p.(accepted).
End ops.
End IOProgress.

(** ** [IOState] *)
Record IOState {C : RaftTypeConfig} := {
  building_snapshot : bool;
  io_progress : IOProgress IOId;
  applied : option LogId;
  snapshot : option LogId;
  purged : option LogId;
}.

Module IOState.
Section ops.
Context {C : RaftTypeConfig}.

Definition default : IOState :=
  {| building_snapshot := false; io_progress := IOProgress.default; applied := None; snapshot := None;
     purged := None |}.

Definition set_io_progress (s : IOState) (p : IOProgress IOId) : IOState :=
  {| building_snapshot := s.(building_snapshot); io_progress := p; applied := s.(applied);
     snapshot := s.(snapshot); purged := s.(purged) |}.

Definition new (vote : Vote) (applied snapshot purged : option LogId) : Outcome IOState :=
  p ← IOProgress.accept IOId.le IOProgress.default (IOId.new vote);
  p ← IOProgress.submit IOId.le p (IOId.new vote);
  p ← IOProgress.flush IOId.le p (IOId.new vote);
  Done {| building_snapshot := false; io_progress := p; applied := applied; snapshot := snapshot;
          purged := purged |}.

Definition validate (s : IOState) : Outcome bool :=
  b ← IOProgress.validate IOId.le s.(io_progress);
  Done (b && (s.(snapshot) ⪯? s.(applied)) && (s.(purged) ⪯? s.(snapshot))).

Definition update_applied (s : IOState) (log_id : option LogId) : Outcome IOState :=
  _ ← assert_ (s.(applied) ≺? log_id) "applied log id should be monotonically increasing";
  Done {| building_snapshot := s.(building_snapshot); io_progress := s.(io_progress); applied := log_id;
          snapshot := s.(snapshot); purged := s.(purged) |}.

Definition update_snapshot (s : IOState) (log_id : option LogId) : Outcome IOState :=
  _ ← assert_ (s.(snapshot) ⪯? log_id) "snapshot log id should be monotonically increasing";
  Done {| building_snapshot := s.(building_snapshot); io_progress := s.(io_progress); applied := s.(applied);
          snapshot := log_id; purged := s.(purged) |}.

Definition set_building_snapshot (s : IOState) (building : bool) : IOState :=
  {| building_snapshot := building; io_progress := s.(io_progress); applied := s.(applied);
     snapshot := s.(snapshot); purged := s.(purged) |}.

Definition update_purged (s : IOState) (log_id : option LogId) : IOState :=
  {| building_snapshot := s.(building_snapshot); io_progress := s.(io_progress); applied := s.(applied);
     snapshot := s.(snapshot); purged := log_id |}.
End ops.
End IOState.

(** ** The order of IO ids *)
Section io_id_order.
Context {C : RaftTypeConfig}.
Implicit Types a b c : IOId.

Lemma io_as_ref_vote a : IOId.as_ref_vote a = as_ref_vote (IOId.to_vote a).
Proof. by destruct a. Qed.

(** The order the proofs use: by vote, then by the last log id. *)
Definition io_le a b : Prop :=
  vote_lt (IOId.to_vote a) (IOId.to_vote b) ∨
  IOId.to_vote a = IOId.to_vote b ∧ IOId.last_log_id a ⪯ IOId.last_log_id b.

Lemma io_le_refl a : io_le a a.
Proof. right. split; [done|apply ole_refl]. Qed.

Lemma io_le_trans a b c : io_le a b → io_le b c → io_le a c.
Proof.
  intros [H1|[H1 H1']] [H2|[H2 H2']].
  - left. by eapply vote_lt_trans.
  - left. by rw -H2.
  - left. by rw H1.
  - right. split; [congruence|order].
Qed.

Lemma io_le_vote a b : io_le a b → vote_le (IOId.to_vote a) (IOId.to_vote b).
Proof. intros [?|[? _]]; rw /vote_le; auto. Qed.

Lemma io_le_spec a b :
  vote_compat (IOId.to_vote a) (IOId.to_vote b) → ∃ r, IOId.le a b = Done r ∧ (r = true ↔ io_le a b).
Proof.
  intros Hc. rw /IOId.le /IOId.partial_cmp !io_as_ref_vote partial_cmp_spec; [done|]. cbn [mbind outcome_bind].
  rw /io_le /vote_lt. destruct (vote_cmp _ _) as [[]|] eqn:E; eexists.
  - split; [done|]. apply vote_cmp_eq in E. rw E /ole.
    destruct (cmp _ _); naive_solver.
  - split; [done|]. naive_solver.
  - split; [done|]. split; [done|]. intros [?|[Heq _]]; [done|]. rw Heq vote_cmp_refl in E. done.
  - split; [done|]. split; [done|]. intros [?|[Heq _]]; [done|]. rw Heq vote_cmp_refl in E. done.
Qed.

Definition io_opt_le (a b : option IOId) : Prop :=
  match a, b with None, _ => True | Some _, None => False | Some a, Some b => io_le a b end.

(** Every two of the tracked ids have comparable votes. *)
Definition io_compat (a b : option IOId) : Prop :=
  match a, b with Some a, Some b => vote_compat (IOId.to_vote a) (IOId.to_vote b) | _, _ => True end.

Lemma io_opt_le_spec (a b : option IOId) :
  io_compat a b → ∃ r, IOProgress.opt_le IOId.le a b = Done r ∧ (r = true ↔ io_opt_le a b).
Proof.
  destruct a as [a|], b as [b|]; cbn; intros Hc; eauto; [by apply io_le_spec|..];
    eexists; (split; [done|]); naive_solver.
Qed.

Lemma io_advance (o : option IOId) new :
  io_opt_le o (Some new) → io_compat o (Some new) →
  IOProgress.is_none_or o (λ x, IOId.le x new) = Done true.
Proof.
  destruct o as [o|]; cbn; [|done]. intros Hle Hc. destruct (io_le_spec o new Hc) as (r & -> & Hr).
  apply Hr in Hle as ->. done.
Qed.

(** [flushed <= submitted <= accepted] *)
Definition io_progress_ok (p : IOProgress IOId) : Prop :=
  io_opt_le p.(flushed) p.(submitted) ∧ io_opt_le p.(submitted) p.(accepted).

Lemma io_opt_le_trans (a b c : option IOId) : io_opt_le a b → io_opt_le b c → io_opt_le a c.
Proof. destruct a, b, c; cbn; try done. apply io_le_trans. Qed.

Lemma io_progress_ok_validate p :
  io_compat p.(flushed) p.(submitted) → io_compat p.(submitted) p.(accepted) →
  ∃ r, IOProgress.validate IOId.le p = Done r ∧ (r = true ↔ io_progress_ok p).
Proof.
  intros H1 H2. rw /IOProgress.validate /io_progress_ok.
  destruct (io_opt_le_spec _ _ H1) as (r1 & -> & Hr1), (io_opt_le_spec _ _ H2) as (r2 & Hr2' & Hr2).
  cbn. destruct r1; cbn; [rw Hr2'|]; eexists; (split; [done|]); naive_solver.
Qed.
End io_id_order.

(** The id [x] and the ids tracked by [p]. *)
Definition tracked {C : RaftTypeConfig} (p : IOProgress IOId) (x : IOId) : list IOId :=
  omap id [Some x; p.(accepted); p.(submitted); p.(flushed)].

(** The write protocol keeps [flushed <= submitted <= accepted].  Accepting an id that is not
    below the accepted one, submitting one that was accepted, and flushing one that was submitted
    never panic, never move an id backwards, and leave a progress that [validate]s. *)
Theorem io_progress_protocol {C : RaftTypeConfig} (p : IOProgress IOId) (x : IOId) :
  io_progress_ok p →
  (∀ a b, a ∈ tracked p x → b ∈ tracked p x → vote_compat (IOId.to_vote a) (IOId.to_vote b)) →
  IOProgress.validate IOId.le p = Done true ∧
  (io_opt_le p.(accepted) (Some x) → ∃ p', IOProgress.accept IOId.le p x = Done p' ∧
     p'.(accepted) = Some x ∧ io_opt_le p.(accepted) p'.(accepted) ∧ IOProgress.validate IOId.le p' = Done true) ∧
  (io_opt_le p.(submitted) (Some x) → io_opt_le (Some x) p.(accepted) →
     ∃ p', IOProgress.submit IOId.le p x = Done p' ∧ p'.(submitted) = Some x ∧
     io_opt_le p.(submitted) p'.(submitted) ∧ IOProgress.validate IOId.le p' = Done true) ∧
  (io_opt_le p.(flushed) (Some x) → io_opt_le (Some x) p.(submitted) →
     ∃ p', IOProgress.flush IOId.le p x = Done p' ∧ p'.(flushed) = Some x ∧
     io_opt_le p.(flushed) p'.(flushed) ∧ IOProgress.validate IOId.le p' = Done true).
Proof.
  intros [Hfs Hsa] Hcompat.
  assert (∀ a b, a ∈ [Some x; p.(accepted); p.(submitted); p.(flushed)] →
                 b ∈ [Some x; p.(accepted); p.(submitted); p.(flushed)] → io_compat a b) as Hc.
  { intros [a|] [b|] Ha Hb; cbn; auto. apply Hcompat; apply list_elem_of_omap; eauto. }
  assert (∀ p', io_compat p'.(flushed) p'.(submitted) → io_compat p'.(submitted) p'.(accepted) →
            io_progress_ok p' → IOProgress.validate IOId.le p' = Done true) as Hval.
  { intros p' H1 H2 Hp'. destruct (io_progress_ok_validate p' H1 H2) as (r & -> & Hr). by apply Hr in Hp' as ->. }
  assert (io_compat (accepted p) (Some x) ∧ io_compat (submitted p) (Some x) ∧ io_compat (flushed p) (Some x) ∧
    io_compat (Some x) (accepted p) ∧ io_compat (Some x) (submitted p) ∧
    io_compat (flushed p) (submitted p) ∧ io_compat (submitted p) (accepted p)) as (?&?&?&?&?&?&?).
  { split_and!; apply Hc; set_solver. }
  split_and!; [by apply Hval|..].
  - intros Hle. rw /IOProgress.accept io_advance //=. eexists. split_and!; [done..|].
    apply Hval; [done..|]. split; [done|]. by eapply io_opt_le_trans.
  - intros Hle Hle'. rw /IOProgress.submit io_advance //=. eexists. split_and!; [done..|].
    apply Hval; [done..|]. split; [by eapply io_opt_le_trans|done].
  - intros Hle Hle'. rw /IOProgress.flush io_advance //=. eexists. split_and!; [done..|].
    apply Hval; [done..|]. by split.
Qed.

Section io_witness.
#[local] Existing Instance UTConfig.

Lemma io_progress_protocol_witness :
  ∃ p', IOProgress.accept IOId.le IOProgress.default (IOId.new (Vote_new 1 2)) = Done p' ∧
    IOProgress.validate IOId.le p' = Done true.
Proof.
  destruct (io_progress_protocol IOProgress.default (IOId.new (Vote_new 1 2))) as (_ & Ha & _).
  - done.
  - intros a b _ _. rw /vote_compat. done.
  - destruct (Ha I) as (p' & ? & _ & _ & ?). eauto.
Defined.
End io_witness.
