(* ===== verification/Membership.v ===== *)
(** * Cluster membership (openraft/src/membership/, raft_state/membership_state/, change_members.rs)

    [Membership] is a joint configuration of voter sets and the nodes of all members;
    [EffectiveMembership] adds the log id it was proposed with and the quorum set the leader uses;
    [MembershipState] keeps the last committed and the effective one.  [Membership.change] and
    [ChangeHandler.apply] compute the next configuration of a change request.  The theorems show
    that a change only yields valid configurations that are coherent with the current one, that it
    reaches its goal in two steps, that it is refused while another one is in progress, and that
    every operation keeps the committed membership at or before the effective one. *)

From S2P Require Export LogId Quorum.

Section types.
Context {C : RaftTypeConfig}.

Record Membership := { configs : list (gset NodeId); nodes : gmap NodeId Node }.

Record StoredMembership := { stored_log_id : option LogId; stored_membership_ : Membership }.

Record EffectiveMembership := {
  stored_membership : StoredMembership;
  em_quorum_set : Joint (list NodeId);
  em_voter_ids : gset NodeId;
}.

Inductive ChangeMembers :=
| AddVoterIds (ids : gset NodeId)
| AddVoters (voters : gmap NodeId Node)
| RemoveVoters (ids : gset NodeId)
| ReplaceAllVoters (ids : gset NodeId)
| AddNodes (nodes : gmap NodeId Node)
| SetNodes (nodes : gmap NodeId Node)
| RemoveNodes (ids : gset NodeId)
| ReplaceAllNodes (nodes : gmap NodeId Node).

(** [Operation::None] is the only operation [ensure_valid] reports. *)
Inductive MembershipError := ME_EmptyMembership | ME_NodeNotFound (node_id : NodeId).

Inductive ChangeMembershipError :=
| InProgress (committed membership_log_id : option LogId)
| EmptyMembership
| LearnerNotFound (node_id : NodeId).

(** [impl From<MembershipError> for ChangeMembershipError] *)
Definition from_membership_error (e : MembershipError) : ChangeMembershipError :=
  match e with
  | ME_EmptyMembership => EmptyMembership
  | ME_NodeNotFound node_id => LearnerNotFound node_id
  end.

#[global] Instance membership_eq_dec : EqDecision Membership.
Proof. solve_decision. Defined.
#[global] Instance stored_membership_eq_dec : EqDecision StoredMembership.
Proof. solve_decision. Defined.
End types.

(** ** [Membership] *)
Module Membership.
Section ops.
Context {C : RaftTypeConfig}.
Implicit Types m : Membership.

Definition default : Membership := {| configs := []; nodes := ∅ |}.
Definition new_unchecked (configs : list (gset NodeId)) (nodes : gmap NodeId Node) : Membership :=
  {| configs := configs; nodes := nodes |}.

(** [impl From<BTreeMap<NodeId, Node>> for Membership] *)
Definition from_nodes (b : gmap NodeId Node) : Membership := new_unchecked [dom b] b.

Definition get_node m (node_id : NodeId) : option Node := m.(nodes) !! node_id.
Definition voter_ids m : list NodeId := qs_ids (Joint_new m.(configs)).
Definition contains m (node_id : NodeId) : bool := bool_decide (is_Some (m.(nodes) !! node_id)).
Definition is_voter m (node_id : NodeId) : bool :=
  existsb (λ c : gset NodeId, bool_decide (node_id ∈ c)) m.(configs).
Definition learner_ids m : list NodeId :=
  filter (λ x, is_voter m x = false) (btree_iter (dom m.(nodes))).

(** [for (k, v) in new.iter() { if res.contains_key(k) { continue; } res.insert(k, v); }] *)
Definition extend_nodes (old new : gmap NodeId Node) : gmap NodeId Node :=
  foldl (λ res '(k, v), if decide (is_Some (res !! k)) then res else <[k := v]> res) old (map_to_list new).

Definition ensure_non_empty_config m : Result unit MembershipError :=
  if existsb (λ c : gset NodeId, bool_decide (c = ∅)) m.(configs) then RErr ME_EmptyMembership else ROk tt.

Fixpoint find_missing (nodes : gmap NodeId Node) (ids : list NodeId) : option NodeId :=
  match ids with
  | [] => None
  | id :: ids => if decide (is_Some (nodes !! id)) then find_missing nodes ids else Some id
  end.
Definition ensure_voter_nodes m : Result unit NodeId :=
  match find_missing m.(nodes) (voter_ids m) with Some id => RErr id | None => ROk tt end.

Definition ensure_valid m : Result unit MembershipError :=
  match ensure_non_empty_config m with
  | RErr e => RErr e
  | ROk _ =>
      match ensure_voter_nodes m with
      | RErr nid => RErr (ME_NodeNotFound nid)
      | ROk _ => ROk tt
      end
  end.

Definition new (config : list (gset NodeId)) (nodes : gmap NodeId Node) : Result Membership MembershipError :=
  let m := {| configs := config; nodes := nodes |} in
  match ensure_valid m with RErr e => RErr e | ROk _ => ROk m end.

Definition next_coherent m (goal : gset NodeId) (retain : bool) : Membership :=
  let config := (find_coherent (Joint_new m.(configs)) goal).(children) in
  let nodes :=
    if negb retain then
      let old_voter_ids : gset NodeId := list_to_set (qs_ids (Joint_new m.(configs))) in
      let new_voter_ids : gset NodeId := list_to_set (qs_ids (Joint_new config)) in
      foldl (λ nodes node_id, delete node_id nodes) m.(nodes) (btree_iter (old_voter_ids ∖ new_voter_ids))
    else m.(nodes) in
  new_unchecked config nodes.

Definition change_unchecked m (change : ChangeMembers) (retain : bool) : Membership :=
  let last := from_option id ∅ (list.last m.(configs)) in
  match change with
  | AddVoterIds add_voter_ids => next_coherent m (last ∪ add_voter_ids) retain
  | AddVoters add_voters =>
      let m := {| configs := m.(configs); nodes := extend_nodes m.(nodes) add_voters |} in
      next_coherent m (last ∪ dom add_voters) retain
  | RemoveVoters remove_voter_ids => next_coherent m (last ∖ remove_voter_ids) retain
  | ReplaceAllVoters all_voter_ids => next_coherent m all_voter_ids retain
  | AddNodes add_nodes =>
      {| configs := m.(configs);
         nodes := foldl (λ ns '(k, v), if decide (is_Some (ns !! k)) then ns else <[k := v]> ns)
                    m.(nodes) (map_to_list add_nodes) |}
  | SetNodes set_nodes =>
      {| configs := m.(configs);
         nodes := foldl (λ ns '(k, v), <[k := v]> ns) m.(nodes) (map_to_list set_nodes) |}
  | RemoveNodes remove_node_ids =>
      {| configs := m.(configs);
         nodes := foldl (λ ns k, delete k ns) m.(nodes) (btree_iter remove_node_ids) |}
  | ReplaceAllNodes all_nodes => {| configs := m.(configs); nodes := all_nodes |}
  end.

Definition change m (change : ChangeMembers) (retain : bool) : Result Membership ChangeMembershipError :=
  let new_membership := change_unchecked m change retain in
  match ensure_valid new_membership with
  | RErr e => RErr (from_membership_error e)
  | ROk _ => ROk new_membership
  end.

Definition to_quorum_set m : Joint (list NodeId) := Joint_new (btree_iter <$> m.(configs)).
End ops.
End Membership.

(** ** [EffectiveMembership] *)
Module EffectiveMembership.
Section ops.
Context {C : RaftTypeConfig}.
Implicit Types e : EffectiveMembership.

Definition new (log_id : option LogId) (membership : Membership) : EffectiveMembership := {|
  stored_membership := {| stored_log_id := log_id; stored_membership_ := membership |};
  em_quorum_set := Joint_new (btree_iter <$> membership.(configs));
  em_voter_ids := list_to_set (Membership.voter_ids membership);
|}.
Definition new_from_stored_membership (stored : StoredMembership) : EffectiveMembership :=
  new stored.(stored_log_id) stored.(stored_membership_).
Definition default : EffectiveMembership := new None Membership.default.

Definition log_id e : option LogId := e.(stored_membership).(stored_log_id).
Definition membership e : Membership := e.(stored_membership).(stored_membership_).
Definition is_voter e (nid : NodeId) : bool := Membership.is_voter (membership e) nid.
Definition voter_ids e : list NodeId := btree_iter e.(em_voter_ids).
Definition learner_ids e : list NodeId := Membership.learner_ids (membership e).
Definition get_node e (node_id : NodeId) : option Node := Membership.get_node (membership e) node_id.
Definition get_joint_config e : list (list NodeId) := e.(em_quorum_set).(children).
End ops.
End EffectiveMembership.

(** ** [MembershipState] and [ChangeHandler] *)
Record MembershipState {C : RaftTypeConfig} := {
  ms_committed : EffectiveMembership;
  ms_effective : EffectiveMembership;
}.

Module MembershipState.
Section ops.
Context {C : RaftTypeConfig}.
Implicit Types s : MembershipState.
Import EffectiveMembership.

Definition new (committed effective : EffectiveMembership) : MembershipState :=
  {| ms_committed := committed; ms_effective := effective |}.
Definition default : MembershipState := new EffectiveMembership.default EffectiveMembership.default.

Definition contains s (id : NodeId) : bool := Membership.contains (membership s.(ms_effective)) id.
Definition is_voter s (id : NodeId) : bool := Membership.is_voter (membership s.(ms_effective)) id.

Definition commit s (committed_log_id : option LogId) : Outcome MembershipState :=
  if log_id s.(ms_effective) ⪯? committed_log_id then
    _ ← assert_ (opt_index (log_id s.(ms_effective)) ⪯? opt_index committed_log_id)
          "committed_log_id.index() >= effective.log_id().index()";
    Done {| ms_committed := s.(ms_effective); ms_effective := s.(ms_effective) |}
  else Done s.

Definition update_committed s (c : EffectiveMembership) :
    Outcome (option EffectiveMembership * MembershipState) :=
  let '(changed, effective) :=
    if opt_index (log_id s.(ms_effective)) ⪯? opt_index (log_id c)
    then (bool_decide (membership c ≠ membership s.(ms_effective)), c)
    else (false, s.(ms_effective)) in
  _ ← (if bool_decide (log_id c = log_id s.(ms_committed))
       then assert_ (bool_decide (membership c = membership s.(ms_committed)))
              "the same log id implies the same membership"
       else Done tt);
  let committed := if log_id s.(ms_committed) ≺? log_id c then c else s.(ms_committed) in
  Done (if (changed : bool) then Some effective else None,
        {| ms_committed := committed; ms_effective := effective |}).

Definition append s (m : EffectiveMembership) : Outcome MembershipState :=
  _ ← assert_ (log_id s.(ms_effective) ≺? log_id m) "new membership has to have a greater log_id";
  _ ← assert_ (opt_index (log_id s.(ms_effective)) ≺? opt_index (log_id m))
        "new membership has to have a greater index";
  Done {| ms_committed := s.(ms_effective); ms_effective := m |}.

Definition truncate s (since : N) : Outcome (option EffectiveMembership * MembershipState) :=
  _ ← assert_ (next_index (log_id s.(ms_committed)) <=? since)%N "committed log should never be truncated";
  if Some since ⪯? opt_index (log_id s.(ms_effective)) then
    Done (Some s.(ms_committed), {| ms_committed := s.(ms_committed); ms_effective := s.(ms_committed) |})
  else Done (None, s).

Definition validate s : bool :=
  (log_id s.(ms_committed) ⪯? log_id s.(ms_effective)) &&
  (opt_index (log_id s.(ms_committed)) ⪯? opt_index (log_id s.(ms_effective))).
End ops.
End MembershipState.

Module ChangeHandler.
Section ops.
Context {C : RaftTypeConfig}.

Definition ensure_committed (s : MembershipState) : Result unit ChangeMembershipError :=
  let effective := s.(ms_effective) in
  let committed := s.(ms_committed) in
  if bool_decide (EffectiveMembership.log_id effective = EffectiveMembership.log_id committed) then ROk tt
  else RErr (InProgress (EffectiveMembership.log_id committed) (EffectiveMembership.log_id effective)).

Definition apply (s : MembershipState) (change : ChangeMembers) (retain : bool) :
    Result Membership ChangeMembershipError :=
  match ensure_committed s with
  | RErr e => RErr e
  | ROk _ => Membership.change (EffectiveMembership.membership s.(ms_effective)) change retain
  end.
End ops.
End ChangeHandler.

(** ** Lemmas *)

(** No empty voter set, and a node for every voter. *)
Definition membership_valid {C : RaftTypeConfig} (m : Membership) : Prop :=
  ∅ ∉ m.(configs) ∧ ∀ c id, c ∈ m.(configs) → id ∈ c → is_Some (m.(nodes) !! id).

Section membership_lemmas.
Context {C : RaftTypeConfig}.
Import Membership.
Implicit Types m : Membership.

Lemma elem_of_voter_ids m id : id ∈ voter_ids m ↔ ∃ c, c ∈ m.(configs) ∧ id ∈ c.
Proof.
  rw /voter_ids joint_elem_ids. cbn. setoid_rewrite elem_of_btree_iter. done.
Qed.

Lemma is_voter_elem m id : is_voter m id = true ↔ ∃ c, c ∈ m.(configs) ∧ id ∈ c.
Proof.
  rw /is_voter existsb_exists. setoid_rewrite bool_decide_eq_true.
  setoid_rewrite <- list_elem_of_In. done.
Qed.

Lemma find_missing_None ns ids : find_missing ns ids = None ↔ ∀ id, id ∈ ids → is_Some (ns !! id).
Proof.
  induction ids as [|i ids IH]; cbn; [set_solver|]. setoid_rewrite elem_of_cons.
  case_decide as Hd; [|naive_solver]. rw IH. naive_solver.
Qed.

Lemma find_missing_Some ns ids id : find_missing ns ids = Some id → id ∈ ids ∧ ns !! id = None.
Proof.
  induction ids as [|i ids IH]; cbn; [done|]. rw elem_of_cons. case_decide as Hd; [naive_solver|].
  intros [= <-]. split; [by left|]. by apply eq_None_not_Some.
Qed.

Lemma ensure_valid_ok m : ensure_valid m = ROk tt ↔ membership_valid m.
Proof.
  rw /ensure_valid /ensure_non_empty_config /ensure_voter_nodes /membership_valid.
  destruct (existsb _ (configs m)) eqn:He.
  - split; [done|]. intros [Hne _]. apply existsb_exists in He as (c & Hc & ->%bool_decide_eq_true).
    by apply list_elem_of_In in Hc.
  - assert (∅ ∉ configs m) as Hne.
    { intros Hin%list_elem_of_In. apply not_true_iff_false in He. apply He, existsb_exists.
      exists ∅. by rw bool_decide_eq_true. }
    destruct (find_missing _ _) as [id|] eqn:Hf.
    + split; [done|]. intros [_ Hall]. apply find_missing_Some in Hf as [(c & ? & ?)%elem_of_voter_ids Hno].
      destruct (Hall c id) as [x Hx]; [done..|]. congruence.
    + split; [|done]. intros _. split; [done|]. intros c id Hc Hid.
      apply (proj1 (find_missing_None _ _) Hf). apply elem_of_voter_ids. eauto.
Qed.

Lemma change_ok m c retain m' :
  change m c retain = ROk m' ↔ m' = change_unchecked m c retain ∧ membership_valid m'.
Proof.
  rw /change. destruct (ensure_valid _) as [[]|e] eqn:He.
  - apply ensure_valid_ok in He. naive_solver.
  - split; [done|]. intros [-> Hv%ensure_valid_ok]. congruence.
Qed.

(** The voter set a request asks for; [None] when it does not change the voters. *)
Definition change_goal m (c : ChangeMembers) : option (gset NodeId) :=
  let last := from_option id ∅ (list.last m.(configs)) in
  match c with
  | AddVoterIds ids => Some (last ∪ ids)
  | AddVoters vs => Some (last ∪ dom vs)
  | RemoveVoters ids => Some (last ∖ ids)
  | ReplaceAllVoters ids => Some ids
  | _ => None
  end.

Lemma change_configs m c retain :
  (change_unchecked m c retain).(configs) =
    match change_goal m c with
    | Some goal => (find_coherent (Joint_new m.(configs)) goal).(children)
    | None => m.(configs)
    end.
Proof. by destruct c. Qed.

Lemma joint_children {QS} (j : Joint QS) : Joint_new j.(children) = j.
Proof. by destruct j. Qed.

Lemma change_coherent m c retain :
  m.(configs) ≠ [] →
  is_coherent_with (Joint_new m.(configs)) (Joint_new (change_unchecked m c retain).(configs)) = true.
Proof.
  intros Hne. rw change_configs. destruct (change_goal m c) as [goal|].
  - rw joint_children. by apply find_coherent_self.
  - apply is_coherent_with_spec. destruct m.(configs) as [|x l]; [done|]. exists x. cbn. set_solver.
Qed.

Lemma count_quorum_ext f g limit count ids :
  (∀ x, f x = g x) → count_quorum f limit count ids = count_quorum g limit count ids.
Proof.
  intros Hfg. revert count. induction ids as [|x ids IH]; intros count; cbn; [done|].
  rw Hfg. repeat case_match; auto.
Qed.

(** The vectors the leader counts quorums with agree with the voter sets. *)
Lemma btree_vec_quorum (c : gset NodeId) ids : is_quorum (btree_iter c) ids = is_quorum c ids.
Proof.
  cbn. rw /vec_is_quorum /btree_is_quorum btree_iter_length. apply count_quorum_ext.
  intros x. apply bool_decide_ext, elem_of_btree_iter.
Qed.

Lemma to_quorum_set_quorum m ids : is_quorum (to_quorum_set m) ids = is_quorum (Joint_new m.(configs)) ids.
Proof.
  rw /to_quorum_set. cbn. induction m.(configs) as [|c l IH]; [done|].
  rw fmap_cons. cbn [joint_is_quorum]. by rw btree_vec_quorum IH.
Qed.

Lemma em_quorum_set_eq lid m : (EffectiveMembership.new lid m).(em_quorum_set) = to_quorum_set m.
Proof. done. Qed.

Lemma find_coherent_last m goal :
  list.last (find_coherent (Joint_new m.(configs)) goal).(children) = Some goal.
Proof. rw find_coherent_children. repeat case_match; done. Qed.

Lemma foldl_delete (l : list NodeId) (ns : gmap NodeId Node) id :
  foldl (λ ns k, delete k ns) ns l !! id = if decide (id ∈ l) then None else ns !! id.
Proof.
  revert ns. induction l as [|k l IH]; intros ns; cbn [foldl].
  - case_decide; [set_solver|done].
  - rw IH. destruct (decide (id = k)) as [->|].
    + rw lookup_delete_eq. repeat case_decide; set_solver.
    + rw lookup_delete_ne; [done|]. repeat case_decide; set_solver.
Qed.

Lemma next_coherent_nodes m goal retain id :
  (next_coherent m goal retain).(nodes) !! id =
    if negb retain && is_voter m id && negb (is_voter (next_coherent m goal retain) id)
    then None else m.(nodes) !! id.
Proof.
  rw /next_coherent. destruct retain; [done|]. cbn [negb andb].
  set (cfg := children _). cbn [new_unchecked nodes]. rw foldl_delete.
  assert (id ∈ btree_iter (list_to_set (qs_ids (Joint_new (configs m))) ∖ list_to_set (qs_ids (Joint_new cfg)) : gset N) ↔
          is_voter m id && negb (is_voter {| configs := cfg; nodes := ∅ |} id) = true) as Hiff.
  { rw elem_of_btree_iter elem_of_difference !elem_of_list_to_set !joint_elem_ids.
    rw andb_true_iff negb_true_iff is_voter_elem -not_true_iff_false is_voter_elem. cbn.
    setoid_rewrite elem_of_btree_iter. done. }
  change (is_voter (new_unchecked cfg _) id) with (is_voter {| configs := cfg; nodes := ∅ |} id).
  destruct (is_voter m id && negb _) eqn:E; case_decide as Hd; try done.
  - destruct Hd. by apply Hiff.
  - by apply Hiff in Hd.
Qed.

(** Flattening a valid configuration to its last voter set is always valid. *)
Lemma flatten_valid m goal retain :
  membership_valid m → list.last m.(configs) = Some goal →
  membership_valid (next_coherent m goal retain) ∧
  (next_coherent m goal retain).(configs) = [goal].
Proof.
  intros [Hne Hall] Hlast.
  assert (goal ∈ m.(configs)) as Hin by (apply last_Some in Hlast as [l ->]; set_solver).
  assert ((next_coherent m goal retain).(configs) = [goal]) as Hc.
  { cbn. rw find_coherent_children. by rw (proj2 (is_coherent_with_one_spec _ _)). }
  split; [|done]. split.
  - rw Hc. intros Hg%list_elem_of_singleton. by rw -Hg in Hin.
  - rw Hc. intros c id ->%list_elem_of_singleton Hid. rw next_coherent_nodes.
    assert (is_voter (next_coherent m goal retain) id = true) as ->.
    { apply is_voter_elem. exists goal. rw Hc. set_solver. }
    rw /= andb_false_r. by eapply Hall.
Qed.
End membership_lemmas.

Section membership_state_lemmas.
Context {C : RaftTypeConfig}.
Import EffectiveMembership.
Implicit Types s : MembershipState.

(** Both the log id and its index are at or below. *)
Definition log_id_le (a b : option LogId) : Prop := a ⪯ b ∧ opt_index a ⪯ opt_index b.

(** Two log ids of one log: their order is the order of their indexes. *)
Definition same_log (a b : option LogId) : Prop := cmp a b = cmp (opt_index a) (opt_index b).

Lemma validate_ms s :
  MembershipState.validate s = true ↔ log_id_le (log_id s.(ms_committed)) (log_id s.(ms_effective)).
Proof. rw /MembershipState.validate andb_true_iff !leb_le. done. Qed.

Lemma log_id_le_refl a : log_id_le a a.
Proof. split; apply ole_refl. Qed.
Lemma log_id_le_trans a b c : log_id_le a b → log_id_le b c → log_id_le a c.
Proof. intros [??] [??]. split; order. Qed.

Lemma same_log_le a b : same_log a b → opt_index a ⪯ opt_index b ↔ a ⪯ b.
Proof. rw /same_log /ole. by intros ->. Qed.
Lemma same_log_lt a b : same_log a b → opt_index a ≺ opt_index b ↔ a ≺ b.
Proof. rw /same_log /olt. by intros ->. Qed.
Lemma same_log_opp a b : same_log a b → same_log b a.
Proof. rw /same_log (cmp_opp a b) (cmp_opp (opt_index a) (opt_index b)). by intros ->. Qed.

Lemma commit_ms s c :
  MembershipState.validate s = true → same_log (log_id s.(ms_effective)) c →
  ∃ s', MembershipState.commit s c = Done s' ∧ MembershipState.validate s' = true ∧
    s'.(ms_effective) = s.(ms_effective) ∧
    s'.(ms_committed) = if log_id s.(ms_effective) ⪯? c then s.(ms_effective) else s.(ms_committed).
Proof.
  intros Hv Hsame. rw /MembershipState.commit. destruct (lebP (log_id (ms_effective s)) c) as [Hle|Hgt].
  - rw (proj2 (leb_le _ _)); [by apply same_log_le|]. cbn [assert_ mbind outcome_bind].
    eexists. split_and!; [done| |done..]. apply validate_ms, log_id_le_refl.
  - by exists s.
Qed.

Lemma append_ms s m :
  log_id s.(ms_effective) ≺ log_id m → opt_index (log_id s.(ms_effective)) ≺ opt_index (log_id m) →
  MembershipState.append s m = Done {| ms_committed := s.(ms_effective); ms_effective := m |} ∧
  MembershipState.validate {| ms_committed := s.(ms_effective); ms_effective := m |} = true.
Proof.
  intros H1 H2. rw /MembershipState.append (proj2 (ltb_lt _ _) H1). cbn [assert_ mbind outcome_bind].
  rw (proj2 (ltb_lt _ _) H2). cbn [assert_ mbind outcome_bind]. split; [done|].
  apply validate_ms. split; by apply olt_le.
Qed.

Lemma truncate_ms s since :
  MembershipState.validate s = true → (next_index (log_id s.(ms_committed)) ≤ since)%N →
  ∃ r s', MembershipState.truncate s since = Done (r, s') ∧ MembershipState.validate s' = true ∧
    s'.(ms_committed) = s.(ms_committed) ∧
    s'.(ms_effective) = (if Some since ⪯? opt_index (log_id s.(ms_effective)) then s.(ms_committed)
                         else s.(ms_effective)) ∧
    (r = if Some since ⪯? opt_index (log_id s.(ms_effective)) then Some s.(ms_committed) else None) ∧
    (next_index (log_id s'.(ms_effective)) ≤ since)%N.
Proof.
  intros Hv Hle. rw /MembershipState.truncate (proj2 (N.leb_le _ _) Hle). cbn [assert_ mbind outcome_bind].
  destruct (lebP (Some since) (opt_index (log_id (ms_effective s)))) as [Hge|Hlt].
  - do 2 eexists. split_and!; try done. apply validate_ms, log_id_le_refl.
  - do 2 eexists. split_and!; try done. destruct (log_id (ms_effective s)) as [e|]; cbn; [|lia].
    assert (index e < since)%N by by apply N_olt. lia.
Qed.

Lemma update_committed_ms s c :
  MembershipState.validate s = true → same_log (log_id c) (log_id s.(ms_committed)) →
  (opt_index (log_id c) ≺ opt_index (log_id s.(ms_effective)) → log_id c ⪯ log_id s.(ms_effective)) →
  (log_id c = log_id s.(ms_committed) → membership c = membership s.(ms_committed)) →
  ∃ r s', MembershipState.update_committed s c = Done (r, s') ∧ MembershipState.validate s' = true ∧
    s'.(ms_committed) = (if log_id s.(ms_committed) ≺? log_id c then c else s.(ms_committed)) ∧
    s'.(ms_effective) = (if opt_index (log_id s.(ms_effective)) ⪯? opt_index (log_id c) then c
                         else s.(ms_effective)) ∧
    r = (if (opt_index (log_id s.(ms_effective)) ⪯? opt_index (log_id c)) &&
            bool_decide (membership c ≠ membership s.(ms_effective)) then Some c else None).
Proof.
  intros Hv Hsame Hconf Heq. apply validate_ms in Hv as Hle. rw /MembershipState.update_committed.
  assert ((if bool_decide (log_id c = log_id s.(ms_committed))
       then assert_ (bool_decide (membership c = membership s.(ms_committed)))
              "the same log id implies the same membership"
       else Done tt) = Done tt) as Hassert.
  { case_bool_decide; [|done]. rw bool_decide_true; [by apply Heq|done]. }
  destruct Hle as [Hle1 Hle2].
  destruct (lebP (opt_index (log_id (ms_effective s))) (opt_index (log_id c))) as [Hge|Hlt];
    rw Hassert; cbn [mbind outcome_bind]; do 2 eexists; (split; [done|]); cbn [ms_committed ms_effective];
    (split; [|done]); apply validate_ms; cbn [ms_committed ms_effective].
  - assert (log_id (ms_committed s) ⪯ log_id c) as Hcc.
    { apply same_log_le; [by apply same_log_opp|]. order. }
    destruct (ltbP (log_id (ms_committed s)) (log_id c)); [apply log_id_le_refl|]. split; [order|].
    order.
  - destruct (ltbP (log_id (ms_committed s)) (log_id c)); [|done].
    split; [by apply Hconf|by apply olt_le].
Qed.
End membership_state_lemmas.

(** ** Properties *)
Section membership_properties.
Context {C : RaftTypeConfig}.
Import Membership.
Implicit Types m : Membership.

(** C28: a successful membership change yields a valid membership (no empty voter set, a node for
    every voter), and every quorum of the old configuration intersects every quorum of the new
    one, counted with the quorum sets the leader uses. *)
Theorem change_safe m c retain m' q1 q2 :
  change m c retain = ROk m' → m.(configs) ≠ [] → NoDup q1 → NoDup q2 →
  is_quorum (to_quorum_set m) q1 = true → is_quorum (to_quorum_set m') q2 = true →
  membership_valid m' ∧ ∃ x, x ∈ q1 ∧ x ∈ q2.
Proof.
  intros [-> Hv]%change_ok Hne Hnd1 Hnd2. rw !to_quorum_set_quorum. intros Hq1 Hq2. split; [done|].
  pose proof (change_coherent m c retain Hne) as (x & Hx1 & Hx2)%is_coherent_with_spec.
  cbn in Hq1, Hq2. rw !joint_is_quorum_spec in Hq1 Hq2.
  apply (quorum_intersect x q1 q2); auto.
Qed.

(** [change] fails exactly when the requested configuration has an empty voter set or a voter
    without a node, and reports which: the node of a [LearnerNotFound] is such a voter. *)
Theorem change_error m c retain :
  match change m c retain with
  | ROk m' => m' = change_unchecked m c retain ∧ membership_valid m'
  | RErr EmptyMembership => ∅ ∈ (change_unchecked m c retain).(configs)
  | RErr (LearnerNotFound id) =>
      ∅ ∉ (change_unchecked m c retain).(configs) ∧
      is_voter (change_unchecked m c retain) id = true ∧
      (change_unchecked m c retain).(nodes) !! id = None
  | RErr (InProgress _ _) => False
  end.
Proof.
  destruct (change m c retain) as [m'|e] eqn:Hch; [by apply change_ok|].
  revert Hch. rw /change. set (m' := change_unchecked m c retain).
  rw /ensure_valid /ensure_non_empty_config /ensure_voter_nodes.
  destruct (existsb _ (configs m')) eqn:He.
  - intros [= <-]. cbn. apply existsb_exists in He as (x & Hx & ->%bool_decide_eq_true).
    by apply list_elem_of_In.
  - destruct (find_missing _ _) as [id|] eqn:Hf; [|done]. intros [= <-]. cbn.
    apply find_missing_Some in Hf as [Hid Hno]. split_and!; [|by apply is_voter_elem, elem_of_voter_ids|done].
    intros Hin%list_elem_of_In. apply not_true_iff_false in He. apply He, existsb_exists.
    exists ∅. by rw bool_decide_eq_true.
Qed.

(** A voter change takes at most two steps: after a successful first step, which enters the
    joint configuration, the flattening step (adding no voter) always succeeds and leaves exactly
    the requested voters; voters dropped on the way stay as learners only if [retain] says so. *)
Theorem change_two_steps m c retain1 retain2 goal m1 :
  change_goal m c = Some goal → change m c retain1 = ROk m1 →
  ∃ m2, change m1 (AddVoterIds ∅) retain2 = ROk m2 ∧ m2.(configs) = [goal] ∧
    ∀ id, m2.(nodes) !! id =
          if negb retain2 && is_voter m1 id && negb (bool_decide (id ∈ goal)) then None
          else m1.(nodes) !! id.
Proof.
  intros Hgoal [-> Hv]%change_ok. set (m1 := change_unchecked m c retain1) in *.
  assert (list.last m1.(configs) = Some goal) as Hlast.
  { rw /m1 change_configs Hgoal. apply find_coherent_last. }
  destruct (flatten_valid m1 goal retain2 Hv Hlast) as [Hv2 Hc2].
  assert (change_unchecked m1 (AddVoterIds ∅) retain2 = next_coherent m1 goal retain2) as Heq.
  { cbn. rw Hlast. cbn. f_equal. set_solver. }
  exists (next_coherent m1 goal retain2). split_and!; [|done|].
  - apply change_ok. by rw Heq.
  - intros id. rw next_coherent_nodes.
    assert (is_voter (next_coherent m1 goal retain2) id = bool_decide (id ∈ goal)) as ->; [|done].
    apply Bool.eq_iff_eq_true. rw is_voter_elem bool_decide_eq_true Hc2. set_solver.
Qed.

(** A change is computed only when the effective membership is committed; otherwise it is
    refused with [InProgress], so there is at most one uncommitted membership. *)
Theorem change_handler_in_progress (s : MembershipState) c retain :
  let e := EffectiveMembership.log_id s.(ms_effective) in
  let cm := EffectiveMembership.log_id s.(ms_committed) in
  (e = cm → ChangeHandler.apply s c retain =
              change (EffectiveMembership.membership s.(ms_effective)) c retain) ∧
  (e ≠ cm → ChangeHandler.apply s c retain = RErr (InProgress cm e)).
Proof.
  cbn. rw /ChangeHandler.apply /ChangeHandler.ensure_committed. split; intros Heq.
  - by rw bool_decide_true.
  - by rw bool_decide_false.
Qed.


(** An empty configuration is not rejected.  The default membership has no voter set at all,
    so the check that none of them is empty passes, and adding a learner to it succeeds although
    the result has no voter. *)
Theorem change_without_voter (n : NodeId) (node : Node) :
  ∃ m', ChangeHandler.apply MembershipState.default (AddNodes {[ n := node ]}) true = ROk m' ∧
    voter_ids m' = [] ∧ m'.(nodes) !! n = Some node.
Proof.
  eexists. split_and!.
  - apply (proj2 (change_ok _ _ _ _)). split; [done|]. split; cbn; set_solver.
  - done.
  - cbn. rw map_to_list_singleton. cbn. by rw lookup_insert_eq.
Qed.
End membership_properties.

(** ** Witnesses *)
Section membership_witnesses.
#[local] Existing Instance UTConfig.

Definition ut_nodes (l : list NodeId) : gmap NodeId Node := list_to_map ((λ i, (i, tt)) <$> l).
Definition ut_m12 : Membership := {| configs := [list_to_set [1; 2]%N]; nodes := ut_nodes [1; 2; 3]%N |}.
Definition ut_m12_23 : Membership :=
  {| configs := [list_to_set [1; 2]%N; list_to_set [2; 3]%N]; nodes := ut_nodes [1; 2; 3]%N |}.

Lemma ut_change :
  Membership.change ut_m12 (ReplaceAllVoters (list_to_set [2; 3]%N)) true = ROk ut_m12_23.
Proof. by vm_compute. Qed.

Lemma change_safe_witness : membership_valid ut_m12_23 ∧ ∃ x, x ∈ [1; 2]%N ∧ x ∈ [1; 2; 3]%N.
Proof.
  apply (change_safe ut_m12 _ true ut_m12_23 [1; 2]%N [1; 2; 3]%N ut_change);
    first [done|by vm_compute|by apply (bool_decide_unpack _)].
Defined.

Lemma change_two_steps_witness :
  ∃ m2, Membership.change ut_m12_23 (AddVoterIds ∅) false = ROk m2 ∧ m2.(configs) = [list_to_set [2; 3]%N].
Proof.
  destruct (change_two_steps ut_m12 (ReplaceAllVoters (list_to_set [2; 3]%N)) true false
              (list_to_set [2; 3]%N) ut_m12_23 eq_refl ut_change)
    as (m2 & ? & ? & _). eauto.
Defined.

End membership_witnesses.
