(* ===== verification/Proposer.v ===== *)
(** * Entries, candidates and leaders (openraft/src/entry/, openraft/src/proposer/)

    A proposer is a [Candidate] while it asks for votes (phase 1) and a [Leader] once a quorum has
    granted its vote (phase 2).  [Candidate.grant_by] counts granted votes, [Candidate.into_leader]
    and [Leader.new] establish the leader, [Leader.assign_log_ids] gives proposed entries their
    log ids.  Where the source reads the clock with [C::now()], the functions take the time read. *)

From S2P Require Export ProgressEntry LogIdList Membership.

(** ** Entries *)
Section entry.
Context {C : RaftTypeConfig}.

Inductive EntryPayload := Blank | Normal (d : D) | MembershipPayload (m : Membership).
Record Entry := { entry_log_id : LogId; payload : EntryPayload }.
End entry.

Module Entry.
Section ops.
Context {C : RaftTypeConfig}.

Definition new (log_id : LogId) (p : EntryPayload) : Entry := {| entry_log_id := log_id; payload := p |}.
Definition new_blank (log_id : LogId) : Entry := new log_id Blank.
Definition new_normal (log_id : LogId) (data : D) : Entry := new log_id (Normal data).
Definition new_membership (log_id : LogId) (m : Membership) : Entry := new log_id (MembershipPayload m).
Definition log_id (e : Entry) : LogId := e.(entry_log_id).
Definition index (e : Entry) : N := e.(entry_log_id).(LogId.index).
Definition set_log_id (e : Entry) (new : LogId) : Entry := {| entry_log_id := new; payload := e.(payload) |}.
Definition get_membership (e : Entry) : option Membership :=
  match e.(payload) with MembershipPayload m => Some m | _ => None end.
End ops.
End Entry.

(** ** [Leader] *)
Module Leader.
Record Leader {C : RaftTypeConfig} {QS : Type} := {
  transfer_to : option NodeId;
  committed_vote : CommittedVote;
  next_heartbeat : Instant;
  last_log_id : option LogId;
  noop_log_id : option LogId;
  progress : VecProgress ProgressEntry (option LogId) QS;
  clock_progress : VecProgress (option Instant) (option Instant) QS;
}.
Arguments Leader {C} QS.

Section ops.
Context {C : RaftTypeConfig} {QS : Type} `{!QuorumSet QS}.
Implicit Types l : Leader QS.

Definition set_progress l (p : VecProgress ProgressEntry (option LogId) QS) : Leader QS :=
  {| transfer_to := l.(transfer_to); committed_vote := l.(committed_vote);
     next_heartbeat := l.(next_heartbeat); last_log_id := l.(last_log_id);
     noop_log_id := l.(noop_log_id); progress := p; clock_progress := l.(clock_progress) |}.
Definition set_clock_progress l p : Leader QS :=
  {| transfer_to := l.(transfer_to); committed_vote := l.(committed_vote);
     next_heartbeat := l.(next_heartbeat); last_log_id := l.(last_log_id);
     noop_log_id := l.(noop_log_id); progress := l.(progress); clock_progress := p |}.
Definition set_committed_vote l v : Leader QS :=
  {| transfer_to := l.(transfer_to); committed_vote := v;
     next_heartbeat := l.(next_heartbeat); last_log_id := l.(last_log_id);
     noop_log_id := l.(noop_log_id); progress := l.(progress); clock_progress := l.(clock_progress) |}.
Definition set_next_heartbeat l t : Leader QS :=
  {| transfer_to := l.(transfer_to); committed_vote := l.(committed_vote);
     next_heartbeat := t; last_log_id := l.(last_log_id);
     noop_log_id := l.(noop_log_id); progress := l.(progress); clock_progress := l.(clock_progress) |}.
Definition set_last_log_id l o : Leader QS :=
  {| transfer_to := l.(transfer_to); committed_vote := l.(committed_vote);
     next_heartbeat := l.(next_heartbeat); last_log_id := o;
     noop_log_id := l.(noop_log_id); progress := l.(progress); clock_progress := l.(clock_progress) |}.

Definition new (now : Instant) (vote : CommittedVote) (quorum_set : QS) (learner_ids : list NodeId)
    (last_leader_log_id : LeaderLogIds) : Outcome (Leader QS) :=
  _ ← assert_ ((leader_id <$> LeaderLogIds.last last_leader_log_id) ⪯? Some (committed_leader_id vote))
        "vote must GE last_leader_log_id.last()";
  _ ← assert_ ((leader_id <$> LeaderLogIds.first last_leader_log_id) ⪯? Some (committed_leader_id vote))
        "vote must GE last_leader_log_id.first()";
  let vote_leader_id := committed_leader_id vote in
  let first := LeaderLogIds.first last_leader_log_id in
  let noop_log_id :=
    if bool_decide ((leader_id <$> first) = Some vote_leader_id) then first
    else Some (LogId_new (committed_leader_id vote) (next_index (LeaderLogIds.last last_leader_log_id))) in
  let last_log_id := LeaderLogIds.last last_leader_log_id in
  Done {|
    transfer_to := None; committed_vote := vote; next_heartbeat := now; last_log_id := last_log_id;
    noop_log_id := noop_log_id;
    progress := VecProgress_new quorum_set learner_ids (ProgressEntry.empty (next_index last_log_id));
    clock_progress := VecProgress_new quorum_set learner_ids None;
  |}.

Definition mark_transfer l (to : NodeId) : Leader QS :=
  {| transfer_to := Some to; committed_vote := l.(committed_vote);
     next_heartbeat := l.(next_heartbeat); last_log_id := l.(last_log_id);
     noop_log_id := l.(noop_log_id); progress := l.(progress); clock_progress := l.(clock_progress) |}.
Definition get_transfer_to l : option NodeId := l.(transfer_to).

(** [for entry in it { entry.set_log_id(..); index += 1; }] *)
Fixpoint assign_from (committed_leader_id : CommittedLeaderId) (index : N) (entries : list Entry) : list Entry * N :=
  match entries with
  | [] => ([], index)
  | entry :: it =>
      let entry := Entry.set_log_id entry (LogId_new committed_leader_id index) in
      let '(it, index) := assign_from committed_leader_id (index + 1) it in
      (entry :: it, index)
  end.

Definition assign_log_ids l (entries : list Entry) : Outcome (list Entry * Leader QS) :=
  _ ← assert_ (bool_decide (l.(transfer_to) = None)) "leader is disabled to propose new log";
  if length entries =? 0 then Done (entries, l)
  else
    let committed_leader_id := committed_leader_id l.(committed_vote) in
    let index := next_index l.(last_log_id) in
    let '(entries, index) := assign_from committed_leader_id index entries in
    index ← sub_u64 index 1;
    Done (entries, set_last_log_id l (Some (LogId_new committed_leader_id index))).

Definition last_quorum_acked_time (now : Instant) l : Outcome (option Instant * Leader QS) :=
  node_id ← unwrap (lid_node_id (CLID := CommittedLeaderId) l.(committed_vote).(cv_leader_id)) "unwrap";
  '(granted, p) ← increase_to l.(clock_progress) node_id (Some now);
  Done (match granted with ROk x => x | RErr x => x end, set_clock_progress l p).
End ops.
End Leader.

(** ** [Candidate] *)
Module Candidate.
Record Candidate {C : RaftTypeConfig} {QS : Type} := {
  starting_time : Instant;
  vote : Vote;
  last_log_id : option LogId;
  progress : VecProgress bool bool QS;
  quorum_set : QS;
  learner_ids : list NodeId;
}.
Arguments Candidate {C} QS.

Section ops.
Context {C : RaftTypeConfig} {QS : Type} `{!QuorumSet QS}.
Implicit Types c : Candidate QS.

Definition new (starting_time : Instant) (vote : Vote) (last_log_id : option LogId) (quorum_set : QS)
    (learner_ids : list NodeId) : Candidate QS := {|
  starting_time := starting_time; vote := vote; last_log_id := last_log_id;
  progress := VecProgress_new quorum_set [] false; quorum_set := quorum_set; learner_ids := learner_ids;
|}.

Definition set_progress c p : Candidate QS := {|
  starting_time := c.(starting_time); vote := c.(vote); last_log_id := c.(last_log_id);
  progress := p; quorum_set := c.(quorum_set); learner_ids := c.(learner_ids);
|}.

Definition grant_by c (target : NodeId) : Outcome (bool * Candidate QS) :=
  '(r, p) ← update c.(progress) target true;
  match r with
  | ROk granted => Done (granted, set_progress c p)
  | RErr _ => Panic "target not in quorum set"
  end.

Definition granters c : list NodeId :=
  (filter (λ e : NodeId * bool, e.2 = true) c.(progress).(vector)).*1.

Definition into_leader (now : Instant) c : Outcome (Leader.Leader QS) :=
  _ ← assert_ (negb (is_committed c.(vote))) "!vote.is_committed()";
  let vote := to_committed c.(vote) in
  let last := c.(last_log_id) in
  let last_leader_log_ids := {| log_id_range := (λ last, (last, last)) <$> last |} in
  Leader.new now vote c.(quorum_set) c.(learner_ids) last_leader_log_ids.
End ops.
End Candidate.

(** ** Lemmas *)

Section candidate_lemmas.
Context {C : RaftTypeConfig} {QS : Type} `{!QuorumSet QS, !QuorumLaws QS}.
Implicit Types c : Candidate.Candidate QS.
Import Candidate.

(** A tally of votes: the progress is well formed and tracks voters only. *)
Record candidate_wf c : Prop := {
  cand_progress : vp_wf c.(progress);
  cand_quorum_set : c.(progress).(Progress.quorum_set) = c.(quorum_set);
  cand_voters : c.(progress).(voter_count) = length c.(progress).(vector);
}.

Lemma cand_voters_all c : candidate_wf c → voters c.(progress) = c.(progress).(vector).
Proof. intros [_ _ Hc]. rw /voters Hc. apply take_ge. done. Qed.

Lemma granters_ids_ge c : granters c = ids_ge true c.(progress).(vector).
Proof.
  rw /granters /ids_ge. f_equal. apply list_filter_iff. intros [id b]. rw /val /=.
  by destruct b.
Qed.

(** The granted flag of a well formed tally says whether the granters are a quorum. *)
Lemma candidate_granted c :
  candidate_wf c → c.(progress).(granted) = is_quorum c.(quorum_set) (granters c).
Proof.
  intros Hwf. pose proof (vp_granted _ (cand_progress c Hwf)) as [Hq Hmax].
  rw cand_voters_all // in Hq Hmax. rw (cand_quorum_set c Hwf) in Hq Hmax. rw granters_ids_ge.
  destruct (granted (progress c)); [by rw Hq|]. by rw Hmax.
Qed.

Lemma candidate_in_order c id v :
  candidate_wf c → try_get c.(progress) id = Some v → update_in_order c.(progress) id v true.
Proof.
  intros Hwf Hget Hlt i Hi Hc j e Hji He. destruct (cand_progress c Hwf) as [Hnd Hcnt Hids Hs _].
  destruct (granted (progress c)); [by destruct v|]. destruct v; [|done].
  assert (vector (progress c) !! i = Some (id, true)) as Hv.
  { destruct (vp_index_lookup _ _ _ Hi) as [w Hw]. rw /try_get Hi /= Hw in Hget. naive_solver. }
  apply (filter_ge_reach false true (voters (progress c)) j e Hs eq_refl).
  { rw /voters lookup_take_lt; [lia|done]. }
  apply (Nat.lt_trans _ i); [done|].
  apply (filter_ge_reach false true (voters (progress c)) i (id, true) Hs eq_refl); [|apply ole_refl].
  by rw /voters lookup_take_lt.
Qed.

Lemma try_get_voter c id :
  candidate_wf c → id ∈ qs_ids c.(quorum_set) → is_Some (try_get c.(progress) id).
Proof.
  intros Hwf Hid. destruct (try_get (progress c) id) as [v|] eqn:Hg; [done|]. exfalso.
  apply try_get_None in Hg. apply Hg. rw -cand_voters_all //.
  rw (vp_ids _ (cand_progress c Hwf)) (cand_quorum_set c Hwf). done.
Qed.

Lemma new_candidate_wf t v l qs learners :
  qs_ok qs [] → candidate_wf (new t v l qs learners).
Proof.
  intros Hok. split; [by apply VecProgress_new_wf|done|]. cbn. by rw app_nil_r.
Qed.

Lemma updated_length {V P} {QS' : Type} `{!QuorumSet QS', Borrow V P} (p p' : VecProgress V P QS') id v :
  updated p p' id v → length p'.(vector) = length p.(vector).
Proof.
  intros (_ & _ & Hperm & _). apply Permutation_length in Hperm. by rw !length_fmap in Hperm.
Qed.

Lemma grant_by_run c target :
  candidate_wf c → target ∈ qs_ids c.(quorum_set) →
  ∃ c', grant_by c target = Done (is_quorum c'.(quorum_set) (granters c'), c') ∧ candidate_wf c' ∧
    c'.(vote) = c.(vote) ∧ c'.(last_log_id) = c.(last_log_id) ∧ c'.(quorum_set) = c.(quorum_set) ∧
    c'.(learner_ids) = c.(learner_ids) ∧ c'.(starting_time) = c.(starting_time) ∧
    ∀ id, id ∈ granters c' ↔ id ∈ granters c ∨ id = target.
Proof.
  intros Hwf Hid. destruct (try_get_voter c target Hwf Hid) as [v Hv].
  destruct (update_with_wf c.(progress) target (λ _, Done true) v true) as (p' & Hrun & Hwf' & Hupd).
  { by apply cand_progress. } { done. } { done. } { by destruct v. } { by apply candidate_in_order. }
  rw /grant_by /update Hrun. cbn [mbind outcome_bind].
  assert (candidate_wf (set_progress c p')) as Hcwf.
  { pose proof (updated_length _ _ _ _ Hupd) as Hlen. destruct Hupd as (Hq & Hc & _). split; cbn; [done| |].
    - rw Hq. by apply cand_quorum_set.
    - rw Hc Hlen. by apply cand_voters. }
  exists (set_progress c p'). split; [by rw -candidate_granted|]. split_and!; [done..|].
  intros id. destruct Hupd as (_ & _ & _ & _ & Hget).
  assert (∀ c, candidate_wf c → id ∈ granters c ↔ try_get c.(progress) id = Some true) as Hgr.
  { clear. intros c Hwf. rw try_get_elem; [by apply vp_nodup, cand_progress|].
    rw /granters list_elem_of_fmap. setoid_rewrite list_elem_of_filter. split.
    - intros ([id' b] & -> & [Hb Hin]). cbn in *. by subst.
    - intros Hin. by exists (id, true). }
  rw !Hgr //. cbn [set_progress progress]. rw Hget. case_decide; naive_solver.
Qed.
End candidate_lemmas.

Section leader_lemmas.
Context {C : RaftTypeConfig} {QS : Type} `{!QuorumSet QS}.
Implicit Types l : Leader.Leader QS.

Lemma assign_from_spec lid i es :
  let r := Leader.assign_from lid i es in
  r.2 = (i + N.of_nat (length es))%N ∧ length r.1 = length es ∧
  payload <$> r.1 = payload <$> es ∧
  ∀ n e, r.1 !! n = Some e → Entry.log_id e = LogId_new lid (i + N.of_nat n).
Proof.
  revert i. induction es as [|e es IH]; intros i; cbn.
  - split_and!; [lia|done..].
  - destruct (Leader.assign_from lid (i + 1) es) as [es' i'] eqn:E. specialize (IH (i + 1)%N).
    rw E /= in IH. destruct IH as (Hi & Hlen & Hp & Hl). cbn. split_and!; [lia|lia|by rw Hp|].
    intros [|n] x; cbn.
    + intros [= <-]. cbn. f_equal. lia.
    + intros Hx%Hl. rw Hx. f_equal. lia.
Qed.

(** Consecutive log ids of one leader. *)
Lemma assign_from_sorted lid i es :
  Sorted log_next (Entry.log_id <$> (Leader.assign_from lid i es).1) ∧
  (∀ x, x ∈ Entry.log_id <$> (Leader.assign_from lid i es).1 → x.(leader_id) = lid) ∧
  (∀ x, head (Entry.log_id <$> (Leader.assign_from lid i es).1) = Some x → x = LogId_new lid i).
Proof.
  revert i. induction es as [|e es IH]; intros i; cbn.
  { split_and!; [constructor|set_solver|done]. }
  specialize (IH (i + 1)%N). destruct (Leader.assign_from lid (i + 1) es) as [es' i']. cbn in *.
  destruct IH as (Hs & Hl & Hh). split_and!.
  - constructor; [done|]. destruct es' as [|e' es']; constructor. cbn in Hh.
    rw (Hh _ eq_refl). split; [done|apply ole_refl].
  - intros x [->|Hx]%elem_of_cons; [done|by apply Hl].
  - by intros x [= <-].
Qed.

Lemma assign_log_ids_run l es :
  l.(Leader.transfer_to) = None → es ≠ [] →
  ∃ es', Leader.assign_log_ids l es =
    Done (es', Leader.set_last_log_id l (list.last (Entry.log_id <$> es'))) ∧
    es' = (Leader.assign_from (committed_leader_id l.(Leader.committed_vote))
             (next_index l.(Leader.last_log_id)) es).1.
Proof.
  intros Ht Hne. rw /Leader.assign_log_ids. rw bool_decide_true; [done|]. cbn [assert_ mbind outcome_bind].
  destruct (Nat.eqb_spec (length es) 0) as [Hz|Hz]; [by apply nil_length_inv in Hz|].
  pose proof (assign_from_spec (committed_leader_id l.(Leader.committed_vote)) (next_index l.(Leader.last_log_id)) es) as Hspec.
  destruct (Leader.assign_from _ _ es) as [es' i]. cbn in Hspec. destruct Hspec as (Hi & Hlen & _ & Hl).
  rw /sub_u64. destruct (N.leb_spec 1 i); [|lia]. cbn [mbind outcome_bind]. exists es'. split; [|done].
  do 3 f_equal. rw last_lookup list_lookup_fmap length_fmap Hlen.
  destruct (lookup_lt_is_Some_2 es' (pred (length es))) as [e He]; [lia|]. rw He /= (Hl _ _ He).
  do 2 f_equal. lia.
Qed.
End leader_lemmas.

(** ** Properties *)

(** Counting votes.  When a voter's grant arrives, [grant_by] does not panic, adds exactly that
    voter to the granters, and reports success if and only if the granters form a quorum. *)
Theorem grant_by_quorum {C : RaftTypeConfig} (c : Candidate.Candidate (Joint (list N))) target :
  candidate_wf c → target ∈ qs_ids c.(Candidate.quorum_set) →
  ∃ c', Candidate.grant_by c target =
          Done (is_quorum c.(Candidate.quorum_set) (Candidate.granters c'), c') ∧ candidate_wf c' ∧
    ∀ id, id ∈ Candidate.granters c' ↔ id ∈ Candidate.granters c ∨ id = target.
Proof.
  intros Hwf Hid. destruct (grant_by_run c target Hwf Hid) as (c' & Hrun & ? & _ & _ & Hq & _ & _ & ?).
  exists c'. by rw -Hq.
Qed.

(** A leader that is not transferring its leadership assigns to the proposed entries, in order,
    the log ids that follow its last one, all with its own committed leader id; the payloads are
    untouched and the last one becomes the leader's last log id. *)
Theorem assign_log_ids_spec {C : RaftTypeConfig} (l : Leader.Leader (Joint (list N))) es :
  l.(Leader.transfer_to) = None →
  ∃ es' l', Leader.assign_log_ids l es = Done (es', l') ∧
    payload <$> es' = payload <$> es ∧
    (∀ n e, es' !! n = Some e → Entry.log_id e =
       LogId_new (committed_leader_id l.(Leader.committed_vote)) (next_index l.(Leader.last_log_id) + N.of_nat n)) ∧
    l'.(Leader.last_log_id) = (match list.last es' with Some e => Some (Entry.log_id e) | None => l.(Leader.last_log_id) end) ∧
    l'.(Leader.progress) = l.(Leader.progress) ∧ l'.(Leader.noop_log_id) = l.(Leader.noop_log_id).
Proof.
  intros Ht. destruct es as [|e0 es].
  { exists [], l. split_and!; try done. rw /Leader.assign_log_ids bool_decide_true; [done|]. done. }
  destruct (assign_log_ids_run l (e0 :: es) Ht) as (es' & Hrun & Hes'); [done|].
  pose proof (assign_from_spec (committed_leader_id l.(Leader.committed_vote)) (next_index l.(Leader.last_log_id))
                (e0 :: es)) as (_ & Hlen & Hp & Hl).
  rw -Hes' in Hlen Hp Hl. exists es'. eexists. split_and!; [exact Hrun|done|done| |done..].
  cbn. rw fmap_last. destruct (list.last es') eqn:E; [done|]. apply last_None in E as ->. done.
Qed.

Section proposer_witnesses.
#[local] Existing Instance UTConfig.

Definition ut_candidate : Candidate.Candidate (Joint (list N)) :=
  Candidate.new 0 (Vote_new 2 1) None (Joint_new [[1; 2; 3]]%N) [].

Lemma ut_candidate_wf : candidate_wf ut_candidate.
Proof. apply new_candidate_wf. split; [by apply (bool_decide_unpack _)|done|done]. Qed.

Lemma grant_by_quorum_witness :
  ∃ c', Candidate.grant_by ut_candidate 1%N =
          Done (is_quorum ut_candidate.(Candidate.quorum_set) (Candidate.granters c'), c') ∧ candidate_wf c'.
Proof.
  destruct (grant_by_quorum ut_candidate 1%N ut_candidate_wf) as (c' & ? & ? & _); [|eauto].
  by apply (bool_decide_unpack _).
Defined.

Definition ut_leader : Leader.Leader (Joint (list N)) := {|
  Leader.transfer_to := None; Leader.committed_vote := to_committed (Vote_new 2 1);
  Leader.next_heartbeat := 0; Leader.last_log_id := Some (ut_log_id 1 1 8); Leader.noop_log_id := None;
  Leader.progress := VecProgress_new (Joint_new [[1; 2; 3]]%N) [] (ProgressEntry.empty 9);
  Leader.clock_progress := VecProgress_new (Joint_new [[1; 2; 3]]%N) [] None;
|}.

Lemma assign_log_ids_witness :
  ∃ es' l', Leader.assign_log_ids ut_leader [Entry.new_blank LogId_default; Entry.new_blank LogId_default] = Done (es', l') ∧
    Entry.log_id <$> es' = [ut_log_id 2 1 9; ut_log_id 2 1 10].
Proof.
  destruct (assign_log_ids_spec ut_leader [Entry.new_blank LogId_default; Entry.new_blank LogId_default] eq_refl)
    as (es' & l' & Hrun & _). exists es', l'. split; [done|].
  injection Hrun as <- _. done.
Defined.
End proposer_witnesses.
