(* ===== verification/RaftState.v ===== *)
(** * The state of a raft node (openraft/src/raft_state/mod.rs, openraft/src/storage/snapshot_meta.rs)

    [RaftState] is what a node knows as an acceptor: its vote, its log ids, its membership, the
    last snapshot and the pointers [last_purged <= purge_upto <= snapshot <= committed <= last]
    into the log.  [raft_state_ok] strengthens the source's [validate] with the fact that every
    pointer is the id of the local log at its index; it implements the interface
    [log_state_ok] that the replication progress relies on. *)

From S2P Require Export Proposer IOState.

(** ** Snapshot metadata *)
Record SnapshotMeta {C : RaftTypeConfig} := {
  meta_last_log_id : option LogId;
  last_membership : StoredMembership;
  snapshot_id : string;
}.

Record SnapshotSignature {C : RaftTypeConfig} := {
  sig_last_log_id : option LogId;
  last_membership_log_id : option LogId;
  sig_snapshot_id : string;
}.

Record Snapshot {C : RaftTypeConfig} := { meta : SnapshotMeta; snapshot_data : SnapshotData }.

Module SnapshotMeta.
Section ops.
Context {C : RaftTypeConfig}.

Definition default : SnapshotMeta := {|
  meta_last_log_id := None;
  last_membership := {| stored_log_id := None; stored_membership_ := Membership.default |};
  snapshot_id := "";
|}.
Definition signature (m : SnapshotMeta) : SnapshotSignature := {|
  sig_last_log_id := m.(meta_last_log_id);
  last_membership_log_id := m.(last_membership).(stored_log_id);
  sig_snapshot_id := m.(snapshot_id);
|}.
End ops.
End SnapshotMeta.

(** [ForwardToLeader] (error.rs) *)
Record ForwardToLeader {C : RaftTypeConfig} := {
  forward_leader_id : option NodeId;
  forward_leader_node : option Node;
}.
Definition ForwardToLeader_empty {C : RaftTypeConfig} : ForwardToLeader :=
  {| forward_leader_id := None; forward_leader_node := None |}.
Definition ForwardToLeader_new {C : RaftTypeConfig} (leader_id : NodeId) (node : Node) : ForwardToLeader :=
  {| forward_leader_id := Some leader_id; forward_leader_node := Some node |}.

(** ** [RaftState] *)
Module RaftState.
Record RaftState {C : RaftTypeConfig} := {
  vote : Leased Vote;
  committed : option LogId;
  purged_next : N;
  log_ids : LogIdList;
  membership_state : MembershipState;
  snapshot_meta : SnapshotMeta;
  server_state : ServerState;
  io_state : IOState;
  purge_upto : option LogId;
}.

#[global] Instance log_state_reader {C : RaftTypeConfig} : LogStateReader RaftState := {|
  ref_log_id s i := LogIdList.ref_at s.(log_ids) i;
  last_log_id s := LogIdList.last s.(log_ids);
  Config.committed s := s.(committed);
  io_applied s := s.(io_state).(applied);
  io_snapshot_last_log_id s := s.(io_state).(snapshot);
  io_purged s := s.(io_state).(purged);
  snapshot_last_log_id s := s.(snapshot_meta).(meta_last_log_id);
  Config.purge_upto s := s.(purge_upto);
  last_purged_log_id s := if (s.(purged_next) =? 0)%N then None else LogIdList.first s.(log_ids);
|}.

Section ops.
Context {C : RaftTypeConfig}.
Implicit Types s : RaftState.

Definition default : RaftState := {|
  vote := Leased.default Vote_default; committed := None; purged_next := 0;
  log_ids := LogIdList.new []; membership_state := MembershipState.default;
  snapshot_meta := SnapshotMeta.default; server_state := Learner; io_state := IOState.default;
  purge_upto := None;
|}.

(** Assignments to one field. *)
Definition set_vote s v : RaftState := {| vote := v; committed := s.(committed); purged_next := s.(purged_next);
  log_ids := s.(log_ids); membership_state := s.(membership_state); snapshot_meta := s.(snapshot_meta);
  server_state := s.(server_state); io_state := s.(io_state); purge_upto := s.(purge_upto) |}.
Definition set_committed s c : RaftState := {| vote := s.(vote); committed := c; purged_next := s.(purged_next);
  log_ids := s.(log_ids); membership_state := s.(membership_state); snapshot_meta := s.(snapshot_meta);
  server_state := s.(server_state); io_state := s.(io_state); purge_upto := s.(purge_upto) |}.
Definition set_purged_next s n : RaftState := {| vote := s.(vote); committed := s.(committed); purged_next := n;
  log_ids := s.(log_ids); membership_state := s.(membership_state); snapshot_meta := s.(snapshot_meta);
  server_state := s.(server_state); io_state := s.(io_state); purge_upto := s.(purge_upto) |}.
Definition set_log_ids s l : RaftState := {| vote := s.(vote); committed := s.(committed);
  purged_next := s.(purged_next); log_ids := l; membership_state := s.(membership_state);
  snapshot_meta := s.(snapshot_meta); server_state := s.(server_state); io_state := s.(io_state);
  purge_upto := s.(purge_upto) |}.
Definition set_membership_state s m : RaftState := {| vote := s.(vote); committed := s.(committed);
  purged_next := s.(purged_next); log_ids := s.(log_ids); membership_state := m;
  snapshot_meta := s.(snapshot_meta); server_state := s.(server_state); io_state := s.(io_state);
  purge_upto := s.(purge_upto) |}.
Definition set_snapshot_meta s m : RaftState := {| vote := s.(vote); committed := s.(committed);
  purged_next := s.(purged_next); log_ids := s.(log_ids); membership_state := s.(membership_state);
  snapshot_meta := m; server_state := s.(server_state); io_state := s.(io_state);
  purge_upto := s.(purge_upto) |}.
Definition set_server_state s x : RaftState := {| vote := s.(vote); committed := s.(committed);
  purged_next := s.(purged_next); log_ids := s.(log_ids); membership_state := s.(membership_state);
  snapshot_meta := s.(snapshot_meta); server_state := x; io_state := s.(io_state);
  purge_upto := s.(purge_upto) |}.
Definition set_io_state s i : RaftState := {| vote := s.(vote); committed := s.(committed);
  purged_next := s.(purged_next); log_ids := s.(log_ids); membership_state := s.(membership_state);
  snapshot_meta := s.(snapshot_meta); server_state := s.(server_state); io_state := i;
  purge_upto := s.(purge_upto) |}.
Definition set_purge_upto s p : RaftState := {| vote := s.(vote); committed := s.(committed);
  purged_next := s.(purged_next); log_ids := s.(log_ids); membership_state := s.(membership_state);
  snapshot_meta := s.(snapshot_meta); server_state := s.(server_state); io_state := s.(io_state);
  purge_upto := p |}.

(** [Validate for RaftState]: [Done true] when every check passes. *)
Definition validate s : Outcome bool :=
  let purged_ok :=
    if (s.(purged_next) =? 0)%N then opt_index (LogIdList.first s.(log_ids)) ⪯? Some 0%N
    else (s.(purged_next) =? next_index (LogIdList.first s.(log_ids)))%N in
  let purge_upto_ok :=
    match snapshot_last_log_id s with
    | None => s.(purge_upto) ⪯? s.(committed)
    | Some _ => s.(purge_upto) ⪯? snapshot_last_log_id s
    end in
  let log_ok :=
    purged_ok && (last_purged_log_id s ⪯? s.(purge_upto)) && purge_upto_ok &&
    (snapshot_last_log_id s ⪯? s.(committed)) && (s.(committed) ⪯? last_log_id s) &&
    MembershipState.validate s.(membership_state) in
  if (log_ok : bool) then IOState.validate s.(io_state) else Done false.

Definition vote_ref s : Vote := s.(vote).(data).
Definition vote_last_modified s : option Instant := s.(vote).(last_update).

Definition is_initialized s : bool :=
  if bool_decide (last_log_id s ≠ None) then true
  else if bool_decide (vote_ref s ≠ Vote_default) then true
  else false.

Definition accepted_io s : option IOId := s.(io_state).(io_progress).(accepted).

(** [accept_io] returns the previously accepted io id. *)
Definition accept_io s (accepted_ : IOId) : Outcome (option IOId * RaftState) :=
  let curr_accepted := s.(io_state).(io_progress).(accepted) in
  ge ← match curr_accepted with
       | Some io_id => ref_vote_ge (as_ref_vote (IOId.to_vote accepted_)) (as_ref_vote (IOId.to_vote io_id))
       | None => Done true
       end;
  _ ← assert_ ge "new accepted.committed_vote must be >= current accepted.committed_vote";
  gt ← match curr_accepted with Some cur => pcmp_gt <$> IOId.partial_cmp accepted_ cur | None => Done true end;
  if (gt : bool) then
    p ← IOProgress.accept IOId.le s.(io_state).(io_progress) accepted_;
    Done (curr_accepted, set_io_state s (IOState.set_io_progress s.(io_state) p))
  else Done (curr_accepted, s).

Definition extend_log_ids_from_same_leader s (new_log_ids : list LogId) : Outcome RaftState :=
  l ← LogIdList.extend_from_same_leader s.(log_ids) new_log_ids; Done (set_log_ids s l).

Definition extend_log_ids s (new_log_ids : list LogId) : Outcome RaftState :=
  l ← LogIdList.extend s.(log_ids) new_log_ids; Done (set_log_ids s l).

Definition update_committed s (c : option LogId) : Outcome (option (option LogId) * RaftState) :=
  if s.(committed) ≺? c then
    let prev := s.(committed) in
    let s := set_committed s c in
    m ← MembershipState.commit s.(membership_state) c;
    Done (Some prev, set_membership_state s m)
  else Done (None, s).

(** The loop of [first_conflicting_index]; [i] is the position of the first entry of [entries]. *)
Fixpoint first_conflicting_from s (i : nat) (entries : list Entry) : Outcome nat :=
  match entries with
  | [] => Done i
  | ent :: rest =>
      b ← has_log_id s (Entry.log_id ent);
      if negb b then Done i else first_conflicting_from s (S i) rest
  end.
Definition first_conflicting_index s (entries : list Entry) : Outcome nat :=
  first_conflicting_from s 0 entries.

Definition purge_log s (upto : LogId) : Outcome RaftState :=
  let s := set_purged_next s (upto.(index) + 1)%N in
  l ← LogIdList.purge s.(log_ids) upto; Done (set_log_ids s l).

Definition is_voter s (id : NodeId) : bool := MembershipState.is_voter s.(membership_state) id.
Definition is_leading s (id : NodeId) : bool :=
  MembershipState.contains s.(membership_state) id && bool_decide (leader_node_id (vote_ref s) = Some id).
Definition is_leader s (id : NodeId) : bool := is_leading s id && is_committed (vote_ref s).

Definition calc_server_state s (id : NodeId) : ServerState :=
  if is_leader s id then Leader_
  else if is_leading s id then Candidate_
  else if is_voter s id then Follower else Learner.

(** [now] is the clock [Leader::new] reads. *)
Definition new_leader (now : Instant) s : Outcome (Leader.Leader (Joint (list NodeId))) :=
  let em := EffectiveMembership.membership s.(membership_state).(ms_effective) in
  last_leader_log_ids ← LogIdList.by_last_leader s.(log_ids);
  Leader.new now (to_committed (vote_ref s)) (Membership.to_quorum_set em) (Membership.learner_ids em)
    last_leader_log_ids.

Definition new_forward_to_leader s (to : NodeId) : ForwardToLeader :=
  match EffectiveMembership.get_node s.(membership_state).(ms_effective) to with
  | Some n => ForwardToLeader_new to n
  | None => ForwardToLeader_empty
  end.

Definition forward_to_leader s : Outcome ForwardToLeader :=
  let vote := vote_ref s in
  if is_committed vote then
    id ← unwrap (lid_node_id (CLID := CommittedLeaderId) vote.(vote_leader_id)) "unwrap";
    Done (new_forward_to_leader s id)
  else Done ForwardToLeader_empty.
End ops.
End RaftState.

(** ** The invariant of the log pointers *)
Section raft_state_ok.
Context {C : RaftTypeConfig}.
Import RaftState.
Implicit Types s : RaftState.

(** The pointer is [None] or the id of the local log at its index. *)
Definition log_ptr s (p : option LogId) : Prop := ∀ x, p = Some x → ref_log_id s x.(index) = Some x.

Record raft_state_ok s : Prop := {
  rs_log_ids : LogIdList.wf s.(log_ids) = true;
  rs_purged : if decide (s.(purged_next) = 0)%N then opt_index (LogIdList.first s.(log_ids)) ⪯ Some 0%N
              else s.(purged_next) = next_index (LogIdList.first s.(log_ids));
  rs_last_purged_le : last_purged_log_id s ⪯ s.(purge_upto);
  rs_purge_upto_le :
    s.(purge_upto) ⪯ (if decide (snapshot_last_log_id s = None) then s.(committed) else snapshot_last_log_id s);
  rs_snapshot_le : snapshot_last_log_id s ⪯ s.(committed);
  rs_purge_upto_ptr : log_ptr s s.(purge_upto);
  rs_snapshot_ptr : log_ptr s (snapshot_last_log_id s);
  rs_committed_ptr : log_ptr s s.(committed);
}.

(** The fields the invariant is about. *)
Definition log_part s : option LogId * N * LogIdList * option LogId * option LogId :=
  (s.(committed), s.(purged_next), s.(log_ids), snapshot_last_log_id s, s.(purge_upto)).

Lemma raft_state_ok_ext s s' : log_part s' = log_part s → raft_state_ok s → raft_state_ok s'.
Proof.
  destruct s as [v c pn l ms sm ss io pu], s' as [v' c' pn' l' ms' sm' ss' io' pu'].
  rw /log_part /=. intros [= -> -> -> Hsm ->] [H1 H2 H3 H4 H5 H6 H7 H8].
  split; rw ?/log_ptr /= ?Hsm; done.
Qed.

Lemma ref_read s i : ref_log_id s i = LogIdList.read s.(log_ids).(key_log_ids) i.
Proof. destruct s as [? ? ? [l]]. exact (ref_at_read l i). Qed.

Lemma ref_index s i x : ref_log_id s i = Some x → x.(index) = i.
Proof. rw ref_read. apply read_index. Qed.

Section ok.
Context s (Hok : raft_state_ok s).

Lemma ref_mono x y i j :
  ref_log_id s i = Some x → ref_log_id s j = Some y → (i ≤ j)%N → x.(leader_id) ⪯ y.(leader_id).
Proof using Hok. rw !ref_read. apply read_mono, Hok. Qed.

Lemma ref_last x : last_log_id s = Some x → ref_log_id s x.(index) = Some x.
Proof using Hok. rw ref_read. apply read_last_key, Hok. Qed.

Lemma ref_first x : LogIdList.first s.(log_ids) = Some x → ref_log_id s x.(index) = Some x.
Proof using. rw ref_read. apply read_first_key. Qed.

Lemma ref_bounds i x :
  ref_log_id s i = Some x →
  ∃ f q, LogIdList.first s.(log_ids) = Some f ∧ last_log_id s = Some q ∧ (f.(index) ≤ i)%N ∧ (i ≤ q.(index))%N.
Proof using Hok. rw ref_read. apply read_bounds, Hok. Qed.

Lemma ref_lt_last i x : ref_log_id s i = Some x → (i < next_index (last_log_id s))%N.
Proof using Hok. intros (f & q & _ & -> & _ & ?)%ref_bounds. cbn. lia. Qed.

(** On the local log, ordering ids and ordering indexes agree. *)
Lemma ref_le x y i j :
  ref_log_id s i = Some x → ref_log_id s j = Some y → x ⪯ y ↔ (i ≤ j)%N.
Proof using Hok.
  intros Hx Hy. pose proof (ref_index _ _ _ Hx) as Hi. pose proof (ref_index _ _ _ Hy) as Hj. split.
  - intros Hle. destruct (decide (i ≤ j)%N) as [|Hgt]; [done|]. exfalso.
    assert (y ≺ x) as Hlt; [|order]. apply log_id_lt_of_index; [|lia]. eapply ref_mono; [done..|lia].
  - intros Hle. pose proof (ref_mono _ _ _ _ Hx Hy Hle) as Hl. apply log_id_ole.
    apply ole_lt_eq in Hl as [?|?]; [by left|right; split; [done|lia]].
Qed.

Lemma ptr_le p q : log_ptr s p → log_ptr s q → p ⪯ q ↔ (next_index p ≤ next_index q)%N.
Proof using Hok.
  intros Hp Hq. destruct p as [x|]; [|split; [intros _; cbn; lia|intros _; apply None_le]].
  destruct q as [y|].
  - rw Some_ole (ref_le x y _ _ (Hp _ eq_refl) (Hq _ eq_refl)). cbn. lia.
  - split; [done|]. cbn. lia.
Qed.

Lemma last_ptr : log_ptr s (last_log_id s).
Proof using Hok. intros x. apply ref_last. Qed.

Lemma first_ptr : log_ptr s (LogIdList.first s.(log_ids)).
Proof using. intros x. apply ref_first. Qed.

Lemma last_purged_ptr : log_ptr s (last_purged_log_id s).
Proof using. cbn. case_match; [done|]. apply first_ptr. Qed.

Lemma next_last_purged : next_index (last_purged_log_id s) = s.(purged_next).
Proof using Hok.
  pose proof (rs_purged s Hok) as Hp. cbn. case_decide as Hz; [by rw Hz|].
  apply N.eqb_neq in Hz as ->. done.
Qed.

Lemma purge_upto_committed : s.(purge_upto) ⪯ s.(committed).
Proof using Hok.
  pose proof (rs_purge_upto_le s Hok) as Hp. pose proof (rs_snapshot_le s Hok). case_decide; order.
Qed.

Lemma committed_last : s.(committed) ⪯ last_log_id s.
Proof using Hok.
  destruct s.(committed) as [x|] eqn:E; [|apply None_le]. pose proof (rs_committed_ptr s Hok) as Hptr.
  rw -E. apply ptr_le; [done|apply last_ptr|]. rw E in Hptr |- *. pose proof (ref_lt_last _ _ (Hptr x eq_refl)).
  cbn [next_index]. lia.
Qed.

Lemma pointers_chain :
  (s.(purged_next) ≤ next_index s.(purge_upto))%N ∧
  (next_index s.(purge_upto) ≤ next_index s.(committed))%N ∧
  (next_index (snapshot_last_log_id s) ≤ next_index s.(committed))%N ∧
  (next_index s.(committed) ≤ next_index (last_log_id s))%N.
Proof using Hok.
  pose proof (rs_purge_upto_ptr s Hok). pose proof (rs_snapshot_ptr s Hok).
  pose proof (rs_committed_ptr s Hok). pose proof last_ptr. rw -next_last_purged. split_and!.
  - apply ptr_le; [apply last_purged_ptr|done|apply Hok].
  - apply ptr_le; [done..|apply purge_upto_committed].
  - apply ptr_le; [done..|apply Hok].
  - apply ptr_le; [done..|apply committed_last].
Qed.

(** Every index from the last purged one to the last one has a log id. *)
Lemma ref_total i :
  (s.(purged_next) ≤ i + 1)%N → (i < next_index (last_log_id s))%N → is_Some (ref_log_id s i).
Proof using Hok.
  intros Hlo Hhi. destruct (last_log_id s) as [q|] eqn:Hq; [|cbn in Hhi; lia].
  pose proof (rs_purged s Hok) as Hp. destruct (LogIdList.first (log_ids s)) as [f|] eqn:Hf.
  - rw ref_read. apply (read_total _ f q); [apply Hok|exact Hf|exact Hq| |cbn in Hhi; lia].
    case_decide as Hz; cbn in Hp; [|lia]. change (index f ⪯ 0)%N in Hp. apply (proj1 (N_ole _ _)) in Hp. lia.
  - rw /= /LogIdList.last in Hq. rw /LogIdList.first in Hf. by destruct (key_log_ids (log_ids s)).
Qed.
End ok.

(** The state implements the interface the replication progress relies on, as long as what is to
    be purged is covered by a snapshot. *)
Lemma raft_state_log_state_ok s :
  raft_state_ok s → (s.(purge_upto) ≠ None → snapshot_last_log_id s ≠ None) → log_state_ok s.
Proof.
  intros Hok Hsnap. pose proof (pointers_chain s Hok) as (H1 & H2 & H3 & H4). split.
  - intros i x. apply ref_index.
  - intros i. rw next_last_purged //. by apply ref_total.
  - assert (∀ x, in_log s x → ref_log_id s x.(index) = Some x) as Hin.
    { intros x [[i Hi]|Hx]; [by rw (ref_index _ _ _ Hi)|]. by apply (rs_snapshot_ptr s Hok). }
    intros x y Hx%Hin Hy%Hin. eapply ref_mono; eauto.
  - by rw next_last_purged.
  - pose proof (rs_purge_upto_le s Hok) as Hle. case_decide as Hn.
    + destruct (purge_upto s) eqn:E; [|cbn; rw E; cbn; lia]. by destruct (Hsnap ltac:(done)).
    + apply (ptr_le s Hok (purge_upto s)); [apply Hok..|done].
  - lia.
Qed.
End raft_state_ok.

(** ** What the operations on the state do *)
Section raft_state_ops.
Context {C : RaftTypeConfig}.
Import RaftState.
Implicit Types s : RaftState.

(** The invariant strengthens the source's [validate]. *)
Lemma raft_state_ok_validate s :
  raft_state_ok s → MembershipState.validate s.(membership_state) = true →
  IOState.validate s.(io_state) = Done true → validate s = Done true.
Proof.
  intros Hok Hms Hio. pose proof (rs_purged s Hok) as Hp. pose proof (rs_purge_upto_le s Hok) as Hpu.
  rw /validate Hms Hio.
  rw (proj2 (leb_le _ _) (rs_last_purged_le s Hok)) (proj2 (leb_le _ _) (rs_snapshot_le s Hok)).
  rw (proj2 (leb_le _ _) (committed_last s Hok)).
  match goal with |- (if ?a && true && ?b && true && true && true then _ else _) = _ =>
    assert (a = true) as ->; [|assert (b = true) as ->; [|done]] end.
  - clear Hpu. case_decide as Hz.
    + apply N.eqb_eq in Hz as ->. by apply leb_le.
    + pose proof Hz as ->%N.eqb_neq. by apply N.eqb_eq.
  - clear Hp. case_decide as Hn; [rw Hn; by apply leb_le|].
    destruct (snapshot_last_log_id s); [by apply leb_le|done].
Qed.

(** *** Looking up log ids *)

(** What a follower has: committed entries (the source never compares them), and entries whose id
    is the local one. *)
Definition had s (x : LogId) : Prop :=
  (x.(index) < next_index s.(committed))%N ∨ ref_log_id s x.(index) = Some x.

(** An id sent by a legitimate leader agrees with what is committed here. *)
Definition agrees_committed s (x : LogId) : Prop :=
  (x.(index) < next_index s.(committed))%N →
  Some x ⪯ s.(committed) ∧ ∀ y, ref_log_id s x.(index) = Some y → y = x.

Lemma has_log_id_run s x :
  agrees_committed s x → ∃ b, has_log_id s x = Done b ∧ (b = true ↔ had s x).
Proof.
  intros Ha. rw /has_log_id /had. change (Config.committed s) with (committed s).
  destruct (N.ltb_spec (index x) (next_index (committed s))) as [Hlt|Hge].
  - destruct (Ha Hlt) as [Hle _]. rw (proj2 (leb_le _ _) Hle). exists true. split; [done|]. naive_solver.
  - destruct (ref_log_id s (index x)) as [y|].
    + eexists. split; [done|]. rw bool_decide_eq_true. split; [intros ->; by right|].
      intros [?|[= ->]]; [lia|done].
    + exists false. split; [done|]. split; [done|]. intros [?|?]; [lia|done].
Qed.

Lemma first_conflicting_from_run s es i :
  Forall (λ e, agrees_committed s (Entry.log_id e)) es →
  ∃ n, first_conflicting_from s i es = Done (i + n) ∧ n ≤ length es ∧
    (∀ k e, k < n → es !! k = Some e → had s (Entry.log_id e)) ∧
    (∀ e, es !! n = Some e → ¬ had s (Entry.log_id e)).
Proof.
  intros Hall. revert i. induction Hall as [|e es Ha _ IH]; intros i; cbn [first_conflicting_from].
  { exists 0. rw Nat.add_0_r. split_and!; [done..|lia|done]. }
  destruct (has_log_id_run s _ Ha) as (b & -> & Hb). cbn [mbind outcome_bind]. destruct b; cbn [negb].
  - destruct (IH (S i)) as (n & -> & Hn & Hbefore & Hat). exists (S n). split_and!.
    + f_equal. lia.
    + cbn. lia.
    + intros [|k] e'; cbn; [|intros ?; apply Hbefore; lia]. intros _ [= <-]. by apply Hb.
    + done.
  - exists 0. rw Nat.add_0_r. split_and!; [done|lia|lia|]. intros e' [= <-] Hh%Hb. done.
Qed.

Lemma first_conflicting_run s es :
  Forall (λ e, agrees_committed s (Entry.log_id e)) es →
  ∃ n, first_conflicting_index s es = Done n ∧ n ≤ length es ∧
    (∀ k e, k < n → es !! k = Some e → had s (Entry.log_id e)) ∧
    (∀ e, es !! n = Some e → ¬ had s (Entry.log_id e)).
Proof. apply (first_conflicting_from_run s es 0). Qed.

(** *** Replacing the log ids beyond the committed ones *)
Lemma head_read l l' f :
  LogIdList.keys_wf l' = true → head l = Some f → LogIdList.read l' f.(index) = Some f →
  (∀ f', head l' = Some f' → (f'.(index) < f.(index))%N → False) → head l' = Some f.
Proof.
  intros Hwf' Hf Hr Hno. destruct (read_bounds _ _ _ Hwf' Hr) as (f' & _ & Hf' & _ & Hle & _).
  rw Hf'. pose proof (read_first_key _ _ Hf') as Hr'.
  assert (index f' = index f) as Heq; [|rw Heq in Hr'; congruence].
  destruct (decide (index f' < index f)%N); [by exfalso; eapply Hno|lia].
Qed.

Lemma relog_ok s l' :
  raft_state_ok s → LogIdList.wf l' = true →
  (∀ i, (i < next_index s.(committed))%N → LogIdList.ref_at l' i = ref_log_id s i) →
  (s.(purged_next) = 0%N → opt_index (LogIdList.first l') ⪯ Some 0%N) →
  raft_state_ok (set_log_ids s l').
Proof.
  intros Hok Hwf Hread Hfirst. pose proof (pointers_chain s Hok) as (H1 & H2 & H3 & H4).
  assert (∀ p, log_ptr s p → (next_index p ≤ next_index s.(committed))%N → log_ptr (set_log_ids s l') p) as Hptr.
  { intros p Hp Hle x ->. cbn in Hle |- *. rw Hread; [lia|]. by apply Hp. }
  pose proof (rs_purged s Hok) as Hp.
  assert (s.(purged_next) ≠ 0%N → LogIdList.first l' = LogIdList.first s.(log_ids)) as Hhead.
  { intros Hz. rw decide_False in Hp; [done|]. destruct (LogIdList.first (log_ids s)) as [f|] eqn:Hf; [|done].
    destruct l' as [l']. cbn in Hp.
    apply (head_read (s.(log_ids).(key_log_ids)) l' f); [exact Hwf|exact Hf| |].
    - rw -ref_at_read. change (LogIdList.new l') with ({| key_log_ids := l' |}). rw Hread; [lia|].
      by apply ref_first.
    - intros f' Hf' Hlt. pose proof (read_first_key _ _ Hf') as Hr'. rw -ref_at_read in Hr'.
      change (LogIdList.new l') with ({| key_log_ids := l' |}) in Hr'. rw Hread in Hr'; [lia|].
      destruct (ref_bounds s Hok _ _ Hr') as (f0 & _ & Hf0 & _ & ? & _). rw Hf in Hf0. simplify_eq. lia. }
  split; cbn [set_log_ids log_ids purged_next].
  - done.
  - case_decide as Hz; [by apply Hfirst|]. by rw Hhead.
  - cbn. pose proof (rs_last_purged_le s Hok) as Hle. cbn in Hle.
    destruct (N.eqb_spec (purged_next s) 0) as [?|Hz]; [done|]. by rw Hhead.
  - apply Hok.
  - apply Hok.
  - apply Hptr; [apply Hok|]. cbn. lia.
  - apply Hptr; [apply Hok|]. cbn. cbn in H3. lia.
  - apply Hptr; [apply Hok|]. done.
Qed.

(** Deleting the entries at and after [since], none of them committed. *)
Lemma truncate_state s since :
  raft_state_ok s → (next_index s.(committed) ≤ since)%N →
  ∃ l', LogIdList.truncate s.(log_ids) since = Done l' ∧ raft_state_ok (set_log_ids s l') ∧
    ∀ i, LogIdList.ref_at l' i = if (i <? since)%N then ref_log_id s i else None.
Proof.
  intros Hok Hle. destruct s.(log_ids) as [l] eqn:Hl.
  destruct (truncate_wf l since) as (l' & Hrun & Hwf & Hread); [pose proof (rs_log_ids s Hok) as Hw; by rw Hl in Hw|].
  assert (∀ i, LogIdList.ref_at (LogIdList.new l') i = if (i <? since)%N then ref_log_id s i else None) as Hr.
  { intros i. rw ref_at_read Hread ref_read Hl. done. }
  exists (LogIdList.new l'). split_and!; [done| |done]. apply relog_ok; [done|done| |].
  - intros i Hi. rw Hr. destruct (N.ltb_spec i since); [done|lia].
  - intros Hz. pose proof (rs_purged s Hok) as Hp. rw decide_True in Hp; [done|].
    destruct (LogIdList.first (LogIdList.new l')) as [f'|] eqn:Hf'; [|done].
    pose proof (read_first_key l' f' Hf') as Hr'. rw -ref_at_read Hr in Hr'.
    destruct (N.ltb_spec (index f') since); [|done].
    destruct (ref_bounds s Hok _ _ Hr') as (f & q & Hf & Hq & Hle' & _). rw Hf in Hp.
    change (index f ⪯ 0)%N in Hp. apply (proj1 (N_ole _ _)) in Hp.
    assert (LogIdList.read l' 0 = LogIdList.read l 0) as H0.
    { rw Hread. destruct (N.ltb_spec 0 since); [done|lia]. }
    assert (index f = 0)%N as Hf0 by lia. pose proof (ref_first s f Hf) as Hrf.
    rw Hf0 ref_read Hl -H0 in Hrf. destruct (read_bounds _ _ _ Hwf Hrf) as (f1 & _ & Hf1 & _ & ? & _).
    rw /LogIdList.first /= in Hf'. rw Hf' in Hf1. simplify_eq. apply N_ole. cbn. lia.
Qed.

Lemma extend_state_aux s ids l' :
  raft_state_ok s → LogIdList.wf l' = true →
  (∀ x, head ids = Some x → x.(index) = next_index (last_log_id s)) →
  (s.(log_ids).(key_log_ids) ≠ [] → head l'.(key_log_ids) = head s.(log_ids).(key_log_ids)) →
  (∀ i, LogIdList.ref_at l' i = extended s.(log_ids).(key_log_ids) ids i) →
  raft_state_ok (set_log_ids s l').
Proof.
  intros Hok Hwf Hx Hhead Hread. pose proof (pointers_chain s Hok) as (_ & _ & _ & H4).
  apply relog_ok; [done..| |].
  - intros i Hi. rw Hread ref_read. destruct ids as [|x ids]; [done|]. cbn. rw (Hx x); [done|].
    destruct (N.ltb_spec i (next_index (last_log_id s))); [done|lia].
  - intros Hz. pose proof (rs_purged s Hok) as Hp. rw decide_True in Hp; [done|].
    rw /LogIdList.first in Hp |- *. destruct (decide (s.(log_ids).(key_log_ids) = [])) as [He|He]; [|by rw Hhead].
    destruct (head l'.(key_log_ids)) as [f|] eqn:Hf; [|done].
    pose proof (read_first_key _ _ Hf) as Hr. rw -ref_at_read in Hr. destruct l' as [l'].
    rw (Hread f.(index)) He in Hr. destruct ids as [|x ids]; [done|]. cbn in Hr.
    assert (index x = 0)%N as Hx0; [rw (Hx x) //; by rw /= /LogIdList.last He|].
    destruct (read_bounds l' 0 x Hwf) as (f1 & _ & Hf1 & _ & ? & _).
    { rw -ref_at_read. change (LogIdList.new l') with ({| key_log_ids := l' |}). rw Hread He. cbn. by rw Hx0. }
    cbn in Hf. rw Hf in Hf1. simplify_eq. apply N_ole. cbn. lia.
Qed.

(** *** Extending the log *)

(** The ids [ids] follow the last one of the log. *)
Definition next_ids s (ids : list LogId) : Prop :=
  continues s.(log_ids).(key_log_ids) ids ∧
  ∀ x, head ids = Some x → x.(index) = next_index (last_log_id s).

(** The log after the ids [ids] are appended at its end. *)
Definition log_after s (ids : list LogId) (i : N) : option LogId :=
  if (i <? next_index (last_log_id s))%N then ref_log_id s i
  else ids !! N.to_nat (i - next_index (last_log_id s)).

Lemma ref_beyond s i : raft_state_ok s → (next_index (last_log_id s) ≤ i)%N → ref_log_id s i = None.
Proof.
  intros Hok Hle. destruct (ref_log_id s i) as [x|] eqn:Hx; [|done].
  pose proof (ref_lt_last s Hok _ _ Hx). lia.
Qed.

Lemma extended_state s ids i :
  raft_state_ok s → next_ids s ids → extended s.(log_ids).(key_log_ids) ids i = log_after s ids i.
Proof.
  intros Hok [_ Hx]. rw /log_after. destruct ids as [|x ids]; cbn [extended].
  - rw -ref_read lookup_nil. destruct (N.ltb_spec i (next_index (last_log_id s))); [done|].
    by apply ref_beyond.
  - by rw (Hx x) // ref_read.
Qed.

Lemma extend_state s ids :
  raft_state_ok s → next_ids s ids →
  ∃ l', extend_log_ids s ids = Done (set_log_ids s l') ∧ raft_state_ok (set_log_ids s l') ∧
    (LogIdList.last l' = match list.last ids with Some y => Some y | None => last_log_id s end) ∧
    ∀ i, LogIdList.ref_at l' i = log_after s ids i.
Proof.
  intros Hok Hn. pose proof Hn as [Hc Hx]. pose proof (rs_log_ids s Hok) as Hwf.
  destruct (extend_wf _ ids Hwf Hc) as (l' & Hrun & Hwf' & Hlast & Hhead & Hread).
  assert (∀ i, LogIdList.ref_at (LogIdList.new l') i = log_after s ids i) as Hr.
  { intros i. by rw ref_at_read Hread extended_state. }
  exists (LogIdList.new l'). split_and!; [|apply (extend_state_aux s ids); auto|done..].
  - rw /extend_log_ids. destruct s as [? ? ? [l]]. cbn in Hrun |- *. by rw Hrun.
  - intros i. by rw ref_at_read.
Qed.

Lemma extend_same_leader_state s ids :
  raft_state_ok s → next_ids s ids → (∀ x y, x ∈ ids → y ∈ ids → x.(leader_id) = y.(leader_id)) →
  ∃ l', extend_log_ids_from_same_leader s ids = Done (set_log_ids s l') ∧ raft_state_ok (set_log_ids s l') ∧
    (LogIdList.last l' = match list.last ids with Some y => Some y | None => last_log_id s end) ∧
    ∀ i, LogIdList.ref_at l' i = log_after s ids i.
Proof.
  intros Hok Hn Hsame. pose proof Hn as [Hc Hx]. pose proof (rs_log_ids s Hok) as Hwf.
  destruct (extend_from_same_leader_wf _ ids Hwf Hc Hsame) as (l' & Hrun & Hwf' & Hlast & Hhead & Hread).
  assert (∀ i, LogIdList.ref_at (LogIdList.new l') i = log_after s ids i) as Hr.
  { intros i. by rw ref_at_read Hread extended_state. }
  exists (LogIdList.new l'). split_and!; [|apply (extend_state_aux s ids); auto|done..].
  - rw /extend_log_ids_from_same_leader. destruct s as [? ? ? [l]]. cbn in Hrun |- *. by rw Hrun.
  - intros i. by rw ref_at_read.
Qed.

(** *** Moving the pointers *)
Lemma set_committed_ok s c :
  raft_state_ok s → log_ptr s c → s.(committed) ⪯ c → raft_state_ok (set_committed s c).
Proof.
  intros Hok Hc Hle. destruct Hok as [H1 H2 H3 H4 H5 H6 H7 H8].
  split; try done; cbn in *; [|order]. case_decide; [order|done].
Qed.

Lemma update_committed_state s c :
  raft_state_ok s → log_ptr s c → MembershipState.validate s.(membership_state) = true →
  same_log (EffectiveMembership.log_id s.(membership_state).(ms_effective)) c →
  ∃ r s', update_committed s c = Done (r, s') ∧ raft_state_ok s' ∧
    MembershipState.validate s'.(membership_state) = true ∧
    s'.(committed) = omax s.(committed) c ∧ s'.(log_ids) = s.(log_ids) ∧
    s'.(vote) = s.(vote) ∧ s'.(io_state) = s.(io_state) ∧
    s'.(membership_state).(ms_effective) = s.(membership_state).(ms_effective) ∧
    (s'.(membership_state).(ms_committed) = s.(membership_state).(ms_committed) ∨
     s'.(membership_state).(ms_committed) = s.(membership_state).(ms_effective)) ∧
    r = if s.(committed) ≺? c then Some s.(committed) else None.
Proof.
  intros Hok Hc Hv Hsame. rw /update_committed. destruct (ltbP (committed s) c) as [Hlt|Hge].
  - destruct (commit_ms _ c Hv Hsame) as (m & Hrun & Hv' & He & Hm). cbn [set_committed membership_state].
    rw Hrun. cbn [mbind outcome_bind]. do 2 eexists. split; [done|]. split_and!; try done.
    + eapply raft_state_ok_ext; [|apply (set_committed_ok s c)]; auto using olt_le.
    + cbn. rw omax_r_eq //. by apply olt_le.
    + cbn. rw Hm. case_match; auto.
  - exists None, s. split_and!; try done; [by rw omax_l_eq|by left].
Qed.

Lemma set_snapshot_ok s m :
  raft_state_ok s → log_ptr s m.(meta_last_log_id) → m.(meta_last_log_id) ≠ None →
  s.(purge_upto) ⪯ m.(meta_last_log_id) → m.(meta_last_log_id) ⪯ s.(committed) →
  raft_state_ok (set_snapshot_meta s m).
Proof.
  intros [H1 H2 H3 H4 H5 H6 H7 H8] Hptr Hne Hp Hc. split; try done. cbn. by rw decide_False.
Qed.

Lemma set_purge_upto_ok s p :
  raft_state_ok s → log_ptr s p → s.(purge_upto) ⪯ p → p ⪯ snapshot_last_log_id s →
  raft_state_ok (set_purge_upto s p).
Proof.
  intros [H1 H2 H3 H4 H5 H6 H7 H8] Hptr Hp Hs. split; try done; cbn in *; [order|].
  case_decide as Hn; [|done]. rw Hn in Hs. apply ole_None in Hs as ->. apply None_le.
Qed.

(** The log after purging up to the entry [upto], which stays as the first one. *)
Lemma purge_state s upto :
  raft_state_ok s → s.(purge_upto) = Some upto →
  ∃ l', purge_log s upto = Done (set_log_ids (set_purged_next s (upto.(index) + 1)) l') ∧
    raft_state_ok (set_log_ids (set_purged_next s (upto.(index) + 1)) l') ∧
    LogIdList.first l' = Some upto ∧ LogIdList.last l' = last_log_id s ∧
    ∀ i, LogIdList.ref_at l' i = if (i <? upto.(index))%N then None else ref_log_id s i.
Proof.
  intros Hok Hu. pose proof (rs_purge_upto_ptr s Hok _ Hu) as Hptr.
  pose proof (pointers_chain s Hok) as (_ & H2 & H3 & H4). rw Hu in H2. cbn in H2.
  destruct (purge_within s.(log_ids).(key_log_ids) upto) as (l' & Hrun & Hwf & Hlast & Hread);
    [apply Hok|change (list.last (key_log_ids (log_ids s))) with (last_log_id s); lia|].
  assert (∀ i, LogIdList.ref_at (LogIdList.new l') i =
     if (i <? index upto)%N then None else ref_log_id s i) as Hr by (intros i; by rw ref_at_read Hread ref_read).
  assert (LogIdList.read l' (index upto) = Some upto) as Hru.
  { rw -ref_at_read Hr. by rw N.ltb_irrefl. }
  assert (head l' = Some upto) as Hhead.
  { apply (head_read [upto]); [done..|]. intros f' Hf' Hlt. pose proof (read_first_key _ _ Hf') as Hrf.
    rw -ref_at_read Hr in Hrf. apply N.ltb_lt in Hlt as Hlt'. by rw Hlt' in Hrf. }
  assert (∀ p, log_ptr s p → Some upto ⪯ p ∨ p = None →
    log_ptr (set_log_ids (set_purged_next s (index upto + 1)) (LogIdList.new l')) p) as Hp.
  { intros p Hp Hle x ->. cbn -[LogIdList.ref_at]. rw Hr. destruct (N.ltb_spec (index x) (index upto)) as [Hlt|_]; [|by apply Hp].
    destruct Hle as [Hle|]; [|done]. apply (ref_le s Hok _ _ _ _ Hptr (Hp _ eq_refl)) in Hle. lia. }
  exists (LogIdList.new l'). split_and!; [|split|done..].
  - rw /purge_log. destruct s as [? ? ? [l]]. cbn in Hrun |- *. by rw Hrun.
  - done.
  - rw decide_False; [cbn; lia|]. cbn. by rw /LogIdList.first /= Hhead.
  - cbn. assert ((index upto + 1 =? 0)%N = false) as -> by (apply N.eqb_neq; lia).
    rw /LogIdList.first /= Hhead Hu. apply ole_refl.
  - apply Hok.
  - apply Hok.
  - refine (Hp (purge_upto s) (rs_purge_upto_ptr s Hok) _). left. rw Hu. apply ole_refl.
  - refine (Hp (snapshot_last_log_id s) (rs_snapshot_ptr s Hok) _).
    pose proof (rs_purge_upto_le s Hok) as Hle. case_decide; [by right|left]. by rw -Hu.
  - refine (Hp (committed s) (rs_committed_ptr s Hok) _). left. rw -Hu. by apply purge_upto_committed.
Qed.

(** Installing a snapshot of entries beyond the committed ones, after conflicting entries are
    removed: the log becomes what follows the snapshot. *)
Lemma install_state s (snap : LogId) m :
  raft_state_ok s → m.(meta_last_log_id) = Some snap → (next_index s.(committed) ≤ snap.(index))%N →
  (∀ y, ref_log_id s snap.(index) = Some y → y = snap) →
  (ref_log_id s snap.(index) = None → last_log_id s ≺ Some snap) →
  let s1 := set_purge_upto (set_committed (set_snapshot_meta s m) (Some snap)) (Some snap) in
  ∃ l', purge_log s1 snap = Done (set_log_ids (set_purged_next s1 (snap.(index) + 1)) l') ∧
    raft_state_ok (set_log_ids (set_purged_next s1 (snap.(index) + 1)) l') ∧
    LogIdList.first l' = Some snap ∧
    ∀ i, LogIdList.ref_at l' i = if (i <? snap.(index))%N then None
                                else if (i =? snap.(index))%N then Some snap else ref_log_id s i.
Proof.
  intros Hok Hm Hc Hsame Hlast s1.
  pose proof (pointers_chain s Hok) as (H1 & H2 & H3 & H4).
  destruct (ref_log_id s (index snap)) as [y|] eqn:Hy.
  - pose proof (Hsame _ eq_refl) as ->. assert (raft_state_ok s1) as Hok1.
    { destruct Hok as [G1 G2 G3 G4 G5 G6 G7 G8]. split; cbn; rw ?Hm; try done.
      - cbn in G3. assert (∀ p, log_ptr s p → (next_index p ≤ next_index (committed s))%N → p ⪯ Some snap) as Hle.
        { intros [x|] Hp Hx; [|apply None_le]. apply (ptr_le s); [by split|done|by intros ? [= <-]|].
          cbn in *. lia. }
        destruct (N.eqb_spec (purged_next s) 0) as [|Hz]; [apply None_le|]. apply Hle; [apply first_ptr|].
        rw decide_False in G2; [done|]. lia.
      - case_decide; apply ole_refl.
      - apply ole_refl.
      - by intros x [= <-].
      - by intros x [= <-].
      - by intros x [= <-]. }
    destruct (purge_state s1 snap Hok1 eq_refl) as (l' & ? & ? & ? & _ & Hr). exists l'. split_and!; [done..|].
    intros i. rw Hr. destruct (N.ltb_spec i (index snap)); [done|].
    destruct (N.eqb_spec i (index snap)) as [->|]; done.
  - specialize (Hlast eq_refl).
    assert (next_index (last_log_id s) ≤ index snap)%N as Hle.
    { destruct (decide (next_index (last_log_id s) ≤ index snap)%N) as [|Hn]; [done|].
      destruct (ref_total s Hok (index snap)) as [y Hy']; [lia..|]. congruence. }
    exists (LogIdList.new [snap]). split_and!.
    + rw /purge_log. destruct s as [? ? ? [l]]. cbn in Hlast, Hle |- *.
      pose proof (purge_beyond l snap Hle Hlast) as Hpb. cbn in Hpb. by rw Hpb.
    + split; cbn; rw ?Hm; try done.
      * rw decide_False; [lia|done].
      * assert ((index snap + 1 =? 0)%N = false) as -> by (apply N.eqb_neq; lia). apply ole_refl.
      * case_decide; apply ole_refl.
      * apply ole_refl.
      * intros x [= <-]. cbn -[LogIdList.ref_at]. rw ref_at_read. by apply read_first_key.
      * intros x [= <-]. cbn -[LogIdList.ref_at]. rw ref_at_read. by apply read_first_key.
      * intros x [= <-]. cbn -[LogIdList.ref_at]. rw ref_at_read. by apply read_first_key.
    + done.
    + intros i. rw ref_at_read read_single.
      destruct (N.ltb_spec i (index snap)), (N.eqb_spec i (index snap)) as [->|]; try done; try lia.
      symmetry. apply ref_beyond; [done|lia].
Qed.

(** *** Accepting a write *)
Definition with_accepted s (io : IOId) : RaftState :=
  set_io_state s (IOState.set_io_progress s.(io_state)
    {| accepted := Some io; submitted := s.(io_state).(io_progress).(submitted);
       flushed := s.(io_state).(io_progress).(flushed) |}).

Lemma vote_compat_sym (a b : Vote) : vote_compat a b → vote_compat b a.
Proof.
  rw /vote_compat (lid_cmp_opp (vote_leader_id a)). intros Hc Hb Ha. specialize (Hc Ha Hb).
  by destruct (lid_partial_cmp _ _).
Qed.

(** A write on behalf of a vote that is not below the accepted one is accepted: the accepted id
    becomes the greater of the two, and its vote is the vote of the new write. *)
Lemma accept_io_run s io :
  (∀ cur, accepted_io s = Some cur →
     vote_compat (IOId.to_vote io) (IOId.to_vote cur) ∧ vote_le (IOId.to_vote cur) (IOId.to_vote io)) →
  ∃ a, accept_io s io = Done (accepted_io s, with_accepted s a) ∧
    io_opt_le (accepted_io s) (Some a) ∧ io_le io a ∧ IOId.to_vote a = IOId.to_vote io ∧
    (a = io ∨ accepted_io s = Some a).
Proof.
  intros Hacc. rw /accept_io /accepted_io in Hacc |- *.
  destruct s.(io_state).(io_progress).(accepted) as [cur|] eqn:Hcur.
  - destruct (Hacc cur eq_refl) as [Hcompat Hle].
    rw /ref_vote_ge (partial_cmp_spec _ _ Hcompat). cbn [mbind outcome_bind fmap outcome_fmap].
    rw (proj2 (vote_ge_cmp _ _) Hle). cbn [assert_ mbind outcome_bind].
    rw /IOId.partial_cmp !io_as_ref_vote (partial_cmp_spec _ _ Hcompat). cbn [mbind outcome_bind].
    assert (IOProgress.is_none_or (Some cur) (λ x, IOId.le x io) = Done true ∧ io_le cur io ∨
            io_le io cur ∧ IOId.to_vote cur = IOId.to_vote io ∧
            vote_cmp (IOId.to_vote io) (IOId.to_vote cur) = Some Eq ∧
            pcmp_gt (Some (cmp (IOId.last_log_id io) (IOId.last_log_id cur))) = false) as Hcase.
    { destruct Hle as [Hlt|Heq].
      - left. assert (io_le cur io) by by left. split; [|done]. apply io_advance; [done|]. by apply vote_compat_sym.
      - destruct (ltbP (IOId.last_log_id cur) (IOId.last_log_id io)) as [Hlt|Hge].
        + left. assert (io_le cur io) by (right; split; [done|by apply olt_le]).
          split; [|done]. apply io_advance; [done|]. by apply vote_compat_sym.
        + right. split_and!; [right; split; [by rw Heq|order]|done|by rw Heq vote_cmp_refl|].
          rw /ole in Hge. by destruct (cmp (IOId.last_log_id io) (IOId.last_log_id cur)). }
    destruct Hcase as [[Hadv Hlt]|(Hge & Hv & Hvc & Hcmp)].
    + destruct (vote_cmp (IOId.to_vote io) (IOId.to_vote cur)) as [[]|] eqn:Hvc.
      * cbn [fmap outcome_fmap]. destruct (pcmp_gt _) eqn:Hg.
        -- rw /IOProgress.accept Hcur Hadv. cbn [mbind outcome_bind assert_]. exists io.
           split_and!; try done; [apply io_le_refl|by left].
        -- exists cur. apply vote_cmp_eq in Hvc. split_and!.
           ++ do 2 f_equal. rw /with_accepted. destruct s as [? ? ? ? ? ? ? [? [] ? ? ?]]; cbn in *. by subst.
           ++ apply io_le_refl.
           ++ right. split; [done|]. rw /ole. destruct (cmp _ _) eqn:E; done.
           ++ done.
           ++ by right.
      * exfalso. apply io_le_vote in Hlt. destruct Hlt as [Hlt|Heq].
        -- eapply vote_lt_irrefl, vote_lt_trans; [exact Hlt|exact Hvc].
        -- rw Heq vote_cmp_refl in Hvc. done.
      * cbn [fmap outcome_fmap pcmp_gt]. rw /IOProgress.accept Hcur Hadv. cbn [mbind outcome_bind assert_].
        exists io. split_and!; try done; [apply io_le_refl|by left].
      * exfalso. apply io_le_vote, vote_ge_cmp in Hlt. by rw Hvc in Hlt.
    + rw Hvc. cbn [fmap outcome_fmap]. rw Hcmp. exists cur. split_and!; try done.
      * do 2 f_equal. rw /with_accepted. destruct s as [? ? ? ? ? ? ? [? [] ? ? ?]]; cbn in *. by subst.
      * apply io_le_refl.
      * by right.
  - cbn [assert_ mbind outcome_bind]. rw /IOProgress.accept Hcur. cbn [IOProgress.is_none_or mbind outcome_bind assert_].
    exists io. split_and!; try done; [apply io_le_refl|by left].
Qed.
End raft_state_ops.

(** ** Membership log ids and the log *)
Section membership_on_log.
Context {C : RaftTypeConfig}.
Import RaftState.
Implicit Types s : RaftState.

(** The id is of this log (maybe of its purged part): not beyond the end, and ordered with every
    entry as its index is. *)
Definition on_log s (p : option LogId) : Prop :=
  (next_index p ≤ next_index (last_log_id s))%N ∧ ∀ i y, ref_log_id s i = Some y → same_log p (Some y).

Record membership_ok s : Prop := {
  mo_valid : MembershipState.validate s.(membership_state) = true;
  mo_committed : on_log s (EffectiveMembership.log_id s.(membership_state).(ms_committed));
  mo_effective : on_log s (EffectiveMembership.log_id s.(membership_state).(ms_effective));
}.

Lemma same_log_intro (x y : LogId) :
  (x ⪯ y ↔ (x.(index) ≤ y.(index))%N) → (y ⪯ x ↔ (y.(index) ≤ x.(index))%N) → same_log (Some x) (Some y).
Proof.
  intros H1 H2. rw /same_log. change (cmp (Some x) (Some y)) with (cmp x y).
  change (cmp (opt_index (Some x)) (opt_index (Some y))) with (N.compare x.(index) y.(index)).
  destruct (N.compare_spec (index x) (index y)) as [Heq|Hlt|Hlt].
  - apply cmp_eq, ole_antisymm; [apply H1|apply H2]; lia.
  - change (x ≺ y). assert (x ⪯ y) by (apply H1; lia).
    assert (¬ y ⪯ x) by (rw H2; lia). order.
  - rw cmp_opp. assert (y ⪯ x) by (apply H2; lia). assert (¬ x ⪯ y) by (rw H1; lia).
    assert (y ≺ x) as Hyx by order. rw /olt in Hyx. by rw Hyx.
Qed.

Lemma same_log_None (p : option LogId) : same_log p None.
Proof. by destruct p. Qed.
Lemma same_log_None_l (p : option LogId) : same_log None p.
Proof. by destruct p. Qed.

Lemma ptr_on_log s p : raft_state_ok s → log_ptr s p → on_log s p.
Proof.
  intros Hok Hp. split; [apply (ptr_le s Hok p); [done|by apply last_ptr|]|].
  - destruct p as [x|]; [|apply None_le]. destruct (ref_bounds s Hok _ _ (Hp _ eq_refl)) as (f & q & _ & Hq & _ & Hle).
    rw Hq. apply Some_ole. by apply (ref_le s Hok _ _ _ _ (Hp _ eq_refl) (ref_last s Hok q Hq)).
  - intros i y Hy. destruct p as [x|]; [|done]. pose proof (ref_index _ _ _ Hy) as <-.
    apply same_log_intro; apply (ref_le s Hok); auto.
Qed.

Lemma on_log_ptr s p c : on_log s p → log_ptr s c → same_log p c.
Proof. intros [_ Hs] Hc. destruct c as [y|]; [|apply same_log_None]. exact (Hs _ _ (Hc _ eq_refl)). Qed.

(** *** Truncating and extending *)
Lemma truncate_last s since l' :
  raft_state_ok s → raft_state_ok (set_log_ids s l') →
  (∀ i, LogIdList.ref_at l' i = if (i <? since)%N then ref_log_id s i else None) →
  (s.(purged_next) ≤ since)%N → (since ≤ next_index (last_log_id s))%N →
  next_index (LogIdList.last l') = since ∧
  LogIdList.last l' = (if decide (since = 0)%N then None else ref_log_id s (since - 1)).
Proof.
  intros Hok Hok' Hr Hp Hl. assert (∀ q, LogIdList.last l' = Some q → (index q < since)%N) as Hlt.
  { intros q Hq. pose proof (ref_last _ Hok' q Hq) as Hrq. cbn -[LogIdList.ref_at] in Hrq. rw Hr in Hrq.
    by destruct (N.ltb_spec (index q) since). }
  destruct (decide (since = 0)%N) as [->|Hz].
  - destruct (LogIdList.last l') as [q|]; [|done]. specialize (Hlt q eq_refl). lia.
  - destruct (ref_total s Hok (since - 1)) as [p Hpr]; [lia..|].
    assert (ref_log_id (set_log_ids s l') (since - 1) = Some p) as Hpr'.
    { cbn -[LogIdList.ref_at]. rw Hr. destruct (N.ltb_spec (since - 1) since); [done|lia]. }
    destruct (ref_bounds _ Hok' _ _ Hpr') as (_ & q & _ & Hq & _ & Hle). change (LogIdList.last l' = Some q) in Hq.
    specialize (Hlt q Hq). assert (index q = since - 1)%N as Hqi by lia.
    pose proof (ref_last _ Hok' q Hq) as Hrq. rw Hqi Hpr' in Hrq. rw Hq Hpr. simplify_eq.
    split; [cbn; lia|done].
Qed.

Lemma on_log_shrink s s' p :
  (∀ i y, ref_log_id s' i = Some y → ref_log_id s i = Some y) →
  (next_index p ≤ next_index (last_log_id s'))%N → on_log s p → on_log s' p.
Proof. intros Hsub Hle [_ Hs]. split; [done|]. intros i y Hy. eapply Hs. by apply Hsub. Qed.

Lemma on_log_extend s ids l' p :
  raft_state_ok s → next_ids s ids → raft_state_ok (set_log_ids s l') →
  (LogIdList.last l' = match list.last ids with Some y => Some y | None => last_log_id s end) →
  (∀ i, LogIdList.ref_at l' i = log_after s ids i) →
  on_log s p → on_log (set_log_ids s l') p.
Proof.
  intros Hok Hn Hok' Hlast Hr [Hle Hs]. destruct p as [x|]; [|split; [cbn; lia|intros i y _; apply same_log_None_l]].
  destruct (last_log_id s) as [q|] eqn:Hq; [|cbn in Hle; lia].
  pose proof (ref_last s Hok q Hq) as Hrq.
  assert (ref_log_id (set_log_ids s l') (index q) = Some q) as Hrq'.
  { cbn -[LogIdList.ref_at]. rw Hr /log_after Hq. cbn [next_index]. destruct (N.ltb_spec (index q) (index q + 1)); [done|lia]. }
  assert (x ⪯ q) as Hxq. { apply Some_ole, (same_log_le _ _ (Hs _ _ Hrq)), Some_ole, N_ole. cbn in Hle. lia. }
  split.
  - cbn -[LogIdList.last] in Hle |- *. pose proof (ref_lt_last _ Hok' _ _ Hrq') as Hlt.
    cbn -[LogIdList.last] in Hlt. lia.
  - intros i y Hy. cbn -[LogIdList.ref_at] in Hy. rw Hr /log_after Hq in Hy. cbn [next_index] in Hy.
    destruct (N.ltb_spec i (index q + 1)) as [|Hge]; [by eapply Hs|].
    assert (ref_log_id (set_log_ids s l') i = Some y) as Hy'.
    { cbn -[LogIdList.ref_at]. rw Hr /log_after Hq. cbn [next_index]. destruct (N.ltb_spec i (index q + 1)); [lia|done]. }
    pose proof (ref_index _ _ _ Hy') as Hyi.
    assert (q.(leader_id) ⪯ y.(leader_id)) as Hl by (eapply (ref_mono _ Hok'); [done..|lia]).
    apply log_id_leader_le in Hxq as Hxl.
    assert (x ≺ y) as Hlt.
    { apply log_id_lt_of_index; [order|]. cbn in Hle. lia. }
    cbn in Hle. apply same_log_intro; split; intros; [lia|by apply olt_le|exfalso; order|lia].
Qed.

(** *** The appended ids are on the new log *)
Lemma next_ids_lookup s ids n x :
  next_ids s ids → ids !! n = Some x → x.(index) = (next_index (last_log_id s) + N.of_nat n)%N.
Proof.
  intros [[Hs _] Hh] Hx. destruct ids as [|y ids]; [done|]. rw (log_next_lookup _ _ _ _ Hs Hx).
  by rw (Hh y).
Qed.

Lemma next_ids_sorted s ids : next_ids s ids → StronglySorted key_le ids.
Proof. intros [[Hs _] _]. destruct ids; [constructor|]. by apply log_next_sorted. Qed.

Lemma log_after_elem s ids x : next_ids s ids → x ∈ ids → log_after s ids x.(index) = Some x.
Proof.
  intros Hn [n Hx]%list_elem_of_lookup. rw /log_after (next_ids_lookup _ _ _ _ Hn Hx).
  destruct (N.ltb_spec (next_index (last_log_id s) + N.of_nat n) (next_index (last_log_id s))); [lia|].
  replace (N.to_nat _) with n by lia. done.
Qed.

Lemma next_ids_head s ids x : next_ids s ids → head ids = Some x → last_log_id s ≺ Some x.
Proof.
  intros [[_ Hc] _] Hx. destruct (last_log_id s) as [q|] eqn:Hq; [|done].
  apply Some_olt, key_le_olt, log_next_key. by apply Hc.
Qed.

(** Committing up to an entry of the log keeps both invariants. *)
Lemma commit_state s c :
  raft_state_ok s → membership_ok s → log_ptr s c →
  ∃ r s', update_committed s c = Done (r, s') ∧ raft_state_ok s' ∧ membership_ok s' ∧
    s'.(committed) = omax s.(committed) c ∧ s'.(log_ids) = s.(log_ids) ∧
    s'.(vote) = s.(vote) ∧ s'.(io_state) = s.(io_state) ∧
    s'.(membership_state).(ms_effective) = s.(membership_state).(ms_effective) ∧
    r = if s.(committed) ≺? c then Some s.(committed) else None.
Proof.
  intros Hok [Hv Hmc Hme] Hc.
  destruct (update_committed_state s c Hok Hc Hv) as (r & s' & Hrun & Hok' & Hv' & Hcm & Hl & Hvt & Hio & He & Hm & Hr).
  { by eapply on_log_ptr. }
  exists r, s'. split_and!; try done.
  assert (∀ p, on_log s p → on_log s' p) as Hon.
  { intros p. rw /on_log /=. by rw Hl. }
  split; [done| |].
  - destruct Hm as [-> | ->]; by apply Hon.
  - rw He. by apply Hon.
Qed.
End membership_on_log.
