(* ===== verification/Errors.v ===== *)
(** * Errors (openraft/src/error.rs, error/, storage_error.rs)

    The errors that pass between the storage, the network and the tasks, and how one is converted into
    another.  The source of an error ([AnyError]) is its message.  [RPCError] and [RaftError] take the
    error of the remote API as a parameter, the empty type for Rust's [Infallible]. *)

From S2P Require Export RaftState.

(** ** Storage errors *)
Inductive ErrorSubject {C : RaftTypeConfig} :=
| Subject_Store | Subject_Vote | Subject_Logs | Subject_Log (log_id : LogId) | Subject_LogIndex (i : N)
| Subject_Apply (log_id : LogId) | Subject_StateMachine | Subject_Snapshot (s : option SnapshotSignature)
| Subject_None.

Inductive ErrorVerb := Verb_Read | Verb_Write | Verb_Seek | Verb_Delete.

(** The source of an error is its message. *)
Record StorageError {C : RaftTypeConfig} := { subject : ErrorSubject; verb : ErrorVerb; source : string }.

Module StorageError.
Section ops.
Context {C : RaftTypeConfig}.
Definition new (subject : ErrorSubject) (verb : ErrorVerb) (source : string) : StorageError :=
  {| subject := subject; verb := verb; source := source |}.
Definition write_log_entry (log_id : LogId) source := new (Subject_Log log_id) Verb_Write source.
Definition read_log_at_index (i : N) source := new (Subject_LogIndex i) Verb_Read source.
Definition read_log_entry (log_id : LogId) source := new (Subject_Log log_id) Verb_Read source.
Definition write_logs source := new Subject_Logs Verb_Write source.
Definition read_logs source := new Subject_Logs Verb_Read source.
Definition write_vote source := new Subject_Vote Verb_Write source.
Definition read_vote source := new Subject_Vote Verb_Read source.
Definition apply (log_id : LogId) source := new (Subject_Apply log_id) Verb_Write source.
Definition write_state_machine source := new Subject_StateMachine Verb_Write source.
Definition read_state_machine source := new Subject_StateMachine Verb_Read source.
Definition write_snapshot (s : option SnapshotSignature) source := new (Subject_Snapshot s) Verb_Write source.
Definition read_snapshot (s : option SnapshotSignature) source := new (Subject_Snapshot s) Verb_Read source.
Definition read source := new Subject_Store Verb_Read source.
Definition write source := new Subject_Store Verb_Write source.
End ops.
End StorageError.

(** ** Fatal and API errors *)
Inductive Fatal {C : RaftTypeConfig} := Fatal_StorageError (e : StorageError) | Fatal_Panicked | Fatal_Stopped.

(** [RaftError<C, E>]: fatal, or an error of the API. *)
Inductive RaftError {C : RaftTypeConfig} (E : Type) := APIError (e : E) | RaftError_Fatal (f : Fatal).
Arguments APIError {C E} e.
Arguments RaftError_Fatal {C E} f.

Module RaftError.
Section ops.
Context {C : RaftTypeConfig} {E : Type}.
Definition into_api_error (e : RaftError E) : option E :=
  match e with APIError e => Some e | RaftError_Fatal _ => None end.
Definition into_fatal (e : RaftError E) : option Fatal :=
  match e with APIError _ => None | RaftError_Fatal f => Some f end.
(** [From<StorageError>] *)
Definition from_storage_error (e : StorageError) : RaftError E := RaftError_Fatal (Fatal_StorageError e).
End ops.
End RaftError.

(** ** RPC errors *)
Inductive RPCTypes := RPC_Vote | RPC_AppendEntries | RPC_InstallSnapshot | RPC_TransferLeader.

Definition u64_max : N := 2 ^ 64 - 1.

Record PayloadTooLarge := {
  ptl_action : RPCTypes;
  ptl_entries_hint : N;
  ptl_bytes_hint : N;
  ptl_source : option string;
}.

Module PayloadTooLarge.
Definition new_entries_hint (entries_hint : N) : Outcome PayloadTooLarge :=
  _ ← assert_ (0 <? entries_hint)%N "entries_hint should be greater than 0";
  Done {| ptl_action := RPC_AppendEntries; ptl_entries_hint := entries_hint; ptl_bytes_hint := u64_max;
          ptl_source := None |}.
Definition new_bytes_hint (bytes_hint : N) : Outcome PayloadTooLarge :=
  _ ← assert_ (0 <? bytes_hint)%N "bytes_hint should be greater than 0";
  Done {| ptl_action := RPC_InstallSnapshot; ptl_entries_hint := u64_max; ptl_bytes_hint := bytes_hint;
          ptl_source := None |}.
Definition with_source_error (p : PayloadTooLarge) (e : string) : PayloadTooLarge :=
  {| ptl_action := p.(ptl_action); ptl_entries_hint := p.(ptl_entries_hint);
     ptl_bytes_hint := p.(ptl_bytes_hint); ptl_source := Some e |}.
End PayloadTooLarge.

Record Timeout {C : RaftTypeConfig} := {
  to_action : RPCTypes;
  to_id : NodeId;
  to_target : NodeId;
  to_timeout : Duration;
}.

Record RemoteError {C : RaftTypeConfig} (T : Type) := {
  remote_target : NodeId;
  remote_target_node : option Node;
  remote_source : T;
}.
Arguments remote_target {C T} _.
Arguments remote_target_node {C T} _.
Arguments remote_source {C T} _.

Module RemoteError.
Section ops.
Context {C : RaftTypeConfig} {T : Type}.
Definition new (target : NodeId) (e : T) : RemoteError T :=
  {| remote_target := target; remote_target_node := None; remote_source := e |}.
Definition new_with_node (target : NodeId) (node : Node) (e : T) : RemoteError T :=
  {| remote_target := target; remote_target_node := Some node; remote_source := e |}.
(** [From<RemoteError<C, Fatal<C>>>] *)
Definition from_fatal (e : RemoteError Fatal) : RemoteError (RaftError T) :=
  {| remote_target := e.(remote_target); remote_target_node := e.(remote_target_node);
     remote_source := RaftError_Fatal e.(remote_source) |}.
End ops.
End RemoteError.

(** [NetworkError] and [Unreachable] are their message. *)
Inductive RPCError {C : RaftTypeConfig} (E : Type) :=
| RPCError_Timeout (e : Timeout)
| RPCError_Unreachable (source : string)
| RPCError_PayloadTooLarge (e : PayloadTooLarge)
| RPCError_Network (source : string)
| RPCError_RemoteError (e : RemoteError E).
Arguments RPCError_Timeout {C E} e.
Arguments RPCError_Unreachable {C E} source.
Arguments RPCError_PayloadTooLarge {C E} e.
Arguments RPCError_Network {C E} source.
Arguments RPCError_RemoteError {C E} e.

(** ** Errors of replication *)
Record ReplicationClosed := { reason : string }.

Inductive ReplicationError {C : RaftTypeConfig} :=
| RE_HigherVote (higher sender_vote : Vote)
| RE_Closed (e : ReplicationClosed)
| RE_StorageError (e : StorageError)
| RE_RPCError (e : RPCError Empty_set).

Inductive StreamingError {C : RaftTypeConfig} :=
| SE_Closed (e : ReplicationClosed)
| SE_StorageError (e : StorageError)
| SE_Timeout (e : Timeout)
| SE_Unreachable (source : string)
| SE_Network (source : string).

(** [From<StreamingError> for ReplicationError] *)
Definition replication_from_streaming {C : RaftTypeConfig} (e : StreamingError) : ReplicationError :=
  match e with
  | SE_Closed e => RE_Closed e
  | SE_StorageError e => RE_StorageError e
  | SE_Timeout e => RE_RPCError (RPCError_Timeout e)
  | SE_Unreachable e => RE_RPCError (RPCError_Unreachable e)
  | SE_Network e => RE_RPCError (RPCError_Network e)
  end.

(** [From<RPCError> for StreamingError] *)
Definition streaming_from_rpc {C : RaftTypeConfig} (e : RPCError Empty_set) : Outcome StreamingError :=
  match e with
  | RPCError_Timeout e => Done (SE_Timeout e)
  | RPCError_Unreachable e => Done (SE_Unreachable e)
  | RPCError_PayloadTooLarge _ => Panic "PayloadTooLarge should not be converted to StreamingError"
  | RPCError_Network e => Done (SE_Network e)
  | RPCError_RemoteError _ => Panic "Infallible error should not be produced at all"
  end.

(** ** [DecomposeResult] (error/decompose.rs): the error of the API apart from the others *)
Section decompose.
Context {C : RaftTypeConfig} {T E : Type}.

Definition decompose_raft_error (r : Result T (RaftError E)) : Result (Result T E) (RaftError Empty_set) :=
  match r with
  | ROk r => ROk (ROk r)
  | RErr (APIError e) => ROk (RErr e)
  | RErr (RaftError_Fatal e) => RErr (RaftError_Fatal e)
  end.

(** A fatal error of the remote node makes it unreachable; [show] formats it. *)
Definition decompose_rpc_error (show : Fatal → string) (r : Result T (RPCError (RaftError E))) :
    Result (Result T E) (RPCError Empty_set) :=
  match r with
  | ROk r => ROk (ROk r)
  | RErr (RPCError_Timeout e) => RErr (RPCError_Timeout e)
  | RErr (RPCError_Unreachable e) => RErr (RPCError_Unreachable e)
  | RErr (RPCError_PayloadTooLarge e) => RErr (RPCError_PayloadTooLarge e)
  | RErr (RPCError_Network e) => RErr (RPCError_Network e)
  | RErr (RPCError_RemoteError e) =>
      match e.(remote_source) with
      | APIError e => ROk (RErr e)
      | RaftError_Fatal e => RErr (RPCError_Unreachable (show e))
      end
  end.
End decompose.

(** [decompose_infallible] *)
Definition into_ok {C : RaftTypeConfig} {T OE : Type} (r : Result (Result T Empty_set) OE) : Result T OE :=
  match r with
  | ROk (ROk t) => ROk t
  | ROk (RErr e) => match e with end
  | RErr e => RErr e
  end.
