(* ===== verification/Command.v ===== *)
(** * Messages, errors and commands

    The RPC messages (openraft/src/raft/message/), the rejections of error.rs, the replication
    requests (openraft/src/replication/), the state machine commands (openraft/src/core/sm/command.rs)
    and the commands the engine outputs (openraft/src/engine/command.rs, engine_output.rs).  A
    one-shot channel to a caller is its number; a response is the value sent and the channel. *)

From S2P Require Export Errors.

Notation Tx := N (only parsing).

(** ** Messages *)
Record VoteRequest {C : RaftTypeConfig} := { vreq_vote : Vote; vreq_last_log_id : option LogId }.

Record VoteResponse {C : RaftTypeConfig} := {
  vresp_vote : Vote;
  vote_granted : bool;
  vresp_last_log_id : option LogId;
}.

Definition VoteResponse_new {C : RaftTypeConfig} (vote : Vote) (last_log_id : option LogId) (granted : bool) :
    VoteResponse :=
  {| vresp_vote := vote; vote_granted := granted; vresp_last_log_id := last_log_id |}.

Definition is_granted_to {C : RaftTypeConfig} (r : VoteResponse) (candidate_vote : Vote) : bool :=
  bool_decide (r.(vresp_vote) = candidate_vote).

Record AppendEntriesRequest {C : RaftTypeConfig} := {
  areq_vote : Vote;
  areq_prev_log_id : option LogId;
  areq_entries : list Entry;
  areq_leader_commit : option LogId;
}.

Inductive AppendEntriesResponse {C : RaftTypeConfig} :=
| Success
| PartialSuccess (matching : option LogId)
| Conflict
| HigherVote (vote : Vote).

Definition is_success {C : RaftTypeConfig} (r : AppendEntriesResponse) : bool :=
  match r with Success => true | _ => false end.
Definition is_conflict {C : RaftTypeConfig} (r : AppendEntriesResponse) : bool :=
  match r with Conflict => true | _ => false end.

Record SnapshotResponse {C : RaftTypeConfig} := { sresp_vote : Vote }.
Record InstallSnapshotResponse {C : RaftTypeConfig} := { iresp_vote : Vote }.
Definition from_snapshot_response {C : RaftTypeConfig} (r : SnapshotResponse) : InstallSnapshotResponse :=
  {| iresp_vote := r.(sresp_vote) |}.

Record TransferLeaderRequest {C : RaftTypeConfig} := {
  from_leader : Vote;
  to_node_id : NodeId;
  transfer_last_log_id : option LogId;
}.

(** ** Errors *)
Inductive RejectVoteRequest {C : RaftTypeConfig} := ByVote (v : Vote) | ByLastLogId (l : option LogId).

Inductive RejectAppendEntries {C : RaftTypeConfig} :=
| RejectByVote (v : Vote)
| ByConflictingLogId (expect : LogId) (local : option LogId).

(** [impl From<RejectVoteRequest> for RejectAppendEntries] *)
Definition reject_append_from_vote {C : RaftTypeConfig} (r : RejectVoteRequest) : Outcome RejectAppendEntries :=
  match r with
  | ByVote v => Done (RejectByVote v)
  | ByLastLogId _ => Panic "the leader should always has a greater last log id"
  end.

(** [impl From<Result<(), RejectAppendEntries>> for AppendEntriesResponse] *)
Definition append_response_from {C : RaftTypeConfig} (r : Result unit RejectAppendEntries) : AppendEntriesResponse :=
  match r with
  | ROk _ => Success
  | RErr (RejectByVote v) => HigherVote v
  | RErr (ByConflictingLogId _ _) => Conflict
  end.

Inductive InitializeError {C : RaftTypeConfig} :=
| NotAllowed (last_log_id : option LogId) (vote : Vote)
| NotInMembers (node_id : NodeId) (membership : Membership).

(** [InstallSnapshotError] *)
Inductive InstallSnapshotError :=
| SnapshotMismatch (expect_id : string) (expect_offset : N) (got_id : string) (got_offset : N).

(** ** Replication requests *)
Record ReplicationSessionId {C : RaftTypeConfig} := {
  leader_vote : CommittedVote;
  membership_log_id : option LogId;
}.
Definition ReplicationSessionId_new {C : RaftTypeConfig} (vote : CommittedVote) (membership_log_id : option LogId) :
    ReplicationSessionId :=
  {| leader_vote := vote; membership_log_id := membership_log_id |}.
Definition session_committed_vote {C : RaftTypeConfig} (s : ReplicationSessionId) : CommittedVote := s.(leader_vote).
Definition session_vote {C : RaftTypeConfig} (s : ReplicationSessionId) : Vote := committed_into_vote s.(leader_vote).

(** The data a replication stream sends. *)
Inductive Data {C : RaftTypeConfig} :=
| Data_Committed
| Data_Logs (log_id_range : LogIdRange)
| Data_Snapshot (last_log_id : option LogId)
| Data_SnapshotCallback (start_time : Instant) (snapshot_meta : SnapshotMeta) (result : Result SnapshotResponse StreamingError).

Definition has_payload {C : RaftTypeConfig} (d : Data) : bool :=
  match d with Data_Committed => false | _ => true end.

Inductive Replicate {C : RaftTypeConfig} :=
| Replicate_Committed (c : option LogId)
| Replicate_Data (d : Data).

Definition Replicate_logs {C : RaftTypeConfig} (r : LogIdRange) : Replicate := Replicate_Data (Data_Logs r).
Definition Replicate_snapshot {C : RaftTypeConfig} (l : option LogId) : Replicate := Replicate_Data (Data_Snapshot l).

Record ReplicationProgress {C : RaftTypeConfig} := { rp_target : NodeId; rp_progress : ProgressEntry }.

(** [ReplicationResult]: [ROk] for matching, [RErr] for conflict. *)
Notation ReplicationResult := (Result (option LogId) LogId) (only parsing).

(** ** State machine commands *)
Inductive SmCommand {C : RaftTypeConfig} :=
| BuildSnapshot
| GetSnapshot (tx : Tx)
| BeginReceivingSnapshot (tx : Tx)
| InstallFullSnapshot (io_id : IOId) (snapshot : Snapshot)
| SmApply (first last : LogId)
| Func (func : N).

Definition get_submit_io {C : RaftTypeConfig} (c : SmCommand) : option IOId :=
  match c with InstallFullSnapshot io_id _ => Some io_id | _ => None end.

(** ** Commands *)
Inductive Condition {C : RaftTypeConfig} :=
| IOFlushed (io_id : IOId)
| LogFlushed (log_id : option LogId)
| Applied (log_id : option LogId)
| Cond_Snapshot (log_id : option LogId).

Inductive Respond {C : RaftTypeConfig} :=
| Respond_Vote (value : VoteResponse) (tx : Tx)
| Respond_AppendEntries (value : AppendEntriesResponse) (tx : Tx)
| Respond_ReceiveSnapshotChunk (value : Result unit InstallSnapshotError) (tx : Tx)
| Respond_InstallSnapshot (value : Result InstallSnapshotResponse InstallSnapshotError) (tx : Tx)
| Respond_InstallFullSnapshot (value : SnapshotResponse) (tx : Tx)
| Respond_Initialize (value : Result unit InitializeError) (tx : Tx).

Inductive Command {C : RaftTypeConfig} :=
| UpdateIOProgress (when : option Condition) (io_id : IOId)
| AppendInputEntries (committed_vote : CommittedVote) (entries : list Entry)
| ReplicateCommitted (committed : option LogId)
| BroadcastHeartbeat (session_id : ReplicationSessionId) (committed : option LogId)
| SaveCommitted (committed : LogId)
| Apply (already_committed : option LogId) (upto : LogId)
| ReplicateTo (target : NodeId) (req : Replicate)
| BroadcastTransferLeader (req : TransferLeaderRequest)
| RebuildReplicationStreams (targets : list ReplicationProgress)
| SaveVote (vote : Vote)
| SendVote (vote_req : VoteRequest)
| PurgeLog (upto : LogId)
| TruncateLog (since : LogId)
| StateMachine (command : SmCommand)
| RespondCmd (when : option Condition) (resp : Respond).

Inductive CommandKind := Kind_Log | Kind_Network | Kind_StateMachine | Kind_Main.

Module Command.
Section ops.
Context {C : RaftTypeConfig}.

Definition kind (c : Command) : CommandKind :=
  match c with
  | RebuildReplicationStreams _ | RespondCmd _ _ => Kind_Main
  | UpdateIOProgress _ _ | AppendInputEntries _ _ | SaveVote _ | TruncateLog _ | SaveCommitted _
  | PurgeLog _ => Kind_Log
  | ReplicateCommitted _ | BroadcastHeartbeat _ _ | ReplicateTo _ _ | BroadcastTransferLeader _
  | SendVote _ => Kind_Network
  | Apply _ _ | StateMachine _ => Kind_StateMachine
  end.

Definition condition (c : Command) : option Condition :=
  match c with
  | RespondCmd when _ => when
  | UpdateIOProgress when _ => when
  | PurgeLog upto => Some (Cond_Snapshot (Some upto))
  | _ => None
  end.
End ops.
End Command.

(** ** [EngineOutput]: the queue of commands *)
Record EngineOutput {C : RaftTypeConfig} := { commands : list Command }.

Module EngineOutput.
Section ops.
Context {C : RaftTypeConfig}.

Definition new : EngineOutput := {| commands := [] |}.
Definition len (o : EngineOutput) : nat := length o.(commands).
Definition push_command (o : EngineOutput) (cmd : Command) : EngineOutput :=
  {| commands := o.(commands) ++ [cmd] |}.
Definition postpone_command (o : EngineOutput) (cmd : Command) : EngineOutput :=
  {| commands := cmd :: o.(commands) |}.
Definition pop_command (o : EngineOutput) : option Command * EngineOutput :=
  match o.(commands) with
  | [] => (None, o)
  | cmd :: rest => (Some cmd, {| commands := rest |})
  end.
End ops.
End EngineOutput.
