(* ===== verification/EngineBase.v ===== *)
(** * The engine's state and the monad its handlers run in (openraft/src/engine/engine_impl.rs)

    [Engine] has the fields of the source's struct.  A handler is a computation of the state monad
    [M] over [Rt]: the engine, the clock that [C::now()] reads, and the replies sent straight
    through a client's responder.  The clock moves forward by an arbitrary amount [drift n] after
    its [n]-th reading.  In the source a handler borrows some fields of the engine; here it reads
    and assigns them in place, and a handler that borrows the leader unwraps [Engine.leader]. *)

From S2P Require Export Command.

Notation LeaderQuorumSet := (Joint (list NodeId)) (only parsing).

Module Engine.
Record Engine {C : RaftTypeConfig} := {
  config : EngineConfig.EngineConfig;
  state : RaftState.RaftState;
  seen_greater_log : bool;
  leader : option (Leader.Leader LeaderQuorumSet);
  candidate : option (Candidate.Candidate LeaderQuorumSet);
  output : EngineOutput;
}.

Section ops.
Context {C : RaftTypeConfig}.

Definition new (init_state : RaftState.RaftState) (config : EngineConfig.EngineConfig) : Engine := {|
  config := config; state := init_state; seen_greater_log := false; leader := None; candidate := None;
  output := EngineOutput.new |}.

Definition testing_default (id : NodeId) : Engine := new RaftState.default (EngineConfig.new_default id).

Definition set_state (e : Engine) s : Engine := {| config := e.(config); state := s;
  seen_greater_log := e.(seen_greater_log); leader := e.(leader); candidate := e.(candidate); output := e.(output) |}.
Definition set_seen_greater_log (e : Engine) b : Engine := {| config := e.(config); state := e.(state);
  seen_greater_log := b; leader := e.(leader); candidate := e.(candidate); output := e.(output) |}.
Definition set_leader (e : Engine) l : Engine := {| config := e.(config); state := e.(state);
  seen_greater_log := e.(seen_greater_log); leader := l; candidate := e.(candidate); output := e.(output) |}.
Definition set_candidate (e : Engine) c : Engine := {| config := e.(config); state := e.(state);
  seen_greater_log := e.(seen_greater_log); leader := e.(leader); candidate := c; output := e.(output) |}.
Definition set_output (e : Engine) o : Engine := {| config := e.(config); state := e.(state);
  seen_greater_log := e.(seen_greater_log); leader := e.(leader); candidate := e.(candidate); output := o |}.
End ops.
End Engine.

(** ** The runtime state *)
Record Rt {C : RaftTypeConfig} := {
  eng : Engine.Engine;
  clock : Instant;
  readings : nat;
  drift : nat → Duration;
  sent : list (Tx * ForwardToLeader);
}.

Section monad.
Context {C : RaftTypeConfig}.
Implicit Types r : Rt.

Definition set_eng r (e : Engine.Engine) : Rt :=
  {| eng := e; clock := r.(clock); readings := r.(readings); drift := r.(drift); sent := r.(sent) |}.

Definition M (A : Type) : Type := ST Rt A.

(** The state of a fresh runtime around an engine. *)
Definition run_at (now : Instant) (e : Engine.Engine) : Rt :=
  {| eng := e; clock := now; readings := 0; drift := λ _, 1%N; sent := [] |}.

(** [C::now()] *)
Definition now : M Instant := λ r,
  Done (r.(clock), {| eng := r.(eng); clock := r.(clock) + r.(drift) r.(readings);
                      readings := S r.(readings); drift := r.(drift); sent := r.(sent) |}).

Definition get_engine : M Engine.Engine := st_gets eng.
Definition get_config : M EngineConfig.EngineConfig := st_gets (λ r, r.(eng).(Engine.config)).
Definition get_state : M RaftState.RaftState := st_gets (λ r, r.(eng).(Engine.state)).
Definition put_state (s : RaftState.RaftState) : M unit :=
  st_modify (λ r, set_eng r (Engine.set_state r.(eng) s)).
Definition modify_state (f : RaftState.RaftState → RaftState.RaftState) : M unit :=
  st_modify (λ r, set_eng r (Engine.set_state r.(eng) (f r.(eng).(Engine.state)))).

(** The leader a handler borrowed. *)
Definition get_leader : M (Leader.Leader LeaderQuorumSet) := λ r,
  match r.(eng).(Engine.leader) with
  | Some l => Done (l, r)
  | None => Panic "There is no leader, can not handle replication"
  end.
Definition put_leader (l : option (Leader.Leader LeaderQuorumSet)) : M unit :=
  st_modify (λ r, set_eng r (Engine.set_leader r.(eng) l)).
Definition put_candidate (c : option (Candidate.Candidate LeaderQuorumSet)) : M unit :=
  st_modify (λ r, set_eng r (Engine.set_candidate r.(eng) c)).

(** [self.output.push_command(cmd)] *)
Definition push_command (cmd : Command) : M unit :=
  st_modify (λ r, set_eng r (Engine.set_output r.(eng) (EngineOutput.push_command r.(eng).(Engine.output) cmd))).

Definition push_sent (tx : Tx) (e : ForwardToLeader) : M unit :=
  st_modify (λ r, {| eng := r.(eng); clock := r.(clock); readings := r.(readings); drift := r.(drift);
                     sent := r.(sent) ++ [(tx, e)] |}).

(** [self.state.accept_io(io)]: the previously accepted id. *)
Definition accept_io (io : IOId) : M (option IOId) :=
  s ← get_state;
  '(prev, s) ← lift (RaftState.accept_io s io);
  _ ← put_state s;
  mret prev.
End monad.

(** ** Symbolic execution of the primitives *)
Section wp_prims.
Context {C : RaftTypeConfig}.
Implicit Types r : Rt.

Lemma wp_now Q r :
  Q r.(clock) {| eng := r.(eng); clock := r.(clock) + r.(drift) r.(readings);
                 readings := S r.(readings); drift := r.(drift); sent := r.(sent) |} → wp now Q r.
Proof. done. Qed.
Lemma wp_get_config Q r : Q r.(eng).(Engine.config) r → wp get_config Q r.
Proof. done. Qed.
Lemma wp_get_engine Q r : Q r.(eng) r → wp get_engine Q r.
Proof. done. Qed.
Lemma wp_get_state Q r : Q r.(eng).(Engine.state) r → wp get_state Q r.
Proof. done. Qed.
Lemma wp_put_state s Q r : Q tt (set_eng r (Engine.set_state r.(eng) s)) → wp (put_state s) Q r.
Proof. done. Qed.
Lemma wp_modify_state f Q r :
  Q tt (set_eng r (Engine.set_state r.(eng) (f r.(eng).(Engine.state)))) → wp (modify_state f) Q r.
Proof. done. Qed.
Lemma wp_get_leader l Q r : r.(eng).(Engine.leader) = Some l → Q l r → wp get_leader Q r.
Proof. rw /wp /get_leader. by intros ->. Qed.
Lemma wp_put_leader l Q r : Q tt (set_eng r (Engine.set_leader r.(eng) l)) → wp (put_leader l) Q r.
Proof. done. Qed.
Lemma wp_put_candidate c Q r : Q tt (set_eng r (Engine.set_candidate r.(eng) c)) → wp (put_candidate c) Q r.
Proof. done. Qed.
Lemma wp_push_command cmd Q r :
  Q tt (set_eng r (Engine.set_output r.(eng) (EngineOutput.push_command r.(eng).(Engine.output) cmd))) →
  wp (push_command cmd) Q r.
Proof. done. Qed.
Lemma wp_push_sent tx e Q r :
  Q tt {| eng := r.(eng); clock := r.(clock); readings := r.(readings); drift := r.(drift);
          sent := r.(sent) ++ [(tx, e)] |} → wp (push_sent tx e) Q r.
Proof. done. Qed.

Lemma wp_accept_io io Q r :
  (∀ cur, RaftState.accepted_io r.(eng).(Engine.state) = Some cur →
     vote_compat (IOId.to_vote io) (IOId.to_vote cur) ∧ vote_le (IOId.to_vote cur) (IOId.to_vote io)) →
  (∀ a, io_opt_le (RaftState.accepted_io r.(eng).(Engine.state)) (Some a) → io_le io a →
     IOId.to_vote a = IOId.to_vote io → a = io ∨ RaftState.accepted_io r.(eng).(Engine.state) = Some a →
     Q (RaftState.accepted_io r.(eng).(Engine.state))
       (set_eng r (Engine.set_state r.(eng) (with_accepted r.(eng).(Engine.state) a)))) →
  wp (accept_io io) Q r.
Proof.
  intros Hacc HQ. destruct (accept_io_run _ io Hacc) as (a & Hrun & ? & ? & ? & ?).
  rw /accept_io /wp /mbind /st_bind /get_state /st_gets /lift Hrun. cbn. by apply HQ.
Qed.
End wp_prims.

(** One symbolic execution step; [wp_run] runs as far as the primitives go. *)
Ltac eng_step :=
  lazymatch goal with
  | |- wp (_ ≫= _) _ _ => apply wp_bind
  | |- wp (mret _) _ _ => apply wp_ret
  | |- wp now _ _ => apply wp_now
  | |- wp get_config _ _ => apply wp_get_config
  | |- wp get_engine _ _ => apply wp_get_engine
  | |- wp get_state _ _ => apply wp_get_state
  | |- wp (put_state _) _ _ => apply wp_put_state
  | |- wp (modify_state _) _ _ => apply wp_modify_state
  | |- wp (put_leader _) _ _ => apply wp_put_leader
  | |- wp (put_candidate _) _ _ => apply wp_put_candidate
  | |- wp (push_command _) _ _ => apply wp_push_command
  | |- wp (push_sent _ _) _ _ => apply wp_push_sent
  end.
(** Projections of assigned fields. *)
Ltac eng_simpl :=
  cbn beta iota delta [set_eng eng clock readings drift sent
    Engine.set_state Engine.set_leader Engine.set_candidate Engine.set_output Engine.set_seen_greater_log
    Engine.config Engine.state Engine.seen_greater_log Engine.leader Engine.candidate Engine.output
    EngineOutput.push_command commands].
Ltac eng_run := repeat (eng_step; eng_simpl).

(** ** Handlers that only change the state and output commands *)
Section does.
Context {C : RaftTypeConfig}.
Implicit Types (r : Rt) (s : RaftState.RaftState) (cs : list Command).

Definition state_of r : RaftState.RaftState := r.(eng).(Engine.state).
Definition id_of r : NodeId := r.(eng).(Engine.config).(EngineConfig.id).
Definition commands_of r : list Command := r.(eng).(Engine.output).(commands).

(** Every accepted write was on behalf of a vote at or below [v]. *)
Definition accepted_below s (v : Vote) : Prop :=
  ∀ cur, RaftState.accepted_io s = Some cur → vote_compat v (IOId.to_vote cur) ∧ vote_le (IOId.to_vote cur) v.

(** [r] after the commands [cs] are output and the state became [s]. *)
Definition emits r cs s : Rt :=
  set_eng r (Engine.set_output (Engine.set_state r.(eng) s) {| commands := commands_of r ++ cs |}).

(** [m], run from [r], returns [a], outputs [cs] and leaves the state [s]. *)
Definition does {A} (m : M A) r (a : A) cs s : Prop := m r = Done (a, emits r cs s).

Lemma bind_run {A B} (m : M A) (k : A → M B) r a r' : m r = Done (a, r') → (m ≫= k) r = k a r'.
Proof. rw /mbind /st_bind. by intros ->. Qed.

Lemma emits_nil r : emits r [] (state_of r) = r.
Proof. rw /emits /commands_of app_nil_r. by destruct r as [[? ? ? ? ? []] ? ? ?]. Qed.

Lemma emits_emits r cs1 s1 cs2 s2 : emits (emits r cs1 s1) cs2 s2 = emits r (cs1 ++ cs2) s2.
Proof. rw /emits /commands_of /=. by rw -app_assoc. Qed.

Lemma does_bind {A B} (m : M A) (k : A → M B) r a b cs1 s1 cs2 s2 :
  does m r a cs1 s1 → does (k a) (emits r cs1 s1) b cs2 s2 → does (m ≫= k) r b (cs1 ++ cs2) s2.
Proof. rw /does /mbind /st_bind. intros -> ->. by rw emits_emits. Qed.

(** A step without output. *)
Lemma does_quiet {A B} (m : M A) (k : A → M B) r a b s1 cs s2 :
  does m r a [] s1 → does (k a) (emits r [] s1) b cs s2 → does (m ≫= k) r b cs s2.
Proof. apply (does_bind m k r a b [] s1 cs s2). Qed.

(** A step without output or change of state. *)
Lemma does_pure {A B} (m : M A) (k : A → M B) r a b cs s :
  does m r a [] (state_of r) → does (k a) r b cs s → does (m ≫= k) r b cs s.
Proof. rw /does /mbind /st_bind emits_nil. by intros ->. Qed.

Lemma does_ret {A} r (a : A) : does (mret a) r a [] (state_of r).
Proof. rw /does emits_nil. done. Qed.
Lemma does_get_state r : does get_state r (state_of r) [] (state_of r).
Proof. rw /does emits_nil. done. Qed.
Lemma does_get_config r : does get_config r r.(eng).(Engine.config) [] (state_of r).
Proof. rw /does emits_nil. done. Qed.
Lemma does_get_engine r : does get_engine r r.(eng) [] (state_of r).
Proof. rw /does emits_nil. done. Qed.
Lemma does_lift {A} (o : Outcome A) r a : o = Done a → does (lift o) r a [] (state_of r).
Proof. intros ->. rw /does emits_nil. done. Qed.
Lemma does_assert b why r : b = true → does (lift (assert_ b why)) r tt [] (state_of r).
Proof. intros ->. by apply does_lift. Qed.
Lemma does_put_state s r : does (put_state s) r tt [] s.
Proof. rw /does /emits /commands_of app_nil_r. by destruct r as [[? ? ? ? ? []] ? ? ?]. Qed.
Lemma does_modify_state f r : does (modify_state f) r tt [] (f (state_of r)).
Proof. rw /does /emits /commands_of app_nil_r. by destruct r as [[? ? ? ? ? []] ? ? ?]. Qed.
Lemma does_push_command c r : does (push_command c) r tt [c] (state_of r).
Proof. done. Qed.

Lemma does_accept_io io r :
  (∀ cur, RaftState.accepted_io (state_of r) = Some cur →
     vote_compat (IOId.to_vote io) (IOId.to_vote cur) ∧ vote_le (IOId.to_vote cur) (IOId.to_vote io)) →
  ∃ a, does (accept_io io) r (RaftState.accepted_io (state_of r)) [] (with_accepted (state_of r) a) ∧
    io_opt_le (RaftState.accepted_io (state_of r)) (Some a) ∧ io_le io a ∧ IOId.to_vote a = IOId.to_vote io ∧
    (a = io ∨ RaftState.accepted_io (state_of r) = Some a).
Proof.
  intros Hacc. destruct (accept_io_run _ io Hacc) as (a & Hrun & Hrest).
  exists a. split; [|done]. rw /accept_io. eapply does_pure; [apply does_get_state|].
  eapply does_pure; [by apply does_lift|]. cbn beta iota.
  eapply does_quiet; [apply does_put_state|]. apply (does_ret (emits r [] _)).
Qed.

Lemma does_push {B} c (k : unit → M B) r b cs s :
  does (k tt) (emits r [c] (state_of r)) b cs s → does (push_command c ≫= k) r b (c :: cs) s.
Proof. apply (does_bind _ _ _ _ _ [c]), does_push_command. Qed.
Lemma does_ret_emits {A} r (a : A) cs s : does (mret a) (emits r cs s) a [] s.
Proof. apply (does_ret (emits r cs s)). Qed.

(** From the equation of a run to a [wp]. *)
Lemma does_wp {A} (m : M A) r a cs s Q : does m r a cs s → Q a (emits r cs s) → wp m Q r.
Proof. rw /does /wp. by intros ->. Qed.
End does.

Create HintDb does discriminated.
#[export] Hint Resolve does_ret does_ret_emits does_get_state does_get_config does_get_engine does_put_state
  does_modify_state does_push_command : does.

(** ** A node for the witnesses: node [id] of the voters 1, 2 (and learner 3), with the entries 0 to 6
    in its log, of which those up to 2 are committed, following the leader of term 3 *)
Section ut.
#[local] Existing Instance UTConfig.

Definition ut_state : RaftState.RaftState :=
  let m := EffectiveMembership.new (Some (ut_log_id 1 1 0)) ut_m12 in {|
  RaftState.vote := Leased.without_last_update (Vote_new_committed 3 1);
  RaftState.committed := Some (ut_log_id 1 1 2); RaftState.purged_next := 0;
  RaftState.log_ids := LogIdList.new [ut_log_id 1 1 0; ut_log_id 3 1 4; ut_log_id 3 1 6];
  RaftState.membership_state := MembershipState.new m m; RaftState.snapshot_meta := SnapshotMeta.default;
  RaftState.server_state := Follower; RaftState.io_state := IOState.default; RaftState.purge_upto := None |}.

Definition ut_rt (id : NodeId) : Rt := run_at 1000 (Engine.new ut_state (EngineConfig.new_default id)).

Lemma ut_state_ok : raft_state_ok ut_state.
Proof. split; try by apply (bool_decide_unpack _). all: try (by intros x [= <-]); by intros x. Qed.

Lemma ut_membership_ok : membership_ok ut_state.
Proof. split; [done|..]; (apply ptr_on_log; [apply ut_state_ok|by intros x [= <-]]). Qed.
End ut.
