(* ===== verification/LogHandler.v ===== *)
(** * Log, snapshot and server state handlers (openraft/src/engine/handler/)

    [LogHandler]: purging the log up to a scheduled position and the purge policy;
    [SnapshotHandler]: triggering a snapshot and recording a new one; [ServerStateHandler]:
    recomputing the server state. *)

From S2P Require Export EngineBase.

Module ServerStateHandler.
Section ops.
Context {C : RaftTypeConfig}.

Definition update_server_state_if_changed : M unit :=
  c ← get_config;
  s ← get_state;
  let server_state := RaftState.calc_server_state s c.(EngineConfig.id) in
  if bool_decide (s.(RaftState.server_state) = server_state) then mret tt
  else put_state (RaftState.set_server_state s server_state).
End ops.
End ServerStateHandler.

Module SnapshotHandler.
Section ops.
Context {C : RaftTypeConfig}.

Definition trigger_snapshot : M bool :=
  s ← get_state;
  if s.(RaftState.io_state).(building_snapshot) then mret false
  else
    _ ← put_state (RaftState.set_io_state s (IOState.set_building_snapshot s.(RaftState.io_state) true));
    _ ← push_command (StateMachine BuildSnapshot);
    mret true.

Definition update_snapshot (meta : SnapshotMeta) : M bool :=
  s ← get_state;
  if meta.(meta_last_log_id) ⪯? snapshot_last_log_id s then mret false
  else
    _ ← put_state (RaftState.set_snapshot_meta s meta);
    mret true.
End ops.
End SnapshotHandler.

Module LogHandler.
Section ops.
Context {C : RaftTypeConfig}.

Definition purge_log : M unit :=
  st ← get_state;
  let purge_upto := Config.purge_upto st in
  if purge_upto ⪯? last_purged_log_id st then mret tt
  else
    upto ← lift (unwrap purge_upto "unwrap");
    st ← lift (RaftState.purge_log st upto);
    _ ← put_state st;
    push_command (PurgeLog upto).

Definition update_purge_upto (purge_upto : LogId) : M unit :=
  s ← get_state;
  _ ← lift (assert_ (Config.purge_upto s ⪯? Some purge_upto) "self.state.purge_upto() <= Some(&purge_upto)");
  put_state (RaftState.set_purge_upto s (Some purge_upto)).

Definition calc_purge_upto : M (option LogId) :=
  c ← get_config;
  st ← get_state;
  let max_keep := c.(EngineConfig.max_in_snapshot_log_to_keep) in
  let batch_size := c.(EngineConfig.purge_batch_size) in
  let purge_end := saturating_sub (next_index st.(RaftState.snapshot_meta).(meta_last_log_id)) max_keep in
  if (purge_end <? next_index (last_purged_log_id st) + batch_size)%N then mret None
  else
    i ← lift (sub_u64 purge_end 1);
    let log_id := LogIdList.ref_at st.(RaftState.log_ids) i in
    _ ← lift (assert_ (bool_decide (log_id ≠ None)) "log id not found");
    mret log_id.

Definition schedule_policy_based_purge : M unit :=
  purge_upto ← calc_purge_upto;
  match purge_upto with
  | Some purge_upto => update_purge_upto purge_upto
  | None => mret tt
  end.
End ops.
End LogHandler.

(** ** What the handlers do *)
Section log_handler_lemmas.
Context {C : RaftTypeConfig}.
Implicit Types (r : Rt) (s : RaftState.RaftState).

Lemma set_server_state_same s : RaftState.set_server_state s s.(RaftState.server_state) = s.
Proof. by destruct s. Qed.

Lemma update_server_state_does r :
  does ServerStateHandler.update_server_state_if_changed r tt []
    (RaftState.set_server_state (state_of r) (RaftState.calc_server_state (state_of r) (id_of r))).
Proof.
  rw /ServerStateHandler.update_server_state_if_changed.
  eapply does_pure; [apply does_get_config|]. eapply does_pure; [apply does_get_state|].
  case_bool_decide as Heq; [|apply does_put_state].
  change (RaftState.calc_server_state (state_of r) _) with
    (RaftState.calc_server_state (state_of r) (id_of r)) in Heq.
  rw -{}Heq set_server_state_same. apply does_ret.
Qed.

Lemma trigger_snapshot_does r :
  let io := (state_of r).(RaftState.io_state) in
  does SnapshotHandler.trigger_snapshot r (negb io.(building_snapshot))
    (if io.(building_snapshot) then [] else [StateMachine BuildSnapshot])
    (RaftState.set_io_state (state_of r) (IOState.set_building_snapshot io true)).
Proof.
  cbn. rw /SnapshotHandler.trigger_snapshot. eapply does_pure; [apply does_get_state|].
  destruct (building_snapshot (RaftState.io_state (state_of r))) eqn:E; cbn.
  - assert (RaftState.set_io_state (state_of r) (IOState.set_building_snapshot (RaftState.io_state (state_of r)) true)
       = state_of r) as ->; [|apply does_ret].
    destruct (state_of r) as [? ? ? ? ? ? ? [] ?]. cbn in *. by subst.
  - eapply does_quiet; [apply does_put_state|]. apply does_push, does_ret_emits.
Qed.

Lemma update_snapshot_does r (m : SnapshotMeta) :
  does (SnapshotHandler.update_snapshot m) r
    (negb (m.(meta_last_log_id) ⪯? snapshot_last_log_id (state_of r))) []
    (if m.(meta_last_log_id) ⪯? snapshot_last_log_id (state_of r) then state_of r
     else RaftState.set_snapshot_meta (state_of r) m).
Proof.
  rw /SnapshotHandler.update_snapshot. eapply does_pure; [apply does_get_state|].
  case_match; cbn; [apply does_ret|]. eapply does_quiet; [apply does_put_state|].
  apply does_ret_emits.
Qed.

(** The state after purging up to [upto]. *)
Definition purged s (upto : LogId) (l : LogIdList) : RaftState.RaftState :=
  RaftState.set_log_ids (RaftState.set_purged_next s (upto.(index) + 1)) l.

Lemma purge_log_noop r :
  (state_of r).(RaftState.purge_upto) ⪯ last_purged_log_id (state_of r) →
  does LogHandler.purge_log r tt [] (state_of r).
Proof.
  intros Hle. rw /LogHandler.purge_log. eapply does_pure; [apply does_get_state|].
  change (Config.purge_upto (state_of r)) with (RaftState.purge_upto (state_of r)).
  rw (proj2 (leb_le _ _) Hle). apply does_ret.
Qed.

Lemma purge_log_run r upto l :
  (state_of r).(RaftState.purge_upto) = Some upto → last_purged_log_id (state_of r) ≺ Some upto →
  RaftState.purge_log (state_of r) upto = Done (purged (state_of r) upto l) →
  does LogHandler.purge_log r tt [PurgeLog upto] (purged (state_of r) upto l).
Proof.
  intros Hu Hlt Hrun. rw /LogHandler.purge_log. eapply does_pure; [apply does_get_state|].
  change (Config.purge_upto (state_of r)) with (RaftState.purge_upto (state_of r)). rw Hu.
  destruct (lebP (Some upto) (last_purged_log_id (state_of r))) as [Hle|_]; [exfalso; order|].
  eapply does_pure; [by apply does_lift|]. eapply does_pure; [by apply does_lift|].
  eapply does_quiet; [apply does_put_state|]. apply (does_push_command _ (emits r [] _)).
Qed.

(** Purging either has nothing to do, or it moves the first entry of the log to [purge_upto]. *)
Lemma purge_log_does r :
  raft_state_ok (state_of r) →
  ∃ cs s', does LogHandler.purge_log r tt cs s' ∧ raft_state_ok s' ∧
    ((state_of r).(RaftState.purge_upto) ⪯ last_purged_log_id (state_of r) ∧ cs = [] ∧ s' = state_of r ∨
     ∃ upto l, (state_of r).(RaftState.purge_upto) = Some upto ∧ last_purged_log_id (state_of r) ≺ Some upto ∧
       cs = [PurgeLog upto] ∧ s' = purged (state_of r) upto l ∧ LogIdList.first l = Some upto ∧
       LogIdList.last l = last_log_id (state_of r) ∧
       ∀ i, LogIdList.ref_at l i = if (i <? upto.(index))%N then None else ref_log_id (state_of r) i).
Proof.
  intros Hok. destruct (lebP (RaftState.purge_upto (state_of r)) (last_purged_log_id (state_of r))) as [Hle|Hlt].
  - exists [], (state_of r). split_and!; [by apply purge_log_noop|done|]. by left.
  - destruct (RaftState.purge_upto (state_of r)) as [upto|] eqn:Hu; [|by apply olt_None in Hlt].
    destruct (purge_state _ upto Hok Hu) as (l & Hrun & Hok' & Hf & Hl & Hr).
    exists [PurgeLog upto], (purged (state_of r) upto l). split_and!; [|done|].
    + by apply purge_log_run.
    + right. exists upto, l. by split_and!.
Qed.

(** The purge policy: it asks for a purge exactly when at least [purge_batch_size] entries are to
    be purged, and then for everything in the snapshot but the last [max_in_snapshot_log_to_keep]
    entries. *)
Lemma calc_purge_upto_does r :
  let s := state_of r in
  let c := r.(eng).(Engine.config) in
  raft_state_ok s → (0 < c.(EngineConfig.purge_batch_size))%N →
  ∃ o, does LogHandler.calc_purge_upto r o [] s ∧
    match o with
    | None => (next_index (snapshot_last_log_id s) <
                 s.(RaftState.purged_next) + c.(EngineConfig.purge_batch_size) + c.(EngineConfig.max_in_snapshot_log_to_keep))%N
    | Some p => ref_log_id s p.(index) = Some p ∧
        (p.(index) + 1 + c.(EngineConfig.max_in_snapshot_log_to_keep) = next_index (snapshot_last_log_id s))%N ∧
        (s.(RaftState.purged_next) + c.(EngineConfig.purge_batch_size) ≤ p.(index) + 1)%N
    end.
Proof.
  intros s c Hok Hb. rw /LogHandler.calc_purge_upto.
  pose proof (pointers_chain s Hok) as (H1 & H2 & H3 & H4).
  pose proof (next_last_purged s Hok) as Hp.
  change (next_index (snapshot_last_log_id s)) with
    (next_index s.(RaftState.snapshot_meta).(meta_last_log_id)) in *.
  set (snap := next_index s.(RaftState.snapshot_meta).(meta_last_log_id)) in *.
  set (keep := c.(EngineConfig.max_in_snapshot_log_to_keep)).
  set (batch := c.(EngineConfig.purge_batch_size)) in *.
  destruct (N.ltb_spec (snap - keep) (s.(RaftState.purged_next) + batch)) as [Hlt|Hge].
  - exists None. split; [|lia].
    eapply does_pure; [apply does_get_config|]. eapply does_pure; [apply does_get_state|].
    fold s c. rw Hp. fold snap keep batch. rw /saturating_sub.
    apply N.ltb_lt in Hlt as ->. apply does_ret.
  - destruct (ref_total s Hok (snap - keep - 1)) as [p Hpr]; [lia..|].
    pose proof (ref_index _ _ _ Hpr) as Hi. exists (Some p). split; [|rw Hi; split_and!; [done|lia..]].
    eapply does_pure; [apply does_get_config|]. eapply does_pure; [apply does_get_state|].
    fold s c. rw Hp. fold snap keep batch. rw /saturating_sub.
    apply N.ltb_ge in Hge as Hge'. rw Hge'.
    eapply does_pure; [apply does_lift|].
    { rw /sub_u64. destruct (N.leb_spec 1 (snap - keep)); [done|lia]. }
    cbn beta zeta. change (LogIdList.ref_at (RaftState.log_ids s)) with (ref_log_id s). rw Hpr.
    eapply does_pure; [by apply does_assert|]. apply does_ret.
Qed.

Lemma update_purge_upto_does r p :
  (state_of r).(RaftState.purge_upto) ⪯ Some p →
  does (LogHandler.update_purge_upto p) r tt [] (RaftState.set_purge_upto (state_of r) (Some p)).
Proof.
  intros Hle. rw /LogHandler.update_purge_upto. eapply does_pure; [apply does_get_state|].
  eapply does_pure; [apply does_assert; by apply leb_le|]. apply does_put_state.
Qed.

(** Taking a snapshot when the policy asks for one, at the end of a commit. *)
Lemma trigger_if_due_does r (p : SnapshotPolicy) :
  ∃ cs b, does (if should_snapshot p (state_of r) then _ ← SnapshotHandler.trigger_snapshot; mret tt else mret tt) r tt cs
            (RaftState.set_io_state (state_of r) (IOState.set_building_snapshot (state_of r).(RaftState.io_state) b)) ∧
    (cs = [] ∨ cs = [StateMachine BuildSnapshot]).
Proof.
  destruct (should_snapshot p (state_of r)).
  - eexists _, true. split; [|].
    + eapply does_bind; [apply trigger_snapshot_does|]. apply does_ret_emits.
    + rw app_nil_r. case_match; auto.
  - exists [], (state_of r).(RaftState.io_state).(building_snapshot). split; [|by left].
    assert (RaftState.set_io_state (state_of r) (IOState.set_building_snapshot (RaftState.io_state (state_of r))
      (building_snapshot (RaftState.io_state (state_of r)))) = state_of r) as ->; [|apply does_ret].
    by destruct (state_of r) as [? ? ? ? ? ? ? [] ?].
Qed.
End log_handler_lemmas.
