(* ===== verification/FollowingHandler.v ===== *)
(** * Following handler (openraft/src/engine/handler/following_handler/mod.rs)

    What a follower or learner does with the requests of the leader whose vote it accepted:
    appending entries, truncating conflicting ones, committing, installing a snapshot. *)

From S2P Require Export LogHandler.

Module FollowingHandler.
Section ops.
Context {C : RaftTypeConfig} (leader_vote : CommittedVote).

(** The loop of [last_two_memberships], over the entries from the last one backwards. *)
Fixpoint last_memberships_loop (rev_entries : list Entry) (memberships : list StoredMembership) :
    list StoredMembership :=
  match rev_entries with
  | [] => memberships
  | ent :: rest =>
      match Entry.get_membership ent with
      | Some m =>
          let memberships := {| stored_log_id := Some (Entry.log_id ent); stored_membership_ := m |} :: memberships in
          if length memberships =? 2 then memberships else last_memberships_loop rest memberships
      | None => last_memberships_loop rest memberships
      end
  end.
Definition last_two_memberships (entries : list Entry) : list StoredMembership :=
  last_memberships_loop (rev entries) [].

Definition append_membership (entries : list Entry) : M unit :=
  let memberships := last_two_memberships entries in
  match memberships with
  | [] => mret tt
  | _ =>
      _ ← st_for memberships (λ m,
            s ← get_state;
            ms ← lift (MembershipState.append s.(RaftState.membership_state)
                         (EffectiveMembership.new_from_stored_membership m));
            put_state (RaftState.set_membership_state s ms));
      ServerStateHandler.update_server_state_if_changed
  end.

Definition truncate_logs (since : N) : M unit :=
  s ← get_state;
  _ ← lift (assert_ (next_index (last_purged_log_id s) <=? since)%N
              "since >= self.state.last_purged_log_id().next_index()");
  match get_log_id s since with
  | None => mret tt
  | Some since_log_id =>
      l ← lift (LogIdList.truncate s.(RaftState.log_ids) since);
      _ ← put_state (RaftState.set_log_ids s l);
      _ ← push_command (TruncateLog since_log_id);
      s ← get_state;
      '(changed, ms) ← lift (MembershipState.truncate s.(RaftState.membership_state) since);
      _ ← put_state (RaftState.set_membership_state s ms);
      match changed with
      | Some _ => ServerStateHandler.update_server_state_if_changed
      | None => mret tt
      end
  end.

Definition ensure_log_consecutive (prev_log_id : option LogId) : M (Result unit RejectAppendEntries) :=
  match prev_log_id with
  | Some prev =>
      s ← get_state;
      has ← lift (has_log_id s prev);
      if negb has then
        let local := get_log_id s prev.(index) in
        _ ← truncate_logs prev.(index);
        mret (RErr (ByConflictingLogId prev local))
      else mret (ROk tt)
  | None => mret (ROk tt)
  end.

Definition do_append_entries (entries : list Entry) : M unit :=
  s ← get_state;
  first ← lift (unwrap (head entries) "!entries.is_empty()");
  _ ← lift (assert_ (Entry.index first =? next_index (last_log_id s))%N
              "entries[0].index() == log_ids.last().next_index()");
  _ ← lift (assert_ (last_log_id s ≺? Some (Entry.log_id first)) "Some(entries[0].ref_log_id()) > log_ids.last_ref()");
  s ← lift (RaftState.extend_log_ids s (Entry.log_id <$> entries));
  _ ← put_state s;
  _ ← append_membership entries;
  push_command (AppendInputEntries leader_vote entries).

Definition append_entries (prev_log_id : option LogId) (entries : list Entry) : M unit :=
  _ ← lift (match head entries with
            | Some first_ent => assert_ (Entry.index first_ent =? next_index prev_log_id)%N
                                  "first_ent.index() == prev_log_id.next_index()"
            | None => Done tt
            end);
  let last_log_id := Entry.log_id <$> list.last entries in
  let last_log_id := omax prev_log_id last_log_id in
  prev_accepted ← accept_io (IOId.new_log_io leader_vote last_log_id);
  let l := length entries in
  s ← get_state;
  since ← lift (RaftState.first_conflicting_index s entries);
  if since <? l then
    ent ← lift (unwrap (entries !! since) "index out of bounds");
    _ ← truncate_logs (Entry.index ent);
    do_append_entries (drop since entries)
  else
    let to_submit := IOId.new_log_io leader_vote last_log_id in
    le ← lift (IOProgress.opt_le IOId.le (Some to_submit) prev_accepted);
    if (le : bool) then mret tt
    else push_command (UpdateIOProgress (IOFlushed <$> prev_accepted) to_submit).

Definition commit_entries (leader_committed : option LogId) : M unit :=
  s ← get_state;
  let accepted := RaftState.accepted_io s ≫= IOId.last_log_id in
  let committed := omin accepted leader_committed in
  '(prev_committed, s) ← lift (RaftState.update_committed s committed);
  _ ← put_state s;
  match prev_committed with
  | Some prev_committed =>
      committed ← lift (unwrap committed "unwrap");
      _ ← push_command (SaveCommitted committed);
      _ ← push_command (Apply prev_committed committed);
      c ← get_config;
      s ← get_state;
      if should_snapshot c.(EngineConfig.snapshot_policy) s then
        _ ← SnapshotHandler.trigger_snapshot; mret tt
      else mret tt
  | None => mret tt
  end.

Definition update_committed_membership (membership : EffectiveMembership) : M unit :=
  s ← get_state;
  '(_, ms) ← lift (MembershipState.update_committed s.(RaftState.membership_state) membership);
  _ ← put_state (RaftState.set_membership_state s ms);
  ServerStateHandler.update_server_state_if_changed.

Definition install_full_snapshot (snapshot : Snapshot) : M (option Condition) :=
  let meta := snapshot.(meta) in
  let snap_last_log_id := meta.(meta_last_log_id) in
  s ← get_state;
  if snap_last_log_id ⪯? Config.committed s then mret None
  else
    snap_last_log_id ← lift (unwrap snap_last_log_id "unwrap");
    updated ← SnapshotHandler.update_snapshot meta;
    if negb updated then mret None
    else
      s ← get_state;
      let local := get_log_id s snap_last_log_id.(index) in
      _ ← (match local with
           | Some local =>
               if bool_decide (local ≠ snap_last_log_id)
               then truncate_logs (next_index (Config.committed s))
               else mret tt
           | None => mret tt
           end);
      let io_id := IOId.new_log_io leader_vote (Some snap_last_log_id) in
      _ ← accept_io io_id;
      _ ← modify_state (λ s, RaftState.set_committed s (Some snap_last_log_id));
      _ ← update_committed_membership (EffectiveMembership.new_from_stored_membership meta.(last_membership));
      _ ← push_command (StateMachine (InstallFullSnapshot io_id snapshot));
      _ ← modify_state (λ s, RaftState.set_purge_upto s (Some snap_last_log_id));
      _ ← LogHandler.purge_log;
      mret (Some (Cond_Snapshot (Some snap_last_log_id))).
End ops.
End FollowingHandler.

(** ** What the handlers do *)

(** The membership entries of a list of entries, in order. *)
Definition memberships_of {C : RaftTypeConfig} (es : list Entry) : list StoredMembership :=
  omap (λ e, (λ m, {| stored_log_id := Some (Entry.log_id e); stored_membership_ := m |}) <$>
             Entry.get_membership e) es.

(** Appending membership entries one after the other. *)
Definition append_all {C : RaftTypeConfig} (ms : MembershipState) (l : list StoredMembership) : MembershipState :=
  foldl (λ ms m, {| ms_committed := ms.(ms_effective);
                    ms_effective := EffectiveMembership.new_from_stored_membership m |}) ms l.

Section following_lemmas.
Context {C : RaftTypeConfig}.
Import FollowingHandler RaftState.
Implicit Types (r : Rt) (s : RaftState.RaftState) (es : list Entry) (l : list StoredMembership).

Lemma memberships_of_app es1 es2 : memberships_of (es1 ++ es2) = memberships_of es1 ++ memberships_of es2.
Proof. apply omap_app. Qed.

Lemma last_memberships_loop_spec es acc :
  length acc < 2 →
  last_memberships_loop (rev es) acc =
    drop (length (memberships_of es) - (2 - length acc)) (memberships_of es) ++ acc.
Proof.
  revert acc. induction es as [|e es IH] using rev_ind; intros acc Hlen; [done|].
  rw rev_app_distr memberships_of_app. cbn [rev app last_memberships_loop].
  rw /memberships_of -/(memberships_of es). cbn [omap list_omap].
  destruct (Entry.get_membership e) as [m|]; cbn [fmap option_fmap option_map omap list_omap].
  - rw length_app. cbn [length]. destruct (Nat.eqb_spec (S (length acc)) 2) as [H1|H1].
    + replace (length (memberships_of es) + 1 - (2 - length acc)) with (length (memberships_of es)) by lia.
      by rw drop_app_length.
    + destruct acc; [|cbn in *; lia]. rw IH; [cbn; lia|]. cbn [length]. rw app_nil_r.
      replace (length (memberships_of es) + 1 - (2 - 0)) with (length (memberships_of es) - (2 - 1)) by lia.
      destruct (decide (length (memberships_of es) = 0)) as [H0|H0].
      * by apply nil_length_inv in H0 as ->.
      * rw drop_app_le; [lia|done].
  - rw app_nil_r. by apply IH.
Qed.

(** The last two membership entries. *)
Lemma last_two_memberships_spec es :
  last_two_memberships es = drop (length (memberships_of es) - 2) (memberships_of es).
Proof. rw /last_two_memberships last_memberships_loop_spec; [cbn; lia|]. by rw app_nil_r. Qed.

Lemma memberships_of_elem es x : x ∈ memberships_of es → ∃ e, e ∈ es ∧ x.(stored_log_id) = Some (Entry.log_id e).
Proof.
  rw /memberships_of list_elem_of_omap. intros (e & He & Hx). exists e. split; [done|].
  destruct (Entry.get_membership e); [|done]. cbn in Hx. by simplify_eq.
Qed.

(** Strictly increasing ids, also by index. *)
Definition id_lt (a b : option LogId) : Prop := a ≺ b ∧ opt_index a ≺ opt_index b.

Lemma memberships_of_sorted es :
  StronglySorted key_le (Entry.log_id <$> es) →
  StronglySorted (λ a b, id_lt a.(stored_log_id) b.(stored_log_id)) (memberships_of es).
Proof.
  induction es as [|e es IH]; [constructor|]. cbn. intros [Hs Hall]%StronglySorted_inv.
  specialize (IH Hs). destruct (Entry.get_membership e) as [m|]; [|done]. cbn. constructor; [done|].
  apply Forall_forall. intros x (e' & He' & ->)%memberships_of_elem. cbn.
  rewrite -> Forall_forall in Hall.
  assert (key_le (Entry.log_id e) (Entry.log_id e')) as Hk by (apply Hall, list_elem_of_fmap; eauto).
  split; [by apply Some_olt, key_le_olt|]. apply Some_olt, N_olt. apply Hk.
Qed.

Lemma append_all_does r l :
  MembershipState.validate (state_of r).(membership_state) = true →
  StronglySorted (λ a b, id_lt a.(stored_log_id) b.(stored_log_id)) l →
  Forall (λ m, id_lt (EffectiveMembership.log_id (state_of r).(membership_state).(ms_effective)) m.(stored_log_id)) l →
  let ms := append_all (state_of r).(membership_state) l in
  does (st_for l (λ m,
            s ← get_state;
            ms ← lift (MembershipState.append s.(RaftState.membership_state)
                         (EffectiveMembership.new_from_stored_membership m));
            put_state (RaftState.set_membership_state s ms))) r tt [] (set_membership_state (state_of r) ms) ∧
  MembershipState.validate ms = true.
Proof.
  revert r. induction l as [|m l IH]; intros r Hv Hs Hall ms.
  { split; [|done]. subst ms. cbn. assert (set_membership_state (state_of r) (membership_state (state_of r)) = state_of r) as ->.
    { by destruct (state_of r). } apply does_ret. }
  apply StronglySorted_inv in Hs as [Hs Hm]. apply Forall_cons_1 in Hall as [Hlt Hall].
  destruct (append_ms (membership_state (state_of r)) (EffectiveMembership.new_from_stored_membership m))
    as [Hrun Hv']; [apply Hlt..|].
  set (ms1 := {| ms_committed := ms_effective (membership_state (state_of r));
                 ms_effective := EffectiveMembership.new_from_stored_membership m |}) in *.
  destruct (IH (emits r [] (set_membership_state (state_of r) ms1)) Hv' Hs Hm) as [Hdoes Hvalid].
  split; [|done]. cbn [st_for]. eapply does_quiet; [|exact Hdoes].
  eapply does_pure; [apply does_get_state|]. eapply does_pure; [by apply does_lift|]. apply does_put_state.
Qed.

Lemma append_membership_does r es :
  let ms := append_all (state_of r).(membership_state) (last_two_memberships es) in
  membership_ok (state_of r) → raft_state_ok (state_of r) →
  StronglySorted key_le (Entry.log_id <$> es) →
  Forall (λ e, log_ptr (state_of r) (Some (Entry.log_id e)) ∧
               id_lt (EffectiveMembership.log_id (state_of r).(membership_state).(ms_effective)) (Some (Entry.log_id e))) es →
  ∃ st, does (append_membership es) r tt [] (set_server_state (set_membership_state (state_of r) ms) st) ∧
    membership_ok (set_membership_state (state_of r) ms).
Proof.
  intros ms Hmo Hok Hsorted Hall. pose proof (last_two_memberships_spec es) as Hlast. subst ms.
  assert (∀ x, x ∈ last_two_memberships es → ∃ e, e ∈ es ∧ x.(stored_log_id) = Some (Entry.log_id e)) as Hin.
  { intros x Hx. apply memberships_of_elem. rw Hlast in Hx. apply list_elem_of_lookup in Hx as [i Hi].
    rw lookup_drop in Hi. by eapply list_elem_of_lookup_2. }
  rewrite -> Forall_forall in Hall.
  destruct (append_all_does r (last_two_memberships es)) as [Hdoes Hv].
  { apply Hmo. }
  { rw Hlast. pose proof (memberships_of_sorted es Hsorted) as Hss. revert Hss.
    generalize (length (memberships_of es) - 2). intros n.
    rewrite <- (take_drop n (memberships_of es)) at 1. apply StronglySorted_app_1_r. }
  { apply Forall_forall. intros x (e & He & ->)%Hin. by apply Hall. }
  assert (membership_ok (set_membership_state (state_of r)
            (append_all (membership_state (state_of r)) (last_two_memberships es)))) as Hmo'.
  { assert (∀ p, on_log (state_of r) p → on_log (set_membership_state (state_of r)
              (append_all (membership_state (state_of r)) (last_two_memberships es))) p) as Hon by done.
    assert (∀ l ms, (∀ x, x ∈ l → ∃ e, e ∈ es ∧ x.(stored_log_id) = Some (Entry.log_id e)) →
      on_log (state_of r) (EffectiveMembership.log_id ms.(ms_committed)) →
      on_log (state_of r) (EffectiveMembership.log_id ms.(ms_effective)) →
      on_log (state_of r) (EffectiveMembership.log_id (append_all ms l).(ms_committed)) ∧
      on_log (state_of r) (EffectiveMembership.log_id (append_all ms l).(ms_effective))) as Hfold.
    { clear -Hok Hall. induction l as [|m l IH]; intros ms Hl Hc He; [done|]. cbn. apply IH; [set_solver|done|].
      cbn. destruct (Hl m) as (e & He' & Hid); [set_solver|]. rw Hid. apply ptr_on_log; [done|]. by apply Hall. }
    destruct (Hfold (last_two_memberships es) (membership_state (state_of r)) Hin) as [H1 H2]; [apply Hmo..|].
    split; [done|by apply Hon..]. }
  rw /append_membership. destruct (last_two_memberships es) as [|m l] eqn:E.
  - exists (state_of r).(server_state). split; [|done]. cbn.
    assert (set_server_state (set_membership_state (state_of r) (membership_state (state_of r)))
      (server_state (state_of r)) = state_of r) as -> by by destruct (state_of r). apply does_ret.
  - eexists. split; [|done]. eapply does_quiet; [exact Hdoes|]. apply update_server_state_does.
Qed.

(** *** Truncating conflicting entries *)
Definition relogged s (l : LogIdList) ms st : RaftState.RaftState :=
  set_server_state (set_membership_state (set_log_ids s l) ms) st.

Lemma relogged_same s : relogged s s.(log_ids) s.(membership_state) s.(server_state) = s.
Proof. by destruct s. Qed.

Lemma relogged_ok s (l : LogIdList) ms st : raft_state_ok (set_log_ids s l) → raft_state_ok (relogged s l ms st).
Proof. by apply raft_state_ok_ext. Qed.

Lemma last_ref s :
  raft_state_ok s →
  last_log_id s = if decide (next_index (last_log_id s) = 0)%N then None
                  else ref_log_id s (next_index (last_log_id s) - 1).
Proof.
  intros Hok. destruct (last_log_id s) as [q|] eqn:Hq; cbn [next_index]; [|done].
  rw decide_False; [lia|]. rw N.add_sub. by rw (ref_last s Hok q Hq).
Qed.

(** The log [l] is the log of [s] up to [since], exclusive. *)
Definition cut_at s (since : N) (l : LogIdList) : Prop :=
  (∀ i, LogIdList.ref_at l i = if (i <? since)%N then ref_log_id s i else None) ∧
  next_index (LogIdList.last l) = since ∧
  LogIdList.last l = (if decide (since = 0)%N then None else ref_log_id s (since - 1)).

Lemma cut_at_end s : raft_state_ok s → cut_at s (next_index (last_log_id s)) s.(log_ids).
Proof.
  intros Hok. split_and!; [|done|by apply last_ref].
  intros i. destruct (N.ltb_spec i (next_index (last_log_id s))) as [|Hge]; [done|]. by apply (ref_beyond s).
Qed.

Lemma truncate_logs_run r since x (l : LogIdList) ch ms :
  let s := state_of r in
  ref_log_id s since = Some x → (next_index (last_purged_log_id s) ≤ since)%N →
  LogIdList.truncate s.(log_ids) since = Done l →
  MembershipState.truncate s.(membership_state) since = Done (ch, ms) →
  ∃ st, does (truncate_logs since) r tt [TruncateLog x] (relogged s l ms st).
Proof.
  intros s Hx Hpl%N.leb_le Hrun Hms.
  eexists (if ch then _ else s.(server_state)).
  rw /truncate_logs. eapply does_pure; [apply does_get_state|]. eapply does_pure; [by apply does_assert|].
  rw /get_log_id. fold s. rw Hx. eapply does_pure; [by apply does_lift|].
  eapply does_quiet; [apply does_put_state|]. apply does_push.
  eapply does_pure; [apply does_get_state|]. eapply does_pure; [by apply does_lift|]. cbn beta iota.
  eapply does_quiet; [apply does_put_state|]. destruct ch.
  - apply (update_server_state_does (emits _ [] (set_membership_state (set_log_ids s l) ms))).
  - assert (relogged s l ms (server_state s) = set_membership_state (set_log_ids s l) ms) as -> by by destruct s.
    apply does_ret_emits.
Qed.

(** The facts of a truncation, apart from the run. *)
Lemma truncate_logs_facts s since :
  raft_state_ok s → membership_ok s → (s.(purged_next) ≤ since)%N → (next_index s.(committed) ≤ since)%N →
  (next_index (EffectiveMembership.log_id s.(membership_state).(ms_committed)) ≤ since)%N →
  (since ≤ next_index (last_log_id s))%N →
  ∃ (l : LogIdList) ch ms, LogIdList.truncate s.(log_ids) since = Done l ∧
    MembershipState.truncate s.(membership_state) since = Done (ch, ms) ∧
    cut_at s since l ∧ (∀ st, raft_state_ok (relogged s l ms st) ∧ membership_ok (relogged s l ms st)) ∧
    ms.(ms_committed) = s.(membership_state).(ms_committed) ∧
    ms.(ms_effective) = (if Some since ⪯? opt_index (EffectiveMembership.log_id s.(membership_state).(ms_effective))
                         then s.(membership_state).(ms_committed) else s.(membership_state).(ms_effective)) ∧
    (next_index (EffectiveMembership.log_id ms.(ms_effective)) ≤ since)%N.
Proof.
  intros Hok Hmo Hp Hc Hm Hl.
  destruct (truncate_state s since Hok Hc) as (l & Hrun & Hok' & Hr).
  destruct (truncate_ms _ since (mo_valid s Hmo) Hm) as (ch & ms & Hms & Hv & Hmc & Hme & _ & Hle).
  destruct (truncate_last s since l Hok Hok' Hr Hp Hl) as [Hn Hlast].
  exists l, ch, ms. split_and!; try done. intros st. split; [by apply relogged_ok|].
  assert (∀ p, on_log s p → (next_index p ≤ since)%N → on_log (relogged s l ms st) p) as Hshrink.
  { intros p Hon Hp'. apply (on_log_shrink s); [|change (last_log_id (relogged s l ms st)) with (LogIdList.last l); by rw Hn|done].
    intros i y Hy. change (LogIdList.ref_at l i = Some y) in Hy. rw Hr in Hy. by case_match. }
  split; [done| |]; apply Hshrink; cbn.
  - rw Hmc. apply Hmo.
  - by rw Hmc.
  - rw Hme. destruct (Some since ⪯? _); apply Hmo.
  - done.
Qed.

Lemma truncate_logs_does r since :
  let s := state_of r in
  raft_state_ok s → membership_ok s → (s.(purged_next) ≤ since)%N → (next_index s.(committed) ≤ since)%N →
  (next_index (EffectiveMembership.log_id s.(membership_state).(ms_committed)) ≤ since)%N →
  (since ≤ next_index (last_log_id s))%N →
  ∃ (l : LogIdList) ms st, does (truncate_logs since) r tt
      (match ref_log_id s since with Some x => [TruncateLog x] | None => [] end) (relogged s l ms st) ∧
    cut_at s since l ∧ raft_state_ok (relogged s l ms st) ∧ membership_ok (relogged s l ms st) ∧
    ms.(ms_committed) = s.(membership_state).(ms_committed) ∧
    (next_index (EffectiveMembership.log_id ms.(ms_effective)) ≤ since)%N.
Proof.
  intros s Hok Hmo Hp Hc Hm Hl.
  assert (next_index (last_purged_log_id s) ≤ since)%N as Hpl by by rw next_last_purged.
  destruct (ref_log_id s since) as [x|] eqn:Hx.
  - destruct (truncate_logs_facts s since Hok Hmo Hp Hc Hm Hl) as (l & ch & ms & Hrun & Hms & Hcut & Hboth & Hmc & _ & Hle).
    destruct (truncate_logs_run r since x l ch ms Hx Hpl Hrun Hms) as [st Hdoes].
    exists l, ms, st. destruct (Hboth st). by split_and!.
  - assert (since = next_index (last_log_id s)) as ->.
    { destruct (decide (since = next_index (last_log_id s))) as [|Hne]; [done|]. exfalso.
      destruct (ref_total s Hok since) as [y Hy]; [lia..|]. congruence. }
    exists s.(log_ids), s.(membership_state), s.(server_state). rw relogged_same.
    split_and!; [|by apply cut_at_end|done|done|done|apply Hmo].
    apply N.leb_le in Hpl. rw /truncate_logs. eapply does_pure; [apply does_get_state|]. eapply does_pure; [by apply does_assert|].
    rw /get_log_id. fold s. rw Hx. apply does_ret.
Qed.

(** *** Appending entries at the end *)
Lemma on_log_before s p x :
  on_log s p → ref_log_id s x.(index) = Some x → (next_index p ≤ x.(index))%N → id_lt p (Some x).
Proof.
  intros [_ Hs] Hx Hlt. specialize (Hs _ _ Hx).
  assert (opt_index p ≺ opt_index (Some x)) as Hi.
  { destruct p as [y|]; [|done]. apply Some_olt, N_olt. cbn in Hlt. lia. }
  split; [|done]. by apply same_log_lt.
Qed.

Lemma do_append_does r lv es :
  let s := state_of r in
  raft_state_ok s → membership_ok s → es ≠ [] → next_ids s (Entry.log_id <$> es) →
  ∃ (l : LogIdList) st,
    let s' := relogged s l (append_all s.(membership_state) (last_two_memberships es)) st in
    does (do_append_entries lv es) r tt [AppendInputEntries lv es] s' ∧
    raft_state_ok s' ∧ membership_ok s' ∧ (∀ i, ref_log_id s' i = log_after s (Entry.log_id <$> es) i) ∧
    last_log_id s' = Entry.log_id <$> list.last es.
Proof.
  intros s Hok Hmo Hne Hn. destruct (extend_state s _ Hok Hn) as (l & Hrun & Hok' & Hlast & Hr).
  destruct es as [|e es]; [done|]. set (ids := Entry.log_id <$> e :: es) in *.
  assert (∀ p, on_log s p → on_log (set_log_ids s l) p) as Hon.
  { intros p. by apply on_log_extend with (ids := ids). }
  destruct (append_membership_does (emits r [] (set_log_ids s l)) (e :: es)) as (st & Hdoes & Hmo').
  { split; [apply Hmo|apply Hon, Hmo..]. }
  { done. }
  { by eapply next_ids_sorted. }
  { apply Forall_forall. intros x Hx. assert (Entry.log_id x ∈ ids) as Hxi by (apply list_elem_of_fmap; eauto).
    assert (ref_log_id (set_log_ids s l) (index (Entry.log_id x)) = Some (Entry.log_id x)) as Href.
    { change (LogIdList.ref_at l (index (Entry.log_id x)) = Some (Entry.log_id x)). rw Hr. by apply log_after_elem. }
    split; [by intros y [= <-]|].
    pose proof (mo_effective s Hmo) as Heff. apply (on_log_before (set_log_ids s l)); [by apply Hon|done|].
    apply list_elem_of_lookup in Hxi as [n Hxn]. rw (next_ids_lookup _ _ _ _ Hn Hxn).
    apply (N.le_trans _ _ _ (proj1 Heff)). lia. }
  exists l, st. cbn zeta. split_and!; [|by apply relogged_ok|split; apply Hmo'|exact Hr|].
  - rw /do_append_entries. eapply does_pure; [apply does_get_state|].
    eapply does_pure; [by apply does_lift|]. fold s.
    eapply does_pure; [apply does_assert|].
    { apply N.eqb_eq. by rw -(proj2 Hn (Entry.log_id e)). }
    eapply does_pure; [apply does_assert|].
    { apply ltb_lt. by apply (next_ids_head _ ids). }
    eapply does_pure; [by apply does_lift|]. eapply does_quiet; [apply does_put_state|].
    eapply does_quiet; [exact Hdoes|]. apply does_push_command.
  - change (LogIdList.last l = Entry.log_id <$> list.last (e :: es)). rw Hlast /ids fmap_last.
    destruct (list.last (e :: es)) eqn:E; [done|]. by apply last_None in E.
Qed.

(** *** An append-entries request *)

(** The ids are consecutive and follow [prev]. *)
Definition follows (prev : option LogId) (ids : list LogId) : Prop :=
  Sorted log_next ids ∧
  ∀ x, head ids = Some x → x.(index) = next_index prev ∧ ∀ p, prev = Some p → log_next p x.

(** What the protocol guarantees of a log id in a request of a legitimate leader: it agrees with
    what is committed here, and with the log up to the membership known to be committed. *)
Definition agrees s (x : LogId) : Prop :=
  agrees_committed s x ∧
  ((x.(index) < next_index (EffectiveMembership.log_id s.(membership_state).(ms_committed)))%N → had s x).

Lemma had_lt_last s x : raft_state_ok s → had s x → (x.(index) < next_index (last_log_id s))%N.
Proof.
  intros Hok [Hlt|Hr]; [|by eapply ref_lt_last].
  pose proof (pointers_chain s Hok) as (_ & _ & _ & ?). lia.
Qed.

Lemma had_ref s x y :
  agrees_committed s x → had s x → ref_log_id s x.(index) = Some y → y = x.
Proof. intros Ha [Hlt|Hr] Hy; [by apply Ha|congruence]. Qed.

Lemma follows_index prev ids n x :
  follows prev ids → ids !! n = Some x → x.(index) = (next_index prev + N.of_nat n)%N.
Proof.
  intros [Hs Hh] Hx. destruct ids as [|y ids]; [done|]. rw (log_next_lookup _ _ _ _ Hs Hx).
  by rw (proj1 (Hh y eq_refl)).
Qed.

(** The id before the [n]-th one. *)
Lemma follows_before prev ids n x :
  follows prev ids → ids !! n = Some x →
  match (match n with 0 => prev | S m => ids !! m end) with
  | Some p => log_next p x
  | None => x.(index) = 0%N
  end.
Proof.
  intros [Hs Hh] Hx. destruct n as [|m].
  - destruct ids as [|y ids]; [done|]. cbn in Hx. simplify_eq. destruct (Hh x eq_refl) as [Hi Hp].
    destruct prev as [p|]; [by apply Hp|done].
  - clear Hh. revert m Hs Hx. induction ids as [|y ids IH]; intros m Hs Hx; [done|].
    apply Sorted_inv in Hs as [Hs Hhd]. destruct m as [|m]; cbn in *.
    + destruct ids as [|z ids]; [done|]. cbn in Hx. simplify_eq. by apply HdRel_inv in Hhd.
    + by apply IH.
Qed.

Lemma Sorted_drop {A} (R : relation A) n (l : list A) : Sorted R l → Sorted R (drop n l).
Proof.
  revert l. induction n as [|n IH]; intros [|x l] Hs; try done. cbn. apply IH. by apply Sorted_inv in Hs as [? _].
Qed.

(** What is known when the entries before the [n]-th one are here and the [n]-th one is not. *)
Lemma conflict_position s prev es n e :
  raft_state_ok s → follows prev (Entry.log_id <$> es) →
  (∀ p, prev = Some p → had s p ∧ agrees s p) →
  Forall (λ e, agrees s (Entry.log_id e)) es →
  (∀ k e, k < n → es !! k = Some e → had s (Entry.log_id e)) →
  es !! n = Some e → ¬ had s (Entry.log_id e) →
  (next_index s.(committed) ≤ Entry.index e)%N ∧
  (next_index (EffectiveMembership.log_id s.(membership_state).(ms_committed)) ≤ Entry.index e)%N ∧
  (Entry.index e ≤ next_index (last_log_id s))%N ∧
  (∀ l : LogIdList, cut_at s (Entry.index e) l → next_ids (set_log_ids s l) (drop n (Entry.log_id <$> es))).
Proof.
  intros Hok Hf Hprev Hall Hbefore He Hno. rewrite -> Forall_forall in Hall.
  assert ((Entry.log_id <$> es) !! n = Some (Entry.log_id e)) as Hx by by rw list_lookup_fmap He.
  pose proof (Hall e (list_elem_of_lookup_2 _ _ _ He)) as [Hac Ham].
  pose proof (follows_before _ _ _ _ Hf Hx) as Hb.
  set (b := match n with 0 => prev | S m => (Entry.log_id <$> es) !! m end) in Hb.
  assert (∀ p, b = Some p → had s p ∧ agrees s p) as Hbp.
  { intros p. subst b. destruct n as [|m]; [apply Hprev|]. rw list_lookup_fmap. intros (e' & He' & ->)%fmap_Some.
    split; [apply (Hbefore m e'); [lia|done]|]. apply Hall. by eapply list_elem_of_lookup_2. }
  split_and!.
  - destruct (decide (next_index (committed s) ≤ Entry.index e)%N) as [|Hlt]; [done|]. destruct Hno. left.
    rw /Entry.index in Hlt. rw /Entry.log_id. lia.
  - destruct (decide (next_index (EffectiveMembership.log_id (ms_committed (membership_state s))) ≤ Entry.index e)%N)
      as [|Hlt]; [done|]. destruct Hno. apply Ham. rw /Entry.index in Hlt. rw /Entry.log_id. lia.
  - change (Entry.index e) with (index (Entry.log_id e)).
    destruct b as [p|]; [|rw Hb; lia]. destruct Hb as [-> _].
    pose proof (had_lt_last s p Hok (proj1 (Hbp p eq_refl))). lia.
  - intros l (Hr & Hnext & Hlast).
    assert (head (drop n (Entry.log_id <$> es)) = Some (Entry.log_id e)) as Hhead.
    { by rw (drop_S _ _ _ Hx). }
    split; [split|].
    + apply Sorted_drop, Hf.
    + intros q x Hq Hxh. rw Hhead in Hxh. simplify_eq.
      change (LogIdList.last l = Some q) in Hq. rw Hlast in Hq. case_decide as Hz; [done|].
      destruct b as [p|]; [|by destruct Hz]. destruct (Hbp p eq_refl) as [Hhad [Hagr _]].
      assert (q = p) as ->; [|done]. apply (had_ref s p q); [done..|]. destruct Hb as [Hi _].
      change (Entry.index e) with (index (Entry.log_id e)) in Hq. rw Hi in Hq. by rw N.add_sub in Hq.
    + intros x Hxh. rw Hhead in Hxh. simplify_eq.
      change (last_log_id (set_log_ids s l)) with (LogIdList.last l). by rw Hnext.
Qed.

(** The state [s'] after the entries of [es] from the [n]-th one on replaced what was there. *)
Record append_result s es (n : nat) s' : Prop := {
  ar_ok : raft_state_ok s';
  ar_membership : membership_ok s';
  ar_committed : s'.(committed) = s.(committed);
  ar_vote : s'.(vote) = s.(vote);
  ar_log : ∀ i, ref_log_id s' i =
    match es !! n with
    | None => ref_log_id s i
    | Some e => if (i <? Entry.index e)%N then ref_log_id s i
                else drop n (Entry.log_id <$> es) !! N.to_nat (i - Entry.index e)
    end;
  ar_effective : ∀ m, list.last (memberships_of (drop n es)) = Some m →
    s'.(membership_state).(ms_effective) = EffectiveMembership.new_from_stored_membership m;
}.

Lemma append_all_last ms l m :
  list.last l = Some m → (append_all ms l).(ms_effective) = EffectiveMembership.new_from_stored_membership m.
Proof.
  intros [l' ->]%last_Some. rw /append_all foldl_app. done.
Qed.

Lemma last_two_last es m :
  list.last (memberships_of es) = Some m → list.last (last_two_memberships es) = Some m.
Proof.
  intros [l' Hm]%last_Some. rw last_two_memberships_spec Hm length_app /=.
  rw drop_app_le; [lia|]. by rw last_snoc.
Qed.

Lemma append_conflict_does r lv prev es n e :
  let s := state_of r in
  raft_state_ok s → membership_ok s → follows prev (Entry.log_id <$> es) →
  (∀ p, prev = Some p → had s p ∧ agrees s p) → Forall (λ e, agrees s (Entry.log_id e)) es →
  (∀ k e, k < n → es !! k = Some e → had s (Entry.log_id e)) →
  es !! n = Some e → ¬ had s (Entry.log_id e) →
  ∃ s', does (_ ← truncate_logs (Entry.index e); do_append_entries lv (drop n es)) r tt
      ((match ref_log_id s (Entry.index e) with Some x => [TruncateLog x] | None => [] end) ++
       [AppendInputEntries lv (drop n es)]) s' ∧
    append_result s es n s' ∧ s'.(io_state) = s.(io_state).
Proof.
  intros s Hok Hmo Hf Hprev Hall Hbefore He Hno.
  destruct (conflict_position s prev es n e Hok Hf Hprev Hall Hbefore He Hno) as (Hc & Hm & Hl & Hnext).
  pose proof (pointers_chain s Hok) as (Hp1 & Hp2 & _ & _).
  destruct (truncate_logs_does r (Entry.index e) Hok Hmo) as (l & ms & st & Hrun & Hcut & Hok1 & Hmo1 & _ & _);
    [fold s; lia|done..|].
  set (s1 := relogged s l ms st) in *. pose proof Hcut as (Hr & Hnl & _).
  assert (next_ids s1 (Entry.log_id <$> drop n es)) as Hn1 by (rw fmap_drop; by apply Hnext).
  assert (drop n es ≠ []) as Hne by by rw (drop_S _ _ _ He).
  destruct (do_append_does (emits r (match ref_log_id s (Entry.index e) with Some x => [TruncateLog x] | None => [] end) s1)
              lv (drop n es) Hok1 Hmo1 Hne Hn1) as (l2 & st2 & Hrun2 & Hok2 & Hmo2 & Hlog & _).
  eexists. split; [by eapply does_bind|]. split; [|done]. split; [exact Hok2|exact Hmo2|done|done| |].
  - intros i. rw He. etrans; [apply Hlog|]. rw /log_after. change (state_of (emits r _ s1)) with s1.
    change (last_log_id s1) with (LogIdList.last l). rw Hnl.
    destruct (N.ltb_spec i (Entry.index e)) as [Hi|Hi]; [|by rw fmap_drop].
    change (LogIdList.ref_at l i = ref_log_id s i). rw Hr. destruct (N.ltb_spec i (Entry.index e)); [done|lia].
  - intros m Hm'. cbn. by apply append_all_last, last_two_last.
Qed.

(** The entries of the request, as far as they are not purged, are all in the log. *)
Lemma append_result_entries s prev es n s' e :
  raft_state_ok s → follows prev (Entry.log_id <$> es) → Forall (λ e, agrees s (Entry.log_id e)) es →
  (∀ k e, k < n → es !! k = Some e → had s (Entry.log_id e)) → n ≤ length es →
  append_result s es n s' → e ∈ es → (s.(purged_next) ≤ Entry.index e + 1)%N →
  ref_log_id s' (Entry.index e) = Some (Entry.log_id e).
Proof.
  intros Hok Hf Hall Hbefore Hn Hres [k Hk]%list_elem_of_lookup Hp.
  assert ((Entry.log_id <$> es) !! k = Some (Entry.log_id e)) as Hx by by rw list_lookup_fmap Hk.
  pose proof (follows_index _ _ _ _ Hf Hx) as Hi. change (index (Entry.log_id e)) with (Entry.index e) in Hi.
  rw (ar_log _ _ _ _ Hres). destruct (decide (k < n)) as [Hlt|Hge].
  - assert (ref_log_id s (Entry.index e) = Some (Entry.log_id e)) as Href.
    { pose proof (Hbefore k e Hlt Hk) as Hhad. rewrite -> Forall_forall in Hall.
      destruct (Hall e (list_elem_of_lookup_2 _ _ _ Hk)) as [Ha _].
      destruct (ref_total s Hok (Entry.index e) Hp) as [y Hy]; [by apply (had_lt_last s (Entry.log_id e))|].
      rw Hy. f_equal. by apply (had_ref s). }
    destruct (es !! n) as [en|] eqn:Hen; [|done].
    assert ((Entry.log_id <$> es) !! n = Some (Entry.log_id en)) as Hxn by by rw list_lookup_fmap Hen.
    pose proof (follows_index _ _ _ _ Hf Hxn) as Hin. change (index (Entry.log_id en)) with (Entry.index en) in Hin.
    destruct (N.ltb_spec (Entry.index e) (Entry.index en)); [done|lia].
  - destruct (lookup_lt_is_Some_2 es n) as [en Hen]; [apply lookup_lt_Some in Hk; lia|]. rw Hen.
    assert ((Entry.log_id <$> es) !! n = Some (Entry.log_id en)) as Hxn by by rw list_lookup_fmap Hen.
    pose proof (follows_index _ _ _ _ Hf Hxn) as Hin. change (index (Entry.log_id en)) with (Entry.index en) in Hin.
    destruct (N.ltb_spec (Entry.index e) (Entry.index en)); [lia|].
    rw lookup_drop. replace (n + N.to_nat (Entry.index e - Entry.index en)) with k by lia. done.
Qed.

Lemma with_accepted_ok s a : raft_state_ok s → raft_state_ok (with_accepted s a).
Proof. by apply raft_state_ok_ext. Qed.

Lemma append_entries_does r lv prev es :
  let s := state_of r in
  let io := IOId.new_log_io lv (omax prev (Entry.log_id <$> list.last es)) in
  raft_state_ok s → membership_ok s → accepted_below s (committed_into_vote lv) →
  follows prev (Entry.log_id <$> es) → (∀ p, prev = Some p → had s p ∧ agrees s p) →
  Forall (λ e, agrees s (Entry.log_id e)) es →
  ∃ n cs s' a, does (append_entries lv prev es) r tt cs s' ∧ append_result s es n s' ∧ n ≤ length es ∧
    (∀ k e, k < n → es !! k = Some e → had s (Entry.log_id e)) ∧
    (∀ e, es !! n = Some e → ¬ had s (Entry.log_id e)) ∧
    match es !! n with
    | Some e => cs = (match ref_log_id s (Entry.index e) with Some x => [TruncateLog x] | None => [] end) ++
                     [AppendInputEntries lv (drop n es)]
    | None => cs = [] ∨ cs = [UpdateIOProgress (IOFlushed <$> accepted_io s) io]
    end ∧
    accepted_io s' = Some a ∧ IOId.to_vote a = committed_into_vote lv ∧ io_le io a ∧
    io_opt_le (accepted_io s) (Some a).
Proof.
  intros s io Hok Hmo Hacc Hf Hprev Hall.
  destruct (does_accept_io io r) as (a & Hio & Hle & Hioa & Hvote & _); [exact Hacc|].
  set (s1 := with_accepted s a) in *.
  assert (raft_state_ok s1) as Hok1 by by apply with_accepted_ok.
  assert (membership_ok s1) as Hmo1 by (split; apply Hmo).
  destruct (first_conflicting_run s1 es) as (n & Hn & Hlen & Hbefore & Hno).
  { eapply Forall_impl; [exact Hall|]. by intros e [? _]. }
  assert (assert_ (from_option id true ((λ e, (Entry.index e =? next_index prev)%N) <$> head es))
            "first_ent.index() == prev_log_id.next_index()" = Done tt) as Hassert.
  { destruct es as [|e es]; [done|]. cbn. rw (proj2 (N.eqb_eq _ _)); [|done]. by apply (proj2 Hf (Entry.log_id e)). }
  rw /append_entries. fold io.
  assert (∀ cs s', does (if n <? length es then
      ent ← lift (unwrap (es !! n) "index out of bounds");
      _ ← truncate_logs (Entry.index ent); do_append_entries lv (drop n es)
    else
      le ← lift (IOProgress.opt_le IOId.le (Some io) (accepted_io s));
      if (le : bool) then mret tt else push_command (UpdateIOProgress (IOFlushed <$> accepted_io s) io))
      (emits r [] s1) tt cs s' → does (append_entries lv prev es) r tt cs s') as Hhead.
  { intros cs s' Hrest. rw /append_entries. eapply does_pure; [apply does_lift|].
    { destruct es as [|e es]; [done|]. exact Hassert. }
    eapply does_quiet; [exact Hio|]. eapply does_pure; [apply does_get_state|].
    eapply does_pure; [by apply does_lift|]. exact Hrest. }
  destruct (es !! n) as [e|] eqn:He.
  - destruct (append_conflict_does (emits r [] s1) lv prev es n e) as (s' & Hrun & Hres & Hios);
      [done..|by apply Hno|].
    exists n, ((match ref_log_id s (Entry.index e) with Some x => [TruncateLog x] | None => [] end) ++
                     [AppendInputEntries lv (drop n es)]), s', a. rw He.
    split_and!; [apply Hhead|by destruct Hres|done|done| |done| |by rw Hvote|done|done].
    + destruct (Nat.ltb_spec n (length es)) as [_|?]; [|apply lookup_lt_Some in He; lia].
      eapply does_pure; [by apply does_lift|]. exact Hrun.
    + intros e' [= <-]. by apply Hno.
    + rw /accepted_io Hios. done.
  - pose proof He as Hge%lookup_ge_None. assert (append_result s es n s1) as Hres.
    { split; [done..| |]; [intros i; by rw He|]. rw drop_ge; [lia|]. done. }
    assert (n <? length es = false) as Hlt by (apply Nat.ltb_ge; lia). rw Hlt in Hhead.
    assert (∃ b, IOProgress.opt_le IOId.le (Some io) (accepted_io s) = Done b) as [b Hb].
    { destruct (io_opt_le_spec (Some io) (accepted_io s)) as (b & Hb & _); [|by exists b].
      destruct (accepted_io s) as [cur|] eqn:Hcur; [|done]. apply Hacc. exact Hcur. }
    exists n, (if b then [] else [UpdateIOProgress (IOFlushed <$> accepted_io s) io]), s1, a. rw He.
    split_and!; [apply Hhead|done..| |done|by rw Hvote|done|done].
    + eapply does_pure; [by apply does_lift|]. destruct b; [apply does_ret_emits|].
      apply (does_push_command _ (emits r [] s1)).
    + destruct b; auto.
Qed.

(** *** Committing *)
Lemma commit_entries_does r leader_committed :
  let s := state_of r in
  let c := omin (accepted_io s ≫= IOId.last_log_id) leader_committed in
  raft_state_ok s → membership_ok s → log_ptr s c →
  ∃ cs s', does (commit_entries leader_committed) r tt cs s' ∧ raft_state_ok s' ∧ membership_ok s' ∧
    s'.(committed) = omax s.(committed) c ∧ s'.(log_ids) = s.(log_ids) ∧ s'.(vote) = s.(vote) ∧
    accepted_io s' = accepted_io s ∧
    s'.(membership_state).(ms_effective) = s.(membership_state).(ms_effective) ∧
    if s.(committed) ≺? c then
      ∃ x trigger, c = Some x ∧ cs = [SaveCommitted x; Apply s.(committed) x] ++ trigger ∧
        (trigger = [] ∨ trigger = [StateMachine BuildSnapshot])
    else cs = [].
Proof.
  intros s c Hok Hmo Hc.
  destruct (commit_state s c Hok Hmo Hc) as (o & s1 & Hrun & Hok1 & Hmo1 & Hcm & Hl & Hvt & Hio & He & Ho).
  destruct (ltbP (committed s) c) as [Hlt|Hge].
  - destruct c as [x|] eqn:Hcx; [|by apply olt_None in Hlt].
    destruct (trigger_if_due_does (emits r [SaveCommitted x; Apply s.(committed) x] s1)
                (eng r).(Engine.config).(EngineConfig.snapshot_policy)) as (cs & b & Htrig & Hcs).
    exists ([SaveCommitted x; Apply s.(committed) x] ++ cs),
      (set_io_state s1 (IOState.set_building_snapshot s1.(io_state) b)).
    split; [|split_and!; [| |exact Hcm|exact Hl|exact Hvt| |exact He|exists x, cs; split_and!; done]].
    + rw /commit_entries. eapply does_pure; [apply does_get_state|]. fold s. fold c. rw Hcx.
      eapply does_pure; [by apply does_lift|]. cbn beta iota. rw Ho.
      eapply does_quiet; [apply does_put_state|].
      eapply does_pure; [by apply does_lift|]. apply does_push, does_push. rw !emits_emits.
      eapply does_pure; [apply does_get_config|]. eapply does_pure; [apply does_get_state|]. exact Htrig.
    + by eapply raft_state_ok_ext; [|exact Hok1].
    + split; apply Hmo1.
    + rw /accepted_io. cbn. by rw Hio.
  - exists [], s1. split_and!; try done; [|by rw /accepted_io Hio].
    rw /commit_entries. eapply does_pure; [apply does_get_state|]. fold s.
    eapply does_pure; [by apply does_lift|]. cbn beta iota. rw Ho.
    eapply does_quiet; [apply does_put_state|]. apply does_ret_emits.
Qed.

(** *** Installing a snapshot *)
Definition conflicts s (snap : LogId) : bool :=
  match ref_log_id s snap.(index) with Some y => bool_decide (y ≠ snap) | None => false end.

Definition committed_id s : option LogId := EffectiveMembership.log_id s.(membership_state).(ms_committed).
Definition effective_id s : option LogId := EffectiveMembership.log_id s.(membership_state).(ms_effective).

(** What the protocol guarantees of a snapshot beyond the committed log: it covers a log that is
    one with the committed entries, with the memberships that survive and with the local end of
    the log. *)
Record snapshot_compat s (m : SnapshotMeta) (snap : LogId) : Prop := {
  sc_last : m.(meta_last_log_id) = Some snap;
  sc_new : s.(committed) ≺ Some snap;
  sc_index : (next_index s.(committed) ≤ snap.(index))%N;
  sc_end : (snap.(index) < next_index (last_log_id s))%N ∨ last_log_id s ≺ Some snap;
  sc_membership : (next_index m.(last_membership).(stored_log_id) ≤ snap.(index) + 1)%N ∧
    same_log m.(last_membership).(stored_log_id) (Some snap);
  sc_committed : same_log m.(last_membership).(stored_log_id) (committed_id s) ∧ same_log (committed_id s) (Some snap);
  sc_conflict : conflicts s snap = true → (next_index (committed_id s) ≤ next_index s.(committed))%N;
  sc_effective : (conflicts s snap = true → (next_index (effective_id s) ≤ next_index s.(committed))%N) →
    same_log m.(last_membership).(stored_log_id) (effective_id s) ∧ same_log (effective_id s) (Some snap);
  sc_same : m.(last_membership).(stored_log_id) = committed_id s →
    m.(last_membership).(stored_membership_) =
      EffectiveMembership.membership s.(membership_state).(ms_committed);
}.

(** Deleting the conflicting entries: what is left agrees with the snapshot. *)
Lemma conflict_facts s m snap :
  raft_state_ok s → membership_ok s → snapshot_compat s m snap →
  ∃ (l : LogIdList) ch ms cs,
    (if conflicts s snap then
       ∃ x, ref_log_id s (next_index s.(committed)) = Some x ∧ cs = [TruncateLog x] ∧
         LogIdList.truncate s.(log_ids) (next_index s.(committed)) = Done l ∧
         MembershipState.truncate s.(membership_state) (next_index s.(committed)) = Done (ch, ms) ∧
         ∀ i, (snap.(index) ≤ i)%N → LogIdList.ref_at l i = None
     else l = s.(log_ids) ∧ ms = s.(membership_state) ∧ cs = []) ∧
    (∀ st, raft_state_ok (relogged s l ms st) ∧ membership_ok (relogged s l ms st)) ∧
    ms.(ms_committed) = s.(membership_state).(ms_committed) ∧
    same_log m.(last_membership).(stored_log_id) (EffectiveMembership.log_id ms.(ms_effective)) ∧
    same_log (EffectiveMembership.log_id ms.(ms_effective)) (Some snap) ∧
    (∀ y, LogIdList.ref_at l snap.(index) = Some y → y = snap) ∧
    (LogIdList.ref_at l snap.(index) = None → LogIdList.last l ≺ Some snap).
Proof.
  intros Hok Hmo Hsc. pose proof (pointers_chain s Hok) as (Hp1 & Hp2 & _ & Hp4).
  pose proof (sc_index _ _ _ Hsc) as Hci. pose proof (sc_end _ _ _ Hsc) as Hend.
  destruct (conflicts s snap) eqn:Hcf.
  - assert (is_Some (ref_log_id s (index snap))) as [y Hy].
    { rw /conflicts in Hcf. destruct (ref_log_id s (index snap)); [eauto|done]. }
    pose proof (ref_lt_last s Hok _ _ Hy) as Hlast.
    destruct (truncate_logs_facts s (next_index s.(committed)) Hok Hmo) as
      (l & ch & ms & Hrun & Hms & Hcut & Hboth & Hmc & Hme & Hle); [lia|lia|by apply (sc_conflict _ _ _ Hsc)|done|].
    destruct (ref_total s Hok (next_index s.(committed))) as [x Hx]; [lia..|].
    pose proof Hcut as (Hr & Hnl & Hll).
    assert (∀ i, (index snap ≤ i)%N → LogIdList.ref_at l i = None) as Hnone.
    { intros i Hi. rw Hr. destruct (N.ltb_spec i (next_index (committed s))); [lia|done]. }
    assert (same_log m.(last_membership).(stored_log_id) (EffectiveMembership.log_id ms.(ms_effective)) ∧
            same_log (EffectiveMembership.log_id ms.(ms_effective)) (Some snap)) as [Hs1 Hs2].
    { destruct (Some (next_index (committed s)) ⪯? _); rw Hme.
      - apply (sc_committed _ _ _ Hsc).
      - apply (sc_effective _ _ _ Hsc). intros _. by rw Hme in Hle. }
    exists l, ch, ms, [TruncateLog x]. split_and!; [by exists x|done|done|done|done| |].
    + intros y0. by rw Hnone.
    + intros _. rw Hll. case_decide as Hz; [done|].
      destruct (committed s) as [c|] eqn:Hc; [|done]. cbn [next_index]. rw N.add_sub.
      pose proof (rs_committed_ptr s Hok) as Hptr. rw (Hptr c Hc). pose proof (sc_new _ _ _ Hsc) as Hnew. by rw Hc in Hnew.
  - exists s.(log_ids), None, s.(membership_state), []. split_and!; try done.
    + intros st. split; [by apply (raft_state_ok_ext s)|split; apply Hmo].
    + apply (sc_effective _ _ _ Hsc). by rw Hcf.
    + apply (sc_effective _ _ _ Hsc). by rw Hcf.
    + intros y Hy. rw /conflicts in Hcf. change (ref_log_id s (index snap) = Some y) in Hy. rw Hy in Hcf.
      apply bool_decide_eq_false in Hcf. by destruct (decide (y = snap)).
    + intros Hno. destruct Hend as [Hlt|]; [|done]. exfalso.
      destruct (ref_total s Hok (index snap)) as [y Hy]; [lia..|]. change (ref_log_id s (index snap) = None) in Hno.
      congruence.
Qed.

Lemma same_log_trans (x y z : LogId) :
  same_log (Some x) (Some y) → same_log (Some y) (Some z) →
  (x.(index) ≤ y.(index))%N → (y.(index) ≤ z.(index))%N → same_log (Some x) (Some z).
Proof.
  intros H1 H2 Hxy Hyz.
  assert (x ⪯ y) as Lxy by by apply Some_ole, (same_log_le _ _ H1), Some_ole, N_ole.
  assert (y ⪯ z) as Lyz by by apply Some_ole, (same_log_le _ _ H2), Some_ole, N_ole.
  apply same_log_intro; split; intros Hle; [lia|order| |].
  - assert (x = y) as -> by (apply ole_antisymm; order). assert (y = z) as -> by (apply ole_antisymm; order). lia.
  - assert (y ⪯ x) as Lyx.
    { apply Some_ole, (same_log_le _ _ (same_log_opp _ _ H1)), Some_ole, N_ole. lia. }
    assert (z ⪯ y) as Lzy.
    { apply Some_ole, (same_log_le _ _ (same_log_opp _ _ H2)), Some_ole, N_ole. lia. }
    order.
Qed.

(** The log of [s'] starts with the snapshot and goes on like the log of [s]. *)
Lemma on_log_installed s s' snap p :
  raft_state_ok s → raft_state_ok s' →
  (∀ i, ref_log_id s' i = if (i <? snap.(index))%N then None
                          else if (i =? snap.(index))%N then Some snap else ref_log_id s i) →
  same_log p (Some snap) → (next_index p ≤ snap.(index) + 1)%N ∨ on_log s p → on_log s' p.
Proof.
  intros Hok Hok' Hr Hs Hor.
  assert (ref_log_id s' snap.(index) = Some snap) as Hsnap.
  { rw Hr. destruct (N.ltb_spec (index snap) (index snap)), (N.eqb_spec (index snap) (index snap)); try lia; done. }
  pose proof (ref_lt_last _ Hok' _ _ Hsnap) as Hsl. destruct p as [x|]; [|split; [cbn [next_index]; lia|intros ? ? _; apply same_log_None_l]].
  destruct (decide (index x ≤ index snap)%N) as [Hle|Hgt].
  - split; [cbn [next_index]; lia|]. intros i y Hy. pose proof (ref_index _ _ _ Hy) as <-.
    assert (index snap ≤ index y)%N as Hi.
    { pose proof Hy as Hy'. rw Hr in Hy'. by destruct (N.ltb_spec (index y) (index snap)). }
    apply (same_log_trans x snap y); [done| |done|done].
    eapply (ptr_on_log s' (Some snap)); [done|by intros z [= <-]|done].
  - destruct Hor as [Hlt|[Hnl Hon]]; [cbn in Hlt; lia|]. split.
    + destruct (last_log_id s) as [q|] eqn:Hq; [|cbn in Hnl; lia]. pose proof (ref_last s Hok q Hq) as Hrq.
      cbn in Hnl. assert (ref_log_id s' (index q) = Some q) as Hrq'.
      { rw Hr. destruct (N.ltb_spec (index q) (index snap)), (N.eqb_spec (index q) (index snap)); try lia; done. }
      pose proof (ref_lt_last _ Hok' _ _ Hrq'). cbn [next_index]. lia.
    + intros i y Hy. rw Hr in Hy. destruct (N.ltb_spec i (index snap)); [done|].
      destruct (N.eqb_spec i (index snap)); [by simplify_eq|]. by eapply Hon.
Qed.

Lemma purge_log_ids s upto (l : LogIdList) :
  purge_log s upto = Done (set_log_ids (set_purged_next s (upto.(index) + 1)) l) →
  LogIdList.purge s.(log_ids) upto = Done l.
Proof.
  rw /purge_log. cbn [set_purged_next log_ids]. destruct (LogIdList.purge (log_ids s) upto); [|done].
  cbn. intros [= ->]. done.
Qed.

(** The state after the snapshot is installed: the log starts with the snapshot's last entry, which
    is committed and the position purged up to; entries beyond it stay unless they conflicted. *)
Record installed s (m : SnapshotMeta) (snap : LogId) s' : Prop := {
  in_ok : raft_state_ok s';
  in_membership : membership_ok s';
  in_committed : s'.(committed) = Some snap;
  in_snapshot : s'.(snapshot_meta) = m;
  in_first : LogIdList.first s'.(log_ids) = Some snap;
  in_vote : s'.(vote) = s.(vote);
  in_log : ∀ i, ref_log_id s' i =
    if (i <? snap.(index))%N then None else if (i =? snap.(index))%N then Some snap
    else if conflicts s snap then None else ref_log_id s i;
  in_committed_membership : m.(last_membership).(stored_log_id) ⪯ committed_id s';
}.

(** The conflict handling of the installation, with its outcome. *)
Lemma install_conflict_does r m snap :
  let s := state_of r in
  raft_state_ok s → membership_ok s → snapshot_compat s m snap →
  ∃ (l : LogIdList) ms st cs,
    does (match get_log_id (set_snapshot_meta s m) snap.(index) with
          | Some local => if bool_decide (local ≠ snap) then truncate_logs (next_index s.(committed)) else mret tt
          | None => mret tt
          end) (emits r [] (set_snapshot_meta s m)) tt cs (relogged (set_snapshot_meta s m) l ms st) ∧
    raft_state_ok (relogged s l ms st) ∧ membership_ok (relogged s l ms st) ∧
    ms.(ms_committed) = s.(membership_state).(ms_committed) ∧
    same_log m.(last_membership).(stored_log_id) (EffectiveMembership.log_id ms.(ms_effective)) ∧
    same_log (EffectiveMembership.log_id ms.(ms_effective)) (Some snap) ∧
    (∀ y, LogIdList.ref_at l snap.(index) = Some y → y = snap) ∧
    (LogIdList.ref_at l snap.(index) = None → LogIdList.last l ≺ Some snap) ∧
    (∀ i, (snap.(index) < i)%N → LogIdList.ref_at l i = if conflicts s snap then None else ref_log_id s i) ∧
    (if conflicts s snap then ∃ x, ref_log_id s (next_index s.(committed)) = Some x ∧ cs = [TruncateLog x] else cs = []).
Proof.
  intros s Hok Hmo Hsc.
  destruct (conflict_facts s m snap Hok Hmo Hsc) as (l & ch & ms & cs & Hcase & Hboth & Hmc & H1 & H2 & H3 & H4).
  pose proof (pointers_chain s Hok) as (Hp1 & Hp2 & _ & _).
  assert (get_log_id (set_snapshot_meta s m) snap.(index) = ref_log_id s snap.(index)) as -> by done.
  destruct (conflicts s snap) eqn:Hcf.
  - destruct Hcase as (x & Hx & -> & Hrun & Hms & Hnone).
    assert (next_index (last_purged_log_id s) ≤ next_index (committed s))%N as Hpl.
    { rw next_last_purged //. lia. }
    destruct (truncate_logs_run (emits r [] (set_snapshot_meta s m)) (next_index s.(committed)) x l ch ms) as [st Hdoes];
      [done..|]. destruct (Hboth st). exists l, ms, st, [TruncateLog x]. split_and!; try done.
    + rw /conflicts in Hcf. destruct (ref_log_id s (index snap)) as [y|]; [|done]. by rw Hcf.
    + intros i Hi. apply Hnone. lia.
    + by exists x.
  - destruct Hcase as (-> & -> & ->). destruct (Hboth s.(server_state)).
    exists s.(log_ids), s.(membership_state), s.(server_state), []. split_and!; try done.
    assert (relogged (set_snapshot_meta s m) (log_ids s) (membership_state s) (server_state s) = set_snapshot_meta s m)
      as -> by done.
    rw /conflicts in Hcf. destruct (ref_log_id s (index snap)) as [y|]; [rw Hcf|]; apply does_ret_emits.
Qed.

(** The membership of the snapshot, merged into the membership state of a log that agrees with the
    snapshot, belongs to the installed log. *)
Lemma install_membership s s' snap (c : EffectiveMembership) :
  raft_state_ok s → membership_ok s → raft_state_ok s' →
  (∀ i, ref_log_id s' i = if (i <? snap.(index))%N then None
                          else if (i =? snap.(index))%N then Some snap else ref_log_id s i) →
  let old := s.(membership_state) in
  let new := s'.(membership_state) in
  (next_index (EffectiveMembership.log_id c) ≤ snap.(index) + 1)%N →
  same_log (EffectiveMembership.log_id c) (Some snap) →
  same_log (EffectiveMembership.log_id old.(ms_committed)) (Some snap) →
  same_log (EffectiveMembership.log_id old.(ms_effective)) (Some snap) →
  MembershipState.validate new = true →
  new.(ms_committed) = (if EffectiveMembership.log_id old.(ms_committed) ≺? EffectiveMembership.log_id c then c
                        else old.(ms_committed)) →
  new.(ms_effective) = (if opt_index (EffectiveMembership.log_id old.(ms_effective)) ⪯?
                           opt_index (EffectiveMembership.log_id c) then c else old.(ms_effective)) →
  membership_ok s'.
Proof.
  intros Hok [_ Hmc Hme] Hok' Hr old new H1 H2 H3 H4 Hv Hc He.
  assert (∀ p, same_log p (Some snap) → (next_index p ≤ snap.(index) + 1)%N ∨ on_log s p → on_log s' p) as Hon.
  { intros p. by apply (on_log_installed s _ snap). }
  split; [done| |]; fold new.
  - rw Hc. destruct (_ ≺? _); apply Hon; by auto.
  - rw He. destruct (_ ⪯? _); apply Hon; by auto.
Qed.

Lemma install_full_snapshot_does r lv snapshot snap :
  let s := state_of r in
  let m := snapshot.(meta) in
  raft_state_ok s → membership_ok s → accepted_below s (committed_into_vote lv) → snapshot_compat s m snap →
  ∃ cs s', does (install_full_snapshot lv snapshot) r (Some (Cond_Snapshot (Some snap)))
      (cs ++ [StateMachine (InstallFullSnapshot (IOId.new_log_io lv (Some snap)) snapshot); PurgeLog snap]) s' ∧
    installed s m snap s' ∧
    if conflicts s snap then ∃ x, ref_log_id s (next_index s.(committed)) = Some x ∧ cs = [TruncateLog x] else cs = [].
Proof.
  intros s m Hok Hmo Hacc Hsc.
  destruct (install_conflict_does r m snap Hok Hmo Hsc) as
    (l & ms & st & cs & Hconf & Hok0 & Hmo0 & Hmc & Hs1 & Hs2 & Hsame & Hlast & Hlog & Hcs).
  fold s in Hconf, Hok0, Hmo0, Hmc, Hlog, Hcs. set (s0 := relogged s l ms st) in *.
  set (s2 := relogged (set_snapshot_meta s m) l ms st) in *.
  destruct (does_accept_io (IOId.new_log_io lv (Some snap)) (emits r cs s2)) as (a & Hio & _); [exact Hacc|].
  destruct (update_committed_ms ms (EffectiveMembership.new_from_stored_membership m.(last_membership)))
    as (o & ms' & Hms & Hv & Hmsc & Hmse & _).
  { apply Hmo0. } { rw Hmc. apply (sc_committed _ _ _ Hsc). }
  { intros Hlt. by apply olt_le, (same_log_lt _ _ Hs1). } { rw Hmc. apply (sc_same _ _ _ Hsc). }
  destruct (install_state s0 snap m Hok0 (sc_last _ _ _ Hsc) (sc_index _ _ _ Hsc) Hsame Hlast)
    as (l' & Hpurge%purge_log_ids & Hok' & Hfirst & Hr).
  set (s4 := set_committed (with_accepted s2 a) (Some snap)).
  set (s5 := set_server_state (set_membership_state s4 ms') (calc_server_state (set_membership_state s4 ms') (id_of r))).
  set (s6 := set_purge_upto s5 (Some snap)).
  assert (last_purged_log_id s6 ≺ Some snap) as Hlp.
  { pose proof (rs_last_purged_le _ Hok0) as Hlp. pose proof (purge_upto_committed _ Hok0).
    pose proof (sc_new _ _ _ Hsc). change (last_purged_log_id s0 ≺ Some snap).
    change (committed s0) with (committed s) in *. order. }
  exists cs, (purged s6 snap l'). split; [|split; [|done]].
  - rw /install_full_snapshot. eapply does_pure; [apply does_get_state|]. fold m s. rw (sc_last _ _ _ Hsc).
    change (Config.committed s) with (committed s).
    destruct (lebP (Some snap) (committed s)) as [Hle|_]; [pose proof (sc_new _ _ _ Hsc); exfalso; order|].
    eapply does_pure; [by apply does_lift|].
    assert (meta_last_log_id m ⪯? snapshot_last_log_id s = false) as Hnl.
    { rw (sc_last _ _ _ Hsc). apply leb_gt. pose proof (rs_snapshot_le s Hok). pose proof (sc_new _ _ _ Hsc). order. }
    eapply does_quiet; [apply update_snapshot_does|]. fold s. rw Hnl. cbn [negb].
    eapply does_pure; [apply does_get_state|]. eapply does_bind; [exact Hconf|]. rw emits_emits. cbn [app].
    eapply does_quiet; [exact Hio|]. eapply does_quiet; [apply does_modify_state|].
    eapply does_quiet.
    { rw /update_committed_membership. eapply does_pure; [apply does_get_state|].
      eapply does_pure; [apply does_lift; exact Hms|]. cbn beta iota.
      eapply does_quiet; [apply does_put_state|]. apply update_server_state_does. }
    apply does_push. eapply does_quiet; [apply does_modify_state|].
    change [PurgeLog snap] with ([PurgeLog snap] ++ []).
    eapply does_bind; [|apply does_ret_emits].
    match goal with |- does _ ?R _ _ _ => assert (state_of R = s6) as HR by reflexivity end.
    rw -HR. apply purge_log_run; rw HR; [done|exact Hlp|].
    rw /RaftState.purge_log /purged. cbn -[LogIdList.purge]. cbn -[LogIdList.purge] in Hpurge. by rw Hpurge.
  - assert (raft_state_ok (purged s6 snap l')) as Hok7 by (eapply raft_state_ok_ext; [|exact Hok']; done).
    assert (∀ i, ref_log_id (purged s6 snap l') i = if (i <? snap.(index))%N then None
                          else if (i =? snap.(index))%N then Some snap else ref_log_id s0 i) as Hr7 by exact Hr.
    split; [done| |done|done|done|done| |].
    + eapply (install_membership s0 _ snap (EffectiveMembership.new_from_stored_membership m.(last_membership)));
        [exact Hok0|exact Hmo0|exact Hok7|exact Hr7|apply (sc_membership _ _ _ Hsc)|apply (sc_membership _ _ _ Hsc)| | | | |];
        [|exact Hs2|exact Hv|exact Hmsc|exact Hmse].
      change (membership_state s0) with ms. rw Hmc. apply (sc_committed _ _ _ Hsc).
    + intros i. rw Hr7. destruct (N.ltb_spec i (index snap)); [done|].
      destruct (N.eqb_spec i (index snap)); [done|]. change (ref_log_id s0 i) with (LogIdList.ref_at l i). apply Hlog. lia.
    + change (committed_id (purged s6 snap l')) with (EffectiveMembership.log_id (ms_committed ms')).
      rw Hmsc. destruct (ltbP (EffectiveMembership.log_id (ms_committed ms))
        (EffectiveMembership.log_id (EffectiveMembership.new_from_stored_membership (last_membership m)))) as [|Hge].
      * apply ole_refl.
      * exact Hge.
Qed.
End following_lemmas.
