(* ===== verification/ReplicationHandler.v ===== *)
(** * Replication and leader handlers (openraft/src/engine/handler/replication_handler/mod.rs,
      leader_handler/mod.rs)

    What a leader does: tracking the progress of its followers and committing what a quorum has
    accepted, changing membership, starting replication, appending proposed entries, heartbeats
    and leadership transfer. *)

From S2P Require Export LogHandler.

(** [NodeNotFound] (error/node_not_found.rs), for the operation [AllowNextRevert]. *)
Inductive NodeNotFound := NodeNotFound_new (node_id : NodeId).

Module ReplicationHandler.
Section ops.
Context {C : RaftTypeConfig}.

(** [self.leader.progress = p] *)
Definition put_progress (p : VecProgress ProgressEntry (option LogId) LeaderQuorumSet) : M unit :=
  l ← get_leader;
  put_leader (Some (Leader.set_progress l p)).

Definition rebuild_progresses : M unit :=
  s ← get_state;
  let em := s.(RaftState.membership_state).(ms_effective) in
  let learner_ids := EffectiveMembership.learner_ids em in
  let end_ := next_index (last_log_id s) in
  l ← get_leader;
  p ← lift (upgrade_quorum_set l.(Leader.progress)
              (Membership.to_quorum_set (EffectiveMembership.membership em)) learner_ids (ProgressEntry.empty end_));
  _ ← put_progress p;
  l ← get_leader;
  p ← lift (upgrade_quorum_set l.(Leader.clock_progress)
              (Membership.to_quorum_set (EffectiveMembership.membership em)) learner_ids None);
  put_leader (Some (Leader.set_clock_progress l p)).

(** The loop over [progress.iter_mut()]: the updated entries, and the targets in order. *)
Fixpoint reset_inflight (id : NodeId) (v : list (NodeId * ProgressEntry)) :
    list (NodeId * ProgressEntry) * list ReplicationProgress :=
  match v with
  | [] => ([], [])
  | (target, prog_entry) :: rest =>
      let '(rest, targets) := reset_inflight id rest in
      if bool_decide (target ≠ id) then
        let prog_entry := ProgressEntry.set_inflight prog_entry Inflight_None in
        ((target, prog_entry) :: rest, {| rp_target := target; rp_progress := prog_entry |} :: targets)
      else ((target, prog_entry) :: rest, targets)
  end.

Definition rebuild_replication_streams : M unit :=
  c ← get_config;
  l ← get_leader;
  let '(v, targets) := reset_inflight c.(EngineConfig.id) l.(Leader.progress).(vector) in
  _ ← put_progress (set_vector l.(Leader.progress) v);
  push_command (RebuildReplicationStreams targets).

Definition send_to_target (target : NodeId) (inflight : Inflight) : M unit :=
  match inflight with
  | Inflight_None => lift (Panic "no data to send")
  | Inflight_Logs log_id_range => push_command (ReplicateTo target (Replicate_logs log_id_range))
  | Inflight_Snapshot last_log_id => push_command (ReplicateTo target (Replicate_snapshot last_log_id))
  end.

(** The loop over [progress.iter_mut()], with the updated entries as its result. *)
Fixpoint initiate_loop (id : NodeId) (max_payload : N) (v : list (NodeId * ProgressEntry)) :
    M (list (NodeId * ProgressEntry)) :=
  match v with
  | [] => mret []
  | (target, prog_entry) :: rest =>
      if bool_decide (target = id) then
        rest ← initiate_loop id max_payload rest;
        mret ((target, prog_entry) :: rest)
      else
        s ← get_state;
        '(t, prog_entry) ← lift (ProgressEntry.next_send prog_entry s max_payload);
        _ ← (match t with ROk inflight => send_to_target target inflight | RErr _ => mret tt end);
        rest ← initiate_loop id max_payload rest;
        mret ((target, prog_entry) :: rest)
  end.

Definition initiate_replication : M unit :=
  c ← get_config;
  l ← get_leader;
  v ← initiate_loop c.(EngineConfig.id) c.(EngineConfig.max_payload_entries) l.(Leader.progress).(vector);
  put_progress (set_vector l.(Leader.progress) v).

Definition append_membership (log_id : LogId) (m : Membership) : M unit :=
  c ← get_config;
  s ← get_state;
  _ ← lift (assert_ (bool_decide (s.(RaftState.server_state) = Leader_))
              "Only leader is allowed to call update_effective_membership()");
  _ ← lift (assert_ (RaftState.is_leader s c.(EngineConfig.id))
              "Only leader is allowed to call update_effective_membership()");
  ms ← lift (MembershipState.append s.(RaftState.membership_state) (EffectiveMembership.new (Some log_id) m));
  _ ← put_state (RaftState.set_membership_state s ms);
  _ ← rebuild_progresses;
  _ ← rebuild_replication_streams;
  initiate_replication.

Definition update_leader_clock (node_id : NodeId) (t : Instant) : M unit :=
  l ← get_leader;
  '(granted, p) ← lift (increase_to l.(Leader.clock_progress) node_id (Some t));
  _ ← put_leader (Some (Leader.set_clock_progress l p));
  match granted with
  | ROk _ => mret tt
  | RErr _ => lift (Panic "it should always update existing progress")
  end.

Definition try_commit_quorum_accepted (granted : option LogId) : M unit :=
  s ← get_state;
  if (match granted with
      | Some c => negb (is_same_leader (RaftState.vote_ref s) c.(leader_id))
      | None => false
      end) then mret tt
  else
    '(prev_committed, s) ← lift (RaftState.update_committed s granted);
    _ ← put_state s;
    match prev_committed with
    | Some prev_committed =>
        _ ← push_command (ReplicateCommitted (Config.committed s));
        committed ← lift (unwrap (Config.committed s) "unwrap");
        _ ← push_command (SaveCommitted committed);
        _ ← push_command (Apply prev_committed committed);
        c ← get_config;
        if should_snapshot c.(EngineConfig.snapshot_policy) s then
          _ ← SnapshotHandler.trigger_snapshot; mret tt
        else mret tt
    | None => mret tt
    end.

Definition update_matching (node_id : NodeId) (log_id : option LogId) : M unit :=
  _ ← lift (assert_ (bool_decide (log_id ≠ None)) "a valid update can never set matching to None");
  l ← get_leader;
  '(quorum_accepted, p) ← lift (update_with l.(Leader.progress) node_id (λ prog_entry,
                                  Updater.update_matching prog_entry log_id));
  _ ← put_progress p;
  match quorum_accepted with
  | ROk quorum_accepted => try_commit_quorum_accepted quorum_accepted
  | RErr _ => lift (Panic "it should always update existing progress")
  end.

Definition update_conflicting (target : NodeId) (conflict : LogId) : M unit :=
  c ← get_config;
  l ← get_leader;
  p ← lift (get_mut_with l.(Leader.progress) target (λ prog_entry,
              Updater.update_conflicting c prog_entry conflict.(index)));
  p ← lift (unwrap p "unwrap");
  put_progress p.

Definition allow_next_revert (target : NodeId) (allow : bool) : M (Result unit NodeNotFound) :=
  l ← get_leader;
  p ← lift (get_mut_with l.(Leader.progress) target (λ prog_entry,
              Done (ProgressEntry.set_allow_log_reversion prog_entry allow)));
  match p with
  | None => mret (RErr (NodeNotFound_new target))
  | Some p => _ ← put_progress p; mret (ROk tt)
  end.

Definition try_purge_log : M unit :=
  s ← get_state;
  if Config.purge_upto s ⪯? last_purged_log_id s then mret tt
  else
    purge_upto ← lift (unwrap (Config.purge_upto s) "unwrap");
    l ← get_leader;
    let in_use := existsb (λ e : NodeId * ProgressEntry, ProgressEntry.is_log_range_inflight e.2 purge_upto)
                    l.(Leader.progress).(vector) in
    if (in_use : bool) then mret tt else LogHandler.purge_log.

(** [Err] carries the text of a network error. *)
Definition update_progress (target : NodeId) (repl_res : Result ReplicationResult string) : M unit :=
  _ ← (match repl_res with
       | ROk (ROk matching) => update_matching target matching
       | ROk (RErr conflict) => update_conflicting target conflict
       | RErr _ =>
           l ← get_leader;
           p ← lift (get_mut_with l.(Leader.progress) target (λ p, Done (ProgressEntry.set_inflight p Inflight_None)));
           p ← lift (unwrap p "unwrap");
           put_progress p
       end);
  try_purge_log.

Definition update_local_progress (upto : option LogId) : M unit :=
  match upto with
  | None => mret tt
  | Some _ =>
      c ← get_config;
      let id := c.(EngineConfig.id) in
      l ← get_leader;
      match try_get l.(Leader.progress) id with
      | None => mret tt
      | Some prog_entry =>
          if upto ⪯? prog_entry.(matching) then mret tt
          else
            p ← lift (get_mut_with l.(Leader.progress) id (λ e,
                        Done (ProgressEntry.set_inflight e (Inflight.logs None upto))));
            p ← lift (unwrap p "unwrap");
            _ ← put_progress p;
            update_matching id upto
      end
  end.
End ops.
End ReplicationHandler.

Module LeaderHandler.
Section ops.
Context {C : RaftTypeConfig}.

(** The loop that looks for a membership entry: at most one is allowed in a batch. *)
Fixpoint find_membership (entries : list Entry) (membership_entry : option (LogId * Membership)) :
    Outcome (option (LogId * Membership)) :=
  match entries with
  | [] => Done membership_entry
  | entry :: rest =>
      match Entry.get_membership entry with
      | Some m =>
          _ ← assert_ (bool_decide (membership_entry = None)) "only one membership entry is allowed in a batch";
          find_membership rest (Some (Entry.log_id entry, m))
      | None => find_membership rest membership_entry
      end
  end.

Definition leader_append_entries (entries : list Entry) : M unit :=
  if length entries =? 0 then mret tt
  else
    l ← get_leader;
    '(entries, l) ← lift (Leader.assign_log_ids l entries);
    _ ← put_leader (Some l);
    s ← get_state;
    s ← lift (RaftState.extend_log_ids_from_same_leader s (Entry.log_id <$> entries));
    _ ← put_state s;
    membership_entry ← lift (find_membership entries None);
    _ ← accept_io (IOId.new_log_io l.(Leader.committed_vote) l.(Leader.last_log_id));
    _ ← push_command (AppendInputEntries l.(Leader.committed_vote) entries);
    _ ← (match membership_entry with
         | Some (log_id, m) => ReplicationHandler.append_membership log_id m
         | None => mret tt
         end);
    ReplicationHandler.initiate_replication.

Definition send_heartbeat : M unit :=
  s ← get_state;
  l ← get_leader;
  let membership_log_id := EffectiveMembership.log_id s.(RaftState.membership_state).(ms_effective) in
  let session_id := ReplicationSessionId_new l.(Leader.committed_vote) membership_log_id in
  push_command (BroadcastHeartbeat session_id (Config.committed s)).

Definition get_read_log_id : M (option LogId) :=
  s ← get_state;
  l ← get_leader;
  mret (omax l.(Leader.noop_log_id) (Config.committed s)).

Definition transfer_leader (to : NodeId) : M unit :=
  l ← get_leader;
  let l := Leader.mark_transfer l to in
  _ ← put_leader (Some l);
  _ ← modify_state (λ s, RaftState.set_vote s (Leased.disable_lease s.(RaftState.vote)));
  push_command (BroadcastTransferLeader
    {| from_leader := committed_into_vote l.(Leader.committed_vote); to_node_id := to;
       transfer_last_log_id := l.(Leader.last_log_id) |}).
End ops.
End LeaderHandler.

(** ** Committing what a quorum has accepted *)
Section leader_commit.
Context {C : RaftTypeConfig}.
Implicit Types (r : Rt) (s : RaftState.RaftState).

(** Only an entry the leader itself proposed is committed by counting. *)
Definition committable s (granted : option LogId) : bool :=
  match granted with Some c => is_same_leader (RaftState.vote_ref s) c.(leader_id) | None => true end.

Lemma try_commit_does r granted :
  let s := state_of r in
  raft_state_ok s → membership_ok s → log_ptr s granted →
  ∃ cs s', does (ReplicationHandler.try_commit_quorum_accepted granted) r tt cs s' ∧
    raft_state_ok s' ∧ membership_ok s' ∧
    s'.(RaftState.committed) = (if committable s granted then omax s.(RaftState.committed) granted
                                else s.(RaftState.committed)) ∧
    s'.(RaftState.log_ids) = s.(RaftState.log_ids) ∧ s'.(RaftState.vote) = s.(RaftState.vote) ∧
    if committable s granted && (s.(RaftState.committed) ≺? granted) then
      ∃ x trigger, granted = Some x ∧
        cs = [ReplicateCommitted (Some x); SaveCommitted x; Apply s.(RaftState.committed) x] ++ trigger ∧
        (trigger = [] ∨ trigger = [StateMachine BuildSnapshot])
    else cs = [].
Proof.
  intros s Hok Hmo Hg. rw /ReplicationHandler.try_commit_quorum_accepted.
  assert ((match granted with Some c => negb (is_same_leader (RaftState.vote_ref s) c.(leader_id)) | None => false end)
          = negb (committable s granted)) as Hcm by by destruct granted.
  destruct (committable s granted); cbn [negb andb] in Hcm |- *; last first.
  { exists [], s. split; [|done]. eapply does_pure; [apply does_get_state|]. fold s. rw Hcm. apply does_ret. }
  destruct (commit_state s granted Hok Hmo Hg) as (o & s1 & Hrun & Hok1 & Hmo1 & Hc1 & Hl & Hvt & Hio & He & Ho).
  destruct (ltbP (RaftState.committed s) granted) as [Hlt|Hge].
  - destruct granted as [x|]; [|by apply olt_None in Hlt]. rewrite -> omax_r_eq in Hc1 by by apply olt_le.
    destruct (trigger_if_due_does (emits r [ReplicateCommitted (Some x); SaveCommitted x; Apply s.(RaftState.committed) x] s1)
                (eng r).(Engine.config).(EngineConfig.snapshot_policy)) as (cs & b & Htrig & Hcs).
    exists ([ReplicateCommitted (Some x); SaveCommitted x; Apply s.(RaftState.committed) x] ++ cs),
      (RaftState.set_io_state s1 (IOState.set_building_snapshot s1.(RaftState.io_state) b)).
    split; [|split_and!; [| |rewrite -> omax_r_eq by (by apply olt_le); exact Hc1|exact Hl|exact Hvt|exists x, cs; split_and!; done]].
    + eapply does_pure; [apply does_get_state|]. fold s. rw Hcm.
      eapply does_pure; [by apply does_lift|]. cbn beta iota. rw Ho.
      eapply does_quiet; [apply does_put_state|].
      assert (Config.committed s1 = Some x) as -> by exact Hc1. apply does_push.
      eapply does_pure; [by apply does_lift|]. apply does_push, does_push. rw !emits_emits.
      eapply does_pure; [apply does_get_config|]. exact Htrig.
    + by eapply raft_state_ok_ext; [|exact Hok1].
    + split; apply Hmo1.
  - exists [], s1. split_and!; try done.
    eapply does_pure; [apply does_get_state|]. fold s. rw Hcm.
    eapply does_pure; [by apply does_lift|]. cbn beta iota. rw Ho.
    eapply does_quiet; [apply does_put_state|]. apply does_ret_emits.
Qed.

End leader_commit.

(** ** Appending proposed entries *)
Section leader_append.
Context {C : RaftTypeConfig}.
Implicit Types (r : Rt) (s : RaftState.RaftState).

(** The progress of a follower that the leader can send to. *)
Record sendable s (e : ProgressEntry) : Prop := {
  se_valid : ProgressEntry.validate e = true;
  se_matching : matching_ok s e.(matching);
  se_end : (e.(searching_end) ≤ next_index (last_log_id s))%N;
}.

Lemma next_send_any s e mx :
  log_state_ok s → sendable s e →
  ∃ res e', ProgressEntry.next_send e s mx = Done (res, e') ∧ ProgressEntry.validate e' = true ∧
    e'.(matching) = e.(matching) ∧ ∀ i, res = ROk i → i ≠ Inflight_None.
Proof.
  intros Hok [Hv Hm He]. destruct (decide (e.(inflight) = Inflight_None)) as [Hi|Hi].
  - destruct (next_send_cases s e mx Hok Hm Hv Hi He) as (res & i & Hrun & Hv' & Hcases).
    exists res, (ProgressEntry.set_inflight e i). split_and!; [done..|].
    intros j ->. destruct Hcases as [([= ->] & -> & _)|[(rng & [= ->] & -> & _)|([=] & _)]]; done.
  - exists (RErr e.(inflight)), e. split_and!; [|done..]. rw /ProgressEntry.next_send /Inflight.is_none.
    rw bool_decide_false; [by intros Heq; destruct Hi|]. done.
Qed.

Definition is_replicate (id : NodeId) (c : Command) : Prop := ∃ target req, c = ReplicateTo target req ∧ target ≠ id.

Lemma initiate_loop_does id mx v r :
  log_state_ok (state_of r) → Forall (λ te, te.1 ≠ id → sendable (state_of r) te.2) v →
  ∃ v' cs, does (ReplicationHandler.initiate_loop id mx v) r v' cs (state_of r) ∧ v'.*1 = v.*1 ∧
    matching <$> v'.*2 = matching <$> v.*2 ∧
    Forall (λ te, te.1 ≠ id → ProgressEntry.validate te.2 = true) v' ∧ Forall (is_replicate id) cs.
Proof.
  intros Hok. revert r Hok. induction v as [|[t e] v IH]; intros r Hok Hall.
  { exists [], []. split_and!; [apply does_ret|done..]. }
  apply Forall_cons in Hall as [He Hall]. cbn [ReplicationHandler.initiate_loop]. case_bool_decide as Ht.
  - destruct (IH r Hok Hall) as (v' & cs & Hrun & H1 & H2 & H3 & H4).
    exists ((t, e) :: v'), cs. split_and!; [|by cbn; rw H1|by cbn; rw H2|by apply Forall_cons; split|done].
    rewrite <- (app_nil_r cs). eapply does_bind; [exact Hrun|apply does_ret_emits].
  - destruct (next_send_any _ e mx Hok (He Ht)) as (res & e' & Hsend & Hv & Hm & Hne).
    assert (∃ cs1, does (match res with ROk inflight => ReplicationHandler.send_to_target t inflight | RErr _ => mret tt end)
              r tt cs1 (state_of r) ∧ Forall (is_replicate id) cs1) as (cs1 & Hs & Hcs1).
    { destruct res as [[|rng|sn]|]; [by destruct (Hne _ eq_refl)|..].
      - eexists. split; [apply does_push_command|]. apply Forall_singleton. by eexists _, _.
      - eexists. split; [apply does_push_command|]. apply Forall_singleton. by eexists _, _.
      - exists []. split; [apply does_ret|done]. }
    destruct (IH (emits r cs1 (state_of r)) Hok Hall) as (v' & cs & Hrun & H1 & H2 & H3 & H4).
    exists ((t, e') :: v'), (cs1 ++ cs). split_and!; [|by cbn; rw H1|by cbn; rw H2 Hm|by apply Forall_cons; split|by apply Forall_app].
    eapply does_pure; [apply does_get_state|]. eapply does_pure; [by apply does_lift|]. cbn beta iota.
    eapply does_bind; [exact Hs|]. rewrite <- (app_nil_r cs). eapply does_bind; [exact Hrun|]. apply does_ret_emits.
Qed.

Lemma next_ids_assigned s lid n (ids : list LogId) :
  n = next_index (last_log_id s) → (∀ q, last_log_id s = Some q → q.(leader_id) ⪯ lid) →
  (∀ k x, ids !! k = Some x → x = LogId_new lid (n + N.of_nat k)) →
  next_ids s ids ∧ (∀ x y, x ∈ ids → y ∈ ids → x.(leader_id) = y.(leader_id)).
Proof.
  intros -> Hq Hids.
  assert (∀ m ids, (∀ k x, ids !! k = Some x → x = LogId_new lid (m + N.of_nat k)) → Sorted log_next ids) as Hsorted.
  { clear. intros m ids. revert m. induction ids as [|x ids IH]; intros m Hids; [done|]. constructor.
    - apply (IH (m + 1)%N). intros k y Hy. rw (Hids (S k) y Hy). f_equal. lia.
    - destruct ids as [|y ids]; [done|]. constructor. rw (Hids 0 x eq_refl) (Hids 1 y eq_refl).
      split; [cbn; lia|apply ole_refl]. }
  split; [split; [split; [by eapply Hsorted|]|]|].
  - intros q x Hl Hh. destruct ids as [|y ids]; [done|]. injection Hh as ->.
    change (last_log_id s = Some q) in Hl. rw (Hids 0 x eq_refl). rw Hl. cbn. split; [cbn; lia|by apply Hq].
  - intros x Hh. destruct ids as [|y ids]; [done|]. injection Hh as ->. rw (Hids 0 x eq_refl). cbn. lia.
  - intros x y [k Hx]%list_elem_of_lookup [j Hy]%list_elem_of_lookup. by rw (Hids _ _ Hx) (Hids _ _ Hy).
Qed.

Lemma find_membership_none es acc :
  Forall (λ e, Entry.get_membership e = None) es → LeaderHandler.find_membership es acc = Done acc.
Proof. induction 1 as [|e es He _ IH]; [done|]. cbn. by rw He. Qed.

Lemma initiate_replication_run r l :
  r.(eng).(Engine.leader) = Some l → log_state_ok (state_of r) →
  Forall (λ te, te.1 ≠ id_of r → sendable (state_of r) te.2) l.(Leader.progress).(vector) →
  ∃ v' cs r', ReplicationHandler.initiate_replication r = Done (tt, r') ∧
    r'.(eng).(Engine.leader) = Some (Leader.set_progress l (set_vector l.(Leader.progress) v')) ∧
    state_of r' = state_of r ∧ commands_of r' = commands_of r ++ cs ∧ Forall (is_replicate (id_of r)) cs ∧
    r'.(eng).(Engine.candidate) = r.(eng).(Engine.candidate).
Proof.
  intros Hl Hok Hall.
  destruct (initiate_loop_does (id_of r) (eng r).(Engine.config).(EngineConfig.max_payload_entries) _ r Hok Hall)
    as (v' & cs & Hrun & _ & _ & _ & Hcs).
  assert (get_leader r = Done (l, r)) as Hg by by rw /get_leader Hl.
  assert (get_leader (emits r cs (state_of r)) = Done (l, emits r cs (state_of r))) as Hg' by by rw /get_leader /= Hl.
  eexists v', cs, _. split.
  { rw /ReplicationHandler.initiate_replication (bind_run get_config _ r _ _ eq_refl) (bind_run _ _ _ _ _ Hg).
    rw (bind_run _ _ _ _ _ Hrun) /ReplicationHandler.put_progress (bind_run _ _ _ _ _ Hg'). done. }
  by split_and!.
Qed.

Lemma no_membership_payload es es' :
  payload <$> es' = payload <$> es → Forall (λ e, Entry.get_membership e = None) es →
  Forall (λ e, Entry.get_membership e = None) es'.
Proof.
  revert es. induction es' as [|e' es' IH]; intros [|e es] Heq Hall; try done.
  injection Heq as He Heq. apply Forall_cons in Hall as [H1 H2]. apply Forall_cons. split; [|by eapply IH].
  revert H1. rw /Entry.get_membership. by rw He.
Qed.

Lemma matching_ok_extend s s' ids m lid :
  raft_state_ok s → s'.(RaftState.snapshot_meta) = s.(RaftState.snapshot_meta) →
  (∀ i, ref_log_id s' i = log_after s ids i) → (∀ x, x ∈ ids → x.(leader_id) = lid) →
  (∀ a, m = Some a → a.(leader_id) ⪯ lid) → matching_ok s m → matching_ok s' m.
Proof.
  intros Hok Hsn Hr Hids Hm Hmo a x Ha Hx Hle. destruct Hx as [[i Hx]|Hx].
  - rw Hr /log_after in Hx. destruct (N.ltb_spec i (next_index (last_log_id s))).
    + apply (Hmo a x Ha); [by left; exists i|done].
    + apply list_elem_of_lookup_2 in Hx. rw (Hids x Hx). by apply Hm.
  - apply (Hmo a x Ha); [right|done]. cbn in Hx. by rw Hsn in Hx.
Qed.

Lemma leader_append_run r l es :
  let s := state_of r in
  let lid := committed_leader_id l.(Leader.committed_vote) in
  let n := next_index (last_log_id s) in
  r.(eng).(Engine.leader) = Some l → l.(Leader.transfer_to) = None → l.(Leader.last_log_id) = last_log_id s →
  es ≠ [] → Forall (λ e, Entry.get_membership e = None) es →
  raft_state_ok s → membership_ok s → (s.(RaftState.purge_upto) ≠ None → snapshot_last_log_id s ≠ None) →
  (∀ q, last_log_id s = Some q → q.(leader_id) ⪯ lid) →
  accepted_below s (committed_into_vote l.(Leader.committed_vote)) →
  Forall (λ te, te.1 ≠ id_of r → sendable s te.2 ∧ ∀ a, te.2.(matching) = Some a → a.(leader_id) ⪯ lid)
    l.(Leader.progress).(vector) →
  ∃ r' es' cs, LeaderHandler.leader_append_entries es r = Done (tt, r') ∧
    let s' := state_of r' in
    payload <$> es' = payload <$> es ∧
    (∀ k e, es' !! k = Some e → Entry.log_id e = LogId_new lid (n + N.of_nat k)) ∧
    raft_state_ok s' ∧ membership_ok s' ∧
    (∀ i, ref_log_id s' i = if (i <? n)%N then ref_log_id s i else (Entry.log_id <$> es') !! N.to_nat (i - n)) ∧
    s'.(RaftState.committed) = s.(RaftState.committed) ∧
    commands_of r' = commands_of r ++ AppendInputEntries l.(Leader.committed_vote) es' :: cs ∧
    Forall (is_replicate (id_of r)) cs ∧
    s'.(RaftState.vote) = s.(RaftState.vote) ∧ s'.(RaftState.server_state) = s.(RaftState.server_state) ∧
    r'.(eng).(Engine.candidate) = r.(eng).(Engine.candidate) ∧
    ∃ l', r'.(eng).(Engine.leader) = Some l' ∧ l'.(Leader.committed_vote) = l.(Leader.committed_vote) ∧
      l'.(Leader.last_log_id) = last_log_id s'.
Proof.
  intros s lid n Hl Ht Hlast Hne Hnm Hok Hmo Hpu Hq Hacc Hpeers.
  destruct (assign_log_ids_run l es Ht Hne) as (es' & Hassign & Hes').
  pose proof (assign_from_spec lid (next_index l.(Leader.last_log_id)) es) as (_ & Hlen & Hpay & Hids).
  rw -Hes' Hlast in Hlen Hpay Hids. fold n in Hids.
  destruct (next_ids_assigned s lid n (Entry.log_id <$> es') eq_refl Hq) as [Hnext Hsame].
  { intros k x. rw list_lookup_fmap. intros (e & He & ->)%fmap_Some. by apply Hids. }
  destruct (extend_same_leader_state s _ Hok Hnext Hsame) as (ll & Hext & Hok' & Hll & Hr).
  set (l' := Leader.set_last_log_id l (list.last (Entry.log_id <$> es'))) in *.
  set (r1 := set_eng r (Engine.set_leader r.(eng) (Some l'))).
  destruct (does_accept_io (IOId.new_log_io l'.(Leader.committed_vote) l'.(Leader.last_log_id)) (emits r1 [] (RaftState.set_log_ids s ll)))
    as (a & Hio & _); [exact Hacc|].
  set (s2 := with_accepted (RaftState.set_log_ids s ll) a).
  set (r2 := emits (emits (emits r1 [] (RaftState.set_log_ids s ll)) [] s2)
               [AppendInputEntries l.(Leader.committed_vote) es'] s2).
  assert (raft_state_ok s2) as Hok2 by exact (raft_state_ok_ext (RaftState.set_log_ids s ll) s2 eq_refl Hok').
  destruct (initiate_replication_run r2 l' eq_refl) as (v' & cs & r' & Hinit & Hl' & Hs' & Hc' & Hcs & Hcand).
  { apply raft_state_log_state_ok; [exact Hok2|exact Hpu]. }
  { eapply Forall_impl; [exact Hpeers|]. intros [t e] He Hid. destruct (He Hid) as [[Hv Hm Hend] Hlead].
    split; [exact Hv| |].
    - apply (matching_ok_extend s _ (Entry.log_id <$> es') _ lid); try done.
      intros x (e' & -> & [k Hk]%list_elem_of_lookup)%list_elem_of_fmap. by rw (Hids _ _ Hk).
    - etrans; [exact Hend|]. change (last_log_id (state_of r2)) with (LogIdList.last ll). rw Hll.
      destruct (list.last (Entry.log_id <$> es')) as [y|] eqn:Hy; [|done]. rw last_lookup in Hy.
      cbn [next_index]. rw (next_ids_lookup _ _ _ _ Hnext Hy). lia. }
  exists r', es', cs. split.
  { assert (get_leader r = Done (l, r)) as Hg by by rw /get_leader Hl.
    assert (length es =? 0 = false) as Hz by by destruct es.
    rw /LeaderHandler.leader_append_entries Hz (bind_run _ _ _ _ _ Hg).
    rw (bind_run (lift (Leader.assign_log_ids l es)) _ r (es', l') r); [by rw Hassign|]. cbn beta iota.
    rw (bind_run (put_leader (Some l')) _ r tt r1 eq_refl) (bind_run get_state _ r1 s r1 eq_refl).
    rw (bind_run (lift _) _ r1 (RaftState.set_log_ids s ll) r1); [by rw Hext|].
    rw (bind_run _ _ _ _ _ (does_put_state (RaftState.set_log_ids s ll) r1)).
    rw (bind_run (lift _) _ _ None (emits r1 [] (RaftState.set_log_ids s ll))).
    { rw find_membership_none; [by eapply no_membership_payload|done]. }
    rw (bind_run _ _ _ _ _ Hio). exact Hinit. }
  cbn zeta. rw Hs'. split_and!; [done|done|exact Hok2| |exact Hr|done| |exact Hcs|done|done|exact Hcand|].
  - split; [apply Hmo|..]; apply (on_log_extend s (Entry.log_id <$> es') ll); try done; apply Hmo.
  - rw Hc'. rw /r2. cbn. rw /commands_of. cbn. rw !app_nil_r -app_assoc. done.
  - eexists. split; [exact Hl'|]. split; [done|]. change (list.last (Entry.log_id <$> es') = LogIdList.last ll).
    rw Hll. destruct (list.last (Entry.log_id <$> es')) eqn:Hy; [done|].
    apply last_None, fmap_nil_inv in Hy. subst es'. by destruct es.
Qed.

End leader_append.

(** ** Witnesses *)
Section ut.
#[local] Existing Instance UTConfig.

(** A leader of term 3 whose only voter, node 2, has the entries up to 5 in flight. *)
Definition ut_entry : ProgressEntry := {|
  matching := None; inflight := Inflight_Logs (LogIdRange_new None (Some (ut_log_id 3 1 5)));
  searching_end := 7; allow_log_reversion := false |}.
Definition ut_busy_leader : Leader.Leader LeaderQuorumSet := {|
  Leader.transfer_to := None; Leader.committed_vote := to_committed (Vote_new_committed 3 1);
  Leader.next_heartbeat := 0; Leader.last_log_id := Some (ut_log_id 3 1 6);
  Leader.noop_log_id := Some (ut_log_id 3 1 4);
  Leader.progress := VecProgress_new (Joint_new [[2]]%N) [] ut_entry;
  Leader.clock_progress := VecProgress_new (Joint_new [[2]]%N) [] None |}.
Definition ut_leader_rt : Rt := set_eng (ut_rt 1) (Engine.set_leader (eng (ut_rt 1)) (Some ut_busy_leader)).

Lemma ut_progress_wf : vp_wf ut_busy_leader.(Leader.progress).
Proof. apply VecProgress_new_wf. split; [by apply (bool_decide_unpack _)|done|done]. Qed.


End ut.
