(* ===== verification/VoteHandler.v ===== *)
(** * Vote and establish handlers (openraft/src/engine/handler/vote_handler/mod.rs,
      establish_handler/mod.rs)

    [VoteHandler.update_vote] checks and accepts the vote of every incoming message and brings the
    node to the leading or following state the vote asks for; [EstablishHandler.establish] turns
    a candidate with a granted vote into the leader. *)

From S2P Require Export ReplicationHandler FollowingHandler.

Module VoteHandler.
Section ops.
Context {C : RaftTypeConfig}.

(** The part of [become_leader] that re-creates the leader for a different vote. *)
Definition become_new_leader : M unit :=
  s ← get_state;
  t ← now;
  leader ← lift (RaftState.new_leader t s);
  let leader_vote := leader.(Leader.committed_vote) in
  _ ← put_leader (Some leader);
  let last_log_id := leader.(Leader.last_log_id) in
  let noop_log_id := leader.(Leader.noop_log_id) in
  _ ← accept_io (IOId.new_log_io leader_vote last_log_id);
  _ ← push_command (UpdateIOProgress None (IOId.new_log_io leader_vote last_log_id));
  _ ← ServerStateHandler.update_server_state_if_changed;
  _ ← ReplicationHandler.rebuild_replication_streams;
  if last_log_id ≺? noop_log_id then LeaderHandler.leader_append_entries [Entry.new_blank LogId_default]
  else ReplicationHandler.initiate_replication.

Definition become_leader : M unit :=
  e ← get_engine;
  match e.(Engine.leader) with
  | Some l =>
      if bool_decide (vote_leader_id (committed_into_vote l.(Leader.committed_vote)) =
                      vote_leader_id (RaftState.vote_ref e.(Engine.state))) then
        _ ← put_leader (Some (Leader.set_committed_vote l (to_committed (RaftState.vote_ref e.(Engine.state)))));
        ServerStateHandler.update_server_state_if_changed
      else become_new_leader
  | None => become_new_leader
  end.

Definition become_following : M unit :=
  c ← get_config;
  s ← get_state;
  _ ← lift (assert_ (bool_decide (leader_node_id (RaftState.vote_ref s) ≠ Some c.(EngineConfig.id)) ||
              negb (Membership.is_voter
                      (EffectiveMembership.membership s.(RaftState.membership_state).(ms_effective))
                      c.(EngineConfig.id)))
              "It must hold: vote is not mine, or I am not a voter(leader just left the cluster)");
  _ ← put_leader None;
  _ ← put_candidate None;
  ServerStateHandler.update_server_state_if_changed.

Definition update_internal_server_state : M unit :=
  c ← get_config;
  s ← get_state;
  if RaftState.is_leader s c.(EngineConfig.id) then become_leader
  else if RaftState.is_leading s c.(EngineConfig.id) then mret tt
  else become_following.

Definition update_vote (vote : Vote) : M (Result unit RejectVoteRequest) :=
  s ← get_state;
  ge ← lift (ref_vote_ge (as_ref_vote vote) (as_ref_vote (RaftState.vote_ref s)));
  if negb ge then mret (RErr (ByVote (RaftState.vote_ref s)))
  else
    c ← get_config;
    let leader_lease :=
      if is_committed vote then c.(EngineConfig.timer_config).(TimeState.leader_lease) else 0%N in
    gt ← lift (ref_vote_gt (as_ref_vote vote) (as_ref_vote (RaftState.vote_ref s)));
    _ ← (if (gt : bool) then
           t ← now;
           _ ← modify_state (λ s, RaftState.set_vote s (Leased.update s.(RaftState.vote) t leader_lease vote));
           _ ← accept_io (IOId.new vote);
           push_command (SaveVote vote)
         else
           t ← now;
           v ← lift (Leased.touch s.(RaftState.vote) t leader_lease);
           modify_state (λ s, RaftState.set_vote s v));
    _ ← update_internal_server_state;
    mret (ROk tt).

(** [accept_vote] answers a rejected vote through [tx]; [f] builds the response. *)
Definition accept_vote (vote : Vote) (tx : Tx) (f : RaftState.RaftState → RejectVoteRequest → Respond) :
    M (option Tx) :=
  vote_res ← update_vote vote;
  match vote_res with
  | RErr e =>
      s ← get_state;
      let res := f s e in
      let condition := Some (IOFlushed (IOId.new (RaftState.vote_ref s))) in
      _ ← push_command (RespondCmd condition res);
      mret None
  | ROk _ => mret (Some tx)
  end.
End ops.
End VoteHandler.

Module EstablishHandler.
Section ops.
Context {C : RaftTypeConfig}.

Definition establish (candidate : Candidate.Candidate LeaderQuorumSet) :
    M (option (Leader.Leader LeaderQuorumSet)) :=
  let vote := candidate.(Candidate.vote) in
  c ← get_config;
  _ ← lift (assert_ (bool_decide (leader_node_id vote = Some c.(EngineConfig.id))) "it can only commit its own vote");
  e ← get_engine;
  ok ← (match e.(Engine.leader) with
        | Some l => lift (ref_vote_gt (as_ref_vote vote) (committed_as_ref_vote l.(Leader.committed_vote)))
        | None => mret true
        end);
  if negb ok then mret None
  else
    t ← now;
    leader ← lift (Candidate.into_leader t candidate);
    _ ← put_leader (Some leader);
    mret (Some leader).
End ops.
End EstablishHandler.

(** ** Accepting the vote of another node *)
Section update_vote.
Context {C : RaftTypeConfig}.
Implicit Types (r : Rt) (s : RaftState.RaftState).

(** The node accepted [v], the vote of another node, and follows it. *)
Record following r (v : Vote) r' : Prop := {
  fl_config : r'.(eng).(Engine.config) = r.(eng).(Engine.config);
  fl_leader : r'.(eng).(Engine.leader) = None;
  fl_candidate : r'.(eng).(Engine.candidate) = None;
  fl_vote : RaftState.vote_ref (state_of r') = v;
  fl_last_update : RaftState.vote_last_modified (state_of r') = Some r.(clock);
  fl_log : log_part (state_of r') = log_part (state_of r);
  fl_membership : (state_of r').(RaftState.membership_state) = (state_of r).(RaftState.membership_state);
  fl_snapshot : (state_of r').(RaftState.snapshot_meta) = (state_of r).(RaftState.snapshot_meta);
  fl_server_state : (state_of r').(RaftState.server_state) =
    if MembershipState.is_voter (state_of r).(RaftState.membership_state) (id_of r) then Follower else Learner;
  fl_accepted : accepted_below (state_of r') v;
  fl_accepted_mono : io_opt_le (RaftState.accepted_io (state_of r)) (RaftState.accepted_io (state_of r'));
  fl_commands : commands_of r' =
    commands_of r ++ (if bool_decide (RaftState.vote_ref (state_of r) = v) then [] else [SaveVote v]);
}.

Lemma become_following_run r :
  leader_node_id (RaftState.vote_ref (state_of r)) ≠ Some (id_of r) →
  ∃ r', VoteHandler.update_internal_server_state r = Done (tt, r') ∧
    r'.(eng).(Engine.config) = r.(eng).(Engine.config) ∧ r'.(eng).(Engine.leader) = None ∧
    r'.(eng).(Engine.candidate) = None ∧ commands_of r' = commands_of r ∧
    state_of r' = RaftState.set_server_state (state_of r)
      (if MembershipState.is_voter (state_of r).(RaftState.membership_state) (id_of r) then Follower else Learner).
Proof.
  intros Hid.
  assert (RaftState.is_leading (state_of r) (id_of r) = false) as Hl.
  { rw /RaftState.is_leading. by rw bool_decide_false ?andb_false_r. }
  set (r2 := set_eng (set_eng r (Engine.set_leader r.(eng) None))
                (Engine.set_candidate (Engine.set_leader r.(eng) None) None)).
  assert (VoteHandler.update_internal_server_state r = ServerStateHandler.update_server_state_if_changed r2) as ->.
  { rw /VoteHandler.update_internal_server_state /mbind /st_bind /get_config /get_state /st_gets.
    rw /RaftState.is_leader. change (Engine.state (eng r)) with (state_of r).
    change (EngineConfig.id (Engine.config (eng r))) with (id_of r). rw Hl. cbn [andb].
    rw /VoteHandler.become_following /mbind /st_bind /get_config /get_state /st_gets.
    change (Engine.state (eng r)) with (state_of r).
    change (EngineConfig.id (Engine.config (eng r))) with (id_of r). by rw (bool_decide_true _ Hid). }
  rw update_server_state_does. eexists. split; [done|]. split_and!; try done.
  - cbn. rw /commands_of /=. by rw app_nil_r.
  - change (state_of (emits r2 [] ?x)) with x. f_equal. change (state_of r2) with (state_of r).
    change (id_of r2) with (id_of r).
    rw /RaftState.calc_server_state /RaftState.is_leader Hl. done.
Qed.

Lemma ref_vote_ge_run (a b : Vote) : vote_compat a b →
  ∃ x, ref_vote_ge (as_ref_vote a) (as_ref_vote b) = Done x ∧ (x = true ↔ vote_le b a).
Proof. intros Hc. rw /ref_vote_ge (partial_cmp_spec _ _ Hc). eexists. split; [done|]. apply vote_ge_cmp. Qed.
Lemma ref_vote_gt_run (a b : Vote) : vote_compat a b →
  ∃ x, ref_vote_gt (as_ref_vote a) (as_ref_vote b) = Done x ∧ (x = true ↔ vote_lt b a).
Proof. intros Hc. rw /ref_vote_gt (partial_cmp_spec _ _ Hc). eexists. split; [done|]. apply vote_gt_cmp. Qed.

(** A smaller or incomparable vote changes nothing. *)
Lemma update_vote_reject r v :
  vote_compat v (RaftState.vote_ref (state_of r)) → ¬ vote_le (RaftState.vote_ref (state_of r)) v →
  VoteHandler.update_vote v r = Done (RErr (ByVote (RaftState.vote_ref (state_of r))), r).
Proof.
  intros Hc Hno. destruct (ref_vote_ge_run _ _ Hc) as (x & Hx & Hiff).
  rw /VoteHandler.update_vote {1}/mbind /st_bind /get_state /st_gets. change (Engine.state (eng r)) with (state_of r).
  rw Hx. destruct x; [by destruct Hno; apply Hiff|]. done.
Qed.

Lemma new_to_vote v : IOId.to_vote (IOId.new v) = v.
Proof. by destruct v as [l []]. Qed.

(** The runtime after the clock was read and the vote recorded. *)
Definition voted r s cs : Rt := emits
  {| eng := r.(eng); clock := r.(clock) + r.(drift) r.(readings); readings := S r.(readings); drift := r.(drift);
     sent := r.(sent) |} cs s.

(** Recording the vote, the first half of [update_vote]: a greater vote... *)
Lemma save_vote_run r v lease0 :
  let s := state_of r in
  accepted_below s v →
  ∃ a, (t ← now;
        _ ← modify_state (λ s, RaftState.set_vote s (Leased.update s.(RaftState.vote) t lease0 v));
        _ ← accept_io (IOId.new v);
        push_command (SaveVote v)) r =
      Done (tt, voted r (with_accepted (RaftState.set_vote s (Leased.new r.(clock) lease0 v)) a) [SaveVote v]) ∧
    IOId.to_vote a = v ∧ io_opt_le (RaftState.accepted_io s) (Some a).
Proof.
  intros s Hacc.
  set (r0 := {| eng := r.(eng); clock := r.(clock) + r.(drift) r.(readings); readings := S r.(readings);
                drift := r.(drift); sent := r.(sent) |}).
  set (r1 := set_eng r0 (Engine.set_state r0.(eng) (RaftState.set_vote s (Leased.new r.(clock) lease0 v)))).
  destruct (does_accept_io (IOId.new v) r1) as (a & Hio & H1 & _ & H2 & _); [by rw new_to_vote|].
  rw new_to_vote in H2. exists a. split; [|done].
  change ((accept_io (IOId.new v) ≫= λ _, push_command (SaveVote v)) r1 =
    Done (tt, voted r (with_accepted (RaftState.set_vote s (Leased.new r.(clock) lease0 v)) a) [SaveVote v])).
  rw (bind_run _ _ _ _ _ Hio) /push_command /st_modify. do 2 f_equal. rw /voted /emits /commands_of /=.
  by rw app_nil_r.
Qed.

(** ... or the same vote again. *)
Lemma touch_vote_run r v lease0 :
  let s := state_of r in
  RaftState.vote_ref s = v → RaftState.vote_last_modified s ⪯ Some r.(clock) →
  (t ← now;
   l ← lift (Leased.touch s.(RaftState.vote) t lease0);
   modify_state (λ s, RaftState.set_vote s l)) r =
  Done (tt, voted r (RaftState.set_vote s {| data := v; last_update := Some r.(clock);
             lease := if s.(RaftState.vote).(lease_enabled) then lease0 else s.(RaftState.vote).(Config.lease);
             lease_enabled := s.(RaftState.vote).(lease_enabled) |}) []).
Proof.
  intros s Hv Hlm. rw (bind_run now _ r r.(clock) _ eq_refl).
  rw /Leased.touch. rw (proj2 (leb_le _ _) Hlm). change (data (RaftState.vote s)) with (RaftState.vote_ref s).
  rw Hv. cbn. do 2 f_equal. rw /voted /emits /commands_of /= app_nil_r. by destruct r as [[? ? ? ? ? []] ? ? ?].
Qed.

Lemma update_vote_run r v :
  let s := state_of r in
  let lease := if is_committed v then r.(eng).(Engine.config).(EngineConfig.timer_config).(TimeState.leader_lease) else 0%N in
  vote_compat v (RaftState.vote_ref s) → vote_le (RaftState.vote_ref s) v →
  accepted_below s v → RaftState.vote_last_modified s ⪯ Some r.(clock) →
  ∃ s1, VoteHandler.update_vote v r = (VoteHandler.update_internal_server_state ≫= λ _, mret (ROk tt))
      (voted r s1 (if bool_decide (RaftState.vote_ref s = v) then [] else [SaveVote v])) ∧
    if bool_decide (RaftState.vote_ref s = v) then
      s1 = RaftState.set_vote s {| data := v; last_update := Some r.(clock);
             lease := if s.(RaftState.vote).(lease_enabled) then lease else s.(RaftState.vote).(Config.lease);
             lease_enabled := s.(RaftState.vote).(lease_enabled) |}
    else ∃ a, s1 = with_accepted (RaftState.set_vote s (Leased.new r.(clock) lease v)) a ∧
           IOId.to_vote a = v ∧ io_opt_le (RaftState.accepted_io s) (Some a).
Proof.
  intros s lease0 Hc Hle Hacc Hlm.
  destruct (ref_vote_ge_run _ _ Hc) as (x & Hx & Hxi). destruct (ref_vote_gt_run _ _ Hc) as (y & Hy & Hyi).
  assert (x = true) as -> by by apply Hxi.
  rw /VoteHandler.update_vote {1}/mbind /st_bind /get_state /st_gets. change (Engine.state (eng r)) with s.
  rw Hx. cbn [lift negb]. rw /get_config /st_gets Hy. cbn [lift].
  change (Engine.config (eng r)) with r.(eng).(Engine.config). fold lease0.
  destruct Hle as [Hlt|Heq].
  - assert (y = true) as -> by by apply Hyi.
    assert (RaftState.vote_ref s ≠ v) as Hne by (intros <-; by apply vote_lt_irrefl in Hlt).
    rw !(bool_decide_false _ Hne).
    destruct (save_vote_run r v lease0 Hacc) as (a & Hrun & Hrest).
    eexists. split; [exact (bind_run _ _ _ _ _ Hrun)|]. by exists a.
  - assert (y = false) as ->. { destruct y; [|done]. destruct (vote_lt_irrefl v). rw -{1}Heq. by apply Hyi. }
    rw !(bool_decide_true _ Heq). eexists. split; [exact (bind_run _ _ _ _ _ (touch_vote_run r v lease0 Heq Hlm))|done].
Qed.

Lemma vote_compat_refl v : vote_compat v v.
Proof. intros _ _. by rw lid_cmp_refl. Qed.

(** The vote of another node, at or above the local one, is accepted and followed. *)
Lemma update_vote_follow r v :
  let s := state_of r in
  vote_compat v (RaftState.vote_ref s) → vote_le (RaftState.vote_ref s) v →
  leader_node_id v ≠ Some (id_of r) →
  accepted_below s v → RaftState.vote_last_modified s ⪯ Some r.(clock) →
  ∃ r', VoteHandler.update_vote v r = Done (ROk tt, r') ∧ following r v r'.
Proof.
  intros s Hc Hle Hid Hacc Hlm. destruct (update_vote_run r v Hc Hle Hacc Hlm) as (s1 & Hrun & Hs1).
  fold s in Hrun, Hs1. set (cs := if bool_decide (RaftState.vote_ref s = v) then [] else [SaveVote v]) in *.
  assert (RaftState.vote_ref s1 = v ∧ RaftState.vote_last_modified s1 = Some r.(clock) ∧ log_part s1 = log_part s ∧
    s1.(RaftState.membership_state) = s.(RaftState.membership_state) ∧
    s1.(RaftState.snapshot_meta) = s.(RaftState.snapshot_meta) ∧ accepted_below s1 v ∧
    io_opt_le (RaftState.accepted_io s) (RaftState.accepted_io s1)) as (H1 & H2 & H3 & H4 & H5 & H6 & H7).
  { case_bool_decide.
    - subst s1. split_and!; try done. rw /RaftState.accepted_io. cbn.
      rw /io_opt_le. destruct (accepted _); [apply io_le_refl|done].
    - destruct Hs1 as (a & -> & Ha & Hm). split_and!; try done. intros cur [= <-]. rw Ha.
      split; [apply vote_compat_refl|apply vote_le_refl]. }
  destruct (become_following_run (voted r s1 cs)) as (r' & Hint & F1 & F2 & F3 & F4 & F5).
  { change (state_of (voted r s1 cs)) with s1. by rw H1. }
  exists r'. split; [rw Hrun; exact (bind_run _ _ _ _ _ Hint)|].
  change (state_of (voted r s1 cs)) with s1 in F5. split; rw ?F5; try done.
  by rw H4.
Qed.
End update_vote.
