(* ===== verification/EngineImpl.v ===== *)
(** * The engine (openraft/src/engine/engine_impl.rs)

    The entry points of the consensus engine, composed from the handlers: start up, initialize,
    elect, the vote, append-entries, commit and snapshot requests and responses, purging, and
    leadership transfer. *)

From S2P Require Export VoteHandler.

Module EngineImpl.
Section ops.
Context {C : RaftTypeConfig}.

(** [following_handler()]: its checks, and the vote of the leader it follows. *)
Definition following_handler : M CommittedVote :=
  e ← get_engine;
  _ ← lift (assert_ (negb (bool_decide (is_Some e.(Engine.leader)))) "self.leader.is_none()");
  let leader_vote := RaftState.vote_ref e.(Engine.state) in
  _ ← lift (assert_ (is_committed leader_vote) "Expect the Leader vote to be committed");
  mret (to_committed leader_vote).

(** [leader_handler()]: [ROk] when this node is the leader. *)
Definition leader_handler : M (Result unit ForwardToLeader) :=
  e ← get_engine;
  match e.(Engine.leader) with
  | None =>
      f ← lift (RaftState.forward_to_leader e.(Engine.state));
      mret (RErr f)
  | Some l =>
      ge ← lift (ref_vote_ge (committed_as_ref_vote l.(Leader.committed_vote))
                   (as_ref_vote (RaftState.vote_ref e.(Engine.state))));
      _ ← lift (assert_ ge "leader.vote >= state.vote");
      mret (ROk tt)
  end.

Definition get_leader_handler_or_reject (tx : option Tx) : M (option (option Tx)) :=
  res ← leader_handler;
  match res with
  | ROk _ => mret (Some tx)
  | RErr forward_err =>
      _ ← (match tx with Some tx => push_sent tx forward_err | None => mret tt end);
      mret None
  end.

Definition new_candidate (vote : Vote) : M (Candidate.Candidate LeaderQuorumSet) :=
  t ← now;
  s ← get_state;
  let membership := EffectiveMembership.membership s.(RaftState.membership_state).(ms_effective) in
  let candidate := Candidate.new t vote (last_log_id s) (Membership.to_quorum_set membership)
                     (Membership.learner_ids membership) in
  _ ← put_candidate (Some candidate);
  mret candidate.

Definition startup : M unit :=
  c ← get_config;
  s ← get_state;
  if RaftState.is_leader s c.(EngineConfig.id) then VoteHandler.update_internal_server_state
  else
    let server_state :=
      if EffectiveMembership.is_voter s.(RaftState.membership_state).(ms_effective) c.(EngineConfig.id)
      then Follower else Learner in
    put_state (RaftState.set_server_state s server_state).

Definition check_initialize (s : RaftState.RaftState) : Result unit InitializeError :=
  if negb (RaftState.is_initialized s) then ROk tt
  else RErr (NotAllowed (last_log_id s) (RaftState.vote_ref s)).

Definition check_members_contain_me (id : NodeId) (m : Membership) : Result unit InitializeError :=
  if negb (Membership.is_voter m id) then RErr (NotInMembers id m) else ROk tt.

Definition elect : M unit :=
  c ← get_config;
  s ← get_state;
  let new_term := next_term (vote_term (RaftState.vote_ref s)) in
  let leader_id := lid_new new_term c.(EngineConfig.id) in
  let new_vote := from_leader_id leader_id false in
  candidate ← new_candidate new_vote;
  let last_log_id := candidate.(Candidate.last_log_id) in
  r ← VoteHandler.update_vote new_vote;
  _ ← lift (assert_ (is_ok r) "called `Result::unwrap()` on an `Err` value");
  _ ← push_command (SendVote {| vreq_vote := new_vote; vreq_last_log_id := last_log_id |});
  ServerStateHandler.update_server_state_if_changed.

Definition initialize (entry : Entry) : M (Result unit InitializeError) :=
  s ← get_state;
  match check_initialize s with
  | RErr e => mret (RErr e)
  | ROk _ =>
      let entry := Entry.set_log_id entry LogId_default in
      m ← lift (unwrap (Entry.get_membership entry)
                  "the only log entry for initializing has to be membership log");
      c ← get_config;
      match check_members_contain_me c.(EngineConfig.id) m with
      | RErr e => mret (RErr e)
      | ROk _ =>
          let vote := from_leader_id (lid_default (CLID := CommittedLeaderId)) true in
          t ← now;
          _ ← modify_state (λ s, RaftState.set_vote s (Leased.update s.(RaftState.vote) t 0 vote));
          leader_vote ← following_handler;
          _ ← FollowingHandler.do_append_entries leader_vote [entry];
          _ ← elect;
          mret (ROk tt)
      end
  end.

Definition handle_vote_req (req : VoteRequest) : M VoteResponse :=
  t ← now;
  s ← get_state;
  let local_leased_vote := s.(RaftState.vote) in
  if is_committed local_leased_vote.(data) && negb (Leased.is_expired local_leased_vote t 0) then
    mret (VoteResponse_new (RaftState.vote_ref s) (last_log_id s) false)
  else if negb (last_log_id s ⪯? req.(vreq_last_log_id)) then
    mret (VoteResponse_new (RaftState.vote_ref s) (last_log_id s) false)
  else
    res ← VoteHandler.update_vote req.(vreq_vote);
    s ← get_state;
    mret (VoteResponse_new (RaftState.vote_ref s) (last_log_id s) (is_ok res)).

(** Vote is granted by a quorum, leader established. *)
Definition establish_leader : M unit :=
  e ← get_engine;
  candidate ← lift (unwrap e.(Engine.candidate) "unwrap");
  _ ← put_candidate None;
  leader ← EstablishHandler.establish candidate;
  match leader with
  | None => mret tt
  | Some leader =>
      let vote := leader.(Leader.committed_vote) in
      let last_log_id := leader.(Leader.last_log_id) in
      _ ← ReplicationHandler.rebuild_replication_streams;
      res ← VoteHandler.update_vote (committed_into_vote vote);
      _ ← lift (assert_ (is_ok res) "commit vote can not fail");
      _ ← accept_io (IOId.new_log_io vote last_log_id);
      lh ← leader_handler;
      _ ← lift (assert_ (is_ok lh) "called `Result::unwrap()` on an `Err` value");
      LeaderHandler.leader_append_entries [Entry.new_blank LogId_default]
  end.

Definition set_greater_log : M unit :=
  st_modify (λ r, set_eng r (Engine.set_seen_greater_log r.(eng) true)).
Definition reset_greater_log : M unit :=
  st_modify (λ r, set_eng r (Engine.set_seen_greater_log r.(eng) false)).

Definition handle_vote_resp (target : NodeId) (resp : VoteResponse) : M unit :=
  e ← get_engine;
  match e.(Engine.candidate) with
  | None => mret tt
  | Some candidate =>
      if resp.(vote_granted) && bool_decide (resp.(vresp_vote) = candidate.(Candidate.vote)) then
        '(quorum_granted, candidate) ← lift (Candidate.grant_by candidate target);
        _ ← put_candidate (Some candidate);
        if (quorum_granted : bool) then establish_leader else mret tt
      else
        s ← get_state;
        _ ← (if last_log_id s ≺? resp.(vresp_last_log_id) then set_greater_log else mret tt);
        _ ← VoteHandler.update_vote resp.(vresp_vote);
        mret tt
  end.

Definition append_entries (vote : Vote) (prev_log_id : option LogId) (entries : list Entry) :
    M (Result unit RejectAppendEntries) :=
  r ← VoteHandler.update_vote vote;
  match r with
  | RErr e => e ← lift (reject_append_from_vote e); mret (RErr e)
  | ROk _ =>
      leader_vote ← following_handler;
      r ← FollowingHandler.ensure_log_consecutive prev_log_id;
      match r with
      | RErr e => mret (RErr e)
      | ROk _ =>
          _ ← FollowingHandler.append_entries leader_vote prev_log_id entries;
          mret (ROk tt)
      end
  end.

Definition handle_append_entries (vote : Vote) (prev_log_id : option LogId) (entries : list Entry)
    (tx : option Tx) : M bool :=
  res ← append_entries vote prev_log_id entries;
  let is_ok := is_ok res in
  _ ← (match tx with
       | Some tx =>
           let resp := append_response_from res in
           s ← get_state;
           condition ← lift (if (is_ok : bool) then
                               io_id ← unwrap (RaftState.accepted_io s) "unwrap"; Done (Some (IOFlushed io_id))
                             else Done None);
           push_command (RespondCmd condition (Respond_AppendEntries resp tx))
       | None => mret tt
       end);
  mret is_ok.

Definition handle_commit_entries (leader_committed : option LogId) : M unit :=
  _ ← following_handler;
  FollowingHandler.commit_entries leader_committed.

Definition handle_install_full_snapshot (vote : Vote) (snapshot : Snapshot) (tx : Tx) : M unit :=
  vote_res ← VoteHandler.accept_vote vote tx (λ state _,
               Respond_InstallFullSnapshot {| sresp_vote := RaftState.vote_ref state |} tx);
  match vote_res with
  | None => mret tt
  | Some tx =>
      leader_vote ← following_handler;
      cond ← FollowingHandler.install_full_snapshot leader_vote snapshot;
      s ← get_state;
      push_command (RespondCmd cond (Respond_InstallFullSnapshot {| sresp_vote := RaftState.vote_ref s |} tx))
  end.

Definition handle_begin_receiving_snapshot (tx : Tx) : M unit :=
  push_command (StateMachine (BeginReceivingSnapshot tx)).

Definition leader_step_down : M unit :=
  s ← get_state;
  let em := s.(RaftState.membership_state).(ms_effective) in
  if EffectiveMembership.log_id em ⪯? Config.committed s then VoteHandler.update_internal_server_state
  else mret tt.

Definition try_purge_log : M unit :=
  e ← get_engine;
  match e.(Engine.leader) with
  | Some _ => ReplicationHandler.try_purge_log
  | None => LogHandler.purge_log
  end.

Definition finish_building_snapshot (meta : SnapshotMeta) : M unit :=
  _ ← modify_state (λ s, RaftState.set_io_state s (IOState.set_building_snapshot s.(RaftState.io_state) false));
  updated ← SnapshotHandler.update_snapshot meta;
  if negb updated then mret tt
  else
    _ ← LogHandler.schedule_policy_based_purge;
    try_purge_log.

Definition trigger_purge_log (index : N) : M unit :=
  s ← get_state;
  match snapshot_last_log_id s with
  | None => mret tt
  | Some snapshot_last_log_id =>
      let scheduled := Config.purge_upto s in
      if (index <? next_index scheduled)%N then mret tt
      else
        let index :=
          if (snapshot_last_log_id.(LogId.index) <? index)%N then snapshot_last_log_id.(LogId.index) else index in
        log_id ← lift (unwrap (get_log_id s index) "unwrap");
        _ ← LogHandler.update_purge_upto log_id;
        try_purge_log
  end.

Definition trigger_transfer_leader (to : NodeId) : M unit :=
  lh ← get_leader_handler_or_reject None;
  match lh with
  | None => mret tt
  | Some _ => LeaderHandler.transfer_leader to
  end.
End ops.
End EngineImpl.

(** ** Handling the requests of a leader *)
Section follower.
Context {C : RaftTypeConfig}.
Implicit Types (r : Rt) (s : RaftState.RaftState).

(** A message of another node with the vote [v] reaches a node whose accepted io is no newer than
    its vote, with a clock that does not run backwards. *)
Record from_peer r (v : Vote) : Prop := {
  fp_compat : vote_compat v (RaftState.vote_ref (state_of r));
  fp_other : leader_node_id v ≠ Some (id_of r);
  fp_accepted : accepted_below (state_of r) (RaftState.vote_ref (state_of r));
  fp_compat_io : ∀ cur, RaftState.accepted_io (state_of r) = Some cur → vote_compat v (IOId.to_vote cur);
  fp_clock : RaftState.vote_last_modified (state_of r) ⪯ Some r.(clock);
}.

Lemma from_peer_follow r v :
  from_peer r v → vote_le (RaftState.vote_ref (state_of r)) v →
  ∃ r', VoteHandler.update_vote v r = Done (ROk tt, r') ∧ following r v r'.
Proof.
  intros [H1 H2 H3 H4 H5] Hle. apply update_vote_follow; try done.
  intros cur Hcur. split; [by apply H4|]. destruct (H3 cur Hcur) as [_ Hc]. by eapply vote_le_trans.
Qed.

Lemma had_ext s s' x : log_part s' = log_part s → had s' x ↔ had s x.
Proof. intros [= H1 H2 H3 H4 H5]. rw /had /= H1 H3. done. Qed.
Lemma agrees_ext s s' x :
  log_part s' = log_part s → s'.(RaftState.membership_state) = s.(RaftState.membership_state) → agrees s' x ↔ agrees s x.
Proof.
  intros Hl Hm. rw /agrees (had_ext _ _ _ Hl) Hm. injection Hl as H1 H2 H3 H4 H5. rw /agrees_committed /= H1 H3. done.
Qed.
Lemma membership_ok_ext s s' :
  log_part s' = log_part s → s'.(RaftState.membership_state) = s.(RaftState.membership_state) →
  membership_ok s → membership_ok s'.
Proof.
  intros [= H1 H2 H3 H4 H5] Hm [M1 M2 M3].
  split; rw Hm; [done|..]; [move: M2|move: M3]; rw /on_log /= H3; done.
Qed.

(** The follower takes the vote of the leader and gets the handler of a follower. *)
Lemma following_handler_run r v r1 :
  following r v r1 → is_committed v = true → EngineImpl.following_handler r1 = Done (to_committed v, r1).
Proof.
  intros Hf Hc. rw /EngineImpl.following_handler /mbind /st_bind /get_engine /st_gets (fl_leader _ _ _ Hf).
  change (RaftState.vote_ref (Engine.state (eng r1))) with (RaftState.vote_ref (state_of r1)).
  by rw (fl_vote _ _ _ Hf) Hc.
Qed.

Lemma to_committed_vote v : is_committed v = true → committed_into_vote (to_committed v) = v.
Proof. destruct v as [l c]. cbn. by intros ->. Qed.

Lemma ensure_consecutive_run r prev :
  (∀ p, prev = Some p → had (state_of r) p ∧ agrees (state_of r) p) →
  FollowingHandler.ensure_log_consecutive prev r = Done (ROk tt, r).
Proof.
  intros Hp. destruct prev as [p|]; [|done]. destruct (Hp p eq_refl) as [Hh [Ha _]].
  rw /FollowingHandler.ensure_log_consecutive /mbind /st_bind /get_state /st_gets.
  destruct (has_log_id_run _ _ Ha) as (b & Hb & Hi). change (Engine.state (eng r)) with (state_of r).
  rw Hb. by rw (proj2 Hi Hh).
Qed.

Lemma append_entries_run r vote prev es :
  let s := state_of r in
  from_peer r vote → vote_le (RaftState.vote_ref s) vote → is_committed vote = true →
  raft_state_ok s → membership_ok s →
  follows prev (Entry.log_id <$> es) → (∀ p, prev = Some p → had s p ∧ agrees s p) →
  Forall (λ e, agrees s (Entry.log_id e)) es →
  ∃ n r1 r', EngineImpl.append_entries vote prev es r = Done (ROk tt, r') ∧ following r vote r1 ∧
    append_result (state_of r1) es n (state_of r') ∧ n ≤ length es ∧
    (∀ k e, k < n → es !! k = Some e → had s (Entry.log_id e)) ∧
    (∀ e, es !! n = Some e → ¬ had s (Entry.log_id e)) ∧
    r'.(eng).(Engine.leader) = None ∧
    (∃ a, RaftState.accepted_io (state_of r') = Some a ∧ IOId.to_vote a = vote ∧
       io_le (IOId.new_log_io (to_committed vote) (omax prev (Entry.log_id <$> list.last es))) a).
Proof.
  intros s Hpeer Hle Hcm Hok Hmo Hf Hprev Hall.
  destruct (from_peer_follow r vote Hpeer Hle) as (r1 & Hrun & Hfl).
  pose proof (fl_log _ _ _ Hfl) as Hlog. pose proof (fl_membership _ _ _ Hfl) as Hms.
  assert (∀ p, prev = Some p → had (state_of r1) p ∧ agrees (state_of r1) p) as Hprev1.
  { intros p Hp. rw (had_ext _ _ _ Hlog) (agrees_ext _ _ _ Hlog Hms). by apply Hprev. }
  destruct (append_entries_does r1 (to_committed vote) prev es) as
    (n & cs & s' & a & Hdoes & Hres & Hn & Hbefore & Hno & Hcs & Hacc & Hav & Haio & _).
  { by eapply raft_state_ok_ext. } { by eapply membership_ok_ext. }
  { rw to_committed_vote //. apply (fl_accepted _ _ _ Hfl). } { done. } { done. }
  { eapply Forall_impl; [exact Hall|]. intros e. by rw (agrees_ext _ _ _ Hlog Hms). }
  exists n, r1, (emits r1 cs s'). split.
  { rw /EngineImpl.append_entries (bind_run _ _ _ _ _ Hrun). rw (bind_run _ _ _ _ _ (following_handler_run _ _ _ Hfl Hcm)).
    rw (bind_run _ _ _ _ _ (ensure_consecutive_run r1 prev Hprev1)). by rw (bind_run _ _ _ _ _ Hdoes). }
  split_and!; try done.
  - intros k e Hk He. rw -(had_ext _ _ _ Hlog). by eapply Hbefore.
  - intros e He. rw -(had_ext _ _ _ Hlog). by apply Hno.
  - apply (fl_leader _ _ _ Hfl).
  - exists a. by rw to_committed_vote in Hav.
Qed.

Lemma truncate_conflict r p :
  let s := state_of r in
  raft_state_ok s → membership_ok s → agrees s p → ¬ had s p →
  ∃ cs s', FollowingHandler.ensure_log_consecutive (Some p) r =
      Done (RErr (ByConflictingLogId p (ref_log_id s p.(index))), emits r cs s') ∧
    raft_state_ok s' ∧ membership_ok s' ∧ s'.(RaftState.committed) = s.(RaftState.committed) ∧
    s'.(RaftState.vote) = s.(RaftState.vote) ∧
    (∀ i, ref_log_id s' i = if (i <? p.(index))%N then ref_log_id s i else None) ∧
    (cs = match ref_log_id s p.(index) with Some x => [TruncateLog x] | None => [] end).
Proof.
  intros s Hok Hmo [Ha Hm] Hno. pose proof (pointers_chain s Hok) as (Hp1 & Hp2 & _ & Hp4).
  assert (next_index (RaftState.committed s) ≤ index p)%N as Hc.
  { destruct (decide (next_index (RaftState.committed s) ≤ index p)%N); [done|]. destruct Hno. left. fold s. lia. }
  assert (next_index (EffectiveMembership.log_id (ms_committed (RaftState.membership_state s))) ≤ index p)%N as Hcm.
  { destruct (decide (next_index (EffectiveMembership.log_id (ms_committed (RaftState.membership_state s))) ≤ index p)%N);
      [done|]. destruct Hno. apply Hm. fold s. lia. }
  destruct (has_log_id_run _ _ Ha) as (b & Hb & Hi). assert (b = false) as -> by (destruct b; [by destruct Hno; apply Hi|done]).
  assert (∃ cs s', does (FollowingHandler.truncate_logs (index p)) r tt cs s' ∧
    raft_state_ok s' ∧ membership_ok s' ∧ s'.(RaftState.committed) = s.(RaftState.committed) ∧
    s'.(RaftState.vote) = s.(RaftState.vote) ∧
    (∀ i, ref_log_id s' i = if (i <? p.(index))%N then ref_log_id s i else None) ∧
    (cs = match ref_log_id s p.(index) with Some x => [TruncateLog x] | None => [] end)) as (cs & s' & Hrun & Hrest).
  { destruct (decide (index p ≤ next_index (last_log_id s))%N) as [Hle|Hgt].
    - destruct (truncate_logs_does r (index p)) as (l & ms & st & Hrun & Hcut & Hok' & Hmo' & _ & _);
        [done..|fold s; lia|fold s; lia|done|done|].
      eexists _, _. split; [exact Hrun|]. split_and!; try done. intros i. apply Hcut.
    - assert (ref_log_id s (index p) = None) as Hnone by (by apply (ref_beyond s); [..|lia]).
      exists [], s. rw Hnone. split_and!; try done.
      + rw /FollowingHandler.truncate_logs. eapply does_pure; [apply does_get_state|]. fold s.
        eapply does_pure; [apply does_assert; apply N.leb_le; rw next_last_purged //; lia|].
        rw /get_log_id Hnone. apply does_ret.
      + intros i. destruct (N.ltb_spec i (index p)); [done|]. apply ref_beyond; [done|lia]. }
  exists cs, s'. split; [|done].
  change (does (FollowingHandler.ensure_log_consecutive (Some p)) r
    (RErr (ByConflictingLogId p (ref_log_id s p.(index)))) cs s').
  rw /FollowingHandler.ensure_log_consecutive. eapply does_pure; [apply does_get_state|].
  eapply does_pure; [by apply does_lift|]. cbn [negb]. rewrite <- (app_nil_r cs).
  eapply does_bind; [exact Hrun|apply does_ret_emits].
Qed.

Lemma last_log_id_intro s x :
  raft_state_ok s → ref_log_id s x.(index) = Some x → ref_log_id s (x.(index) + 1) = None → last_log_id s = Some x.
Proof.
  intros Hok Hx Hno. pose proof (ref_lt_last s Hok _ _ Hx) as Hlt. pose proof (pointers_chain s Hok) as (_ & _ & _ & Hp).
  rw (last_ref s Hok). rw decide_False; [lia|].
  assert (next_index (last_log_id s) = index x + 1)%N as ->; [|by rw N.add_sub].
  destruct (decide (next_index (last_log_id s) = index x + 1)%N) as [|Hne]; [done|]. exfalso.
  destruct (ref_bounds s Hok _ _ Hx) as (f & q & Hf & _ & Hfx & _).
  destruct (ref_total s Hok (index x + 1)) as [y Hy]; [|lia|congruence].
  pose proof (rs_purged s Hok) as Hpu. rw Hf in Hpu. case_decide; cbn in Hpu; lia.
Qed.

Lemma append_result_last s prev es n s' e :
  append_result s es n s' → follows prev (Entry.log_id <$> es) → es !! n = Some e →
  last_log_id s' = Entry.log_id <$> list.last es.
Proof.
  intros Hres Hf He. assert (n < length es) as Hn by by eapply lookup_lt_Some.
  destruct (lookup_lt_is_Some_2 es (length es - 1)) as [x Hx]; [lia|].
  assert ((Entry.log_id <$> es) !! n = Some (Entry.log_id e)) as He' by by rw list_lookup_fmap He.
  assert ((Entry.log_id <$> es) !! (length es - 1) = Some (Entry.log_id x)) as Hx' by by rw list_lookup_fmap Hx.
  pose proof (follows_index _ _ _ _ Hf He') as Hie. pose proof (follows_index _ _ _ _ Hf Hx') as Hix.
  change (index (Entry.log_id e)) with (Entry.index e) in Hie.
  rw last_lookup. replace (pred (length es)) with (length es - 1) by lia. rw Hx. cbn.
  apply last_log_id_intro; [apply Hres|..]; rw (ar_log _ _ _ _ Hres) He.
  - destruct (N.ltb_spec (index (Entry.log_id x)) (Entry.index e)); [lia|]. rw lookup_drop.
    by replace (n + N.to_nat (index (Entry.log_id x) - Entry.index e)) with (length es - 1) by lia.
  - destruct (N.ltb_spec (index (Entry.log_id x) + 1) (Entry.index e)); [lia|]. apply lookup_ge_None.
    rw length_drop length_fmap. lia.
Qed.

(** C22: an append-entries request of a legitimate leader, on a node that has the entry before its
    entries: the request is accepted; afterwards the node follows the leader, has every entry of
    the request (purged ones apart), has kept everything up to the first entry it did not have,
    committed entries included, and everything else after it is gone; the invariants hold. *)
Theorem append_entries_accepts r vote prev es :
  let s := state_of r in
  from_peer r vote → vote_le (RaftState.vote_ref s) vote → is_committed vote = true →
  raft_state_ok s → membership_ok s →
  follows prev (Entry.log_id <$> es) → (∀ p, prev = Some p → had s p ∧ agrees s p) →
  Forall (λ e, agrees s (Entry.log_id e)) es →
  ∃ r', EngineImpl.append_entries vote prev es r = Done (ROk tt, r') ∧
    let s' := state_of r' in
    raft_state_ok s' ∧ membership_ok s' ∧ RaftState.vote_ref s' = vote ∧ r'.(eng).(Engine.leader) = None ∧
    s'.(RaftState.committed) = s.(RaftState.committed) ∧
    (∀ e, e ∈ es → (s.(RaftState.purged_next) ≤ Entry.index e + 1)%N →
       ref_log_id s' (Entry.index e) = Some (Entry.log_id e)) ∧
    (∀ i, (i < next_index s.(RaftState.committed))%N ∨ (i < next_index prev)%N → ref_log_id s' i = ref_log_id s i) ∧
    (Forall (λ e, had s (Entry.log_id e)) es → ∀ i, ref_log_id s' i = ref_log_id s i) ∧
    (∀ e, e ∈ es → ¬ had s (Entry.log_id e) → last_log_id s' = Entry.log_id <$> list.last es).
Proof.
  intros s Hpeer Hle Hcm Hok Hmo Hf Hprev Hall.
  destruct (append_entries_run r vote prev es Hpeer Hle Hcm Hok Hmo Hf Hprev Hall) as
    (n & r1 & r' & Hrun & Hfl & Hres & Hn & Hbefore & Hno & Hleader & _).
  pose proof (fl_log _ _ _ Hfl) as Hlog. pose proof Hlog as [= Hlc Hlp Hll _ _].
  assert (∀ i, ref_log_id (state_of r1) i = ref_log_id s i) as Href by (intros i; cbn; by rw Hll).
  pose proof (fl_membership _ _ _ Hfl) as Hms. rewrite -> Forall_forall in Hall.
  exists r'. split; [exact Hrun|]. cbn zeta.
  split; [apply Hres|]. split; [apply Hres|]. split; [by rw /RaftState.vote_ref (ar_vote _ _ _ _ Hres); apply Hfl|].
  split; [done|]. split; [rw (ar_committed _ _ _ _ Hres); exact Hlc|]. split_and!.
  - intros e He Hp. eapply (append_result_entries (state_of r1) prev es n); try done.
    + by eapply raft_state_ok_ext.
    + apply Forall_forall. intros x Hx. rw (agrees_ext _ _ _ Hlog Hms). by apply Hall.
    + intros k x Hk Hx. rw (had_ext _ _ _ Hlog). by eapply Hbefore.
    + by rw Hlp.
  - intros i Hi. rw (ar_log _ _ _ _ Hres) -Href. destruct (es !! n) as [e|] eqn:He; [|done].
    assert ((i < Entry.index e)%N) as Hlt; [|by destruct (N.ltb_spec i (Entry.index e)); [|lia]].
    assert ((Entry.log_id <$> es) !! n = Some (Entry.log_id e)) as Hx by by rw list_lookup_fmap He.
    pose proof (follows_index _ _ _ _ Hf Hx) as Hie. change (index (Entry.log_id e)) with (Entry.index e) in Hie.
    destruct Hi as [Hi|Hi]; [|lia].
    destruct (decide (next_index (RaftState.committed s) ≤ Entry.index e)%N) as [|Hc]; [lia|].
    destruct (Hno e eq_refl). left. change (index (Entry.log_id e)) with (Entry.index e). fold s. lia.
  - intros Hhad i. rw (ar_log _ _ _ _ Hres) -Href. destruct (es !! n) as [e|] eqn:He; [|done].
    destruct (Hno e eq_refl). rewrite -> Forall_forall in Hhad. apply Hhad. by eapply list_elem_of_lookup_2.
  - intros e [k Hk]%list_elem_of_lookup Hnh. destruct (es !! n) as [en|] eqn:He.
    + by eapply (append_result_last (state_of r1)).
    + destruct Hnh. apply (Hbefore k e); [|done]. apply lookup_ge_None in He. apply lookup_lt_Some in Hk. lia.
Qed.

(** C33: the two rejections of an append-entries request.  A vote that is not at least the local one
    changes nothing.  A missing or conflicting previous entry is reported with the local id there,
    and the conflicting part of the log is deleted, but nothing committed. *)
Theorem append_entries_rejects r vote p es :
  let s := state_of r in
  (vote_compat vote (RaftState.vote_ref s) → ¬ vote_le (RaftState.vote_ref s) vote →
     EngineImpl.append_entries vote (Some p) es r = Done (RErr (RejectByVote (RaftState.vote_ref s)), r)) ∧
  (from_peer r vote → vote_le (RaftState.vote_ref s) vote → is_committed vote = true →
   raft_state_ok s → membership_ok s → agrees s p → ¬ had s p →
   ∃ r', EngineImpl.append_entries vote (Some p) es r =
       Done (RErr (ByConflictingLogId p (ref_log_id s p.(index))), r') ∧
     let s' := state_of r' in
     raft_state_ok s' ∧ membership_ok s' ∧ s'.(RaftState.committed) = s.(RaftState.committed) ∧
     RaftState.vote_ref s' = vote ∧ (next_index s.(RaftState.committed) ≤ p.(index))%N ∧
     ∀ i, ref_log_id s' i = if (i <? p.(index))%N then ref_log_id s i else None).
Proof.
  intros s. split.
  - intros Hc Hno. rw /EngineImpl.append_entries. by rw (bind_run _ _ _ _ _ (update_vote_reject r vote Hc Hno)).
  - intros Hpeer Hle Hcm Hok Hmo Ha Hno. destruct (from_peer_follow r vote Hpeer Hle) as (r1 & Hrun & Hfl).
    pose proof (fl_log _ _ _ Hfl) as Hlog. pose proof (fl_membership _ _ _ Hfl) as Hms.
    pose proof Hlog as [= Hlc Hlp Hll _ _].
    destruct (truncate_conflict r1 p) as (cs & s' & Hens & H1 & H2 & H3 & H4 & H5 & _).
    { by eapply raft_state_ok_ext. } { by eapply membership_ok_ext. }
    { by rw (agrees_ext _ _ _ Hlog Hms). } { by rw (had_ext _ _ _ Hlog). }
    exists (emits r1 cs s'). split.
    { rw /EngineImpl.append_entries (bind_run _ _ _ _ _ Hrun) (bind_run _ _ _ _ _ (following_handler_run _ _ _ Hfl Hcm)).
      rw (bind_run _ _ _ _ _ Hens). cbn. by rw Hll. }
    cbn zeta. split_and!; [done|done|by rw H3| | |].
    + rw /RaftState.vote_ref H4. apply (fl_vote _ _ _ Hfl).
    + destruct (decide (next_index (RaftState.committed s) ≤ index p)%N); [done|]. destruct Hno. left. fold s. lia.
    + intros i. rw H5. cbn. by rw Hll.
Qed.

(** A follower told the leader's commit position commits what it has accepted of it: the commit
    position moves to the minimum of the two unless it is there already, never backwards, and what
    newly became committed is saved and applied, exactly once and without a gap. *)
Theorem commit_entries_spec r leader_committed :
  let s := state_of r in
  let c := omin (RaftState.accepted_io s ≫= IOId.last_log_id) leader_committed in
  r.(eng).(Engine.leader) = None → is_committed (RaftState.vote_ref s) = true →
  raft_state_ok s → membership_ok s → log_ptr s c →
  ∃ r', EngineImpl.handle_commit_entries leader_committed r = Done (tt, r') ∧
    let s' := state_of r' in
    raft_state_ok s' ∧ membership_ok s' ∧ s'.(RaftState.committed) = omax s.(RaftState.committed) c ∧
    (∀ i, ref_log_id s' i = ref_log_id s i) ∧ RaftState.vote_ref s' = RaftState.vote_ref s ∧
    ∃ cs, commands_of r' = commands_of r ++ cs ∧
      if s.(RaftState.committed) ≺? c then
        ∃ x trigger, c = Some x ∧ cs = [SaveCommitted x; Apply s.(RaftState.committed) x] ++ trigger ∧
          (trigger = [] ∨ trigger = [StateMachine BuildSnapshot])
      else cs = [].
Proof.
  intros s c Hl Hv Hok Hmo Hc.
  destruct (commit_entries_does r leader_committed Hok Hmo Hc) as (cs & s' & Hdoes & H1 & H2 & H3 & H4 & H5 & _ & _ & H8).
  exists (emits r cs s'). split.
  { rw /EngineImpl.handle_commit_entries.
    assert (EngineImpl.following_handler r = Done (to_committed (RaftState.vote_ref s), r)) as Hf.
    { rw /EngineImpl.following_handler /mbind /st_bind /get_engine /st_gets Hl.
      change (RaftState.vote_ref (Engine.state (eng r))) with (RaftState.vote_ref s). by rw Hv. }
    rw (bind_run _ _ _ _ _ Hf). exact Hdoes. }
  cbn zeta. split_and!; [done|done|done| | |by exists cs].
  - intros i. cbn. by rw H4.
  - by rw /RaftState.vote_ref H5.
Qed.

Lemma snapshot_compat_ext s s' m snap :
  log_part s' = log_part s → s'.(RaftState.membership_state) = s.(RaftState.membership_state) →
  snapshot_compat s m snap → snapshot_compat s' m snap.
Proof.
  intros [= H1 H2 H3 H4 H5] Hm [S1 S2 S3 S4 S5 S6 S7 S8 S9].
  split; rw /conflicts /committed_id /effective_id /= ?Hm ?H1 ?H3; done.
Qed.


(** The lease of a leader's vote is running. *)
Definition leased r : Prop :=
  is_committed (RaftState.vote_ref (state_of r)) = true ∧
  ∃ u, RaftState.vote_last_modified (state_of r) = Some u ∧
       (r.(clock) ≤ u + (state_of r).(RaftState.vote).(Config.lease))%N.

Lemma leased_run r :
  is_committed (RaftState.vote (state_of r)).(data) && negb (Leased.is_expired (RaftState.vote (state_of r)) r.(clock) 0) = true
  ↔ leased r.
Proof.
  rw /leased /Leased.is_expired andb_true_iff negb_true_iff /RaftState.vote_last_modified.
  destruct (last_update _) as [u|]; [|naive_solver]. rw N.ltb_ge N.add_0_r. naive_solver.
Qed.

Definition ticked r : Rt :=
  {| eng := r.(eng); clock := r.(clock) + r.(drift) r.(readings); readings := S r.(readings); drift := r.(drift);
     sent := r.(sent) |}.

Lemma from_peer_ticked r v : from_peer r v → from_peer (ticked r) v.
Proof.
  intros [H1 H2 H3 H4 H5]. split; try done. eapply ole_trans; [exact H5|]. apply Some_ole, N_ole. cbn. lia.
Qed.

(** C24: a vote request of another node is granted exactly when no leader's lease is running, the
    candidate's log is at least as up to date as the local one, and its vote is at least the local
    one.  A granted vote is saved before it is given and takes effect; a refusal changes nothing.
    The reply carries the vote and the last log id of this node. *)
Theorem vote_request_spec r req :
  let s := state_of r in
  from_peer r req.(vreq_vote) →
  ∃ resp r', EngineImpl.handle_vote_req req r = Done (resp, r') ∧
    let s' := state_of r' in
    (resp.(vote_granted) = true ↔ ¬ leased r ∧ last_log_id s ⪯ req.(vreq_last_log_id) ∧
                                  vote_le (RaftState.vote_ref s) req.(vreq_vote)) ∧
    resp.(vresp_vote) = RaftState.vote_ref s' ∧ resp.(vresp_last_log_id) = last_log_id s' ∧
    log_part s' = log_part s ∧ s'.(RaftState.membership_state) = s.(RaftState.membership_state) ∧
    (if resp.(vote_granted) then
       RaftState.vote_ref s' = req.(vreq_vote) ∧ r'.(eng).(Engine.leader) = None ∧
       commands_of r' = commands_of r ++
         (if bool_decide (RaftState.vote_ref s = req.(vreq_vote)) then [] else [SaveVote req.(vreq_vote)])
     else r'.(eng) = r.(eng)).
Proof.
  intros s Hpeer. pose proof (from_peer_ticked _ _ Hpeer) as Hp1.
  rw /EngineImpl.handle_vote_req (bind_run now _ r _ _ eq_refl) (bind_run get_state _ (ticked r) s _ eq_refl).
  pose proof (leased_run r) as Hlease. fold s in Hlease.
  destruct (is_committed (data (RaftState.vote s)) && negb (Leased.is_expired (RaftState.vote s) (clock r) 0)) eqn:Hl.
  { eexists _, (ticked r). split; [done|]. split_and!; try done. naive_solver. }
  assert (¬ leased r) as Hnl by (rw -Hlease; done).
  destruct (lebP (last_log_id s) (vreq_last_log_id req)) as [Hlog|Hlog]; cbn [negb]; last first.
  { eexists _, (ticked r). split; [done|]. split_and!; try done. split; [done|]. intros (_ & ? & _). exfalso. order. }
  destruct (ref_vote_ge_run _ _ (fp_compat _ _ Hpeer)) as (x & Hx & Hiff). destruct x.
  - destruct (from_peer_follow (ticked r) (vreq_vote req) Hp1) as (r' & Hrun & Hfl); [by apply Hiff|].
    rw (bind_run _ _ _ _ _ Hrun). eexists _, r'. split; [done|]. cbn. pose proof (fl_log _ _ _ Hfl) as Hlg.
    split_and!; try done; [|apply Hfl..]. split; [|done]. intros _. split_and!; try done. by apply Hiff.
  - assert (¬ vote_le (RaftState.vote_ref s) (vreq_vote req)) as Hno by (rw -Hiff; done).
    rw (bind_run _ _ _ _ _ (update_vote_reject (ticked r) (vreq_vote req) (fp_compat _ _ Hp1) Hno)).
    eexists _, (ticked r). split; [done|]. cbn. split_and!; try done. naive_solver.
Qed.
End follower.

(** ** Witnesses *)
Section ut.
#[local] Existing Instance UTConfig.

Definition ut_vote4 : Vote := Vote_new_committed 4 1.
Definition ut_entries : list Entry := [Entry.new_blank (ut_log_id 4 1 4); Entry.new_blank (ut_log_id 4 1 5)].

Lemma ut_from_peer : from_peer (ut_rt 2) ut_vote4.
Proof. split; [by intros _ _|done|by intros cur|by intros cur|done]. Qed.
Lemma ut_vote4_le : vote_le (RaftState.vote_ref ut_state) ut_vote4.
Proof. left. by vm_compute. Qed.
Lemma ut_agrees t n i : (3 ≤ i)%N → agrees ut_state (ut_log_id t n i).
Proof. intros Hi. split; cbn; intros Hlt; cbn in Hlt; lia. Qed.
Lemma ut_follows : follows (Some (ut_log_id 1 1 3)) (Entry.log_id <$> ut_entries).
Proof.
  split; [repeat constructor; by vm_compute|]. intros x [= <-]. split; [done|]. intros p [= <-]. split; by vm_compute.
Qed.

Lemma append_entries_accepts_witness :
  ∃ r', EngineImpl.append_entries ut_vote4 (Some (ut_log_id 1 1 3)) ut_entries (ut_rt 2) = Done (ROk tt, r') ∧
    last_log_id (state_of r') = Some (ut_log_id 4 1 5) ∧ ref_log_id (state_of r') 3 = Some (ut_log_id 1 1 3).
Proof.
  destruct (append_entries_accepts (ut_rt 2) ut_vote4 (Some (ut_log_id 1 1 3)) ut_entries ut_from_peer ut_vote4_le
    eq_refl ut_state_ok ut_membership_ok ut_follows) as (r' & Hrun & _ & _ & _ & _ & _ & _ & Hkeep & _ & Hlast).
  - intros p [= <-]. split; [by right|by apply ut_agrees].
  - apply Forall_cons. split; [by apply ut_agrees|]. apply Forall_cons. split; [by apply ut_agrees|]. by apply Forall_nil.
  - exists r'. split; [exact Hrun|]. split.
    + rw (Hlast (Entry.new_blank (ut_log_id 4 1 4))); [by left| |done]. intros [Hh|Hh]; [by cbn in Hh|by vm_compute in Hh].
    + by rw Hkeep; [right|].
Defined.

Lemma append_entries_rejects_witness :
  ∃ r', EngineImpl.append_entries ut_vote4 (Some (ut_log_id 4 1 4)) ut_entries (ut_rt 2) =
      Done (RErr (ByConflictingLogId (ut_log_id 4 1 4) (Some (ut_log_id 3 1 4))), r') ∧
    ref_log_id (state_of r') 3 = Some (ut_log_id 1 1 3) ∧ ref_log_id (state_of r') 4 = None.
Proof.
  destruct (append_entries_rejects (ut_rt 2) ut_vote4 (ut_log_id 4 1 4) ut_entries) as [_ Hc].
  destruct Hc as (r' & Hrun & _ & _ & _ & _ & _ & Hlog);
    [exact ut_from_peer|exact ut_vote4_le|done|exact ut_state_ok|exact ut_membership_ok|by apply ut_agrees| |].
  { intros [Hh|Hh]; [by cbn in Hh|by vm_compute in Hh]. }
  exists r'. split; [exact Hrun|]. by rw !Hlog.
Defined.

(** Node 2 has accepted the entries up to 6 of the leader. *)
Definition ut_accepted_rt : Rt :=
  set_eng (ut_rt 2) (Engine.set_state (eng (ut_rt 2))
    (with_accepted ut_state (IOId.new_log_io (to_committed (Vote_new_committed 3 1)) (Some (ut_log_id 3 1 6))))).

Lemma commit_entries_spec_witness :
  ∃ r', EngineImpl.handle_commit_entries (Some (ut_log_id 3 1 5)) ut_accepted_rt = Done (tt, r') ∧
    (state_of r').(RaftState.committed) = Some (ut_log_id 3 1 5).
Proof.
  destruct (commit_entries_spec ut_accepted_rt (Some (ut_log_id 3 1 5)) eq_refl eq_refl) as (r' & Hrun & _ & _ & Hc & _).
  - by apply (raft_state_ok_ext ut_state), ut_state_ok.
  - by apply (membership_ok_ext ut_state); [..|apply ut_membership_ok].
  - intros x [= <-]. by vm_compute.
  - exists r'. split; [exact Hrun|]. by rw Hc.
Defined.

Definition ut_snapshot : Snapshot := {|
  meta := {| meta_last_log_id := Some (ut_log_id 4 1 8);
             last_membership := {| stored_log_id := Some (ut_log_id 1 1 0); stored_membership_ := ut_m12 |};
             snapshot_id := "s" |};
  snapshot_data := tt |}.


Lemma vote_request_spec_witness :
  ∃ resp r', EngineImpl.handle_vote_req {| vreq_vote := ut_vote4; vreq_last_log_id := Some (ut_log_id 3 1 6) |} (ut_rt 2)
      = Done (resp, r') ∧
    resp.(vote_granted) = true ∧ RaftState.vote_ref (state_of r') = ut_vote4.
Proof.
  destruct (vote_request_spec (ut_rt 2) {| vreq_vote := ut_vote4; vreq_last_log_id := Some (ut_log_id 3 1 6) |} ut_from_peer)
    as (resp & r' & Hrun & Hg & _ & _ & _ & _ & Hif).
  assert (vote_granted resp = true) as Hg'.
  { apply Hg. split_and!; [by intros (_ & u & Hu & _)|by vm_compute|exact ut_vote4_le]. }
  rw Hg' in Hif. exists resp, r'. by destruct Hif as (-> & _).
Defined.
End ut.
