(* ===== verification/Evolves.v ===== *)
(** * What every operation of the engine keeps

    [evolves r r'] says that the vote, the commit position, the snapshot and the clock of [r'] are
    at or beyond those of [r], and that no vote was given away and no client answered in between.
    Every handler evolves the engine, except becoming a candidate, which gives away the vote for
    itself ([elect_gives]), and rejecting a client.  The handlers are run symbolically: [kept_step]
    executes one step of a handler, skipping over the calls the hint database [keeps] knows. *)

From S2P Require Export EngineImpl.

Lemma lift_inv {S A} (o : Outcome A) (s : S) a s' : lift o s = Done (a, s') → o = Done a ∧ s' = s.
Proof. rw /lift. destruct o; [|done]. by intros [= <- <-]. Qed.

(** ** Running a handler within a relation

    [kept_by R r0 m r] says that [m], run from [r], ends in a state that [R] relates to [r0], if it
    ends; [keeps_by R m], that [m] only moves along [R]. *)
Section kept_by.
Context {C : RaftTypeConfig} (R : Rt → Rt → Prop).
Implicit Types (r : Rt) (s : RaftState.RaftState).

Definition kept_by r0 {A} (m : M A) r : Prop := ∀ a r', m r = Done (a, r') → R r0 r'.
Definition keeps_by {A} (m : M A) : Prop := ∀ r, kept_by r m r.

Lemma kept_ret {A} (a : A) r0 r : R r0 r → kept_by r0 (mret a) r.
Proof. intros Hr a' r' [= _ <-]. done. Qed.
Lemma kept_assoc {A B D} (m : M A) (k : A → M B) (h : B → M D) r0 r :
  kept_by r0 (m ≫= λ a, k a ≫= h) r → kept_by r0 ((m ≫= k) ≫= h) r.
Proof.
  intros H a r' Hrun. apply (H a r'). revert Hrun. rw /mbind /st_bind. by destruct (m r) as [[? ?]|].
Qed.
Lemma kept_ret_bind {A B} (a : A) (k : A → M B) r0 r : kept_by r0 (k a) r → kept_by r0 (mret a ≫= k) r.
Proof. done. Qed.
Lemma kept_lift_bind {A B} (o : Outcome A) (k : A → M B) r0 r :
  (∀ a, o = Done a → kept_by r0 (k a) r) → kept_by r0 (lift o ≫= k) r.
Proof. intros H b r'. rw /mbind /st_bind /lift. destruct o as [a|]; [|done]. by apply H. Qed.
Lemma kept_lift {A} (o : Outcome A) r0 r : R r0 r → kept_by r0 (lift o) r.
Proof. intros Hr a r'. rw /lift. destruct o; [|done]. by intros [= _ <-]. Qed.
Lemma kept_state_bind {B} (k : RaftState.RaftState → M B) r0 r :
  kept_by r0 (k (state_of r)) r → kept_by r0 (get_state ≫= k) r.
Proof. done. Qed.
Lemma kept_config_bind {B} (k : EngineConfig.EngineConfig → M B) r0 r :
  kept_by r0 (k r.(eng).(Engine.config)) r → kept_by r0 (get_config ≫= k) r.
Proof. done. Qed.
Lemma kept_engine_bind {B} (k : Engine.Engine → M B) r0 r : kept_by r0 (k r.(eng)) r → kept_by r0 (get_engine ≫= k) r.
Proof. done. Qed.
Lemma kept_put_bind {B} s (k : unit → M B) r0 r :
  kept_by r0 (k tt) (set_eng r (Engine.set_state r.(eng) s)) → kept_by r0 (put_state s ≫= k) r.
Proof. done. Qed.
Lemma kept_put s r0 r : R r0 (set_eng r (Engine.set_state r.(eng) s)) → kept_by r0 (put_state s) r.
Proof. intros Hr a r' [= _ <-]. done. Qed.
Lemma kept_push_bind {B} c (k : unit → M B) r0 r :
  kept_by r0 (k tt) (set_eng r (Engine.set_output r.(eng) (EngineOutput.push_command r.(eng).(Engine.output) c))) →
  kept_by r0 (push_command c ≫= k) r.
Proof. done. Qed.
Lemma kept_modify_bind {B} f (k : unit → M B) r0 r :
  kept_by r0 (k tt) (set_eng r (Engine.set_state r.(eng) (f (state_of r)))) → kept_by r0 (modify_state f ≫= k) r.
Proof. done. Qed.
Lemma kept_modify f r0 r : R r0 (set_eng r (Engine.set_state r.(eng) (f (state_of r)))) → kept_by r0 (modify_state f) r.
Proof. intros Hr a r' [= _ <-]. done. Qed.

Context `{!PreOrder R}.

Lemma kept_bind {A B} (m : M A) (k : A → M B) r0 r :
  keeps_by m → R r0 r → (∀ a r', R r0 r' → kept_by r0 (k a) r') → kept_by r0 (m ≫= k) r.
Proof.
  intros Hm Hr Hk b r'. rw /mbind /st_bind. destruct (m r) as [[a r1]|] eqn:E; [|done].
  apply Hk. etrans; [exact Hr|]. by eapply Hm.
Qed.
Lemma kept_keeps {A} (m : M A) r0 r : keeps_by m → R r0 r → kept_by r0 m r.
Proof. intros Hm Hr a r' Hrun. etrans; [exact Hr|]. by eapply Hm. Qed.
Lemma kept_now_bind {B} (k : Instant → M B) r0 r :
  keeps_by now → R r0 r → (∀ t r', R r0 r' → state_of r' = state_of r → kept_by r0 (k t) r') →
  kept_by r0 (now ≫= k) r.
Proof. intros Hn Hr Hk. apply Hk; [|done]. etrans; [exact Hr|]. exact (Hn r _ _ eq_refl). Qed.
Lemma keeps_get_leader : keeps_by get_leader.
Proof. intros r a r'. rw /get_leader. destruct (Engine.leader _); [|done]. by intros [= _ <-]. Qed.
Lemma keeps_for {A} (l : list A) body : (∀ x, x ∈ l → keeps_by (body x)) → keeps_by (st_for l body).
Proof.
  intros Hb. induction l as [|x l IH]; intros r; [by apply kept_ret|].
  cbn. apply kept_bind; [apply Hb; by left|done|]. intros [] r' Hr. apply kept_keeps; [|done].
  apply IH. intros y Hy. apply Hb. by right.
Qed.
End kept_by.

(** ** What the state machine is told to do

    [Run]: apply the entries from [first] up to [next], exclusive.  [Jump]: take over the state of a
    snapshot, whose next entry is [next].  [Stray]: what the engine must not tell. *)
Inductive Move := Run (first next : N) | Jump (next : N) | Stray.

(** The moves lead from the entry [n] to the entry [m], and leave nothing out. *)
Fixpoint moves_chain (n : N) (ms : list Move) (m : N) : Prop :=
  match ms with
  | [] => n = m
  | Run first next :: ms => first = n ∧ moves_chain next ms m
  | Jump next :: ms => moves_chain next ms m
  | Stray :: _ => False
  end.
Lemma moves_chain_app n ms k ms' m : moves_chain n ms k → moves_chain k ms' m → moves_chain n (ms ++ ms') m.
Proof.
  revert n. induction ms as [|[first next|next|] ms IH]; intros n; cbn; [by intros ->|intros [? ?] ?; auto|auto|done].
Qed.

(** ** What every operation keeps *)
Section keeps.
Context {C : RaftTypeConfig}.
Implicit Types (r : Rt) (s : RaftState.RaftState).

(** The votes a command gives away when it is executed: the grant of a vote request, or the
    candidacy of the node itself. *)
Definition cmd_votes (c : Command) : list Vote :=
  match c with
  | SendVote req => [req.(vreq_vote)]
  | RespondCmd _ (Respond_Vote resp _) => if resp.(vote_granted) then [resp.(vresp_vote)] else []
  | _ => []
  end.
Definition votes_of (cs : list Command) : list Vote := cs ≫= cmd_votes.

(** What a command makes the state machine do.  The runtime makes the commands to apply entries itself,
    from [Apply]: the engine must not queue one. *)
Definition sm_moves (c : SmCommand) : list Move :=
  match c with
  | SmApply first last => [Run first.(index) (last.(index) + 1)]
  | InstallFullSnapshot _ sn => [Jump (next_index sn.(meta).(meta_last_log_id))]
  | _ => []
  end.
Definition cmd_moves (c : Command) : list Move :=
  match c with
  | Apply already upto => [Run (next_index already) (upto.(index) + 1)]
  | StateMachine (SmApply _ _) => [Stray]
  | StateMachine c => sm_moves c
  | _ => []
  end.
Definition moves_of (cs : list Command) : list Move := cs ≫= cmd_moves.
Definition next_commit r : N := next_index (state_of r).(RaftState.committed).

(** The moves that were queued lead from the old commit position to the new one. *)
Definition moved r r' : Prop := ∃ ms,
  moves_of (commands_of r') = moves_of (commands_of r) ++ ms ∧ moves_chain (next_commit r) ms (next_commit r').

(** The vote, the commit position, the snapshot and the clock only move forward, the configuration
    stays, no client is answered and no vote is given away; what is committed is queued for the state
    machine. *)
Record evolves r r' : Prop := {
  ev_vote : vote_le (RaftState.vote_ref (state_of r)) (RaftState.vote_ref (state_of r'));
  ev_committed : (state_of r).(RaftState.committed) ⪯ (state_of r').(RaftState.committed);
  ev_snapshot : snapshot_last_log_id (state_of r) ⪯ snapshot_last_log_id (state_of r');
  ev_clock : (r.(clock) ≤ r'.(clock))%N;
  ev_config : r'.(eng).(Engine.config) = r.(eng).(Engine.config);
  ev_sent : r'.(sent) = r.(sent);
  ev_quiet : votes_of (commands_of r') = votes_of (commands_of r);
  ev_moved : moved r r';
}.

Lemma moved_same r r' :
  commands_of r' = commands_of r → (state_of r').(RaftState.committed) = (state_of r).(RaftState.committed) → moved r r'.
Proof. intros Hc Hs. exists []. by rw Hc app_nil_r /next_commit Hs. Qed.
Lemma moved_trans r1 r2 r3 : moved r1 r2 → moved r2 r3 → moved r1 r3.
Proof.
  intros (ms & H1 & H2) (ms' & H3 & H4). exists (ms ++ ms'). rw H3 H1 app_assoc. split; [done|]. by eapply moves_chain_app.
Qed.

#[export] Instance evolves_preorder : PreOrder evolves.
Proof.
  split.
  - intros r. split; auto using vote_le_refl, ole_refl, moved_same; lia.
  - intros x y z [] []. split; [by eapply vote_le_trans|order|order|lia|congruence..|by eapply moved_trans].
Qed.

Notation kept := (kept_by evolves).
Notation keeps := (keeps_by evolves).

(** Assigning a state that evolves. *)
Lemma evolves_state r0 r s :
  evolves r0 r → vote_le (RaftState.vote_ref (state_of r)) (RaftState.vote_ref s) →
  s.(RaftState.committed) = (state_of r).(RaftState.committed) →
  snapshot_last_log_id (state_of r) ⪯ snapshot_last_log_id s →
  evolves r0 (set_eng r (Engine.set_state r.(eng) s)).
Proof.
  intros Hr H1 H2 H3. etrans; [exact Hr|].
  split; cbn; [done|by rw H2; apply ole_refl|done|lia|done|done|done|by apply moved_same].
Qed.

(** Assigning a state with the same vote, commit position and snapshot. *)
Lemma evolves_same r0 r s :
  evolves r0 r → RaftState.vote_ref s = RaftState.vote_ref (state_of r) →
  s.(RaftState.committed) = (state_of r).(RaftState.committed) →
  s.(RaftState.snapshot_meta) = (state_of r).(RaftState.snapshot_meta) →
  evolves r0 (set_eng r (Engine.set_state r.(eng) s)).
Proof.
  intros Hr H1 H2 H3. apply evolves_state; [done|rw H1; apply vote_le_refl|done|].
  cbn. rw H3. apply ole_refl.
Qed.

Lemma keeps_now : keeps now.
Proof. intros r a r' [= _ <-]. split; cbn; auto using vote_le_refl, ole_refl, moved_same; lia. Qed.
Lemma keeps_eng (f : Engine.Engine → Engine.Engine) :
  (∀ e, Engine.state (f e) = Engine.state e ∧ Engine.config (f e) = Engine.config e ∧
        votes_of (commands (Engine.output (f e))) = votes_of (commands (Engine.output e)) ∧
        moves_of (commands (Engine.output (f e))) = moves_of (commands (Engine.output e))) →
  keeps (st_modify (λ r, set_eng r (f r.(eng)))).
Proof.
  intros Hf r a r' [= _ <-]. destruct (Hf (eng r)) as (Hs & Hc & Ho & Hm).
  split; cbn; rw ?/state_of /= ?Hs; auto using vote_le_refl, ole_refl; try lia.
  exists []. split; [by rw app_nil_r|]. by rw /next_commit /state_of /= Hs.
Qed.
Lemma keeps_put_leader l : keeps (put_leader l).
Proof. by apply (keeps_eng (λ e, Engine.set_leader e l)). Qed.
Lemma keeps_put_candidate c : keeps (put_candidate c).
Proof. by apply (keeps_eng (λ e, Engine.set_candidate e c)). Qed.
Lemma votes_of_app cs cs' : votes_of (cs ++ cs') = votes_of cs ++ votes_of cs'.
Proof. apply bind_app. Qed.
Lemma moves_of_app cs cs' : moves_of (cs ++ cs') = moves_of cs ++ moves_of cs'.
Proof. apply bind_app. Qed.
Lemma keeps_push_command c : cmd_votes c = [] → cmd_moves c = [] → keeps (push_command c).
Proof.
  intros Hc Hm. apply (keeps_eng (λ e, Engine.set_output e (EngineOutput.push_command (Engine.output e) c))).
  intros e. split_and!; try done.
  - change (votes_of (commands (Engine.output e) ++ [c]) = votes_of (commands (Engine.output e))).
    by rw votes_of_app /votes_of /= Hc !app_nil_r.
  - change (moves_of (commands (Engine.output e) ++ [c]) = moves_of (commands (Engine.output e))).
    by rw moves_of_app /moves_of /= Hm !app_nil_r.
Qed.

Lemma accept_io_same s io p s' :
  RaftState.accept_io s io = Done (p, s') →
  RaftState.vote_ref s' = RaftState.vote_ref s ∧ s'.(RaftState.committed) = s.(RaftState.committed) ∧
  s'.(RaftState.snapshot_meta) = s.(RaftState.snapshot_meta).
Proof.
  rw /RaftState.accept_io /mbind /outcome_bind. intros Hrun.
  repeat (case_match; try done); by simplify_eq.
Qed.
Lemma keeps_accept_io io : keeps (accept_io io).
Proof.
  intros r. rw /accept_io. apply kept_state_bind, kept_lift_bind. intros [p s] Hs.
  apply kept_put_bind, kept_ret. apply accept_io_same in Hs as (? & ? & ?). by apply evolves_same.
Qed.
End keeps.
Notation kept := (kept_by evolves).
Notation keeps := (keeps_by evolves).

Create HintDb keeps discriminated.
#[export] Hint Resolve keeps_now keeps_get_leader keeps_put_leader keeps_put_candidate keeps_push_command
  keeps_accept_io : keeps.
#[export] Hint Extern 0 (cmd_votes _ = []) => reflexivity : keeps.
#[export] Hint Extern 0 (cmd_moves _ = []) => reflexivity : keeps.
#[export] Hint Extern 0 (PreOrder _) => apply _ : keeps.

(** Closes [evolves] goals whose state differs in other fields only. *)
Ltac evolves_tac :=
  first [assumption | reflexivity | apply evolves_same; [evolves_tac|reflexivity..]].

(** One step of a symbolic run; calls of handlers known to the database [keeps] are skipped over. *)
Ltac kept_step :=
  lazymatch goal with
  | |- kept_by _ _ (mret _ ≫= _) _ => apply kept_ret_bind
  | |- kept_by _ _ (lift _ ≫= _) _ => apply kept_lift_bind; intros ? ?
  | |- kept_by _ _ (now ≫= _) _ => apply kept_now_bind; [apply _|solve [auto with keeps]|try evolves_tac|intros ? ? ? ?]
  | |- kept_by _ _ (get_state ≫= _) _ => apply kept_state_bind
  | |- kept_by _ _ (get_config ≫= _) _ => apply kept_config_bind
  | |- kept_by _ _ (get_engine ≫= _) _ => apply kept_engine_bind
  | |- kept_by _ _ (put_state _ ≫= _) _ => apply kept_put_bind
  | |- kept_by _ _ (modify_state _ ≫= _) _ => apply kept_modify_bind
  | |- kept_by _ _ ((_ ≫= _) ≫= _) _ => apply kept_assoc
  | |- kept_by _ _ ((match ?x with _ => _ end) ≫= _) _ => destruct x eqn:?
  | |- kept_by _ _ (match ?x with _ => _ end) _ => destruct x eqn:?
  | |- kept_by _ _ (mret _) _ => apply kept_ret; try evolves_tac
  | |- kept_by _ _ (lift _) _ => apply kept_lift; try evolves_tac
  | |- kept_by _ _ (put_state _) _ => apply kept_put; try evolves_tac
  | |- kept_by _ _ (modify_state _) _ => apply kept_modify; try evolves_tac
  | |- kept_by _ _ (_ ≫= _) _ => apply kept_bind; [apply _|solve [auto with keeps]|try evolves_tac|intros ? ? ?]
  | |- kept_by _ _ _ _ => apply kept_keeps; [apply _|solve [auto with keeps]|try evolves_tac]
  end.
Ltac kept_run := repeat (kept_step; cbn beta iota zeta).
Ltac keeps_tac := intros ?r; kept_run.

Section handlers.
Context {C : RaftTypeConfig}.
Implicit Types (r : Rt) (s : RaftState.RaftState).

Lemma keeps_update_server_state : keeps ServerStateHandler.update_server_state_if_changed.
Proof. rw /ServerStateHandler.update_server_state_if_changed. keeps_tac. Qed.
#[local] Hint Resolve keeps_update_server_state : keeps.

Lemma keeps_trigger_snapshot : keeps SnapshotHandler.trigger_snapshot.
Proof. rw /SnapshotHandler.trigger_snapshot. keeps_tac. Qed.
#[local] Hint Resolve keeps_trigger_snapshot : keeps.

Lemma keeps_update_snapshot m : keeps (SnapshotHandler.update_snapshot m).
Proof. rw /SnapshotHandler.update_snapshot. keeps_tac.
  match goal with H : (_ ⪯? _) = false |- _ => apply leb_gt in H end.
  apply evolves_state; [done|apply vote_le_refl|done|by apply olt_le].
Qed.

(** Operations on the log only. *)
Definition log_only (o : Outcome RaftState.RaftState) s : Prop :=
  ∀ s', o = Done s' → RaftState.vote_ref s' = RaftState.vote_ref s ∧
    s'.(RaftState.committed) = s.(RaftState.committed) ∧ s'.(RaftState.snapshot_meta) = s.(RaftState.snapshot_meta).

Lemma extend_log_only s ids : log_only (RaftState.extend_log_ids s ids) s.
Proof. intros s'. rw /RaftState.extend_log_ids. destruct (LogIdList.extend _ _); by intros [= <-]. Qed.
Lemma extend_same_leader_log_only s ids : log_only (RaftState.extend_log_ids_from_same_leader s ids) s.
Proof.
  intros s'. rw /RaftState.extend_log_ids_from_same_leader.
  destruct (LogIdList.extend_from_same_leader _ _); by intros [= <-].
Qed.
Lemma purge_log_only s upto : log_only (RaftState.purge_log s upto) s.
Proof. intros s'. rw /RaftState.purge_log. cbn [RaftState.set_purged_next RaftState.log_ids]. destruct (LogIdList.purge _ _); by intros [= <-]. Qed.

Lemma evolves_log r0 r o s : evolves r0 r → log_only o (state_of r) → o = Done s →
  evolves r0 (set_eng r (Engine.set_state r.(eng) s)).
Proof. intros Hr Ho Hs. apply Ho in Hs as (? & ? & ?). by apply evolves_same. Qed.

Lemma keeps_purge_log : keeps LogHandler.purge_log.
Proof.
  rw /LogHandler.purge_log. keeps_tac. eapply evolves_log; [done|apply purge_log_only|done].
Qed.
Lemma keeps_update_purge_upto u : keeps (LogHandler.update_purge_upto u).
Proof. rw /LogHandler.update_purge_upto. keeps_tac. Qed.
Lemma keeps_calc_purge_upto : keeps LogHandler.calc_purge_upto.
Proof. rw /LogHandler.calc_purge_upto. keeps_tac. Qed.
#[local] Hint Resolve keeps_purge_log keeps_update_purge_upto keeps_calc_purge_upto keeps_update_snapshot : keeps.
Lemma keeps_schedule_purge : keeps LogHandler.schedule_policy_based_purge.
Proof. rw /LogHandler.schedule_policy_based_purge. keeps_tac. Qed.
#[local] Hint Resolve keeps_schedule_purge : keeps.

(** *** The following handler *)
Lemma update_committed_inv s c p s' :
  RaftState.update_committed s c = Done (p, s') →
  RaftState.vote_ref s' = RaftState.vote_ref s ∧ s'.(RaftState.snapshot_meta) = s.(RaftState.snapshot_meta) ∧
  match p with
  | Some prev => prev = s.(RaftState.committed) ∧ s.(RaftState.committed) ≺ c ∧ s'.(RaftState.committed) = c
  | None => s' = s
  end.
Proof.
  rw /RaftState.update_committed. destruct (ltbP (RaftState.committed s) c) as [Hlt|].
  - cbn. destruct (MembershipState.commit _ _); [|done]. by intros [= <- <-].
  - by intros [= <- <-].
Qed.

(** The new commit position is recorded, and the entries up to it are queued for the state machine. *)
Lemma evolves_commit r0 r r' c prev s cs :
  evolves r0 r → RaftState.update_committed (state_of r) c = Done (Some prev, s) → state_of r' = s →
  commands_of r' = commands_of r ++ cs → votes_of cs = [] → moves_of cs = [Run (next_index prev) (next_index c)] →
  r'.(clock) = r.(clock) → r'.(eng).(Engine.config) = r.(eng).(Engine.config) → r'.(sent) = r.(sent) → evolves r0 r'.
Proof.
  intros Hr (H1 & H2 & -> & Hlt & H3)%update_committed_inv <- Hcs Hv Hm Hcl Hcf Hse. etrans; [exact Hr|].
  split; try done.
  - rw H1. apply vote_le_refl.
  - rw H3. by apply olt_le.
  - cbn. rw H2. apply ole_refl.
  - by rw Hcl.
  - by rw Hcs votes_of_app Hv app_nil_r.
  - exists [Run (next_commit r) (next_commit r')]. rw Hcs moves_of_app Hm /next_commit H3. done.
Qed.

Lemma keeps_append_membership es : keeps (FollowingHandler.append_membership es).
Proof.
  rw /FollowingHandler.append_membership. intros r.
  assert (keeps (st_for (FollowingHandler.last_two_memberships es) (λ m,
            s ← get_state;
            ms ← lift (MembershipState.append s.(RaftState.membership_state)
                         (EffectiveMembership.new_from_stored_membership m));
            put_state (RaftState.set_membership_state s ms)))) as Hfor.
  { apply keeps_for; [apply _|]. intros x _. keeps_tac. }
  destruct (FollowingHandler.last_two_memberships es); [by apply kept_ret|].
  apply kept_bind; [apply _|exact Hfor|done|]. intros [] r' Hr. by apply kept_keeps; [apply _|apply keeps_update_server_state|].
Qed.
#[local] Hint Resolve keeps_append_membership : keeps.

Lemma keeps_truncate_logs since : keeps (FollowingHandler.truncate_logs since).
Proof. rw /FollowingHandler.truncate_logs. keeps_tac. Qed.
#[local] Hint Resolve keeps_truncate_logs : keeps.
Lemma keeps_ensure_consecutive prev : keeps (FollowingHandler.ensure_log_consecutive prev).
Proof. rw /FollowingHandler.ensure_log_consecutive. keeps_tac. Qed.
Lemma keeps_do_append lv es : keeps (FollowingHandler.do_append_entries lv es).
Proof.
  rw /FollowingHandler.do_append_entries. keeps_tac. eapply evolves_log; [done|apply extend_log_only|done].
Qed.
#[local] Hint Resolve keeps_ensure_consecutive keeps_do_append : keeps.
Lemma keeps_append_entries lv prev es : keeps (FollowingHandler.append_entries lv prev es).
Proof. rw /FollowingHandler.append_entries. keeps_tac. Qed.
Lemma keeps_commit_entries c : keeps (FollowingHandler.commit_entries c).
Proof.
  rw /FollowingHandler.commit_entries. intros r. kept_step. cbn beta iota zeta. kept_step. cbn beta iota zeta.
  match goal with a : option _ * _ |- _ => destruct a as [[prev|] s] end; kept_step; last first.
  { match goal with H : _ = Done _ |- _ => apply update_committed_inv in H as (_ & _ & ->) end. kept_run. }
  kept_step. match goal with H : unwrap ?o _ = Done ?x |- _ => destruct o as [y|] eqn:Ho; [|done]; injection H as <- end.
  do 2 (apply kept_push_bind; cbn beta). set (r1 := set_eng _ _).
  assert (evolves r r1) as Hr1.
  { eapply (evolves_commit _ r r1 _ prev s [SaveCommitted y; Apply prev y]); try done. by rw /r1 /commands_of /= -app_assoc. }
  clearbody r1. kept_run.
Qed.
#[local] Hint Resolve keeps_append_entries keeps_commit_entries : keeps.
Lemma keeps_update_committed_membership m : keeps (FollowingHandler.update_committed_membership m).
Proof. rw /FollowingHandler.update_committed_membership. keeps_tac. Qed.
#[local] Hint Resolve keeps_update_committed_membership : keeps.

(** [m] leaves the commit position alone. *)
Definition still {A} (m : M A) : Prop :=
  ∀ r a r', m r = Done (a, r') → (state_of r').(RaftState.committed) = (state_of r).(RaftState.committed).

Lemma still_accept_io io : still (accept_io io).
Proof.
  intros r a r'. rw /accept_io /mbind /st_bind /get_state /st_gets /lift.
  destruct (RaftState.accept_io _ io) as [[p s]|] eqn:E; [|done]. intros [= _ <-]. by apply accept_io_same in E as (_ & ? & _).
Qed.
Lemma still_update_server_state : still ServerStateHandler.update_server_state_if_changed.
Proof. intros r a r'. rw update_server_state_does. by intros [= _ <-]. Qed.
Lemma still_update_snapshot m : still (SnapshotHandler.update_snapshot m).
Proof. intros r a r'. rw update_snapshot_does. intros [= _ <-]. by case_match. Qed.
Lemma still_truncate_logs since : still (FollowingHandler.truncate_logs since).
Proof.
  intros r a r'. rw /FollowingHandler.truncate_logs /mbind /st_bind /get_state /st_gets /lift /assert_.
  destruct (_ <=? since)%N; [|done]. destruct (get_log_id _ _); [|by intros [= _ <-]].
  destruct (LogIdList.truncate _ _); [|done]. cbn.
  destruct (MembershipState.truncate _ _) as [[[|] ?]|]; [|by intros [= _ <-]|done].
  intros Hrun. by apply still_update_server_state in Hrun.
Qed.

Lemma committed_membership_quiet m r a r' :
  FollowingHandler.update_committed_membership m r = Done (a, r') →
  commands_of r' = commands_of r ∧ (state_of r').(RaftState.committed) = (state_of r).(RaftState.committed) ∧ evolves r r'.
Proof.
  intros Hrun. split_and!; [..|by eapply keeps_update_committed_membership]; revert Hrun;
    rw /FollowingHandler.update_committed_membership; intros (s & r1 & [= <- <-] & Hrun)%st_bind_inv;
    apply st_bind_inv in Hrun as ([o ms] & r2 & [_ ->]%lift_inv & Hrun);
    apply st_bind_inv in Hrun as ([] & r3 & [= <-] & Hrun); rw update_server_state_does in Hrun; injection Hrun as _ <-;
    by rw /commands_of /= ?app_nil_r.
Qed.

(** Committing at the end of a part that leaves the commit position alone. *)
Lemma kept_still_bind {A B} (m : M A) (k : A → M B) c r0 r :
  keeps m → still m → evolves r0 r → (state_of r).(RaftState.committed) ≺ Some c →
  (∀ a r', evolves r0 r' → (state_of r').(RaftState.committed) ≺ Some c → kept r0 (k a) r') →
  kept r0 (m ≫= k) r.
Proof.
  intros Hm Hs Hr Hc Hk b r'. rw /mbind /st_bind. destruct (m r) as [[a r1]|] eqn:E; [|done].
  apply Hk; [etrans; [exact Hr|]; by eapply Hm|]. by rw (Hs _ _ _ E).
Qed.

Lemma keeps_install lv sn : keeps (FollowingHandler.install_full_snapshot lv sn).
Proof.
  rw /FollowingHandler.install_full_snapshot. intros r. do 2 kept_step; [by kept_step|].
  match goal with H : (_ ⪯? _) = false |- _ => apply leb_gt in H as Hlt end.
  kept_step. match goal with H : unwrap _ _ = Done ?a |- _ => rename a into snap, H into Hsnap end.
  destruct (meta_last_log_id (meta sn)) as [x|] eqn:Hmeta; [|done]. injection Hsnap as ->.
  eapply (kept_still_bind _ _ snap); [auto with keeps|apply still_update_snapshot|done|exact Hlt|].
  intros u r1 Hr1 Hlt1. kept_step; [by kept_step|]. kept_step. cbn beta iota zeta.
  eapply (kept_still_bind _ _ snap); [| |exact Hr1|exact Hlt1|].
  { intros r2. kept_run. }
  { intros r2 a r3. destruct (get_log_id _ _); [|by intros [= _ <-]].
    destruct (bool_decide _); [apply still_truncate_logs|by intros [= _ <-]]. }
  intros [] r2 Hr2 Hlt2.
  eapply (kept_still_bind _ _ snap); [auto with keeps|apply still_accept_io|done|done|].
  intros a r3 Hr3 Hlt3. kept_step.
  intros b r7 ([] & r5 & (Hcs & Hcom & He)%committed_membership_quiet & Hrun)%st_bind_inv.
  revert b r7 Hrun. apply kept_push_bind. cbn beta. set (r6 := set_eng r5 _).
  assert (evolves r r6) as Hr6.
  { etrans; [exact Hr3|]. destruct He as [E1 E2 E3 E4 E5 E6 E7 _]. split; try done.
    - cbn. change (state_of r6) with (state_of r5). rw Hcom. by apply olt_le.
    - change (commands_of r6) with (commands_of r5 ++ [StateMachine (InstallFullSnapshot (IOId.new_log_io lv (Some snap)) sn)]).
      by rw Hcs votes_of_app app_nil_r.
    - exists [Jump (next_index (Some snap))]. rw /next_commit. change (state_of r6) with (state_of r5). rw Hcom.
      split; [|done].
      change (commands_of r6) with (commands_of r5 ++ [StateMachine (InstallFullSnapshot (IOId.new_log_io lv (Some snap)) sn)]).
      by rw Hcs moves_of_app /moves_of /= Hmeta. }
  clearbody r6. kept_run.
Qed.

(** *** Replication and leader handlers *)
Lemma keeps_put_progress p : keeps (ReplicationHandler.put_progress p).
Proof. rw /ReplicationHandler.put_progress. keeps_tac. Qed.
#[local] Hint Resolve keeps_put_progress keeps_install : keeps.
Lemma keeps_rebuild_progresses : keeps ReplicationHandler.rebuild_progresses.
Proof. rw /ReplicationHandler.rebuild_progresses. keeps_tac. Qed.
Lemma keeps_rebuild_streams : keeps ReplicationHandler.rebuild_replication_streams.
Proof. rw /ReplicationHandler.rebuild_replication_streams. keeps_tac. Qed.
Lemma keeps_send_to_target t i : keeps (ReplicationHandler.send_to_target t i).
Proof. rw /ReplicationHandler.send_to_target. keeps_tac. Qed.
#[local] Hint Resolve keeps_rebuild_progresses keeps_rebuild_streams keeps_send_to_target : keeps.
Lemma keeps_initiate_loop id mx v : keeps (ReplicationHandler.initiate_loop id mx v).
Proof. induction v as [|[t e] v IH]; cbn; keeps_tac. Qed.
#[local] Hint Resolve keeps_initiate_loop : keeps.
Lemma keeps_initiate : keeps ReplicationHandler.initiate_replication.
Proof. rw /ReplicationHandler.initiate_replication. keeps_tac. Qed.
#[local] Hint Resolve keeps_initiate : keeps.
Lemma keeps_leader_append_membership i m : keeps (ReplicationHandler.append_membership i m).
Proof. rw /ReplicationHandler.append_membership. keeps_tac. Qed.
Lemma keeps_update_leader_clock n t : keeps (ReplicationHandler.update_leader_clock n t).
Proof. rw /ReplicationHandler.update_leader_clock. keeps_tac. Qed.
Lemma keeps_try_commit g : keeps (ReplicationHandler.try_commit_quorum_accepted g).
Proof.
  rw /ReplicationHandler.try_commit_quorum_accepted. intros r. do 2 (kept_step; cbn beta iota zeta); [kept_run|].
  kept_step. cbn beta iota zeta.
  match goal with a : option _ * _ |- _ => destruct a as [[prev|] s] end; kept_step; last first.
  { match goal with H : _ = Done _ |- _ => apply update_committed_inv in H as (_ & _ & ->) end. kept_run. }
  apply kept_push_bind, kept_lift_bind. intros x Hx. do 2 apply kept_push_bind. set (r1 := set_eng _ _).
  assert (evolves r r1) as Hr1.
  { match goal with H : _ = Done _ |- _ => pose proof (update_committed_inv _ _ _ _ H) as (_ & _ & _ & _ & Hs) end.
    eapply (evolves_commit _ r r1 g prev s [ReplicateCommitted (Config.committed s); SaveCommitted x; Apply prev x]);
      try done; [by rw /r1 /commands_of /= -!app_assoc|].
    rw -Hs. revert Hx. rw /Config.committed. cbn. by destruct (RaftState.committed s); [intros [= ->]|]. }
  clearbody r1. cbn beta. kept_run.
Qed.
#[local] Hint Resolve keeps_leader_append_membership keeps_update_leader_clock keeps_try_commit : keeps.
Lemma keeps_update_matching n i : keeps (ReplicationHandler.update_matching n i).
Proof. rw /ReplicationHandler.update_matching. keeps_tac. Qed.
Lemma keeps_update_conflicting n i : keeps (ReplicationHandler.update_conflicting n i).
Proof. rw /ReplicationHandler.update_conflicting. keeps_tac. Qed.
Lemma keeps_allow_next_revert n b : keeps (ReplicationHandler.allow_next_revert n b).
Proof. rw /ReplicationHandler.allow_next_revert. keeps_tac. Qed.
Lemma keeps_leader_try_purge : keeps ReplicationHandler.try_purge_log.
Proof. rw /ReplicationHandler.try_purge_log. keeps_tac. Qed.
#[local] Hint Resolve keeps_update_matching keeps_update_conflicting keeps_allow_next_revert keeps_leader_try_purge
  : keeps.
Lemma keeps_update_progress t res : keeps (ReplicationHandler.update_progress t res).
Proof. rw /ReplicationHandler.update_progress. keeps_tac. Qed.
Lemma keeps_update_local_progress u : keeps (ReplicationHandler.update_local_progress u).
Proof. rw /ReplicationHandler.update_local_progress. keeps_tac. Qed.
Lemma keeps_leader_append_entries es : keeps (LeaderHandler.leader_append_entries es).
Proof.
  rw /LeaderHandler.leader_append_entries. keeps_tac;
    (eapply evolves_log; [done|apply extend_same_leader_log_only|done]).
Qed.
Lemma keeps_send_heartbeat : keeps LeaderHandler.send_heartbeat.
Proof. rw /LeaderHandler.send_heartbeat. keeps_tac. Qed.
Lemma keeps_transfer_leader n : keeps (LeaderHandler.transfer_leader n).
Proof. rw /LeaderHandler.transfer_leader. keeps_tac. Qed.
#[local] Hint Resolve keeps_update_progress keeps_update_local_progress keeps_leader_append_entries
  keeps_send_heartbeat keeps_transfer_leader : keeps.

(** *** Vote handlers *)
Lemma keeps_become_new_leader : keeps VoteHandler.become_new_leader.
Proof. rw /VoteHandler.become_new_leader. keeps_tac. Qed.
#[local] Hint Resolve keeps_become_new_leader : keeps.
Lemma keeps_become_leader : keeps VoteHandler.become_leader.
Proof. rw /VoteHandler.become_leader. keeps_tac. Qed.
Lemma keeps_become_following : keeps VoteHandler.become_following.
Proof. rw /VoteHandler.become_following. keeps_tac. Qed.
#[local] Hint Resolve keeps_become_leader keeps_become_following : keeps.
Lemma keeps_update_internal : keeps VoteHandler.update_internal_server_state.
Proof. rw /VoteHandler.update_internal_server_state. keeps_tac. Qed.
#[local] Hint Resolve keeps_update_internal : keeps.

(** A comparison that does not panic is the comparison of the proofs. *)
Lemma ref_vote_cmp_done (a b : Vote) c :
  RefVote_partial_cmp (as_ref_vote a) (as_ref_vote b) = Done c → c = vote_cmp a b.
Proof.
  rw /RefVote_partial_cmp /vote_cmp /=.
  destruct (lid_partial_cmp _ _) as [[]|], (vote_committed a), (vote_committed b); cbn; by intros [= <-].
Qed.
Lemma ref_vote_gt_done (a b : Vote) x :
  ref_vote_gt (as_ref_vote a) (as_ref_vote b) = Done x → x = true ↔ vote_lt b a.
Proof.
  rw /ref_vote_gt. destruct (RefVote_partial_cmp _ _) as [c|] eqn:E; [|done].
  intros [= <-]. apply ref_vote_cmp_done in E as ->. apply vote_gt_cmp.
Qed.
Lemma ref_vote_ge_done (a b : Vote) x :
  ref_vote_ge (as_ref_vote a) (as_ref_vote b) = Done x → x = true ↔ vote_le b a.
Proof.
  rw /ref_vote_ge. destruct (RefVote_partial_cmp _ _) as [c|] eqn:E; [|done].
  intros [= <-]. apply ref_vote_cmp_done in E as ->. apply vote_ge_cmp.
Qed.
Lemma touch_data {T} (l : Leased T) t d l' : Leased.touch l t d = Done l' → l'.(data) = l.(data).
Proof. rw /Leased.touch /assert_. destruct (_ ⪯? _); [|done]. by intros [= <-]. Qed.

Lemma accept_io_vote io r a r' :
  accept_io io r = Done (a, r') → RaftState.vote_ref (state_of r') = RaftState.vote_ref (state_of r).
Proof.
  rw /accept_io /mbind /st_bind /get_state /st_gets /lift.
  destruct (RaftState.accept_io _ io) as [[p s]|] eqn:E; [|done]. intros [= _ <-]. by apply accept_io_same in E as (? & _).
Qed.

(** Recording the vote, the first half of [update_vote]. *)
Lemma save_vote_post v lease r :
  vote_le (RaftState.vote_ref (state_of r)) v →
  post (t ← now;
        _ ← modify_state (λ s, RaftState.set_vote s (Leased.update s.(RaftState.vote) t lease v));
        _ ← accept_io (IOId.new v);
        push_command (SaveVote v)) (λ _ r', evolves r r' ∧ RaftState.vote_ref (state_of r') = v) r.
Proof.
  intros Hle. apply post_bind. intros t r1 Hnow. injection Hnow as <- <-. apply post_bind. intros [] r2 H2.
  assert (evolves r r2 ∧ RaftState.vote_ref (state_of r2) = v) as [Hr2 Hv2].
  { injection H2 as <-. split; [|done]. apply (evolves_state r {| eng := r.(eng) |}); [exact (keeps_now r _ _ eq_refl)|exact Hle|done|apply ole_refl]. }
  apply post_bind. intros a r3 H3. intros [] r4 H4. split.
  - etrans; [exact Hr2|]. etrans; [by eapply keeps_accept_io|by eapply (keeps_push_command (SaveVote v) eq_refl eq_refl)].
  - injection H4 as <-. cbn. by rw (accept_io_vote _ _ _ _ H3).
Qed.

Lemma touch_vote_post v lease r :
  v = RaftState.vote_ref (state_of r) →
  post (t ← now;
        l ← lift (Leased.touch (state_of r).(RaftState.vote) t lease);
        modify_state (λ s, RaftState.set_vote s l)) (λ _ r', evolves r r' ∧ RaftState.vote_ref (state_of r') = v) r.
Proof.
  intros ->. apply post_bind. intros t r1 Hnow. injection Hnow as <- <-. apply post_bind, post_lift.
  intros l Hl%touch_data [] r2 H2. injection H2 as <-. split; [|exact Hl].
  apply (evolves_same r {| eng := r.(eng) |}); [exact (keeps_now r _ _ eq_refl)|exact Hl|done..].
Qed.

(** The vote a node accepts is at least its own, and it is kept. *)
Lemma update_vote_post v r :
  post (VoteHandler.update_vote v) (λ a r', evolves r r' ∧
    (is_ok a = true → vote_le v (RaftState.vote_ref (state_of r')) ∧
                      vote_le (RaftState.vote_ref (state_of r)) v)) r.
Proof.
  rw /VoteHandler.update_vote. apply post_bind. intros s r1 Hs. injection Hs as <- <-.
  apply post_bind, post_lift. intros ge Hge%ref_vote_ge_done.
  destruct ge; cbn [negb]; [|by apply post_ret]. apply post_bind. intros c r1 Hc. injection Hc as <- <-.
  apply post_bind, post_lift. intros gt Hgt%ref_vote_gt_done. apply post_bind.
  intros [] r1 Hfirst. assert (evolves r r1 ∧ RaftState.vote_ref (state_of r1) = v) as [Hr1 Hv].
  { destruct gt.
    - eapply save_vote_post; [|exact Hfirst]. by apply Hge.
    - eapply touch_vote_post; [|exact Hfirst]. destruct (proj1 Hge eq_refl) as [Hlt|Heq]; [|done].
      by apply Hgt in Hlt. }
  apply post_bind. intros [] r2 Hint%keeps_update_internal. apply post_ret.
  split; [by etrans|]. intros _. split; [rw -Hv; apply Hint|by apply Hge].
Qed.
Lemma keeps_update_vote v : keeps (VoteHandler.update_vote v).
Proof. intros r a r' Hrun. by apply (update_vote_post v r) in Hrun as [? _]. Qed.
#[local] Hint Resolve keeps_update_vote : keeps.

Lemma keeps_accept_vote v tx f :
  (∀ s tx, cmd_votes (RespondCmd None (f s tx)) = []) → keeps (VoteHandler.accept_vote v tx f).
Proof.
  intros Hf. rw /VoteHandler.accept_vote. keeps_tac. apply kept_bind; [apply _| |done|].
  - by apply keeps_push_command; [apply Hf|].
  - intros [] ? ?. kept_run.
Qed.
Lemma keeps_establish c : keeps (EstablishHandler.establish c).
Proof. rw /EstablishHandler.establish. keeps_tac. Qed.

(** *** The engine *)
Lemma keeps_following_handler : keeps EngineImpl.following_handler.
Proof. rw /EngineImpl.following_handler. keeps_tac. Qed.
Lemma keeps_leader_handler : keeps EngineImpl.leader_handler.
Proof. rw /EngineImpl.leader_handler. keeps_tac. Qed.
#[local] Hint Resolve keeps_accept_vote keeps_establish keeps_following_handler keeps_leader_handler : keeps.
Lemma keeps_get_leader_or_reject : keeps (EngineImpl.get_leader_handler_or_reject None).
Proof. rw /EngineImpl.get_leader_handler_or_reject. keeps_tac. Qed.
Lemma keeps_new_candidate v : keeps (EngineImpl.new_candidate v).
Proof. rw /EngineImpl.new_candidate. keeps_tac. Qed.
Lemma keeps_startup : keeps EngineImpl.startup.
Proof. rw /EngineImpl.startup. keeps_tac. Qed.
#[local] Hint Resolve keeps_get_leader_or_reject keeps_new_candidate keeps_startup : keeps.
Lemma keeps_greater_log b :
  keeps (st_modify (λ r : Rt, set_eng r (Engine.set_seen_greater_log r.(eng) b))).
Proof. by apply (keeps_eng (λ e, Engine.set_seen_greater_log e b)). Qed.
#[local] Hint Resolve keeps_greater_log : keeps.
Lemma keeps_set_greater_log : keeps EngineImpl.set_greater_log.
Proof. apply keeps_greater_log. Qed.
Lemma keeps_reset_greater_log : keeps EngineImpl.reset_greater_log.
Proof. apply keeps_greater_log. Qed.
#[local] Hint Resolve keeps_set_greater_log keeps_reset_greater_log : keeps.
Lemma keeps_establish_leader : keeps EngineImpl.establish_leader.
Proof. rw /EngineImpl.establish_leader. keeps_tac. Qed.
#[local] Hint Resolve keeps_establish_leader : keeps.
Lemma keeps_handle_vote_resp t resp : keeps (EngineImpl.handle_vote_resp t resp).
Proof. rw /EngineImpl.handle_vote_resp. keeps_tac. Qed.
Lemma keeps_handle_vote_req req : keeps (EngineImpl.handle_vote_req req).
Proof. rw /EngineImpl.handle_vote_req. keeps_tac. Qed.
Lemma keeps_engine_append v p es : keeps (EngineImpl.append_entries v p es).
Proof. rw /EngineImpl.append_entries. keeps_tac. Qed.
#[local] Hint Resolve keeps_handle_vote_resp keeps_handle_vote_req keeps_engine_append : keeps.
Lemma keeps_handle_append v p es tx : keeps (EngineImpl.handle_append_entries v p es tx).
Proof. rw /EngineImpl.handle_append_entries. keeps_tac. Qed.
Lemma keeps_handle_commit c : keeps (EngineImpl.handle_commit_entries c).
Proof. rw /EngineImpl.handle_commit_entries. keeps_tac. Qed.
Lemma keeps_handle_install v sn tx : keeps (EngineImpl.handle_install_full_snapshot v sn tx).
Proof. rw /EngineImpl.handle_install_full_snapshot. keeps_tac. Qed.
Lemma keeps_leader_step_down : keeps EngineImpl.leader_step_down.
Proof. rw /EngineImpl.leader_step_down. keeps_tac. Qed.
Lemma keeps_try_purge : keeps EngineImpl.try_purge_log.
Proof. rw /EngineImpl.try_purge_log. keeps_tac. Qed.
#[local] Hint Resolve keeps_handle_append keeps_handle_commit keeps_handle_install keeps_leader_step_down
  keeps_try_purge : keeps.
Lemma keeps_finish_building m : keeps (EngineImpl.finish_building_snapshot m).
Proof. rw /EngineImpl.finish_building_snapshot. keeps_tac. Qed.
Lemma keeps_trigger_purge i : keeps (EngineImpl.trigger_purge_log i).
Proof. rw /EngineImpl.trigger_purge_log. keeps_tac. Qed.
Lemma keeps_trigger_transfer n : keeps (EngineImpl.trigger_transfer_leader n).
Proof. rw /EngineImpl.trigger_transfer_leader. keeps_tac. Qed.
Lemma keeps_begin_snapshot tx : keeps (EngineImpl.handle_begin_receiving_snapshot tx).
Proof. rw /EngineImpl.handle_begin_receiving_snapshot. keeps_tac. Qed.
#[local] Hint Resolve keeps_finish_building keeps_trigger_purge keeps_trigger_transfer keeps_begin_snapshot : keeps.

Lemma check_initialize_ok s t : EngineImpl.check_initialize s = ROk t → last_log_id s = None ∧ RaftState.vote_ref s = Vote_default.
Proof.
  rw /EngineImpl.check_initialize /RaftState.is_initialized.
  destruct (bool_decide (last_log_id s ≠ None)) eqn:H1; cbn; [by intros|].
  destruct (bool_decide (RaftState.vote_ref s ≠ Vote_default)) eqn:H2; cbn; [by intros|].
  intros _. apply bool_decide_eq_false in H1, H2. split; by apply dec_stable.
Qed.
Lemma default_vote_le : vote_le Vote_default (from_leader_id lid_default true).
Proof. left. by rw /vote_lt /vote_cmp /= lid_cmp_refl. Qed.

(** What a granted vote request, or an own candidacy, says about the vote of the node. *)
Lemma granted_post req r :
  post (EngineImpl.handle_vote_req req) (λ resp r', resp.(vote_granted) = true →
    vote_le (RaftState.vote_ref (state_of r)) req.(vreq_vote) ∧
    vote_le req.(vreq_vote) (RaftState.vote_ref (state_of r'))) r.
Proof.
  rw /EngineImpl.handle_vote_req. apply post_bind. intros t r1 H1. injection H1 as <- <-.
  apply post_bind. intros s r1 H1. injection H1 as <- <-.
  destruct (_ && _); [by apply post_ret|]. destruct (negb _); [by apply post_ret|].
  apply post_bind. intros res r2 [_ Hok]%update_vote_post. apply post_bind. intros s2 r3 H3. injection H3 as <- <-.
  apply post_ret. intros Hg. destruct (Hok Hg). done.
Qed.

(** *** Giving votes away *)
(** Votes between [lo] and [hi], each at or above the one before. *)
Fixpoint vote_chain (lo : Vote) (vs : list Vote) (hi : Vote) : Prop :=
  match vs with
  | [] => vote_le lo hi
  | v :: vs => vote_le lo v ∧ vote_chain v vs hi
  end.

(** [r] evolves to [r'] giving away the votes [vs]. *)
Record gives (vs : list Vote) r r' : Prop := {
  gv_chain : vote_chain (RaftState.vote_ref (state_of r)) vs (RaftState.vote_ref (state_of r'));
  gv_votes : votes_of (commands_of r') = votes_of (commands_of r) ++ vs;
  gv_committed : (state_of r).(RaftState.committed) ⪯ (state_of r').(RaftState.committed);
  gv_snapshot : snapshot_last_log_id (state_of r) ⪯ snapshot_last_log_id (state_of r');
  gv_clock : (r.(clock) ≤ r'.(clock))%N;
  gv_config : r'.(eng).(Engine.config) = r.(eng).(Engine.config);
  gv_sent : r'.(sent) = r.(sent);
  gv_moved : moved r r';
}.

Lemma vote_chain_le lo vs hi : vote_chain lo vs hi → vote_le lo hi.
Proof. revert lo. induction vs as [|v vs IH]; [done|]. intros lo [? ?%IH]. by eapply vote_le_trans. Qed.
Lemma vote_chain_weaken lo lo' vs hi hi' : vote_le lo' lo → vote_le hi hi' → vote_chain lo vs hi → vote_chain lo' vs hi'.
Proof.
  intros Hlo Hhi. revert lo lo' Hlo. induction vs as [|v vs IH]; intros lo lo' Hlo; cbn.
  - intros H. eapply vote_le_trans; [exact Hlo|]. by eapply vote_le_trans.
  - intros [H1 H2]. split; [by eapply vote_le_trans|]. eapply IH; [apply vote_le_refl|done].
Qed.
Lemma vote_chain_app lo vs mid ws hi : vote_chain lo vs mid → vote_chain mid ws hi → vote_chain lo (vs ++ ws) hi.
Proof.
  revert lo. induction vs as [|v vs IH]; intros lo; cbn.
  - intros H1 H2. eapply vote_chain_weaken; [exact H1|apply vote_le_refl|done].
  - intros [H1 H2] H3. split; [done|]. by apply IH.
Qed.

Lemma gives_nil r r' : evolves r r' → gives [] r r'.
Proof. intros []. split; rw ?app_nil_r; done. Qed.
Lemma gives_trans r1 vs r2 ws r3 : gives vs r1 r2 → gives ws r2 r3 → gives (vs ++ ws) r1 r3.
Proof.
  intros [H1 H2 H3 H4 H5 H6 H7 H8] [G1 G2 G3 G4 G5 G6 G7 G8].
  split; [by eapply vote_chain_app|by rw G2 H2 app_assoc|order|order|lia|congruence..|by eapply moved_trans].
Qed.

Lemma elect_gives r :
  let v := from_leader_id (lid_new (next_term (vote_term (RaftState.vote_ref (state_of r)))) (id_of r)) false in
  post EngineImpl.elect (λ _ r', gives [v] r r') r.
Proof.
  intros v. rw /EngineImpl.elect. apply post_bind. intros c r1 H1. injection H1 as <- <-.
  apply post_bind. intros s r1 H1. injection H1 as <- <-. apply post_bind. intros ca r1 Hr1%keeps_new_candidate.
  apply post_bind. intros res r2 [He2 Hok]%update_vote_post. apply post_bind, post_lift. intros [] Hr.
  destruct res; [|done]. destruct (Hok eq_refl) as [Hv2 _].
  apply post_bind. intros [] r3 Hr3 [] r4 Hr4%keeps_update_server_state. injection Hr3 as <-.
  assert (vote_le (RaftState.vote_ref (state_of r)) v) as Hv.
  { left. apply vote_lt_of_term. rw /v /vote_term /=. rw lid_new_term /next_term. lia. }
  assert (evolves r r2) as [E1 E2 E3 E4 E5 E6 E7 E8] by by etrans. destruct Hr4 as [F1 F2 F3 F4 F5 F6 F7 F8].
  set (req := SendVote _) in *. split.
  - split; [done|]. by eapply vote_le_trans.
  - rw F7. change (votes_of (commands_of r2 ++ [req]) = votes_of (commands_of r) ++ [v]). by rw votes_of_app E7.
  - cbn in *. order.
  - cbn in *. order.
  - cbn in *. lia.
  - cbn in *. congruence.
  - cbn in *. congruence.
  - eapply moved_trans; [exact E8|]. eapply moved_trans; [|exact F8]. exists []. split; [|done].
    change (moves_of (commands_of r2 ++ [req]) = moves_of (commands_of r2) ++ []). by rw moves_of_app.
Qed.

Lemma initialize_gives e r : post (EngineImpl.initialize e) (λ _ r', ∃ vs, gives vs r r') r.
Proof.
  rw /EngineImpl.initialize. apply post_bind. intros s r1 H1. injection H1 as <- <-.
  assert (∃ vs, gives vs r r) as Hr by by exists []; apply gives_nil.
  destruct (EngineImpl.check_initialize _) eqn:Hci; [|by apply post_ret].
  apply check_initialize_ok in Hci as [_ Hv]. apply post_bind, post_lift. intros m _.
  apply post_bind. intros c r1 H1. injection H1 as <- <-.
  destruct (EngineImpl.check_members_contain_me _ _); [|by apply post_ret].
  apply post_bind. intros now1 r1 H1. apply post_bind. intros [] r2 H2.
  assert (evolves r r2) as He2.
  { pose proof (keeps_now _ _ _ H1) as He1. injection H1 as _ <-. injection H2 as <-.
    apply (evolves_state r _ _ He1); [|done|apply ole_refl]. cbn. rw Hv. apply default_vote_le. }
  apply post_bind. intros lv r3 H3%keeps_following_handler. apply post_bind. intros [] r4 H4%keeps_do_append.
  apply post_bind. intros [] r5 H5%elect_gives. apply post_ret. eexists.
  eapply (gives_trans r []); [|exact H5]. apply gives_nil. by do 2 (etrans; [eassumption|]).
Qed.
End handlers.

#[export] Hint Resolve keeps_update_server_state keeps_trigger_snapshot keeps_update_snapshot keeps_purge_log
  keeps_update_purge_upto keeps_calc_purge_upto keeps_schedule_purge keeps_append_membership keeps_truncate_logs
  keeps_ensure_consecutive keeps_do_append keeps_append_entries keeps_commit_entries
  keeps_update_committed_membership keeps_install keeps_put_progress keeps_rebuild_progresses keeps_rebuild_streams
  keeps_send_to_target keeps_initiate_loop keeps_initiate keeps_leader_append_membership keeps_update_leader_clock
  keeps_try_commit keeps_update_matching keeps_update_conflicting keeps_allow_next_revert keeps_leader_try_purge
  keeps_update_progress keeps_update_local_progress keeps_leader_append_entries keeps_send_heartbeat
  keeps_transfer_leader keeps_become_new_leader keeps_become_leader keeps_become_following keeps_update_internal
  keeps_update_vote keeps_establish keeps_following_handler keeps_leader_handler keeps_get_leader_or_reject
  keeps_new_candidate keeps_startup keeps_greater_log keeps_set_greater_log keeps_reset_greater_log
  keeps_establish_leader keeps_handle_vote_resp keeps_handle_vote_req keeps_engine_append keeps_handle_append
  keeps_handle_commit keeps_handle_install keeps_leader_step_down keeps_try_purge keeps_finish_building
  keeps_trigger_purge keeps_trigger_transfer keeps_begin_snapshot : keeps.
