(* ===== verification/Pledges.v ===== *)
(** * Pledges: what a vote is worth

    A node pledges a vote by saving it: it takes part in the election of the vote when it counts its
    own vote as a candidate, or when it grants a request.  [node_ok] is the invariant of the engine
    that makes elections safe: votes are saved in ascending order, a vote is given away only after
    the command that saves it, a candidate counts pledges only, and a committed vote, the vote of a
    leader in particular, was pledged by a quorum of a membership.  Every handler preserves it. *)

From S2P Require Export Evolves.

(** ** What the commands in the queue save and promise *)
Section commands.
Context {C : RaftTypeConfig}.

Definition cmd_saves (c : Command) : list Vote := match c with SaveVote v => [v] | _ => [] end.
Definition saves_of (cs : list Command) : list Vote := cs ≫= cmd_saves.

(** The vote of the leader id nobody campaigns with: of a fresh node, and of the entry of [initialize]. *)
Definition nobodys (v : Vote) : Prop := v.(vote_leader_id) = lid_default.

(** A command gives away votes that were saved before it only; [saved] are those saved already. *)
Fixpoint promises_ok (saved : list Vote) (cs : list Command) : Prop :=
  match cs with
  | [] => True
  | c :: cs => Forall (λ v, v ∈ saved ∨ nobodys v) (cmd_votes c) ∧ promises_ok (saved ++ cmd_saves c) cs
  end.

Lemma saves_of_app cs cs' : saves_of (cs ++ cs') = saves_of cs ++ saves_of cs'.
Proof. apply bind_app. Qed.
Lemma saves_of_one c : saves_of [c] = cmd_saves c.
Proof. rw /saves_of bind_cons. by rw app_nil_r. Qed.

Lemma promises_ok_app saved cs c :
  promises_ok saved (cs ++ [c]) ↔
  promises_ok saved cs ∧ Forall (λ v, v ∈ saved ++ saves_of cs ∨ nobodys v) (cmd_votes c).
Proof.
  revert saved. induction cs as [|d cs IH]; intros saved; cbn [app promises_ok].
  - rw /saves_of /= app_nil_r. tauto.
  - rw IH /saves_of bind_cons app_assoc. tauto.
Qed.

(** The vote before it is committed: what is pledged. *)
Definition uncommitted (v : Vote) : Vote := from_leader_id v.(vote_leader_id) false.

Lemma uncommitted_pending v : is_committed v = false → uncommitted v = v.
Proof. destruct v. cbn. by intros ->. Qed.
Lemma committed_again v : is_committed v = true → committed_into_vote (to_committed v) = v.
Proof. destruct v. cbn. by intros ->. Qed.
End commands.

(** ** The invariant *)
Section node_ok.
Context {C : RaftTypeConfig}.
Implicit Types (r : Rt) (s : RaftState.RaftState) (v : Vote) (m : Membership).

(** The memberships of the cluster; the node; the votes it has saved; what each node has pledged. *)
Context (P : Membership → Prop) (id : NodeId) (saved : list Vote) (pledged : NodeId → Vote → Prop).

(** A quorum of a membership has pledged the vote. *)
Definition elected v : Prop :=
  nobodys v ∨
  ∃ m S, P m ∧ NoDup S ∧ is_quorum (Membership.to_quorum_set m) S = true ∧ ∀ t, t ∈ S → pledged t (uncommitted v).

(** A fresh node has no membership yet. *)
Definition member_ok m : Prop := m.(Membership.configs) = [] ∨ P m.
Definition em_ok (em : EffectiveMembership) : Prop := member_ok (EffectiveMembership.membership em).
Definition members_ok (ms : MembershipState) : Prop := em_ok ms.(ms_committed) ∧ em_ok ms.(ms_effective).
Definition entry_ok (e : Entry) : Prop := ∀ m, Entry.get_membership e = Some m → member_ok m.
Definition vote_ok v : Prop := is_committed v = true → elected v.

(** The votes counted so far were pledged. *)
Record tally_ok (k : Candidate.Candidate LeaderQuorumSet) : Prop := {
  ta_pending : is_committed k.(Candidate.vote) = false;
  ta_mine : leader_node_id k.(Candidate.vote) = Some id;
  ta_quorum : ∃ m, k.(Candidate.quorum_set) = Membership.to_quorum_set m ∧
    (m.(Membership.configs) = [] ∧ k.(Candidate.progress).(vector) = [] ∨
     P m ∧ candidate_wf k ∧ ∀ t, t ∈ Candidate.granters k → pledged t k.(Candidate.vote));
}.

(** The vote of a leader: it was elected with it, and it is its own. *)
Definition lead_ok (cv : CommittedVote) : Prop :=
  elected (committed_into_vote cv) ∧ leader_node_id (committed_into_vote cv) = Some id.
Definition leader_ok (l : Leader.Leader LeaderQuorumSet) : Prop := lead_ok l.(Leader.committed_vote).

Definition saves r : list Vote := saved ++ saves_of (commands_of r).

Record node_ok r : Prop := {
  no_id : id_of r = id;
  no_chain : vote_chain Vote_default (saves r) (RaftState.vote_ref (state_of r));
  no_promises : promises_ok saved (commands_of r);
  no_vote : RaftState.vote_ref (state_of r) ∈ saves r ∨ nobodys (RaftState.vote_ref (state_of r));
  no_saved : ∀ v, v ∈ saves r → vote_ok v;
  no_members : members_ok (state_of r).(RaftState.membership_state);
  no_candidate : ∀ k, r.(eng).(Engine.candidate) = Some k → tally_ok k;
  no_leader : ∀ l, r.(eng).(Engine.leader) = Some l → leader_ok l;
}.

(** The invariant is kept, and what is saved stays. *)
Definition okR r r' : Prop := node_ok r → saves r ⊆ saves r' ∧ node_ok r'.
#[export] Instance okR_preorder : PreOrder okR.
Proof.
  split; [by intros r|]. intros r1 r2 r3 H1 H2 H. destruct (H1 H) as [S1 N1]. destruct (H2 N1). split; [by etrans|done].
Qed.

Lemma node_vote_ok r : node_ok r → vote_ok (RaftState.vote_ref (state_of r)).
Proof. intros Hr Hc. destruct (no_vote r Hr) as [Hv|Hv]; [by apply (no_saved r Hr)|by left]. Qed.

(** Assigning a state with the same vote and memberships. *)
Lemma node_ok_state r s :
  node_ok r → RaftState.vote_ref s = RaftState.vote_ref (state_of r) →
  members_ok s.(RaftState.membership_state) → node_ok (set_eng r (Engine.set_state r.(eng) s)).
Proof. intros [] Hv Hm. split; try done. all: cbn; by rw Hv. Qed.
Lemma okR_same r0 r s :
  okR r0 r → RaftState.vote_ref s = RaftState.vote_ref (state_of r) →
  s.(RaftState.membership_state) = (state_of r).(RaftState.membership_state) →
  okR r0 (set_eng r (Engine.set_state r.(eng) s)).
Proof.
  intros Hr Hv Hm H0. destruct (Hr H0) as [Hs H1]. split; [exact Hs|]. apply node_ok_state; [done|done|]. rw Hm. by apply no_members.
Qed.
Lemma okR_members r0 r s :
  okR r0 r → RaftState.vote_ref s = RaftState.vote_ref (state_of r) →
  (members_ok (state_of r).(RaftState.membership_state) → members_ok s.(RaftState.membership_state)) →
  okR r0 (set_eng r (Engine.set_state r.(eng) s)).
Proof.
  intros Hr Hv Hm H0. destruct (Hr H0) as [Hs H1]. split; [exact Hs|]. apply node_ok_state; [done|done|]. by apply Hm, no_members.
Qed.

(** Parts of the engine that are not mentioned. *)
Lemma node_ok_ext r r' :
  node_ok r → r'.(eng).(Engine.config) = r.(eng).(Engine.config) → state_of r' = state_of r →
  commands_of r' = commands_of r → r'.(eng).(Engine.candidate) = r.(eng).(Engine.candidate) →
  r'.(eng).(Engine.leader) = r.(eng).(Engine.leader) → node_ok r'.
Proof. intros [] Hc Hs Ho Hk Hl. split; rw /id_of /saves ?Hc ?Hs ?Ho ?Hk ?Hl; done. Qed.

Lemma ok_now : keeps_by okR now.
Proof. intros r a r' [= _ <-] Hr. split; [done|]. by apply (node_ok_ext r). Qed.
Lemma ok_put_candidate_none : keeps_by okR (put_candidate None).
Proof. intros r a r' [= _ <-] []. split; [done|]. by split. Qed.
Lemma ok_put_leader_none : keeps_by okR (put_leader None).
Proof. intros r a r' [= _ <-] []. split; [done|]. by split. Qed.
Lemma ok_greater_log b : keeps_by okR (st_modify (λ r : Rt, set_eng r (Engine.set_seen_greater_log r.(eng) b))).
Proof. intros r a r' [= _ <-] Hr. split; [done|]. by apply (node_ok_ext r). Qed.

Lemma push_saves r c :
  saves r ⊆ saves (set_eng r (Engine.set_output r.(eng) (EngineOutput.push_command r.(eng).(Engine.output) c))).
Proof using saved.
  intros v. rw /saves. change (commands_of (set_eng r _)) with (commands_of r ++ [c]).
  rw saves_of_app !elem_of_app. intros [Hv|Hv]; [by left|by right; left].
Qed.
Lemma node_ok_push r c :
  node_ok r → cmd_saves c = [] → Forall (λ v, v ∈ saves r ∨ nobodys v) (cmd_votes c) →
  node_ok (set_eng r (Engine.set_output r.(eng) (EngineOutput.push_command r.(eng).(Engine.output) c))).
Proof.
  intros [] Hs Hv. set (r' := set_eng _ _). assert (commands_of r' = commands_of r ++ [c]) as Hc by done.
  assert (saves r' = saves r) as Hsv by by rw /saves Hc saves_of_app saves_of_one Hs app_nil_r.
  split; rw ?Hsv; try done. rw Hc. by apply promises_ok_app.
Qed.
Lemma ok_push_command c : cmd_votes c = [] → cmd_saves c = [] → keeps_by okR (push_command c).
Proof.
  intros Hv Hs r a r' [= _ <-] Hr. split; [apply push_saves|]. apply node_ok_push; [done..|]. by rw Hv.
Qed.
Lemma ok_push_sent tx f : keeps_by okR (push_sent tx f).
Proof. intros r a r' [= _ <-] Hr. split; [done|]. by apply (node_ok_ext r). Qed.

Lemma accept_io_inv io r a r' :
  accept_io io r = Done (a, r') → ∃ s, r' = set_eng r (Engine.set_state r.(eng) s) ∧
    RaftState.vote_ref s = RaftState.vote_ref (state_of r) ∧
    s.(RaftState.membership_state) = (state_of r).(RaftState.membership_state).
Proof.
  rw /accept_io /mbind /st_bind /get_state /st_gets /lift.
  destruct (RaftState.accept_io _ io) as [[p s]|] eqn:E; [|done]. intros [= _ <-]. exists s. split; [done|].
  revert E. rw /RaftState.accept_io /mbind /outcome_bind. intros Hrun. repeat (case_match; try done); by simplify_eq.
Qed.
Lemma ok_accept_io io : keeps_by okR (accept_io io).
Proof. intros r a r' (s & -> & Hv & Hm)%accept_io_inv. by apply okR_same. Qed.

(** A handler that borrows the leader, and puts it back with the same vote. *)
Lemma kept_leader_bind {A} (k : Leader.Leader LeaderQuorumSet → M A) r0 r :
  (∀ l, r.(eng).(Engine.leader) = Some l → kept_by okR r0 (k l) r) → kept_by okR r0 (get_leader ≫= k) r.
Proof.
  intros Hk a r'. rw /get_leader /mbind /st_bind. destruct (Engine.leader (eng r)) as [l|] eqn:E; [|done].
  exact (Hk l eq_refl a r').
Qed.
Lemma okR_leader r0 r l l' :
  okR r0 r → r.(eng).(Engine.leader) = Some l → l'.(Leader.committed_vote) = l.(Leader.committed_vote) →
  okR r0 (set_eng r (Engine.set_leader r.(eng) (Some l'))).
Proof.
  intros Hr Hl Hv H0. destruct (Hr H0) as [Hs H1]. split; [exact Hs|]. pose proof (no_leader r H1 l Hl) as Hlo.
  destruct H1. split; try done.
  cbn. intros x [= <-]. by rw /leader_ok Hv.
Qed.
Lemma kept_assign_leader_bind {A} o (k : unit → M A) r0 r :
  kept_by okR r0 (k tt) (set_eng r (Engine.set_leader r.(eng) o)) → kept_by okR r0 (put_leader o ≫= k) r.
Proof. done. Qed.
Lemma kept_put_leader_bind {A} l l' (k : unit → M A) r0 r :
  okR r0 r → r.(eng).(Engine.leader) = Some l → l'.(Leader.committed_vote) = l.(Leader.committed_vote) →
  kept_by okR r0 (k tt) (set_eng r (Engine.set_leader r.(eng) (Some l'))) → kept_by okR r0 (put_leader (Some l') ≫= k) r.
Proof. done. Qed.
Lemma kept_put_leader l l' r0 r :
  okR r0 r → r.(eng).(Engine.leader) = Some l → l'.(Leader.committed_vote) = l.(Leader.committed_vote) →
  kept_by okR r0 (put_leader (Some l')) r.
Proof. intros Hr Hl Hv a r' [= _ <-]. by eapply okR_leader. Qed.
End node_ok.

(** ** More pledges, and a saved vote that leaves the queue *)
Section monotone.
Context {C : RaftTypeConfig}.
Context (P : Membership → Prop) (id : NodeId) (saved : list Vote) (pledged pledged' : NodeId → Vote → Prop).
Context (Hmono : ∀ t v, pledged t v → pledged' t v).
Implicit Types (r : Rt) (v : Vote).

Lemma elected_mono v : elected P pledged v → elected P pledged' v.
Proof using Hmono.
  intros [Hv|(m & S & Hm & Hnd & Hq & Hs)]; [by left|]. right. exists m, S. split_and!; auto.
Qed.
Lemma vote_ok_mono v : vote_ok P pledged v → vote_ok P pledged' v.
Proof using Hmono. intros Hv Hc. by apply elected_mono, Hv. Qed.
Lemma lead_ok_mono cv : lead_ok P id pledged cv → lead_ok P id pledged' cv.
Proof using Hmono. intros [He Hid]. split; [by apply elected_mono|done]. Qed.
Lemma tally_ok_mono k : tally_ok P id pledged k → tally_ok P id pledged' k.
Proof using Hmono.
  intros [H1 H2 (m & Hq & Hm)]. split; [done..|]. exists m. split; [done|].
  destruct Hm as [Hm|(? & ? & Hg)]; [by left|]. right. split_and!; auto.
Qed.
Lemma node_ok_mono r : node_ok P id saved pledged r → node_ok P id saved pledged' r.
Proof using Hmono.
  intros []. split; try done.
  - intros v Hv. by apply vote_ok_mono; auto.
  - intros k Hk. by apply tally_ok_mono; auto.
  - intros l Hl. by apply lead_ok_mono, no_leader0.
Qed.

(** The first command leaves the queue; if it saves a vote, the vote is saved now. *)
Lemma node_ok_pop r r' c cs :
  node_ok P id saved pledged r → commands_of r = c :: cs → commands_of r' = cs → state_of r' = state_of r →
  r'.(eng).(Engine.config) = r.(eng).(Engine.config) → r'.(eng).(Engine.candidate) = r.(eng).(Engine.candidate) →
  r'.(eng).(Engine.leader) = r.(eng).(Engine.leader) → node_ok P id (saved ++ cmd_saves c) pledged r'.
Proof.
  intros [N1 N2 N3 N4 N5 N6 N7 N8] Hq Hq' Hs Hc Hk Hl.
  assert (saves (saved ++ cmd_saves c) r' = saves saved r) as Hsv.
  { by rw /saves Hq Hq' /saves_of bind_cons -app_assoc. }
  split; rw ?Hsv ?Hs ?Hk ?Hl; try done.
  - by rw /id_of Hc.
  - rw Hq in N3. rw Hq'. apply N3.
Qed.
End monotone.

#[export] Hint Resolve ok_now ok_put_candidate_none ok_put_leader_none ok_greater_log ok_push_command ok_push_sent
  ok_accept_io : keeps.
#[export] Hint Extern 0 (cmd_saves _ = []) => reflexivity : keeps.

(** Closes [okR] goals whose state differs in other fields only. *)
Ltac ok_tac :=
  first [assumption | reflexivity | apply okR_same; [ok_tac|reflexivity..] |
         eapply okR_leader; [ok_tac|eassumption|reflexivity]].
Ltac evolves_tac ::=
  first [assumption | reflexivity | apply evolves_same; [evolves_tac|reflexivity..] | ok_tac].

(** A step of a symbolic run that keeps track of the borrowed leader. *)
Ltac ok_step :=
  lazymatch goal with
  | |- kept_by _ _ (get_leader ≫= _) _ => apply kept_leader_bind; intros ? ?
  | |- kept_by _ _ (put_leader (Some _) ≫= _) _ =>
      eapply kept_put_leader_bind; [ok_tac|eassumption|reflexivity|]
  | |- kept_by _ _ (put_leader (Some _)) _ => eapply kept_put_leader; [ok_tac|eassumption|reflexivity]
  | _ => kept_step
  end.
Ltac ok_run := repeat (ok_step; cbn beta iota zeta).
Ltac oks_tac := intros ?r; ok_run.

Section handlers.
Context {C : RaftTypeConfig}.
Context (P : Membership → Prop) (id : NodeId) (saved : list Vote) (pledged : NodeId → Vote → Prop).
Implicit Types (r : Rt) (s : RaftState.RaftState) (v : Vote).

Notation okR := (okR P id saved pledged).
Notation oks := (keeps_by okR).
Notation members_ok := (members_ok P).

Lemma ok_update_server_state : oks ServerStateHandler.update_server_state_if_changed.
Proof. rw /ServerStateHandler.update_server_state_if_changed. oks_tac. Qed.
Lemma ok_trigger_snapshot : oks SnapshotHandler.trigger_snapshot.
Proof. rw /SnapshotHandler.trigger_snapshot. oks_tac. Qed.
Lemma ok_update_snapshot m : oks (SnapshotHandler.update_snapshot m).
Proof. rw /SnapshotHandler.update_snapshot. oks_tac. Qed.
#[local] Hint Resolve ok_update_server_state ok_trigger_snapshot ok_update_snapshot : keeps.

(** Operations that assign the vote and the memberships as they were. *)
Definition log_part_only (o : Outcome RaftState.RaftState) s : Prop := ∀ s', o = Done s' →
  RaftState.vote_ref s' = RaftState.vote_ref s ∧ s'.(RaftState.membership_state) = s.(RaftState.membership_state).
Lemma extend_part s ids : log_part_only (RaftState.extend_log_ids s ids) s.
Proof. intros s'. rw /RaftState.extend_log_ids. destruct (LogIdList.extend _ _); by intros [= <-]. Qed.
Lemma extend_same_leader_part s ids : log_part_only (RaftState.extend_log_ids_from_same_leader s ids) s.
Proof.
  intros s'. rw /RaftState.extend_log_ids_from_same_leader.
  destruct (LogIdList.extend_from_same_leader _ _); by intros [= <-].
Qed.
Lemma purge_part s upto : log_part_only (RaftState.purge_log s upto) s.
Proof.
  intros s'. rw /RaftState.purge_log. cbn [RaftState.set_purged_next RaftState.log_ids].
  destruct (LogIdList.purge _ _); by intros [= <-].
Qed.
Lemma okR_part r0 r o s : okR r0 r → log_part_only o (state_of r) → o = Done s →
  okR r0 (set_eng r (Engine.set_state r.(eng) s)).
Proof. intros Hr Ho Hs. apply Ho in Hs as [? ?]. by apply okR_same. Qed.

Lemma ok_purge_log : oks LogHandler.purge_log.
Proof. rw /LogHandler.purge_log. oks_tac. eapply okR_part; [done|apply purge_part|done]. Qed.
Lemma ok_update_purge_upto u : oks (LogHandler.update_purge_upto u).
Proof. rw /LogHandler.update_purge_upto. oks_tac. Qed.
Lemma ok_calc_purge_upto : oks LogHandler.calc_purge_upto.
Proof. rw /LogHandler.calc_purge_upto. oks_tac. Qed.
#[local] Hint Resolve ok_purge_log ok_update_purge_upto ok_calc_purge_upto : keeps.
Lemma ok_schedule_purge : oks LogHandler.schedule_policy_based_purge.
Proof. rw /LogHandler.schedule_policy_based_purge. oks_tac. Qed.
#[local] Hint Resolve ok_schedule_purge : keeps.

(** *** The memberships *)
Lemma append_members_ok ms em ms' :
  MembershipState.append ms em = Done ms' → em_ok P em → members_ok ms → members_ok ms'.
Proof.
  rw /MembershipState.append /assert_. repeat (case_match; try done). intros [= <-] Hem [_ ?]. by split.
Qed.
Lemma truncate_members_ok ms i o ms' : MembershipState.truncate ms i = Done (o, ms') → members_ok ms → members_ok ms'.
Proof. rw /MembershipState.truncate /assert_. repeat (case_match; try done). - by intros [= _ <-] [? _]. - by intros [= _ <-]. Qed.
Lemma update_members_ok ms em o ms' :
  MembershipState.update_committed ms em = Done (o, ms') → em_ok P em → members_ok ms → members_ok ms'.
Proof.
  rw /MembershipState.update_committed /assert_ /mbind /outcome_bind. intros H Hem [H1 H2].
  destruct (opt_index _ ⪯? _); repeat (case_match; try done); injection H as _ <-; by split.
Qed.
Lemma commit_members_ok ms o ms' : MembershipState.commit ms o = Done ms' → members_ok ms → members_ok ms'.
Proof.
  rw /MembershipState.commit /assert_ /mbind /outcome_bind. intros H [H1 H2].
  repeat (case_match; try done); injection H as <-; by split.
Qed.
Lemma okR_commit r0 r c p s :
  okR r0 r → RaftState.update_committed (state_of r) c = Done (p, s) →
  okR r0 (set_eng r (Engine.set_state r.(eng) s)).
Proof.
  intros Hr. rw /RaftState.update_committed. destruct (_ ≺? _).
  - cbn. destruct (MembershipState.commit _ _) as [ms|] eqn:E; [|done]. intros [= _ <-].
    apply okR_members; [ok_tac|done|]. by eapply commit_members_ok.
  - intros [= _ <-]. by apply okR_same.
Qed.

Lemma memberships_ok es sm :
  Forall (entry_ok P) es → sm ∈ FollowingHandler.last_two_memberships es → member_ok P sm.(stored_membership_).
Proof.
  rw /FollowingHandler.last_two_memberships. intros Hes%Forall_rev.
  assert (∀ rs acc, Forall (entry_ok P) rs → Forall (λ sm, member_ok P sm.(stored_membership_)) acc →
    Forall (λ sm, member_ok P sm.(stored_membership_)) (FollowingHandler.last_memberships_loop rs acc)) as Hloop.
  { induction rs as [|e rs IH]; intros acc Hrs Hacc; [done|]. apply Forall_cons in Hrs as [He Hrs]. cbn.
    destruct (Entry.get_membership e) as [m|] eqn:Hm; [|by apply IH].
    assert (Forall (λ sm, member_ok P sm.(stored_membership_))
      ({| stored_log_id := Some (Entry.log_id e); stored_membership_ := m |} :: acc)) as Hacc'.
    { constructor; [by apply He|done]. }
    case_match; [done|]. by apply IH. }
  intros Hin. pose proof (Hloop _ [] Hes ltac:(constructor)) as Hall. by rewrite -> Forall_forall in Hall; apply Hall.
Qed.

Lemma ok_append_membership es : Forall (entry_ok P) es → oks (FollowingHandler.append_membership es).
Proof.
  intros Hes. rw /FollowingHandler.append_membership. intros r. pose proof (memberships_ok es) as Hms.
  destruct (FollowingHandler.last_two_memberships es) as [|sm l]; [apply kept_ret; reflexivity|].
  apply kept_bind; [apply _| |reflexivity|].
  - apply keeps_for; [apply _|]. intros x Hx r1. ok_run. apply okR_members; [ok_tac|done|].
    intros Hm. eapply append_members_ok; [eassumption|exact (Hms x Hes Hx)|done].
  - intros [] r' Hr. ok_run.
Qed.
#[local] Hint Resolve ok_append_membership : keeps.

Lemma ok_truncate_logs since : oks (FollowingHandler.truncate_logs since).
Proof.
  rw /FollowingHandler.truncate_logs. oks_tac; (apply okR_members; [ok_tac|done|]);
    intros Hm; by eapply truncate_members_ok.
Qed.
#[local] Hint Resolve ok_truncate_logs : keeps.
Lemma ok_ensure_consecutive prev : oks (FollowingHandler.ensure_log_consecutive prev).
Proof. rw /FollowingHandler.ensure_log_consecutive. oks_tac. Qed.
Lemma ok_do_append lv es : Forall (entry_ok P) es → oks (FollowingHandler.do_append_entries lv es).
Proof.
  intros Hes. rw /FollowingHandler.do_append_entries. oks_tac. eapply okR_part; [ok_tac|apply extend_part|done].
Qed.
#[local] Hint Resolve ok_ensure_consecutive ok_do_append : keeps.
Lemma ok_append_entries lv prev es : Forall (entry_ok P) es → oks (FollowingHandler.append_entries lv prev es).
Proof.
  intros Hes. assert (∀ n, Forall (entry_ok P) (drop n es)) as Hd by (intros n; by apply Forall_drop).
  rw /FollowingHandler.append_entries. oks_tac.
Qed.
Lemma ok_commit_entries c : oks (FollowingHandler.commit_entries c).
Proof. rw /FollowingHandler.commit_entries. oks_tac; by eapply okR_commit. Qed.
#[local] Hint Resolve ok_append_entries ok_commit_entries : keeps.
Lemma ok_update_committed_membership em : em_ok P em → oks (FollowingHandler.update_committed_membership em).
Proof.
  intros Hem. rw /FollowingHandler.update_committed_membership. oks_tac. apply okR_members; [ok_tac|done|].
  intros Hm. by eapply update_members_ok.
Qed.
#[local] Hint Resolve ok_update_committed_membership : keeps.

Definition snapshot_ok (sn : Snapshot) : Prop := member_ok P (stored_membership_ (last_membership (meta sn))).
Lemma ok_install lv sn : snapshot_ok sn → oks (FollowingHandler.install_full_snapshot lv sn).
Proof.
  intros Hsn. assert (em_ok P (EffectiveMembership.new_from_stored_membership (last_membership (meta sn)))) as Hem by done.
  rw /FollowingHandler.install_full_snapshot. oks_tac.
Qed.

(** *** Replication and leader handlers *)
Lemma ok_put_progress p : oks (ReplicationHandler.put_progress p).
Proof. rw /ReplicationHandler.put_progress. oks_tac. Qed.
#[local] Hint Resolve ok_put_progress ok_install : keeps.
Lemma ok_rebuild_progresses : oks ReplicationHandler.rebuild_progresses.
Proof. rw /ReplicationHandler.rebuild_progresses. oks_tac. Qed.
Lemma ok_rebuild_streams : oks ReplicationHandler.rebuild_replication_streams.
Proof. rw /ReplicationHandler.rebuild_replication_streams. oks_tac. Qed.
Lemma ok_send_to_target t i : oks (ReplicationHandler.send_to_target t i).
Proof. rw /ReplicationHandler.send_to_target. oks_tac. Qed.
#[local] Hint Resolve ok_rebuild_progresses ok_rebuild_streams ok_send_to_target : keeps.
Lemma ok_initiate_loop me mx es : oks (ReplicationHandler.initiate_loop me mx es).
Proof. induction es as [|[t e] es IH]; cbn; oks_tac. Qed.
#[local] Hint Resolve ok_initiate_loop : keeps.
Lemma ok_initiate : oks ReplicationHandler.initiate_replication.
Proof. rw /ReplicationHandler.initiate_replication. oks_tac. Qed.
#[local] Hint Resolve ok_initiate : keeps.
Lemma ok_leader_append_membership i m : member_ok P m → oks (ReplicationHandler.append_membership i m).
Proof.
  intros Hm. rw /ReplicationHandler.append_membership. oks_tac. apply okR_members; [ok_tac|done|].
  intros Hms. by eapply append_members_ok.
Qed.
Lemma ok_update_leader_clock n t : oks (ReplicationHandler.update_leader_clock n t).
Proof. rw /ReplicationHandler.update_leader_clock. oks_tac. Qed.
Lemma ok_try_commit g : oks (ReplicationHandler.try_commit_quorum_accepted g).
Proof. rw /ReplicationHandler.try_commit_quorum_accepted. oks_tac; by eapply okR_commit. Qed.
#[local] Hint Resolve ok_leader_append_membership ok_update_leader_clock ok_try_commit : keeps.
Lemma ok_update_matching n i : oks (ReplicationHandler.update_matching n i).
Proof. rw /ReplicationHandler.update_matching. oks_tac. Qed.
Lemma ok_update_conflicting n i : oks (ReplicationHandler.update_conflicting n i).
Proof. rw /ReplicationHandler.update_conflicting. oks_tac. Qed.
Lemma ok_allow_next_revert n b : oks (ReplicationHandler.allow_next_revert n b).
Proof. rw /ReplicationHandler.allow_next_revert. oks_tac. Qed.
Lemma ok_leader_try_purge : oks ReplicationHandler.try_purge_log.
Proof. rw /ReplicationHandler.try_purge_log. oks_tac. Qed.
#[local] Hint Resolve ok_update_matching ok_update_conflicting ok_allow_next_revert ok_leader_try_purge : keeps.
Lemma ok_update_progress t res : oks (ReplicationHandler.update_progress t res).
Proof. rw /ReplicationHandler.update_progress. oks_tac. Qed.
Lemma ok_update_local_progress u : oks (ReplicationHandler.update_local_progress u).
Proof. rw /ReplicationHandler.update_local_progress. oks_tac. Qed.
#[local] Hint Resolve ok_update_progress ok_update_local_progress : keeps.

Lemma assign_from_ok lid i es : Forall (entry_ok P) es → Forall (entry_ok P) (Leader.assign_from lid i es).1.
Proof.
  revert i. induction es as [|e es IH]; intros i; cbn; [done|]. intros [He Hes]%Forall_cons.
  specialize (IH (i + 1)%N Hes). destruct (Leader.assign_from _ _ _). by constructor.
Qed.
Lemma assign_ok (l : Leader.Leader LeaderQuorumSet) es es' l' :
  Leader.assign_log_ids l es = Done (es', l') → Forall (entry_ok P) es →
  Forall (entry_ok P) es' ∧ l'.(Leader.committed_vote) = l.(Leader.committed_vote).
Proof.
  rw /Leader.assign_log_ids /assert_ /mbind /outcome_bind. case_match; [|done].
  destruct (length es =? 0); [by intros [= <- <-]|].
  pose proof (assign_from_ok (committed_leader_id l.(Leader.committed_vote)) (next_index l.(Leader.last_log_id)) es) as Hes.
  destruct (Leader.assign_from _ _ es) as [es1 i]. destruct (sub_u64 i 1); [|done]. intros [= <- <-] Hok. by split; [apply Hes|].
Qed.
Lemma find_membership_ok es acc x :
  LeaderHandler.find_membership es acc = Done (Some x) → Forall (entry_ok P) es →
  (∀ y, acc = Some y → member_ok P y.2) → member_ok P x.2.
Proof.
  revert acc. induction es as [|e es IH]; intros acc; cbn.
  - intros [= ->] _ H. by apply H.
  - destruct (Entry.get_membership e) as [m|] eqn:Hm; intros Hrun [He Hes]%Forall_cons Hacc.
    + revert Hrun. rw /assert_. case_match; [|done]. cbn. intros Hrun. eapply IH; [exact Hrun|done|].
      intros y [= <-]. by apply He.
    + by eapply IH.
Qed.

Lemma ok_leader_append_entries es : Forall (entry_ok P) es → oks (LeaderHandler.leader_append_entries es).
Proof.
  intros Hes. rw /LeaderHandler.leader_append_entries. intros r.
  destruct (length es =? 0); [apply kept_ret; reflexivity|]. apply kept_leader_bind. intros l Hl.
  apply kept_lift_bind. intros [es' l'] [Hes' Hv]%assign_ok; [|done]. cbn beta iota.
  eapply kept_put_leader_bind; [reflexivity|exact Hl|exact Hv|].
  assert (okR r (set_eng r (Engine.set_leader r.(eng) (Some l')))) as Hr by by eapply okR_leader.
  apply kept_state_bind, kept_lift_bind. intros s Hs. apply kept_put_bind. apply kept_lift_bind. intros m Hm.
  apply kept_bind; [apply _|auto with keeps|eapply okR_part; [exact Hr|apply extend_same_leader_part|exact Hs]|].
  intros io r1 Hr1. apply kept_bind; [apply _|auto with keeps|exact Hr1|]. intros [] r2 Hr2.
  apply kept_bind; [apply _| |exact Hr2|intros [] r3 Hr3; ok_run].
  destruct m as [[i m]|]; [|oks_tac]. apply ok_leader_append_membership.
  by apply (find_membership_ok _ _ _ Hm Hes').
Qed.
Lemma ok_send_heartbeat : oks LeaderHandler.send_heartbeat.
Proof. rw /LeaderHandler.send_heartbeat. oks_tac. Qed.
Lemma ok_transfer_leader n : oks (LeaderHandler.transfer_leader n).
Proof. rw /LeaderHandler.transfer_leader. oks_tac. Qed.
#[local] Hint Resolve ok_leader_append_entries ok_send_heartbeat ok_transfer_leader : keeps.

(** *** Vote handlers *)
(** What follows from the invariant may be used while it is preserved. *)
Lemma kept_given {A} (m : M A) r : (node_ok P id saved pledged r → kept_by okR r m r) → kept_by okR r m r.
Proof. intros H a r' Hrun Hr. exact (H Hr a r' Hrun Hr). Qed.

Lemma new_leader_vote t s l : RaftState.new_leader t s = Done l → l.(Leader.committed_vote) = to_committed (RaftState.vote_ref s).
Proof.
  rw /RaftState.new_leader /Leader.new /assert_ /mbind /outcome_bind. intros Hrun.
  repeat (case_match; try done); by simplify_eq.
Qed.
Lemma okR_new_leader r0 r l :
  okR r0 r → leader_ok P id pledged l → okR r0 (set_eng r (Engine.set_leader r.(eng) (Some l))).
Proof.
  intros Hr Hl H0. destruct (Hr H0) as [Hs H1]. split; [exact Hs|]. destruct H1. split; try done. by intros ? [= <-].
Qed.

Lemma blank_ok lid : Forall (entry_ok P) [Entry.new_blank lid].
Proof. by repeat constructor. Qed.
#[local] Hint Resolve blank_ok : keeps.


(** A leader whose vote is committed and its own may lead with it. *)
Lemma may_lead r :
  node_ok P id saved pledged r → RaftState.is_leader (state_of r) (id_of r) = true →
  lead_ok P id pledged (to_committed (RaftState.vote_ref (state_of r))).
Proof.
  intros Hr. rw /RaftState.is_leader /RaftState.is_leading !andb_true_iff bool_decide_eq_true (no_id _ _ _ _ r Hr).
  intros [[_ Hmine] Hc]. split; [|exact Hmine]. rw committed_again //. exact (node_vote_ok _ _ _ _ r Hr Hc).
Qed.

Lemma ok_become_new_leader r :
  lead_ok P id pledged (to_committed (RaftState.vote_ref (state_of r))) → kept_by okR r VoteHandler.become_new_leader r.
Proof.
  intros Hv. rw /VoteHandler.become_new_leader. apply kept_state_bind.
  apply kept_now_bind; [apply _|auto with keeps|reflexivity|]. intros t r1 Hr1 Hs1.
  apply kept_lift_bind. intros l Hl%new_leader_vote.
  assert (okR r (set_eng r1 (Engine.set_leader r1.(eng) (Some l)))) as Hr2 by by apply okR_new_leader; [|rw /leader_ok Hl].
  apply kept_assign_leader_bind. ok_run.
Qed.
Lemma ok_become_leader r :
  lead_ok P id pledged (to_committed (RaftState.vote_ref (state_of r))) → kept_by okR r VoteHandler.become_leader r.
Proof.
  intros Hv. rw /VoteHandler.become_leader. apply kept_engine_bind.
  destruct (Engine.leader (eng r)) as [l|]; [|by apply ok_become_new_leader].
  case_bool_decide; [|by apply ok_become_new_leader]. apply kept_assign_leader_bind.
  assert (okR r (set_eng r (Engine.set_leader r.(eng)
    (Some (Leader.set_committed_vote l (to_committed (RaftState.vote_ref (state_of r)))))))) as Hr1.
  { by apply okR_new_leader. }
  ok_run.
Qed.
Lemma ok_become_following : oks VoteHandler.become_following.
Proof. rw /VoteHandler.become_following. oks_tac. Qed.
#[local] Hint Resolve ok_become_following : keeps.
Lemma ok_update_internal : oks VoteHandler.update_internal_server_state.
Proof.
  rw /VoteHandler.update_internal_server_state. intros r. apply kept_config_bind, kept_state_bind.
  destruct (RaftState.is_leader _ _) eqn:Hl; [|ok_run]. apply kept_given. intros Hr.
  by apply ok_become_leader, may_lead.
Qed.
#[local] Hint Resolve ok_update_internal : keeps.

(** Saving a vote. *)
Lemma node_ok_save r r' v :
  node_ok P id saved pledged r → vote_le (RaftState.vote_ref (state_of r)) v → vote_ok P pledged v →
  r'.(eng).(Engine.config) = r.(eng).(Engine.config) → RaftState.vote_ref (state_of r') = v →
  (state_of r').(RaftState.membership_state) = (state_of r).(RaftState.membership_state) →
  commands_of r' = commands_of r ++ [SaveVote v] → r'.(eng).(Engine.candidate) = r.(eng).(Engine.candidate) →
  r'.(eng).(Engine.leader) = r.(eng).(Engine.leader) →
  node_ok P id saved pledged r' ∧ saves saved r' = saves saved r ++ [v].
Proof.
  intros [] Hle Hv Hc Hs Hm Ho Hk Hl.
  assert (saves saved r' = saves saved r ++ [v]) as Hsv by by rw /saves Ho saves_of_app saves_of_one app_assoc.
  split; [|exact Hsv]. assert (v ∈ saves saved r') as Hin by by rw Hsv; apply elem_of_app; right; left. split; rw ?Hk ?Hl ?Hs ?Hm; try done.
  - by rw /id_of Hc.
  - rw Hsv. eapply vote_chain_app; [done|]. split; [done|apply vote_le_refl].
  - rw Ho. by apply promises_ok_app.
  - by left.
  - rw Hsv. intros w [Hw| ->%list_elem_of_singleton]%elem_of_app; auto.
Qed.

Lemma ok_save_vote v lease r :
  node_ok P id saved pledged r → vote_le (RaftState.vote_ref (state_of r)) v → vote_ok P pledged v →
  post (t ← now;
        _ ← modify_state (λ s, RaftState.set_vote s (Leased.update s.(RaftState.vote) t lease v));
        _ ← accept_io (IOId.new v);
        push_command (SaveVote v)) (λ _ r', node_ok P id saved pledged r' ∧ saves saved r' = saves saved r ++ [v]) r.
Proof.
  intros Hr Hle Hv. apply post_bind. intros t r1 [= <- <-]. apply post_bind. intros [] r2 [= <-].
  apply post_bind. intros a r3 (s & -> & Hs & Hm)%accept_io_inv. intros [] r4 [= <-].
  by apply (node_ok_save r).
Qed.
Lemma ok_touch_vote v lease r :
  node_ok P id saved pledged r → v = RaftState.vote_ref (state_of r) →
  post (t ← now;
        l ← lift (Leased.touch (state_of r).(RaftState.vote) t lease);
        modify_state (λ s, RaftState.set_vote s l))
    (λ _ r', node_ok P id saved pledged r' ∧ saves saved r' = saves saved r) r.
Proof.
  intros Hr ->. apply post_bind. intros t r1 [= <- <-]. apply post_bind, post_lift. intros l Hl%touch_data [] r2 [= <-].
  split; [|done].
  apply (node_ok_ext _ _ _ _ (set_eng r (Engine.set_state r.(eng) (RaftState.set_vote (state_of r) l)))); try done.
  apply node_ok_state; [done|exact Hl|by apply (no_members _ _ _ _ r Hr)].
Qed.

(** The vote a node accepts is saved, or nobody's. *)
Lemma ok_update_vote_post v r :
  node_ok P id saved pledged r → vote_ok P pledged v →
  post (VoteHandler.update_vote v) (λ a r', node_ok P id saved pledged r' ∧ saves saved r ⊆ saves saved r' ∧
    (is_ok a = true → v ∈ saves saved r' ∨ nobodys v)) r.
Proof.
  intros Hr Hv. rw /VoteHandler.update_vote. apply post_bind. intros s r1 [= <- <-].
  apply post_bind, post_lift. intros ge Hge%ref_vote_ge_done. destruct ge; cbn [negb]; [|by apply post_ret].
  apply post_bind. intros c r1 [= <- <-]. apply post_bind, post_lift. intros gt Hgt%ref_vote_gt_done.
  apply post_bind. intros [] r1 Hfirst.
  assert (node_ok P id saved pledged r1 ∧ saves saved r ⊆ saves saved r1 ∧ (v ∈ saves saved r1 ∨ nobodys v))
    as (Hr1 & Hs1 & Hin).
  { destruct gt.
    - destruct (ok_save_vote v _ r Hr (proj1 Hge eq_refl) Hv _ _ Hfirst) as [? Hs]. rw Hs. split_and!; [done|set_solver|set_solver].
    - assert (v = RaftState.vote_ref (state_of r)) as Heq.
      { destruct (proj1 Hge eq_refl) as [Hlt|Heq]; [|done]. by apply Hgt in Hlt. }
      destruct (ok_touch_vote v _ r Hr Heq _ _ Hfirst) as [? Hs]. rw Hs Heq. split_and!; [done|done|apply Hr]. }
  apply post_bind. intros [] r2 Hint%ok_update_internal. destruct (Hint Hr1) as [Hs Hr2]. apply post_ret.
  split_and!; [done|by etrans|]. intros _. destruct Hin; [left; by apply Hs|by right].
Qed.
Lemma ok_update_vote v : vote_ok P pledged v → oks (VoteHandler.update_vote v).
Proof. intros Hv r a r' Hrun Hr. by destruct (ok_update_vote_post v r Hr Hv _ _ Hrun) as (? & ? & _). Qed.
#[local] Hint Resolve ok_update_vote : keeps.

Lemma ok_accept_vote v tx f :
  vote_ok P pledged v → (∀ s tx, cmd_votes (RespondCmd None (f s tx)) = []) → oks (VoteHandler.accept_vote v tx f).
Proof.
  intros Hv Hf. rw /VoteHandler.accept_vote. oks_tac. apply kept_bind; [apply _| |done|].
  - by apply ok_push_command; [apply Hf|].
  - intros [] ? ?. ok_run.
Qed.

(** *** The engine *)
Lemma ok_following_handler : oks EngineImpl.following_handler.
Proof. rw /EngineImpl.following_handler. oks_tac. Qed.
Lemma ok_leader_handler : oks EngineImpl.leader_handler.
Proof. rw /EngineImpl.leader_handler. oks_tac. Qed.
#[local] Hint Resolve ok_accept_vote ok_following_handler ok_leader_handler : keeps.
Lemma ok_get_leader_or_reject tx : oks (EngineImpl.get_leader_handler_or_reject tx).
Proof. rw /EngineImpl.get_leader_handler_or_reject. oks_tac. Qed.
Lemma ok_startup : oks EngineImpl.startup.
Proof. rw /EngineImpl.startup. oks_tac. Qed.
Lemma ok_set_greater_log : oks EngineImpl.set_greater_log.
Proof. apply ok_greater_log. Qed.
Lemma ok_reset_greater_log : oks EngineImpl.reset_greater_log.
Proof. apply ok_greater_log. Qed.
#[local] Hint Resolve ok_get_leader_or_reject ok_startup ok_set_greater_log ok_reset_greater_log : keeps.
Lemma ok_engine_append v p es : vote_ok P pledged v → Forall (entry_ok P) es → oks (EngineImpl.append_entries v p es).
Proof. intros Hv Hes. rw /EngineImpl.append_entries. oks_tac. Qed.
#[local] Hint Resolve ok_engine_append : keeps.
Lemma ok_handle_append v p es tx :
  vote_ok P pledged v → Forall (entry_ok P) es → oks (EngineImpl.handle_append_entries v p es tx).
Proof. intros Hv Hes. rw /EngineImpl.handle_append_entries. oks_tac. Qed.
Lemma ok_handle_commit c : oks (EngineImpl.handle_commit_entries c).
Proof. rw /EngineImpl.handle_commit_entries. oks_tac. Qed.
Lemma ok_handle_install v sn tx :
  vote_ok P pledged v → snapshot_ok sn → oks (EngineImpl.handle_install_full_snapshot v sn tx).
Proof. intros Hv Hsn. rw /EngineImpl.handle_install_full_snapshot. oks_tac. Qed.
Lemma ok_leader_step_down : oks EngineImpl.leader_step_down.
Proof. rw /EngineImpl.leader_step_down. oks_tac. Qed.
Lemma ok_try_purge : oks EngineImpl.try_purge_log.
Proof. rw /EngineImpl.try_purge_log. oks_tac. Qed.
#[local] Hint Resolve ok_handle_append ok_handle_commit ok_handle_install ok_leader_step_down ok_try_purge : keeps.
Lemma ok_finish_building m : oks (EngineImpl.finish_building_snapshot m).
Proof. rw /EngineImpl.finish_building_snapshot. oks_tac. Qed.
Lemma ok_trigger_purge i : oks (EngineImpl.trigger_purge_log i).
Proof. rw /EngineImpl.trigger_purge_log. oks_tac. Qed.
Lemma ok_trigger_transfer n : oks (EngineImpl.trigger_transfer_leader n).
Proof. rw /EngineImpl.trigger_transfer_leader. oks_tac. Qed.
Lemma ok_begin_snapshot tx : oks (EngineImpl.handle_begin_receiving_snapshot tx).
Proof. rw /EngineImpl.handle_begin_receiving_snapshot. oks_tac. Qed.
Lemma ok_handle_vote_req req : vote_ok P pledged req.(vreq_vote) → oks (EngineImpl.handle_vote_req req).
Proof. intros Hv. rw /EngineImpl.handle_vote_req. oks_tac. Qed.
End handlers.

#[export] Hint Resolve ok_update_server_state ok_trigger_snapshot ok_update_snapshot ok_purge_log
  ok_update_purge_upto ok_calc_purge_upto ok_schedule_purge ok_append_membership ok_truncate_logs
  ok_ensure_consecutive ok_do_append ok_append_entries ok_commit_entries ok_update_committed_membership ok_install
  ok_put_progress ok_rebuild_progresses ok_rebuild_streams ok_send_to_target ok_initiate_loop ok_initiate
  ok_leader_append_membership ok_update_leader_clock ok_try_commit ok_update_matching ok_update_conflicting
  ok_allow_next_revert ok_leader_try_purge ok_update_progress ok_update_local_progress ok_leader_append_entries
  ok_send_heartbeat ok_transfer_leader ok_become_following ok_update_internal ok_update_vote ok_accept_vote
  ok_following_handler ok_leader_handler ok_get_leader_or_reject ok_startup ok_set_greater_log ok_reset_greater_log
  ok_engine_append ok_handle_append ok_handle_commit ok_handle_install ok_leader_step_down ok_try_purge
  ok_finish_building ok_trigger_purge ok_trigger_transfer ok_begin_snapshot ok_handle_vote_req : keeps.

(** ** Elections *)
Section election.
Context {C : RaftTypeConfig}.
Context (P : Membership → Prop) (id : NodeId) (saved : list Vote) (pledged : NodeId → Vote → Prop).
Context (HP : ∀ m, P m → membership_valid m ∧ m.(Membership.configs) ≠ []).
Implicit Types (r : Rt) (v : Vote) (k : Candidate.Candidate LeaderQuorumSet).

Notation okR := (okR P id saved pledged).
Notation oks := (keeps_by okR).
Notation node_ok := (node_ok P id saved pledged).
Notation tally_ok := (tally_ok P id pledged).
Notation member_ok := (member_ok P).

(** All the voters of a valid membership are a quorum, nobody is not. *)
Lemma quorum_set_ok m :
  membership_valid m → m.(Membership.configs) ≠ [] → qs_ok (Membership.to_quorum_set m) [].
Proof.
  intros [Hne _] Hcs. set (ids := qs_ids (Membership.to_quorum_set m)).
  assert (NoDup ids) as Hnd by apply btree_iter_NoDup.
  split; [by rw app_nil_r| |].
  - rw to_quorum_set_quorum. apply joint_is_quorum_spec. intros c Hc. change (btree_is_quorum c ids = true). rw btree_is_quorum_spec //.
    apply bool_decide_eq_true. assert (c ∩ list_to_set ids = c) as ->.
    { apply set_eq. intros x. rw elem_of_intersection elem_of_list_to_set. split; [tauto|]. intros Hx. split; [done|].
      rw /ids joint_elem_ids. exists (btree_iter c). split; [by apply list_elem_of_fmap_2|].
      change (x ∈ vec_ids (btree_iter c)). by rw /vec_ids elem_of_btree_iter elem_of_list_to_set elem_of_btree_iter. }
    assert (size c ≠ 0); [|lia]. intros Hs%size_empty_inv%leibniz_equiv. by subst.
  - rw to_quorum_set_quorum. destruct (Membership.configs m) as [|c cs]; [done|]. done.
Qed.

Lemma new_tally_ok t v l m :
  member_ok m → is_committed v = false → leader_node_id v = Some id →
  tally_ok (Candidate.new t v l (Membership.to_quorum_set m) (Membership.learner_ids m)).
Proof.
  intros Hm Hc Hid. split; [done..|]. exists m. split; [done|]. destruct Hm as [Hm|Hm].
  - left. split; [done|]. cbn. rw /Membership.to_quorum_set Hm. done.
  - right. destruct (HP m Hm). split_and!; [done|by apply new_candidate_wf, quorum_set_ok|].
    intros x. rw /Candidate.granters /= app_nil_r. intros (e & _ & [He Hin]%list_elem_of_filter)%list_elem_of_fmap.
    apply list_elem_of_fmap in Hin as (y & -> & _). done.
Qed.

(** Counting a pledge: a quorum is a quorum of pledges. *)
Definition won k : Prop := ∃ m, P m ∧ k.(Candidate.quorum_set) = Membership.to_quorum_set m ∧
  NoDup (Candidate.granters k) ∧ is_quorum (Membership.to_quorum_set m) (Candidate.granters k) = true ∧
  ∀ t, t ∈ Candidate.granters k → pledged t k.(Candidate.vote).

Lemma grant_by_none k t : t ∉ k.(Candidate.progress).(vector).*1 → ∀ x, Candidate.grant_by k t ≠ Done x.
Proof.
  intros Hn%vp_index_None x. rw /Candidate.grant_by /update /update_with.
  change (vp_index (set_stat _ _) t) with (vp_index k.(Candidate.progress) t). by rw Hn.
Qed.
Lemma grant_by_ok k t b k' :
  tally_ok k → pledged t k.(Candidate.vote) → Candidate.grant_by k t = Done (b, k') →
  tally_ok k' ∧ (b = true → won k').
Proof.
  intros [H1 H2 (m & Hq & Hm)] Ht Hrun. destruct Hm as [[_ Hv]|(Hm & Hwf & Hg)].
  { exfalso. eapply (grant_by_none k t); [by rw Hv; set_solver|exact Hrun]. }
  destruct (decide (t ∈ qs_ids k.(Candidate.quorum_set))) as [Hin|Hn]; last first.
  { exfalso. eapply (grant_by_none k t); [|exact Hrun]. rw -(cand_voters_all k Hwf).
    by rw (vp_ids _ (cand_progress k Hwf)) (cand_quorum_set k Hwf). }
  destruct (grant_by_run k t Hwf Hin) as (k1 & Hrun' & Hwf' & Hv' & _ & Hq' & _ & _ & Hg').
  rw Hrun in Hrun'. injection Hrun' as -> ->.
  assert (∀ x, x ∈ Candidate.granters k1 → pledged x k1.(Candidate.vote)) as Hall.
  { intros x [Hx| ->]%Hg'; rw Hv'; [by apply Hg|done]. }
  split.
  - split; [by rw Hv'|by rw Hv'|]. exists m. rw Hq'. split; [done|]. by right.
  - intros Hquo. exists m. rw Hq' in Hquo |- *. rw -Hq. split_and!; [done..| |done|done].
    rw /Candidate.granters. eapply sublist_NoDup; [apply (vp_nodup _ (cand_progress k1 Hwf'))|].
    apply fmap_sublist, sublist_filter.
Qed.

Lemma ok_new_candidate v :
  is_committed v = false → leader_node_id v = Some id → oks (EngineImpl.new_candidate v).
Proof.
  intros Hc Hid r. rw /EngineImpl.new_candidate. apply kept_now_bind; [apply _|auto with keeps|reflexivity|].
  intros t r1 Hr1 _. apply kept_state_bind. intros k r' Hrun H0. destruct (Hr1 H0) as [Hs [N1 N2 N3 N4 N5 N6 N7 N8]].
  injection Hrun as _ <-. split; [exact Hs|]. split; try done. cbn. intros ? [= <-]. by apply new_tally_ok; [apply N6|..].
Qed.

Lemma ok_elect : oks EngineImpl.elect.
Proof.
  intros r a r' Hrun Hr. revert a r' Hrun. change (post EngineImpl.elect (λ _ r', saves saved r ⊆ saves saved r' ∧ node_ok r') r).
  rw /EngineImpl.elect. apply post_bind. intros c r1 [= <- <-]. apply post_bind. intros s r1 [= <- <-].
  set (v := from_leader_id _ false). assert (leader_node_id v = Some id) as Hid.
  { rw /v /leader_node_id /= lid_new_node_id. by rw -(no_id _ _ _ _ r Hr). }
  apply post_bind. intros k r1 H1. destruct (ok_new_candidate v eq_refl Hid _ _ _ H1 Hr) as [S1 N1].
  apply post_bind. intros res r2 H2.
  destruct (ok_update_vote_post P id saved pledged v r1 N1 ltac:(done) _ _ H2) as (N2 & S2 & Hin).
  apply post_bind, post_lift. intros [] Hok. destruct res; [|done]. specialize (Hin eq_refl).
  apply post_bind. intros [] r3 H3.
  assert (saves saved r2 ⊆ saves saved r3 ∧ node_ok r3) as [S3 N3].
  { injection H3 as <-. split; [apply push_saves|]. apply node_ok_push; [done..|]. by apply Forall_singleton. }
  intros [] r4 H4. destruct (ok_update_server_state _ _ _ _ _ _ _ H4 N3) as [S4 N4].
  split; [|done]. by do 3 (etrans; [eassumption|]).
Qed.

Lemma ok_initialize e : entry_ok P e → oks (EngineImpl.initialize e).
Proof.
  intros He. rw /EngineImpl.initialize. intros r. apply kept_state_bind.
  destruct (EngineImpl.check_initialize (state_of r)) eqn:Hci; [|apply kept_ret; reflexivity].
  apply check_initialize_ok in Hci as [_ Hv]. apply kept_lift_bind. intros m _. apply kept_config_bind.
  destruct (EngineImpl.check_members_contain_me _ _); [|apply kept_ret; reflexivity].
  apply kept_now_bind; [apply _|auto with keeps|reflexivity|]. intros t1 r1 Hr1 Hs1. apply kept_modify_bind.
  set (r2 := set_eng r1 _). assert (okR r r2) as Hr2.
  { intros H0. destruct (Hr1 H0) as [S1 N1]. split; [exact S1|]. pose proof (no_chain _ _ _ _ _ N1) as Hch.
    rw Hs1 Hv in Hch. destruct N1. split; try done.
    - eapply vote_chain_weaken; [apply vote_le_refl|apply default_vote_le|exact Hch].
    - by right. }
  assert (Forall (entry_ok P) [Entry.set_log_id e LogId_default]) as Hes by by apply Forall_singleton.
  apply kept_bind; [apply _|auto with keeps|exact Hr2|]. intros lv r3 Hr3.
  apply kept_bind; [apply _|auto with keeps|exact Hr3|]. intros [] r4 Hr4.
  apply kept_bind; [apply _|apply ok_elect|exact Hr4|]. intros [] r5 Hr5. by apply kept_ret.
Qed.

(** *** Becoming the leader *)
Lemma won_elected k : is_committed k.(Candidate.vote) = false → won k → elected P pledged (committed_into_vote (to_committed k.(Candidate.vote))).
Proof.
  intros Hc (m & Hm & _ & Hnd & Hq & Hg). right. exists m, (Candidate.granters k). split_and!; [done..|].
  change (uncommitted _) with (uncommitted k.(Candidate.vote)). by rw (uncommitted_pending _ Hc).
Qed.
Lemma into_leader_vote t k l : Candidate.into_leader t k = Done l → l.(Leader.committed_vote) = to_committed k.(Candidate.vote).
Proof.
  rw /Candidate.into_leader /Leader.new /assert_ /mbind /outcome_bind. intros Hrun.
  repeat (case_match; try done); by simplify_eq.
Qed.
Lemma establish_post k r :
  node_ok r → tally_ok k → won k →
  post (EstablishHandler.establish k) (λ o r', saves saved r ⊆ saves saved r' ∧ node_ok r' ∧
    ∀ l, o = Some l → leader_ok P id pledged l) r.
Proof.
  intros Hr Hk Hw. assert (∀ l, l.(Leader.committed_vote) = to_committed k.(Candidate.vote) → leader_ok P id pledged l) as Hlead.
  { intros l Hl. rw /leader_ok Hl. split; [apply won_elected; [apply Hk|done]|apply Hk]. }
  rw /EstablishHandler.establish. apply post_bind. intros c r1 [= <- <-]. apply post_bind, post_lift. intros [] _.
  apply post_bind. intros e r1 [= <- <-]. apply post_bind. intros ok r1 Hok. assert (r1 = r) as ->.
  { destruct (Engine.leader (eng r)); [|by injection Hok]. revert Hok. rw /lift. destruct (ref_vote_gt _ _); by intros [= _ <-]. }
  destruct ok; cbn [negb]; [|by apply post_ret]. apply post_bind. intros t r1 H1.
  destruct (ok_now _ _ _ _ _ _ _ H1 Hr) as [S1 N1]. apply post_bind, post_lift. intros l Hl%into_leader_vote%Hlead.
  apply post_bind. intros [] r2 H2. apply post_ret. injection H2 as <-.
  destruct (okR_new_leader P id saved pledged r1 r1 l ltac:(reflexivity) Hl N1) as [S2 N2].
  split_and!; [by etrans|done|]. by intros ? [= <-].
Qed.

Lemma ok_establish_leader r :
  (∀ k, r.(eng).(Engine.candidate) = Some k → tally_ok k ∧ won k) → kept_by okR r EngineImpl.establish_leader r.
Proof.
  intros Hk a r' Hrun Hr. revert a r' Hrun.
  change (post EngineImpl.establish_leader (λ _ r', saves saved r ⊆ saves saved r' ∧ node_ok r') r).
  rw /EngineImpl.establish_leader. apply post_bind. intros e r1 [= <- <-]. apply post_bind, post_lift. intros k Hc.
  assert (tally_ok k ∧ won k) as [Ht Hw] by (apply Hk; destruct (Engine.candidate (eng r)); [by injection Hc as ->|done]).
  apply post_bind. intros [] r1 H1. destruct (ok_put_candidate_none _ _ _ _ _ _ _ H1 Hr) as [S1 N1].
  apply post_bind. intros o r2 H2. destruct (establish_post k r1 N1 Ht Hw _ _ H2) as (S2 & N2 & Hl).
  destruct o as [l|]; [|apply post_ret; split; [by etrans|done]]. specialize (Hl l eq_refl).
  assert (vote_ok P pledged (committed_into_vote l.(Leader.committed_vote))) as Hv by (intros _; apply Hl).
  intros a r' Hrun. assert (kept_by okR r2 (
    _ ← ReplicationHandler.rebuild_replication_streams;
    res ← VoteHandler.update_vote (committed_into_vote l.(Leader.committed_vote));
    _ ← lift (assert_ (is_ok res) "commit vote can not fail");
    _ ← accept_io (IOId.new_log_io l.(Leader.committed_vote) l.(Leader.last_log_id));
    lh ← EngineImpl.leader_handler;
    _ ← lift (assert_ (is_ok lh) "called `Result::unwrap()` on an `Err` value");
    LeaderHandler.leader_append_entries [Entry.new_blank LogId_default]) r2) as Hrest.
  { assert (Forall (entry_ok P) [Entry.new_blank LogId_default]) by by repeat constructor. ok_run. }
  destruct (Hrest _ _ Hrun N2) as [S3 N3]. split; [|done]. by do 2 (etrans; [eassumption|]).
Qed.

Lemma ok_handle_vote_resp t resp :
  (resp.(vote_granted) = true → pledged t resp.(vresp_vote)) → vote_ok P pledged resp.(vresp_vote) →
  oks (EngineImpl.handle_vote_resp t resp).
Proof.
  intros Hg Hv. rw /EngineImpl.handle_vote_resp. intros r. apply kept_engine_bind.
  destruct (Engine.candidate (eng r)) as [k|] eqn:Hk; [|apply kept_ret; reflexivity].
  apply kept_given. intros Hr. pose proof (no_candidate _ _ _ _ r Hr k Hk) as Hta.
  destruct (_ && _) eqn:Hgr; [|ok_run]. apply andb_true_iff in Hgr as [Hgr Heq%bool_decide_eq_true].
  apply kept_lift_bind. intros [b k'] Hrun.
  assert (pledged t k.(Candidate.vote)) as Ht by by rw -Heq; apply Hg.
  destruct (grant_by_ok k t b k' Hta Ht Hrun) as [Hta' Hwon]. cbn beta iota.
  set (r1 := set_eng r (Engine.set_candidate r.(eng) (Some k'))).
  assert (okR r r1) as Hr1.
  { intros [N1 N2 N3 N4 N5 N6 N7 N8]. split; [done|]. split; try done. by intros ? [= <-]. }
  change (kept_by okR r (if b then EngineImpl.establish_leader else mret tt) r1). destruct b; [|by apply kept_ret].
  intros a r' Hest. etrans; [exact Hr1|]. eapply ok_establish_leader; [|exact Hest]. intros ? [= <-]. by split; [|apply Hwon].
Qed.
End election.

#[export] Hint Resolve ok_elect ok_initialize ok_handle_vote_resp : keeps.
