(* ===== verification/CoreState.v ===== *)
(** * The state of the runtime and its messages (openraft/src/core/)

    [Core] is the struct [RaftCore] (openraft/src/core/raft_core.rs): the engine with its clock, the
    clients waiting for entries to be applied, the handles of the replication and heartbeat tasks,
    and the two channels it receives from.  Each channel is the list of the messages in it.  What
    [RaftCore] does to the outside (the log store, the state machine worker, RPCs, replies) is the
    list [out] of effects, in order.  The log store is implemented by the application: its [n]-th
    operation fails when [store_fault n] is an error.  The errors are those of error.rs and
    storage_error.rs, the messages those of core/notification.rs, core/raft_msg/ and
    core/sm/response.rs. *)

From S2P Require Export EngineImpl.

(** ** Errors of the API *)
Inductive ClientWriteError {C : RaftTypeConfig} :=
| CWE_ForwardToLeader (e : ForwardToLeader)
| CWE_ChangeMembershipError (e : ChangeMembershipError).

Inductive CheckIsLeaderError {C : RaftTypeConfig} :=
| CIL_ForwardToLeader (e : ForwardToLeader)
| CIL_QuorumNotEnough (cluster : Membership) (got : gset NodeId).

Inductive AllowNextRevertError {C : RaftTypeConfig} :=
| ANR_NodeNotFound (e : NodeNotFound)
| ANR_ForwardToLeader (e : ForwardToLeader).

(** ** Messages *)
Record ApplyingEntry {C : RaftTypeConfig} := { ae_log_id : LogId; ae_membership : option Membership }.
Definition ApplyingEntry_new {C : RaftTypeConfig} (log_id : LogId) (m : option Membership) : ApplyingEntry :=
  {| ae_log_id := log_id; ae_membership := m |}.

Record ApplyResult {C : RaftTypeConfig} := {
  since : N;
  end_ : N;
  last_applied : LogId;
  applying_entries : list ApplyingEntry;
  apply_results : list R;
}.

Record ClientWriteResponse {C : RaftTypeConfig} := {
  cw_log_id : LogId;
  cw_data : R;
  cw_membership : option Membership;
}.
Notation ClientWriteResult := (Result ClientWriteResponse ClientWriteError) (only parsing).

Inductive SmResponse {C : RaftTypeConfig} :=
| Resp_BuildSnapshot (meta : SnapshotMeta)
| Resp_InstallSnapshot (io_id : IOId) (meta : option SnapshotMeta)
| Resp_Apply (res : ApplyResult).

Notation CommandResult := (Result SmResponse StorageError) (only parsing).

(** [replication::Progress] *)
Record ReplProgress {C : RaftTypeConfig} := {
  repl_target : NodeId;
  repl_result : Result ReplicationResult string;
  repl_session_id : ReplicationSessionId;
}.

Inductive Notification {C : RaftTypeConfig} :=
| N_VoteResponse (target : NodeId) (resp : VoteResponse) (candidate_vote : NonCommittedVote)
| N_HigherVote (target : NodeId) (higher : Vote) (leader_vote : CommittedVote)
| N_StorageError (error : StorageError)
| N_LocalIO (io_id : IOId)
| N_ReplicationProgress (progress : ReplProgress)
| N_HeartbeatProgress (session_id : ReplicationSessionId) (sending_time : Instant) (target : NodeId)
| N_StateMachine (command_result : CommandResult)
| N_Tick (i : N).

Inductive ExternalCommand {C : RaftTypeConfig} :=
| EC_Elect
| EC_Heartbeat
| EC_Snapshot
| EC_GetSnapshot (tx : Tx)
| EC_PurgeLog (upto : N)
| EC_TriggerTransferLeader (to : NodeId)
| EC_AllowNextRevert (to : NodeId) (allow : bool) (tx : Tx)
| EC_StateMachineCommand (sm_cmd : SmCommand).

(** A closure to run on the state, in [ExternalCoreRequest], is its number. *)
Inductive RaftMsg {C : RaftTypeConfig} :=
| Msg_AppendEntries (rpc : AppendEntriesRequest) (tx : Tx)
| Msg_RequestVote (rpc : VoteRequest) (tx : Tx)
| Msg_InstallFullSnapshot (vote : Vote) (snapshot : Snapshot) (tx : Tx)
| Msg_BeginReceivingSnapshot (tx : Tx)
| Msg_ClientWriteRequest (app_data : D) (tx : Tx)
| Msg_CheckIsLeaderRequest (tx : Tx)
| Msg_Initialize (members : gmap NodeId Node) (tx : Tx)
| Msg_ChangeMembership (changes : ChangeMembers) (retain : bool) (tx : Tx)
| Msg_ExternalCoreRequest (req : N)
| Msg_HandleTransferLeader (from : Vote) (to : NodeId)
| Msg_ExternalCommand (cmd : ExternalCommand).

(** ** Heartbeats (core/heartbeat/) *)
Record HeartbeatEvent {C : RaftTypeConfig} := {
  hb_time : Instant;
  hb_session_id : ReplicationSessionId;
  hb_committed : option LogId;
}.
Definition HeartbeatEvent_new {C : RaftTypeConfig} (time : Instant) (session_id : ReplicationSessionId)
    (committed : option LogId) : HeartbeatEvent :=
  {| hb_time := time; hb_session_id := session_id; hb_committed := committed |}.

(** The handle: the value of the watch channel the workers read, and the running workers. *)
Record HeartbeatWorkersHandle {C : RaftTypeConfig} := {
  hb_watch : option HeartbeatEvent;
  hb_workers : gmap NodeId Node;
}.

Module Heartbeat.
Section ops.
Context {C : RaftTypeConfig}.

Definition new : HeartbeatWorkersHandle := {| hb_watch := None; hb_workers := ∅ |}.
Definition broadcast (h : HeartbeatWorkersHandle) (event : HeartbeatEvent) : HeartbeatWorkersHandle :=
  {| hb_watch := Some event; hb_workers := h.(hb_workers) |}.
Definition spawn_workers (h : HeartbeatWorkersHandle) (targets : list (NodeId * Node)) : HeartbeatWorkersHandle :=
  {| hb_watch := h.(hb_watch);
     hb_workers := foldl (λ ws '(target, node), <[target := node]> ws) h.(hb_workers) targets |}.
Definition shutdown (h : HeartbeatWorkersHandle) : HeartbeatWorkersHandle :=
  {| hb_watch := h.(hb_watch); hb_workers := ∅ |}.

(** One round of a worker after the watched value changed: the request it sends, and what it tells
    [RaftCore] when the request is answered ([responded]) within the timeout. *)
Definition worker_payload (heartbeat : HeartbeatEvent) : AppendEntriesRequest := {|
  areq_vote := session_vote heartbeat.(hb_session_id); areq_prev_log_id := None; areq_entries := [];
  areq_leader_commit := heartbeat.(hb_committed) |}.
Definition worker_round (target : NodeId) (watched : option HeartbeatEvent)
    (responded : AppendEntriesRequest → bool) : list Notification :=
  match watched with
  | None => []
  | Some heartbeat =>
      if responded (worker_payload heartbeat) then
        [N_HeartbeatProgress heartbeat.(hb_session_id) heartbeat.(hb_time) target]
      else []
  end.
End ops.
End Heartbeat.

(** ** The ratio of messages (core/balancer.rs) *)
Record Balancer := { total : N; raft_msg : N }.

Module Balancer.
Definition new (total : N) : Balancer := {| total := total; raft_msg := total / 10 |}.
Definition notification (b : Balancer) : Outcome N := sub_u64 b.(total) b.(raft_msg).
Definition increase_notification (b : Balancer) : Balancer :=
  let r := (b.(raft_msg) * 15 / 16)%N in {| total := b.(total); raft_msg := if (r =? 0)%N then 1%N else r |}.
Definition increase_raft_msg (b : Balancer) : Balancer :=
  let r := (b.(raft_msg) * 17 / 16)%N in
  {| total := b.(total); raft_msg := if (b.(total) / 2 <? r)%N then (b.(total) / 2)%N else r |}.
End Balancer.

(** ** Metrics (metrics/raft_metrics.rs) *)
Record RaftMetrics {C : RaftTypeConfig} := {
  running_state : Result unit Fatal;
  m_id : NodeId;
  current_term : Term;
  m_vote : Vote;
  last_log_index : option N;
  m_last_applied : option LogId;
  m_snapshot : option LogId;
  m_purged : option LogId;
  m_state : ServerState;
  m_current_leader : option NodeId;
  millis_since_quorum_ack : option N;
  last_quorum_acked : option Instant;
  membership_config : StoredMembership;
  m_heartbeat : option (gmap NodeId (option Instant));
  m_replication : option (gmap NodeId (option LogId));
}.

Record RaftDataMetrics {C : RaftTypeConfig} := {
  dm_last_log : option LogId;
  dm_last_applied : option LogId;
  dm_snapshot : option LogId;
  dm_purged : option LogId;
  dm_millis_since_quorum_ack : option N;
  dm_last_quorum_acked : option Instant;
  dm_replication : option (gmap NodeId (option LogId));
  dm_heartbeat : option (gmap NodeId (option Instant));
}.

Record RaftServerMetrics {C : RaftTypeConfig} := {
  sm_id : NodeId;
  sm_vote : Vote;
  sm_state : ServerState;
  sm_current_leader : option NodeId;
  sm_membership_config : StoredMembership;
}.

Definition new_initial {C : RaftTypeConfig} (id : NodeId) : RaftMetrics := {|
  running_state := ROk tt; m_id := id; current_term := 0%N;
  m_vote := from_leader_id (lid_default (CLID := CommittedLeaderId)) false;
  last_log_index := None; m_last_applied := None; m_snapshot := None; m_purged := None; m_state := Follower;
  m_current_leader := None; millis_since_quorum_ack := None; last_quorum_acked := None;
  membership_config := {| stored_log_id := None; stored_membership_ := Membership.default |};
  m_heartbeat := None; m_replication := None |}.

(** ** The state *)
(** Operations on the log store; [append] carries the id its completion reports. *)
Inductive StoreOp {C : RaftTypeConfig} :=
| Store_Append (entries : list Entry) (io_id : IOId)
| Store_SaveVote (vote : Vote)
| Store_Purge (upto : LogId)
| Store_Truncate (since : LogId)
| Store_SaveCommitted (committed : option LogId).

Inductive Rpc {C : RaftTypeConfig} :=
| Rpc_Vote (req : VoteRequest)
| Rpc_TransferLeader (req : TransferLeaderRequest)
| Rpc_AppendEntries (req : AppendEntriesRequest).

(** What the task that waits for the responses to a read captures. *)
Record ReadWait {C : RaftTypeConfig} := {
  w_tx : Tx;
  w_my_vote : Vote;
  w_eff_mem : EffectiveMembership;
  w_resp : option LogId * option LogId;
}.

Inductive Effect {C : RaftTypeConfig} :=
| Eff_Store (op : StoreOp)
| Eff_Sm (cmd : SmCommand)
| Eff_Rpc (target : NodeId) (rpc : Rpc)
| Eff_Respond (resp : Respond)
| Eff_Client (tx : Tx) (res : ClientWriteResult)
| Eff_Read (tx : Tx) (res : Result (option LogId * option LogId) CheckIsLeaderError)
| Eff_SpawnRead (w : ReadWait)
| Eff_Revert (tx : Tx) (res : Result unit AllowNextRevertError)
| Eff_CoreRequest (req : N) (st : RaftState.RaftState).

(** A replication task: what it was spawned with and what was sent to it. *)
Record ReplicationHandle {C : RaftTypeConfig} := {
  rh_session_id : ReplicationSessionId;
  rh_committed : option LogId;
  rh_matching : option LogId;
  rh_inbox : list Replicate;
}.

(** What the runtime does not assign: its configuration and the outside world. *)
Record CoreEnv {C : RaftTypeConfig} := {
  ce_id : NodeId;
  ce_config : Config.Config;
  enable_heartbeat : bool;
  enable_elect : bool;
  store_fault : nat → option StorageError;
  sm_closed : bool;
  api_closed : bool;
  rx_shutdown : bool;
}.

Record Core {C : RaftTypeConfig} := {
  env : CoreEnv;
  rt : Rt;
  client_resp_channels : gmap N Tx;
  replications : gmap NodeId ReplicationHandle;
  heartbeat_handle : HeartbeatWorkersHandle;
  rx_api : list RaftMsg;
  rx_notification : list Notification;
  tx_metrics : RaftMetrics;
  tx_data_metrics : RaftDataMetrics;
  tx_server_metrics : RaftServerMetrics;
  store_calls : nat;
  out : list Effect;
}.

Section setters.
Context {C : RaftTypeConfig}.
Implicit Types c : Core.

Definition set_env c x : Core := {| env := x; rt := c.(rt); client_resp_channels := c.(client_resp_channels);
  replications := c.(replications); heartbeat_handle := c.(heartbeat_handle); rx_api := c.(rx_api);
  rx_notification := c.(rx_notification); tx_metrics := c.(tx_metrics); tx_data_metrics := c.(tx_data_metrics);
  tx_server_metrics := c.(tx_server_metrics); store_calls := c.(store_calls); out := c.(out) |}.
Definition set_rt c x : Core := {| env := c.(env); rt := x; client_resp_channels := c.(client_resp_channels);
  replications := c.(replications); heartbeat_handle := c.(heartbeat_handle); rx_api := c.(rx_api);
  rx_notification := c.(rx_notification); tx_metrics := c.(tx_metrics); tx_data_metrics := c.(tx_data_metrics);
  tx_server_metrics := c.(tx_server_metrics); store_calls := c.(store_calls); out := c.(out) |}.
Definition set_clients c x : Core := {| env := c.(env); rt := c.(rt); client_resp_channels := x;
  replications := c.(replications); heartbeat_handle := c.(heartbeat_handle); rx_api := c.(rx_api);
  rx_notification := c.(rx_notification); tx_metrics := c.(tx_metrics); tx_data_metrics := c.(tx_data_metrics);
  tx_server_metrics := c.(tx_server_metrics); store_calls := c.(store_calls); out := c.(out) |}.
Definition set_replications c x : Core := {| env := c.(env); rt := c.(rt);
  client_resp_channels := c.(client_resp_channels);
  replications := x; heartbeat_handle := c.(heartbeat_handle); rx_api := c.(rx_api);
  rx_notification := c.(rx_notification); tx_metrics := c.(tx_metrics); tx_data_metrics := c.(tx_data_metrics);
  tx_server_metrics := c.(tx_server_metrics); store_calls := c.(store_calls); out := c.(out) |}.
Definition set_heartbeat c x : Core := {| env := c.(env); rt := c.(rt);
  client_resp_channels := c.(client_resp_channels);
  replications := c.(replications); heartbeat_handle := x; rx_api := c.(rx_api);
  rx_notification := c.(rx_notification); tx_metrics := c.(tx_metrics); tx_data_metrics := c.(tx_data_metrics);
  tx_server_metrics := c.(tx_server_metrics); store_calls := c.(store_calls); out := c.(out) |}.
Definition set_rx_api c x : Core := {| env := c.(env); rt := c.(rt);
  client_resp_channels := c.(client_resp_channels);
  replications := c.(replications); heartbeat_handle := c.(heartbeat_handle); rx_api := x;
  rx_notification := c.(rx_notification); tx_metrics := c.(tx_metrics); tx_data_metrics := c.(tx_data_metrics);
  tx_server_metrics := c.(tx_server_metrics); store_calls := c.(store_calls); out := c.(out) |}.
Definition set_rx_notification c x : Core := {| env := c.(env); rt := c.(rt);
  client_resp_channels := c.(client_resp_channels);
  replications := c.(replications); heartbeat_handle := c.(heartbeat_handle); rx_api := c.(rx_api);
  rx_notification := x; tx_metrics := c.(tx_metrics); tx_data_metrics := c.(tx_data_metrics);
  tx_server_metrics := c.(tx_server_metrics); store_calls := c.(store_calls); out := c.(out) |}.
Definition set_metrics c m dm sm : Core := {| env := c.(env); rt := c.(rt);
  client_resp_channels := c.(client_resp_channels);
  replications := c.(replications); heartbeat_handle := c.(heartbeat_handle); rx_api := c.(rx_api);
  rx_notification := c.(rx_notification); tx_metrics := m; tx_data_metrics := dm;
  tx_server_metrics := sm; store_calls := c.(store_calls); out := c.(out) |}.
Definition set_store c n x : Core := {| env := c.(env); rt := c.(rt);
  client_resp_channels := c.(client_resp_channels);
  replications := c.(replications); heartbeat_handle := c.(heartbeat_handle); rx_api := c.(rx_api);
  rx_notification := c.(rx_notification); tx_metrics := c.(tx_metrics); tx_data_metrics := c.(tx_data_metrics);
  tx_server_metrics := c.(tx_server_metrics); store_calls := n; out := x |}.
End setters.

(** ** The monad of the runtime *)
Definition CM {C : RaftTypeConfig} (A : Type) : Type := ST Core A.

Section monad.
Context {C : RaftTypeConfig}.

(** Running a piece of the engine. *)
Definition engine {A} (m : M A) : CM A := λ c,
  match m c.(rt) with Done (a, r) => Done (a, set_rt c r) | Panic w => Panic w end.

Definition emit (e : Effect) : CM unit := st_modify (λ c, set_store c c.(store_calls) (c.(out) ++ [e])).

(** [self.tx_notification.send(n)] *)
Definition notify (n : Notification) : CM unit :=
  st_modify (λ c, set_rx_notification c (c.(rx_notification) ++ [n])).

(** [self.log_store.op().await] *)
Definition store (op : StoreOp) : CM (Result unit StorageError) := λ c,
  match c.(env).(store_fault) c.(store_calls) with
  | Some e => Done (RErr e, set_store c (S c.(store_calls)) c.(out))
  | None => Done (ROk tt, set_store c (S c.(store_calls)) (c.(out) ++ [Eff_Store op]))
  end.

(** [self.sm_handle.send(cmd)]: fails when the worker has quit. *)
Definition sm_send (cmd : SmCommand) : CM bool :=
  c ← st_get;
  if c.(env).(sm_closed) then mret false else _ ← emit (Eff_Sm cmd); mret true.

(** Updating the io state of the engine. *)
Definition modify_io (f : IOState → Outcome IOState) : M unit :=
  s ← get_state; io ← lift (f s.(RaftState.io_state)); put_state (RaftState.set_io_state s io).
Definition io_submit (io_id : IOId) : M unit :=
  modify_io (λ io, p ← IOProgress.submit IOId.le io.(io_progress) io_id; Done (IOState.set_io_progress io p)).
Definition io_flush (io_id : IOId) : M unit :=
  modify_io (λ io, p ← IOProgress.flush IOId.le io.(io_progress) io_id; Done (IOState.set_io_progress io p)).
End monad.

(** The entries of a [BTreeMap] in the order of its keys. *)
Definition key_le {A} (a b : N * A) : Prop := (a.1 ≤ b.1)%N.
#[global] Instance key_le_dec {A} : RelDecision (key_le (A := A)).
Proof. rw /RelDecision /key_le. solve_decision. Defined.
Definition btree_entries {A} (m : gmap N A) : list (N * A) := merge_sort key_le (map_to_list m).

(** ** A runtime for the witnesses: node [id] of the fixture of [EngineBase] *)
Section ut.
Context {C : RaftTypeConfig}.

Definition ut_core_config : Config.Config := {|
  Config.cluster_name := "foo"; Config.election_timeout_min := 150; Config.election_timeout_max := 300;
  Config.heartbeat_interval := 50; Config.install_snapshot_timeout := 200; Config.send_snapshot_timeout := 0;
  Config.max_payload_entries := 300; Config.replication_lag_threshold := 5000;
  Config.snapshot_policy := LogsSinceLast 5000; Config.snapshot_max_chunk_size := 3145728;
  Config.max_in_snapshot_log_to_keep := 1000; Config.purge_batch_size := 1; Config.enable_tick := true;
  Config.enable_heartbeat := true; Config.enable_elect := true; Config.allow_log_reversion := None |}.

Definition ut_env (id : NodeId) : CoreEnv := {|
  ce_id := id; ce_config := ut_core_config; enable_heartbeat := true; enable_elect := true;
  store_fault := λ _, None; sm_closed := false; api_closed := false; rx_shutdown := false |}.

Definition core_at (id : NodeId) (r : Rt) : Core :=
  let m := new_initial id in {|
  env := ut_env id; rt := r; client_resp_channels := ∅; replications := ∅; heartbeat_handle := Heartbeat.new;
  rx_api := []; rx_notification := []; tx_metrics := m;
  tx_data_metrics := {| dm_last_log := None; dm_last_applied := None; dm_snapshot := None; dm_purged := None;
    dm_millis_since_quorum_ack := None; dm_last_quorum_acked := None; dm_replication := None; dm_heartbeat := None |};
  tx_server_metrics := {| sm_id := id; sm_vote := m.(m_vote); sm_state := Follower; sm_current_leader := None;
    sm_membership_config := m.(membership_config) |};
  store_calls := 0; out := [] |}.
End ut.

Definition ut_core (id : NodeId) : Core (C := UTConfig) := core_at id (ut_rt id).
