(* ===== verification/RaftCore.v ===== *)
(** * The runtime (openraft/src/core/raft_core.rs)

    The methods of [RaftCore]: the handlers of API messages and of internal notifications, which
    run the engine and output commands; [run_command] and [run_engine_commands], which execute the
    commands in order and put back one whose condition is not met; the metrics; and one round of
    the main loop.  A method that returns a storage or fatal error returns [RErr]. *)

From S2P Require Export CoreState.

Module RaftCore.
Section ops.
Context {C : RaftTypeConfig}.
Implicit Types c : Core.

Definition get_core_state : CM RaftState.RaftState := engine get_state.
Definition effective : CM EffectiveMembership :=
  s ← get_core_state; mret s.(RaftState.membership_state).(ms_effective).
Definition get_id : CM NodeId := st_gets (λ c, c.(env).(ce_id)).

(** ** Reads: [handle_check_is_leader_request] *)
(** The task: the responses in the order they return, [None] for a failed or late one.  The result
    is what is sent to [RaftCore] and to the caller. *)
Fixpoint waiting_fu (w : ReadWait) (granted : gset NodeId) (pending : list (option (NodeId * AppendEntriesResponse))) :
    Outcome (list Notification * Result (option LogId * option LogId) CheckIsLeaderError) :=
  match pending with
  | [] => Done ([], RErr (CIL_QuorumNotEnough (EffectiveMembership.membership w.(w_eff_mem)) granted))
  | None :: pending => waiting_fu w granted pending
  | Some (target, HigherVote vote) :: _ =>
      gt ← ref_vote_gt (as_ref_vote vote) (as_ref_vote w.(w_my_vote));
      _ ← assert_ gt "committed vote has total order relation with other votes";
      Done ([N_HigherVote target vote (to_committed w.(w_my_vote))], RErr (CIL_ForwardToLeader ForwardToLeader_empty))
  | Some (target, _) :: pending =>
      let granted := {[target]} ∪ granted in
      if is_quorum w.(w_eff_mem).(em_quorum_set) (btree_iter granted) then Done ([], ROk w.(w_resp))
      else waiting_fu w granted pending
  end.

(** The synchronous part, which may spawn that task. *)
Definition handle_check_is_leader_request (tx : Tx) : CM unit :=
  l ← engine EngineImpl.leader_handler;
  match l with
  | RErr forward => emit (Eff_Read tx (RErr (CIL_ForwardToLeader forward)))
  | ROk _ =>
      read_log_id ← engine LeaderHandler.get_read_log_id;
      s ← get_core_state;
      let resp := (read_log_id, Config.io_applied s) in
      my_id ← get_id;
      let my_vote := RaftState.vote_ref s in
      let eff_mem := s.(RaftState.membership_state).(ms_effective) in
      if is_quorum eff_mem.(em_quorum_set) [my_id] then emit (Eff_Read tx (ROk resp))
      else
        l ← engine get_leader;
        let voter_progresses :=
          filter (λ '(id, _), Progress.is_voter l.(Leader.progress) id = Some true)
            l.(Leader.progress).(vector) in
        _ ← st_for voter_progresses (λ '(target, progress),
              if (target =? my_id)%N then mret tt
              else
                let rpc := {| areq_vote := my_vote; areq_prev_log_id := progress.(matching);
                              areq_entries := []; areq_leader_commit := s.(RaftState.committed) |} in
                _ ← lift (unwrap (EffectiveMembership.get_node eff_mem target) "target is in membership");
                emit (Eff_Rpc target (Rpc_AppendEntries rpc)));
        emit (Eff_SpawnRead {| w_tx := tx; w_my_vote := my_vote; w_eff_mem := eff_mem; w_resp := resp |})
  end.

(** ** Writes *)
Definition write_entry (entry : Entry) (resp_tx : option Tx) : CM unit :=
  lh ← engine (EngineImpl.get_leader_handler_or_reject resp_tx);
  match lh with
  | None => mret tt
  | Some tx =>
      l ← engine get_leader;
      match Leader.get_transfer_to l with
      | Some to =>
          match tx with
          | Some tx =>
              s ← get_core_state;
              emit (Eff_Client tx (RErr (CWE_ForwardToLeader (RaftState.new_forward_to_leader s to))))
          | None => mret tt
          end
      | None =>
          _ ← engine (LeaderHandler.leader_append_entries [entry]);
          s ← get_core_state;
          last ← lift (unwrap (last_log_id s) "called `Option::unwrap()` on a `None` value");
          match tx with
          | Some tx => st_modify (λ c, set_clients c (<[last.(LogId.index) := tx]> c.(client_resp_channels)))
          | None => mret tt
          end
      end
  end.

Definition change_membership (changes : ChangeMembers) (retain : bool) (tx : Tx) : CM unit :=
  s ← get_core_state;
  match ChangeHandler.apply s.(RaftState.membership_state) changes retain with
  | RErr e => emit (Eff_Client tx (RErr (CWE_ChangeMembershipError e)))
  | ROk new_membership => write_entry (Entry.new_membership LogId_default new_membership) (Some tx)
  end.

Definition send_heartbeat : CM bool :=
  lh ← engine (EngineImpl.get_leader_handler_or_reject None);
  match lh with
  | None => mret false
  | Some _ =>
      l ← engine get_leader;
      match Leader.get_transfer_to l with
      | Some _ => mret false
      | None => _ ← engine LeaderHandler.send_heartbeat; mret true
      end
  end.

(** ** Metrics *)
Definition last_quorum_acked_time : M (option Instant) :=
  e ← get_engine;
  match e.(Engine.leader) with
  | None => mret None
  | Some l =>
      t ← now;
      '(acked, l) ← lift (Leader.last_quorum_acked_time t l);
      _ ← put_leader (Some l);
      mret acked
  end.

Definition current_leader (s : RaftState.RaftState) : Outcome (option NodeId) :=
  let vote := RaftState.vote_ref s in
  if negb (is_committed vote) then Done None
  else
    id ← unwrap (lid_node_id (CLID := CommittedLeaderId) vote.(vote_leader_id)) "unwrap";
    Done (if EffectiveMembership.is_voter s.(RaftState.membership_state).(ms_effective) id then Some id else None).

Definition get_leader_node (s : RaftState.RaftState) (leader_id : option NodeId) : option Node :=
  leader_id ← leader_id;
  EffectiveMembership.get_node s.(RaftState.membership_state).(ms_effective) leader_id.

(** [iter().map(..).collect::<BTreeMap>()] *)
Definition collect {A B} (f : A → B) (l : list (NodeId * A)) : gmap NodeId B :=
  foldl (λ m '(id, a), <[id := f a]> m) ∅ l.

Definition report_metrics (replication : option (gmap NodeId (option LogId)))
    (heartbeat : option (gmap NodeId (option Instant))) : CM unit :=
  acked ← engine last_quorum_acked_time;
  millis ← (match acked with
            | None => mret None
            | Some t => n ← engine now; mret (Some (saturating_sub n t))
            end);
  st ← get_core_state;
  id ← get_id;
  current_leader ← lift (current_leader st);
  let membership_config := (st.(RaftState.membership_state).(ms_effective)).(stored_membership) in
  let vote := from_option IOId.to_vote (from_leader_id (lid_default (CLID := CommittedLeaderId)) false)
                st.(RaftState.io_state).(io_progress).(flushed) in
  let m := {| running_state := ROk tt; m_id := id; current_term := vote_term (RaftState.vote_ref st);
              m_vote := vote; last_log_index := LogId.index <$> last_log_id st;
              m_last_applied := Config.io_applied st; m_snapshot := io_snapshot_last_log_id st;
              m_purged := io_purged st; m_state := st.(RaftState.server_state);
              m_current_leader := current_leader; millis_since_quorum_ack := millis;
              last_quorum_acked := acked; membership_config := membership_config;
              m_heartbeat := heartbeat; m_replication := replication |} in
  let dm := {| dm_last_log := last_log_id st; dm_last_applied := Config.io_applied st;
               dm_snapshot := io_snapshot_last_log_id st; dm_purged := io_purged st;
               dm_millis_since_quorum_ack := millis; dm_last_quorum_acked := acked;
               dm_replication := replication; dm_heartbeat := heartbeat |} in
  let sm := {| sm_id := id; sm_vote := vote; sm_state := st.(RaftState.server_state);
               sm_current_leader := current_leader; sm_membership_config := membership_config |} in
  st_modify (λ c, set_metrics c m dm sm).

Definition flush_metrics : CM unit :=
  e ← engine get_engine;
  match e.(Engine.leader) with
  | Some leader =>
      report_metrics (Some (collect matching leader.(Leader.progress).(vector)))
        (Some (collect (λ t, t) leader.(Leader.clock_progress).(vector)))
  | None => report_metrics None None
  end.

(** ** Requests *)
Definition handle_initialize (member_nodes : gmap NodeId Node) (tx : Tx) : CM unit :=
  let membership := Membership.from_nodes member_nodes in
  let entry := Entry.new_membership LogId_default membership in
  res ← engine (EngineImpl.initialize entry);
  s ← get_core_state;
  let condition := if is_ok res then Some (LogFlushed (last_log_id s)) else None in
  engine (push_command (RespondCmd condition (Respond_Initialize res tx))).

Definition trigger_snapshot : CM unit := _ ← engine SnapshotHandler.trigger_snapshot; mret tt.

Definition handle_vote_request (req : VoteRequest) (tx : Tx) : CM unit :=
  resp ← engine (EngineImpl.handle_vote_req req);
  s ← get_core_state;
  engine (push_command (RespondCmd (Some (IOFlushed (IOId.new (RaftState.vote_ref s)))) (Respond_Vote resp tx))).

Definition handle_append_entries_request (req : AppendEntriesRequest) (tx : Tx) : CM unit :=
  is_ok ← engine (EngineImpl.handle_append_entries req.(areq_vote) req.(areq_prev_log_id) req.(areq_entries) (Some tx));
  if (is_ok : bool) then engine (EngineImpl.handle_commit_entries req.(areq_leader_commit)) else mret tt.

(** ** Applied entries *)
Definition send_response (entry : ApplyingEntry) (resp : R) (tx : option Tx) : CM unit :=
  match tx with
  | None => mret tt
  | Some tx => emit (Eff_Client tx (ROk {| cw_log_id := entry.(ae_log_id); cw_data := resp;
                                           cw_membership := entry.(ae_membership) |}))
  end.

(** [for log_index in since..end]: [n] indexes are left. *)
Fixpoint apply_result_loop (n : nat) (log_index : N) (applying_entries : list ApplyingEntry) (results : list R) :
    CM unit :=
  match n with
  | O => mret tt
  | S n =>
      '(ent, applying_entries) ← lift (unwrap (match applying_entries with e :: es => Some (e, es) | [] => None end) "unwrap");
      '(apply_res, results) ← lift (unwrap (match results with x :: xs => Some (x, xs) | [] => None end) "unwrap");
      c ← st_get;
      let tx := c.(client_resp_channels) !! log_index in
      _ ← st_modify (λ c, set_clients c (delete log_index c.(client_resp_channels)));
      _ ← send_response ent apply_res tx;
      apply_result_loop n (log_index + 1) applying_entries results
  end.

Definition handle_apply_result (res : ApplyResult) : CM unit :=
  apply_result_loop (N.to_nat (res.(end_) - res.(since))) res.(since) res.(applying_entries) res.(apply_results).

(** ** Tasks *)
Definition spawn_replication_stream (target : NodeId) (progress_entry : ProgressEntry) : CM ReplicationHandle :=
  eff ← effective;
  _ ← lift (unwrap (EffectiveMembership.get_node eff target) "target must be in membership");
  leader ← engine get_leader;
  s ← get_core_state;
  mret {| rh_session_id := ReplicationSessionId_new leader.(Leader.committed_vote) (EffectiveMembership.log_id eff);
          rh_committed := s.(RaftState.committed); rh_matching := progress_entry.(matching); rh_inbox := [] |}.

Definition remove_all_replication : CM unit :=
  st_modify (λ c, set_replications (set_heartbeat c (Heartbeat.shutdown c.(heartbeat_handle))) ∅).

(** [let _ = node.tx_repl.send(req)] *)
Definition send_repl (req : Replicate) (h : ReplicationHandle) : ReplicationHandle :=
  {| rh_session_id := h.(rh_session_id); rh_committed := h.(rh_committed); rh_matching := h.(rh_matching);
     rh_inbox := h.(rh_inbox) ++ [req] |}.

Definition spawn_parallel_vote_requests (vote_req : VoteRequest) : CM unit :=
  eff ← effective;
  my_id ← get_id;
  st_for (EffectiveMembership.voter_ids eff) (λ target,
    if (target =? my_id)%N then mret tt
    else
      _ ← lift (unwrap (EffectiveMembership.get_node eff target) "target must be in membership");
      emit (Eff_Rpc target (Rpc_Vote vote_req))).

(** The task spawned for a vote request: it reports the response, if one arrives in time. *)
Definition vote_request_task (target : NodeId) (vote_req : VoteRequest) (res : option VoteResponse) : list Notification :=
  match res with
  | Some resp => [N_VoteResponse target resp (to_non_committed vote_req.(vreq_vote))]
  | None => []
  end.

Definition broadcast_transfer_leader (req : TransferLeaderRequest) : CM unit :=
  eff ← effective;
  my_id ← get_id;
  st_for (EffectiveMembership.voter_ids eff) (λ target,
    if (target =? my_id)%N then mret tt
    else
      _ ← lift (unwrap (EffectiveMembership.get_node eff target) "target must be in membership");
      emit (Eff_Rpc target (Rpc_TransferLeader req))).

Definition apply_to_state_machine (first last : LogId) : CM (Result unit StorageError) :=
  _ ← lift (assert_ (first.(LogId.index) <=? last.(LogId.index))%N "first.index should <= last.index");
  ok ← sm_send (SmApply first last);
  mret (if (ok : bool) then ROk tt else RErr (StorageError.apply last "sending on a closed channel")).

(** The error a request is rejected with when another node leads. *)
Definition reject_with_forward_to_leader (s : RaftState.RaftState) : Outcome ForwardToLeader :=
  leader_id ← current_leader s;
  let leader_node := get_leader_node s leader_id in
  Done {| forward_leader_id := match leader_node with None => None | Some _ => leader_id end;
          forward_leader_node := leader_node |}.

(** ** Executing commands *)
(** [a < b] on [Option<IOId>] *)
Definition io_opt_lt (a b : option IOId) : Outcome bool :=
  match a, b with
  | _, None => Done false
  | None, Some _ => Done true
  | Some a, Some b => IOId.lt a b
  end.

(** The condition is not met yet. *)
Definition is_pending (s : RaftState.RaftState) (condition : Condition) : Outcome bool :=
  let io := s.(RaftState.io_state) in
  match condition with
  | IOFlushed io_id => io_opt_lt io.(io_progress).(flushed) (Some io_id)
  | LogFlushed log_id => Done ((io.(io_progress).(flushed) ≫= IOId.last_log_id) ≺? log_id)
  | Applied log_id => Done (Config.io_applied s ≺? log_id)
  | Cond_Snapshot log_id => Done (io.(snapshot) ≺? log_id)
  end.

(** What a command does once its condition is met. *)
Definition execute (cmd : Command) : CM (Result unit StorageError) :=
  match cmd with
  | UpdateIOProgress _ io_id =>
      _ ← engine (io_submit io_id);
      _ ← notify (N_LocalIO io_id);
      mret (ROk tt)
  | AppendInputEntries vote entries =>
      last ← lift (unwrap (list.last entries) "called `Option::unwrap()` on a `None` value");
      let io_id := IOId.new_log_io vote (Some (Entry.log_id last)) in
      _ ← engine (io_submit io_id);
      store (Store_Append entries io_id)
  | SaveVote vote =>
      _ ← engine (io_submit (IOId.new vote));
      _ ←? store (Store_SaveVote vote);
      _ ← notify (N_LocalIO (IOId.new vote));
      match into_vote_status vote with
      | Pending non_committed =>
          id ← get_id;
          _ ← notify (N_VoteResponse id (VoteResponse_new vote None true) non_committed);
          mret (ROk tt)
      | Committed _ => mret (ROk tt)
      end
  | PurgeLog upto =>
      _ ←? store (Store_Purge upto);
      _ ← engine (modify_io (λ io, Done (IOState.update_purged io (Some upto))));
      mret (ROk tt)
  | TruncateLog since =>
      _ ←? store (Store_Truncate since);
      c ← st_get;
      let split_off := λ '(i, _), (since.(LogId.index) ≤ i)%N in
      let removed := filter split_off c.(client_resp_channels) in
      _ ← st_modify (λ c, set_clients c (filter (λ x, ¬ split_off x) c.(client_resp_channels)));
      if bool_decide (removed = ∅) then mret (ROk tt)
      else
        s ← get_core_state;
        leader_id ← lift (current_leader s);
        let leader_node := get_leader_node s leader_id in
        _ ← st_for (btree_entries removed) (λ '(_, tx),
              emit (Eff_Client tx (RErr (CWE_ForwardToLeader
                {| forward_leader_id := leader_id; forward_leader_node := leader_node |}))));
        mret (ROk tt)
  | SendVote vote_req => _ ← spawn_parallel_vote_requests vote_req; mret (ROk tt)
  | ReplicateCommitted committed =>
      _ ← st_modify (λ c, set_replications c (send_repl (Replicate_Committed committed) <$> c.(replications)));
      mret (ROk tt)
  | BroadcastHeartbeat session_id committed =>
      t ← engine now;
      _ ← st_modify (λ c, set_heartbeat c
            (Heartbeat.broadcast c.(heartbeat_handle) (HeartbeatEvent_new t session_id committed)));
      mret (ROk tt)
  | SaveCommitted committed => store (Store_SaveCommitted (Some committed))
  | Apply already_committed upto =>
      s ← get_core_state;
      first ← lift (unwrap (get_log_id s (next_index already_committed)) "called `Option::unwrap()` on a `None` value");
      apply_to_state_machine first upto
  | ReplicateTo target req =>
      c ← st_get;
      node ← lift (unwrap (c.(replications) !! target) "replication to target node exists");
      _ ← st_modify (λ c, set_replications c (<[target := send_repl req node]> c.(replications)));
      mret (ROk tt)
  | BroadcastTransferLeader req => _ ← broadcast_transfer_leader req; mret (ROk tt)
  | RebuildReplicationStreams targets =>
      _ ← remove_all_replication;
      _ ← st_for targets (λ p,
            handle ← spawn_replication_stream p.(rp_target) p.(rp_progress);
            st_modify (λ c, set_replications c (<[p.(rp_target) := handle]> c.(replications))));
      eff ← effective;
      _ ← st_for targets (λ p,
            node ← lift (unwrap (EffectiveMembership.get_node eff p.(rp_target)) "unwrap");
            st_modify (λ c, set_heartbeat c
              (Heartbeat.spawn_workers c.(heartbeat_handle) [(p.(rp_target), node)])));
      mret (ROk tt)
  | StateMachine command =>
      _ ← (match get_submit_io command with Some io_id => engine (io_submit io_id) | None => mret tt end);
      ok ← sm_send command;
      mret (if (ok : bool) then ROk tt else RErr (StorageError.write_state_machine "can not send to sm::Worker"))
  | RespondCmd _ send => _ ← emit (Eff_Respond send); mret (ROk tt)
  end.

(** [run_command]: [Some cmd] when the command has to wait. *)
Definition run_command (cmd : Command) : CM (Result (option Command) StorageError) :=
  s ← get_core_state;
  pending ← lift (match Command.condition cmd with Some c => is_pending s c | None => Done false end);
  if (pending : bool) then mret (ROk (Some cmd))
  else _ ←? execute cmd; mret (ROk None).

Definition pop_command : M (option Command) :=
  e ← get_engine;
  let '(cmd, o) := EngineOutput.pop_command e.(Engine.output) in
  _ ← st_modify (λ r, set_eng r (Engine.set_output r.(eng) o));
  mret cmd.
Definition postpone_command (cmd : Command) : M unit :=
  st_modify (λ r, set_eng r (Engine.set_output r.(eng) (EngineOutput.postpone_command r.(eng).(Engine.output) cmd))).

(** The loop of [run_engine_commands]; a round for each queued command is enough. *)
Fixpoint run_loop (fuel : nat) : CM (Result unit StorageError) :=
  match fuel with
  | O => lift (Panic "out of fuel")
  | S fuel =>
      cmd ← engine pop_command;
      match cmd with
      | None => mret (ROk tt)
      | Some cmd =>
          res ←? run_command cmd;
          match res with
          | Some cmd => _ ← engine (postpone_command cmd); mret (ROk tt)
          | None => run_loop fuel
          end
      end
  end.

Definition run_engine_commands : CM (Result unit StorageError) :=
  e ← engine get_engine;
  run_loop (S (EngineOutput.len e.(Engine.output))).

(** ** API messages *)
Definition handle_external_command (cmd : ExternalCommand) : CM unit :=
  match cmd with
  | EC_Elect =>
      eff ← effective;
      id ← get_id;
      if EffectiveMembership.is_voter eff id then engine EngineImpl.elect else mret tt
  | EC_Heartbeat => _ ← send_heartbeat; mret tt
  | EC_Snapshot => trigger_snapshot
  | EC_GetSnapshot tx => _ ← sm_send (GetSnapshot tx); mret tt
  | EC_PurgeLog upto => engine (EngineImpl.trigger_purge_log upto)
  | EC_TriggerTransferLeader to => engine (EngineImpl.trigger_transfer_leader to)
  | EC_AllowNextRevert to allow tx =>
      l ← engine EngineImpl.leader_handler;
      res ← (match l with
             | ROk _ =>
                 res ← engine (ReplicationHandler.allow_next_revert to allow);
                 mret (match res with ROk x => ROk x | RErr e => RErr (ANR_NodeNotFound e) end)
             | RErr e => mret (RErr (ANR_ForwardToLeader e))
             end);
      emit (Eff_Revert tx res)
  | EC_StateMachineCommand sm_cmd => _ ← sm_send sm_cmd; mret tt
  end.

Definition handle_api_msg (msg : RaftMsg) : CM unit :=
  match msg with
  | Msg_AppendEntries rpc tx => handle_append_entries_request rpc tx
  | Msg_RequestVote rpc tx => _ ← engine now; handle_vote_request rpc tx
  | Msg_BeginReceivingSnapshot tx => engine (EngineImpl.handle_begin_receiving_snapshot tx)
  | Msg_InstallFullSnapshot vote snapshot tx => engine (EngineImpl.handle_install_full_snapshot vote snapshot tx)
  | Msg_CheckIsLeaderRequest tx => handle_check_is_leader_request tx
  | Msg_ClientWriteRequest app_data tx => write_entry (Entry.new_normal LogId_default app_data) (Some tx)
  | Msg_Initialize members tx => handle_initialize members tx
  | Msg_ChangeMembership changes retain tx => change_membership changes retain tx
  | Msg_ExternalCoreRequest req => s ← get_core_state; emit (Eff_CoreRequest req s)
  | Msg_HandleTransferLeader current_leader_vote to =>
      s ← get_core_state;
      if bool_decide (RaftState.vote_ref s = current_leader_vote) then
        _ ← engine (modify_state (λ s, RaftState.set_vote s (Leased.disable_lease s.(RaftState.vote))));
        id ← get_id;
        if (id =? to)%N then engine EngineImpl.elect else mret tt
      else mret tt
  | Msg_ExternalCommand cmd => handle_external_command cmd
  end.

(** ** Stale messages *)
Definition does_candidate_vote_match (e : Engine.Engine) (candidate_vote : NonCommittedVote) : bool :=
  match e.(Engine.candidate) with
  | None => false
  | Some x => bool_decide (candidate_vote.(ncv_leader_id) = x.(Candidate.vote).(vote_leader_id))
  end.

Definition does_leader_vote_match (e : Engine.Engine) (leader_vote : CommittedVote) : bool :=
  match e.(Engine.leader) with
  | None => false
  | Some x => bool_decide (leader_vote = x.(Leader.committed_vote))
  end.

Definition does_replication_session_match (e : Engine.Engine) (session_id : ReplicationSessionId) : bool :=
  if negb (does_leader_vote_match e (session_committed_vote session_id)) then false
  else bool_decide (session_id.(membership_log_id) =
         EffectiveMembership.log_id e.(Engine.state).(RaftState.membership_state).(ms_effective)).

(** ** Notifications *)
Definition handle_tick_election : CM unit :=
  t ← engine now;
  e ← engine get_engine;
  c ← st_get;
  let s := e.(Engine.state) in
  let eff := s.(RaftState.membership_state).(ms_effective) in
  if bool_decide (s.(RaftState.server_state) = Leader_) then mret tt
  else if negb (EffectiveMembership.is_voter eff c.(env).(ce_id)) then mret tt
  else if negb c.(env).(enable_elect) then mret tt
  else
    let timer_config := e.(Engine.config).(EngineConfig.timer_config) in
    let election_timeout :=
      if e.(Engine.seen_greater_log) then
        (timer_config.(TimeState.election_timeout) + timer_config.(TimeState.smaller_log_timeout))%N
      else timer_config.(TimeState.election_timeout) in
    if (length (EffectiveMembership.voter_ids eff) =? 1) ||
       Leased.is_expired s.(RaftState.vote) t election_timeout then
      _ ← engine EngineImpl.reset_greater_log;
      engine EngineImpl.elect
    else mret tt.

Definition handle_tick : CM unit :=
  t ← engine now;
  _ ← handle_tick_election;
  e ← engine get_engine;
  c ← st_get;
  _ ← (match e.(Engine.leader) with
       | Some l =>
           if (l.(Leader.next_heartbeat) <=? t)%N then
             _ ← (if c.(env).(enable_heartbeat) then _ ← send_heartbeat; mret tt else mret tt);
             e ← engine get_engine;
             match e.(Engine.leader) with
             | Some l =>
                 t ← engine now;
                 engine (put_leader (Some (Leader.set_next_heartbeat l
                   (t + c.(env).(ce_config).(Config.heartbeat_interval))%N)))
             | None => mret tt
             end
           else mret tt
       | None => mret tt
       end);
  s ← get_core_state;
  if EffectiveMembership.log_id s.(RaftState.membership_state).(ms_effective) ⪯? Config.io_applied s then
    engine EngineImpl.leader_step_down
  else mret tt.

Definition handle_sm_response (res : SmResponse) : CM unit :=
  match res with
  | Resp_BuildSnapshot meta =>
      let last_log_id := meta.(meta_last_log_id) in
      _ ← engine (EngineImpl.finish_building_snapshot meta);
      engine (modify_io (λ io, IOState.update_snapshot io last_log_id))
  | Resp_InstallSnapshot io_id meta =>
      _ ← engine (io_flush io_id);
      match meta with
      | Some meta =>
          _ ← engine (modify_io (λ io, IOState.update_applied io meta.(meta_last_log_id)));
          engine (modify_io (λ io, IOState.update_snapshot io meta.(meta_last_log_id)))
      | None => mret tt
      end
  | Resp_Apply res =>
      _ ← engine (modify_io (λ io, IOState.update_applied io (Some res.(last_applied))));
      handle_apply_result res
  end.

Definition handle_notification (notify : Notification) : CM (Result unit Fatal) :=
  match notify with
  | N_VoteResponse target resp candidate_vote =>
      _ ← engine now;
      e ← engine get_engine;
      _ ← (if does_candidate_vote_match e candidate_vote then engine (EngineImpl.handle_vote_resp target resp)
           else mret tt);
      mret (ROk tt)
  | N_HigherVote target higher leader_vote =>
      e ← engine get_engine;
      _ ← (if does_leader_vote_match e leader_vote then _ ← engine (VoteHandler.update_vote higher); mret tt
           else mret tt);
      mret (ROk tt)
  | N_Tick i => _ ← handle_tick; mret (ROk tt)
  | N_StorageError error => mret (RErr (Fatal_StorageError error))
  | N_LocalIO io_id =>
      _ ← engine (io_flush io_id);
      match io_id with
      | IOId_Log log_io_id =>
          e ← engine get_engine;
          _ ← (if does_leader_vote_match e log_io_id.(IOState.committed_vote) then
                 engine (ReplicationHandler.update_local_progress log_io_id.(log_id))
               else mret tt);
          mret (ROk tt)
      | IOId_Vote _ => mret (ROk tt)
      end
  | N_ReplicationProgress progress =>
      e ← engine get_engine;
      _ ← (if does_replication_session_match e progress.(repl_session_id) then
             engine (ReplicationHandler.update_progress progress.(repl_target) progress.(repl_result))
           else mret tt);
      mret (ROk tt)
  | N_HeartbeatProgress session_id sending_time target =>
      e ← engine get_engine;
      _ ← (if does_replication_session_match e session_id then
             engine (ReplicationHandler.update_leader_clock target sending_time)
           else mret tt);
      mret (ROk tt)
  | N_StateMachine command_result =>
      match command_result with
      | RErr e => mret (RErr (Fatal_StorageError e))
      | ROk res => _ ← handle_sm_response res; mret (ROk tt)
      end
  end.

(** ** The main loop *)
(** [impl From<StorageError> for Fatal] *)
Definition or_fatal (m : CM (Result unit StorageError)) : CM (Result unit Fatal) :=
  r ← m; mret (match r with ROk x => ROk x | RErr e => RErr (Fatal_StorageError e) end).

(** [process_raft_msg(at_most)] after [i] messages. *)
Fixpoint process_raft_msg_from (n : nat) (i : N) : CM (Result N Fatal) :=
  match n with
  | O => mret (ROk i)
  | S n =>
      c ← st_get;
      match c.(rx_api) with
      | [] => if c.(env).(api_closed) then mret (RErr Fatal_Stopped) else mret (ROk (i + 1)%N)
      | msg :: rest =>
          _ ← st_modify (λ c, set_rx_api c rest);
          _ ← handle_api_msg msg;
          _ ←? or_fatal run_engine_commands;
          process_raft_msg_from n (i + 1)
      end
  end.
Definition process_raft_msg (at_most : N) : CM (Result N Fatal) := process_raft_msg_from (N.to_nat at_most) 0.

(** [RaftCore] holds a sender, so the channel of notifications is never closed. *)
Fixpoint process_notification_from (n : nat) (i : N) : CM (Result N Fatal) :=
  match n with
  | O => mret (ROk i)
  | S n =>
      c ← st_get;
      match c.(rx_notification) with
      | [] => mret (ROk (i + 1)%N)
      | notify :: rest =>
          _ ← st_modify (λ c, set_rx_notification c rest);
          _ ←? handle_notification notify;
          _ ←? or_fatal run_engine_commands;
          process_notification_from n (i + 1)
      end
  end.
Definition process_notification (at_most : N) : CM (Result N Fatal) :=
  process_notification_from (N.to_nat at_most) 0.

(** The [select_biased!] of a round: shutting down first, then notifications, then messages;
    [false] when nothing is ready and the loop sleeps. *)
Definition select : CM (Result bool Fatal) :=
  c ← st_get;
  if c.(env).(rx_shutdown) then mret (RErr Fatal_Stopped)
  else
    match c.(rx_notification), c.(rx_api) with
    | notify :: rest, _ =>
        _ ← st_modify (λ c, set_rx_notification c rest);
        _ ←? handle_notification notify;
        mret (ROk true)
    | [], msg :: rest =>
        _ ← st_modify (λ c, set_rx_api c rest);
        _ ← handle_api_msg msg;
        mret (ROk true)
    | [], [] => if c.(env).(api_closed) then mret (RErr Fatal_Stopped) else mret (ROk false)
    end.

(** The rest of a round: the new balance. *)
Definition process (balancer : Balancer) : CM (Result Balancer Fatal) :=
  _ ←? or_fatal run_engine_commands;
  raft_msg_processed ←? process_raft_msg balancer.(raft_msg);
  at_most ← lift (Balancer.notification balancer);
  notify_processed ←? process_notification at_most;
  let balancer :=
    if (notify_processed =? at_most)%N then Balancer.increase_notification balancer
    else if (raft_msg_processed =? balancer.(raft_msg))%N then Balancer.increase_raft_msg balancer
    else balancer in
  l ← engine EngineImpl.leader_handler;
  _ ← (match l with ROk _ => engine ReplicationHandler.initiate_replication | RErr _ => mret tt end);
  _ ←? or_fatal run_engine_commands;
  mret (ROk balancer).

(** A round of [runtime_loop] with the messages that are there. *)
Definition runtime_round (balancer : Balancer) : CM (Result Balancer Fatal) :=
  _ ← flush_metrics;
  ready ←? select;
  if (ready : bool) then process balancer else mret (ROk balancer).

(** [do_main] until the loop starts. *)
Definition start : CM (Result Balancer Fatal) :=
  _ ← engine EngineImpl.startup;
  _ ←? or_fatal run_engine_commands;
  _ ← report_metrics None None;
  mret (ROk (Balancer.new 10000)).

(** The end of [main]: the metrics say that the node is shut down. *)
Definition finish (err : Fatal) : CM Fatal :=
  _ ← report_metrics None None;
  c ← st_get;
  let curr := c.(tx_metrics) in
  _ ← st_put (set_metrics c {| running_state := RErr err; m_id := curr.(m_id); current_term := curr.(current_term);
              m_vote := curr.(m_vote); last_log_index := curr.(last_log_index);
              m_last_applied := curr.(m_last_applied); m_snapshot := curr.(m_snapshot);
              m_purged := curr.(m_purged); m_state := Shutdown; m_current_leader := curr.(m_current_leader);
              millis_since_quorum_ack := curr.(millis_since_quorum_ack);
              last_quorum_acked := curr.(last_quorum_acked); membership_config := curr.(membership_config);
              m_heartbeat := curr.(m_heartbeat); m_replication := curr.(m_replication) |}
              c.(tx_data_metrics) c.(tx_server_metrics));
  mret err.
End ops.
End RaftCore.
