(* ===== verification/CoreRun.v ===== *)
(** * Runs of the runtime (openraft/src/core/raft_core.rs)

    [step] is what happens to a node: it starts, its loop makes a round, a message or a notification
    arrives, time passes, its environment changes.  [cevolves] lists what every part of the runtime
    keeps; the theorems about runs follow: what a node promised is never taken back, in standard
    mode it gives one vote in a term, and a client is answered at most once. *)

From S2P Require Export Evolves RaftCore.

(** ** What is observed of a node *)
Section observations.
Context {C : RaftTypeConfig}.
Implicit Types c : Core.

Definition core_state c : RaftState.RaftState := state_of c.(rt).
Definition core_vote c : Vote := RaftState.vote_ref (core_state c).

(** The votes a node has given away: with its vote requests, and with its granting replies. *)
Definition eff_votes (e : Effect) : list Vote :=
  match e with
  | Eff_Rpc _ (Rpc_Vote req) => [req.(vreq_vote)]
  | Eff_Respond (Respond_Vote resp _) => if resp.(vote_granted) then [resp.(vresp_vote)] else []
  | _ => []
  end.
Definition votes_sent c : list Vote := c.(out) ≫= eff_votes.
(** ... or is about to give away. *)
Definition given c : list Vote := votes_sent c ++ votes_of (commands_of c.(rt)).

(** The clients of writes that were answered. *)
Definition eff_client (e : Effect) : list Tx := match e with Eff_Client tx _ => [tx] | _ => [] end.
Definition answered c : list Tx := c.(rt).(sent).*1 ++ (c.(out) ≫= eff_client).

(** ... that wait for their entry to be applied, or whose request is in the channel. *)
Definition msg_client (m : RaftMsg) : list Tx :=
  match m with Msg_ClientWriteRequest _ tx | Msg_ChangeMembership _ _ tx => [tx] | _ => [] end.
Definition waiting c : list Tx := (map_to_list c.(client_resp_channels)).*2 ++ (c.(rx_api) ≫= msg_client).
Definition tokens c : list Tx := answered c ++ waiting c.
End observations.

(** ** Running a part of the runtime within a relation *)
Section ckeeps_by.
Context {C : RaftTypeConfig} (R : Core → Core → Prop) `{!PreOrder R}.
Implicit Types c : Core.

Definition ckeeps_by {A} (m : CM A) : Prop := ∀ c a c', m c = Done (a, c') → R c c'.

Lemma ckeeps_ret {A} (a : A) : ckeeps_by (mret a).
Proof. by intros c b c' [= _ <-]. Qed.
Lemma ckeeps_bind {A B} (m : CM A) (k : A → CM B) : ckeeps_by m → (∀ a, ckeeps_by (k a)) → ckeeps_by (m ≫= k).
Proof.
  intros Hm Hk c b c'. rw /mbind /st_bind. destruct (m c) as [[a c1]|] eqn:E; [|done].
  intros Hrun. etrans; [by eapply Hm|by eapply Hk].
Qed.
Lemma ckeeps_try {A B E} (m : CM (Result A E)) (k : A → CM (Result B E)) :
  ckeeps_by m → (∀ a, ckeeps_by (k a)) → ckeeps_by (try_bind m k).
Proof. intros Hm Hk. apply ckeeps_bind; [done|]. intros [a|e]; [done|apply ckeeps_ret]. Qed.
Lemma ckeeps_lift {A} (o : Outcome A) : ckeeps_by (lift o).
Proof. intros c a c'. rw /lift. destruct o; [|done]. by intros [= _ <-]. Qed.
Lemma ckeeps_for {A} (l : list A) body : (∀ x, ckeeps_by (body x)) → ckeeps_by (st_for l body).
Proof. intros Hb. induction l; [apply ckeeps_ret|]. by apply ckeeps_bind. Qed.
Lemma ckeeps_gets {A} (f : Core → A) : ckeeps_by (st_gets f).
Proof. by intros c a c' [= _ <-]. Qed.
Lemma ckeeps_get : ckeeps_by st_get.
Proof. by intros c a c' [= _ <-]. Qed.
End ckeeps_by.

(** What [RaftCore] sent to the state machine worker. *)
Definition eff_moves {C : RaftTypeConfig} (e : Effect) : list Move := match e with Eff_Sm c => sm_moves c | _ => [] end.

(** What a relation on the runtime has to admit for the parts that most handlers are made of to move along
    it: running the engine, and changes and effects that are not observed. *)
Class CoreRel {C : RaftTypeConfig} (R : Core → Core → Prop) : Prop := {
  cr_preorder :: PreOrder R;
  cr_engine {A} (m : M A) : keeps m → ckeeps_by R (engine m);
  cr_gives {A} (m : M A) : (∀ r, post m (λ _ r', ∃ vs, gives vs r r') r) → ckeeps_by R (engine m);
  cr_modify (f : Core → Core) :
    (∀ c, ce_id (env (f c)) = ce_id (env c) ∧ rt (f c) = rt c ∧ client_resp_channels (f c) = client_resp_channels c ∧
          rx_api (f c) = rx_api c ∧ out (f c) = out c) → ckeeps_by R (st_modify f);
  cr_emit e : eff_votes e = [] → eff_client e = [] → eff_moves e = [] → ckeeps_by R (emit e);
  cr_store op : ckeeps_by R (store op);
  cr_notify n : ckeeps_by R (notify n);
}.

(** ** What every part of the runtime keeps *)
Section cevolves.
Context {C : RaftTypeConfig}.
Implicit Types c : Core.

(** [extra]: the clients handed over. *)
Record cevolves (extra : list Tx) c c' : Prop := {
  cv_env : c'.(env).(ce_id) = c.(env).(ce_id);
  cv_config : c'.(rt).(eng).(Engine.config) = c.(rt).(eng).(Engine.config);
  cv_vote : vote_le (core_vote c) (core_vote c');
  cv_committed : (core_state c).(RaftState.committed) ⪯ (core_state c').(RaftState.committed);
  cv_snapshot : snapshot_last_log_id (core_state c) ⪯ snapshot_last_log_id (core_state c');
  cv_clock : (c.(rt).(clock) ≤ c'.(rt).(clock))%N;
  cv_given lo : vote_chain lo (given c) (core_vote c) → vote_chain lo (given c') (core_vote c');
  cv_tokens : tokens c' ⊆+ extra ++ tokens c;
}.

Lemma cevolves_trans xs ys c1 c2 c3 : cevolves xs c1 c2 → cevolves ys c2 c3 → cevolves (ys ++ xs) c1 c3.
Proof.
  intros [] []. split; try congruence; [by eapply vote_le_trans|order|order|lia|by auto|].
  rw -app_assoc. etrans; [eassumption|]. by apply submseteq_skips_l.
Qed.
#[export] Instance cevolves_preorder : PreOrder (cevolves []).
Proof.
  split; [intros c; split; auto using vote_le_refl, ole_refl; lia|].
  intros c1 c2 c3 H1 H2. exact (cevolves_trans [] [] c1 c2 c3 H1 H2).
Qed.

Notation ckeeps := (ckeeps_by (cevolves [])).

(** Running the engine. *)
Lemma cevolves_gives vs c r' :
  gives vs c.(rt) r' → cevolves [] c (set_rt c r').
Proof.
  intros [H1 H2 H3 H4 H5 H6 H7 _]. split; try done; [by eapply vote_chain_le| |].
  - intros lo. rw /given /core_vote /core_state /votes_sent /= H2 app_assoc. intros H. by eapply vote_chain_app.
  - rw /tokens /answered /= H7. done.
Qed.
Lemma ckeeps_engine {A} (m : M A) : keeps m → ckeeps (engine m).
Proof.
  intros Hm c a c'. rw /engine. destruct (m c.(rt)) as [[a' r]|] eqn:E; [|done]. intros [= _ <-].
  eapply cevolves_gives, gives_nil. by eapply Hm.
Qed.
Lemma ckeeps_post {A} (m : M A) :
  (∀ r, post m (λ _ r', ∃ vs, gives vs r r') r) → ckeeps (engine m).
Proof.
  intros Hm c a c'. rw /engine. destruct (m c.(rt)) as [[a' r]|] eqn:E; [|done]. intros [= _ <-].
  destruct (Hm _ _ _ E) as [vs Hg]. by eapply cevolves_gives.
Qed.

(** Changes that are not observed. *)
Lemma ckeeps_modify (f : Core → Core) :
  (∀ c, ce_id (env (f c)) = ce_id (env c) ∧ rt (f c) = rt c ∧ client_resp_channels (f c) = client_resp_channels c ∧
        rx_api (f c) = rx_api c ∧ votes_sent (f c) = votes_sent c ∧ out (f c) ≫= eff_client = out c ≫= eff_client) →
  ckeeps (st_modify f).
Proof.
  intros Hf c a c' [= _ <-]. destruct (Hf c) as (H1 & H2 & H3 & H4 & H5 & H6).
  split; rw /core_vote /core_state ?H2; auto using vote_le_refl, ole_refl.
  - intros lo. by rw /given H2 H5.
  - by rw /tokens /answered /waiting H2 H3 H4 H6.
Qed.
Lemma ckeeps_emit e : eff_votes e = [] → eff_client e = [] → ckeeps (emit e).
Proof.
  intros H1 H2. apply ckeeps_modify. intros c. split_and!; try done; rw /votes_sent /= bind_app.
  - by rw /= H1 !app_nil_r.
  - by rw /= H2 !app_nil_r.
Qed.
Lemma ckeeps_store op : ckeeps (store op).
Proof.
  intros c a c' Hrun. destruct (store_fault (env c) (store_calls c)) eqn:E.
  - apply (ckeeps_modify (λ c, set_store c (S (store_calls c)) (out c)) ltac:(done) c tt).
    revert Hrun. rw /store E. by intros [= _ <-].
  - assert (ckeeps (st_modify (λ c, set_store c (S (store_calls c)) (out c ++ [Eff_Store op])))) as Hk.
    { apply ckeeps_modify. intros c1. split_and!; try done; rw /votes_sent /= bind_app; by rw !app_nil_r. }
    apply (Hk c tt). revert Hrun. rw /store E. by intros [= _ <-].
Qed.
Lemma ckeeps_notify n : ckeeps (notify n).
Proof. by apply ckeeps_modify. Qed.
#[export] Instance cevolves_rel : CoreRel (cevolves []).
Proof.
  split; [apply _|intros ?; apply ckeeps_engine|intros ?; apply ckeeps_post| | |apply ckeeps_store|apply ckeeps_notify].
  - intros f Hf. apply ckeeps_modify. intros c. destruct (Hf c) as (H1 & H2 & H3 & H4 & H5). by rw /votes_sent H5.
  - intros e H1 H2 _. by apply ckeeps_emit.
Qed.
End cevolves.
Notation ckeeps := (ckeeps_by (cevolves [])).

Create HintDb ckeeps discriminated.
#[export] Hint Resolve ckeeps_ret ckeeps_lift ckeeps_gets ckeeps_get ckeeps_store ckeeps_notify cr_store cr_notify
  : ckeeps.
#[export] Hint Extern 0 (PreOrder _) => apply _ : ckeeps.
#[export] Hint Extern 0 (CoreRel _) => apply _ : ckeeps.
#[export] Hint Extern 0 (sm_moves _ = []) => reflexivity : ckeeps.
#[export] Hint Extern 1 (ckeeps_by _ (engine _)) => apply cr_engine; solve [auto with keeps] : ckeeps.
#[export] Hint Extern 1 (ckeeps (emit _)) => apply ckeeps_emit; reflexivity : ckeeps.
#[export] Hint Extern 1 (ckeeps_by _ (emit _)) => apply cr_emit; reflexivity : ckeeps.
#[export] Hint Extern 1 (ckeeps (st_modify _)) => apply ckeeps_modify; done : ckeeps.
#[export] Hint Extern 1 (ckeeps_by _ (st_modify _)) => apply cr_modify; done : ckeeps.

(** Takes a part of the runtime to pieces. *)
Ltac ckeeps_step :=
  lazymatch goal with
  | |- ckeeps_by _ (try_bind _ _) => apply ckeeps_try; [apply _| |intros ?]
  | |- ckeeps_by _ (_ ≫= _) => apply ckeeps_bind; [apply _| |intros ?]
  | |- ckeeps_by _ (st_for _ _) => apply ckeeps_for; [apply _|]; intros ?
  | |- ckeeps_by _ (match ?x with _ => _ end) => destruct x
  | |- ckeeps_by _ (let '_ := ?x in _) => destruct x
  | |- ckeeps_by _ _ => solve [auto with ckeeps]
  end.
Ltac ckeeps_tac := repeat (ckeeps_step; cbn beta iota zeta).

(** *** Operations of the engine that only the runtime uses *)
Section engine_parts.
Context {C : RaftTypeConfig}.

Lemma keeps_get_state : keeps get_state.
Proof. by intros r a r' [= _ <-]. Qed.
Lemma keeps_get_engine : keeps get_engine.
Proof. by intros r a r' [= _ <-]. Qed.
Lemma keeps_modify_io f : keeps (modify_io f).
Proof. rw /modify_io. keeps_tac. Qed.
Lemma keeps_disable_lease :
  keeps (modify_state (λ s, RaftState.set_vote s (Leased.disable_lease s.(RaftState.vote)))).
Proof. keeps_tac. Qed.
#[local] Hint Resolve keeps_get_state keeps_get_engine keeps_modify_io keeps_disable_lease : keeps.
Lemma keeps_io_submit io : keeps (io_submit io).
Proof. apply keeps_modify_io. Qed.
Lemma keeps_io_flush io : keeps (io_flush io).
Proof. apply keeps_modify_io. Qed.
Lemma keeps_get_read_log_id : keeps LeaderHandler.get_read_log_id.
Proof. rw /LeaderHandler.get_read_log_id. keeps_tac. Qed.
Lemma keeps_last_quorum_acked : keeps RaftCore.last_quorum_acked_time.
Proof. rw /RaftCore.last_quorum_acked_time. keeps_tac. Qed.
End engine_parts.
#[export] Hint Resolve keeps_get_state keeps_get_engine keeps_modify_io keeps_disable_lease keeps_io_submit keeps_io_flush
  keeps_get_read_log_id keeps_last_quorum_acked : keeps.

(** *** The parts that every relation of the class admits *)
Section parts.
Context {C : RaftTypeConfig} (R : Core → Core → Prop) `{!CoreRel R}.
Notation kept := (ckeeps_by R).

Lemma ckeeps_elect : kept (engine EngineImpl.elect).
Proof using All. apply cr_gives. intros r a r' Hrun%elect_gives. by eexists. Qed.
Lemma ckeeps_initialize e : kept (engine (EngineImpl.initialize e)).
Proof using All. apply cr_gives, initialize_gives. Qed.
Lemma ckeeps_get_core_state : kept RaftCore.get_core_state.
Proof using All. rw /RaftCore.get_core_state. ckeeps_tac. Qed.
Lemma ckeeps_get_id : kept RaftCore.get_id.
Proof using All. rw /RaftCore.get_id. ckeeps_tac. Qed.
#[local] Hint Resolve ckeeps_elect ckeeps_initialize ckeeps_get_core_state ckeeps_get_id : ckeeps.
Lemma ckeeps_effective : kept RaftCore.effective.
Proof using All. rw /RaftCore.effective. ckeeps_tac. Qed.
Lemma ckeeps_sm_send cmd : sm_moves cmd = [] → kept (sm_send cmd).
Proof using All. intros Hm. rw /sm_send. ckeeps_tac. by apply cr_emit. Qed.
#[local] Hint Resolve ckeeps_effective ckeeps_sm_send : ckeeps.

Lemma ckeeps_check_is_leader tx : kept (RaftCore.handle_check_is_leader_request tx).
Proof using All. rw /RaftCore.handle_check_is_leader_request. ckeeps_tac. Qed.
Lemma ckeeps_send_heartbeat : kept RaftCore.send_heartbeat.
Proof using All. rw /RaftCore.send_heartbeat. ckeeps_tac. Qed.
Lemma ckeeps_report_metrics a b : kept (RaftCore.report_metrics a b).
Proof using All. rw /RaftCore.report_metrics. ckeeps_tac. Qed.
#[local] Hint Resolve ckeeps_check_is_leader ckeeps_send_heartbeat ckeeps_report_metrics : ckeeps.
Lemma ckeeps_flush_metrics : kept RaftCore.flush_metrics.
Proof using All. rw /RaftCore.flush_metrics. ckeeps_tac. Qed.
Lemma ckeeps_handle_append req tx : kept (RaftCore.handle_append_entries_request req tx).
Proof using All. rw /RaftCore.handle_append_entries_request. ckeeps_tac. Qed.
Lemma ckeeps_handle_initialize m tx : kept (RaftCore.handle_initialize m tx).
Proof using All. rw /RaftCore.handle_initialize. ckeeps_tac. Qed.
Lemma ckeeps_trigger_snapshot : kept RaftCore.trigger_snapshot.
Proof using All. rw /RaftCore.trigger_snapshot. ckeeps_tac. Qed.
Lemma ckeeps_spawn_stream t p : kept (RaftCore.spawn_replication_stream t p).
Proof using All. rw /RaftCore.spawn_replication_stream. ckeeps_tac. Qed.
Lemma ckeeps_remove_all : kept RaftCore.remove_all_replication.
Proof using All. rw /RaftCore.remove_all_replication. ckeeps_tac. Qed.
Lemma ckeeps_broadcast_transfer req : kept (RaftCore.broadcast_transfer_leader req).
Proof using All. rw /RaftCore.broadcast_transfer_leader. ckeeps_tac. Qed.
#[local] Hint Resolve ckeeps_flush_metrics ckeeps_handle_append ckeeps_handle_initialize ckeeps_trigger_snapshot
  ckeeps_spawn_stream ckeeps_remove_all ckeeps_broadcast_transfer : ckeeps.
Lemma ckeeps_external_command cmd :
  match cmd with EC_StateMachineCommand c => ckeeps_by R (sm_send c) | _ => True end →
  kept (RaftCore.handle_external_command cmd).
Proof using All. rw /RaftCore.handle_external_command. intros Hc. destruct cmd; ckeeps_tac. Qed.
Lemma ckeeps_tick_election : kept RaftCore.handle_tick_election.
Proof using All. rw /RaftCore.handle_tick_election. ckeeps_tac. Qed.
#[local] Hint Resolve ckeeps_tick_election : ckeeps.
Lemma ckeeps_tick : kept RaftCore.handle_tick.
Proof using All. rw /RaftCore.handle_tick. ckeeps_tac. Qed.
End parts.
#[export] Hint Resolve ckeeps_elect ckeeps_initialize ckeeps_get_core_state ckeeps_get_id ckeeps_effective ckeeps_sm_send
  ckeeps_check_is_leader ckeeps_send_heartbeat ckeeps_report_metrics ckeeps_flush_metrics ckeeps_handle_append
  ckeeps_handle_initialize ckeeps_trigger_snapshot ckeeps_spawn_stream ckeeps_remove_all ckeeps_broadcast_transfer
  ckeeps_tick_election ckeeps_tick : ckeeps.

Section runtime.
Context {C : RaftTypeConfig}.
Implicit Types c : Core.

Lemma ckeeps_sm_send_any cmd : ckeeps (sm_send cmd).
Proof. rw /sm_send. ckeeps_tac. Qed.
#[local] Hint Resolve ckeeps_sm_send_any : ckeeps.
Lemma ckeeps_apply_to_sm a b : ckeeps (RaftCore.apply_to_state_machine a b).
Proof. rw /RaftCore.apply_to_state_machine. ckeeps_tac. Qed.
Lemma ckeeps_any_command cmd : ckeeps (RaftCore.handle_external_command cmd).
Proof. apply ckeeps_external_command; [apply _|]. destruct cmd; try done. apply ckeeps_sm_send_any. Qed.
#[local] Hint Resolve ckeeps_apply_to_sm ckeeps_any_command : ckeeps.

(** *** Vote requests *)
Lemma vote_resp_post req r :
  post (EngineImpl.handle_vote_req req) (λ resp r', resp.(vresp_vote) = RaftState.vote_ref (state_of r')) r.
Proof.
  rw /EngineImpl.handle_vote_req. apply post_bind. intros t r1 H1. injection H1 as <- <-.
  apply post_bind. intros s r1 H1. injection H1 as <- <-.
  destruct (_ && _); [by apply post_ret|]. destruct (negb _); [by apply post_ret|].
  apply post_bind. intros res r2 _. apply post_bind. intros s2 r3 H3. injection H3 as <- <-. by apply post_ret.
Qed.

(** Giving away the present vote. *)
Lemma gives_present cmd r :
  cmd_moves cmd = [] → Forall (λ v, v = RaftState.vote_ref (state_of r)) (cmd_votes cmd) →
  post (push_command cmd) (λ _ r', gives (cmd_votes cmd) r r') r.
Proof.
  intros Hc Hv [] r' [= <-]. split; cbn; auto using ole_refl. all: try lia.
  - change (state_of _) with (state_of r). induction Hv as [|v vs -> _ IH]; [apply vote_le_refl|].
    split; [apply vote_le_refl|done].
  - change (votes_of (commands_of r ++ [cmd]) = votes_of (commands_of r) ++ cmd_votes cmd).
    by rw votes_of_app /votes_of /= app_nil_r.
  - exists []. split; [|done]. change (moves_of (commands_of r ++ [cmd]) = moves_of (commands_of r) ++ []).
    by rw moves_of_app /moves_of /= Hc.
Qed.

Lemma ckeeps_handle_vote_request req tx : ckeeps (RaftCore.handle_vote_request req tx).
Proof.
  intros c a c'. rw /RaftCore.handle_vote_request /RaftCore.get_core_state /engine /mbind /st_bind.
  destruct (EngineImpl.handle_vote_req req (rt c)) as [[resp r1]|] eqn:E; [|done]. cbn. intros [= <- <-].
  set (cmd := RespondCmd _ _).
  assert (gives (cmd_votes cmd) r1 (set_eng r1 (Engine.set_output (eng r1)
    (EngineOutput.push_command (Engine.output (eng r1)) cmd)))) as Hg.
  { eapply (gives_present cmd r1); [done| |done]. rw /cmd /=. apply vote_resp_post in E.
    destruct (vote_granted resp); by repeat constructor. }
  apply keeps_handle_vote_req, gives_nil in E. apply (cevolves_gives _ c _ (gives_trans _ _ _ _ _ E Hg)).
Qed.

(** *** Clients *)
(** [m] may hand over the clients [extra]. *)
Definition ctakes (extra : list Tx) {A} (m : CM A) : Prop := ∀ c a c', m c = Done (a, c') → cevolves extra c c'.

Lemma ctakes_mono extra {A} (m : CM A) : ckeeps m → ctakes extra m.
Proof.
  intros Hm c a c' []%Hm. split; try done. etrans; [eassumption|]. by apply submseteq_inserts_l.
Qed.
Lemma ctakes_bind extra {A B} (m : CM A) (k : A → CM B) :
  ckeeps m → (∀ a, ctakes extra (k a)) → ctakes extra (m ≫= k).
Proof.
  intros Hm Hk c b c'. rw /mbind /st_bind. destruct (m c) as [[a c1]|] eqn:E; [|done]. intros Hrun.
  rw -(app_nil_r extra). eapply cevolves_trans; [by eapply Hm|by eapply Hk].
Qed.

(** Handing the client [tx] over to the answered or the waiting ones. *)
Lemma cevolves_client tx c c' :
  ce_id (env c') = ce_id (env c) → rt c' = rt c → votes_sent c' = votes_sent c → tokens c' ⊆+ tx :: tokens c → cevolves [tx] c c'.
Proof.
  intros H1 H2 H3 H4. split; rw /core_vote /core_state ?H2; auto using vote_le_refl, ole_refl.
  intros lo. by rw /given H2 H3.
Qed.

Lemma ctakes_answer tx res : ctakes [tx] (emit (Eff_Client tx res)).
Proof.
  intros c a c' [= _ <-]. apply cevolves_client; try done.
  - rw /votes_sent /= bind_app /=. by rw !app_nil_r.
  - rw /tokens /answered /waiting /= bind_app /=. solve_submseteq.
Qed.

Lemma clients_insert (m : gmap N Tx) i tx :
  (map_to_list (<[i := tx]> m)).*2 ⊆+ tx :: (map_to_list m).*2.
Proof.
  rw -insert_delete_eq map_to_list_insert ?lookup_delete_eq //=. apply submseteq_skip, fmap_submseteq.
  apply map_to_list_submseteq, delete_subseteq.
Qed.

Lemma ctakes_install i tx : ctakes [tx] (st_modify (λ c : Core, set_clients c (<[i := tx]> c.(client_resp_channels)))).
Proof.
  intros c a c' [= _ <-]. apply cevolves_client; try done.
  rw /tokens /answered /waiting /=. etrans; [apply submseteq_skips_l, submseteq_skips_r, clients_insert|].
  solve_submseteq.
Qed.

(** A client is answered when this node does not lead; otherwise nothing happened. *)
Lemma leader_or_reject tx c a c' :
  engine (EngineImpl.get_leader_handler_or_reject (Some tx)) c = Done (a, c') →
  if a is Some tx' then tx' = Some tx ∧ cevolves [] c c' else cevolves [tx] c c'.
Proof.
  rw /engine /EngineImpl.get_leader_handler_or_reject /mbind /st_bind.
  destruct (EngineImpl.leader_handler (rt c)) as [[res r1]|] eqn:E; [|done].
  apply keeps_leader_handler, gives_nil, (cevolves_gives [] c) in E. destruct res as [u|f]; cbn; intros [= <- <-]; [done|].
  apply (cevolves_trans [] [tx] c (set_rt c r1)); [exact E|].
  split; auto using vote_le_refl, ole_refl.
  rw /tokens /answered /waiting /= fmap_app /=. solve_submseteq.
Qed.

Lemma ctakes_write_entry e tx : ctakes [tx] (RaftCore.write_entry e (Some tx)).
Proof.
  intros c a c' (lh & c1 & E & Hrun)%st_bind_inv. apply leader_or_reject in E.
  destruct lh as [tx'|]; [|by injection Hrun as _ <-]. revert Hrun.
  destruct E as [-> E]. intros Hrun. apply (cevolves_trans [] [tx] _ _ _ E). revert c1 a c' E Hrun.
  assert (∀ (k : CM unit), ctakes [tx] k → ∀ c1 a c', cevolves [] c c1 → k c1 = Done (a, c') → cevolves [tx] c1 c') as Hk.
  { intros k Hk c1 a c' _. apply Hk. }
  apply Hk. apply ctakes_bind; [ckeeps_tac|]. intros l. destruct (Leader.get_transfer_to l).
  - apply ctakes_bind; [ckeeps_tac|]. intros s. apply ctakes_answer.
  - apply ctakes_bind; [ckeeps_tac|]. intros []. apply ctakes_bind; [ckeeps_tac|]. intros s.
    apply ctakes_bind; [ckeeps_tac|]. intros x. apply ctakes_install.
Qed.

Lemma ctakes_change_membership ch retain tx : ctakes [tx] (RaftCore.change_membership ch retain tx).
Proof.
  rw /RaftCore.change_membership. apply ctakes_bind; [ckeeps_tac|]. intros s. destruct (ChangeHandler.apply _ _ _).
  - apply ctakes_write_entry.
  - apply ctakes_answer.
Qed.
#[local] Hint Resolve ckeeps_handle_vote_request : ckeeps.

Lemma ctakes_api_msg msg : ctakes (msg_client msg) (RaftCore.handle_api_msg msg).
Proof.
  destruct msg; cbn [msg_client RaftCore.handle_api_msg]; try (apply ctakes_mono; ckeeps_tac; fail).
  - apply ctakes_write_entry.
  - apply ctakes_change_membership.
Qed.

(** Answering waiting clients. *)
Lemma clients_take (m : gmap N Tx) i tx :
  m !! i = Some tx → tx :: (map_to_list (delete i m)).*2 ≡ₚ (map_to_list m).*2.
Proof. intros Hm. rw -{2}(insert_delete_id _ _ _ Hm) map_to_list_insert ?lookup_delete_eq //=. Qed.

(** Changes of the clients and the effects only, without votes. *)
Lemma cevolves_same c c' :
  ce_id (env c') = ce_id (env c) → rt c' = rt c → votes_sent c' = votes_sent c → tokens c' ⊆+ tokens c → cevolves [] c c'.
Proof.
  intros H1 H2 H3 H4. split; rw /core_vote /core_state ?H2; auto using vote_le_refl, ole_refl.
  intros lo. by rw /given H2 H3.
Qed.

Lemma apply_one_evolves ent res i c c' :
  RaftCore.send_response ent res (c.(client_resp_channels) !! i)
    (set_clients c (delete i c.(client_resp_channels))) = Done (tt, c') → cevolves [] c c'.
Proof.
  destruct (client_resp_channels c !! i) as [tx|] eqn:E; intros [= <-]; apply cevolves_same; try done.
  - rw /votes_sent /= bind_app /=. by rw !app_nil_r.
  - rw /tokens /answered /waiting /= bind_app /= -(clients_take _ _ _ E). solve_submseteq.
  - by rw /tokens /answered /waiting /= delete_id.
Qed.

Lemma ckeeps_apply_loop n i es rs : ckeeps (RaftCore.apply_result_loop n i es rs).
Proof.
  revert i es rs. induction n as [|n IH]; intros i es rs; [apply ckeeps_ret, _|]. cbn [RaftCore.apply_result_loop].
  apply ckeeps_bind; [apply _|ckeeps_tac|]. intros [ent es']. apply ckeeps_bind; [apply _|ckeeps_tac|]. intros [r rs'].
  intros c a c' (c0 & c1 & H & Hrun)%st_bind_inv. injection H as <- <-.
  apply st_bind_inv in Hrun as ([] & c1 & H & Hrun). injection H as <-.
  apply st_bind_inv in Hrun as ([] & c2 & H%apply_one_evolves & Hrun). etrans; [exact H|by eapply IH].
Qed.
Lemma ckeeps_handle_apply_result res : ckeeps (RaftCore.handle_apply_result res).
Proof. apply ckeeps_apply_loop. Qed.
#[local] Hint Resolve ckeeps_handle_apply_result : ckeeps.
Lemma ckeeps_sm_response res : ckeeps (RaftCore.handle_sm_response res).
Proof. rw /RaftCore.handle_sm_response. ckeeps_tac. Qed.
#[local] Hint Resolve ckeeps_sm_response : ckeeps.
Lemma ckeeps_handle_notification n : ckeeps (RaftCore.handle_notification n).
Proof. rw /RaftCore.handle_notification. ckeeps_tac. Qed.
#[local] Hint Resolve ckeeps_handle_notification : ckeeps.

(** *** Commands *)
Lemma set_rt_id c : set_rt c c.(rt) = c.
Proof. by destruct c. Qed.
Lemma get_core_state_run c : RaftCore.get_core_state c = Done (core_state c, c).
Proof. rw /RaftCore.get_core_state /engine. cbn. by rw set_rt_id. Qed.

Lemma for_emit {A} (l : list A) body (f : A → Effect) c :
  (∀ x, body x = emit (f x)) →
  st_for l body c = Done (tt, set_store c c.(store_calls) (c.(out) ++ (f <$> l))).
Proof.
  intros Hb. revert c. induction l as [|x l IH]; intros c; [by destruct c; rw /= app_nil_r|].
  cbn [st_for]. rw Hb. rw (st_bind_run _ _ _ _ _ eq_refl).
  rw IH /=. by rw -app_assoc.
Qed.

Lemma effects_no_votes {A} (l : list A) (f : A → Effect) : (∀ x, eff_votes (f x) = []) → (f <$> l) ≫= eff_votes = [].
Proof. intros Hf. induction l as [|x l IH]; [done|]. by rw fmap_cons bind_cons Hf IH. Qed.
Lemma effects_clients (l : list (N * Tx)) res : ((λ x, Eff_Client x.2 res) <$> l) ≫= eff_client = l.*2.
Proof. induction l as [|x l IH]; [done|]. by rw fmap_cons bind_cons IH. Qed.

Lemma clients_split (m : gmap N Tx) (P : N * Tx → Prop) `{!∀ x, Decision (P x)} :
  map_to_list m ≡ₚ map_to_list (filter P m) ++ map_to_list (filter (λ x, ¬ P x) m).
Proof.
  apply NoDup_Permutation; [apply NoDup_map_to_list| |].
  - apply NoDup_app. split_and!; [apply NoDup_map_to_list| |apply NoDup_map_to_list].
    intros [i tx] H1%elem_of_map_to_list H2%elem_of_map_to_list. rw !map_lookup_filter_Some in H1 H2. naive_solver.
  - intros [i tx]. rw elem_of_app !elem_of_map_to_list !map_lookup_filter_Some. destruct (decide (P (i, tx))); naive_solver.
Qed.

Lemma ckeeps_truncate since : ckeeps (RaftCore.execute (TruncateLog since)).
Proof.
  cbn [RaftCore.execute]. apply ckeeps_try; [apply _|apply ckeeps_store|]. intros [] c a c' (c0 & c1 & H & Hrun)%st_bind_inv.
  injection H as <- <-. set (removed := filter _ _) in Hrun. apply st_bind_inv in Hrun as ([] & c1 & H & Hrun).
  assert (rt c1 = rt c ∧ store_calls c1 = store_calls c ∧ out c1 = out c) as (Hrt & Hcalls & Hout) by by injection H as <-.
  assert ((map_to_list (client_resp_channels c)).*2 ≡ₚ (map_to_list removed).*2 ++ (map_to_list (client_resp_channels c1)).*2)
    as Hsplit by by injection H as <-; rw /removed -fmap_app -clients_split.
  assert (env c1 = env c ∧ rx_api c1 = rx_api c) as [Henv Hrx] by by injection H as <-.
  clear H. case_bool_decide as Hemp.
  { injection Hrun as _ <-. apply cevolves_same; [by rw Henv|done|by rw /votes_sent Hout|].
    rw /tokens /answered /waiting Hout Hrt Hrx Hsplit. solve_submseteq. }
  apply st_bind_inv in Hrun as (s & c2 & H & Hrun). rw get_core_state_run in H. injection H as <- <-.
  apply st_bind_inv in Hrun as (lid & c2 & [_ ->]%lift_inv & Hrun).
  apply st_bind_inv in Hrun as ([] & c2 & H & Hrun). injection Hrun as _ <-.
  erewrite (for_emit _ _ (λ x, Eff_Client x.2 _)) in H; [|by intros [? ?]]. injection H as <-.
  apply cevolves_same; [by rw /= Henv|done|..].
  - by rw /votes_sent /= bind_app Hout effects_no_votes // app_nil_r.
  - rw /tokens /answered /waiting /= bind_app Hout Hrt Hrx Hsplit effects_clients.
    rw /btree_entries [in (merge_sort _ _).*2]merge_sort_Permutation. solve_submseteq.
Qed.

(** The state with the queue [cs] of commands. *)
Definition with_queue c cs : Core :=
  set_rt c (set_eng c.(rt) (Engine.set_output c.(rt).(eng) {| commands := cs |})).

(** [m] only has effects, of the kind [P]. *)
Definition only (P : Effect → Prop) {A} (m : CM A) : Prop := ∀ c a c',
  m c = Done (a, c') → ∃ es, Forall P es ∧ c' = set_store c c.(store_calls) (c.(out) ++ es).
Lemma only_none P {A} (m : CM A) : (∀ c a c', m c = Done (a, c') → c' = c) → only P m.
Proof. intros Hm c a c' ->%Hm. exists []. split; [done|]. destruct c. by rw /= app_nil_r. Qed.
Lemma only_bind P {A B} (m : CM A) (k : A → CM B) : only P m → (∀ a, only P (k a)) → only P (m ≫= k).
Proof.
  intros Hm Hk c b c' (a & c1 & (es1 & H1 & ->)%Hm & (es2 & H2 & ->)%Hk)%st_bind_inv.
  exists (es1 ++ es2). split; [by apply Forall_app|]. by rw /= app_assoc.
Qed.
Lemma only_for P {A} (l : list A) body : (∀ x, only P (body x)) → only P (st_for l body).
Proof.
  intros Hb. induction l; [apply only_none; by intros c a c' [= _ <-]|]. by apply only_bind.
Qed.

Lemma only_vote_requests req :
  only (λ e, eff_votes e = [req.(vreq_vote)] ∧ eff_client e = []) (RaftCore.spawn_parallel_vote_requests req).
Proof.
  rw /RaftCore.spawn_parallel_vote_requests. apply only_bind.
  { apply only_none. rw /RaftCore.effective. intros c a c' (s & c1 & H & H')%st_bind_inv.
    rw get_core_state_run in H. injection H as _ <-. by injection H' as _ <-. }
  intros eff. apply only_bind; [by apply only_none; intros c a c' [= _ <-]|]. intros id. apply only_for. intros t.
  destruct (_ =? _)%N; [by apply only_none; intros c a c' [= _ <-]|].
  apply only_bind; [by apply only_none; intros c a c' [_ ->]%lift_inv|]. intros node c a c' [= _ <-].
  exists [Eff_Rpc t (Rpc_Vote req)]. split; [by repeat constructor|done].
Qed.

Lemma vote_chain_app_inv lo vs ws hi :
  vote_chain lo (vs ++ ws) hi → ∃ mid, vote_chain lo vs mid ∧ vote_chain mid ws hi.
Proof.
  revert lo. induction vs as [|v vs IH]; intros lo; cbn.
  - intros H. exists lo. split; [apply vote_le_refl|done].
  - intros [H1 (mid & H2 & H3)%IH]. by exists mid.
Qed.
Lemma vote_chain_again v ws lo vs hi : Forall (λ w, w = v) ws → vote_chain lo (v :: vs) hi → vote_chain lo (ws ++ vs) hi.
Proof.
  intros Hws [H1 H2]. assert (vote_chain lo ws v) as H3.
  { clear H2. revert lo H1. induction Hws as [|w ws -> _ IH]; intros lo H1; [done|].
    split; [done|]. apply IH, vote_le_refl. }
  by eapply vote_chain_app.
Qed.

(** Executing a command without a vote. *)
Lemma ckeeps_execute cmd : cmd_votes cmd = [] → ckeeps (RaftCore.execute cmd).
Proof.
  destruct cmd; try done; intros Hv; try (cbn [RaftCore.execute]; ckeeps_tac; fail).
  - apply ckeeps_truncate.
  - cbn [RaftCore.execute]. apply ckeeps_bind; [apply _|by apply ckeeps_emit; [|]|]. intros []. ckeeps_tac.
Qed.

(** Executing a command that was taken from the queue. *)
Lemma execute_evolves cmd rest c res c' :
  RaftCore.execute cmd (with_queue c rest) = Done (res, c') → commands_of c.(rt) = cmd :: rest → cevolves [] c c'.
Proof.
  intros Hrun Hq.
  assert (∀ c1, env c1 = env c ∧ rt c1 = rt (with_queue c rest) ∧ tokens c1 ⊆+ tokens c →
    (∀ lo, vote_chain lo (given c) (core_vote c) → vote_chain lo (given c1) (core_vote c)) → cevolves [] c c1) as Hq1.
  { intros c1 (H1 & H2 & H3) H4. split; rw ?H1 /core_vote /core_state ?H2; auto using vote_le_refl, ole_refl. }
  assert (given c = votes_sent c ++ cmd_votes cmd ++ votes_of rest) as Hg.
  { rw /given Hq. done. }
  destruct (decide (cmd_votes cmd = [])) as [Hv|Hv].
  - apply (ckeeps_execute _ Hv) in Hrun. etrans; [|exact Hrun]. apply Hq1; [done|]. intros lo. by rw Hg Hv.
  - assert (∃ es v, Forall (λ e, eff_votes e = [v] ∧ eff_client e = []) es ∧ cmd_votes cmd = [v] ∧
      c' = set_store (with_queue c rest) c.(store_calls) (c.(out) ++ es)) as (es & v & Hes & Hcv & ->).
    { destruct cmd as [| | | | | | | | | |req| | | |when resp]; try done.
      - apply st_bind_inv in Hrun as ([] & c1 & (es & Hes & ->)%only_vote_requests & Hrun). injection Hrun as _ <-.
        by exists es, req.(vreq_vote).
      - apply st_bind_inv in Hrun as ([] & c1 & H & Hrun). injection H as <-. injection Hrun as _ <-.
        destruct resp as [resp tx| | | | |]; try done. revert Hv. cbn. destruct (vote_granted resp) eqn:Hgr; [|done].
        intros _. exists [Eff_Respond (Respond_Vote resp tx)], resp.(vresp_vote). split_and!; try done.
        repeat constructor; try done. by rw /= Hgr. }
    assert (Forall (λ w, w = v) (es ≫= eff_votes) ∧ es ≫= eff_client = []) as [Hws Hcl].
    { clear -Hes. induction Hes as [|e es [H1 H2] _ [IH1 IH2]]; [done|]. rw !bind_cons H1 H2 IH2. by repeat constructor. }
    apply Hq1.
    + split_and!; [done..|]. rw /tokens /answered /waiting /= bind_app Hcl app_nil_r. done.
    + intros lo. rw Hg Hcv /given /votes_sent /= bind_app -app_assoc.
      intros (mid & H1 & H2)%vote_chain_app_inv. eapply vote_chain_app; [exact H1|]. by eapply vote_chain_again.
Qed.

(** *** The loop *)
Lemma with_queue_id c : with_queue c (commands_of c.(rt)) = c.
Proof. rw /with_queue /commands_of. by destruct c as [? [[? ? ? ? ? []] ? ? ? ?] ? ? ? ? ? ? ? ? ? ?]. Qed.
Lemma with_queue_twice c cs cs' : with_queue (with_queue c cs) cs' = with_queue c cs'.
Proof. done. Qed.
Lemma pop_command_run c :
  engine RaftCore.pop_command c = match commands_of c.(rt) with
                                  | [] => Done (None, c)
                                  | cmd :: rest => Done (Some cmd, with_queue c rest)
                                  end.
Proof.
  rw -[in RHS](with_queue_id c). rw /engine /RaftCore.pop_command /EngineOutput.pop_command /mbind /st_bind /commands_of. cbn.
  destruct (commands _) as [|cmd rest] eqn:E; [|done]. cbn. rw /with_queue. by destruct (Engine.output _); cbn in E; subst.
Qed.

(** A command is put back, or executed. *)
Lemma run_command_inv cmd c res c' :
  RaftCore.run_command cmd c = Done (res, c') →
  let pending := match Command.condition cmd with Some k => RaftCore.is_pending (core_state c) k | None => Done false end in
  (pending = Done true ∧ res = ROk (Some cmd) ∧ c' = c) ∨
  (pending = Done false ∧ ∃ r, RaftCore.execute cmd c = Done (r, c') ∧
     res = match r with ROk _ => ROk None | RErr e => RErr e end).
Proof.
  intros (s & c1 & H & Hrun)%st_bind_inv. rw get_core_state_run in H. injection H as <- <-.
  apply st_bind_inv in Hrun as (pending & c1 & [Hp ->]%lift_inv & Hrun). cbn zeta. rw Hp. destruct pending.
  - left. by injection Hrun as <- <-.
  - right. split; [done|]. apply st_bind_inv in Hrun as (r & c1 & Hrun & H). exists r.
    destruct r; injection H as <- <-; done.
Qed.

Lemma postpone_run cmd c :
  engine (RaftCore.postpone_command cmd) c = Done (tt, with_queue c (cmd :: commands_of c.(rt))).
Proof. done. Qed.

Lemma ckeeps_run_loop fuel : ckeeps (RaftCore.run_loop fuel).
Proof.
  induction fuel as [|fuel IH]; intros c res c'; [done|]. cbn [RaftCore.run_loop].
  intros (cmd & c1 & Hpop & Hrun)%st_bind_inv. rw pop_command_run in Hpop.
  destruct (commands_of (rt c)) as [|cmd0 rest] eqn:Hq; injection Hpop as <- <-.
  { by injection Hrun as _ <-. }
  apply st_bind_inv in Hrun as (r & c2 & H & Hrun). apply run_command_inv in H as [(_ & -> & ->)|(_ & r' & Hex & ->)].
  - apply st_bind_inv in Hrun as ([] & c3 & H & Hrun). rw postpone_run in H. injection H as <-. injection Hrun as _ <-.
    rw with_queue_twice. change (commands_of _) with rest. by rw -Hq with_queue_id.
  - apply (execute_evolves _ _ _ _ _ Hex) in Hq. etrans; [exact Hq|].
    destruct r' as [[]|e]; [by eapply IH|]. by injection Hrun as _ <-.
Qed.
Lemma ckeeps_run_engine_commands : ckeeps RaftCore.run_engine_commands.
Proof. rw /RaftCore.run_engine_commands. apply ckeeps_bind; [apply _|ckeeps_tac|]. intros e. apply ckeeps_run_loop. Qed.
#[local] Hint Resolve ckeeps_run_engine_commands : ckeeps.
Lemma ckeeps_run_fatal : ckeeps (RaftCore.or_fatal RaftCore.run_engine_commands).
Proof. rw /RaftCore.or_fatal. ckeeps_tac. Qed.
#[local] Hint Resolve ckeeps_run_fatal : ckeeps.

(** Taking a message from the channel and handling it. *)
Lemma take_msg_evolves msg rest c a c' :
  c.(rx_api) = msg :: rest → RaftCore.handle_api_msg msg (set_rx_api c rest) = Done (a, c') → cevolves [] c c'.
Proof.
  intros Hq Hrun%ctakes_api_msg. assert (tokens c ≡ₚ msg_client msg ++ tokens (set_rx_api c rest)) as Ht.
  { rw /tokens /waiting /answered /= Hq bind_cons. solve_Permutation. }
  destruct Hrun as [H1 H2 H3 H4 H5 H6 H7 H8]. split; try done. by rw Ht.
Qed.

Lemma ckeeps_process_msg n i : ckeeps (RaftCore.process_raft_msg_from n i).
Proof.
  revert i. induction n as [|n IH]; intros i; [apply ckeeps_ret, _|]. cbn [RaftCore.process_raft_msg_from].
  intros c a c' (c0 & c1 & H & Hrun)%st_bind_inv. injection H as <- <-.
  destruct (rx_api c) as [|msg rest] eqn:Hq.
  { destruct (api_closed _); by injection Hrun as _ <-. }
  apply st_bind_inv in Hrun as ([] & c1 & H & Hrun). injection H as <-.
  apply st_bind_inv in Hrun as ([] & c2 & H%(take_msg_evolves _ _ _ _ _ Hq) & Hrun). etrans; [exact H|].
  refine (ckeeps_try _ (RaftCore.or_fatal RaftCore.run_engine_commands) _ _ _ _ _ _ Hrun); [ckeeps_tac|done].
Qed.

Lemma ckeeps_process_notification n i : ckeeps (RaftCore.process_notification_from n i).
Proof.
  revert i. induction n as [|n IH]; intros i; [apply ckeeps_ret, _|]. cbn [RaftCore.process_notification_from].
  apply ckeeps_bind; [apply _|ckeeps_tac|]. intros c. destruct (rx_notification c) as [|m rest]; [ckeeps_tac|].
  apply ckeeps_bind; [apply _|ckeeps_tac|]. intros []. apply ckeeps_try; [apply _|ckeeps_tac|]. intros [].
  apply ckeeps_try; [apply _|ckeeps_tac|done].
Qed.

Lemma ckeeps_select : ckeeps RaftCore.select.
Proof.
  intros c a c' (c0 & c1 & H & Hrun)%st_bind_inv. injection H as <- <-.
  destruct (rx_shutdown _); [by injection Hrun as _ <-|].
  destruct (rx_notification c) as [|m rest].
  - destruct (rx_api c) as [|msg rest] eqn:Hq; [destruct (api_closed _); by injection Hrun as _ <-|].
    apply st_bind_inv in Hrun as ([] & c1 & H & Hrun). injection H as <-.
    apply st_bind_inv in Hrun as ([] & c2 & H%(take_msg_evolves _ _ _ _ _ Hq) & Hrun). by injection Hrun as _ <-.
  - refine (ckeeps_bind _ _ _ _ _ _ _ _ Hrun); [ckeeps_tac|]. intros []. apply ckeeps_try; [apply _|ckeeps_tac|].
    intros []. ckeeps_tac.
Qed.

#[local] Hint Resolve ckeeps_select ckeeps_process_msg ckeeps_process_notification : ckeeps.
Lemma ckeeps_process b : ckeeps (RaftCore.process b).
Proof.
  rw /RaftCore.process /RaftCore.process_raft_msg /RaftCore.process_notification. ckeeps_tac.
Qed.
#[local] Hint Resolve ckeeps_process : ckeeps.
Lemma ckeeps_round b : ckeeps (RaftCore.runtime_round b).
Proof. rw /RaftCore.runtime_round. ckeeps_tac. Qed.
Lemma ckeeps_start : ckeeps RaftCore.start.
Proof. rw /RaftCore.start. ckeeps_tac. Qed.
Lemma ckeeps_finish err : ckeeps (RaftCore.finish err).
Proof. rw /RaftCore.finish. apply ckeeps_bind; [apply _|ckeeps_tac|]. intros []. intros c a c' (c0 & c1 & H & Hrun)%st_bind_inv.
  injection H as <- <-. apply st_bind_inv in Hrun as ([] & c1 & H & Hrun). injection H as <-. injection Hrun as _ <-.
  by apply cevolves_same.
Qed.
End runtime.

(** ** Runs *)
Module CoreRun.
Section steps.
Context {C : RaftTypeConfig}.

Inductive step : Core → Core → Prop :=
| step_start c b c' : RaftCore.start c = Done (b, c') → step c c'
| step_round balancer c b c' : RaftCore.runtime_round balancer c = Done (b, c') → step c c'
| step_finish err c e c' : RaftCore.finish err c = Done (e, c') → step c c'
  (** A message of a client that does not wait yet, or of anyone else. *)
| step_message c msg :
    Forall (λ tx, tx ∉ tokens c) (msg_client msg) → step c (set_rx_api c (c.(rx_api) ++ [msg]))
| step_notification c n : step c (set_rx_notification c (c.(rx_notification) ++ [n]))
  (** The environment changes, but not the id of the node; time passes. *)
| step_env c e : e.(ce_id) = c.(env).(ce_id) → step c (set_env c e)
| step_time c (d : Duration) :
    step c (set_rt c {| eng := c.(rt).(eng); clock := c.(rt).(clock) + d; readings := c.(rt).(readings);
                        drift := c.(rt).(drift); sent := c.(rt).(sent) |}).

Definition reachable : Core → Core → Prop := rtc step.
End steps.
End CoreRun.

Section theorems.
Context {C : RaftTypeConfig}.
Implicit Types c : Core.

(** A step keeps what the runtime keeps; a new request brings a new client. *)
Lemma step_evolves c c' :
  CoreRun.step c c' → ∃ new, cevolves new c c' ∧ NoDup new ∧ (∀ tx, tx ∈ new → tx ∉ tokens c).
Proof.
  intros [c1 b c2 H%ckeeps_start|b c1 b' c2 H%ckeeps_round|err c1 e c2 H%ckeeps_finish|c1 msg Hnew|c1 n|c1 e He|c1 d];
    try (exists []; split_and!; [done|constructor|by intros ? ?%elem_of_nil]).
  - exists (msg_client msg). split_and!.
    + split; auto using vote_le_refl, ole_refl. rw /tokens /waiting /answered /= bind_app /= app_nil_r. solve_submseteq.
    + destruct msg; cbn; auto using NoDup_nil_2, NoDup_singleton.
    + rewrite -> Forall_forall in Hnew. done.
  - exists []. split_and!; [by apply cevolves_same|constructor|by intros ? ?%elem_of_nil].
  - exists []. split_and!; [by apply cevolves_same|constructor|by intros ? ?%elem_of_nil].
  - exists []. split_and!; [|constructor|by intros ? ?%elem_of_nil].
    split; auto using vote_le_refl, ole_refl. cbn. lia.
Qed.

Lemma reachable_chain c c' lo :
  CoreRun.reachable c c' → vote_chain lo (given c) (core_vote c) → vote_chain lo (given c') (core_vote c').
Proof. induction 1 as [|c1 c2 c3 (new & [] & _)%step_evolves _ IH]; auto. Qed.

(** C31: along any run the vote, the commit position and the snapshot of a node never go backwards. *)
Theorem run_monotone c c' :
  CoreRun.reachable c c' →
  vote_le (core_vote c) (core_vote c') ∧ (vote_term (core_vote c) ≤ vote_term (core_vote c'))%N ∧
  (core_state c).(RaftState.committed) ⪯ (core_state c').(RaftState.committed) ∧
  snapshot_last_log_id (core_state c) ⪯ snapshot_last_log_id (core_state c').
Proof.
  intros H. cut (vote_le (core_vote c) (core_vote c') ∧
    (core_state c).(RaftState.committed) ⪯ (core_state c').(RaftState.committed) ∧
    snapshot_last_log_id (core_state c) ⪯ snapshot_last_log_id (core_state c')).
  { intros (? & ? & ?). split_and!; try done. by apply vote_le_term. }
  induction H as [c|c1 c2 c3 (new & [] & _)%step_evolves _ (IH1 & IH2 & IH3)].
  - split_and!; auto using vote_le_refl, ole_refl.
  - split_and!; [by eapply vote_le_trans|order..].
Qed.

(** C11: a client that writes is answered at most once: as long as every request comes with a new
    channel, no channel is answered twice, and none that still waits was answered. *)
Theorem client_answered_once c c' :
  CoreRun.reachable c c' → NoDup (tokens c) →
  NoDup (answered c') ∧ ∀ tx, tx ∈ waiting c' → tx ∉ answered c'.
Proof.
  intros H Hc. cut (NoDup (tokens c')).
  { rw /tokens NoDup_app. intros (? & Hd & ?). split; [done|]. intros tx Hw Ha. by apply (Hd tx). }
  induction H as [|c1 c2 c3 (new & [] & Hnd & Hnew)%step_evolves _ IH]; [done|]. apply IH.
  destruct (submseteq_Permutation (tokens c2) (new ++ tokens c1)) as [k Hk]; [done|].
  assert (NoDup (new ++ tokens c1)) as Hall by by apply NoDup_app.
  rw Hk in Hall. by apply NoDup_app in Hall as (? & _).
Qed.

(** Votes given away in a row are comparable. *)
Lemma vote_chain_elem lo vs hi v : vote_chain lo vs hi → v ∈ vs → vote_le lo v ∧ vote_le v hi.
Proof.
  revert lo. induction vs as [|w vs IH]; intros lo; [by intros _ ?%elem_of_nil|]. intros [H1 H2] [->|Hv]%elem_of_cons.
  - split; [done|]. by apply vote_chain_le in H2.
  - destruct (IH w H2 Hv). split; [by eapply vote_le_trans|done].
Qed.
Lemma vote_chain_total lo vs hi v w : vote_chain lo vs hi → v ∈ vs → w ∈ vs → vote_le v w ∨ vote_le w v.
Proof.
  revert lo. induction vs as [|u vs IH]; intros lo; [by intros _ ?%elem_of_nil|].
  intros [H1 H2] [->|Hv]%elem_of_cons [->|Hw]%elem_of_cons.
  - left. apply vote_le_refl.
  - left. by apply (vote_chain_elem _ _ _ _ H2).
  - right. by apply (vote_chain_elem _ _ _ _ H2).
  - by apply (IH u).
Qed.
End theorems.

(** With the leader ids of standard Raft, two comparable votes of one term are the same vote. *)
Lemma std_vote_unique (v1 v2 : @Vote StdConfig) :
  vote_le v1 v2 → vote_term v1 = vote_term v2 → leader_node_id v1 ≠ None → is_committed v2 = false → v1 = v2.
Proof.
  intros [Hlt|]; [|done]. intros Ht Hn Hc. exfalso. revert Hlt. destruct v1 as [[t1 n1] c1], v2 as [[t2 n2] c2].
  cbn in Ht, Hn, Hc. subst. rw /vote_lt /vote_cmp. cbn.
  destruct (LeaderIdStd.partial_cmp_cases {| LeaderIdStd.term := t2; LeaderIdStd.voted_for := n1 |}
    {| LeaderIdStd.term := t2; LeaderIdStd.voted_for := n2 |}) as [[? H]|[[? H]|[_ H]]]; cbn in *; [lia..|].
  rw H. destruct n1 as [n1|]; [|done]. destruct n2 as [n2|]; [|done]. destruct (decide (n1 = n2)); [|by destruct c1].
  by destruct c1.
Qed.

(** In standard Raft mode a node gives away at most one vote in a term, whatever happens: the
    grants it replies and the vote requests it sends in one term are all for the same candidate. *)
Theorem one_vote_per_term (c0 c : @Core StdConfig) v1 v2 :
  CoreRun.reachable c0 c → given c0 = [] → v1 ∈ votes_sent c → v2 ∈ votes_sent c → vote_term v1 = vote_term v2 →
  leader_node_id v1 ≠ None → leader_node_id v2 ≠ None → is_committed v1 = false → is_committed v2 = false →
  v1 = v2.
Proof.
  intros Hr H0 H1 H2 Ht Hn1 Hn2 Hc1 Hc2.
  assert (vote_chain (core_vote c0) (given c) (core_vote c)) as Hch.
  { apply (reachable_chain c0 c); [done|]. rw H0. apply vote_le_refl. }
  destruct (vote_chain_total _ _ _ v1 v2 Hch) as [H|H]; [by apply elem_of_app; left..| |].
  - by apply std_vote_unique.
  - by symmetry; apply std_vote_unique.
Qed.

(** ** Witnesses *)
Section ut.
#[local] Existing Instance UTConfig.

(** A candidate asks node 2 for its vote in term 5. *)
Definition ut_asked : Core :=
  set_rx_api (ut_core 2)
    [Msg_RequestVote {| vreq_vote := Vote_new 5 1; vreq_last_log_id := Some (ut_log_id 3 1 6) |} 7%N;
     Msg_ClientWriteRequest tt 8%N].

Lemma ut_round :
  wp (RaftCore.runtime_round (Balancer.new 10000)) (λ _ c', core_vote c' = Vote_new 5 1 ∧
    votes_sent c' = [Vote_new 5 1] ∧ answered c' = [8%N]) ut_asked.
Proof. by vm_compute. Qed.

Lemma run_monotone_witness :
  ∃ c', CoreRun.reachable ut_asked c' ∧ core_vote c' = Vote_new 5 1 ∧
        vote_le (core_vote ut_asked) (core_vote c').
Proof.
  destruct (proj1 (wp_elim _ _ _) ut_round) as (b & c' & Hrun & Hv & _). exists c'.
  assert (CoreRun.reachable ut_asked c') as Hr by by eapply rtc_once, CoreRun.step_round.
  split_and!; [done..|]. apply (run_monotone _ _ Hr).
Defined.

Lemma client_answered_once_witness :
  ∃ c', CoreRun.reachable ut_asked c' ∧ answered c' = [8%N] ∧ NoDup (answered c').
Proof.
  destruct (proj1 (wp_elim _ _ _) ut_round) as (b & c' & Hrun & _ & _ & Ha). exists c'.
  assert (CoreRun.reachable ut_asked c') as Hr by by eapply rtc_once, CoreRun.step_round.
  split_and!; [done..|]. apply (client_answered_once _ _ Hr). by apply (bool_decide_unpack _).
Defined.
End ut.

Section std_ut.
#[local] Existing Instance StdConfig.

(** Nodes 2 and 3 ask the fresh node 1 for its vote in term 1. *)
Definition std_asked : Core :=
  set_rx_api (core_at 1 (run_at 1000 (Engine.testing_default 1)))
    [Msg_RequestVote {| vreq_vote := Vote_new 1 2; vreq_last_log_id := None |} 7%N;
     Msg_RequestVote {| vreq_vote := Vote_new 1 3; vreq_last_log_id := None |} 8%N].

Lemma std_round :
  wp (RaftCore.runtime_round (Balancer.new 1000)) (λ _ c', votes_sent c' = [Vote_new 1 2]) std_asked.
Proof. by vm_compute. Qed.

Lemma one_vote_per_term_witness :
  ∃ c', CoreRun.reachable std_asked c' ∧ Vote_new 1 2 ∈ votes_sent c' ∧
    ∀ v, v ∈ votes_sent c' → vote_term v = 1%N → leader_node_id v ≠ None → is_committed v = false → v = Vote_new 1 2.
Proof.
  destruct (proj1 (wp_elim _ _ _) std_round) as (b & c' & Hrun & Hv). exists c'.
  assert (CoreRun.reachable std_asked c') as Hr by by eapply rtc_once, CoreRun.step_round.
  assert (Vote_new 1 2 ∈ votes_sent c') as Hin by (rw Hv; apply list_elem_of_here).
  split_and!; [done..|]. intros v H1 H2 H3 H4. by apply (one_vote_per_term std_asked c' v (Vote_new 1 2) Hr).
Defined.
End std_ut.
