(* ===== verification/CoreCommands.v ===== *)
(** * Executing the commands (openraft/src/core/raft_core.rs: [run_engine_commands], [run_command])

    The runtime takes the commands from the queue one by one; a command whose condition is not met
    goes back to the front, and nothing behind it runs.  [run_commands_in_order] states this of the
    whole loop, and that a round per queued command is enough. *)

From S2P Require Export CoreRun.

(** ** Parts that leave the queue alone *)
Section queue.
Context {C : RaftTypeConfig}.
Implicit Types c : Core.

Definition qkeeps {A} (m : CM A) : Prop :=
  ∀ c a c', m c = Done (a, c') → commands_of c'.(rt) = commands_of c.(rt).

Lemma qkeeps_ret {A} (a : A) : qkeeps (mret a).
Proof. by intros c b c' [= _ <-]. Qed.
Lemma qkeeps_bind {A B} (m : CM A) (k : A → CM B) : qkeeps m → (∀ a, qkeeps (k a)) → qkeeps (m ≫= k).
Proof. intros Hm Hk c b c' (a & c1 & H1%Hm & H2%Hk)%st_bind_inv. congruence. Qed.
Lemma qkeeps_try {A B E} (m : CM (Result A E)) (k : A → CM (Result B E)) :
  qkeeps m → (∀ a, qkeeps (k a)) → qkeeps (try_bind m k).
Proof. intros Hm Hk. apply qkeeps_bind; [done|]. intros [a|e]; [done|apply qkeeps_ret]. Qed.
Lemma qkeeps_lift {A} (o : Outcome A) : qkeeps (lift o).
Proof. by intros c a c' [_ ->]%lift_inv. Qed.
Lemma qkeeps_for {A} (l : list A) body : (∀ x, qkeeps (body x)) → qkeeps (st_for l body).
Proof. intros Hb. induction l; [apply qkeeps_ret|]. by apply qkeeps_bind. Qed.
Lemma qkeeps_get : qkeeps st_get.
Proof. by intros c a c' [= _ <-]. Qed.
Lemma qkeeps_gets {A} (f : Core → A) : qkeeps (st_gets f).
Proof. by intros c a c' [= _ <-]. Qed.
Lemma qkeeps_modify (f : Core → Core) : (∀ c, rt (f c) = rt c) → qkeeps (st_modify f).
Proof. intros Hf c a c' [= _ <-]. by rw Hf. Qed.
Lemma qkeeps_store op : qkeeps (store op).
Proof. intros c a c'. rw /store. destruct (store_fault _ _); by intros [= _ <-]. Qed.
Lemma qkeeps_core_state : qkeeps RaftCore.get_core_state.
Proof. intros c a c'. rw get_core_state_run. by intros [= _ <-]. Qed.

(** Parts of the engine that output nothing. *)
Lemma qkeeps_engine {A} (m : M A) :
  (∀ r a r', m r = Done (a, r') → commands_of r' = commands_of r) → qkeeps (engine m).
Proof.
  intros Hm c a c'. rw /engine. destruct (m (rt c)) as [[b r]|] eqn:E; [|done]. intros [= _ <-]. by eapply Hm.
Qed.
Lemma qkeeps_modify_io f : qkeeps (engine (modify_io f)).
Proof.
  apply qkeeps_engine. intros r a r' (s & r1 & H & Hrun)%st_bind_inv. injection H as <- <-.
  apply st_bind_inv in Hrun as (io & r1 & [_ ->]%lift_inv & Hrun). by injection Hrun as _ <-.
Qed.
Lemma qkeeps_now : qkeeps (engine now).
Proof. apply qkeeps_engine. by intros r a r' [= _ <-]. Qed.
Lemma qkeeps_get_leader : qkeeps (engine get_leader).
Proof. apply qkeeps_engine. intros r a r'. rw /get_leader. destruct (Engine.leader _); [|done]. by intros [= _ <-]. Qed.
End queue.

Create HintDb qkeeps discriminated.
#[export] Hint Resolve qkeeps_ret qkeeps_lift qkeeps_get qkeeps_gets qkeeps_store qkeeps_core_state qkeeps_now
  qkeeps_get_leader : qkeeps.
#[export] Hint Extern 1 (qkeeps (engine (io_submit _))) => apply qkeeps_modify_io : qkeeps.
#[export] Hint Extern 1 (qkeeps (engine (modify_io _))) => apply qkeeps_modify_io : qkeeps.
#[export] Hint Extern 1 (qkeeps (st_modify _)) => apply qkeeps_modify; done : qkeeps.
#[export] Hint Extern 1 (qkeeps (emit _)) => apply qkeeps_modify; done : qkeeps.
#[export] Hint Extern 1 (qkeeps (notify _)) => apply qkeeps_modify; done : qkeeps.

Ltac qkeeps_step :=
  lazymatch goal with
  | |- qkeeps (try_bind _ _) => apply qkeeps_try; [|intros ?]
  | |- qkeeps (_ ≫= _) => apply qkeeps_bind; [|intros ?]
  | |- qkeeps (st_for _ _) => apply qkeeps_for; intros ?
  | |- qkeeps (match ?x with _ => _ end) => destruct x
  | |- qkeeps _ => solve [auto with qkeeps]
  end.
Ltac qkeeps_tac := repeat (qkeeps_step; cbn beta iota zeta).

Section commands.
Context {C : RaftTypeConfig}.
Implicit Types c : Core.

Lemma qkeeps_effective : qkeeps RaftCore.effective.
Proof. rw /RaftCore.effective. qkeeps_tac. Qed.
Lemma qkeeps_get_id : qkeeps RaftCore.get_id.
Proof. apply qkeeps_gets. Qed.
Lemma qkeeps_sm_send cmd : qkeeps (sm_send cmd).
Proof. rw /sm_send. qkeeps_tac. Qed.
#[local] Hint Resolve qkeeps_effective qkeeps_get_id qkeeps_sm_send : qkeeps.

Lemma qkeeps_execute cmd : qkeeps (RaftCore.execute cmd).
Proof.
  destruct cmd; cbn [RaftCore.execute]; rw /RaftCore.spawn_parallel_vote_requests /RaftCore.apply_to_state_machine
    /RaftCore.broadcast_transfer_leader /RaftCore.remove_all_replication /RaftCore.spawn_replication_stream; qkeeps_tac.
Qed.

(** Whether a command has to wait. *)
Definition waits (s : RaftState.RaftState) (cmd : Command) : Outcome bool :=
  match Command.condition cmd with Some k => RaftCore.is_pending s k | None => Done false end.

(** The commands [cmds] are executed one after the other, each when its condition is met. *)
Inductive executed : list Command → Core → Core → Prop :=
| executed_nil c : executed [] c c
| executed_cons cmd cmds rest c c1 c2 :
    commands_of c.(rt) = cmd :: rest → waits (core_state c) cmd = Done false →
    RaftCore.execute cmd (with_queue c rest) = Done (ROk tt, c1) → executed cmds c1 c2 → executed (cmd :: cmds) c c2.

Lemma run_loop_spec fuel c res c' :
  RaftCore.run_loop fuel c = Done (res, c') →
  ∃ cmds c1, executed cmds c c1 ∧
  match res with
  | ROk _ => c' = c1 ∧ commands_of c.(rt) = cmds ++ commands_of c'.(rt) ∧
      match commands_of c'.(rt) with [] => True | cmd :: _ => waits (core_state c') cmd = Done true end
  | RErr e => ∃ cmd, commands_of c.(rt) = cmds ++ cmd :: commands_of c'.(rt) ∧ waits (core_state c1) cmd = Done false ∧
      RaftCore.execute cmd (with_queue c1 (commands_of c'.(rt))) = Done (RErr e, c')
  end.
Proof.
  revert c res c'. induction fuel as [|fuel IH]; intros c res c'; [done|]. cbn [RaftCore.run_loop].
  intros (cmd & c1 & Hpop & Hrun)%st_bind_inv. rw pop_command_run in Hpop.
  destruct (commands_of (rt c)) as [|cmd0 rest] eqn:Hq; injection Hpop as <- <-.
  { injection Hrun as <- <-. exists [], c. rw Hq. split; [constructor|done]. }
  apply st_bind_inv in Hrun as (r & c2 & H & Hrun). apply run_command_inv in H as [(Hw & -> & ->)|(Hw & r' & Hex & ->)].
  - apply st_bind_inv in Hrun as ([] & c3 & H & Hrun). rw postpone_run in H. injection H as <-. injection Hrun as <- <-.
    exists [], c. split; [constructor|]. rw with_queue_twice. change (commands_of (rt (with_queue c rest))) with rest.
    rw -Hq with_queue_id. split_and!; [done..|]. rw Hq. exact Hw.
  - pose proof (qkeeps_execute _ _ _ _ Hex) as Hq2. change (commands_of (rt (with_queue c rest))) with rest in Hq2.
    destruct r' as [[]|e].
    + apply IH in Hrun as (cmds & c3 & Hexs & Hres). exists (cmd0 :: cmds), c3. split; [by econstructor|].
      rw Hq2 in Hres. destruct res as [[]|e]; [by destruct Hres as (-> & -> & ?)|].
      destruct Hres as (cmd & -> & ?). by exists cmd.
    + injection Hrun as <- <-. exists [], c. split; [constructor|]. exists cmd0. by rw Hq2.
Qed.

(** More rounds than queued commands change nothing. *)
Lemma run_loop_fuel n c : RaftCore.run_loop (S (length (commands_of c.(rt))) + n) c =
                          RaftCore.run_loop (S (length (commands_of c.(rt)))) c.
Proof.
  remember (length (commands_of (rt c))) as k eqn:Hk. revert c Hk. induction k as [|k IH]; intros c Hk.
  - apply symmetry, nil_length_inv in Hk. cbn [Nat.add RaftCore.run_loop].
    assert (engine RaftCore.pop_command c = Done (None, c)) as Hpop by by rw pop_command_run Hk.
    by rw !(st_bind_run _ _ _ _ _ Hpop).
  - destruct (commands_of (rt c)) as [|cmd rest] eqn:Hq; [done|]. injection Hk as Hk.
    change (S (S k) + n) with (S (S k + n)).
    assert (engine RaftCore.pop_command c = Done (Some cmd, with_queue c rest)) as Hpop by by rw pop_command_run Hq.
    cbn [RaftCore.run_loop]. rw !(st_bind_run _ _ _ _ _ Hpop) /try_bind /mbind /st_bind.
    destruct (RaftCore.run_command cmd (with_queue c rest)) as [[r c1]|] eqn:E; [|done].
    destruct r as [[cmd'|]|e]; [done| |done]. apply IH.
    apply run_command_inv in E as [(_ & ? & _)|(_ & r & Hex & _)]; [done|].
    by rw (qkeeps_execute _ _ _ _ Hex).
Qed.

Lemma get_engine_run c : engine get_engine c = Done (c.(rt).(eng), c).
Proof. rw /engine. cbn. by rw set_rt_id. Qed.

Lemma run_engine_commands_unfold c :
  RaftCore.run_engine_commands c = RaftCore.run_loop (S (length (commands_of c.(rt)))) c.
Proof.
  by rw /RaftCore.run_engine_commands (st_bind_run _ _ _ _ _ (get_engine_run c)).
Qed.


(** ** Answering clients *)
(** The reply to the client that waits for entry [since + k], if there is one. *)
Definition reply_to c (res : ApplyResult) (k : nat) : option Effect :=
  tx ← c.(client_resp_channels) !! (res.(since) + N.of_nat k)%N;
  ent ← res.(applying_entries) !! k;
  r ← res.(apply_results) !! k;
  Some (Eff_Client tx (ROk {| cw_log_id := ent.(ae_log_id); cw_data := r; cw_membership := ent.(ae_membership) |})).

(** The replies from the second entry on. *)
Lemma replies_shift ent r i es rs c c2 (l : list nat) e e' :
  client_resp_channels c2 = delete i (client_resp_channels c) →
  omap (reply_to c2 {| since := i + 1; end_ := e'; last_applied := LogId_default; applying_entries := es;
                       apply_results := rs |}) l =
  omap (reply_to c {| since := i; end_ := e; last_applied := LogId_default; applying_entries := ent :: es;
                      apply_results := r :: rs |}) (S <$> l).
Proof.
  intros Hch. induction l as [|x l IH]; [done|]. rw fmap_cons. cbn [omap list_omap].
  rw IH {1 4}/reply_to /= Hch lookup_delete_ne; [lia|].
  by replace (i + 1 + N.of_nat x)%N with (i + N.of_nat (S x))%N by lia.
Qed.

Lemma apply_loop_run n i es rs c :
  length es = n → length rs = n →
  ∃ c', RaftCore.apply_result_loop n i es rs c = Done (tt, c') ∧ rt c' = rt c ∧
    (∀ j, client_resp_channels c' !! j =
       if decide (i ≤ j < i + N.of_nat n)%N then None else client_resp_channels c !! j) ∧
    out c' = out c ++ omap (reply_to c {| since := i; end_ := i + N.of_nat n; last_applied := LogId_default;
                                          applying_entries := es; apply_results := rs |}) (seq 0 n).
Proof.
  revert i es rs c. induction n as [|n IH]; intros i es rs c He Hr.
  { exists c. split_and!; [done|done| |by rw app_nil_r]. intros j. rw decide_False; [lia|done]. }
  destruct es as [|ent es]; [done|]. destruct rs as [|r rs]; [done|]. injection He as He. injection Hr as Hr.
  set (c1 := set_clients c (delete i c.(client_resp_channels))).
  assert (∃ c2, RaftCore.send_response ent r (client_resp_channels c !! i) c1 = Done (tt, c2) ∧ rt c2 = rt c ∧
    client_resp_channels c2 = delete i (client_resp_channels c) ∧
    out c2 = out c ++ from_option (λ tx, [Eff_Client tx (ROk {| cw_log_id := ae_log_id ent; cw_data := r;
      cw_membership := ae_membership ent |})]) [] (client_resp_channels c !! i)) as (c2 & Hsend & Hrt & Hch & Hout).
  { destruct (client_resp_channels c !! i); eexists; split_and!; try done. by rw app_nil_r. }
  destruct (IH (i + 1)%N es rs c2 He Hr) as (c' & Hrun & Hrt' & Hch' & Hout').
  exists c'. split_and!.
  - cbn [RaftCore.apply_result_loop].
    rw (st_bind_run (lift (unwrap (Some (ent, es)) _)) _ c (ent, es) c eq_refl).
    rw (st_bind_run (lift (unwrap (Some (r, rs)) _)) _ c (r, rs) c eq_refl).
    rw (st_bind_run st_get _ c c c eq_refl).
    rw (st_bind_run (st_modify (λ c, set_clients c (delete i c.(client_resp_channels)))) _ c tt c1 eq_refl).
    rw (st_bind_run _ _ c1 tt c2 Hsend). exact Hrun.
  - congruence.
  - intros j. rw Hch' Hch. destruct (decide (j = i)) as [->|Hne].
    + rw lookup_delete_eq. repeat case_decide; try done; lia.
    + rw lookup_delete_ne; [done|]. repeat case_decide; try done; lia.
  - rw Hout' Hout -app_assoc. f_equal. cbn [seq omap list_omap]. rw -fmap_S_seq.
    rw {1 2}/reply_to /= N.add_0_r.
    rw -(replies_shift ent r i es rs c c2 (seq 0 n) (i + N.of_nat (S n)) (i + 1 + N.of_nat n) Hch).
    by destruct (client_resp_channels c !! i).
Qed.

(** When entries are applied, every client that waits for one of them gets the result of its
    entry, in the order of the log, and waits no longer; the other clients still wait. *)
Theorem apply_answers_clients res c :
  let n := N.to_nat (res.(end_) - res.(since)) in
  length res.(applying_entries) = n → length res.(apply_results) = n →
  ∃ c', RaftCore.handle_apply_result res c = Done (tt, c') ∧ rt c' = rt c ∧
    (∀ j, client_resp_channels c' !! j =
       if decide (res.(since) ≤ j < res.(end_))%N then None else client_resp_channels c !! j) ∧
    out c' = out c ++ omap (reply_to c res) (seq 0 n).
Proof.
  intros n He Hr. destruct (apply_loop_run n res.(since) _ _ c He Hr) as (c' & Hrun & Hrt & Hch & Hout).
  exists c'. split_and!; [done|done| |by destruct res]. intros j. rw Hch. repeat case_decide; try done; lia.
Qed.

(** ** Messages that come too late *)
(** The clock after one reading. *)
Definition read_clock c : Core :=
  set_rt c {| eng := c.(rt).(eng); clock := c.(rt).(clock) + c.(rt).(drift) c.(rt).(readings);
              readings := S c.(rt).(readings); drift := c.(rt).(drift); sent := c.(rt).(sent) |}.

(** A message of an earlier candidacy, leadership or replication session changes nothing: it is
    ignored unless the node is still the candidate, or the leader with the membership, that caused it. *)
Theorem stale_messages_ignored c :
  let e := c.(rt).(eng) in
  let effective_log_id := EffectiveMembership.log_id e.(Engine.state).(RaftState.membership_state).(ms_effective) in
  (∀ target resp v, (∀ x, e.(Engine.candidate) = Some x → x.(Candidate.vote).(vote_leader_id) ≠ v.(ncv_leader_id)) →
     RaftCore.handle_notification (N_VoteResponse target resp v) c = Done (ROk tt, read_clock c)) ∧
  (∀ target higher v, (∀ x, e.(Engine.leader) = Some x → x.(Leader.committed_vote) ≠ v) →
     RaftCore.handle_notification (N_HigherVote target higher v) c = Done (ROk tt, c)) ∧
  (∀ session, (∀ x, e.(Engine.leader) = Some x → x.(Leader.committed_vote) ≠ session.(leader_vote) ∨
                                               session.(membership_log_id) ≠ effective_log_id) →
     (∀ target result, RaftCore.handle_notification (N_ReplicationProgress
        {| repl_target := target; repl_result := result; repl_session_id := session |}) c = Done (ROk tt, c)) ∧
     (∀ t target, RaftCore.handle_notification (N_HeartbeatProgress session t target) c = Done (ROk tt, c))).
Proof.
  intros e m.
  assert (∀ v, (∀ x, Engine.leader e = Some x → Leader.committed_vote x ≠ v) → RaftCore.does_leader_vote_match e v = false) as Hlv.
  { intros v Hv. rw /RaftCore.does_leader_vote_match. destruct (Engine.leader e) as [x|]; [|done].
    apply bool_decide_eq_false. intros ->. by apply (Hv x). }
  split_and!.
  - intros target resp v Hv.
    cbn [RaftCore.handle_notification]. rw (st_bind_run (engine now) _ c _ (read_clock c) eq_refl).
    rw (st_bind_run _ _ _ _ _ (get_engine_run _)).
    assert (RaftCore.does_candidate_vote_match e v = false) as Hno.
    { rw /RaftCore.does_candidate_vote_match. destruct (Engine.candidate e) as [x|]; [|done].
      apply bool_decide_eq_false. intros Heq. by apply (Hv x). }
    cbn [rt eng set_rt]. fold e. by rw Hno.
  - intros target higher v Hv. cbn [RaftCore.handle_notification]. rw (st_bind_run _ _ _ _ _ (get_engine_run c)).
    fold e. by rw (Hlv v Hv).
  - intros session Hs.
    assert (RaftCore.does_replication_session_match e session = false) as Hno.
    { rw /RaftCore.does_replication_session_match. destruct (RaftCore.does_leader_vote_match e _) eqn:Hm; [|done].
      apply bool_decide_eq_false. intros Heq. revert Hm. rw /RaftCore.does_leader_vote_match.
      destruct (Engine.leader e) as [x|]; [|done]. intros Hv%bool_decide_eq_true. by destruct (Hs x eq_refl). }
    split.
    + intros target result. cbn [RaftCore.handle_notification]. rw (st_bind_run _ _ _ _ _ (get_engine_run c)).
      cbn [repl_session_id]. fold e. by rw Hno.
    + intros t target. cbn [RaftCore.handle_notification]. rw (st_bind_run _ _ _ _ _ (get_engine_run c)).
      fold e. by rw Hno.
Qed.

(** ** Elections by the clock *)
(** The time after which a node that hears nothing runs for election; longer when it knows of a
    greater log than its own. *)
Definition election_timeout c : Duration :=
  let e := c.(rt).(eng) in
  let t := e.(Engine.config).(EngineConfig.timer_config) in
  if e.(Engine.seen_greater_log) then (t.(TimeState.election_timeout) + t.(TimeState.smaller_log_timeout))%N
  else t.(TimeState.election_timeout).

(** The node may run for election now. *)
Definition may_elect c : Prop :=
  let s := core_state c in
  let eff := s.(RaftState.membership_state).(ms_effective) in
  s.(RaftState.server_state) ≠ Leader_ ∧ EffectiveMembership.is_voter eff c.(env).(ce_id) = true ∧
  c.(env).(enable_elect) = true ∧
  (length (EffectiveMembership.voter_ids eff) = 1 ∨
   ∀ u, RaftState.vote_last_modified s = Some u →
     (u + s.(RaftState.vote).(Config.lease) + election_timeout c < c.(rt).(clock))%N).

(** The clock triggers an election exactly on a voter that does not lead, with elections
    enabled, when it is the only voter or has not heard of a leader for the lease and the election
    timeout; the node then forgets the greater log it has seen.  Otherwise nothing changes. *)
Theorem tick_election_spec c :
  (may_elect c → RaftCore.handle_tick_election c =
     (_ ← engine EngineImpl.reset_greater_log; engine EngineImpl.elect) (read_clock c)) ∧
  (¬ may_elect c → RaftCore.handle_tick_election c = Done (tt, read_clock c)).
Proof.
  rw /RaftCore.handle_tick_election (st_bind_run (engine now) _ c (clock (rt c)) (read_clock c) eq_refl).
  rw (st_bind_run _ _ _ _ _ (get_engine_run (read_clock c))) (st_bind_run st_get _ _ _ _ eq_refl).
  rw /may_elect. set (s := core_state c). set (eff := ms_effective _). set (t := election_timeout c).
  change (Engine.state (eng (rt (read_clock c)))) with s. fold eff.
  change (env (read_clock c)) with (env c).
  change (if Engine.seen_greater_log (eng (rt (read_clock c))) then _ else _) with t.
  assert (Leased.is_expired (RaftState.vote s) (clock (rt c)) t = true ↔
    ∀ u, RaftState.vote_last_modified s = Some u → (u + Config.lease (RaftState.vote s) + t < clock (rt c))%N) as Hexp.
  { rw /Leased.is_expired /RaftState.vote_last_modified. destruct (last_update _) as [u|]; [|naive_solver].
    rw N.ltb_lt. naive_solver. }
  destruct (bool_decide_reflect (RaftState.server_state s = Leader_)); [naive_solver|].
  destruct (EffectiveMembership.is_voter eff (ce_id (env c))); [|naive_solver].
  destruct (enable_elect (env c)); [|naive_solver]. cbn [negb].
  destruct (Nat.eqb_spec (length (EffectiveMembership.voter_ids eff)) 1); [naive_solver|].
  destruct (Leased.is_expired _ _ _); cbn [orb]; naive_solver.
Qed.
End commands.

(** ** Witnesses *)
Section ut.
#[local] Existing Instance UTConfig.

(** A vote to save, and a reply that waits until it is flushed. *)
Definition ut_reply : Command :=
  RespondCmd (Some (IOFlushed (IOId.new (Vote_new 5 1)))) (Respond_Vote (VoteResponse_new (Vote_new 5 1) None true) 7%N).
Definition ut_queued : Core := with_queue (ut_core 2) [SaveVote (Vote_new 5 1); ut_reply].

Lemma ut_queued_run :
  wp RaftCore.run_engine_commands (λ res c', res = ROk tt ∧ out c' = [Eff_Store (Store_SaveVote (Vote_new 5 1))]) ut_queued.
Proof. by vm_compute. Qed.


Definition ut_applied : ApplyResult := {|
  since := 1; end_ := 3; last_applied := ut_log_id 1 1 2;
  applying_entries := [ApplyingEntry_new (ut_log_id 1 1 1) None; ApplyingEntry_new (ut_log_id 1 1 2) None];
  apply_results := [tt; tt] |}.

Lemma apply_answers_clients_witness :
  ∃ c', RaftCore.handle_apply_result ut_applied (set_clients (ut_core 1) {[ 2%N := 9%N; 5%N := 8%N ]}) = Done (tt, c') ∧
    client_resp_channels c' !! 2%N = None ∧ client_resp_channels c' !! 5%N = Some 8%N ∧
    out c' = [Eff_Client 9%N (ROk {| cw_log_id := ut_log_id 1 1 2; cw_data := tt; cw_membership := None |})].
Proof.
  destruct (apply_answers_clients ut_applied (set_clients (ut_core 1) {[ 2%N := 9%N; 5%N := 8%N ]}))
    as (c' & Hrun & _ & Hch & Hout); [done..|]. exists c'. split; [exact Hrun|]. by rw !Hch Hout.
Defined.
End ut.
