(* ===== verification/Reads.v ===== *)
(** * Linearizable reads (openraft/src/core/raft_core.rs: [handle_check_is_leader_request])

    A leader confirms its leadership with a round of empty append-entries requests before it answers
    a read.  The theorems say what each answer means: [ROk] that a quorum has acknowledged this
    leader after the read came in, an error that it was deposed or could not reach a quorum. *)

From S2P Require Export CoreCommands.

Section reads.
Context {C : RaftTypeConfig}.
Implicit Types w : ReadWait.

(** The nodes that acknowledged. *)
Definition acknowledged (pending : list (option (NodeId * AppendEntriesResponse))) : gset NodeId :=
  list_to_set (omap (λ r, '(target, _) ← r; Some target) pending).

#[local] Arguments acknowledged : simpl never.

Definition no_higher_vote (r : option (NodeId * AppendEntriesResponse)) : Prop :=
  match r with Some (_, HigherVote _) => False | _ => True end.

Definition quorum_of w (ids : gset NodeId) : bool := is_quorum w.(w_eff_mem).(em_quorum_set) (btree_iter ids).

(** What an answer means: a quorum acknowledged, and what was read when the request came; or a node
    reported a higher vote before that; or nobody did, and those who acknowledged are no quorum. *)
Definition answer_means w granted pending (ns : list Notification)
    (res : Result (option LogId * option LogId) CheckIsLeaderError) : Prop :=
  match res with
  | ROk resp => resp = w.(w_resp) ∧ ns = [] ∧
      ∃ before after, pending = before ++ after ∧ Forall no_higher_vote before ∧
        quorum_of w (granted ∪ acknowledged before) = true
  | RErr (CIL_ForwardToLeader f) => f = ForwardToLeader_empty ∧
      ∃ before target vote after, pending = before ++ Some (target, HigherVote vote) :: after ∧
        Forall no_higher_vote before ∧ vote_lt w.(w_my_vote) vote ∧
        ns = [N_HigherVote target vote (to_committed w.(w_my_vote))] ∧
        quorum_of w (granted ∪ acknowledged before) = false
  | RErr (CIL_QuorumNotEnough _ got) => ns = [] ∧ Forall no_higher_vote pending ∧
      got = granted ∪ acknowledged pending ∧ quorum_of w got = false
  end.

Lemma acknowledged_cons r before :
  acknowledged (r :: before) = from_option (λ x, {[ x.1 ]}) ∅ r ∪ acknowledged before.
Proof. destruct r as [[t x]|]; rw /acknowledged /=; set_solver. Qed.

Lemma answer_means_cons w granted r pending ns res :
  no_higher_vote r → answer_means w (granted ∪ from_option (λ x, {[ x.1 ]}) ∅ r) pending ns res →
  answer_means w granted (r :: pending) ns res.
Proof.
  intros Hr. destruct res as [resp|[f|m got]]; cbn.
  - intros (-> & -> & before & after & -> & Hb & Hq). split_and!; [done..|].
    exists (r :: before), after. split_and!; [done|by constructor|]. by rw acknowledged_cons assoc_L.
  - intros (-> & before & target & vote & after & -> & Hb & Hlt & -> & Hq). split_and!; [done|].
    exists (r :: before), target, vote, after. split_and!; [done|by constructor|done|done|].
    by rw acknowledged_cons assoc_L.
  - intros (-> & Hb & -> & Hq). split_and!; [done|by constructor| |done]. by rw acknowledged_cons assoc_L.
Qed.

(** C13: the answer to a read.  It succeeds, with what was read of the state when the request came,
    only when a quorum acknowledged before any node reported a higher vote; a higher vote makes
    this node give up its leadership; otherwise the error names those who acknowledged, who are no
    quorum. *)
Theorem read_answer w granted pending ns res :
  RaftCore.waiting_fu w granted pending = Done (ns, res) → quorum_of w granted = false →
  answer_means w granted pending ns res.
Proof.
  revert granted. induction pending as [|r pending IH]; intros granted.
  { intros [= <- <-] Hq. cbn. by rw union_empty_r_L. }
  assert (no_higher_vote r ∨ ∃ target vote, r = Some (target, HigherVote vote)) as [Hno|(target & vote & ->)]
    by by destruct r as [[? []]|]; eauto; left.
  - intros Hrun Hq. apply answer_means_cons; [done|]. destruct r as [[target resp]|]; cbn [from_option].
    + assert ((let granted := {[target]} ∪ granted in
         if quorum_of w granted then Done ([], ROk (w_resp w)) else RaftCore.waiting_fu w granted pending) =
         Done (ns, res)) as Hrun' by by destruct resp.
      rw [granted ∪ _]comm_L. revert Hrun'. cbn zeta. destruct (quorum_of w ({[target]} ∪ granted)) eqn:Hq'.
      * intros [= <- <-]. cbn. split_and!; [done..|]. exists [], pending. split_and!; [done|constructor|].
        change (acknowledged []) with (∅ : gset NodeId). by rw union_empty_r_L.
      * intros Hrun'. by apply IH.
    + rw union_empty_r_L. by apply IH.
  - cbn [RaftCore.waiting_fu]. destruct (ref_vote_gt _ _) as [gt|] eqn:Hgt; [|done]. cbn [mbind outcome_bind].
    destruct gt; [|done]. intros [= <- <-] Hq. apply ref_vote_gt_done in Hgt. cbn. split; [done|].
    exists [], target, vote, pending. rw union_empty_r_L. split_and!; try done. by apply Hgt.
Qed.
End reads.

(** ** Witness *)
Section ut.
#[local] Existing Instance UTConfig.

(** Node 1 of the voters 1, 2 reads; node 2 acknowledges after a timeout. *)
Definition ut_wait : ReadWait := {|
  w_tx := 7%N; w_my_vote := Vote_new_committed 3 1; w_eff_mem := EffectiveMembership.new (Some (ut_log_id 1 1 0)) ut_m12;
  w_resp := (Some (ut_log_id 1 1 2), None) |}.

Lemma read_answer_witness :
  RaftCore.waiting_fu ut_wait {[1%N]} [None; Some (2%N, Success)] = Done ([], ROk (Some (ut_log_id 1 1 2), None)) ∧
  ∃ before after, [None; Some (2%N, Success)] = before ++ after ∧ quorum_of ut_wait ({[1%N]} ∪ acknowledged before) = true.
Proof.
  assert (RaftCore.waiting_fu ut_wait {[1%N]} [None; Some (2%N, Success)] = Done ([], ROk (Some (ut_log_id 1 1 2), None)))
    as Hrun by by vm_compute.
  destruct (read_answer _ _ _ _ _ Hrun) as (_ & _ & before & after & Hp & _ & Hq); [by vm_compute|].
  split; [exact Hrun|]. by exists before, after.
Defined.
End ut.
