(* ===== verification/Storage.v ===== *)
(** * The storage interface (openraft/src/storage/)

    The traits an application implements, as type classes: [RaftLogReader] and [RaftLogStorage]
    (storage/v2/raft_log_reader.rs, raft_log_storage.rs) on the state of a log store, and
    [RaftStateMachine] with its snapshot builder (raft_state_machine.rs, raft_snapshot_builder.rs) on
    the state of a state machine.  An operation may fail with a [StorageError] or panic; the reader
    only reads.  [LogView] and [LogSpec] are the abstract log store that the documentation of the
    traits describes, and [LogStoreLaws] and [StateMachineLaws] say that an implementation refines
    it: what the rest of the program relies on, and what an implementation has to prove. *)

From S2P Require Export CoreState.

(** [storage/callback.rs]: the notification [RaftCore] gets when a write completes; [io_tx] tells
    whether its channel is still open. *)
Record IOFlushedCallback {C : RaftTypeConfig} := { io_notification : Notification; io_tx : bool }.

Module IOFlushed.
Section ops.
Context {C : RaftTypeConfig}.

Definition io_subject (io_id : IOId) : ErrorSubject :=
  match io_id with
  | IOId_Vote _ => Subject_Vote
  | IOId_Log l => match l.(log_id) with Some log_id => Subject_Log log_id | None => Subject_Logs end
  end.
Definition io_verb (io_id : IOId) : ErrorVerb := Verb_Write.

Definition make_storage_error (cb : IOFlushedCallback) (e : string) : Outcome StorageError :=
  match cb.(io_notification) with
  | N_VoteResponse _ _ _ => Done (StorageError.new Subject_Vote Verb_Write e)
  | N_LocalIO io_id => Done (StorageError.new (io_subject io_id) (io_verb io_id) e)
  | _ => Panic "Unexpected notification"
  end.

(** What is sent to [RaftCore]. *)
Definition io_completed (cb : IOFlushedCallback) (result : Result unit string) : Outcome (list Notification) :=
  if negb cb.(io_tx) then Done []
  else
    match result with
    | RErr e => sto_err ← make_storage_error cb e; Done [N_StorageError sto_err]
    | ROk _ => Done [cb.(io_notification)]
    end.
End ops.
End IOFlushed.

(** ** The traits *)
Record LogState {C : RaftTypeConfig} := {
  ls_last_purged_log_id : option LogId;
  ls_last_log_id : option LogId;
}.

Module RaftLogReader.
Class RaftLogReader {C : RaftTypeConfig} (LS : Type) := {
  (** The entries with an index in [[start, end_)]. *)
  try_get_log_entries : LS → N → N → Outcome (Result (list Entry) StorageError);
  read_vote : LS → Outcome (Result (option Vote) StorageError);
  limited_get_log_entries : LS → N → N → Outcome (Result (list Entry) StorageError);
}.

(** [RaftLogReaderExt] (log_reader_ext.rs) and the default methods of the trait. *)
Section ext.
Context {C : RaftTypeConfig} {LS : Type} `{!RaftLogReader LS}.

Definition try_get_log_entry (s : LS) (log_index : N) : Outcome (Result (option Entry) StorageError) :=
  res ← try_get_log_entries s log_index (log_index + 1);
  match res with RErr e => Done (RErr e) | ROk es => Done (ROk (list.last es)) end.

Definition get_log_id (s : LS) (log_index : N) : Outcome (Result LogId StorageError) :=
  res ← try_get_log_entries s log_index (log_index + 1);
  match res with
  | RErr e => Done (RErr e)
  | ROk [] => Done (RErr (StorageError.read_log_at_index log_index "log entry not found"))
  | ROk (ent :: _) => Done (ROk (Entry.log_id ent))
  end.

(** The loop of [LogIdList::get_key_log_ids] stops at a panic as at an error. *)
Definition stored_log_id (s : LS) (i : N) : Result LogId (string + StorageError) :=
  match get_log_id s i with
  | Done (ROk x) => ROk x
  | Done (RErr e) => RErr (inr e)
  | Panic why => RErr (inl why)
  end.

(** Enough iterations to load the keys of the entries from [first] to [last]. *)
Definition key_fuel (first last : LogId) : nat := 2 * N.to_nat (last.(index) - first.(index)) + 2.

Definition get_key_log_ids (s : LS) (first last : LogId) : Outcome (Result (list LogId) StorageError) :=
  match LogIdList.get_key_log_ids (stored_log_id s) (key_fuel first last) first last with
  | None => Panic "out of fuel"
  | Some (ROk keys) => Done (ROk keys)
  | Some (RErr (inl why)) => Panic why
  | Some (RErr (inr e)) => Done (RErr e)
  end.
End ext.
End RaftLogReader.

Module RaftLogStorage.
Class RaftLogStorage {C : RaftTypeConfig} (LS : Type) := {
  #[global] log_reader :: RaftLogReader.RaftLogReader LS;
  get_log_state : LS → Outcome (Result LogState StorageError);
  read_committed : LS → Outcome (Result (option LogId) StorageError);
  save_vote : Vote → ST LS (Result unit StorageError);
  save_committed : option LogId → ST LS (Result unit StorageError);
  (** Also returns what the callback sent before [append] returned. *)
  append : list Entry → IOFlushedCallback → ST LS (Result unit StorageError * list Notification);
  truncate : LogId → ST LS (Result unit StorageError);
  purge : LogId → ST LS (Result unit StorageError);
}.
End RaftLogStorage.

Module RaftStateMachine.
Class RaftStateMachine {C : RaftTypeConfig} (SM : Type) := {
  applied_state : SM → Outcome (Result (option LogId * StoredMembership) StorageError);
  get_current_snapshot : SM → Outcome (Result (option Snapshot) StorageError);
  apply : list Entry → ST SM (Result (list R) StorageError);
  begin_receiving_snapshot : ST SM (Result SnapshotData StorageError);
  install_snapshot : SnapshotMeta → SnapshotData → ST SM (Result unit StorageError);
  (** [get_snapshot_builder] and [RaftSnapshotBuilder::build_snapshot] *)
  build_snapshot : ST SM (Result Snapshot StorageError);
}.
End RaftStateMachine.

(** ** The abstract log store *)
Record LogView {C : RaftTypeConfig} := {
  lv_purged : option LogId;
  lv_log : gmap N Entry;
  lv_vote : option Vote;
  lv_committed : option LogId;
}.

Module LogSpec.
Section ops.
Context {C : RaftTypeConfig}.
Implicit Types v : LogView.

Definition empty : LogView := {| lv_purged := None; lv_log := ∅; lv_vote := None; lv_committed := None |}.
Definition set_log v l : LogView :=
  {| lv_purged := v.(lv_purged); lv_log := l; lv_vote := v.(lv_vote); lv_committed := v.(lv_committed) |}.

(** The indexes [start .. end_]. *)
Definition range (start end_ : N) : list N := (λ k, start + N.of_nat k)%N <$> seq 0 (N.to_nat (end_ - start)).

(** The entries from [start] to [end_], without the absent ones. *)
Definition read v (start end_ : N) : list Entry := omap (λ i, v.(lv_log) !! i) (range start end_).

(** The id of the last entry, or of the last purged one. *)
Definition last_log_id v : option LogId :=
  match list.last (btree_entries v.(lv_log)) with
  | Some (_, e) => Some (Entry.log_id e)
  | None => v.(lv_purged)
  end.

Definition save_vote v (vote : Vote) : LogView :=
  {| lv_purged := v.(lv_purged); lv_log := v.(lv_log); lv_vote := Some vote; lv_committed := v.(lv_committed) |}.
Definition save_committed v (c : option LogId) : LogView :=
  {| lv_purged := v.(lv_purged); lv_log := v.(lv_log); lv_vote := v.(lv_vote); lv_committed := c |}.
Definition insert_entry (l : gmap N Entry) (e : Entry) : gmap N Entry := <[Entry.index e := e]> l.
Definition append v (entries : list Entry) : LogView := set_log v (foldl insert_entry v.(lv_log) entries).
Definition truncate v (log_id : LogId) : LogView :=
  set_log v (filter (λ '(i, _), (i < log_id.(index))%N) v.(lv_log)).
Definition purge v (log_id : LogId) : LogView :=
  {| lv_purged := Some log_id; lv_log := filter (λ '(i, _), (log_id.(index) < i)%N) v.(lv_log);
     lv_vote := v.(lv_vote); lv_committed := v.(lv_committed) |}.

(** The id of the log at an index: of a present entry, or of the last purged one. *)
Definition ref v (i : N) : option LogId :=
  match v.(lv_purged) with
  | Some p => if decide (p.(index) = i) then Some p else Entry.log_id <$> v.(lv_log) !! i
  | None => Entry.log_id <$> v.(lv_log) !! i
  end.
End ops.
End LogSpec.

(** "Logs must be consecutive, i.e., there must NOT leave a hole in logs": the entries follow the last
    purged one without a hole, each under its own index, with leader ids that do not decrease. *)
Record log_ok {C : RaftTypeConfig} (v : LogView) : Prop := {
  lo_index : ∀ i e, v.(lv_log) !! i = Some e → Entry.index e = i;
  lo_start : ∀ i e, v.(lv_log) !! i = Some e → (next_index v.(lv_purged) ≤ i)%N;
  lo_dense : ∀ i j e, v.(lv_log) !! j = Some e → (next_index v.(lv_purged) ≤ i)%N → (i ≤ j)%N →
               is_Some (v.(lv_log) !! i);
  lo_mono : ∀ i j x y, LogSpec.ref v i = Some x → LogSpec.ref v j = Some y → (i ≤ j)%N →
              x.(leader_id) ⪯ y.(leader_id);
}.

(** ** What an implementation of the log store promises *)
Class LogStoreLaws {C : RaftTypeConfig} (LS : Type) `{!RaftLogStorage.RaftLogStorage LS} := {
  (** The errors the store may report, and the states it can be in. *)
  log_error : StorageError → Prop;
  log_inv : LS → Prop;
  log_view : LS → LogView;

  get_entries_law s a b : log_inv s → (a ≤ b)%N →
    wpr log_error (st_reads (λ s, RaftLogReader.try_get_log_entries s a b))
      (λ es _, es = LogSpec.read (log_view s) a b) s;
  limited_get_law s a b : log_inv s → (a < b)%N → log_ok (log_view s) → is_Some ((log_view s).(lv_log) !! a) →
    wpr log_error (st_reads (λ s, RaftLogReader.limited_get_log_entries s a b))
      (λ es _, es ≠ [] ∧ es `prefix_of` LogSpec.read (log_view s) a b) s;
  read_vote_law s : log_inv s →
    wpr log_error (st_reads (λ s, RaftLogReader.read_vote s)) (λ r _, r = (log_view s).(lv_vote)) s;
  get_log_state_law s : log_inv s →
    wpr log_error (st_reads (λ s, RaftLogStorage.get_log_state s))
      (λ r _, r = {| ls_last_purged_log_id := (log_view s).(lv_purged);
                     ls_last_log_id := LogSpec.last_log_id (log_view s) |}) s;
  read_committed_law s : log_inv s →
    wpr log_error (st_reads RaftLogStorage.read_committed) (λ r _, r = (log_view s).(lv_committed)) s;
  save_vote_law s v : log_inv s →
    wpr log_error (RaftLogStorage.save_vote v)
      (λ _ s', log_inv s' ∧ log_view s' = LogSpec.save_vote (log_view s) v) s;
  (** Saving the committed log id is optional. *)
  save_committed_law s c : log_inv s →
    wpr log_error (RaftLogStorage.save_committed c)
      (λ _ s', log_inv s' ∧ (log_view s' = LogSpec.save_committed (log_view s) c ∨ log_view s' = log_view s)) s;
  append_law s es cb : log_inv s →
    wp (RaftLogStorage.append es cb)
      (λ r s', match r.1 with
               | ROk _ => log_inv s' ∧ log_view s' = LogSpec.append (log_view s) es
               | RErr e => log_error e
               end) s;
  truncate_law s x : log_inv s →
    wpr log_error (RaftLogStorage.truncate x)
      (λ _ s', log_inv s' ∧ log_view s' = LogSpec.truncate (log_view s) x) s;
  purge_law s x : log_inv s → (log_view s).(lv_purged) ⪯ Some x →
    wpr log_error (RaftLogStorage.purge x)
      (λ _ s', log_inv s' ∧ log_view s' = LogSpec.purge (log_view s) x) s;
}.

(** ** What an implementation of the state machine promises

    [Sv] is what the state machine holds, [sm_step] applies one entry to it. *)
Class StateMachineLaws {C : RaftTypeConfig} (SM : Type) `{!RaftStateMachine.RaftStateMachine SM} := {
  sm_error : StorageError → Prop;
  sm_inv : SM → Prop;
  Sv : Type;
  sm_view : SM → Sv;
  sm_step : Sv → Entry → Sv;
  sv_applied : Sv → option LogId;
  sv_membership : Sv → StoredMembership;
  sm_snapshot : SM → option Snapshot;
  (** The snapshot carries this state. *)
  snapshot_of : Snapshot → Sv → Prop;

  sv_applied_law x e : sv_applied (sm_step x e) = Some (Entry.log_id e);
  sv_membership_law x e :
    sv_membership (sm_step x e) =
      match Entry.get_membership e with
      | Some m => {| stored_log_id := Some (Entry.log_id e); stored_membership_ := m |}
      | None => sv_membership x
      end;
  applied_state_law s : sm_inv s →
    wpr sm_error (st_reads RaftStateMachine.applied_state)
      (λ r _, r = (sv_applied (sm_view s), sv_membership (sm_view s))) s;
  current_snapshot_law s : sm_inv s →
    wpr sm_error (st_reads RaftStateMachine.get_current_snapshot) (λ r _, r = sm_snapshot s) s;
  apply_law s es : sm_inv s →
    wpr sm_error (RaftStateMachine.apply es)
      (λ r s', sm_inv s' ∧ length r = length es ∧ sm_view s' = foldl sm_step (sm_view s) es ∧
               sm_snapshot s' = sm_snapshot s) s;
  build_law s : sm_inv s →
    wpr sm_error RaftStateMachine.build_snapshot
      (λ r s', sm_inv s' ∧ sm_view s' = sm_view s ∧ sm_snapshot s' = Some r ∧ snapshot_of r (sm_view s)) s;
  begin_receiving_law s : sm_inv s →
    wpr sm_error RaftStateMachine.begin_receiving_snapshot
      (λ _ s', sm_inv s' ∧ sm_view s' = sm_view s ∧ sm_snapshot s' = sm_snapshot s) s;
  snapshot_of_law r x : snapshot_of r x →
    r.(meta).(meta_last_log_id) = sv_applied x ∧ r.(meta).(last_membership) = sv_membership x;
  install_law s r x : sm_inv s → snapshot_of r x →
    wpr sm_error (RaftStateMachine.install_snapshot r.(meta) r.(snapshot_data))
      (λ _ s', sm_inv s' ∧ sm_view s' = x ∧ sm_snapshot s' = Some r) s;
}.

(** ** Lemmas on ordered maps *)
Section btree.
Context {A : Type}.
Implicit Types m : gmap N A.

Definition key_strict (a b : N * A) : Prop := (a.1 < b.1)%N.
#[local] Instance key_le_total : Total (key_le (A := A)).
Proof. intros [i a] [j b]. rw /key_le /=. lia. Qed.
#[local] Instance key_le_trans : Transitive (key_le (A := A)).
Proof. intros [i a] [j b] [k c]. rw /key_le /=. lia. Qed.
#[local] Instance key_strict_trans : Transitive key_strict.
Proof. intros [i a] [j b] [k c]. rw /key_strict /=. lia. Qed.

Lemma elem_of_btree m i a : (i, a) ∈ btree_entries m ↔ m !! i = Some a.
Proof. rw /btree_entries merge_sort_Permutation. apply elem_of_map_to_list. Qed.

Lemma btree_sorted m : StronglySorted key_strict (btree_entries m).
Proof.
  assert (StronglySorted key_le (btree_entries m)) as Hs by (apply StronglySorted_merge_sort; apply _).
  assert (NoDup (btree_entries m).*1) as Hd.
  { rw /btree_entries. rewrite (fmap_Permutation fst _ _ (merge_sort_Permutation _ _)). apply NoDup_fst_map_to_list. }
  revert Hs Hd. generalize (btree_entries m). intros l Hs. induction Hs as [|x l Hs IH Hx]; intros Hd; [constructor|].
  apply NoDup_cons in Hd as [Hni Hd]. constructor; [by apply IH|]. rewrite Forall_forall in Hx. apply Forall_forall. intros y Hy.
  specialize (Hx y Hy). rw /key_le in Hx. rw /key_strict. assert (x.1 ≠ y.1); [|lia].
  intros Heq. apply Hni. rw Heq. by apply list_elem_of_fmap_2.
Qed.

Lemma btree_last m :
  match list.last (btree_entries m) with
  | Some (i, a) => m !! i = Some a ∧ ∀ j b, m !! j = Some b → (j ≤ i)%N
  | None => m = ∅
  end.
Proof.
  pose proof (btree_sorted m) as Hs. destruct (list.last (btree_entries m)) as [[i a]|] eqn:Hl.
  - apply last_Some in Hl as [l Hl]. split; [apply elem_of_btree; rw Hl; set_solver|].
    intros j b Hj%elem_of_btree. rw Hl in Hj Hs. apply elem_of_app in Hj as [Hj|Hj%list_elem_of_singleton].
    + eapply StronglySorted_app_1_elem_of in Hs; [|done|by apply list_elem_of_singleton]. rw /key_strict /= in Hs. lia.
    + injection Hj as -> ->. lia.
  - apply last_None in Hl. apply map_empty. intros i. destruct (m !! i) as [a|] eqn:Hi; [|done].
    apply elem_of_btree in Hi. rw Hl in Hi. by apply not_elem_of_nil in Hi.
Qed.

(** Two strictly sorted lists with the same elements are equal. *)
Lemma strict_sorted_eq (l1 l2 : list (N * A)) :
  StronglySorted key_strict l1 → StronglySorted key_strict l2 → (∀ x, x ∈ l1 ↔ x ∈ l2) → l1 = l2.
Proof.
  intros H1. revert l2. induction H1 as [|x l1 H1 IH Hx]; intros l2 H2 Hel.
  { destruct l2 as [|y l2]; [done|]. exfalso. apply (not_elem_of_nil y), Hel. set_solver. }
  destruct H2 as [|y l2 H2 Hy].
  { exfalso. apply (not_elem_of_nil x), Hel. set_solver. }
  rewrite Forall_forall in Hx. rewrite Forall_forall in Hy.
  assert (x = y) as ->.
  { assert (x ∈ y :: l2) as Hx1 by (apply Hel; set_solver).
    assert (y ∈ x :: l1) as Hy1 by (apply Hel; set_solver).
    apply elem_of_cons in Hx1 as [-> |Hx']; [done|].
    apply elem_of_cons in Hy1 as [-> |Hy']; [done|].
    specialize (Hx _ Hy'). specialize (Hy _ Hx'). rw /key_strict in Hx Hy. lia. }
  f_equal. apply IH; [done|]. intros z. split; intros Hz.
  - assert (z ∈ y :: l2) as Hz' by (apply Hel; set_solver).
    apply elem_of_cons in Hz' as [-> |?]; [|done].
    specialize (Hx _ Hz). rw /key_strict in Hx. lia.
  - assert (z ∈ y :: l1) as Hz' by (apply Hel; set_solver).
    apply elem_of_cons in Hz' as [-> |?]; [|done].
    specialize (Hy _ Hz). rw /key_strict in Hy. lia.
Qed.
End btree.

(** ** Lemmas on the abstract log store *)
Section log_spec.
Context {C : RaftTypeConfig}.
Implicit Types v : LogView.
Import LogSpec.

Lemma elem_of_range i a b : i ∈ range a b ↔ (a ≤ i)%N ∧ (i < b)%N.
Proof.
  rw /range list_elem_of_fmap. split.
  - intros (k & -> & Hk%elem_of_seq). lia.
  - intros [??]. exists (N.to_nat (i - a)). split; [lia|]. apply elem_of_seq. lia.
Qed.

Lemma range_cons a b : (a < b)%N → range a b = a :: range (a + 1) b.
Proof.
  intros Hab. rw /range. replace (N.to_nat (b - a)) with (S (N.to_nat (b - (a + 1)))) by lia.
  cbn [seq fmap list_fmap]. f_equal; [lia|]. rw -fmap_S_seq -list_fmap_compose. apply list_fmap_ext.
  intros k x _. cbn. lia.
Qed.

Lemma range_app a b c : (a ≤ b)%N → (b ≤ c)%N → range a c = range a b ++ range b c.
Proof.
  intros Hab Hbc. rw /range. replace (N.to_nat (c - a)) with (N.to_nat (b - a) + N.to_nat (c - b)) by lia.
  rw seq_app fmap_app. f_equal. apply list_eq. intros k. rw !list_lookup_fmap.
  destruct (decide (k < N.to_nat (c - b))) as [Hk|Hk].
  - rw !lookup_seq_lt //. cbn. f_equal. lia.
  - rw !lookup_seq_ge //; lia.
Qed.

Lemma read_split v a b c : (a ≤ b)%N → (b ≤ c)%N → read v a c = read v a b ++ read v b c.
Proof. intros ??. by rw /read (range_app a b c) // omap_app. Qed.

Lemma read_cons v a b e : (a < b)%N → v.(lv_log) !! a = Some e → read v a b = e :: read v (a + 1) b.
Proof. intros Hab He. rw /read range_cons //=. by rw He. Qed.

Lemma elem_of_read v a b e :
  e ∈ read v a b ↔ ∃ i, (a ≤ i)%N ∧ (i < b)%N ∧ v.(lv_log) !! i = Some e.
Proof. rw /read list_elem_of_omap. setoid_rewrite elem_of_range. naive_solver. Qed.

(** *** A log without holes *)
Section ok.
Context v (Hok : log_ok v).

Lemma last_bound i e : v.(lv_log) !! i = Some e → (i < next_index (last_log_id v))%N.
Proof using Hok.
  intros He. rw /last_log_id. pose proof (btree_last v.(lv_log)) as Hl.
  destruct (list.last (btree_entries v.(lv_log))) as [[j x]|].
  - destruct Hl as [Hj Hmax]. specialize (Hmax _ _ He). pose proof (lo_index v Hok _ _ Hj) as Hx.
    rw /Entry.index in Hx. cbn. rw /Entry.log_id. lia.
  - rw Hl in He. done.
Qed.

Lemma purged_next_last : (next_index v.(lv_purged) ≤ next_index (last_log_id v))%N.
Proof using Hok.
  rw /last_log_id. pose proof (btree_last v.(lv_log)) as Hl.
  destruct (list.last (btree_entries v.(lv_log))) as [[j x]|]; [|lia].
  destruct Hl as [Hj _]. pose proof (lo_start v Hok _ _ Hj). pose proof (lo_index v Hok _ _ Hj) as Hx.
  rw /Entry.index in Hx. cbn. rw /Entry.log_id. lia.
Qed.

Lemma log_total i :
  (next_index v.(lv_purged) ≤ i)%N → (i < next_index (last_log_id v))%N → is_Some (v.(lv_log) !! i).
Proof using Hok.
  rw /last_log_id. pose proof (btree_last v.(lv_log)) as Hl.
  destruct (list.last (btree_entries v.(lv_log))) as [[j x]|]; [|lia].
  destruct Hl as [Hj _]. pose proof (lo_index v Hok _ _ Hj) as Hx. rw /Entry.index in Hx. cbn. rw /Entry.log_id.
  intros ??. eapply (lo_dense v Hok i j); [done..|lia].
Qed.

Lemma ref_present i e : v.(lv_log) !! i = Some e → ref v i = Some (Entry.log_id e).
Proof using Hok.
  intros He. pose proof (lo_start v Hok _ _ He) as Hs. rw /ref He.
  destruct (v.(lv_purged)) as [p|]; [|done]. cbn in Hs. rw decide_False; [lia|done].
Qed.

Lemma ref_at_index i x : ref v i = Some x → x.(index) = i.
Proof using Hok.
  rw /ref. destruct (v.(lv_purged)) as [p|]; [case_decide as Hp; [by intros [= <-]|]|];
    intros (e & He & ->)%fmap_Some; exact (lo_index v Hok _ _ He).
Qed.

Lemma ref_purged p : v.(lv_purged) = Some p → ref v p.(index) = Some p.
Proof using. intros Hp. rw /ref Hp. by rw decide_True. Qed.

Lemma ref_bound i x : ref v i = Some x → (next_index v.(lv_purged) ≤ i + 1)%N ∧ (i < next_index (last_log_id v))%N.
Proof using Hok.
  pose proof purged_next_last as Hpl. rw /ref.
  destruct (v.(lv_purged)) as [p|] eqn:Hp; [case_decide as Hi|].
  - intros [= <-]. rw -Hi in Hpl |- *. cbn in Hpl |- *. lia.
  - intros (e & He & ->)%fmap_Some. pose proof (lo_start v Hok _ _ He). pose proof (last_bound _ _ He).
    rw Hp in H. lia.
  - intros (e & He & ->)%fmap_Some. pose proof (last_bound _ _ He). cbn. lia.
Qed.

Lemma ref_defined i :
  (next_index v.(lv_purged) ≤ i + 1)%N → (i < next_index (last_log_id v))%N → is_Some (ref v i).
Proof using Hok.
  intros H1 H2. destruct (decide (next_index v.(lv_purged) ≤ i)%N) as [Hle|Hgt].
  - destruct (log_total i Hle H2) as [e He]. rw (ref_present _ _ He). eauto.
  - rw /ref. destruct (v.(lv_purged)) as [p|]; [|cbn in Hgt; lia]. cbn in *. rw decide_True; [lia|eauto].
Qed.

Lemma ref_last_log_id x : last_log_id v = Some x → ref v x.(index) = Some x.
Proof using Hok.
  rw /last_log_id. pose proof (btree_last v.(lv_log)) as Hl.
  destruct (list.last (btree_entries v.(lv_log))) as [[j e]|].
  - intros [= <-]. destruct Hl as [Hj _]. pose proof (lo_index v Hok _ _ Hj) as He.
    change (index (Entry.log_id e)) with (Entry.index e). rw He. by apply ref_present.
  - apply ref_purged.
Qed.

Lemma ref_order i j x y : ref v i = Some x → ref v j = Some y → x ⪯ y ↔ (i ≤ j)%N.
Proof using Hok.
  intros Hx Hy. pose proof (ref_at_index _ _ Hx) as Hi. pose proof (ref_at_index _ _ Hy) as Hj. split.
  - intros Hle. destruct (decide (i ≤ j)%N) as [|Hgt]; [done|]. exfalso.
    assert (y ≺ x) as Hlt; [|order]. apply log_id_lt_of_index; [|lia]. eapply (lo_mono v Hok); [done..|lia].
  - intros Hle. pose proof (lo_mono v Hok _ _ _ _ Hx Hy Hle) as Hl. apply log_id_ole.
    apply ole_lt_eq in Hl as [?|?]; [by left|right; split; [done|lia]].
Qed.

(** Without holes, reading gives every index. *)
Lemma read_lookup a b k :
  (next_index v.(lv_purged) ≤ a)%N → (b ≤ next_index (last_log_id v))%N → (k < N.to_nat (b - a)) →
  read v a b !! k = v.(lv_log) !! (a + N.of_nat k)%N.
Proof using Hok.
  intros Ha Hb. revert a Ha. induction k as [|k IH]; intros a Ha Hk;
    (destruct (log_total a Ha) as [e He]; [lia|]); rw (read_cons v a b e) //; try lia; cbn [lookup list_lookup].
  - by rw N.add_0_r.
  - rw (IH (a + 1)%N); [lia..|]. f_equal. lia.
Qed.

Lemma read_length a b :
  (next_index v.(lv_purged) ≤ a)%N → (b ≤ next_index (last_log_id v))%N → length (read v a b) = N.to_nat (b - a).
Proof using Hok.
  intros Ha Hb. transitivity (length (range a b)); [|by rw /range length_fmap length_seq]. rw /read.
  assert (Forall (λ i, is_Some (v.(lv_log) !! i)) (range a b)) as Hall.
  { apply Forall_forall. intros i [??]%elem_of_range. apply log_total; lia. }
  induction Hall as [|i l [e He] _ IH]; [done|]. simpl. rw He. simpl. by f_equal.
Qed.
End ok.
End log_spec.

(** ** Log ids of the stored log *)
Section pointers.
Context {C : RaftTypeConfig}.
Implicit Types v : LogView.

(** [p] is [None] or the id of the stored log at its index. *)
Definition ref_ptr v (p : option LogId) : Prop := ∀ x, p = Some x → LogSpec.ref v x.(index) = Some x.

Lemma ref_ptr_last v p : log_ok v → ref_ptr v p → (next_index p ≤ next_index (LogSpec.last_log_id v))%N.
Proof.
  intros Hok Hp. destruct p as [x|]; [|cbn; lia]. destruct (ref_bound v Hok _ _ (Hp x eq_refl)) as [_ ?]. cbn. lia.
Qed.

Lemma ref_ptr_le v p q : log_ok v → ref_ptr v p → ref_ptr v q → p ⪯ q ↔ (next_index p ≤ next_index q)%N.
Proof.
  intros Hok Hp Hq. destruct p as [x|]; [|split; [intros _; cbn; lia|intros _; apply None_le]].
  destruct q as [y|]; [|split; [done|cbn; lia]].
  rw Some_ole (ref_order v Hok _ _ _ _ (Hp x eq_refl) (Hq y eq_refl)). cbn. lia.
Qed.

Lemma ref_ptr_purged v : ref_ptr v v.(lv_purged).
Proof. intros x. apply ref_purged. Qed.
End pointers.

Lemma empty_log_ok {C : RaftTypeConfig} p v c : p = None →
  log_ok {| lv_purged := p; lv_log := ∅; lv_vote := v; lv_committed := c |}.
Proof. intros ->. split; intros *; rw /LogSpec.ref /= ?lookup_empty //. Qed.

(** ** Writing to the log store without leaving a hole *)

(** A write to the log store. *)
Inductive LogOp {C : RaftTypeConfig} :=
| Op_SaveVote (v : Vote)
| Op_SaveCommitted (c : option LogId)
| Op_Append (es : list Entry) (cb : IOFlushedCallback)
| Op_Truncate (x : LogId)
| Op_Purge (x : LogId).

Section log_ops.
Context {C : RaftTypeConfig}.
Implicit Types v : LogView.

Definition exec_op {LS} `{!RaftLogStorage.RaftLogStorage LS} (op : LogOp) : ST LS (Result unit StorageError) :=
  match op with
  | Op_SaveVote v => RaftLogStorage.save_vote v
  | Op_SaveCommitted c => RaftLogStorage.save_committed c
  | Op_Append es cb => r ← RaftLogStorage.append es cb; mret r.1
  | Op_Truncate x => RaftLogStorage.truncate x
  | Op_Purge x => RaftLogStorage.purge x
  end.
Fixpoint exec_ops {LS} `{!RaftLogStorage.RaftLogStorage LS} (ops : list LogOp) : ST LS (Result unit StorageError) :=
  match ops with [] => mret (ROk tt) | op :: ops => _ ←? exec_op op; exec_ops ops end.

(** [saves]: whether the store saves committed ids. *)
Definition spec_op (saves : bool) v (op : LogOp) : LogView :=
  match op with
  | Op_SaveVote vote => LogSpec.save_vote v vote
  | Op_SaveCommitted c => if saves then LogSpec.save_committed v c else v
  | Op_Append es _ => LogSpec.append v es
  | Op_Truncate x => LogSpec.truncate v x
  | Op_Purge x => LogSpec.purge v x
  end.

(** The entries [es] follow [last]: the next indexes, leaders that do not decrease. *)
Fixpoint entries_follow (last : option LogId) (es : list Entry) : Prop :=
  match es with
  | [] => True
  | e :: es => Entry.index e = next_index last ∧ opt_leader_id last ⪯ Some (Entry.log_id e).(leader_id) ∧
               entries_follow (Some (Entry.log_id e)) es
  end.

(** What the engine asks of the log store: entries are appended at the end, nothing purged is
    truncated, and the log is purged up to one of its entries or replaced by a later id. *)
Definition legal_op v (op : LogOp) : Prop :=
  match op with
  | Op_Append es _ => entries_follow (LogSpec.last_log_id v) es
  | Op_Truncate x => (next_index v.(lv_purged) ≤ x.(index))%N
  | Op_Purge x => v.(lv_purged) ⪯ Some x ∧
      (LogSpec.ref v x.(index) = Some x ∨ (next_index (LogSpec.last_log_id v) ≤ x.(index))%N)
  | _ => True
  end.
Fixpoint legal_ops saves v (ops : list LogOp) : Prop :=
  match ops with [] => True | op :: ops => legal_op v op ∧ legal_ops saves (spec_op saves v op) ops end.

Lemma log_ok_fields v v' :
  v'.(lv_log) = v.(lv_log) → v'.(lv_purged) = v.(lv_purged) → log_ok v → log_ok v'.
Proof.
  intros Hl Hp [H1 H2 H3 H4]. split; rw ?Hl ?Hp //. intros i j x y. rw /LogSpec.ref Hl Hp. apply H4.
Qed.

Lemma lookup_filter_dec (P : N → Prop) `{!∀ k, Decision (P k)} (m : gmap N Entry) i e :
  filter (λ '(k, _), P k) m !! i = Some e ↔ m !! i = Some e ∧ P i.
Proof. apply map_lookup_filter_Some. Qed.

Lemma truncate_ok v x : log_ok v → (next_index v.(lv_purged) ≤ x.(index))%N → log_ok (LogSpec.truncate v x).
Proof.
  intros Hok Hx. set (v' := LogSpec.truncate v x).
  assert (∀ i y, LogSpec.ref v' i = Some y → LogSpec.ref v i = Some y) as Href.
  { intros i y. rw /LogSpec.ref. cbn. destruct (v.(lv_purged)) as [p|]; [case_decide; [done|]|];
      intros (e & He & ->)%fmap_Some; apply lookup_filter_dec in He as [-> _]; done. }
  split.
  - intros i e [He _]%lookup_filter_dec. by apply (lo_index v Hok).
  - intros i e [He _]%lookup_filter_dec. by apply (lo_start v Hok i e).
  - intros i j e [He Hj]%lookup_filter_dec Hi Hij. destruct (lo_dense v Hok i j e He Hi Hij) as [e' He'].
    exists e'. apply lookup_filter_dec. split; [done|]. cbn in *. lia.
  - intros i j a b Ha%Href Hb%Href. by apply (lo_mono v Hok).
Qed.

(** Purging up to an entry of the log, which stays as the last purged id. *)
Lemma purge_within_ok v x : log_ok v → LogSpec.ref v x.(index) = Some x → log_ok (LogSpec.purge v x) ∧
  ∀ i, LogSpec.ref (LogSpec.purge v x) i = if (i <? x.(index))%N then None else LogSpec.ref v i.
Proof.
  intros Hok Hx. assert (∀ i, LogSpec.ref (LogSpec.purge v x) i = if (i <? x.(index))%N then None else LogSpec.ref v i) as Href.
  { intros i. rw {1}/LogSpec.ref. cbn. case_decide as Hi; [subst i; destruct (N.ltb_spec (index x) (index x)); [lia|done]|].
    destruct (filter _ _ !! i) as [e|] eqn:He.
    - apply lookup_filter_dec in He as [He Hlt]. destruct (N.ltb_spec i (index x)); [lia|]. by rw (ref_present v Hok _ _ He).
    - destruct (N.ltb_spec i (index x)) as [|Hge]; [done|]. cbn. destruct (LogSpec.ref v i) as [y|] eqn:Hy; [|done].
      destruct (ref_bound v Hok _ _ Hx) as [Hb _]. destruct (ref_bound v Hok _ _ Hy) as [_ Hb'].
      destruct (log_total v Hok i) as [e He']; [lia|done|].
      assert (filter (λ '(k, _), (index x < k)%N) (lv_log v) !! i = Some e) as Hf.
      { apply lookup_filter_dec. split; [done|lia]. }
      congruence. }
  split; [|done]. destruct (ref_bound v Hok _ _ Hx) as [Hbx _]. split.
  - intros i e [He _]%lookup_filter_dec. by apply (lo_index v Hok).
  - intros i e [He Hi]%lookup_filter_dec. cbn. lia.
  - intros i j e [He Hj]%lookup_filter_dec Hi Hij. cbn in Hi. destruct (lo_dense v Hok i j e He) as [e' He']; [lia..|].
    exists e'. apply lookup_filter_dec. split; [done|lia].
  - intros i j a b. rw !Href. destruct (i <? index x)%N, (j <? index x)%N; try done. apply (lo_mono v Hok).
Qed.

(** Purging everything: the log is replaced by the id [x]. *)
Lemma purge_all v x :
  log_ok v → (next_index (LogSpec.last_log_id v) ≤ x.(index))%N →
  log_ok (LogSpec.purge v x) ∧ LogSpec.last_log_id (LogSpec.purge v x) = Some x ∧
  ∀ i, LogSpec.ref (LogSpec.purge v x) i = if decide (x.(index) = i) then Some x else None.
Proof.
  intros Hok Hx. assert (lv_log (LogSpec.purge v x) = ∅) as He.
  { apply map_empty. intros i. cbn. destruct (filter _ _ !! i) as [e|] eqn:Hi; [|done].
    apply map_lookup_filter_Some in Hi as [Hi Hlt]. pose proof (last_bound v Hok _ _ Hi). lia. }
  assert (∀ i, LogSpec.ref (LogSpec.purge v x) i = if decide (x.(index) = i) then Some x else None) as Hr.
  { intros i. rw /LogSpec.ref He lookup_empty. done. }
  split_and!; [|by rw /LogSpec.last_log_id He|done]. split.
  1-3: rw He; intros *; by rw lookup_empty.
  intros i j a b. rw !Hr. repeat case_decide; try done. intros [= <-] [= <-] _. apply ole_refl.
Qed.

Lemma append_one_ok v e :
  log_ok v → Entry.index e = next_index (LogSpec.last_log_id v) →
  opt_leader_id (LogSpec.last_log_id v) ⪯ Some (Entry.log_id e).(leader_id) →
  let v' := LogSpec.set_log v (LogSpec.insert_entry v.(lv_log) e) in
  log_ok v' ∧ LogSpec.last_log_id v' = Some (Entry.log_id e) ∧
  ∀ i, LogSpec.ref v' i = if (i =? Entry.index e)%N then Some (Entry.log_id e) else LogSpec.ref v i.
Proof.
  intros Hok Hi Hl v'. pose proof (purged_next_last v Hok) as Hpl.
  assert (∀ i, LogSpec.ref v' i = if (i =? Entry.index e)%N then Some (Entry.log_id e) else LogSpec.ref v i) as Href.
  { intros i. rw /LogSpec.ref. cbn. rw /LogSpec.insert_entry. destruct (N.eqb_spec i (Entry.index e)) as [-> |Hne].
    - rw lookup_insert_eq. destruct (v.(lv_purged)) as [p|]; [|done]. rw decide_False; [|done]. cbn in Hpl. lia.
    - by rw lookup_insert_ne. }
  assert (∀ i y, LogSpec.ref v i = Some y → y.(leader_id) ⪯ (Entry.log_id e).(leader_id)) as Hmax.
  { intros i y Hy. destruct (ref_bound v Hok _ _ Hy) as [_ Hlt]. destruct (LogSpec.last_log_id v) as [q|] eqn:Hq; [|cbn in Hlt; lia].
    cbn in Hl, Hlt. assert (y.(leader_id) ⪯ q.(leader_id)).
    { eapply (lo_mono v Hok); [done|by apply ref_last_log_id|lia]. }
    change (Some (leader_id q) ⪯ Some (leader_id (Entry.log_id e))) in Hl. rewrite Some_ole in Hl. order. }
  split_and!; [|..|done].
  - split.
    + intros i x. cbn. rw /LogSpec.insert_entry lookup_insert_Some. intros [[<- <-]|[_ Hx]]; [done|by apply (lo_index v Hok)].
    + intros i x. cbn. rw /LogSpec.insert_entry lookup_insert_Some. intros [[<- <-]|[_ Hx]]; [lia|by apply (lo_start v Hok i x)].
    + intros i j x. cbn. rw /LogSpec.insert_entry !lookup_insert_is_Some lookup_insert_Some.
      intros [[<- <-]|[Hne Hx]] Hpi Hij; (destruct (decide (Entry.index e = i)) as [|Hni]; [by left|right; split; [done|]]).
      * apply (log_total v Hok); [done|lia].
      * by eapply (lo_dense v Hok).
    + intros i j a b. rw !Href. destruct (N.eqb_spec i (Entry.index e)) as [-> |Hni], (N.eqb_spec j (Entry.index e)) as [-> |Hnj].
      * intros [= <-] [= <-] _. apply ole_refl.
      * intros [= <-] Hb Hij. destruct (ref_bound v Hok _ _ Hb). lia.
      * intros Ha [= <-] _. by apply Hmax in Ha.
      * apply (lo_mono v Hok).
  - rw /LogSpec.last_log_id. pose proof (btree_last v'.(lv_log)) as Hb. cbn in Hb |- *.
    assert (LogSpec.insert_entry (lv_log v) e !! Entry.index e = Some e) as He by apply lookup_insert_eq.
    destruct (list.last _) as [[j x]|]; [|by rw Hb in He]. destruct Hb as [Hj Hmaxj]. specialize (Hmaxj _ _ He).
    rw /LogSpec.insert_entry lookup_insert_Some in Hj. destruct Hj as [[_ ->]|[Hne Hj]]; [done|].
    pose proof (last_bound v Hok _ _ Hj). lia.
Qed.

Lemma append_ok v es :
  log_ok v → entries_follow (LogSpec.last_log_id v) es →
  log_ok (LogSpec.append v es) ∧
  LogSpec.last_log_id (LogSpec.append v es) =
    (match list.last es with Some e => Some (Entry.log_id e) | None => LogSpec.last_log_id v end) ∧
  ∀ i y, LogSpec.ref v i = Some y → LogSpec.ref (LogSpec.append v es) i = Some y.
Proof.
  revert v. induction es as [|e es IH]; intros v Hok Hf.
  { assert (LogSpec.append v [] = v) as -> by (by destruct v). done. }
  destruct Hf as (Hi & Hl & Hf). destruct (append_one_ok v e Hok Hi Hl) as (Hok' & Hlast & Href).
  set (v' := LogSpec.set_log v (LogSpec.insert_entry v.(lv_log) e)) in *.
  change (LogSpec.append v (e :: es)) with (LogSpec.append v' es). rw -Hlast in Hf.
  destruct (IH v' Hok' Hf) as (H1 & H2 & H3). split_and!; [done| |].
  - rw H2 Hlast last_cons. by destruct (list.last es).
  - intros i y Hy. apply H3. rw Href. destruct (N.eqb_spec i (Entry.index e)) as [-> |]; [|done].
    destruct (ref_bound v Hok _ _ Hy). lia.
Qed.

(** Every legal write keeps the log without holes. *)
Lemma legal_op_ok saves v op : log_ok v → legal_op v op → log_ok (spec_op saves v op).
Proof.
  intros Hok Hl. destruct op as [vt|c|es cb|x|x]; cbn in Hl |- *.
  - by apply (log_ok_fields v).
  - destruct saves; [|done]. by apply (log_ok_fields v).
  - by apply append_ok.
  - by apply truncate_ok.
  - destruct Hl as [_ [Hr|Hb]]; [by apply purge_within_ok|by apply purge_all].
Qed.
End log_ops.
