(* ===== verification/Replication.v ===== *)
(** * The replication task (openraft/src/replication/)

    A leader runs one [ReplicationCore] task per follower.  It takes the requests of [RaftCore] (the
    commit position, or data to send: a range of logs or a snapshot), reads the logs, sends one
    append-entries RPC at a time, reports progress to [RaftCore] with notifications, and keeps what is
    still to send in [next_action].  The task is the record of its fields; what it does to the outside
    is recorded in it: the notifications and RPCs sent, the snapshot transmissions started.

    What the task cannot decide itself is its environment: the RPC responses, the clock, the log
    store as it is at each read, the snapshots the state machine returns and the backoff of the
    network are functions of the number of the interaction, so that they may be anything.  The events
    that arrive at the channel while the task drains it are given as one [Drain] per round of the main
    loop.  [SnapshotReader::get_snapshot] and the transmission of a snapshot are other tasks. *)

From S2P Require Export Storage.

(** ** [ReplicationHint] (replication/hint.rs) *)
Record ReplicationHint := { hint_n : N; hint_ttl : N }.

Module ReplicationHint.
Definition default : ReplicationHint := {| hint_n := 0; hint_ttl := 0 |}.
Definition new (n ttl : N) : ReplicationHint := {| hint_n := n; hint_ttl := ttl |}.
Definition get (h : ReplicationHint) : option N * ReplicationHint :=
  if (0 <? h.(hint_ttl))%N then (Some h.(hint_n), {| hint_n := h.(hint_n); hint_ttl := h.(hint_ttl) - 1 |})
  else (None, h).
End ReplicationHint.

(** ** The network (network/rpc_option.rs, network/backoff.rs) *)
Record RPCOption := { hard_ttl : Duration; snapshot_chunk_size : option N }.

Module RPCOption.
Definition new (hard_ttl : Duration) : RPCOption := {| hard_ttl := hard_ttl; snapshot_chunk_size := None |}.
Definition soft_ttl (o : RPCOption) : Duration := (o.(hard_ttl) * 3 / 4)%N.
End RPCOption.

(** An iterator of durations: what it yields next, and then. *)
Record Backoff := { backoff_inner : nat → option Duration; backoff_pos : nat }.

Module Backoff.
Definition new (iter : nat → option Duration) : Backoff := {| backoff_inner := iter; backoff_pos := 0 |}.
Definition next (b : Backoff) : option Duration * Backoff :=
  (b.(backoff_inner) b.(backoff_pos), {| backoff_inner := b.(backoff_inner); backoff_pos := S b.(backoff_pos) |}).
(** The default of [RaftNetworkV2::backoff]. *)
Definition constant : Backoff := new (λ _, Some 500%N).
End Backoff.

(** ** The task *)

(** The outside of the task, at its [k]-th interaction. *)
Record ReplEnv {C : RaftTypeConfig} (LS : Type) := {
  (** The response to an append-entries RPC, [None] when the timeout elapses first. *)
  env_append : nat → AppendEntriesRequest → option (Result AppendEntriesResponse (RPCError Empty_set));
  env_now : nat → Instant;
  env_log : nat → LS;
  env_snapshot : nat → Result (option Snapshot) string;
  env_backoff : nat → Backoff;
  (** The formatting of an error. *)
  env_show : RPCError Empty_set → string;
}.
Arguments env_append {C LS} _.
Arguments env_now {C LS} _.
Arguments env_log {C LS} _.
Arguments env_snapshot {C LS} _.
Arguments env_backoff {C LS} _.
Arguments env_show {C LS} _.

(** A snapshot transmission that was started. *)
Record SnapshotStream {C : RaftTypeConfig} := {
  ss_vote : Vote;
  ss_snapshot : Snapshot;
  ss_option : RPCOption;
}.

Record ReplicationCore {C : RaftTypeConfig} := {
  target : NodeId;
  session_id : ReplicationSessionId;
  (** The running transmission: its position in [r_streams]. *)
  snapshot_state : option nat;
  backoff : option Backoff;
  config : Config.Config;
  committed : option LogId;
  matching : option LogId;
  next_action : option Data;
  entries_hint : ReplicationHint;
  r_steps : nat;
  r_sent : list Notification;
  (** The RPCs sent, with the number of the interaction. *)
  r_requests : list (nat * AppendEntriesRequest);
  r_streams : list SnapshotStream;
}.

(** What arrives while the task drains its channel: in the backoff interval, and after it.  [closed]
    says that [RaftCore] dropped the sender, which the task sees when the channel is empty. *)
Record Drain {C : RaftTypeConfig} := {
  backoff_events : list Replicate;
  backoff_closed : bool;
  events : list Replicate;
  closed : bool;
}.

(** How a run of the main loop ends: the task returns, it waits for an event, or the rounds that are
    given are over. *)
Inductive Exit :=
| Returned (r : Result unit ReplicationClosed)
| Waiting
| Running.

Module ReplicationCore.
Section setters.
Context {C : RaftTypeConfig}.
Implicit Types s : ReplicationCore.

(** All fields but one stay as they are. *)
Definition with_state s (sn : option nat) (b : option Backoff) (c m : option LogId) (a : option Data)
    (h : ReplicationHint) : ReplicationCore :=
  {| target := s.(target); session_id := s.(session_id); snapshot_state := sn; backoff := b;
     config := s.(config); committed := c; matching := m; next_action := a; entries_hint := h;
     r_steps := s.(r_steps); r_sent := s.(r_sent); r_requests := s.(r_requests); r_streams := s.(r_streams) |}.
Definition set_snapshot_state s x :=
  with_state s x s.(backoff) s.(committed) s.(matching) s.(next_action) s.(entries_hint).
Definition set_backoff s x :=
  with_state s s.(snapshot_state) x s.(committed) s.(matching) s.(next_action) s.(entries_hint).
Definition set_committed s x :=
  with_state s s.(snapshot_state) s.(backoff) x s.(matching) s.(next_action) s.(entries_hint).
Definition set_matching s x :=
  with_state s s.(snapshot_state) s.(backoff) s.(committed) x s.(next_action) s.(entries_hint).
Definition set_next_action s x :=
  with_state s s.(snapshot_state) s.(backoff) s.(committed) s.(matching) x s.(entries_hint).
Definition set_entries_hint s x :=
  with_state s s.(snapshot_state) s.(backoff) s.(committed) s.(matching) s.(next_action) x.
Definition with_outside s (k : nat) (n : list Notification) (q : list (nat * AppendEntriesRequest))
    (t : list SnapshotStream) : ReplicationCore :=
  {| target := s.(target); session_id := s.(session_id); snapshot_state := s.(snapshot_state);
     backoff := s.(backoff); config := s.(config); committed := s.(committed); matching := s.(matching);
     next_action := s.(next_action); entries_hint := s.(entries_hint);
     r_steps := k; r_sent := n; r_requests := q; r_streams := t |}.
End setters.

Section ops.
Context {C : RaftTypeConfig} {LS : Type} `{!RaftLogReader.RaftLogReader LS}.
Context (env : ReplEnv LS).
Implicit Types s : ReplicationCore.
Notation R A := (ST ReplicationCore A).
Notation RM A := (ST ReplicationCore (Result A ReplicationError)).

(** [ReplicationCore::spawn] *)
Definition spawn (target : NodeId) (session_id : ReplicationSessionId) (config : Config.Config)
    (committed matching : option LogId) : ReplicationCore :=
  {| target := target; session_id := session_id; snapshot_state := None; backoff := None; config := config;
     committed := committed; matching := matching; next_action := None; entries_hint := ReplicationHint.default;
     r_steps := 0; r_sent := []; r_requests := []; r_streams := [] |}.

(** *** The outside *)
(** The number of the next interaction. *)
Definition interact : R nat := λ s,
  Done (s.(r_steps), with_outside s (S s.(r_steps)) s.(r_sent) s.(r_requests) s.(r_streams)).
Definition now : R Instant := k ← interact; mret (env.(env_now) k).
Definition send (n : Notification) : R unit :=
  st_modify (λ s, with_outside s s.(r_steps) (s.(r_sent) ++ [n]) s.(r_requests) s.(r_streams)).
(** [C::timeout(the_timeout, network.append_entries(payload))] *)
Definition append_entries (req : AppendEntriesRequest) :
    R (option (Result AppendEntriesResponse (RPCError Empty_set))) :=
  k ← interact;
  _ ← st_modify (λ s, with_outside s s.(r_steps) s.(r_sent) (s.(r_requests) ++ [(k, req)]) s.(r_streams));
  mret (env.(env_append) k req).

(** *** Notifications to [RaftCore] *)
Definition send_progress_error (err : RPCError Empty_set) : R unit :=
  s ← st_get;
  send (N_ReplicationProgress {| repl_target := s.(target); repl_result := RErr (env.(env_show) err);
                                 repl_session_id := s.(session_id) |}).

Definition notify_heartbeat_progress (sending_time : Instant) : R unit :=
  s ← st_get; send (N_HeartbeatProgress s.(session_id) sending_time s.(target)).

Definition notify_progress (replication_result : ReplicationResult) : R unit :=
  _ ← (match replication_result with
       | ROk m => st_modify (λ s, set_matching s m)
       | RErr _ => mret tt
       end);
  s ← st_get;
  send (N_ReplicationProgress {| repl_target := s.(target); repl_result := ROk replication_result;
                                 repl_session_id := s.(session_id) |}).

(** *** Sending logs *)
Definition default_entries_hint_ttl : N := 10.

Definition update_hint (too_large : PayloadTooLarge) : R unit :=
  match too_large.(ptl_action) with
  | RPC_Vote => lift (Panic "Vote RPC should not be too large")
  | RPC_AppendEntries =>
      st_modify (λ s, set_entries_hint s (ReplicationHint.new too_large.(ptl_entries_hint) default_entries_hint_ttl))
  | RPC_InstallSnapshot => mret tt
  | RPC_TransferLeader => lift (Panic "TransferLeader RPC should not be too large")
  end.

(** [self.entries_hint.get()] *)
Definition take_hint : R (option N) := λ s,
  let '(n, h) := ReplicationHint.get s.(entries_hint) in Done (n, set_entries_hint s h).

Definition storage_result {A} (r : Result A StorageError) : Result A ReplicationError :=
  match r with ROk a => ROk a | RErr e => RErr (RE_StorageError e) end.

(** The first part of [send_log_entries]: the entries to send and the range they are. *)
Definition read_logs (log_ids : LogIdRange) : RM (list Entry * LogIdRange) :=
  let start := next_index log_ids.(prev) in
  let end_ := next_index log_ids.(last) in
  hint ← take_hint;
  let end_ := match hint with Some hint => N.min end_ (start + hint) | None => end_ end in
  if (start =? end_)%N then mret (ROk ([], LogIdRange_new log_ids.(prev) log_ids.(prev)))
  else
    k ← interact;
    logs ←? (r ← lift (RaftLogReader.limited_get_log_entries (env.(env_log) k) start end_); mret (storage_result r));
    _ ← lift (unwrap (Entry.log_id <$> head logs) "called `Option::unwrap()` on a `None` value");
    last ← lift (unwrap (Entry.log_id <$> list.last logs) "called `Option::unwrap()` on a `None` value");
    n ← lift (sub_u64 end_ start);
    _ ← lift (assert_ (negb (bool_decide (logs = [])) && (N.of_nat (length logs) <=? n)%N) "expect logs ⊆ [start..end)");
    mret (ROk (logs, LogIdRange_new log_ids.(prev) (Some last))).

Definition next_action_to_send (matching : option LogId) (log_ids : LogIdRange) : option Data :=
  if matching ≺? log_ids.(last) then Some (Data_Logs (LogIdRange_new matching log_ids.(last))) else None.

Definition debug_assert_partial_success (to_send : LogIdRange) (matching : option LogId) : Outcome unit :=
  _ ← assert_ (matching ⪯? to_send.(last)) "matching should be <= last_log_id";
  _ ← assert_ (opt_index matching ⪯? opt_index to_send.(last)) "matching.index should be <= last_log_id.index";
  _ ← assert_ (to_send.(prev) ⪯? matching) "matching should be >= prev_log_id";
  assert_ (opt_index to_send.(prev) ⪯? opt_index matching) "matching.index should be >= prev_log_id.index".

(** The second part: digesting the response. *)
Definition handle_append_response (log_ids sending_range : LogIdRange) (has_payload : bool) (leader_time : Instant)
    (resp : AppendEntriesResponse) : RM (option Data) :=
  match resp with
  | Success =>
      _ ← notify_heartbeat_progress leader_time;
      let matching := sending_range.(last) in
      if has_payload then
        _ ← notify_progress (ROk matching);
        mret (ROk (next_action_to_send matching log_ids))
      else mret (ROk None)
  | PartialSuccess matching =>
      _ ← lift (debug_assert_partial_success sending_range matching);
      _ ← notify_heartbeat_progress leader_time;
      if has_payload then
        _ ← notify_progress (ROk matching);
        mret (ROk (next_action_to_send matching log_ids))
      else mret (ROk None)
  | HigherVote vote =>
      s ← st_get;
      gt ← lift (ref_vote_gt (as_ref_vote vote) (as_ref_vote (session_vote s.(session_id))));
      _ ← lift (assert_ gt "higher vote should be greater than leader's vote");
      mret (RErr (RE_HigherVote vote (session_vote s.(session_id))))
  | Conflict =>
      conflict ← lift (unwrap sending_range.(prev) "prev_log_id=None never conflict");
      _ ← notify_heartbeat_progress leader_time;
      _ ← (if has_payload then notify_progress (RErr conflict) else mret tt);
      mret (ROk None)
  end.

Definition send_log_entries (log_ids : LogIdRange) (has_payload : bool) : RM (option Data) :=
  r ←? read_logs log_ids;
  let '(logs, sending_range) := r in
  leader_time ← now;
  s ← st_get;
  let payload := {| areq_vote := session_vote s.(session_id); areq_prev_log_id := sending_range.(prev);
                    areq_entries := logs; areq_leader_commit := s.(committed) |} in
  let the_timeout := s.(config).(Config.heartbeat_interval) in
  res ← append_entries payload;
  match res with
  | None =>
      id ← lift (unwrap (leader_node_id (session_vote s.(session_id))) "called `Option::unwrap()` on a `None` value");
      mret (RErr (RE_RPCError (RPCError_Timeout {|
        to_action := RPC_AppendEntries; to_id := id; to_target := s.(target); to_timeout := the_timeout |})))
  | Some (RErr e) => mret (RErr (RE_RPCError e))
  | Some (ROk append_resp) => handle_append_response log_ids sending_range has_payload leader_time append_resp
  end.

(** *** Sending a snapshot *)
Definition stream_snapshot : RM (option Data) :=
  k ← interact;
  match env.(env_snapshot) k with
  | RErr reason => mret (RErr (RE_Closed {| reason := reason |}))
  | ROk None => mret (RErr (RE_StorageError (StorageError.read_snapshot None "snapshot not found")))
  | ROk (Some snapshot) =>
      s ← st_get;
      let option := {| hard_ttl := s.(config).(Config.install_snapshot_timeout);
                       snapshot_chunk_size := Some s.(config).(Config.snapshot_max_chunk_size) |} in
      let stream := {| ss_vote := session_vote s.(session_id); ss_snapshot := snapshot; ss_option := option |} in
      _ ← st_put (with_outside s s.(r_steps) s.(r_sent) s.(r_requests) (s.(r_streams) ++ [stream]));
      _ ← st_modify (λ s, set_snapshot_state s (Some (length s.(r_streams) - 1)));
      mret (ROk None)
  end.

(** The task [send_snapshot]: the event it sends back when [full_snapshot] has returned. *)
Definition send_snapshot (stream : SnapshotStream) (start_time : Instant) (res : Result SnapshotResponse StreamingError) :
    Replicate :=
  Replicate_Data (Data_SnapshotCallback start_time stream.(ss_snapshot).(meta) res).

Definition handle_snapshot_callback (start_time : Instant) (snapshot_meta : SnapshotMeta)
    (result : Result SnapshotResponse StreamingError) : RM (option Data) :=
  _ ← st_modify (λ s, set_snapshot_state s None);
  match result with
  | RErr e => mret (RErr (replication_from_streaming e))
  | ROk resp =>
      s ← st_get;
      let sender_vote := session_vote s.(session_id) in
      gt ← lift (ref_vote_gt (as_ref_vote resp.(sresp_vote)) (as_ref_vote sender_vote));
      if (gt : bool) then mret (RErr (RE_HigherVote resp.(sresp_vote) sender_vote))
      else
        _ ← notify_heartbeat_progress start_time;
        _ ← notify_progress (ROk snapshot_meta.(meta_last_log_id));
        mret (ROk None)
  end.

(** *** The channel *)
Definition process_event (event : Replicate) : R unit :=
  s ← st_get;
  match event with
  | Replicate_Committed c =>
      _ ← lift (assert_ (s.(committed) ⪯? c) "expect new committed > self.committed");
      _ ← st_put (set_committed s c);
      if bool_decide (s.(next_action) = None) then st_modify (λ s, set_next_action s (Some Data_Committed))
      else mret tt
  | Replicate_Data d =>
      _ ← lift (assert_ (negb (from_option has_payload false s.(next_action)))
                 "there can not be two actions with payload in flight");
      _ ← lift (match d with
                | Data_SnapshotCallback _ _ _ =>
                    assert_ (bool_decide (s.(snapshot_state) ≠ None)) "snapshot state must be Some to receive callback"
                | _ => assert_ (bool_decide (s.(snapshot_state) = None)) "can not send other data while sending snapshot"
                end);
      st_put (set_next_action s (Some d))
  end.

(** Processing what has arrived; [Some closed] when the channel is closed after it. *)
Definition recv_all (events : list Replicate) (closed : bool) (reason : string) : R (option Exit) :=
  _ ← st_for events process_event;
  mret (if closed then Some (Returned (RErr {| reason := reason |})) else None).

Definition backoff_drain_events (d : Drain) : R (option Exit) :=
  recv_all d.(backoff_events) d.(backoff_closed) "RaftCore closed replication".

(** [drain_events] and [try_drain_events]: the first event is waited for when there is nothing to do. *)
Definition drain_events (d : Drain) : R (option Exit) :=
  s ← st_get;
  if bool_decide (s.(next_action) = None) && bool_decide (d.(events) = []) then
    mret (Some (if d.(closed) then Returned (RErr {| reason := "rx_repl is closed in drain_event()" |}) else Waiting))
  else recv_all d.(events) d.(closed) "rx_repl is closed in try_drain_event".

Definition default_backoff : Duration := 500.

(** The task sleeps until its clock reaches [C::now() + duration]; the interval is a matter of which
    events arrive in it. *)
Definition drain_events_with_backoff (d : Drain) : R (option Exit) :=
  s ← st_get;
  r ← (match s.(backoff) with
       | Some b =>
           let '(duration, b) := Backoff.next b in
           _ ← st_put (set_backoff s (Some b));
           _ ← now;
           backoff_drain_events d
       | None => mret None
       end);
  match r with Some e => mret (Some e) | None => drain_events d end.

(** *** The main loop *)
Definition run_data (d : Data) : RM (option Data) :=
  match d with
  | Data_Committed =>
      s ← st_get; send_log_entries (LogIdRange_new s.(matching) s.(matching)) false
  | Data_Logs log => send_log_entries log true
  | Data_Snapshot snap => stream_snapshot
  | Data_SnapshotCallback start_time meta result => handle_snapshot_callback start_time meta result
  end.

(** The variable [log_data]. *)
Definition log_data s (d : Data) : option LogIdRange :=
  match d with
  | Data_Committed => Some (LogIdRange_new s.(matching) s.(matching))
  | Data_Logs log => Some log
  | _ => None
  end.

Definition handle_rpc_error (log_data : option LogIdRange) (need_notify : bool) (err : RPCError Empty_set) : R unit :=
  retry ← (match err with
           | RPCError_Unreachable _ =>
               s ← st_get;
               _ ← (if bool_decide (is_Some s.(backoff)) then mret tt
                    else k ← interact; st_modify (λ s, set_backoff s (Some (env.(env_backoff) k))));
               mret false
           | RPCError_PayloadTooLarge too_large =>
               _ ← update_hint too_large;
               log ← lift (unwrap log_data "called `Option::unwrap()` on a `None` value");
               _ ← st_modify (λ s, set_next_action s (Some (Data_Logs log)));
               mret true
           | RPCError_Timeout _ | RPCError_Network _ | RPCError_RemoteError _ => mret false
           end);
  if (retry : bool) then
    s ← st_get; lift (assert_ (bool_decide (s.(next_action) ≠ None)) "next_action must be Some")
  else if need_notify then send_progress_error err
  else mret tt.

(** One action: [Some] when the task returns. *)
Definition run_action (d : Data) : R (option Exit) :=
  s ← st_get;
  let log_data := log_data s d in
  let need_notify := has_payload d in
  res ← run_data d;
  match res with
  | ROk next =>
      _ ← st_modify (λ s, set_backoff s None);
      _ ← (match next with Some _ => st_modify (λ s, set_next_action s next) | None => mret tt end);
      mret None
  | RErr (RE_Closed closed) => mret (Some (Returned (RErr closed)))
  | RErr (RE_HigherVote higher _) =>
      s ← st_get;
      _ ← send (N_HigherVote s.(target) higher (session_committed_vote s.(session_id)));
      mret (Some (Returned (ROk tt)))
  | RErr (RE_StorageError error) =>
      _ ← send (N_StorageError error);
      mret (Some (Returned (ROk tt)))
  | RErr (RE_RPCError err) => _ ← handle_rpc_error log_data need_notify err; mret None
  end.

(** [self.next_action.take()] *)
Definition take_action : R (option Data) :=
  s ← st_get; _ ← st_put (set_next_action s None); mret s.(next_action).

(** One iteration of the loop. *)
Definition iteration (d : Drain) : R (option Exit) :=
  action ← take_action;
  r ← (match action with Some a => run_action a | None => mret None end);
  match r with Some e => mret (Some e) | None => drain_events_with_backoff d end.

(** [main], for as many iterations as rounds of events are given. *)
Fixpoint main (rounds : list Drain) : R Exit :=
  match rounds with
  | [] => mret Running
  | d :: rounds => r ← iteration d; match r with Some e => mret e | None => main rounds end
  end.
End ops.
End ReplicationCore.

(** ** What the task relies on, and what it keeps *)
Section ranges.
Context {C : RaftTypeConfig}.
Implicit Types v : LogView.

(** [(prev, last]] is a range of the log [v], present if it is not empty. *)
Record log_range v (r : LogIdRange) : Prop := {
  lr_prev : ref_ptr v r.(prev);
  lr_last : ref_ptr v r.(last);
  lr_purged : next_index r.(prev) ≠ next_index r.(last) → (next_index v.(lv_purged) ≤ next_index r.(prev))%N;
  lr_le : (next_index r.(prev) ≤ next_index r.(last))%N;
}.

Lemma log_range_empty v m : ref_ptr v m → log_range v (LogIdRange_new m m).
Proof. by split. Qed.

(** The entries are those of the log that follow [prev]. *)
Definition log_slice v (prev : option LogId) (es : list Entry) : Prop :=
  ref_ptr v prev ∧ ∃ b, (next_index prev ≤ b)%N ∧ (b ≤ next_index (LogSpec.last_log_id v))%N ∧
    es = LogSpec.read v (next_index prev) b.

(** The id of the last entry, or [prev]. *)
Definition last_sent (prev : option LogId) (es : list Entry) : option LogId :=
  match list.last es with Some e => Some (Entry.log_id e) | None => prev end.

(** Reading a range of the log gives its first entries, at least one. *)
Definition reads_log {LS} `{!RaftLogReader.RaftLogReader LS} v (logs : nat → LS) : Prop :=
  ∀ k a b es, (next_index v.(lv_purged) ≤ a)%N → (a < b)%N → (b ≤ next_index (LogSpec.last_log_id v))%N →
    RaftLogReader.limited_get_log_entries (logs k) a b = Done (ROk es) →
    ∃ c, (a < c)%N ∧ (c ≤ b)%N ∧ es = LogSpec.read v a c.

Lemma read_logs_last v a b e : log_ok v → (next_index v.(lv_purged) ≤ a)%N → (a < b)%N →
  (b ≤ next_index (LogSpec.last_log_id v))%N → list.last (LogSpec.read v a b) = Some e →
  v.(lv_log) !! (b - 1)%N = Some e.
Proof.
  intros Hok Ha Hab Hb. rw last_lookup (read_length v Hok); [lia..|].
  rw (read_lookup v Hok); [lia..|]. intros <-. f_equal. lia.
Qed.

Lemma last_sent_read v prev b : log_ok v → ref_ptr v prev → (next_index v.(lv_purged) ≤ next_index prev)%N →
  (next_index prev ≤ b)%N → (b ≤ next_index (LogSpec.last_log_id v))%N →
  ref_ptr v (last_sent prev (LogSpec.read v (next_index prev) b)) ∧
  next_index (last_sent prev (LogSpec.read v (next_index prev) b)) = b.
Proof.
  intros Hok Hp Hpu Hle Hb. rw /last_sent. destruct (list.last _) as [e|] eqn:He.
  - assert (next_index prev < b)%N as Hlt.
    { destruct (decide (b = next_index prev)) as [->|]; [|lia]. exfalso. revert He.
      rw (nil_length_inv (LogSpec.read v (next_index prev) (next_index prev))); [|done].
      rw (read_length v Hok); lia. }
    pose proof (read_logs_last v _ _ _ Hok Hpu Hlt Hb He) as He'.
    assert (Entry.index e = b - 1)%N as Hi by exact (lo_index v Hok _ _ He').
    split; [|change (Entry.index e + 1 = b)%N; lia]. intros x [= <-].
    change (index (Entry.log_id e)) with (Entry.index e). rw Hi. by apply ref_present.
  - split; [done|]. apply last_None in He. apply (f_equal length) in He. rw (read_length v Hok) in He; [lia..|].
    cbn in He. lia.
Qed.

(** Every id of a slice is of the log. *)
Lemma elem_of_slice v prev es e : log_ok v → (next_index v.(lv_purged) ≤ next_index prev)%N →
  log_slice v prev es → e ∈ es →
  ref_ptr v (Some (Entry.log_id e)) ∧ (next_index prev ≤ Entry.index e)%N.
Proof.
  intros Hok Hpu (_ & b & _ & Hb & ->) He. apply elem_of_read in He as (i & Hi1 & Hi2 & He).
  pose proof (lo_index v Hok _ _ He) as Hi. split; [|lia]. intros x [= <-].
  change (index (Entry.log_id e)) with (Entry.index e). rw Hi. by apply ref_present.
Qed.
End ranges.

(** ** The invariant of the task *)
Section task.
Context {C : RaftTypeConfig} {LS : Type} `{!RaftLogReader.RaftLogReader LS} (env : ReplEnv LS).
(** The log of the leader, the task's session and the events it receives in its life. *)
Context (v : LogView) (sid : ReplicationSessionId) (tgt : NodeId) (c0 : option LogId) (evs : list Replicate).
Implicit Types s : ReplicationCore.
Import ReplicationCore.

Definition action_ok (d : Data) : Prop :=
  match d with
  | Data_Logs r => log_range v r
  | Data_SnapshotCallback _ m _ => ref_ptr v m.(meta_last_log_id) ∧ Replicate_Data d ∈ evs
  | _ => True
  end.
Definition event_ok (e : Replicate) : Prop :=
  match e with Replicate_Data d => action_ok d | Replicate_Committed _ => True end.

(** A commit position [RaftCore] has sent. *)
Definition committed_ok (c : option LogId) : Prop := c = c0 ∨ Replicate_Committed c ∈ evs.

Definition request_ok (req : AppendEntriesRequest) : Prop :=
  req.(areq_vote) = session_vote sid ∧ log_slice v req.(areq_prev_log_id) req.(areq_entries) ∧
  committed_ok req.(areq_leader_commit).

(** An RPC of the task and its response. *)
Definition exchange (reqs : list (nat * AppendEntriesRequest)) (k : nat) (req : AppendEntriesRequest)
    (resp : AppendEntriesResponse) : Prop :=
  (k, req) ∈ reqs ∧ env.(env_append) k req = Some (ROk resp).

(** A snapshot was sent and the response to it received. *)
Definition snapshot_sent (t : Instant) (m : SnapshotMeta) (resp : SnapshotResponse) : Prop :=
  Replicate_Data (Data_SnapshotCallback t m (ROk resp)) ∈ evs.

(** The follower said it has the log up to [m]. *)
Definition acknowledged reqs (m : option LogId) : Prop :=
  (∃ k req, exchange reqs k req Success ∧ m = last_sent req.(areq_prev_log_id) req.(areq_entries)) ∨
  (∃ k req, exchange reqs k req (PartialSuccess m)) ∨
  (∃ t meta resp, snapshot_sent t meta resp ∧ m = meta.(meta_last_log_id) ∧
     ref_vote_gt (as_ref_vote resp.(sresp_vote)) (as_ref_vote (session_vote sid)) = Done false).

(** The follower answered an RPC sent at [t], and not with a higher vote. *)
Definition answered reqs (t : Instant) : Prop :=
  (∃ k req resp, exchange reqs (S k) req resp ∧ (∀ w, resp ≠ HigherVote w) ∧ t = env.(env_now) k) ∨
  (∃ meta resp, snapshot_sent t meta resp ∧
     ref_vote_gt (as_ref_vote resp.(sresp_vote)) (as_ref_vote (session_vote sid)) = Done false).

(** The follower has seen the vote [w]. *)
Definition voted reqs (w : Vote) : Prop :=
  (∃ k req, exchange reqs k req (HigherVote w)) ∨
  (∃ t meta resp, snapshot_sent t meta resp ∧ w = resp.(sresp_vote)).

(** What a notification tells [RaftCore] is so. *)
Definition justified reqs (n : Notification) : Prop :=
  match n with
  | N_ReplicationProgress p =>
      p.(repl_target) = tgt ∧ p.(repl_session_id) = sid ∧
      match p.(repl_result) with
      | ROk (ROk m) => acknowledged reqs m
      | ROk (RErr c) => ∃ k req, exchange reqs k req Conflict ∧ req.(areq_prev_log_id) = Some c
      | RErr why => ∃ e, why = env.(env_show) e
      end
  | N_HeartbeatProgress sid' t tgt' => tgt' = tgt ∧ sid' = sid ∧ answered reqs t
  | N_HigherVote tgt' w lv =>
      tgt' = tgt ∧ lv = session_committed_vote sid ∧ voted reqs w ∧
      ref_vote_gt (as_ref_vote w) (as_ref_vote (session_vote sid)) = Done true
  | N_StorageError _ => True
  | _ => False
  end.

Record task_ok s : Prop := {
  tk_session : s.(session_id) = sid;
  tk_target : s.(target) = tgt;
  tk_committed : committed_ok s.(committed);
  tk_matching : ref_ptr v s.(matching);
  tk_action : from_option action_ok True s.(next_action);
  tk_requests : Forall (λ r, request_ok r.2) s.(r_requests);
  tk_sent : Forall (justified s.(r_requests)) s.(r_sent);
}.

Lemma justified_mono reqs r n : justified reqs n → justified (reqs ++ r) n.
Proof.
  assert (∀ k req resp, exchange reqs k req resp → exchange (reqs ++ r) k req resp) as Hx.
  { intros k req resp [? ?]. split; [|done]. apply elem_of_app. by left. }
  destruct n as [| | | |[t res ss]| | |]; cbn; rw /acknowledged /answered /voted; try naive_solver.
  destruct res as [[m|c]|why]; naive_solver.
Qed.

Lemma task_state s sn b c m a h : task_ok s → committed_ok c → ref_ptr v m → from_option action_ok True a →
  task_ok (with_state s sn b c m a h).
Proof. intros []. by split. Qed.

Lemma task_step s k t : task_ok s → task_ok (with_outside s k s.(r_sent) s.(r_requests) t).
Proof. intros []. by split. Qed.

Lemma task_send s n : task_ok s → justified s.(r_requests) n →
  task_ok (with_outside s s.(r_steps) (s.(r_sent) ++ [n]) s.(r_requests) s.(r_streams)).
Proof. intros [] Hn. split; [done..|]. cbn. apply Forall_app. split; [done|]. by constructor. Qed.

Lemma task_request s k req : task_ok s → request_ok req →
  task_ok (with_outside s s.(r_steps) s.(r_sent) (s.(r_requests) ++ [(k, req)]) s.(r_streams)).
Proof.
  intros [] Hr. split; [done..| |]; cbn.
  - apply Forall_app. split; [done|]. by constructor.
  - eapply Forall_impl; [done|]. intros n. apply justified_mono.
Qed.

(** *** Every step keeps it *)
Context (Hok : log_ok v) (Hreads : reads_log v env.(env_log)).
(** "[PartialSuccess]: the application is allowed to send just" the first entries. *)
Context (Hpartial : ∀ k req m, env.(env_append) k req = Some (ROk (PartialSuccess m)) →
  m = req.(areq_prev_log_id) ∨ ∃ e, e ∈ req.(areq_entries) ∧ m = Some (Entry.log_id e)).

Notation kept m := (∀ s, task_ok s → post m (λ _, task_ok) s).

Lemma notify_heartbeat_ok s t : task_ok s → answered s.(r_requests) t →
  post (notify_heartbeat_progress t) (λ _ s', task_ok s' ∧ s'.(r_requests) = s.(r_requests)) s.
Proof using.
  intros Hs Ht. apply post_bind, post_get, post_modify. split; [|done]. apply task_send; [done|].
  by destruct Hs.
Qed.

Lemma notify_match_ok s m : task_ok s → ref_ptr v m → acknowledged s.(r_requests) m →
  post (notify_progress (ROk m)) (λ _, task_ok) s.
Proof using.
  intros Hs Hm Ha. apply post_bind, post_modify, post_bind, post_get, post_modify.
  assert (task_ok (set_matching s m)) as Hs'.
  { pose proof Hs as []. by apply task_state. }
  apply task_send; [done|]. pose proof Hs as []. by split_and!.
Qed.

Lemma notify_conflict_ok s c k req : task_ok s → exchange s.(r_requests) k req Conflict →
  req.(areq_prev_log_id) = Some c → post (notify_progress (RErr c)) (λ _, task_ok) s.
Proof using.
  intros Hs Hx Hc. apply post_bind, post_ret, post_bind, post_get, post_modify.
  apply task_send; [done|]. pose proof Hs as []. split_and!; [done..|]. cbn. eauto.
Qed.

Lemma take_hint_ok s : task_ok s → post take_hint (λ _ s', task_ok s' ∧ s'.(r_requests) = s.(r_requests)) s.
Proof using.
  intros Hs a s'. rw /take_hint. destruct (ReplicationHint.get _) as [n h]. intros [= <- <-]. split; [|done].
  pose proof Hs as []. by apply task_state.
Qed.

Lemma interact_ok : kept interact.
Proof using. intros s Hs a s' [= <- <-]. by apply task_step. Qed.

Definition error_ok s (e : ReplicationError) : Prop :=
  task_ok s ∧
  match e with
  | RE_HigherVote w _ => voted s.(r_requests) w ∧
      ref_vote_gt (as_ref_vote w) (as_ref_vote (session_vote sid)) = Done true
  | _ => True
  end.
Definition next_ok (next : option Data) s : Prop := task_ok s ∧ from_option action_ok True next.

(** The entries [read_logs] returns are the log's, from [prev] on. *)
Lemma read_logs_ok s r : task_ok s → log_range v r →
  postr (flip error_ok) (read_logs env r)
    (λ res s', task_ok s' ∧ res.2.(prev) = r.(prev) ∧ log_slice v r.(prev) res.1 ∧
       res.2.(last) = last_sent r.(prev) res.1 ∧
       (next_index r.(prev) = next_index r.(last) → res.1 = [])) s.
Proof using Hok Hreads.
  intros Hs [Hp Hl Hpu Hle]. pose proof (ref_ptr_last _ _ Hok Hl) as Hlast.
  apply post_bind. eapply post_mono; [by apply take_hint_ok|]. intros hint s1 [Hs1 _]. cbn beta zeta.
  set (b := match hint with Some h => N.min _ _ | None => _ end).
  assert (next_index r.(prev) ≤ b ∧ b ≤ next_index r.(last))%N as [Hb1 Hb2] by (unfold b; destruct hint; lia).
  destruct (N.eqb_spec (next_index r.(prev)) b) as [Heq|Hne].
  { apply post_ret. split_and!; [done..| |done|done]. split; [done|]. exists (next_index r.(prev)).
    split; [lia|]. split; [by apply ref_ptr_last|]. rw (nil_length_inv (LogSpec.read _ _ _)) //.
    rw /LogSpec.read /LogSpec.range N.sub_diag //. }
  specialize (Hpu ltac:(lia)).
  apply post_bind. eapply post_mono; [by apply interact_ok|]. intros k s2 Hs2.
  apply postr_try, post_bind, post_lift. intros [es|e] Hes; apply post_ret; [|done]. cbn.
  destruct (Hreads k (next_index r.(prev)) b es) as (c & Hc1 & Hc2 & ->); [done|lia|lia|done|].
  apply post_bind, post_lift. intros _ _. apply post_bind, post_lift. intros x Hx.
  apply post_bind, post_lift. intros n _. apply post_bind, post_lift. intros _ _. apply post_ret.
  split_and!; [done..| | |lia].
  - split; [done|]. exists c. split_and!; [lia..|done].
  - cbn. rw /last_sent. revert Hx. rw /unwrap. destruct (list.last _) as [e|]; cbn; [|done]. by intros [= <-].
Qed.

Lemma next_action_ok r m : log_range v r → ref_ptr v m → (next_index r.(prev) ≤ next_index m)%N →
  from_option action_ok True (next_action_to_send m r).
Proof using Hok.
  intros [Hp Hl Hpu Hle] Hm Hle'. rw /next_action_to_send. destruct (ltbP m r.(last)) as [Hlt|]; [|done]. cbn.
  pose proof (proj1 (ref_ptr_le _ _ _ Hok Hm Hl) (olt_le _ _ Hlt)) as Hml. split; cbn; [done..| |done].
  destruct (decide (next_index r.(prev) = next_index r.(last))) as [E|]; [|intros _; etrans; [by apply Hpu|done]]. lia.
Qed.

Lemma slice_last req r : request_ok req → req.(areq_prev_log_id) = r.(prev) → log_range v r →
  (next_index r.(prev) = next_index r.(last) → req.(areq_entries) = []) →
  ref_ptr v (last_sent req.(areq_prev_log_id) req.(areq_entries)) ∧
  (next_index r.(prev) ≤ next_index (last_sent req.(areq_prev_log_id) req.(areq_entries)))%N.
Proof using Hok.
  intros (_ & (Hp & b & Hb1 & Hb2 & E) & _) Hpr [_ _ Hpu _] Hempty.
  destruct (decide (next_index r.(prev) = next_index r.(last))) as [Eq|Hne].
  { rw (Hempty Eq) /last_sent /= Hpr. rw Hpr in Hp. split; [done|lia]. }
  specialize (Hpu Hne). rw E. rw -Hpr in Hpu.
  destruct (last_sent_read v _ _ Hok Hp Hpu Hb1 Hb2) as [Hl Hn]. split; [done|]. rw -Hpr Hn. done.
Qed.

Lemma matched_ok s m r has_payload : task_ok s → (has_payload = true → log_range v r) →
  (has_payload = true → ref_ptr v m ∧ next_index r.(prev) ≤ next_index m)%N → acknowledged s.(r_requests) m →
  postr (flip error_ok) (if has_payload then _ ← notify_progress (ROk m); mret (ROk (next_action_to_send m r))
                  else mret (ROk None)) next_ok s.
Proof using Hok.
  intros Hs Hr Hm Ha. destruct has_payload; [|by apply post_ret].
  destruct (Hm eq_refl) as [Hp Hle]. apply post_bind. eapply post_mono; [by apply notify_match_ok|].
  intros [] s' Hs'. apply post_ret. split; [done|]. by apply next_action_ok; auto.
Qed.

Lemma append_response_ok s k req r rng has_payload resp :
  task_ok s → exchange s.(r_requests) (S k) req resp → request_ok req →
  req.(areq_prev_log_id) = r.(prev) → rng.(prev) = r.(prev) →
  rng.(last) = last_sent req.(areq_prev_log_id) req.(areq_entries) →
  (has_payload = true → log_range v r) → (next_index r.(prev) = next_index r.(last) → req.(areq_entries) = []) →
  postr (flip error_ok) (handle_append_response r rng has_payload (env.(env_now) k) resp) next_ok s.
Proof using Hok Hpartial.
  intros Hs Hx Hreq Hpr Hrp Hrl Hr Hempty. destruct resp as [|m| |w]; cbn.
  - apply post_bind. eapply post_mono.
    { apply (notify_heartbeat_ok s); [done|]. left. exists k, req, Success. split_and!; [done|done|done]. }
    intros [] s1 [Hs1 E1]. cbn beta. apply matched_ok; [done..| |].
    + intros Hp. rw Hrl. by apply slice_last; auto.
    + rw E1 Hrl. left. eauto.
  - apply post_bind, post_lift. intros _ _. apply post_bind. eapply post_mono.
    { apply (notify_heartbeat_ok s); [done|]. left. exists k, req, (PartialSuccess m). split_and!; [done|done|done]. }
    intros [] s1 [Hs1 E1]. cbn beta. apply matched_ok; [done..| |].
    + intros Hp. destruct (Hr Hp) as [Hrp' _ Hpu _]. destruct Hx as [_ Hx].
      destruct (Hpartial _ _ _ Hx) as [-> |(e & He & ->)]; [by rw Hpr|].
      destruct (decide (next_index r.(prev) = next_index r.(last))) as [Eq|Hne].
      { rw (Hempty Eq) in He. by apply not_elem_of_nil in He. }
      specialize (Hpu Hne).
      destruct Hreq as (_ & Hsl & _). rw Hpr in Hsl. rw -Hpr in Hpu |- *.
      destruct (elem_of_slice v r.(prev) _ e Hok ltac:(by rw -Hpr) Hsl He) as [He1 He2].
      split; [done|]. rw Hpr. change (next_index (Some (Entry.log_id e))) with (Entry.index e + 1)%N. lia.
    + rw E1. right. left. eauto.
  - apply post_bind, post_lift. intros c Hc. apply post_bind. eapply post_mono.
    { apply (notify_heartbeat_ok s); [done|]. left. exists k, req, Conflict. split_and!; [done|done|done]. }
    intros [] s1 [Hs1 E1]. cbn beta. apply post_bind. eapply (post_mono _ (λ _, task_ok)).
    { destruct has_payload; [|by apply post_ret]. eapply notify_conflict_ok; [done|by rw E1|].
      rw Hpr -Hrp. revert Hc. rw /unwrap. destruct (rng.(prev)); [|done]. by intros [= ->]. }
    intros [] s2 Hs2. by apply post_ret.
  - apply post_bind, post_get, post_bind, post_lift. intros gt Hgt. apply post_bind, post_lift. intros [] Hg.
    destruct gt; [|done]. apply post_ret. split; [done|]. split; [left; eauto|].
    pose proof Hs as []. congruence.
Qed.

Lemma send_log_entries_ok s r has_payload : task_ok s → log_range v r →
  postr (flip error_ok) (send_log_entries env r has_payload) next_ok s.
Proof using Hok Hpartial Hreads.
  intros Hs Hr. apply postr_try. eapply post_mono; [by apply read_logs_ok|].
  intros [[es rng]|e] s1; cbn; [|done].
  intros (Hs1 & Hrp & Hsl & Hrl & Hempty). apply post_bind, post_bind. intros k s2 Hk. injection Hk as <- <-.
  apply post_ret, post_bind, post_get. set (req := {| areq_vote := _ |}). cbn.
  assert (request_ok req) as Hreq.
  { pose proof Hs1 as []. split; [cbn; congruence|]. split; [by rw /= Hrp|done]. }
  apply post_bind, post_bind. intros k2 s3 Hk2. injection Hk2 as <- <-.
  apply post_bind, post_modify, post_ret. cbn.
  assert (task_ok (with_outside s1 (S (S (r_steps s1))) (r_sent s1) (r_requests s1 ++ [(S (r_steps s1), req)]) (r_streams s1)))
    as Hs4 by exact (task_request _ (S s1.(r_steps)) req (task_step _ (S (S s1.(r_steps))) s1.(r_streams) Hs1) Hreq).
  destruct (env_append env (S (r_steps s1)) req) as [[resp|e]|] eqn:Hx.
  - apply (append_response_ok _ (r_steps s1) req); cbn; [done| |done| |done| |done..].
    + split; [|done]. apply elem_of_app. right. by left.
    + by rw Hrp.
    + by rw Hrp.
  - by apply post_ret.
  - apply post_bind, post_lift. intros id _. by apply post_ret.
Qed.

Lemma stream_snapshot_ok s : task_ok s → postr (flip error_ok) (stream_snapshot env) next_ok s.
Proof using.
  intros Hs. apply post_bind. eapply post_mono; [by apply interact_ok|]. intros k s1 Hs1. cbn beta.
  destruct (env_snapshot env k) as [[sn|]|why]; [|by apply post_ret..].
  apply post_bind, post_get. cbv zeta. apply post_bind, post_put, post_bind, post_modify, post_ret. split; [|done].
  pose proof Hs1 as []. apply task_state; [by apply task_step|done..].
Qed.

Lemma snapshot_callback_ok s t m res : task_ok s → ref_ptr v m.(meta_last_log_id) →
  Replicate_Data (Data_SnapshotCallback t m res) ∈ evs →
  postr (flip error_ok) (handle_snapshot_callback t m res) next_ok s.
Proof using.
  intros Hs Hm Hev. apply post_bind, post_modify.
  assert (task_ok (set_snapshot_state s None)) as Hs1 by (pose proof Hs as []; by apply task_state).
  destruct res as [resp|e]; [|apply post_ret; split; [done|by destruct e]].
  apply post_bind, post_get. cbv zeta. apply post_bind, post_lift. intros gt Hgt. cbn in Hgt.
  assert (session_id s = sid) as Hsid by apply Hs. rw Hsid in Hgt. destruct gt.
  { apply post_ret. split; [done|]. split; [right; by exists t, m, resp|done]. }
  apply post_bind. eapply post_mono.
  { apply notify_heartbeat_ok; [done|]. right. by exists m, resp. }
  intros [] s2 [Hs2 E2]. cbn beta. apply post_bind. eapply post_mono.
  { apply notify_match_ok; [done..|]. right. right. by exists t, m, resp. }
  intros [] s3 Hs3. by apply post_ret.
Qed.

Lemma run_data_ok s d : task_ok s → action_ok d → postr (flip error_ok) (run_data env d) next_ok s.
Proof using Hok Hpartial Hreads.
  intros Hs Hd. destruct d as [|r|sn|t m res]; cbn.
  - apply post_bind, post_get. apply send_log_entries_ok; [done|]. apply log_range_empty. by destruct Hs.
  - by apply send_log_entries_ok.
  - by apply stream_snapshot_ok.
  - destruct Hd. by apply snapshot_callback_ok.
Qed.

(** *** The main loop *)
Lemma handle_rpc_error_ok log need e : from_option (λ r, log_range v r) True log →
  kept (handle_rpc_error env log need e).
Proof using.
  intros Hlog s Hs. apply post_bind. apply (post_mono _ (λ _, task_ok)).
  - destruct e as [e|why|e|why|e]; try by apply post_ret.
    + apply post_bind, post_get, post_bind. apply (post_mono _ (λ _, task_ok)).
      * case_bool_decide; [by apply post_ret|]. apply post_bind. eapply post_mono; [by apply interact_ok|].
        intros k s1 Hs1. apply post_modify. pose proof Hs1 as []. by apply task_state.
      * intros [] s1 Hs1. by apply post_ret.
    + apply post_bind. apply (post_mono _ (λ _, task_ok)).
      * rw /update_hint. destruct (ptl_action e); [apply post_lift; by intros| |by apply post_ret|apply post_lift; by intros].
        apply post_modify. pose proof Hs as []. by apply task_state.
      * intros [] s1 Hs1. apply post_bind, post_lift. intros r Hr. apply post_bind, post_modify, post_ret.
        pose proof Hs1 as []. apply task_state; [done..|]. destruct log; [|done]. by injection Hr as <-.
  - intros retry s1 Hs1. destruct retry; [apply post_bind, post_get, post_lift; by intros|].
    destruct need; [|by apply post_ret]. apply post_bind, post_get, post_modify. apply task_send; [done|].
    pose proof Hs1 as []. split_and!; [done..|]. by exists e.
Qed.

Lemma run_action_ok d : action_ok d → kept (run_action env d).
Proof using Hok Hpartial Hreads.
  intros Hd s Hs. apply post_bind, post_get. cbv zeta. apply post_bind. eapply post_mono; [by apply run_data_ok|].
  assert (from_option (λ r, log_range v r) True (log_data s d)) as Hlog.
  { destruct d; cbn; [|done..]. apply log_range_empty. by destruct Hs. }
  intros [next|e] s1; cbn.
  - intros [Hs1 Hn]. apply post_bind, post_modify.
    assert (task_ok (set_backoff s1 None)) as Hs2 by (pose proof Hs1 as []; by apply task_state).
    apply post_bind. apply (post_mono _ (λ _, task_ok)); [|intros [] s2 ?; by apply post_ret].
    destruct next as [a|]; [|by apply post_ret]. apply post_modify. pose proof Hs1 as []. by apply task_state.
  - intros [Hs1 He]. destruct e as [w w'|c|e|e].
    + apply post_bind, post_get, post_bind, post_modify, post_ret. destruct He as [Hv Hgt].
      apply task_send; [done|]. pose proof Hs1 as []. split_and!; [done|congruence|done..].
    + by apply post_ret.
    + apply post_bind, post_modify, post_ret. by apply task_send.
    + apply post_bind. apply (post_mono _ (λ _, task_ok)); [|intros [] s2 ?; by apply post_ret].
      by apply handle_rpc_error_ok.
Qed.

Lemma process_event_ok e : e ∈ evs → event_ok e → kept (process_event e).
Proof using.
  intros Hev He s Hs. apply post_bind, post_get. pose proof Hs as []. destruct e as [c|d].
  - apply post_bind, post_lift. intros [] _. apply post_bind, post_put.
    assert (task_ok (set_committed s c)) as Hs' by (apply task_state; try done; by right).
    case_bool_decide; [|by apply post_ret]. apply post_modify. pose proof Hs' as []. by apply task_state.
  - apply post_bind, post_lift. intros [] _. apply post_bind, post_lift. intros [] _. apply post_put.
    by apply task_state.
Qed.

Lemma recv_all_ok es cl why : es ⊆ evs → Forall event_ok es → kept (recv_all es cl why).
Proof using.
  intros Hsub Hes s Hs. apply post_bind. eapply (post_mono _ (λ _, task_ok)); [|intros [] s' ?; by apply post_ret].
  apply post_for; [done|]. intros e s' He Hs'. rewrite Forall_forall in Hes. by apply process_event_ok; auto.
Qed.

(** What a round brings is among the events. *)
Definition drain_ok (d : Drain) : Prop :=
  d.(backoff_events) ⊆ evs ∧ d.(events) ⊆ evs ∧ Forall event_ok d.(backoff_events) ∧ Forall event_ok d.(events).

Lemma drain_events_ok d : drain_ok d → kept (drain_events_with_backoff env d).
Proof using.
  intros (Hb & He & Hbo & Heo) s Hs. apply post_bind, post_get. apply post_bind.
  apply (post_mono _ (λ _, task_ok)).
  - destruct (backoff s) as [b|]; [|by apply post_ret]. destruct (Backoff.next b) as [t b'].
    apply post_bind, post_put, post_bind.
    eapply (post_mono _ (λ _, task_ok)); [|intros t' s' Hs'; by apply recv_all_ok].
    apply post_bind. eapply post_mono; [apply interact_ok|intros k s' ?; by apply post_ret].
    pose proof Hs as []. by apply task_state.
  - intros r s1 Hs1. destruct r; [by apply post_ret|]. apply post_bind, post_get.
    destruct (_ && _); [by apply post_ret|]. by apply recv_all_ok.
Qed.

Lemma iteration_ok d : drain_ok d → kept (iteration env d).
Proof using Hok Hpartial Hreads.
  intros Hd s Hs. apply post_bind. apply (post_mono _ (λ a s', task_ok s' ∧ from_option action_ok True a)).
  { apply post_bind, post_get, post_bind, post_put, post_ret. pose proof Hs as []. split; [by apply task_state|done]. }
  intros a s1 [Hs1 Ha]. apply post_bind. apply (post_mono _ (λ _, task_ok)).
  - destruct a as [a|]; [by apply run_action_ok|by apply post_ret].
  - intros r s2 Hs2. destruct r; [by apply post_ret|]. by apply drain_events_ok.
Qed.

Lemma main_ok rounds : Forall drain_ok rounds → kept (main env rounds).
Proof using Hok Hpartial Hreads.
  induction 1 as [|d rounds Hd _ IH]; intros s Hs; [by apply post_ret|]. cbn. apply post_bind.
  eapply post_mono; [by apply iteration_ok|]. intros r s1 Hs1. destruct r; [by apply post_ret|by apply IH].
Qed.
End task.

(** ** Properties of a run *)

(** All the events of a run. *)
Definition all_events {C : RaftTypeConfig} (rounds : list Drain) : list Replicate :=
  rounds ≫= λ d, d.(backoff_events) ++ d.(events).

Section safety.
Context {C : RaftTypeConfig} {LS : Type} `{!RaftLogReader.RaftLogReader LS} (env : ReplEnv LS).
Context (v : LogView) (Hok : log_ok v) (Hreads : reads_log v env.(env_log)).
Context (Hpartial : ∀ k req m, env.(env_append) k req = Some (ROk (PartialSuccess m)) →
  m = req.(areq_prev_log_id) ∨ ∃ e, e ∈ req.(areq_entries) ∧ m = Some (Entry.log_id e)).
Implicit Types s : ReplicationCore.

Lemma spawn_ok tgt sid conf c m rounds x s : ref_ptr v m → Forall (event_ok v (all_events rounds)) (all_events rounds) →
  ReplicationCore.main env rounds (ReplicationCore.spawn tgt sid conf c m) = Done (x, s) →
  task_ok env v sid tgt c (all_events rounds) s.
Proof using Hok Hreads Hpartial.
  intros Hm Hev Hrun. eapply (main_ok env v sid tgt c (all_events rounds)); [done..| | |exact Hrun].
  - apply Forall_forall. intros d Hd.
    assert (∀ e, e ∈ d.(backoff_events) ∨ e ∈ d.(events) → e ∈ all_events rounds) as Hin.
    { intros e He. apply list_elem_of_bind. exists d. split; [|done]. by apply elem_of_app. }
    rewrite Forall_forall in Hev. split; [|split; [|split]]; [intros e ?; by auto|intros e ?; by auto|apply Forall_forall; by auto..].
  - by split; [..|left| | | |].
Qed.


End safety.

(** ** Delivery to a follower that answers *)
Section delivery.
Context {C : RaftTypeConfig} {LS : Type} `{!RaftLogReader.RaftLogReader LS} (env : ReplEnv LS).
Context (v : LogView) (Hok : log_ok v).
Implicit Types s : ReplicationCore.
Import ReplicationCore.

(** The log store returns some of the entries asked for, and the follower accepts what it is sent. *)
Definition reads_some : Prop :=
  ∀ k a b, (next_index v.(lv_purged) ≤ a)%N → (a < b)%N → (b ≤ next_index (LogSpec.last_log_id v))%N →
    ∃ c, (a < c)%N ∧ (c ≤ b)%N ∧
      RaftLogReader.limited_get_log_entries (env.(env_log) k) a b = Done (ROk (LogSpec.read v a c)).
Context (Hread : reads_some) (Hsuccess : ∀ k req, env.(env_append) k req = Some (ROk Success)).

(** A hint of no entries would never let anything through. *)
Definition hint_ok (h : ReplicationHint) : Prop := (0 < h.(hint_ttl) → 0 < h.(hint_n))%N.

Lemma hint_ok_get h : hint_ok h → hint_ok (ReplicationHint.get h).2 ∧
  match (ReplicationHint.get h).1 with
  | Some n => (0 < n)%N ∧ n = h.(hint_n)
  | None => h.(hint_ttl) = 0%N
  end.
Proof using.
  rw /hint_ok /ReplicationHint.get. destruct (N.ltb_spec 0 h.(hint_ttl)); cbn; [|split; [done|lia]].
  intros Hh. split; [|by auto]. intros _. by apply Hh.
Qed.

(** The part of the state a delivery changes. *)
Definition after s (b : option Backoff) (m : option LogId) (a : option Data) (h : ReplicationHint) (k : nat)
    (sent : list Notification) (reqs : list (nat * AppendEntriesRequest)) : ReplicationCore :=
  with_outside (with_state s s.(snapshot_state) b s.(committed) m a h) k sent reqs s.(r_streams).

Lemma read_logs_run s r : log_range v r → hint_ok s.(entries_hint) →
  ∃ h k b, hint_ok h ∧ (next_index r.(prev) ≤ b ≤ next_index r.(last))%N ∧
    (next_index r.(prev) < next_index r.(last) → next_index r.(prev) < b)%N ∧
    (0 < s.(entries_hint).(hint_ttl) → b ≤ next_index r.(prev) + s.(entries_hint).(hint_n))%N ∧
    read_logs env r s =
      Done (ROk (LogSpec.read v (next_index r.(prev)) b,
                 LogIdRange_new r.(prev) (last_sent r.(prev) (LogSpec.read v (next_index r.(prev)) b))),
            after s s.(backoff) s.(matching) s.(next_action) h k s.(r_sent) s.(r_requests)).
Proof using Hok Hread.
  intros [Hp Hl Hpu Hle] Hh. pose proof (ref_ptr_last _ _ Hok Hl) as Hlast.
  destruct (hint_ok_get _ Hh) as [Hh' Hn]. rw /read_logs /mbind /st_bind /take_hint.
  destruct (ReplicationHint.get (entries_hint s)) as [hint h]. cbn in Hh', Hn |- *.
  set (b := match hint with Some h => N.min _ _ | None => _ end).
  assert (next_index r.(prev) ≤ b ∧ b ≤ next_index r.(last))%N as [Hb1 Hb2] by (unfold b; destruct hint; lia).
  assert (next_index r.(prev) < next_index r.(last) → next_index r.(prev) < b)%N as Hb3 by (unfold b; destruct hint; lia).
  assert (0 < s.(entries_hint).(hint_ttl) → b ≤ next_index r.(prev) + s.(entries_hint).(hint_n))%N as Hb4
    by (unfold b; destruct hint; lia).
  destruct (N.eqb_spec (next_index r.(prev)) b) as [Heq|Hne].
  { exists h, s.(r_steps), (next_index r.(prev)). split_and!; [done|lia|lia|lia|lia|].
    rw (nil_length_inv (LogSpec.read v (next_index r.(prev)) (next_index r.(prev)))) //.
    rw /LogSpec.read /LogSpec.range N.sub_diag //. }
  specialize (Hpu ltac:(lia)). destruct (Hread s.(r_steps) (next_index r.(prev)) b) as (c & Hc1 & Hc2 & Hes); [done|lia|lia|].
  exists h, (S s.(r_steps)), c. split_and!; [done|lia|lia|lia|lia|].
  pose proof (read_length v Hok (next_index r.(prev)) c Hpu ltac:(lia)) as Hlen.
  rw /try_bind /mbind /st_bind /interact /lift Hes /=.
  destruct (LogSpec.read v (next_index r.(prev)) c) as [|e es] eqn:E; [cbn in Hlen; lia|]. cbn [storage_result head].
  rw /last_sent /unwrap. destruct (list.last (e :: es)) as [x|] eqn:Ex; [|by apply last_None in Ex].
  cbn. rw /sub_u64. destruct (N.leb_spec (next_index r.(prev)) b); [|lia].
  rw /assert_. destruct (N.leb_spec (N.of_nat (S (length es))) (b - next_index r.(prev))); [done|]. cbn in Hlen. lia.
Qed.

(** The progress and the heartbeat a successful RPC reports. *)
Definition progress_note s (m : option LogId) : Notification :=
  N_ReplicationProgress {| repl_target := s.(target); repl_result := ROk (ROk m); repl_session_id := s.(session_id) |}.

(** One RPC of a delivery: the follower gets the next entries of the range, at least one. *)
Definition sends s (r : LogIdRange) (has_payload : bool) (b : option Backoff) (a : option Data) s' : Prop :=
  ∃ h k t e req, hint_ok h ∧ (next_index r.(prev) ≤ e ≤ next_index r.(last))%N ∧
    (next_index r.(prev) < next_index r.(last) → next_index r.(prev) < e)%N ∧
    req.2.(areq_entries) = LogSpec.read v (next_index r.(prev)) e ∧
    let m := last_sent r.(prev) req.2.(areq_entries) in
    s' = after s b (if has_payload then m else s.(matching)) a h k
           (let sent := s.(r_sent) ++ [N_HeartbeatProgress s.(session_id) t s.(target)] in
            if has_payload then sent ++ [progress_note s m] else sent)
           (s.(r_requests) ++ [req]).

Lemma send_run s r has_payload : log_range v r → hint_ok s.(entries_hint) →
  ∃ next s', send_log_entries env r has_payload s = Done (ROk next, s') ∧
    sends s r has_payload s.(backoff) s.(next_action) s' ∧
    next = if has_payload then next_action_to_send s'.(matching) r else None.
Proof using Hok Hread Hsuccess.
  intros Hr Hh. destruct (read_logs_run s r Hr Hh) as (h & k & b & Hh' & Hb & Hb' & _ & Hrun).
  cut (wp (send_log_entries env r has_payload) (λ res s', ∃ next, res = ROk next ∧
    sends s r has_payload s.(backoff) s.(next_action) s' ∧
    next = if has_payload then next_action_to_send s'.(matching) r else None) s).
  { intros (? & s' & Hs & (next & -> & ?))%wp_elim. by exists next, s'. }
  apply wp_bind. rw /wp Hrun. set (s1 := after s _ _ _ h k _ _). cbv beta iota.
  apply wp_bind, wp_bind. rw {1}/wp /interact. apply wp_ret, wp_bind, wp_get. cbv zeta.
  apply wp_bind, wp_bind. rw {1}/wp /interact. apply wp_bind, wp_modify, wp_ret. rw Hsuccess.
  set (req := {| areq_vote := _ |}). apply wp_bind, wp_bind, wp_get, wp_modify. cbv zeta.
  destruct has_payload.
  - apply wp_bind, wp_bind, wp_modify, wp_bind, wp_get, wp_modify, wp_ret. eexists. split; [done|]. split; [|done].
    exists h, (S (S k)), (env_now env k), b, (S k, req). by split; [|split; [lia|]].
  - apply wp_ret. eexists. split; [done|]. split; [|done].
    exists h, (S (S k)), (env_now env k), b, (S k, req). by split; [|split; [lia|]].
Qed.

(** *** Rounds in which [RaftCore] only moves the commit position *)
Fixpoint commits (c : option LogId) (es : list Replicate) : Prop :=
  match es with
  | [] => True
  | Replicate_Committed c' :: es => c ⪯ c' ∧ commits c' es
  | Replicate_Data _ :: _ => False
  end.
Definition last_commit (c : option LogId) (es : list Replicate) : option LogId :=
  foldl (λ c e, match e with Replicate_Committed c' => c' | Replicate_Data _ => c end) c es.
Fixpoint quiet (c : option LogId) (rounds : list Drain) : Prop :=
  match rounds with
  | [] => True
  | d :: rounds => d.(closed) = false ∧ commits c d.(events) ∧ quiet (last_commit c d.(events)) rounds
  end.

(** The action after commit positions have arrived. *)
Definition woken (a : option Data) (es : list Replicate) : option Data :=
  match a, es with None, _ :: _ => Some Data_Committed | _, _ => a end.

Lemma process_commits es s : commits s.(committed) es →
  st_for es process_event s = Done (tt, with_state s s.(snapshot_state) s.(backoff) (last_commit s.(committed) es)
                                          s.(matching) (woken s.(next_action) es) s.(entries_hint)).
Proof using.
  revert s. induction es as [|[c|d] es IH]; intros s; [by destruct s, next_action0| |done]. intros [Hle Hc].
  cbn [st_for]. rw {1}/mbind /st_bind {1}/process_event {1}/mbind /st_bind {1}/st_get /mbind /st_bind /lift /assert_.
  rw (proj2 (leb_le _ _) Hle). cbn.
  destruct (bool_decide_reflect (next_action s = None)) as [Ha|Ha]; cbn; (rw IH; [done|]).
  - cbn. rw Ha. by destruct es as [|[|]].
  - cbn. destruct (next_action s); [|done]. by destruct es as [|[|]].
Qed.

Lemma drain_quiet d s : d.(closed) = false → commits s.(committed) d.(events) → s.(backoff) = None →
  drain_events_with_backoff env d s =
    Done (if bool_decide (woken s.(next_action) d.(events) = None) then Some Waiting else None,
          with_state s s.(snapshot_state) None (last_commit s.(committed) d.(events)) s.(matching)
            (woken s.(next_action) d.(events)) s.(entries_hint)).
Proof using.
  intros Hcl Hc Hb. rw /drain_events_with_backoff {1}/mbind /st_bind {1}/st_get Hb.
  rw /drain_events /mbind /st_bind /st_get /mret /st_ret.
  destruct (bool_decide_reflect (next_action s = None)) as [Ha|Ha];
    [destruct (bool_decide_reflect (d.(events) = [])) as [He|He]|]; cbn [andb].
  - rw Hcl He Ha /=. f_equal. f_equal. by destruct s; cbn in *; subst.
  - rw /recv_all /mbind /st_bind (process_commits _ _ Hc) Hcl Ha Hb. by destruct d.(events).
  - rw /recv_all /mbind /st_bind (process_commits _ _ Hc) Hcl Hb. destruct (next_action s); [|done].
    by destruct d.(events).
Qed.

(** *** One iteration *)
Record progressed s s' (reqs : list (nat * AppendEntriesRequest)) : Prop := {
  pg_target : s'.(target) = s.(target);
  pg_session : s'.(session_id) = s.(session_id);
  pg_requests : s'.(r_requests) = s.(r_requests) ++ reqs;
  pg_sent : s.(r_sent) `prefix_of` s'.(r_sent);
  pg_hint : hint_ok s'.(entries_hint);
  pg_backoff : s'.(backoff) = None;
}.

Lemma progressed_trans s s1 s2 l1 l2 : progressed s s1 l1 → progressed s1 s2 l2 → progressed s s2 (l1 ++ l2).
Proof using.
  intros [] []. split; [congruence..| | |done|done]; [|by etrans].
  rw (app_assoc) -pg_requests0. congruence.
Qed.

(** How an iteration ends. *)
Definition exit_of (a : option Data) : option Exit := if bool_decide (a = None) then Some Waiting else None.

Lemma iteration_logs d s r : s.(next_action) = Some (Data_Logs r) → log_range v r → hint_ok s.(entries_hint) →
  d.(closed) = false → commits s.(committed) d.(events) →
  ∃ s' req e, iteration env d s = Done (exit_of s'.(next_action), s') ∧ progressed s s' [req] ∧
    (next_index r.(prev) ≤ e ≤ next_index r.(last))%N ∧
    (next_index r.(prev) < next_index r.(last) → next_index r.(prev) < e)%N ∧
    req.2.(areq_entries) = LogSpec.read v (next_index r.(prev)) e ∧
    s'.(matching) = last_sent r.(prev) req.2.(areq_entries) ∧ progress_note s s'.(matching) ∈ s'.(r_sent) ∧
    s'.(committed) = last_commit s.(committed) d.(events) ∧
    s'.(next_action) = woken (next_action_to_send s'.(matching) r) d.(events).
Proof using Hok Hread Hsuccess.
  intros Ha Hr Hh Hcl Hc. set (s0 := set_next_action s None).
  destruct (send_run s0 r true Hr Hh) as (next & s1 & Hs1 & (h & k & t & e & req & Hh' & He & He' & Hes & E1) & Hnext).
  cbn zeta in E1. set (s2 := set_next_action (set_backoff s1 None) next).
  assert (iteration env d s = drain_events_with_backoff env d s2) as ->.
  { rw /iteration /take_action /run_action /run_data /mbind /st_bind /st_get /st_put /mret /st_ret Ha -/s0 Hs1.
    rw /st_modify. destruct next; [done|]. by rw /s2 E1. }
  assert (committed s2 = committed s) as Hc2 by (by rw /s2 E1).
  rw (drain_quiet _ s2 Hcl); [by rw Hc2|done|].
  exists (with_state s2 s2.(snapshot_state) None (last_commit s2.(committed) d.(events)) s2.(matching)
            (woken s2.(next_action) d.(events)) s2.(entries_hint)), req, e. split; [reflexivity|].
  assert (matching s2 = last_sent r.(prev) req.2.(areq_entries)) as Hm by (by rw /s2 E1).
  split_and!; try done.
  - split; [by rw /s2 E1..| |by rw /s2 E1|done]. rw /s2 E1 /=. rw -app_assoc. by eexists.
  - apply He.
  - apply He.
  - rw /= Hm /s2 E1 /=. apply elem_of_app. right. by left.
  - by rw /= Hc2.
  - cbn. by rw Hnext E1.
Qed.

Lemma iteration_idle d s : (s.(next_action) = None ∨ s.(next_action) = Some Data_Committed) → s.(backoff) = None →
  ref_ptr v s.(matching) → hint_ok s.(entries_hint) → d.(closed) = false → commits s.(committed) d.(events) →
  ∃ s' reqs, iteration env d s = Done (exit_of s'.(next_action), s') ∧ progressed s s' reqs ∧
    Forall (λ req, req.2.(areq_entries) = []) reqs ∧ s'.(matching) = s.(matching) ∧
    s'.(committed) = last_commit s.(committed) d.(events) ∧ s'.(next_action) = woken None d.(events).
Proof using Hok Hread Hsuccess.
  intros Ha Hb Hm Hh Hcl Hc. destruct Ha as [Ha|Ha].
  - assert (iteration env d s = drain_events_with_backoff env d (set_next_action s None)) as ->.
    { by rw /iteration /take_action /mbind /st_bind /st_get /st_put /mret /st_ret Ha. }
    rw (drain_quiet _ (set_next_action s None) Hcl); [done|done|].
    exists (with_state (set_next_action s None) (set_next_action s None).(snapshot_state) None (last_commit (set_next_action s None).(committed) d.(events)) (set_next_action s None).(matching)
            (woken (set_next_action s None).(next_action) d.(events)) (set_next_action s None).(entries_hint)), []. split; [reflexivity|].
    split_and!; try done. split; [done..| |done|done|done]. by rw app_nil_r.
  - set (s0 := set_next_action s None).
    destruct (send_run s0 (LogIdRange_new s.(matching) s.(matching)) false (log_range_empty _ _ Hm) Hh)
      as (next & s1 & Hs1 & (h & k & t & e & req & Hh' & He & _ & Hes & E1) & ->).
    cbn zeta in E1. set (s2 := set_backoff s1 None).
    assert (iteration env d s = drain_events_with_backoff env d s2) as ->.
    { rw /iteration /take_action /run_action /run_data /mbind /st_bind /st_get /st_put /mret /st_ret Ha -/s0.
      rw /st_modify. by rw Hs1. }
    assert (committed s2 = committed s ∧ next_action s2 = None) as [Hc2 Ha2] by (by rw /s2 E1).
    rw (drain_quiet _ s2 Hcl); [by rw Hc2|done|].
    exists (with_state s2 s2.(snapshot_state) None (last_commit s2.(committed) d.(events)) s2.(matching)
            (woken s2.(next_action) d.(events)) s2.(entries_hint)), [req]. split; [reflexivity|].
    split_and!.
    + split; [by rw /s2 E1..| |by rw /s2 E1|done]. rw /s2 E1 /=. by eexists.
    + constructor; [|constructor]. rw Hes. cbn in He |- *. assert (e = next_index (matching s)) as -> by lia.
      by rw /LogSpec.read /LogSpec.range N.sub_diag.
    + by rw /s2 E1.
    + by rw /= Hc2.
    + by rw /= Ha2.
Qed.

(** *** The run *)
Lemma exit_Some a x : exit_of a = Some x → x ∈ [Running; Waiting].
Proof using. rw /exit_of. destruct (bool_decide _); [|done]. intros [= <-]. right. by left. Qed.

Lemma woken_idle es : woken None es = None ∨ woken None es = Some Data_Committed.
Proof using. destruct es; auto. Qed.

Lemma main_cons d rounds s r s1 : iteration env d s = Done (r, s1) →
  main env (d :: rounds) s = match r with Some x => Done (x, s1) | None => main env rounds s1 end.
Proof using. intros Hrun. rw /= (st_bind_run _ _ _ _ _ Hrun). by destruct r. Qed.

Lemma idle_run rounds s : (s.(next_action) = None ∨ s.(next_action) = Some Data_Committed) → s.(backoff) = None →
  ref_ptr v s.(matching) → hint_ok s.(entries_hint) → quiet s.(committed) rounds →
  ∃ x s' reqs, main env rounds s = Done (x, s') ∧ x ∈ [Running; Waiting] ∧ progressed s s' reqs ∧
    Forall (λ req, req.2.(areq_entries) = []) reqs ∧ s'.(matching) = s.(matching).
Proof using Hok Hread Hsuccess.
  revert s. induction rounds as [|d rounds IH]; intros s Ha Hb Hm Hh Hq.
  - exists Running, s, []. split_and!; [done|by left| |constructor|done]. split; [done..| |done|done|done]. by rw app_nil_r.
  - destruct Hq as (Hcl & Hc & Hq).
    destruct (iteration_idle d s Ha Hb Hm Hh Hcl Hc) as (s1 & reqs & Hrun & Hp & Hes & Hm1 & Hc1 & Ha1).
    rw (main_cons _ _ _ _ _ Hrun). destruct (exit_of (next_action s1)) eqn:Hx.
    + exists e, s1, reqs. by split_and!; [|eapply exit_Some| | |].
    + destruct (IH s1) as (x & s' & reqs' & Hrun' & Hin & Hp' & Hes' & Hm'); [rw Ha1; by apply woken_idle|by apply Hp|
        by rw Hm1|by apply Hp|by rw Hc1|].
      exists x, s', (reqs ++ reqs'). split_and!; [done|done| | |congruence].
      * by eapply progressed_trans.
      * by apply Forall_app.
Qed.

Lemma ref_ptr_eq p q : ref_ptr v p → ref_ptr v q → next_index p = next_index q → p = q.
Proof using.
  intros Hp Hq. destruct p as [x|], q as [y|]; cbn; [|lia|lia|done]. intros E. assert (index x = index y) as Ei by lia.
  specialize (Hp x eq_refl). specialize (Hq y eq_refl). congruence.
Qed.

(** A round sends the next entries of the range; either that was the last of it, or the rest is next. *)
Lemma deliver_step d s r : (next_index r.(prev) < next_index r.(last))%N →
  s.(next_action) = Some (Data_Logs r) → log_range v r → hint_ok s.(entries_hint) →
  d.(closed) = false → commits s.(committed) d.(events) →
  ∃ s' req e, iteration env d s = Done (exit_of s'.(next_action), s') ∧ progressed s s' [req] ∧
    (next_index r.(prev) < e ≤ next_index r.(last))%N ∧ next_index s'.(matching) = e ∧ ref_ptr v s'.(matching) ∧
    req.2.(areq_entries) = LogSpec.read v (next_index r.(prev)) e ∧ progress_note s s'.(matching) ∈ s'.(r_sent) ∧
    s'.(committed) = last_commit s.(committed) d.(events) ∧
    ((s'.(matching) = r.(last) ∧ s'.(next_action) = woken None d.(events)) ∨
     ((e < next_index r.(last))%N ∧ log_range v (LogIdRange_new s'.(matching) r.(last)) ∧
      s'.(next_action) = Some (Data_Logs (LogIdRange_new s'.(matching) r.(last))))).
Proof using Hok Hread Hsuccess.
  intros Hlt Ha Hr Hh Hcl Hc.
  destruct (iteration_logs d s r Ha Hr Hh Hcl Hc) as (s1 & req & e & Hrun & Hp & He & He' & Hes & Hm & Hnote & Hc1 & Ha1).
  specialize (He' Hlt). destruct Hr as [Hrp Hrl Hpu _]. specialize (Hpu ltac:(lia)).
  pose proof (ref_ptr_last _ _ Hok Hrl) as Hlast.
  destruct (last_sent_read v r.(prev) e Hok Hrp Hpu) as [Hmp Hmn]; [lia..|]. rw -Hes -Hm in Hmp Hmn.
  exists s1, req, e. split_and!; [done..|lia|lia|done|done|done|done|done|].
  rw Ha1 /next_action_to_send. destruct (decide (e = next_index r.(last))) as [-> |Hne].
  - left. assert (s1.(matching) = r.(last)) as -> by (by apply ref_ptr_eq). split; [done|].
    destruct (ltbP r.(last) r.(last)) as [H'|]; [|done]. by apply olt_irrefl in H'.
  - right. split; [lia|]. split; [split; cbn; [done..|lia|lia]|].
    destruct (ltbP s1.(matching) r.(last)) as [|Hge]; [by destruct d.(events)|]. exfalso.
    apply (ref_ptr_le _ _ _ Hok Hrl Hmp) in Hge. lia.
Qed.

Lemma deliver_run n : ∀ rounds s r, n = N.to_nat (next_index r.(last) - next_index r.(prev)) → 0 < n → n ≤ length rounds →
  s.(next_action) = Some (Data_Logs r) → log_range v r → hint_ok s.(entries_hint) → quiet s.(committed) rounds →
  ∃ x s' reqs hbs, main env rounds s = Done (x, s') ∧ x ∈ [Running; Waiting] ∧ progressed s s' (reqs ++ hbs) ∧
    length reqs ≤ n ∧ (reqs ≫= λ req, req.2.(areq_entries)) = LogSpec.read v (next_index r.(prev)) (next_index r.(last)) ∧
    Forall (λ req, req.2.(areq_entries) = []) hbs ∧
    s'.(matching) = r.(last) ∧ progress_note s r.(last) ∈ s'.(r_sent).
Proof using Hok Hread Hsuccess.
  induction n as [n IH] using lt_wf_ind. intros rounds s r -> Hn Hlen Ha Hr Hh Hq.
  destruct rounds as [|d rounds]; [cbn in Hlen; lia|]. destruct Hq as (Hcl & Hc & Hq).
  destruct (deliver_step d s r ltac:(lia) Ha Hr Hh Hcl Hc) as
    (s1 & req & e & Hrun & Hp & He & Hmn & Hmp & Hes & Hnote & Hc1 & [[Hml Ha1]|(Hlt & Hr1 & Ha1)]);
    rw (main_cons _ _ _ _ _ Hrun).
  - assert (e = next_index r.(last)) as -> by (by rw -Hml). destruct (exit_of (next_action s1)) as [x|] eqn:Hx.
    + exists x, s1, [req], []. rw bind_cons /= app_nil_r.
      split_and!; [done|by eapply exit_Some|done|cbn in *; lia|done|constructor|done|by rw -Hml].
    + destruct (idle_run rounds s1) as (x & s' & hbs & Hrun' & Hin & Hp' & Hes' & Hm');
        [rw Ha1; by apply woken_idle|by apply Hp|done|by apply Hp|by rw Hc1|].
      exists x, s', [req], hbs. rw bind_cons /= app_nil_r.
      split_and!; [done|done|exact (progressed_trans _ _ _ [req] hbs Hp Hp')|lia|done|done|congruence|].
      eapply elem_of_prefix; [|by apply Hp']. by rw -Hml.
  - destruct (IH (N.to_nat (next_index r.(last) - e)) ltac:(lia) rounds s1 (LogIdRange_new s1.(matching) r.(last))) as
      (x & s' & reqs & hbs & Hrun' & Hin & Hp' & Hlen' & Hes' & Hhb & Hm' & Hnote');
      [cbn; f_equal; lia|lia|cbn in Hlen; lia|done|done|by apply Hp|by rw Hc1|].
    exists x, s', (req :: reqs), hbs. rw Ha1 /exit_of bind_cons bool_decide_eq_false_2 //.
    split_and!; [done|done|exact (progressed_trans _ _ _ [req] _ Hp Hp')|cbn; lia| |done|done|].
    + rw Hes Hes' /= Hmn. rw (read_split v (next_index r.(prev)) e (next_index r.(last))) //; lia.
    + revert Hnote'. rw /progress_note. by destruct Hp as [-> -> _ _ _ _].
Qed.

(** C17: a range is delivered.  When the task has a range [(prev, last]] of the leader's log to send, and
    from then on the follower answers every RPC with success and the log store returns at least one of
    the entries asked for, then, however little a read returns and whatever hint of a payload limit is in
    force, at most as many RPCs as there are entries carry exactly the entries of the range, each once
    and in order; [RaftCore] is told the follower has the log up to [last], after which only
    heartbeats are sent.  Meanwhile [RaftCore] may move the commit position at any time. *)
Theorem range_delivered rounds s r : (next_index r.(prev) < next_index r.(last))%N →
  N.to_nat (next_index r.(last) - next_index r.(prev)) ≤ length rounds →
  s.(next_action) = Some (Data_Logs r) → log_range v r → hint_ok s.(entries_hint) → quiet s.(committed) rounds →
  ∃ x s' reqs hbs, main env rounds s = Done (x, s') ∧ x ∈ [Running; Waiting] ∧
    s'.(r_requests) = s.(r_requests) ++ reqs ++ hbs ∧
    length reqs ≤ N.to_nat (next_index r.(last) - next_index r.(prev)) ∧
    (reqs ≫= λ req, req.2.(areq_entries)) = LogSpec.read v (next_index r.(prev)) (next_index r.(last)) ∧
    Forall (λ req, req.2.(areq_entries) = []) hbs ∧
    s'.(matching) = r.(last) ∧ progress_note s r.(last) ∈ s'.(r_sent).
Proof using Hok Hread Hsuccess.
  intros Hlt Hlen Ha Hr Hh Hq.
  destruct (deliver_run _ rounds s r eq_refl ltac:(lia) Hlen Ha Hr Hh Hq) as (x & s' & reqs & hbs & Hrun & Hx & Hp & Hd).
  exists x, s', reqs, hbs. split; [done|]. split; [done|]. by split; [apply Hp|].
Qed.
End delivery.

(** ** A payload that is too large *)
Lemma new_entries_hint_done limit p : PayloadTooLarge.new_entries_hint limit = Done p →
  (0 < limit)%N ∧ p.(ptl_action) = RPC_AppendEntries ∧ p.(ptl_entries_hint) = limit.
Proof. rw /PayloadTooLarge.new_entries_hint. destruct (N.ltb_spec 0 limit); [|done]. by intros [= <-]. Qed.

Section too_large.
Context {C : RaftTypeConfig} {LS : Type} `{!RaftLogReader.RaftLogReader LS} (env : ReplEnv LS).
Context (v : LogView) (Hok : log_ok v) (Hread : reads_some env v).
Context (limit : N) (p : PayloadTooLarge) (Hp : PayloadTooLarge.new_entries_hint limit = Done p).
Context (Hlarge : ∀ k req, env.(env_append) k req = Some (RErr (RPCError_PayloadTooLarge p))).
Implicit Types s : ReplicationCore.
Import ReplicationCore.

(** The task tries the range again, with at most [limit] entries from now on. *)
Definition retrying s r : Prop :=
  s.(next_action) = Some (Data_Logs r) ∧ s.(backoff) = None ∧ hint_ok s.(entries_hint).
Definition limited s : Prop := (0 < s.(entries_hint).(hint_ttl))%N ∧ s.(entries_hint).(hint_n) = limit.

Lemma too_large_step d s r : (next_index r.(prev) < next_index r.(last))%N → log_range v r → retrying s r →
  d.(closed) = false → commits s.(committed) d.(events) →
  ∃ s' k req e, iteration env d s = Done (None, s') ∧ retrying s' r ∧ limited s' ∧
    s'.(r_requests) = s.(r_requests) ++ [(k, req)] ∧ s'.(r_sent) = s.(r_sent) ∧
    req.(areq_prev_log_id) = r.(prev) ∧ req.(areq_entries) = LogSpec.read v (next_index r.(prev)) e ∧
    (next_index r.(prev) < e ≤ next_index r.(last))%N ∧ (limited s → e ≤ next_index r.(prev) + limit)%N ∧
    s'.(committed) = last_commit s.(committed) d.(events).
Proof using Hok Hread Hp Hlarge.
  intros Hlt Hr (Ha & Hb & Hh) Hcl Hc. set (s0 := set_next_action s None). destruct (new_entries_hint_done _ _ Hp) as (Hl & Hpa & Hpl).
  destruct (read_logs_run env v Hok Hread s0 r Hr Hh) as (h & k & e & Hh' & He & He' & Hlim & Hrun).
  set (req := {| areq_vote := session_vote s.(session_id); areq_prev_log_id := r.(prev);
                 areq_entries := LogSpec.read v (next_index r.(prev)) e; areq_leader_commit := s.(committed) |}).
  set (s2 := after s None s.(matching) (Some (Data_Logs r)) (ReplicationHint.new limit 10) (S (S k)) s.(r_sent)
               (s.(r_requests) ++ [(S k, req)])).
  set (s1 := after s0 None s.(matching) None h (S (S k)) s.(r_sent) (s.(r_requests) ++ [(S k, req)])).
  assert (send_log_entries env r true s0 = Done (RErr (RE_RPCError (RPCError_PayloadTooLarge p)), s1)) as Hs1.
  { cut (wp (send_log_entries env r true)
           (λ res s', res = RErr (RE_RPCError (RPCError_PayloadTooLarge p)) ∧ s' = s1) s0).
    { by intros (? & ? & ? & -> & ->)%wp_elim. }
    apply wp_bind. rw /wp Hrun. cbv beta iota.
    apply wp_bind, wp_bind. rw {1}/wp /interact. apply wp_ret, wp_bind, wp_get. cbv zeta.
    apply wp_bind, wp_bind. rw {1}/wp /interact. apply wp_bind, wp_modify, wp_ret. rw Hlarge. apply wp_ret.
    split; [done|]. by rw /s1 /s0 /= Hb. }
  assert (iteration env d s = drain_events_with_backoff env d s2) as ->.
  { rw /iteration /take_action /run_action /run_data /mbind /st_bind /st_get /st_put /mret /st_ret Ha -/s0 Hs1.
    rw /handle_rpc_error /update_hint /mbind /st_bind /st_modify /st_get Hpa Hpl. done. }
  rw (drain_quiet env _ s2 Hcl Hc); [done|].
  exists (with_state s2 s2.(snapshot_state) None (last_commit s2.(committed) d.(events)) s2.(matching)
            (woken s2.(next_action) d.(events)) s2.(entries_hint)), (S k), req, e.
  split; [by destruct d.(events)|]. split; [split_and!; [by destruct d.(events)|done|by intros _]|].
  split_and!; try done; [lia|lia|]. intros [Ht Hn]. rw -Hn. by apply Hlim.
Qed.

(** C36: a payload that stays too large is tried again for ever.  The task answers [PayloadTooLarge] by
    sending the range again at once with at most the hinted number of entries.  When the network
    answers so to every RPC, even to one with a single entry, every round sends the range again: no
    error is reported to [RaftCore] and no backoff is begun, although the documentation of
    [PayloadTooLarge] says a request that cannot be divided is taken as [Unreachable]. *)
Theorem too_large_never_gives_up rounds s r : (next_index r.(prev) < next_index r.(last))%N → log_range v r →
  retrying s r → quiet s.(committed) rounds →
  ∃ s' reqs, main env rounds s = Done (Running, s') ∧ s'.(next_action) = Some (Data_Logs r) ∧ s'.(backoff) = None ∧
    s'.(r_sent) = s.(r_sent) ∧ s'.(r_requests) = s.(r_requests) ++ reqs ∧ length reqs = length rounds ∧
    ∀ (i : nat) req, reqs !! i = Some req → req.2.(areq_prev_log_id) = r.(prev) ∧
      ∃ e, (next_index r.(prev) < e ≤ next_index r.(last))%N ∧ (0 < i → (e ≤ next_index r.(prev) + limit)%N) ∧
        req.2.(areq_entries) = LogSpec.read v (next_index r.(prev)) e.
Proof using Hok Hread Hp Hlarge.
  intros Hlt Hr Hs Hq.
  cut (∃ s' reqs, main env rounds s = Done (Running, s') ∧ retrying s' r ∧ s'.(r_sent) = s.(r_sent) ∧
    s'.(r_requests) = s.(r_requests) ++ reqs ∧ length reqs = length rounds ∧
    ∀ (i : nat) req, reqs !! i = Some req → req.2.(areq_prev_log_id) = r.(prev) ∧
      ∃ e, (next_index r.(prev) < e ≤ next_index r.(last))%N ∧
        (limited s ∨ 0 < i → (e ≤ next_index r.(prev) + limit)%N) ∧
        req.2.(areq_entries) = LogSpec.read v (next_index r.(prev)) e).
  { intros (s' & reqs & Hrun & (Ha & Hb & _) & Hsent & Hreqs & Hlen & Hall). exists s', reqs. split_and!; [done..|].
    intros i req Hi. destruct (Hall i req Hi) as (? & e & ? & ? & ?). split; [done|]. exists e. split_and!; [lia..|auto|done]. }
  revert s Hs Hq. induction rounds as [|d rounds IH]; intros s Hs Hq.
  { exists s, []. split_and!; [done|by apply Hs..|done|by rw app_nil_r|done|]. by intros i req Hi. }
  destruct Hq as (Hcl & Hc & Hq).
  destruct (too_large_step d s r Hlt Hr Hs Hcl Hc) as (s1 & k & req & e & Hrun & Hs1 & Hl1 & Hq1 & Hn1 & Hpr & Hes & He & Hle & Hc1).
  destruct (IH s1 Hs1) as (s' & reqs & Hrun' & Hs' & Hsent & Hreqs & Hlen & Hall); [by rw Hc1|].
  exists s', ((k, req) :: reqs). rw (main_cons _ _ _ _ _ _ Hrun). split_and!; [done|by apply Hs'..|congruence| |cbn; congruence|].
  - by rw Hreqs Hq1 -app_assoc.
  - intros [|i] req' Hi; cbn in Hi.
    + injection Hi as <-. split; [done|]. exists e. split_and!; [lia..| |done]. intros [|]; [by auto|lia].
    + destruct (Hall i req' Hi) as (? & e' & ? & Hlim & ?). split; [done|]. exists e'. split_and!; [lia..| |done]. auto.
Qed.
End too_large.

(** ** Witnesses: a log of five entries, read two at a time *)
Section witness.
Notation C := UTConfig.
#[local] Existing Instance UTConfig.

Definition ut_entries : list Entry := (λ i, Entry.new_blank (ut_log_id 1 1 i)) <$> [0; 1; 2; 3; 4]%N.
Definition ut_log : LogView := LogSpec.append LogSpec.empty ut_entries.
Definition ut_reader : RaftLogReader.RaftLogReader LogView := {|
  RaftLogReader.try_get_log_entries := λ v a b, Done (ROk (LogSpec.read v a b));
  RaftLogReader.read_vote := λ v, Done (ROk v.(lv_vote));
  RaftLogReader.limited_get_log_entries := λ v a b, Done (ROk (take 2 (LogSpec.read v a b))) |}.
#[local] Existing Instance ut_reader.

Definition ut_env (response : Result AppendEntriesResponse (RPCError Empty_set)) : ReplEnv LogView := {|
  env_append := λ _ _, Some response; env_now := N.of_nat; env_log := λ _, ut_log;
  env_snapshot := λ _, ROk None; env_backoff := λ _, Backoff.constant; env_show := λ _, "error" |}.

Lemma task_log_ok : log_ok ut_log.
Proof.
  apply append_ok; [by apply empty_log_ok|]. vm_compute. by repeat split.
Qed.

(** Reading a few entries is reading a shorter range. *)
Lemma take_read {D : RaftTypeConfig} v a b n : log_ok v → (next_index v.(lv_purged) ≤ a)%N → (a ≤ b)%N →
  (b ≤ next_index (LogSpec.last_log_id v))%N →
  take n (LogSpec.read v a b) = LogSpec.read v a (N.min b (a + N.of_nat n)).
Proof.
  intros Hok Ha Hab Hb. rw (read_split v a (N.min b (a + N.of_nat n)) b); [lia..|].
  pose proof (read_length v Hok a (N.min b (a + N.of_nat n)) Ha ltac:(lia)) as Hl.
  destruct (decide (b ≤ a + N.of_nat n)%N).
  - rw take_ge; [rw length_app Hl (read_length v Hok); lia|].
    rw (nil_length_inv (LogSpec.read v (N.min b (a + N.of_nat n)) b)); [rw (read_length v Hok); lia|]. by rw app_nil_r.
  - rw take_app_length'; [lia|done].
Qed.

Lemma ut_reads_some response : reads_some (ut_env response) ut_log.
Proof.
  intros k a b Ha Hab Hb. exists (N.min b (a + 2)). split; [lia|]. split; [lia|]. cbn.
  by rw (take_read ut_log a b 2 task_log_ok Ha); [lia|done|].
Qed.

Lemma reads_some_log {D : RaftTypeConfig} {LS} `{!RaftLogReader.RaftLogReader LS} (env : ReplEnv LS) v :
  reads_some env v → reads_log v env.(env_log).
Proof.
  intros Hr k a b es Ha Hab Hb Hes. destruct (Hr k a b Ha Hab Hb) as (c & ? & ? & Hes'). exists c.
  rw Hes' in Hes. by injection Hes as <-.
Qed.

Definition ut_session : ReplicationSessionId :=
  {| leader_vote := {| cv_leader_id := LeaderIdAdv.new 1 1 |}; membership_log_id := None |}.
Definition ut_spawned : ReplicationCore := ReplicationCore.spawn 2 ut_session ut_core_config None None.
Definition ut_drain (es : list Replicate) : Drain :=
  {| backoff_events := []; backoff_closed := false; events := es; closed := false |}.
Definition ut_range : LogIdRange := LogIdRange_new (Some (ut_log_id 1 1 0)) (Some (ut_log_id 1 1 4)).
Definition ut_rounds : list Drain :=
  [ut_drain [Replicate_Data (Data_Logs ut_range)]; ut_drain [Replicate_Committed (Some (ut_log_id 1 1 1))];
   ut_drain [Replicate_Committed (Some (ut_log_id 1 1 4))]; ut_drain []; ut_drain []].
Definition ut_state_of (o : Outcome (Exit * ReplicationCore)) : ReplicationCore :=
  match o with Done (_, s) => s | Panic _ => ut_spawned end.

Lemma ut_range_ok : log_range ut_log ut_range.
Proof. split; [by intros x [= <-]|by intros x [= <-]|by vm_compute..]. Qed.
Lemma ut_events_ok : Forall (event_ok ut_log (all_events ut_rounds)) (all_events ut_rounds).
Proof. constructor; [exact ut_range_ok|by repeat constructor]. Qed.

Definition ut_run : ReplicationCore :=
  ut_state_of (ReplicationCore.main (ut_env (ROk Success)) ut_rounds ut_spawned).
Lemma ut_run_done : ReplicationCore.main (ut_env (ROk Success)) ut_rounds ut_spawned = Done (Waiting, ut_run).
Proof. by vm_compute. Qed.



Definition ut_sending : ReplicationCore := ReplicationCore.set_next_action ut_spawned (Some (Data_Logs ut_range)).

Lemma range_delivered_witness : ∃ x s', ReplicationCore.main (ut_env (ROk Success)) (tail ut_rounds) ut_sending = Done (x, s') ∧
  s'.(matching) = Some (ut_log_id 1 1 4).
Proof.
  destruct (range_delivered (ut_env (ROk Success)) ut_log task_log_ok (ut_reads_some _) ltac:(done) (tail ut_rounds) ut_sending
    ut_range) as (x & s' & reqs & hbs & Hrun & _ & _ & _ & _ & _ & Hm & _);
    [done|vm_compute; lia|done|exact ut_range_ok|done|by vm_compute|]. exists x, s'. split; [exact Hrun|exact Hm].
Defined.

Definition ut_too_large : PayloadTooLarge :=
  {| ptl_action := RPC_AppendEntries; ptl_entries_hint := 1; ptl_bytes_hint := u64_max; ptl_source := None |}.

Lemma too_large_never_gives_up_witness : ∃ s',
  ReplicationCore.main (ut_env (RErr (RPCError_PayloadTooLarge ut_too_large))) (tail ut_rounds) ut_sending = Done (Running, s') ∧
  length s'.(r_requests) = 4 ∧ s'.(r_sent) = [].
Proof.
  destruct (too_large_never_gives_up (ut_env (RErr (RPCError_PayloadTooLarge ut_too_large))) ut_log task_log_ok (ut_reads_some _)
    1 ut_too_large eq_refl ltac:(done) (tail ut_rounds) ut_sending ut_range) as (s' & reqs & Hrun & _ & _ & Hs & Hr & Hlen & _);
    [done|exact ut_range_ok|by split_and!|by vm_compute|]. exists s'. split; [exact Hrun|].
  split; [rw Hr; exact Hlen|exact Hs].
Defined.
End witness.
