(* ===== verification/Tick.v ===== *)
(** * The tick (openraft/src/core/tick.rs)

    A task sends [Notification::Tick] to RaftCore at an interval, until it is canceled or RaftCore is
    gone.  What wakes the loop is a list of events; the flag it reads and the receiver it sends to are
    part of the event. *)

From S2P Require Export CoreState.

(** What completes first in a turn of the loop: the cancellation, or the sleep; then the value of the
    flag [enabled], and whether RaftCore still receives. *)
Inductive TickEvent := TickCancel | TickSlept (enabled receiving : bool).

(** How a run of the loop ends: it returned, or it sleeps. *)
Inductive TickEnd := TickReturned | TickSleeping.

Record TickHandle := {
  tick_enabled : bool;
  (** The sender of the cancellation, and the join handle, until they are taken. *)
  has_shutdown : bool;
  has_join_handle : bool;
}.

Module Tick.
Section ops.
Context {C : RaftTypeConfig}.

Definition spawn (enabled : bool) : TickHandle :=
  {| tick_enabled := enabled; has_shutdown := true; has_join_handle := true |}.

(** [i] ticks have been sent; the result is what is sent from here. *)
Fixpoint tick_loop (i : N) (events : list TickEvent) : list Notification * TickEnd :=
  match events with
  | [] => ([], TickSleeping)
  | TickCancel :: _ => ([], TickReturned)
  | TickSlept enabled receiving :: events =>
      if negb enabled then tick_loop i events
      else if receiving then
        let '(sent, e) := tick_loop (i + 1) events in (N_Tick (i + 1) :: sent, e)
      else ([], TickReturned)
  end.

Definition enable (h : TickHandle) (enabled : bool) : TickHandle :=
  {| tick_enabled := enabled; has_shutdown := h.(has_shutdown); has_join_handle := h.(has_join_handle) |}.

(** The join handle is returned the first time only. *)
Definition shutdown (h : TickHandle) : bool * TickHandle :=
  (h.(has_join_handle), {| tick_enabled := h.(tick_enabled); has_shutdown := false; has_join_handle := false |}).

Definition drop (h : TickHandle) : TickHandle := if h.(has_shutdown) then (shutdown h).2 else h.
End ops.
End Tick.

Section tick.
Context {C : RaftTypeConfig}.

(** The events up to the one that ends the loop. *)
Fixpoint alive_events (events : list TickEvent) : list TickEvent :=
  match events with
  | TickSlept enabled receiving :: events =>
      if enabled && negb receiving then [] else TickSlept enabled receiving :: alive_events events
  | _ => []
  end.

Definition is_enabled (e : TickEvent) : bool := match e with TickSlept enabled _ => enabled | TickCancel => false end.

(** The loop sends one tick for each sleep that ends enabled, numbered from one, until it is canceled or
    RaftCore is gone, and nothing after that. *)
Theorem tick_loop_spec i (events : list TickEvent) :
  (Tick.tick_loop i events).1 =
    (λ k, N_Tick (i + N.of_nat k)) <$> seq 1 (length (filter is_enabled (alive_events events))).
Proof.
  revert i. induction events as [|[|en rc] events IH]; intros i; [done..|]. cbn [Tick.tick_loop alive_events].
  destruct en; cbn [negb andb].
  - destruct rc; cbn [negb]; [|done]. specialize (IH (i + 1)%N). destruct (Tick.tick_loop (i + 1) events) as [sent e].
    cbn in IH |- *. rw IH. cbn. destruct (decide True) as [_|[]]; [|done]. cbn. f_equal. rw -(fmap_S_seq 1) -list_fmap_compose.
    apply list_fmap_ext. intros ? k _. cbn. f_equal. lia.
  - by rw IH.
Qed.

Theorem tick_loop_stops i events events' : Tick.tick_loop i (events ++ TickCancel :: events') = Tick.tick_loop i (events ++ [TickCancel]).
Proof.
  revert i. induction events as [|[|en rc] events IH]; intros i; [done..|]. cbn. by rw !IH.
Qed.
End tick.
