(* ===== verification/Wait.v ===== *)
(** * Waiting for metrics (openraft/src/metrics/wait.rs, metric.rs, wait_condition.rs)

    A client of a node waits until the metrics that the node publishes satisfy a condition.  A watch
    channel keeps the last value only: what a waiter sees is the value when it starts and the value
    each time [changed] completes, so the run of a wait is a function of these observations.  A run
    that is not over when the observations end is [None].  The messages of the errors are left out. *)

From S2P Require Export CoreState.

(** ** Metrics and conditions *)
Inductive Metric {C : RaftTypeConfig} :=
| Metric_Term (v : Term)
| Metric_Vote (v : Vote)
| Metric_LastLogIndex (v : option N)
| Metric_Applied (v : option LogId)
| Metric_AppliedIndex (v : option N)
| Metric_Snapshot (v : option LogId)
| Metric_Purged (v : option LogId).

Module Metric.
Section ops.
Context {C : RaftTypeConfig}.
Implicit Types m : RaftMetrics.

(** [impl PartialEq<Metric<C>> for RaftMetrics<C>] *)
Definition eq m (other : Metric) : bool :=
  match other with
  | Metric_Term v => bool_decide (m.(current_term) = v)
  | Metric_Vote v => bool_decide (m.(m_vote) = v)
  | Metric_LastLogIndex v => bool_decide (m.(last_log_index) = v)
  | Metric_Applied v => bool_decide (m.(m_last_applied) = v)
  | Metric_AppliedIndex v => bool_decide (opt_index m.(m_last_applied) = v)
  | Metric_Snapshot v => bool_decide (m.(m_snapshot) = v)
  | Metric_Purged v => bool_decide (m.(m_purged) = v)
  end.

(** [impl PartialOrd<Metric<C>> for RaftMetrics<C>] *)
Definition partial_cmp m (other : Metric) : Outcome (option comparison) :=
  match other with
  | Metric_Term v => Done (Some (cmp m.(current_term) v))
  | Metric_Vote v => RefVote_partial_cmp (as_ref_vote m.(m_vote)) (as_ref_vote v)
  | Metric_LastLogIndex v => Done (Some (cmp m.(last_log_index) v))
  | Metric_Applied v => Done (Some (cmp m.(m_last_applied) v))
  | Metric_AppliedIndex v => Done (Some (cmp (opt_index m.(m_last_applied)) v))
  | Metric_Snapshot v => Done (Some (cmp m.(m_snapshot) v))
  | Metric_Purged v => Done (Some (cmp m.(m_purged) v))
  end.
Definition ge m (other : Metric) : Outcome bool := pcmp_ge <$> partial_cmp m other.
End ops.
End Metric.

Inductive WaitCondition {C : RaftTypeConfig} := Cond_GE (m : Metric) | Cond_EQ (m : Metric).

(** ** Waiting *)
Inductive WaitError := WE_Timeout (t : Duration) | WE_ShuttingDown.

(** What completes in the [select_biased!] of a round: the delay, or [changed], with the value that
    the waiter then reads and the clock. *)
Inductive WatchEvent {C : RaftTypeConfig} :=
| WatchDelay
| WatchChanged (latest : RaftMetrics) (now : Instant)
| WatchClosed.

(** [rx] is the value of the channel when the wait starts, [rx_now] the clock. *)
Record Wait {C : RaftTypeConfig} := {
  timeout : Duration;
  rx : RaftMetrics;
  rx_now : Instant;
  rx_events : list WatchEvent;
}.

Module Wait.
Section ops.
Context {C : RaftTypeConfig}.
Implicit Types w : Wait.

Fixpoint metrics_loop (timeout : Duration) (timeout_at : Instant) (func : RaftMetrics → Outcome bool)
    (latest : RaftMetrics) (now : Instant) (events : list WatchEvent) : Outcome (option (Result RaftMetrics WaitError)) :=
  ok ← func latest;
  if (ok : bool) then Done (Some (ROk latest))
  else if (timeout_at <=? now)%N then Done (Some (RErr (WE_Timeout timeout)))
  else
    match events with
    | [] => Done None
    | WatchDelay :: _ => Done (Some (RErr (WE_Timeout timeout)))
    | WatchClosed :: _ => Done (Some (RErr WE_ShuttingDown))
    | WatchChanged latest now :: events => metrics_loop timeout timeout_at func latest now events
    end.

Definition metrics w (func : RaftMetrics → Outcome bool) : Outcome (option (Result RaftMetrics WaitError)) :=
  metrics_loop w.(timeout) (w.(rx_now) + w.(timeout))%N func w.(rx) w.(rx_now) w.(rx_events).

Definition until w (cond : WaitCondition) :=
  metrics w (λ m, match cond with Cond_GE expect => Metric.ge m expect | Cond_EQ expect => Done (Metric.eq m expect) end).
Definition ge w (metric : Metric) := until w (Cond_GE metric).
Definition eq w (metric : Metric) := until w (Cond_EQ metric).

Definition vote w (want : Vote) := eq w (Metric_Vote want).
Definition current_leader w (leader_id : NodeId) :=
  metrics w (λ m, Done (bool_decide (m.(m_current_leader) = Some leader_id))).
Definition log_index w (index : option N) := eq w (Metric_LastLogIndex index).
Definition log_index_at_least w (index : option N) := ge w (Metric_LastLogIndex index).
Definition applied_index w (index : option N) := eq w (Metric_AppliedIndex index).
Definition applied_index_at_least w (index : option N) := ge w (Metric_AppliedIndex index).
Definition state w (want_state : ServerState) := metrics w (λ m, Done (bool_decide (m.(m_state) = want_state))).
Definition voter_ids w (want : gset NodeId) :=
  metrics w (λ m, Done (bool_decide (want = list_to_set (Membership.voter_ids m.(membership_config).(stored_membership_))))).
Definition snapshot w (snapshot_last_log_id : LogId) := eq w (Metric_Snapshot (Some snapshot_last_log_id)).
Definition purged w (want : option LogId) := eq w (Metric_Purged want).
End ops.
End Wait.

(** ** What a wait returns *)
Section runs.
Context {C : RaftTypeConfig}.
Implicit Types w : Wait.

(** The values the waiter reads, in order, with the clock at each. *)
Fixpoint observed_from (latest : RaftMetrics) (now : Instant) (events : list WatchEvent) : list (RaftMetrics * Instant) :=
  (latest, now) :: match events with WatchChanged m t :: events => observed_from m t events | _ => [] end.
Definition observed w : list (RaftMetrics * Instant) := observed_from w.(rx) w.(rx_now) w.(rx_events).

(** The observations before the one that ends the wait: not satisfied, and in time. *)
Definition keeps_waiting w (func : RaftMetrics → Outcome bool) (o : RaftMetrics * Instant) : Prop :=
  func o.1 = Done false ∧ (o.2 < w.(rx_now) + w.(timeout))%N.

Lemma metrics_loop_run t (at_ : Instant) func (events : list WatchEvent) latest now res :
  Wait.metrics_loop t at_ func latest now events = Done (Some res) →
  ∃ before m n after, observed_from latest now events = before ++ (m, n) :: after ∧
    Forall (λ o, func o.1 = Done false ∧ (o.2 < at_)%N) before ∧
    match res with
    | ROk m' => m' = m ∧ func m = Done true
    | RErr e => func m = Done false ∧ (e = WE_ShuttingDown ∨ e = WE_Timeout t)
    end.
Proof.
  revert latest now. induction events as [|ev events IH]; intros latest now; cbn [Wait.metrics_loop observed_from];
    destruct (func latest) as [b|] eqn:Hf; try done; cbn; destruct b.
  - intros [= <-]. by exists [], latest, now, [].
  - destruct (N.leb_spec at_ now); intros [= <-]. exists [], latest, now, []. by split_and!; auto.
  - intros [= <-]. eexists [], latest, now, _. by split_and!.
  - destruct (N.leb_spec at_ now) as [Hle|Hlt].
    { intros [= <-]. eexists [], latest, now, _. by split_and!; auto. }
    destruct ev as [|m t'|]; [intros [= <-]; eexists [], latest, now, _; by split_and!; auto| |
      intros [= <-]; eexists [], latest, now, _; by split_and!; auto].
    intros (before & m' & n & after & -> & Hb & Hres)%IH.
    exists ((latest, now) :: before), m', n, after. split_and!; [done| |done]. by constructor.
Qed.

Lemma metrics_loop_complete t (at_ : Instant) func (events : list WatchEvent) latest now before m n after :
  observed_from latest now events = before ++ (m, n) :: after →
  Forall (λ o, func o.1 = Done false ∧ (o.2 < at_)%N) before → func m = Done true →
  Wait.metrics_loop t at_ func latest now events = Done (Some (ROk m)).
Proof.
  revert latest now before. induction events as [|ev events IH]; intros latest now before Ho Hb Hm.
  all: destruct before as [|[m0 n0] before]; cbn in Ho; injection Ho as -> -> Ho.
  - cbn. by rw Hm.
  - by destruct before.
  - cbn. by rw Hm.
  - inversion Hb as [|? ? [Hf Hlt] Hb']; subst. cbn in Hf, Hlt. cbn. rw Hf /=.
    apply N.leb_gt in Hlt as ->. destruct ev as [|m1 n1|]; [by destruct before| |by destruct before].
    by apply IH with before.
Qed.

(** C?: waiting for a condition on the metrics.  A wait succeeds with [m] exactly when [m] is the
    first value it reads that satisfies the condition and it read every value before [m] in time;
    otherwise it ends with an error, after a value that does not satisfy the condition, or goes on. *)
Theorem wait_metrics_spec w func m :
  Wait.metrics w func = Done (Some (ROk m)) ↔
  ∃ before n after, observed w = before ++ (m, n) :: after ∧ Forall (keeps_waiting w func) before ∧ func m = Done true.
Proof.
  split.
  - intros (before & m' & n & after & Ho & Hb & -> & Hm)%metrics_loop_run. by exists before, n, after.
  - intros (before & n & after & Ho & Hb & Hm). by apply (metrics_loop_complete _ _ _ _ _ _ before m n after).
Qed.

(** What a successful wait for a bound on an index returns. *)
Lemma ge_applied_spec w i m :
  Wait.applied_index_at_least w i = Done (Some (ROk m)) → i ⪯ opt_index m.(m_last_applied).
Proof.
  intros (before & m' & n & after & _ & _ & -> & Hm)%metrics_loop_run.
  change (Done (pcmp_ge (Some (cmp (opt_index (m_last_applied m')) i))) = Done true) in Hm.
  rw /ole (cmp_opp (opt_index (m_last_applied m')) i). destruct (cmp (opt_index (m_last_applied m')) i); [done|discriminate Hm|done].
Qed.
End runs.
