(* ===== verification/RaftApi.v ===== *)
(** * The API of a node (openraft/src/raft/)

    [Raft] is the handle the application calls: it sends messages to the task of [RaftCore] and waits
    for the replies.  The record [Raft] is the state behind the handle ([RaftInner]) with the messages
    it has sent.  [RaftCore] is on the other side of the channels: [ApiEnv] says what comes back at
    each interaction, and [None] stands for a reply channel that is dropped without a reply.  The
    first part, [Join], models how callers find out together why the task stopped. *)

From S2P Require Export Wait.

(** ** How the task of RaftCore ends (raft/core_state.rs) *)
Notation CoreResult := (Result Empty_set Fatal) (only parsing).

(** The receiver in [Joining] belongs to the watch channel of the one caller that joins. *)
Inductive CoreTask {C : RaftTypeConfig} :=
| Core_Running
| Core_Joining
| Core_Done (res : CoreResult).

Definition is_running {C : RaftTypeConfig} (t : CoreTask) : bool := match t with Core_Running => true | _ => false end.

(** What awaiting the task gives: a [JoinError], which is a panic or a cancellation, or what it returned. *)
Inductive JoinResult {C : RaftTypeConfig} := Join_Err (is_panic : bool) | Join_Ok (res : CoreResult).

Definition core_task_res {C : RaftTypeConfig} (j : JoinResult) : CoreResult :=
  match j with
  | Join_Err true => RErr Fatal_Panicked
  | Join_Err false => RErr Fatal_Stopped
  | Join_Ok res => res
  end.

Definition unwrap_err {C : RaftTypeConfig} (r : CoreResult) : Fatal :=
  match r with ROk e => match e with end | RErr f => f end.

(** The end of [get_core_stopped_error]. *)
Definition stopped_error {C : RaftTypeConfig} (t : CoreTask) : Outcome Fatal :=
  match t with Core_Done res => Done (unwrap_err res) | _ => Panic "RaftCore should have already quit" end.

(** ** Callers that join the task concurrently *)
Module Join.
Section join.
Context {C : RaftTypeConfig}.

(** A caller of [get_core_stopped_error]: it awaits the join handle, or waits for the caller that
    does; it returns; or its future is dropped. *)
Inductive Caller := Awaiting | Watching | Returned (o : Outcome Fatal) | Dropped.

(** The sender of the watch channel. *)
Inductive WatchTx := Tx_None | Tx_Alive | Tx_Sent | Tx_Dropped.

Record State := {
  core : CoreTask;
  exit : option JoinResult;
  tx : WatchTx;
  callers : gmap nat Caller;
}.

Inductive Step :=
| CoreExits (r : JoinResult)
| Start (i : nat)
| Joined (i : nat)
| Woken (i : nat)
| Drop (i : nat).

Definition set_caller (s : State) (i : nat) (c : Caller) : State :=
  {| core := s.(core); exit := s.(exit); tx := s.(tx); callers := <[i := c]> s.(callers) |}.

(** One step of the interleaving; [None] when it is not possible.  [Start] is the part of
    [join_core_task] under the lock. *)
Definition step (st : Step) (s : State) : option State :=
  match st with
  | CoreExits r =>
      match s.(exit) with
      | None => Some {| core := s.(core); exit := Some r; tx := s.(tx); callers := s.(callers) |}
      | Some _ => None
      end
  | Start i =>
      match s.(callers) !! i with
      | Some _ => None
      | None =>
          match s.(core) with
          | Core_Running =>
              Some {| core := Core_Joining; exit := s.(exit); tx := Tx_Alive; callers := <[i := Awaiting]> s.(callers) |}
          | Core_Joining => Some (set_caller s i Watching)
          | Core_Done _ => Some (set_caller s i (Returned (stopped_error s.(core))))
          end
      end
  | Joined i =>
      match s.(callers) !! i, s.(exit) with
      | Some Awaiting, Some r =>
          let core := Core_Done (core_task_res r) in
          Some {| core := core; exit := s.(exit); tx := Tx_Sent;
                  callers := <[i := Returned (stopped_error core)]> s.(callers) |}
      | _, _ => None
      end
  | Woken i =>
      match s.(callers) !! i, s.(tx) with
      | Some Watching, (Tx_Sent | Tx_Dropped) => Some (set_caller s i (Returned (stopped_error s.(core))))
      | _, _ => None
      end
  | Drop i =>
      match s.(callers) !! i with
      | Some Awaiting =>
          Some {| core := s.(core); exit := s.(exit); tx := Tx_Dropped; callers := <[i := Dropped]> s.(callers) |}
      | Some Watching => Some (set_caller s i Dropped)
      | _ => None
      end
  end.

Definition run (l : list Step) (s : State) : option State := foldl (λ s st, s ≫= step st) (Some s) l.

Definition init : State := {| core := Core_Running; exit := None; tx := Tx_None; callers := ∅ |}.

(** No step drops the caller that awaits the join handle. *)
Fixpoint keeps_joiner (l : list Step) (s : State) : Prop :=
  match l with
  | [] => True
  | st :: l =>
      match st with Drop i => s.(callers) !! i ≠ Some Awaiting | _ => True end ∧
      match step st s with Some s' => keeps_joiner l s' | None => True end
  end.

(** The protocol: who waits for whom, and what the callers that have returned know. *)
Record join_ok (s : State) : Prop := {
  jo_tx : s.(tx) ≠ Tx_Dropped;
  jo_joining : s.(core) = Core_Joining → ∃ j, s.(callers) !! j = Some Awaiting;
  jo_awaiting : ∀ j, s.(callers) !! j = Some Awaiting → s.(core) = Core_Joining;
  jo_unique : ∀ i j, s.(callers) !! i = Some Awaiting → s.(callers) !! j = Some Awaiting → i = j;
  jo_watching : ∀ i, s.(callers) !! i = Some Watching → s.(core) ≠ Core_Running;
  jo_sent : s.(tx) = Tx_Sent ↔ ∃ res, s.(core) = Core_Done res;
  jo_done : ∀ res, s.(core) = Core_Done res → ∃ r, s.(exit) = Some r ∧ res = core_task_res r;
  jo_returned : ∀ i o, s.(callers) !! i = Some (Returned o) →
    ∃ r, s.(core) = Core_Done (core_task_res r) ∧ s.(exit) = Some r ∧ o = Done (unwrap_err (core_task_res r));
}.

(** After the joining caller is dropped: nobody will record the result of the task. *)
Record abandoned (s : State) : Prop := {
  ab_core : s.(core) = Core_Joining;
  ab_tx : s.(tx) = Tx_Dropped;
  ab_callers : ∀ i, s.(callers) !! i ≠ Some Awaiting;
}.
End join.
End Join.

(** ** The node behind the handle *)

(** The receiving state of a chunked snapshot (network/snapshot_transport.rs), which [RaftInner] keeps. *)
Record Streaming {C : RaftTypeConfig} := {
  offset : N;
  streaming_id : string;
  streaming_data : SnapshotData;
}.

(** What the other side of the channels does at the [k]-th interaction: whether [RaftCore] still
    receives messages, and what it replies, [None] when it drops the reply channel; the observations
    of a wait.  [task_end] is what the task of [RaftCore] ends with. *)
Record ApiEnv {C : RaftTypeConfig} := {
  api_open : nat → bool;
  task_end : JoinResult;
  re_append : nat → option (Result AppendEntriesResponse Empty_set);
  re_vote : nat → option (Result VoteResponse Empty_set);
  re_get_snapshot : nat → option (Result (option Snapshot) Empty_set);
  re_begin : nat → option (Result SnapshotData Empty_set);
  re_install : nat → option (Result SnapshotResponse Empty_set);
  re_check_leader : nat → option (Result (option LogId * option LogId) CheckIsLeaderError);
  re_initialize : nat → option (Result unit InitializeError);
  re_client : nat → option ClientWriteResult;
  re_revert : nat → option (Result unit AllowNextRevertError);
  (** The state an [ExternalCoreRequest] is run on. *)
  re_state : nat → option RaftState.RaftState;
  (** The value of the metrics, the clock, and what a wait observes. *)
  re_metrics : nat → RaftMetrics * Instant * list WatchEvent;
}.

(** [RaftInner], with the messages sent.  [joiner_dropped] says that a caller that was joining the task
    is gone, see [Join].  The snapshots handed to [RaftCore] are in [api_sent]. *)
Record Raft {C : RaftTypeConfig} := {
  inner_id : NodeId;
  inner_config : Config.Config;
  core_task : CoreTask;
  joiner_dropped : bool;
  has_tx_shutdown : bool;
  inner_snapshot : option Streaming;
  api_sent : list RaftMsg;
  api_calls : nat;
}.

Section raft_setters.
Context {C : RaftTypeConfig}.
Implicit Types r : Raft.
Definition with_inner r (t : CoreTask) (sh : bool) (sn : option Streaming) (l : list RaftMsg) (k : nat) : Raft :=
  {| inner_id := r.(inner_id); inner_config := r.(inner_config); core_task := t; joiner_dropped := r.(joiner_dropped);
     has_tx_shutdown := sh; inner_snapshot := sn; api_sent := l; api_calls := k |}.
Definition set_core_task r x := with_inner r x r.(has_tx_shutdown) r.(inner_snapshot) r.(api_sent) r.(api_calls).
Definition set_tx_shutdown r x := with_inner r r.(core_task) x r.(inner_snapshot) r.(api_sent) r.(api_calls).
Definition set_inner_snapshot r x := with_inner r r.(core_task) r.(has_tx_shutdown) x r.(api_sent) r.(api_calls).
Definition add_sent r m :=
  with_inner r r.(core_task) r.(has_tx_shutdown) r.(inner_snapshot) (r.(api_sent) ++ [m]) r.(api_calls).
Definition next_call r := with_inner r r.(core_task) r.(has_tx_shutdown) r.(inner_snapshot) r.(api_sent) (S r.(api_calls)).
End raft_setters.

(** ** Talking to RaftCore (raft/raft_inner.rs) *)
Module RaftInner.
Section ops.
Context {C : RaftTypeConfig} (env : ApiEnv).

Notation RA := (ST Raft).

(** The number of this interaction, which also names its reply channel. *)
Definition interact : RA nat := λ r, Done (r.(api_calls), next_call r).

(** [self.tx_api.send(mes)] *)
Definition try_send (mes : RaftMsg) : RA bool :=
  k ← interact;
  if env.(api_open) k then _ ← st_modify (λ r, add_sent r mes); mret true else mret false.

(** One caller at a time: the others are in [Join]. *)
Definition join_core_task : RA unit :=
  st_modify (λ r,
    match r.(core_task) with
    | Core_Running => set_core_task r (Core_Done (core_task_res env.(task_end)))
    | Core_Joining =>
        if r.(joiner_dropped) then r else set_core_task r (Core_Done (core_task_res env.(task_end)))
    | Core_Done _ => r
    end).

Definition get_core_stopped_error : RA Fatal :=
  _ ← join_core_task;
  r ← st_get;
  lift (stopped_error r.(core_task)).

Definition send_msg (mes : RaftMsg) : RA (Result unit Fatal) :=
  sent ← try_send mes;
  if (sent : bool) then mret (ROk tt) else fatal ← get_core_stopped_error; mret (RErr fatal).

(** [rx] is what the reply channel gives. *)
Definition recv_msg {T} (rx : option T) : RA (Result T Fatal) :=
  match rx with
  | Some x => mret (ROk x)
  | None => fatal ← get_core_stopped_error; mret (RErr fatal)
  end.

Definition or_fatal {A E} (m : RA (Result A Fatal)) : RA (Result A (RaftError E)) :=
  r ← m; mret (match r with ROk a => ROk a | RErr f => RErr (RaftError_Fatal f) end).

(** [mes] is given the number of its reply channel. *)
Definition call_core {T E} (mes : Tx → RaftMsg) (rx : nat → option (Result T E)) : RA (Result T (RaftError E)) :=
  k ← st_gets api_calls;
  _ ←? or_fatal (send_msg (mes (N.of_nat k)));
  match rx k with
  | Some (ROk x) => mret (ROk x)
  | Some (RErr e) => mret (RErr (APIError e))
  | None => fatal ← get_core_stopped_error; mret (RErr (RaftError_Fatal fatal))
  end.

Definition send_external_command (cmd : ExternalCommand) : RA (Result unit Fatal) := send_msg (Msg_ExternalCommand cmd).

Definition is_core_running : RA bool := st_gets (λ r, is_running r.(core_task)).
End ops.
End RaftInner.

(** ** [Raft] (raft/mod.rs, raft/impl_raft_blocking_write.rs) *)
Module Raft.
Section ops.
Context {C : RaftTypeConfig} (env : ApiEnv).
Import RaftInner.

Notation RA := (ST Raft).
Notation call_core := (call_core env).
Notation get_core_stopped_error := (get_core_stopped_error env).

(** [RaftError<Infallible>::into_fatal().unwrap()] *)
Definition fatal_of {A} (r : Result A (RaftError Empty_set)) : RA (Result A Fatal) :=
  match r with
  | ROk a => mret (ROk a)
  | RErr e => f ← lift (unwrap (RaftError.into_fatal e) "called `Option::unwrap()` on a `None` value"); mret (RErr f)
  end.

Definition append_entries (rpc : AppendEntriesRequest) : RA (Result AppendEntriesResponse (RaftError Empty_set)) :=
  call_core (Msg_AppendEntries rpc) env.(re_append).
Definition vote (rpc : VoteRequest) : RA (Result VoteResponse (RaftError Empty_set)) :=
  call_core (Msg_RequestVote rpc) env.(re_vote).
Definition get_snapshot : RA (Result (option Snapshot) (RaftError Empty_set)) :=
  call_core (λ tx, Msg_ExternalCommand (EC_GetSnapshot tx)) env.(re_get_snapshot).
Definition begin_receiving_snapshot : RA (Result SnapshotData (RaftError Empty_set)) :=
  resp ←? call_core Msg_BeginReceivingSnapshot env.(re_begin);
  mret (ROk resp).
Definition install_full_snapshot (vote : Vote) (snapshot : Snapshot) : RA (Result SnapshotResponse Fatal) :=
  res ← call_core (Msg_InstallFullSnapshot vote snapshot) env.(re_install);
  fatal_of res.

(** [self.wait(timeout)]: the observations are those of this interaction. *)
Definition wait (timeout : option Duration) : RA Wait :=
  k ← interact;
  let '(m, t, events) := env.(re_metrics) k in
  mret {| Wait.timeout := default (86400 * 365 * 100 * 1000)%N timeout; rx := m; rx_now := t; rx_events := events |}.

Definition current_leader : RA (option NodeId) :=
  k ← interact;
  mret (env.(re_metrics) k).1.1.(m_current_leader).

(** The closure that is sent is named by the interaction. *)
Definition with_raft_state {V} (func : RaftState.RaftState → V) : RA (Result V Fatal) :=
  k ← st_gets api_calls;
  sent ← try_send env (Msg_ExternalCoreRequest (N.of_nat k));
  match (if (sent : bool) then env.(re_state) k else None) with
  | Some s => mret (ROk (func s))
  | None => fatal ← get_core_stopped_error; mret (RErr fatal)
  end.

Definition is_initialized : RA (Result bool Fatal) := with_raft_state RaftState.is_initialized.

Definition initialize (members : gmap NodeId Node) : RA (Result unit (RaftError InitializeError)) :=
  call_core (Msg_Initialize members) env.(re_initialize).

Definition is_leader : RA (Result unit (RaftError CheckIsLeaderError)) :=
  _ ←? call_core Msg_CheckIsLeaderRequest env.(re_check_leader);
  mret (ROk tt).
Definition get_read_log_id : RA (Result (option LogId * option LogId) (RaftError CheckIsLeaderError)) :=
  resp ←? call_core Msg_CheckIsLeaderRequest env.(re_check_leader);
  mret (ROk resp).

(** A call that waits for metrics is [None] when its wait is not over. *)
Definition ensure_linearizable : RA (option (Result (option LogId) (RaftError CheckIsLeaderError))) :=
  resp ← get_read_log_id;
  match resp with
  | RErr e => mret (Some (RErr e))
  | ROk (read_log_id, applied) =>
      if opt_index applied ≺? opt_index read_log_id then
        w ← wait None;
        res ← lift (Wait.applied_index_at_least w (opt_index read_log_id));
        match res with
        | None => mret None
        | Some (ROk _) => mret (Some (ROk read_log_id))
        | Some (RErr (WE_Timeout _)) => lift (Panic "internal error: entered unreachable code: did not specify timeout")
        | Some (RErr WE_ShuttingDown) => mret (Some (RErr (RaftError_Fatal Fatal_Stopped)))
        end
      else mret (Some (ROk read_log_id))
  end.

(** The receiver a write returns is the interaction its reply is for. *)
Definition client_write_ff (app_data : D) : RA (Result nat Fatal) :=
  k ← st_gets api_calls;
  _ ←? send_msg env (Msg_ClientWriteRequest app_data (N.of_nat k));
  mret (ROk k).
Definition client_write (app_data : D) : RA (Result ClientWriteResponse (RaftError ClientWriteError)) :=
  rx ←? or_fatal (client_write_ff app_data);
  res ←? or_fatal (recv_msg env (env.(re_client) rx));
  mret (match res with ROk x => ROk x | RErr e => RErr (APIError e) end).

(** Conditions of [ensure_log_flushed_for_transfer_leader]. *)
Definition transfer_ok (req : TransferLeaderRequest) (m : RaftMetrics) : bool :=
  bool_decide (req.(from_leader) = m.(m_vote)) &&
  (next_index req.(transfer_last_log_id) <=? log_index_next m.(last_log_index))%N.
Definition transfer_fail (req : TransferLeaderRequest) (m : RaftMetrics) : Outcome bool :=
  negb <$> ref_vote_ge (as_ref_vote req.(from_leader)) (as_ref_vote m.(m_vote)).

Definition ensure_log_flushed_for_transfer_leader (req : TransferLeaderRequest) : RA (option (Result unit Fatal)) :=
  r ← st_get;
  w ← wait (Some r.(inner_config).(Config.election_timeout_min));
  metrics_res ← lift (Wait.metrics w (λ st, if transfer_ok req st then Done true else transfer_fail req st));
  match metrics_res with
  | None => mret None
  | Some (ROk metrics) =>
      failed ← lift (transfer_fail req metrics);
      if (failed : bool) then mret (Some (ROk tt)) else mret (Some (ROk tt))
  | Some (RErr _) => mret (Some (ROk tt))
  end.

Definition handle_transfer_leader (req : TransferLeaderRequest) : RA (option (Result unit Fatal)) :=
  r ← st_get;
  flushed ← (if (req.(to_node_id) =? r.(inner_id))%N then ensure_log_flushed_for_transfer_leader req
             else mret (Some (ROk tt)));
  match flushed with
  | None => mret None
  | Some (RErr e) => mret (Some (RErr e))
  | Some (ROk _) =>
      sent ← send_msg env (Msg_HandleTransferLeader req.(from_leader) req.(to_node_id));
      mret (Some sent)
  end.

(** [replication_lag] (core/replication_state.rs) *)
Definition replication_lag (matched_log_index last_log_index : option N) : N :=
  saturating_sub (log_index_next last_log_index) (log_index_next matched_log_index).

Definition check_replication_upto_date (config : Config.Config) (metrics : RaftMetrics) (node_id : NodeId)
    (membership_log_id : option LogId) : Result (option LogId) unit :=
  if metrics.(membership_config).(stored_log_id) ≺? membership_log_id then RErr tt
  else if bool_decide (Membership.get_node metrics.(membership_config).(stored_membership_) node_id = None) then ROk None
  else
    match metrics.(m_replication) with
    | None => ROk None
    | Some repl =>
        match repl !! node_id with
        | None => RErr tt
        | Some matched =>
            if (replication_lag (opt_index matched) metrics.(last_log_index) <=? config.(Config.replication_lag_threshold))%N
            then ROk matched else RErr tt
        end
    end.

Definition change_membership (changes : ChangeMembers) (retain : bool) :
    RA (Result ClientWriteResponse (RaftError ClientWriteError)) :=
  res ←? call_core (Msg_ChangeMembership changes retain) env.(re_client);
  joint ← lift (unwrap res.(cw_membership) "called `Option::unwrap()` on a `None` value");
  if length joint.(Membership.configs) =? 1 then mret (ROk res)
  else
    res ←? call_core (Msg_ChangeMembership changes retain) env.(re_client);
    mret (ROk res).

Definition add_learner (id : NodeId) (node : Node) (blocking : bool) :
    RA (option (Result ClientWriteResponse (RaftError ClientWriteError))) :=
  resp ← call_core (Msg_ChangeMembership (AddNodes {[ id := node ]}) true) env.(re_client);
  match resp with
  | RErr e => mret (Some (RErr e))
  | ROk resp =>
      r ← st_get;
      if negb blocking then mret (Some (ROk resp))
      else if (r.(inner_id) =? id)%N then mret (Some (ROk resp))
      else
        w ← wait None;
        wait_res ← lift (Wait.metrics w (λ m,
          Done (is_ok (check_replication_upto_date r.(inner_config) m id (Some resp.(cw_log_id))))));
        mret (match wait_res with None => None | Some _ => Some (ROk resp) end)
  end.

(** [with_state_machine]: [rx] is what the closure sends back. *)
Definition with_state_machine {V} (rx : option V) : RA (Result (option V) Fatal) :=
  k ← st_gets api_calls;
  _ ← try_send env (Msg_ExternalCommand (EC_StateMachineCommand (Func (N.of_nat k))));
  match rx with
  | Some v => mret (ROk (Some v))
  | None =>
      running ← is_core_running;
      if (running : bool) then mret (ROk None)
      else fatal ← get_core_stopped_error; mret (RErr fatal)
  end.

(** [shutdown]; the tick task is in [Tick]. *)
Definition shutdown : RA unit :=
  _ ← st_modify (λ r, set_tx_shutdown r false);
  join_core_task env.
End ops.
End Raft.

(** ** [Trigger] (raft/trigger.rs) *)
Module Trigger.
Section ops.
Context {C : RaftTypeConfig} (env : ApiEnv).
Import RaftInner.
Notation RA := (ST Raft).
Definition elect : RA (Result unit Fatal) := send_external_command env EC_Elect.
Definition heartbeat : RA (Result unit Fatal) := send_external_command env EC_Heartbeat.
Definition snapshot : RA (Result unit Fatal) := send_external_command env EC_Snapshot.
Definition purge_log (upto : N) : RA (Result unit Fatal) := send_external_command env (EC_PurgeLog upto).
Definition transfer_leader (to : NodeId) : RA (Result unit Fatal) := send_external_command env (EC_TriggerTransferLeader to).
Definition allow_next_revert (to : NodeId) (allow : bool) : RA (Result (Result unit AllowNextRevertError) Fatal) :=
  k ← st_gets api_calls;
  _ ←? send_external_command env (EC_AllowNextRevert to allow (N.of_nat k));
  recv_msg env (env.(re_revert) k).
End ops.
End Trigger.

Section join_theorems.
Context {C : RaftTypeConfig}.
Import Join.
Implicit Types s : Join.State.

Lemma join_init_ok : join_ok Join.init.
Proof. split; try done; naive_solver. Qed.

(** Adding a caller that does not wait for the task itself, and has not returned wrongly. *)
Lemma set_caller_ok s i c :
  join_ok s → s.(callers) !! i ≠ Some Awaiting → c ≠ Awaiting →
  (c = Watching → s.(core) ≠ Core_Running) →
  (∀ o, c = Returned o → ∃ r, s.(core) = Core_Done (core_task_res r) ∧ s.(exit) = Some r ∧
                            o = Done (unwrap_err (core_task_res r))) →
  join_ok (set_caller s i c).
Proof.
  intros Hok Hi Hc Hw Hret. split; cbn; [apply Hok| | | | |apply Hok|apply Hok|].
  - intros (j & Hj)%(jo_joining _ Hok). exists j. rw lookup_insert_ne //. by intros ->.
  - intros j. destruct (decide (i = j)) as [<-|Hne]; [rw lookup_insert_eq; congruence|].
    rw lookup_insert_ne //. apply Hok.
  - intros j k. destruct (decide (i = j)) as [<-|Hj]; [rw lookup_insert_eq; congruence|].
    destruct (decide (i = k)) as [<-|Hk]; [rw (lookup_insert_eq (callers s)); congruence|].
    rw !lookup_insert_ne //. apply Hok.
  - intros j. destruct (decide (i = j)) as [<-|Hne]; [rw lookup_insert_eq; intros [= ->]; by apply Hw|].
    rw lookup_insert_ne //. apply Hok.
  - intros j o. destruct (decide (i = j)) as [<-|Hne]; [rw lookup_insert_eq; intros [= ->]; by apply Hret|].
    rw lookup_insert_ne //. apply Hok.
Qed.

Lemma done_returns s res :
  join_ok s → s.(core) = Core_Done res →
  ∀ o, Returned (stopped_error (Core_Done res)) = Returned o → ∃ r, s.(core) = Core_Done (core_task_res r) ∧
    s.(exit) = Some r ∧ o = Done (unwrap_err (core_task_res r)).
Proof.
  intros Hok Hc o [= <-]. destruct (jo_done _ Hok _ Hc) as (r & Hr & ->). by exists r.
Qed.

Lemma join_step_ok st s s' :
  join_ok s → match st with Drop i => s.(callers) !! i ≠ Some Awaiting | _ => True end →
  Join.step st s = Some s' → join_ok s'.
Proof.
  intros Hok Hst. destruct st as [r|i|i|i|i]; cbn.
  - destruct (exit s) eqn:He; intros [= <-]. split; cbn; try apply Hok.
    + intros res (r' & Hr & _)%(jo_done _ Hok). congruence.
    + intros i o (r' & _ & Hr & _)%(jo_returned _ Hok). congruence.
  - destruct (callers s !! i) eqn:Hi; [done|]. destruct (core s) as [| |res] eqn:Hc; intros [= <-].
    + assert (∀ j, callers s !! j ≠ Some Awaiting) as Hno by (intros j Hj%(jo_awaiting _ Hok); congruence).
      split; cbn; [done|intros _; exists i; apply lookup_insert_eq|done| |done|split; [done|naive_solver]|done|].
      { intros j k. destruct (decide (i = j)) as [<-|Hj]; [|rw (lookup_insert_ne (callers s) i j) //; by intros Hj'%Hno].
        destruct (decide (i = k)) as [<-|Hk]; [done|rw (lookup_insert_ne (callers s) i k) //; by intros _ Hk'%Hno]. }
      intros j o. destruct (decide (i = j)) as [<-|Hne]; [rw lookup_insert_eq; congruence|].
      rw lookup_insert_ne //. intros (r' & Hr & _)%(jo_returned _ Hok). congruence.
    + apply set_caller_ok; try done; congruence.
    + apply set_caller_ok; try done; [congruence|]. by eapply done_returns.
  - destruct (callers s !! i) as [[]|] eqn:Hi; try done. destruct (exit s) as [r|] eqn:He; intros [= <-].
    assert (∀ j o, <[i:=Returned o]> (callers s) !! j ≠ Some Awaiting) as Hno.
    { intros j o. destruct (decide (i = j)) as [<-|Hne]; [by rw lookup_insert_eq|]. rw lookup_insert_ne //.
      intros Hj. by destruct Hne; apply (jo_unique _ Hok). }
    split; cbn; [done|done|naive_solver|naive_solver|done|..].
    + split; [eauto|done].
    + intros res [= <-]. eauto.
    + intros j o. destruct (decide (i = j)) as [<-|Hne]; [rw lookup_insert_eq; intros [= <-]; eauto|].
      rw lookup_insert_ne //. intros (r' & Hc & Hr & ->)%(jo_returned _ Hok).
      pose proof (jo_awaiting _ Hok i Hi). congruence.
  - destruct (callers s !! i) as [[]|] eqn:Hi; try done.
    destruct (tx s) eqn:Ht; intros [= <-]; [|by destruct (jo_tx _ Hok)].
    pose proof (proj1 (jo_sent _ Hok) Ht) as [res Hc]. rw Hc. apply set_caller_ok; try done; [congruence|].
    by eapply done_returns.
  - destruct (callers s !! i) as [[]|] eqn:Hi; try done. intros [= <-]. apply set_caller_ok; try done; congruence.
Qed.

Lemma run_cons st l s : Join.run (st :: l) s = Join.step st s ≫= Join.run l.
Proof.
  rw /Join.run. cbn. destruct (Join.step st s) as [s'|]; [done|]. cbn. by induction l.
Qed.

Lemma run_step st l s s1 : Join.step st s = Some s1 → Join.run (st :: l) s = Join.run l s1.
Proof. intros Hs. by rw run_cons Hs. Qed.

Lemma join_run_ok l s s' : join_ok s → keeps_joiner l s → Join.run l s = Some s' → join_ok s'.
Proof.
  revert s. induction l as [|st l IH]; intros s Hok; [by intros _ [= <-]|]. rw run_cons. intros [Hst Hl].
  destruct (Join.step st s) as [s1|] eqn:Hs; [|done]. cbn. apply IH; [|done]. by eapply join_step_ok.
Qed.

(** A caller that waits can return once the task has ended. *)
Lemma join_returns s i c r :
  join_ok s → s.(exit) = Some r → s.(callers) !! i = Some c → c = Awaiting ∨ c = Watching →
  ∃ l s', Join.run l s = Some s' ∧ s'.(callers) !! i = Some (Returned (Done (unwrap_err (core_task_res r)))).
Proof.
  intros Hok Hr Hi [-> | ->].
  - eexists [Joined i], _. rw run_cons /= Hi Hr. cbn. split; [done|]. apply lookup_insert_eq.
  - destruct (core s) as [| |res] eqn:Hc.
    + by destruct (jo_watching _ Hok i Hi).
    + destruct (jo_joining _ Hok Hc) as [j Hj]. assert (j ≠ i) as Hne by (intros ->; congruence).
      eexists [Joined j; Woken i], _. rw run_cons /= Hj Hr /=. rw run_cons /= lookup_insert_ne // Hi. cbn.
      split; [done|]. apply lookup_insert_eq.
    + destruct (jo_done _ Hok _ Hc) as (r' & Hr' & ->). assert (r' = r) as -> by congruence.
      eexists [Woken i], _. rw run_cons /= Hi (proj2 (jo_sent _ Hok)); [by eauto|]. rw Hc. cbn.
      split; [done|]. apply lookup_insert_eq.
Qed.

(** C30: callers that find the task of [RaftCore] stopped.  They join it together: as long as the
    caller that awaits the join handle is not dropped, no interleaving makes a caller panic, all of them
    return the same error, the one the task ended with, and a caller that waits can always return once
    the task has ended. *)
Theorem join_agrees l s :
  Join.run l Join.init = Some s → keeps_joiner l Join.init →
  (∀ i o, s.(callers) !! i = Some (Returned o) → ∃ r, s.(exit) = Some r ∧ o = Done (unwrap_err (core_task_res r))) ∧
  (∀ i c r, s.(exit) = Some r → s.(callers) !! i = Some c → c = Awaiting ∨ c = Watching →
     ∃ l' s', Join.run l' s = Some s' ∧ s'.(callers) !! i = Some (Returned (Done (unwrap_err (core_task_res r))))).
Proof.
  intros Hrun Hk. pose proof (join_run_ok _ _ _ join_init_ok Hk Hrun) as Hok. split.
  - intros i o (r & _ & Hr & ->)%(jo_returned _ Hok). by exists r.
  - intros i c r. by apply join_returns.
Qed.

Definition joiner_gone : Outcome Fatal := Panic "RaftCore should have already quit".

Lemma abandoned_step st s s' :
  abandoned s → Join.step st s = Some s' →
  abandoned s' ∧ ∀ i o, s'.(callers) !! i = Some (Returned o) → s.(callers) !! i = Some (Returned o) ∨ o = joiner_gone.
Proof.
  intros [Hc Ht Hno].
  assert (∀ i c, c ≠ Awaiting → (∀ o, c = Returned o → o = joiner_gone) → abandoned (set_caller s i c) ∧
    ∀ j o, (set_caller s i c).(callers) !! j = Some (Returned o) → s.(callers) !! j = Some (Returned o) ∨ o = joiner_gone)
    as Hset.
  { intros i c Hcne Hret. split; [split; cbn; [done|done|]|]; cbn; intros j;
      (destruct (decide (i = j)) as [<-|Hne]; [rw lookup_insert_eq; naive_solver|rw lookup_insert_ne //; auto]). }
  destruct st as [r|i|i|i|i]; cbn.
  - destruct (exit s); intros [= <-]. split; [by split|auto].
  - destruct (callers s !! i); [done|]. rw Hc. intros [= <-]. by apply Hset.
  - destruct (callers s !! i) as [[]|] eqn:Hi; try done. by destruct (Hno i).
  - destruct (callers s !! i) as [[]|]; try done. rw Ht Hc. intros [= <-]. apply Hset; [done|]. by intros o [= <-].
  - destruct (callers s !! i) as [[]|] eqn:Hi; try done; [by destruct (Hno i)|]. intros [= <-]. by apply Hset.
Qed.

Lemma abandoned_run l s s' :
  abandoned s → Join.run l s = Some s' →
  ∀ i o, s'.(callers) !! i = Some (Returned o) → s.(callers) !! i = Some (Returned o) ∨ o = joiner_gone.
Proof.
  revert s. induction l as [|st l IH]; intros s Hab; [intros [= <-]; auto|]. rw run_cons.
  destruct (Join.step st s) as [s1|] eqn:Hs; [|done]. cbn. intros Hrun i o Hi.
  destruct (abandoned_step _ _ _ Hab Hs) as [Hab1 Hr1]. destruct (IH s1 Hab1 Hrun i o Hi) as [H1|]; auto.
Qed.

(** The caller that awaits the join handle is dropped, as happens when the application puts a
    timeout around a call.  Nobody records how the task ended any more, and every caller that returns
    after that panics. *)
Theorem joiner_dropped_panics i l s :
  Join.run (Start i :: Drop i :: l) Join.init = Some s →
  ∀ j o, s.(callers) !! j = Some (Returned o) → o = joiner_gone.
Proof.
  set (s1 := {| core := Core_Joining; exit := None; tx := Tx_Alive; callers := <[i := Awaiting]> ∅ |}).
  set (s2 := {| core := Core_Joining; exit := None; tx := Tx_Dropped; callers := <[i := Dropped]> ∅ |}).
  rw (run_step _ _ _ s1); [by rw /Join.step lookup_empty|].
  rw (run_step _ _ _ s2); [by rw /Join.step lookup_insert_eq /s1 /= insert_insert_eq|]. intros Hrun j o Hj.
  eapply abandoned_run in Hrun as [Hx|Hx]; [|exact Hx| |exact Hj].
  - cbn in Hx. by destruct (decide (i = j)) as [<-|Hne]; [rw lookup_insert_eq in Hx|rw lookup_insert_ne in Hx].
  - split; cbn; [done|done|]. intros k.
    by destruct (decide (i = k)) as [<-|Hne]; [rw lookup_insert_eq|rw lookup_insert_ne].
Qed.
End join_theorems.

(** ** What the calls return *)
Section api_theorems.
Context {C : RaftTypeConfig} (env : ApiEnv).
Implicit Types r : Raft.

(** What the handle knows of the end of the task is true. *)
Definition task_known r : Prop := ∀ res, r.(core_task) = Core_Done res → res = core_task_res env.(task_end).

(** Nobody that was joining the task is gone. *)
Definition joinable r : Prop := r.(core_task) = Core_Joining → r.(joiner_dropped) = false.

(** The state after a message is sent, and after the task is found stopped. *)
Definition after_send r (m : RaftMsg) : Raft := add_sent (next_call r) m.
Definition after_stop r : Raft := set_core_task r (Core_Done (core_task_res env.(task_end))).

Lemma stopped_error_run r : task_known r → joinable r →
  RaftInner.get_core_stopped_error env r = Done (unwrap_err (core_task_res env.(task_end)), after_stop r).
Proof.
  destruct r as [i c t j sh sn l k]. rw /task_known /joinable. cbn. intros Hk Hj.
  rw /RaftInner.get_core_stopped_error /mbind /st_bind. cbn.
  destruct t as [| |res]; cbn; [done|by rw Hj|]. rw (Hk res eq_refl). done.
Qed.

(** A call to [RaftCore].  When [RaftCore] does not receive the message or drops the reply channel,
    the call returns the error its task ended with; otherwise the message is sent, and the call returns
    the reply, an error of the API as [APIError]. *)
Lemma call_core_run {T E} (mes : Tx → RaftMsg) (rx : nat → option (Result T E)) r :
  task_known r → joinable r →
  let k := r.(api_calls) in
  let fatal := RErr (RaftError_Fatal (unwrap_err (core_task_res env.(task_end)))) in
  RaftInner.call_core env mes rx r = Done (
    if env.(api_open) k then
      match rx k with
      | Some (ROk x) => (ROk x, after_send r (mes (N.of_nat k)))
      | Some (RErr e) => (RErr (APIError e), after_send r (mes (N.of_nat k)))
      | None => (fatal, after_stop (after_send r (mes (N.of_nat k))))
      end
    else (fatal, after_stop (next_call r))).
Proof.
  intros Hk Hj k fatal. rw /RaftInner.call_core /RaftInner.send_msg /RaftInner.try_send /RaftInner.or_fatal.
  rw /RaftInner.interact /mbind /st_bind /try_bind /mbind /st_bind. cbn. fold k. destruct (api_open env k); cbn.
  - destruct (rx k) as [[x|e]|]; cbn; [done|done|]. by rw /mbind /st_bind stopped_error_run.
  - by rw /mbind /st_bind stopped_error_run.
Qed.

Lemma call_core_reply {T E} (mes : Tx → RaftMsg) (rx : nat → option (Result T E)) r x :
  env.(api_open) r.(api_calls) = true → rx r.(api_calls) = Some (ROk x) →
  RaftInner.call_core env mes rx r = Done (ROk x, after_send r (mes (N.of_nat r.(api_calls)))).
Proof.
  intros Ho Hx. rw /RaftInner.call_core /RaftInner.send_msg /RaftInner.try_send /RaftInner.or_fatal.
  rw /RaftInner.interact /mbind /st_bind /try_bind /mbind /st_bind. cbn. by rw Ho /= Hx.
Qed.

(** Conversely, only a reply makes a call succeed. *)
Lemma call_core_ok {T E} (mes : Tx → RaftMsg) (rx : nat → option (Result T E)) r x r' :
  RaftInner.call_core env mes rx r = Done (ROk x, r') →
  rx r.(api_calls) = Some (ROk x) ∧ r' = after_send r (mes (N.of_nat r.(api_calls))).
Proof.
  rw /RaftInner.call_core /RaftInner.send_msg /RaftInner.try_send /RaftInner.or_fatal.
  rw /RaftInner.interact /mbind /st_bind /try_bind /mbind /st_bind. cbn. destruct (api_open env _); cbn.
  - destruct (rx _) as [[y|e]|]; cbn; [by intros [= -> <-]|done|].
    rw /mbind /st_bind. by destruct (RaftInner.get_core_stopped_error _ _) as [[]|].
  - rw /mbind /st_bind. by destruct (RaftInner.get_core_stopped_error _ _) as [[]|].
Qed.

(** *** Changing the membership *)

(** A change of the voters that is applied again to the joint membership it made ends at its goal. *)
Lemma change_goal_again m changes retain m1 goal :
  change_goal m changes = Some goal → Membership.change m changes retain = ROk m1 → change_goal m1 changes = Some goal.
Proof.
  intros Hg [-> _]%change_ok.
  assert (list.last (Membership.change_unchecked m changes retain).(configs) = Some goal) as Hlast.
  { rw change_configs Hg. apply find_coherent_last. }
  revert Hg. rw /change_goal Hlast. destruct changes; intros [= <-]; cbn; f_equal; set_solver.
Qed.

Lemma extend_nodes_keeps (old new : gmap NodeId Node) id :
  is_Some (old !! id) → is_Some (Membership.extend_nodes old new !! id).
Proof.
  rw /Membership.extend_nodes. generalize (map_to_list new). intros l. revert old.
  induction l as [|[k v] l IH]; intros old Hid; [done|]. cbn. apply IH. case_decide; [done|].
  destruct (decide (k = id)) as [->|Hne]; [by rw lookup_insert_eq|by rw lookup_insert_ne].
Qed.

Lemma change_again m changes retain m1 goal :
  change_goal m changes = Some goal → Membership.change m changes retain = ROk m1 →
  ∃ m2, Membership.change m1 changes retain = ROk m2 ∧ m2.(configs) = [goal].
Proof.
  intros Hg Hc. pose proof (change_goal_again _ _ _ _ _ Hg Hc) as Hg1. apply change_ok in Hc as [-> Hv].
  set (m1 := Membership.change_unchecked m changes retain) in *.
  assert (list.last m1.(configs) = Some goal) as Hlast by (rw /m1 change_configs Hg; apply find_coherent_last).
  clearbody m1. clear Hg. exists (Membership.change_unchecked m1 changes retain).
  assert (∃ m1', Membership.change_unchecked m1 changes retain = Membership.next_coherent m1' goal retain ∧
    m1'.(configs) = m1.(configs) ∧ ∀ id, is_Some (m1.(nodes) !! id) → is_Some (m1'.(nodes) !! id)) as (m1' & Heq & Hc & Hn).
  { revert Hg1. rw /change_goal /Membership.change_unchecked. destruct changes as [ids|vs|ids|ids| | | |]; try done;
      intros [= Hg]; rw Hg; eexists; (split; [reflexivity|]); (split; [done|]); [done| |done|done].
    intros id Hid. cbn. by apply extend_nodes_keeps. }
  destruct (flatten_valid m1' goal retain) as [Hv' Hc'].
  - destruct Hv as [Hne Hall]. split; rw Hc; [done|]. eauto.
  - by rw Hc.
  - split; [by apply change_ok; rw Heq|by rw Heq].
Qed.

Lemma change_uniform m changes retain m1 goal :
  change_goal m changes = Some goal → Membership.change m changes retain = ROk m1 → length m1.(configs) = 1 →
  m1.(configs) = [goal].
Proof.
  intros Hg [-> _]%change_ok Hlen.
  assert (list.last (Membership.change_unchecked m changes retain).(configs) = Some goal) as Hlast.
  { rw change_configs Hg. apply find_coherent_last. }
  destruct (configs _) as [|c [|]]; try done. by injection Hlast as ->.
Qed.

(** C29: [Raft::change_membership] goes through the joint configuration.  The changes of the voters are
    sent to [RaftCore], and once more when the configuration they make is joint; when [RaftCore]
    accepts them and the effective membership is changed by nobody else meanwhile, the call returns the
    membership whose only configuration is the goal of the changes. *)
Theorem change_membership_reaches_goal m changes retain goal m1 r resp1 :
  let k := r.(api_calls) in
  change_goal m changes = Some goal → Membership.change m changes retain = ROk m1 →
  env.(api_open) k = true → env.(re_client) k = Some (ROk resp1) → resp1.(cw_membership) = Some m1 →
  env.(api_open) (S k) = true →
  (∀ m2, Membership.change m1 changes retain = ROk m2 →
     ∃ resp2, env.(re_client) (S k) = Some (ROk resp2) ∧ resp2.(cw_membership) = Some m2) →
  ∃ resp m' r', Raft.change_membership env changes retain r = Done (ROk resp, r') ∧
    resp.(cw_membership) = Some m' ∧ m'.(configs) = [goal] ∧
    ∃ txs, r'.(api_sent) = r.(api_sent) ++ map (Msg_ChangeMembership changes retain) txs ∧
      length txs = if length m1.(configs) =? 1 then 1 else 2.
Proof.
  intros k Hg Hc Ho1 Hr1 Hm1 Ho2 Hr2. rw /Raft.change_membership.
  rw /try_bind (st_bind_run _ _ _ _ _ (call_core_reply (Msg_ChangeMembership changes retain) _ _ _ Ho1 Hr1)).
  set (r1 := after_send r _). cbn beta iota. rw Hm1.
  rw (st_bind_run (lift (unwrap (Some m1) _)) _ r1 m1 r1 eq_refl).
  destruct (Nat.eqb_spec (length m1.(configs)) 1) as [Hlen|Hlen].
  - eexists resp1, m1, _. split_and!; [done|done|by eapply change_uniform|]. by exists [N.of_nat k].
  - destruct (change_again _ _ _ _ _ Hg Hc) as (m2 & Hm2 & Hgoal). destruct (Hr2 m2 Hm2) as (resp2 & Hr & Hcw).
    rw (st_bind_run _ _ _ _ _ (call_core_reply (Msg_ChangeMembership changes retain) (re_client env) r1 resp2 Ho2 Hr)).
    eexists resp2, m2, _. split_and!; [done..|]. exists [N.of_nat k; N.of_nat (S k)].
    split; [by rw /after_send /= -assoc_L|done].
Qed.

(** *** Reads and transfers *)

(** What [wait] observes at its interaction. *)
Definition wait_at (k : nat) (t : Duration) : Wait := {|
  Wait.timeout := t; rx := (env.(re_metrics) k).1.1; rx_now := (env.(re_metrics) k).1.2; rx_events := (env.(re_metrics) k).2 |}.

Lemma wait_run t r : Raft.wait env t r =
  Done (wait_at r.(api_calls) (default (86400 * 365 * 100 * 1000)%N t), next_call r).
Proof.
  rw /Raft.wait (st_bind_run RaftInner.interact _ r _ _ eq_refl) /wait_at.
  by destruct (re_metrics env (api_calls r)) as [[m n] l].
Qed.

(** C14: a linearizable read.  When [ensure_linearizable] returns a log id, [RaftCore] has confirmed
    this node as the leader and reported this log id as the one to read at, and the state machine of
    this node has applied the logs up to it: [RaftCore] said so, or the metrics did. *)
Theorem ensure_linearizable_applied r read r' :
  Raft.ensure_linearizable env r = Done (Some (ROk read), r') →
  ∃ applied, env.(re_check_leader) r.(api_calls) = Some (ROk (read, applied)) ∧
    (opt_index read ⪯ opt_index applied ∨
     ∃ t m, Wait.applied_index_at_least (wait_at (S r.(api_calls)) t) (opt_index read) = Done (Some (ROk m)) ∧
       opt_index read ⪯ opt_index m.(m_last_applied)).
Proof.
  intros (resp & r1 & Hresp & H)%st_bind_inv.
  destruct resp as [[rd ap]|e]; [|done]. rw /Raft.get_read_log_id in Hresp.
  apply st_bind_inv in Hresp as ([[x y]|e] & r2 & Hcall & Hret); [|done]. injection Hret as -> -> ->.
  apply call_core_ok in Hcall as [Hx ->]. cbn beta iota in H. revert H.
  destruct (ltbP (opt_index ap) (opt_index rd)) as [Hlt|Hge].
  - rw (st_bind_run _ _ _ _ _ (wait_run None _)). set (w := wait_at _ _). intros (res & r3 & Hw & H)%st_bind_inv.
    destruct (Wait.applied_index_at_least w (opt_index rd)) as [res'|] eqn:Hr; [|done].
    injection Hw as -> <-. destruct res as [[m|[t|]]|]; try done. injection H as -> _.
    exists ap. split; [done|]. right. eexists _, m. split; [exact Hr|]. by eapply ge_applied_spec.
  - intros [= -> <-]. exists ap. by split; [|left].
Qed.

(** [handle_transfer_leader] sends the message whatever the metrics say, also when the vote has changed
    and the log says that the transfer is given up; [RaftCore] compares the vote again. *)
Theorem transfer_message_sent req r r' :
  Raft.handle_transfer_leader env req r = Done (Some (ROk tt), r') →
  r'.(api_sent) = r.(api_sent) ++ [Msg_HandleTransferLeader req.(from_leader) req.(to_node_id)].
Proof.
  intros (r0 & r1 & [= <- <-] & H)%st_bind_inv. apply st_bind_inv in H as (flushed & r1 & Hf & H).
  assert (r1.(api_sent) = r.(api_sent)) as <-.
  { destruct (_ =? _)%N; [|by injection Hf as _ <-]. revert Hf. rw /Raft.ensure_log_flushed_for_transfer_leader.
    intros (r2 & r3 & [= <- <-] & Hf)%st_bind_inv. revert Hf. rw (st_bind_run _ _ _ _ _ (wait_run _ _)).
    intros (m & r2 & Hm & Hf)%st_bind_inv. destruct (Wait.metrics _ _) as [m'|] eqn:Hw; [|done].
    injection Hm as -> <-. destruct m as [[m|e]|]; [|by injection Hf as _ <-..].
    apply st_bind_inv in Hf as (b & r4 & Hb & Hf). destruct (Raft.transfer_fail req m) as [b'|]; [|done].
    injection Hb as -> <-. by destruct b; injection Hf as _ <-. }
  destruct flushed as [[[]|e]|]; [|done..]. revert H. rw /RaftInner.send_msg /RaftInner.try_send /RaftInner.interact.
  rw /mbind /st_bind /mbind /st_bind /mbind /st_bind. cbn. destruct (api_open env _); cbn; [by intros [= <-]|].
  rw /mbind /st_bind. by destruct (RaftInner.get_core_stopped_error _ _) as [[]|].
Qed.
End api_theorems.

(** ** Witnesses *)
Section api_witnesses.
#[local] Existing Instance UTConfig.
Import Join.

Definition api_steps : list Join.Step :=
  [Start 0; Start 1; CoreExits (Join_Err true); Joined 0; Start 2].
Definition api_joined : Join.State := {|
  core := Core_Done (RErr Fatal_Panicked); exit := Some (Join_Err true); tx := Tx_Sent;
  callers := <[2 := Returned (Done Fatal_Panicked)]> (<[0 := Returned (Done Fatal_Panicked)]>
               (<[1 := Watching]> (<[0 := Awaiting]> ∅))) |}.

Lemma join_agrees_witness :
  Join.run api_steps Join.init = Some api_joined ∧
  (∃ r, Some (Join_Err true) = Some r ∧ Done Fatal_Panicked = Done (unwrap_err (core_task_res r))) ∧
  ∃ l' s', Join.run l' api_joined = Some s' ∧ s'.(callers) !! 1 = Some (Returned (Done Fatal_Panicked)).
Proof.
  destruct (join_agrees api_steps api_joined eq_refl) as [Hret Hreach]; [by split_and!|].
  split; [reflexivity|]. split; [exact (Hret 2 _ eq_refl)|].
  exact (Hreach 1 Watching (Join_Err true) eq_refl eq_refl (or_intror eq_refl)).
Defined.

Definition api_dropped : Join.State := {|
  core := Core_Joining; exit := Some (Join_Err true); tx := Tx_Dropped;
  callers := <[1 := Returned joiner_gone]> (<[1 := Watching]> (<[0 := Dropped]> (<[0 := Awaiting]> ∅))) |}.

Lemma joiner_dropped_panics_witness :
  Join.run (Start 0 :: Drop 0 :: [CoreExits (Join_Err true); Start 1; Woken 1]) Join.init = Some api_dropped ∧
  (∃ o, api_dropped.(callers) !! 1 = Some (Returned o)) ∧
  ∀ o, api_dropped.(callers) !! 1 = Some (Returned o) → o = joiner_gone.
Proof.
  split_and!; [reflexivity|by eexists|].
  exact (joiner_dropped_panics 0 [CoreExits (Join_Err true); Start 1; Woken 1] api_dropped eq_refl 1).
Defined.

Definition api_metrics : RaftMetrics :=
  let m := new_initial 1 in {|
  running_state := ROk tt; m_id := 1; current_term := 1%N; m_vote := m.(m_vote); last_log_index := Some 3%N;
  m_last_applied := Some (ut_log_id 1 1 3); m_snapshot := None; m_purged := None; m_state := Leader_;
  m_current_leader := Some 1%N; millis_since_quorum_ack := None; last_quorum_acked := None;
  membership_config := m.(membership_config); m_heartbeat := None; m_replication := None |}.

Definition api_response (m : Membership) : ClientWriteResponse :=
  {| cw_log_id := ut_log_id 1 1 4; cw_data := tt; cw_membership := Some m |}.

(** A node that answers every call; the first change of the membership makes it joint. *)
Definition api_env : ApiEnv := {|
  api_open := λ _, true; task_end := Join_Ok (RErr Fatal_Stopped);
  re_append := λ _, Some (ROk Success); re_vote := λ _, None; re_get_snapshot := λ _, Some (ROk None);
  re_begin := λ _, Some (ROk tt); re_install := λ _, None;
  re_check_leader := λ _, Some (ROk (Some (ut_log_id 1 1 3), Some (ut_log_id 1 1 2)));
  re_initialize := λ _, Some (ROk tt);
  re_client := λ k, match k with
    | 0 => Some (ROk (api_response ut_m12_23))
    | _ => match Membership.change ut_m12_23 (ReplaceAllVoters (list_to_set [2; 3]%N)) true with
           | ROk m => Some (ROk (api_response m)) | RErr _ => None end end;
  re_revert := λ _, Some (ROk tt); re_state := λ _, Some RaftState.default;
  re_metrics := λ _, (new_initial 1, 0%N, [WatchChanged api_metrics 10]) |}.

Definition api_raft : Raft := {|
  inner_id := 1; inner_config := ut_core_config; core_task := Core_Running; joiner_dropped := false;
  has_tx_shutdown := true; inner_snapshot := None; api_sent := []; api_calls := 0 |}.

Lemma change_membership_reaches_goal_witness :
  ∃ resp m' r', Raft.change_membership api_env (ReplaceAllVoters (list_to_set [2; 3]%N)) true api_raft = Done (ROk resp, r') ∧
    resp.(cw_membership) = Some m' ∧ m'.(configs) = [list_to_set [2; 3]%N].
Proof.
  destruct (change_membership_reaches_goal api_env ut_m12 (ReplaceAllVoters (list_to_set [2; 3]%N)) true
    (list_to_set [2; 3]%N) ut_m12_23 api_raft (api_response ut_m12_23) eq_refl ut_change eq_refl eq_refl eq_refl eq_refl)
    as (resp & m' & r' & Hrun & Hm & Hc & _).
  { intros m2 Hm2. exists (api_response m2). split; [|done]. cbn. by rw Hm2. }
  exists resp, m', r'. split; [exact Hrun|]. split; [exact Hm|exact Hc].
Defined.

Definition api_read_end : Raft := next_call (add_sent (next_call api_raft) (Msg_CheckIsLeaderRequest 0)).

Lemma ensure_linearizable_applied_witness :
  Raft.ensure_linearizable api_env api_raft = Done (Some (ROk (Some (ut_log_id 1 1 3))), api_read_end) ∧
  ∃ applied, api_env.(re_check_leader) 0 = Some (ROk (Some (ut_log_id 1 1 3), applied)).
Proof.
  assert (Raft.ensure_linearizable api_env api_raft = Done (Some (ROk (Some (ut_log_id 1 1 3))), api_read_end)) as Hrun
    by reflexivity.
  split; [exact Hrun|]. destruct (ensure_linearizable_applied api_env _ _ _ Hrun) as (applied & Ha & _).
  by exists applied.
Defined.
End api_witnesses.
