(* ===== verification/SnapshotTransport.v ===== *)
(** * Sending a snapshot in chunks (openraft/src/network/snapshot_transport.rs)

    [send_snapshot] reads a snapshot chunk by chunk and sends each chunk with one RPC, again and again
    until it is accepted; [receive_snapshot] writes the chunks it is given, and [Raft::install_snapshot]
    (raft/mod.rs) hands the complete snapshot to [RaftCore].  The snapshot data is a file the
    application provides: its operations are the class [SnapshotIO], and [SnapshotIOLaws] is what
    [AsyncRead], [AsyncWrite] and [AsyncSeek] promise when the storage does not fail.

    The sender runs over any network, the class [RaftNetwork].  [Wire] is the network to a node that
    runs [Raft::install_snapshot]: each RPC has a [Fate], so that requests and answers are lost, delayed
    answers count as lost, and requests of other senders come in between.  The bound on the iterations
    of [send_snapshot] is its fuel; [snapshot_transfer_completes] says how much is enough. *)

From S2P Require Export Replication RaftApi.

Notation byte := Byte.byte.

(** ** Snapshot data *)
Class SnapshotIO {C : RaftTypeConfig} := {
  (** [seek(SeekFrom::End(0))] and [seek(SeekFrom::Start(offset))] *)
  io_seek_end : ST SnapshotData (Result N string);
  io_seek_start : N → ST SnapshotData (Result N string);
  (** [read_buf] into a buffer with that much room left. *)
  io_read_buf : nat → ST SnapshotData (Result (list byte) string);
  io_write_all : list byte → ST SnapshotData (Result unit string);
  io_shutdown : ST SnapshotData (Result unit string);
}.

(** The laws of [AsyncRead], [AsyncWrite] and [AsyncSeek] on storage that does not fail. *)
Class SnapshotIOLaws {C : RaftTypeConfig} {IO : SnapshotIO} := {
  io_content : SnapshotData → list byte;
  io_pos : SnapshotData → N;
  io_seek_end_ok d :
    wp io_seek_end (λ r d', r = ROk (N.of_nat (length (io_content d))) ∧ io_content d' = io_content d) d;
  io_seek_start_ok o d :
    wp (io_seek_start o) (λ r d', is_ok r = true ∧ io_content d' = io_content d ∧ io_pos d' = o) d;
  (** Some bytes at the position: none only when there is no room or the data is at its end. *)
  io_read_ok room d :
    wp (io_read_buf room) (λ r d', ∃ b, r = ROk b ∧ io_content d' = io_content d ∧
      io_pos d' = (io_pos d + N.of_nat (length b))%N ∧ length b ≤ room ∧
      b = take (length b) (drop (N.to_nat (io_pos d)) (io_content d)) ∧
      (b = [] → room = 0 ∨ length (io_content d) ≤ N.to_nat (io_pos d))) d;
  (** Writing overwrites and extends; nothing is said of a write behind the end, except that it returns. *)
  io_write_ok b d : (io_pos d ≤ N.of_nat (length (io_content d)))%N →
    wp (io_write_all b) (λ r d', r = ROk tt ∧ io_pos d' = (io_pos d + N.of_nat (length b))%N ∧
      io_content d' = take (N.to_nat (io_pos d)) (io_content d) ++ b ++
                      drop (N.to_nat (io_pos d) + length b) (io_content d)) d;
  io_write_returns b d : wp (io_write_all b) (λ _ _, True) d;
  io_shutdown_ok d : wp io_shutdown (λ r d', r = ROk tt ∧ io_content d' = io_content d) d;
}.

(** ** The receiver *)
Record InstallSnapshotRequest {C : RaftTypeConfig} := {
  isr_vote : Vote;
  isr_meta : SnapshotMeta;
  isr_offset : N;
  isr_data : list byte;
  isr_done : bool;
}.

Module Streaming.
Section ops.
Context {C : RaftTypeConfig} {IO : SnapshotIO}.

Definition new (snapshot_id : string) (snapshot_data : SnapshotData) : Streaming :=
  {| offset := 0; streaming_id := snapshot_id; streaming_data := snapshot_data |}.
Definition snapshot_id (s : Streaming) : string := s.(streaming_id).
Definition into_snapshot_data (s : Streaming) : SnapshotData := s.(streaming_data).

Definition set_offset (s : Streaming) (o : N) : Streaming :=
  {| offset := o; streaming_id := s.(streaming_id); streaming_data := s.(streaming_data) |}.
Definition set_data (s : Streaming) (d : SnapshotData) : Streaming :=
  {| offset := s.(offset); streaming_id := s.(streaming_id); streaming_data := d |}.

(** An IO operation on the data; its error becomes a storage error of the snapshot. *)
Definition io {A} (req : InstallSnapshotRequest) (verb : ErrorVerb) (m : ST SnapshotData (Result A string)) :
    ST Streaming (Result A StorageError) :=
  res ← zoom streaming_data set_data m;
  mret (match res with
        | ROk a => ROk a
        | RErr err => RErr (StorageError.new (Subject_Snapshot (Some (SnapshotMeta.signature req.(isr_meta)))) verb err)
        end).

Definition receive (req : InstallSnapshotRequest) : ST Streaming (Result bool StorageError) :=
  s ← st_get;
  _ ←? (if (req.(isr_offset) =? s.(offset))%N then mret (ROk tt)
        else
          _ ←? io req Verb_Seek (io_seek_start req.(isr_offset));
          _ ← st_modify (λ s, set_offset s req.(isr_offset));
          mret (ROk tt));
  _ ←? io req Verb_Write (io_write_all req.(isr_data));
  _ ← st_modify (λ s, set_offset s (s.(offset) + N.of_nat (length req.(isr_data)))%N);
  mret (ROk req.(isr_done)).
End ops.
End Streaming.

(** [Chunked] *)
Module Chunked.
Section receive.
Context {C : RaftTypeConfig} {IO : SnapshotIO} (env : ApiEnv).

Definition mismatch (snapshot_id : string) (offset : N) : RaftError InstallSnapshotError :=
  APIError (SnapshotMismatch snapshot_id 0 snapshot_id offset).

(** [streaming.as_mut().unwrap()] *)
Definition on_streaming {A} (m : ST Streaming A) : ST Raft A := λ r,
  match r.(inner_snapshot) with
  | Some s => match m s with Done (a, s) => Done (a, set_inner_snapshot r (Some s)) | Panic w => Panic w end
  | None => Panic "called `Option::unwrap()` on a `None` value"
  end.

Definition storage {A E} (m : ST Raft (Result A StorageError)) : ST Raft (Result A (RaftError E)) :=
  res ← m; mret (match res with ROk a => ROk a | RErr e => RErr (RaftError.from_storage_error e) end).

(** The part that starts another stream. *)
Definition begin_stream (req : InstallSnapshotRequest) : ST Raft (Result unit (RaftError InstallSnapshotError)) :=
  let snapshot_id := req.(isr_meta).(snapshot_id) in
  if negb (req.(isr_offset) =? 0)%N then mret (RErr (mismatch snapshot_id req.(isr_offset)))
  else
    res ← Raft.begin_receiving_snapshot env;
    match res with
    | RErr e => f ← lift (unwrap (RaftError.into_fatal e) "called `Option::unwrap()` on a `None` value");
                mret (RErr (RaftError_Fatal f))
    | ROk snapshot_data =>
        _ ← st_modify (λ r, set_inner_snapshot r (Some (Streaming.new snapshot_id snapshot_data)));
        mret (ROk tt)
    end.

(** [data.shutdown()] *)
Definition shut (m : SnapshotMeta) (data : SnapshotData) : ST Raft (Result SnapshotData StorageError) := λ r,
  match io_shutdown data with
  | Done (ROk _, data) => Done (ROk data, r)
  | Done (RErr e, _) => Done (RErr (StorageError.write_snapshot (Some (SnapshotMeta.signature m)) e), r)
  | Panic w => Panic w
  end.

Definition receive_snapshot (req : InstallSnapshotRequest) :
    ST Raft (Result (option Snapshot) (RaftError InstallSnapshotError)) :=
  r ← st_get;
  _ ←? (if bool_decide (Streaming.snapshot_id <$> r.(inner_snapshot) = Some req.(isr_meta).(snapshot_id))
        then mret (ROk tt) else begin_stream req);
  _ ←? storage (on_streaming (Streaming.receive req));
  if req.(isr_done) then
    r ← st_get;
    streaming ← lift (unwrap r.(inner_snapshot) "called `Option::unwrap()` on a `None` value");
    _ ← st_modify (λ r, set_inner_snapshot r None);
    data ←? storage (shut req.(isr_meta) (Streaming.into_snapshot_data streaming));
    mret (ROk (Some {| meta := req.(isr_meta); snapshot_data := data |}))
  else mret (ROk None).

(** [Raft::install_snapshot] (raft/mod.rs) *)
Definition install_snapshot (req : InstallSnapshotRequest) :
    ST Raft (Result InstallSnapshotResponse (RaftError InstallSnapshotError)) :=
  my_vote ←? RaftInner.or_fatal (Raft.with_raft_state env RaftState.vote_ref);
  ok ← lift (ref_vote_ge (as_ref_vote req.(isr_vote)) (as_ref_vote my_vote));
  if negb ok then mret (ROk {| iresp_vote := my_vote |})
  else
    finished_snapshot ←? receive_snapshot req;
    match finished_snapshot with
    | Some snapshot =>
        resp ←? RaftInner.or_fatal (Raft.install_full_snapshot env req.(isr_vote) snapshot);
        mret (ROk (from_snapshot_response resp))
    | None => mret (ROk {| iresp_vote := my_vote |})
    end.
End receive.
End Chunked.

(** ** The sender *)

(** The network to the target, with its state [W]: one RPC, whose result is [None] when the timeout
    elapses first.  [net_cancel] polls the future that cancels the transmission. *)
Class RaftNetwork {C : RaftTypeConfig} (W : Type) := {
  net_install_snapshot : InstallSnapshotRequest → RPCOption →
    ST W (option (Result InstallSnapshotResponse (RPCError (RaftError InstallSnapshotError))));
  net_cancel : ST W (option ReplicationClosed);
}.

Record Sender {C : RaftTypeConfig} {W : Type} := { sender_data : SnapshotData; sender_net : W }.
Arguments Sender {C} W.

(** What one iteration of the loop decides. *)
Inductive ChunkOutcome {C : RaftTypeConfig} := Finished (resp : SnapshotResponse) | Next (offset : N).

Module SendSnapshot.
Section send.
Context {C : RaftTypeConfig} {IO : SnapshotIO} {W : Type} {Net : RaftNetwork W}.
Context (vote : Vote) (m : SnapshotMeta) (option_ : RPCOption).

Definition set_data (s : Sender W) (d : SnapshotData) : Sender W := {| sender_data := d; sender_net := s.(sender_net) |}.
Definition set_net (s : Sender W) (w : W) : Sender W := {| sender_data := s.(sender_data); sender_net := w |}.
Definition on_net {A} (n : ST W A) : ST (Sender W) A := zoom sender_net set_net n.

(** [sto_res(subject_verb)] *)
Definition sto_res {A} (n : ST SnapshotData (Result A string)) : ST (Sender W) (Result A StreamingError) :=
  res ← zoom sender_data set_data n;
  mret (match res with
        | ROk a => ROk a
        | RErr err => RErr (SE_StorageError
            (StorageError.new (Subject_Snapshot (Some (SnapshotMeta.signature m))) Verb_Read err))
        end).

(** [while buf.capacity() > buf.len()]: every turn but the last reads at least a byte, so [room] turns
    fill the buffer. *)
Fixpoint read_loop (room : nat) (capacity : nat) (buf : list byte) : ST SnapshotData (Result (list byte) string) :=
  match room with
  | O => mret (ROk buf)
  | S room =>
      if length buf <? capacity then
        n ←? io_read_buf (capacity - length buf);
        match n with [] => mret (ROk buf) | _ => read_loop room capacity (buf ++ n) end
      else mret (ROk buf)
  end.

(** The offset to go on with after an error of the RPC. *)
Definition next_offset (offset : N) (err : RPCError (RaftError InstallSnapshotError)) : N :=
  match err with
  | RPCError_RemoteError remote_err =>
      match remote_err.(remote_source) with
      | RaftError_Fatal _ => offset
      | APIError (SnapshotMismatch _ _ _ _) => 0%N
      end
  | _ => offset
  end.

Definition send_chunk (end_ offset : N) : ST (Sender W) (Result ChunkOutcome StreamingError) :=
  c ← on_net net_cancel;
  match c with
  | Some err => mret (RErr (SE_Closed err))
  | None =>
      _ ←? sto_res (io_seek_start offset);
      chunk_size ← lift (unwrap option_.(snapshot_chunk_size) "called `Option::unwrap()` on a `None` value");
      buf ←? sto_res (read_loop (N.to_nat chunk_size) (N.to_nat chunk_size) []);
      let n_read := N.of_nat (length buf) in
      let done := (offset + n_read =? end_)%N in
      let req := {| isr_vote := vote; isr_meta := m; isr_offset := offset; isr_data := buf; isr_done := done |} in
      res ← on_net (net_install_snapshot req option_);
      match res with
      | None => mret (ROk (Next offset))
      | Some (RErr err) => mret (ROk (Next (next_offset offset err)))
      | Some (ROk resp) =>
          higher ← lift (ref_vote_gt (as_ref_vote resp.(iresp_vote)) (as_ref_vote vote));
          if (higher : bool) then mret (ROk (Finished {| sresp_vote := resp.(iresp_vote) |}))
          else if done then mret (ROk (Finished {| sresp_vote := resp.(iresp_vote) |}))
          else mret (ROk (Next (offset + n_read)%N))
      end
  end.

(** [None] when the loop is still running after [fuel] iterations. *)
Fixpoint send_loop (fuel : nat) (end_ offset : N) : ST (Sender W) (option (Result SnapshotResponse StreamingError)) :=
  match fuel with
  | O => mret None
  | S fuel =>
      res ← send_chunk end_ offset;
      match res with
      | RErr e => mret (Some (RErr e))
      | ROk (Finished resp) => mret (Some (ROk resp))
      | ROk (Next offset) => send_loop fuel end_ offset
      end
  end.

Definition send_snapshot (fuel : nat) : ST (Sender W) (option (Result SnapshotResponse StreamingError)) :=
  end_ ← sto_res io_seek_end;
  match end_ with
  | RErr e => mret (Some (RErr e))
  | ROk end_ => send_loop fuel end_ 0
  end.
End send.
End SendSnapshot.

(** ** A network that loses messages *)

(** What happens to an RPC: the target handles it and the answer arrives, it handles it and the answer
    is lost, or the request is lost.  The caller then sees an error, or the timeout elapses. *)
Inductive Delivery {C : RaftTypeConfig} :=
| Answered
| AnswerLost (e : option (RPCError Empty_set))
| RequestLost (e : option (RPCError Empty_set)).

(** Before an RPC the transmission may be canceled, and the target handles requests of other senders. *)
Record Fate {C : RaftTypeConfig} := {
  cancel : option ReplicationClosed;
  others : list InstallSnapshotRequest;
  delivery : Delivery;
}.

(** The network to the node [wire_node], the fates of the RPCs to come; then every RPC is answered. *)
Record Wire {C : RaftTypeConfig} := { wire_node : Raft; wire_fates : list Fate }.

Section wire.
Context {C : RaftTypeConfig} {IO : SnapshotIO} (env : ApiEnv).

Definition set_node (w : Wire) (r : Raft) : Wire := {| wire_node := r; wire_fates := w.(wire_fates) |}.
Definition on_node {A} (m : ST Raft A) : ST Wire A := zoom wire_node set_node m.

Definition next_fate : ST Wire Fate := λ w,
  match w.(wire_fates) with
  | [] => Done ({| cancel := None; others := []; delivery := Answered |}, w)
  | f :: fates => Done (f, {| wire_node := w.(wire_node); wire_fates := fates |})
  end.

(** An error of the network is no answer of the target. *)
Definition transport_error {E} (e : RPCError Empty_set) : RPCError E :=
  match e with
  | RPCError_Timeout e => RPCError_Timeout e
  | RPCError_Unreachable e => RPCError_Unreachable e
  | RPCError_PayloadTooLarge e => RPCError_PayloadTooLarge e
  | RPCError_Network e => RPCError_Network e
  | RPCError_RemoteError e => match e.(remote_source) with end
  end.
Definition lost {A E} (e : option (RPCError Empty_set)) : option (Result A (RPCError E)) :=
  RErr <$> (transport_error <$> e).

Definition answer {A E} (target : NodeId) (res : Result A E) : option (Result A (RPCError E)) :=
  Some (match res with ROk a => ROk a | RErr e => RErr (RPCError_RemoteError (RemoteError.new target e)) end).

Definition wire_install (req : InstallSnapshotRequest) (opt : RPCOption) :
    ST Wire (option (Result InstallSnapshotResponse (RPCError (RaftError InstallSnapshotError)))) :=
  f ← next_fate;
  _ ← on_node (st_for f.(others) (λ other, _ ← Chunked.install_snapshot env other; mret tt));
  match f.(delivery) with
  | RequestLost e => mret (lost e)
  | AnswerLost e => _ ← on_node (Chunked.install_snapshot env req); mret (lost e)
  | Answered =>
      res ← on_node (Chunked.install_snapshot env req);
      w ← st_get;
      mret (answer w.(wire_node).(inner_id) res)
  end.

Definition wire_cancel : ST Wire (option ReplicationClosed) :=
  st_gets (λ w, match w.(wire_fates) with f :: _ => f.(cancel) | [] => None end).

Definition wire_network : RaftNetwork Wire :=
  {| net_install_snapshot := wire_install; net_cancel := wire_cancel |}.
End wire.

(** ** Chunks *)
Lemma overwrite_chunk {A} (D : list A) (o l n : nat) :
  let b := take n (drop o D) in
  o ≤ l → l ≤ length D →
  take o (take l D) ++ b ++ drop (o + length b) (take l D) = take (l `max` (o + length b)) D.
Proof.
  intros b Hol Hl. rw take_take (Nat.min_l o l) // assoc_L.
  assert (b = take (length b) (drop o D)) as Hb.
  { rw /b length_take. destruct (Nat.le_gt_cases n (length (drop o D))); [by rw Nat.min_l|].
    rw Nat.min_r; [lia|]. rw (take_ge _ n); [lia|]. by rw firstn_all. }
  rw {1}Hb take_take_drop. destruct (Nat.le_gt_cases (o + length b) l) as [Hle|Hgt].
  - rw Nat.max_l // -{1}(Nat.min_l _ _ Hle) -take_take. apply take_drop.
  - rw Nat.max_r; [lia|]. by rw drop_ge ?app_nil_r // length_take; lia.
Qed.

Section transport.
Context {C : RaftTypeConfig} {IO : SnapshotIO} {Laws : SnapshotIOLaws}.

(** Reading: a full chunk, or what is left. *)
Lemma read_loop_ok room capacity buf d :
  capacity - length buf ≤ room →
  wp (SendSnapshot.read_loop room capacity buf) (λ r d', io_content d' = io_content d ∧
    r = ROk (buf ++ take (capacity - length buf) (drop (N.to_nat (io_pos d)) (io_content d)))) d.
Proof.
  revert buf d. induction room as [|room IH]; intros buf d Hroom; cbn [SendSnapshot.read_loop].
  { apply wp_ret. cbn beta. split; [done|]. replace (capacity - length buf) with 0 by lia. by rw take_0 app_nil_r. }
  destruct (Nat.ltb_spec (length buf) capacity) as [Hlt|Hge].
  2:{ apply wp_ret. cbn beta. split; [done|]. replace (capacity - length buf) with 0 by lia. by rw take_0 app_nil_r. }
  apply wp_bind. eapply wp_mono; [apply io_read_ok|]. cbn. intros r d' (b & -> & Hc & Hp & Hlen & Hb & Hnil).
  destruct b as [|x b].
  - apply wp_ret. cbn beta. split; [done|]. destruct (Hnil eq_refl) as [|Hend]; [lia|]. by rw (drop_ge _ _ Hend) take_nil app_nil_r.
  - eapply wp_mono; [apply IH; rw length_app; cbn in *; lia|]. cbn. intros r d'' [Hc' ->]. rw Hc' Hc.
    split; [done|]. f_equal. rw Hp -assoc_L. f_equal. rw length_app.
    set (c := x :: b) in *. rw {1}Hb N2Nat.inj_add Nat2N.id -drop_drop take_take_drop. f_equal. lia.
Qed.

(** The chunk of [D] at [o]. *)
Definition chunk (size : N) (o : N) (D : list byte) : list byte := take (N.to_nat size) (drop (N.to_nat o) D).

(** A stream that holds a prefix of [D], of at least [o] bytes. *)
Definition stream_ok (D : list byte) (o : N) (s : Streaming) : Prop :=
  ∃ l, io_content s.(streaming_data) = take l D ∧ (N.to_nat o ≤ l ≤ length D) ∧
    s.(offset) = io_pos s.(streaming_data) ∧ (N.to_nat s.(offset) ≤ l).

Lemma receive_ok D o s req size :
  stream_ok D o s → req.(isr_offset) = o → req.(isr_data) = chunk size o D →
  wp (Streaming.receive req) (λ r s', r = ROk req.(isr_done) ∧ s'.(streaming_id) = s.(streaming_id) ∧
    stream_ok D (o + N.of_nat (length req.(isr_data)))%N s') s.
Proof.
  intros (l & Hc & Hl & Hoff & Hpos) Ho Hd. apply wp_bind, wp_get.
  assert (wp (if (req.(isr_offset) =? s.(offset))%N then mret (ROk tt) else
    _ ←? Streaming.io req Verb_Seek (io_seek_start req.(isr_offset));
    _ ← st_modify (λ s, Streaming.set_offset s req.(isr_offset)); mret (ROk tt))
    (λ r s', r = ROk tt ∧ s'.(streaming_id) = s.(streaming_id) ∧ s'.(offset) = o ∧
       io_pos s'.(streaming_data) = o ∧ io_content s'.(streaming_data) = take l D) s) as Hseek.
  { destruct (N.eqb_spec req.(isr_offset) s.(offset)) as [He|He]; [apply wp_ret; by rw -Hoff -He|].
    apply wp_bind. rw /Streaming.io. apply wp_bind, wp_zoom. eapply wp_mono; [apply io_seek_start_ok|].
    intros [p|e] d' (Hok & Hc' & Hp'); [|done]. apply wp_ret. cbn. by split_and!; [| | |rw Hp'|rw Hc']. }
  apply wp_bind. eapply wp_mono; [exact Hseek|]. intros r s1 (-> & Hid & Ho1 & Hp1 & Hc1).
  apply wp_bind. rw /Streaming.io. apply wp_bind, wp_zoom.
  assert (length (take l D) = l) as Hlen by (rw length_take; lia).
  eapply wp_mono; [apply io_write_ok; rw Hp1 Hc1 Hlen; lia|]. intros r d' (-> & Hp' & Hc'). apply wp_ret.
  apply wp_bind, wp_modify, wp_ret. cbn. split_and!; [done|done|].
  exists (l `max` (N.to_nat o + length (isr_data req))). cbn. rw Ho1 Hp' Hp1 Hc' Hp1 Hc1.
  split_and!; [|lia| |done|lia].
  - rw Hd. apply overwrite_chunk; lia.
  - rw Hd /chunk length_take length_drop. lia.
Qed.

(** *** The calls to RaftCore *)
(** The receiving state is as before, and the messages sent satisfy [P]. *)
Definition frame (P : RaftMsg → Prop) (r r' : Raft) : Prop :=
  r'.(inner_snapshot) = r.(inner_snapshot) ∧ ∃ l, r'.(api_sent) = r.(api_sent) ++ l ∧ Forall P l.

Context (env : ApiEnv).

Lemma frame_same P r r' :
  r'.(inner_snapshot) = r.(inner_snapshot) → r'.(api_sent) = r.(api_sent) → frame P r r'.
Proof. intros Hs Hl. split; [done|]. exists []. by rw app_nil_r. Qed.

Lemma stopped_frame P r : post (RaftInner.get_core_stopped_error env) (λ _, frame P r) r.
Proof.
  rw /RaftInner.get_core_stopped_error. apply post_bind, post_modify, post_bind, post_get, post_lift. intros f _.
  destruct (core_task r); [|destruct (joiner_dropped r)|]; by apply frame_same.
Qed.

Lemma call_core_frame {T E} (P : RaftMsg → Prop) mes (rx : nat → option (Result T E)) r :
  (∀ tx, P (mes tx)) →
  post (RaftInner.call_core env mes rx) (λ res r', frame P r r' ∧ ∀ x, res = ROk x →
    (∃ k, rx k = Some (ROk x)) ∧ ∃ tx, r'.(api_sent) = r.(api_sent) ++ [mes tx]) r.
Proof.
  intros HP. intros res r' Hrun. split; last first.
  { intros x ->. apply call_core_ok in Hrun as [Hx ->]. split; [by eexists|]. by eexists. }
  revert res r' Hrun. change (post (RaftInner.call_core env mes rx) (λ _, frame P r) r).
  rw /RaftInner.call_core. apply post_bind. intros k r0 [= <- <-]. apply post_bind.
  apply post_mono with (λ _, frame P r); last first.
  - intros [u|e] r1 Hf; [|by apply post_ret].
    assert (∀ r2, frame P r1 r2 → frame P r r2) as Htrans.
    { intros r2 [Hs2 (l2 & Hl2 & H2)]. destruct Hf as [Hs1 (l1 & Hl1 & H1)]. split; [by rw Hs2|].
      exists (l1 ++ l2). rw Hl2 Hl1 assoc_L. split; [done|]. by apply Forall_app. }
    destruct (rx _) as [[x|e]|]; [by apply post_ret..|].
    apply post_bind. eapply post_mono; [apply (stopped_frame P)|]. intros f r2 H2. apply post_ret. by apply Htrans.
  - rw /RaftInner.or_fatal /RaftInner.send_msg /RaftInner.try_send. apply post_bind, post_bind, post_bind.
    intros k' r1 [= <- <-]. destruct (api_open env _).
    + apply post_bind, post_modify, post_ret, post_ret, post_ret. split; [done|]. eexists. split; [done|]. by constructor.
    + apply post_ret, post_bind. eapply post_mono; [apply (stopped_frame P)|]. intros f r2 H2.
      by apply post_ret, post_ret.
Qed.

Lemma with_raft_state_frame {V} (P : RaftMsg → Prop) (func : RaftState.RaftState → V) r :
  (∀ tx, P (Msg_ExternalCoreRequest tx)) →
  post (Raft.with_raft_state env func) (λ res r', frame P r r' ∧ ∀ v, res = ROk v →
    ∃ k s, env.(re_state) k = Some s ∧ v = func s) r.
Proof.
  intros HP. rw /Raft.with_raft_state. apply post_bind. intros k r0 [= <- <-]. apply post_bind.
  rw /RaftInner.try_send. apply post_bind. intros k' r1 [= <- <-]. destruct (api_open env _).
  - apply post_bind, post_modify, post_ret.
    assert (frame P r (add_sent (next_call r) (Msg_ExternalCoreRequest (N.of_nat (api_calls r))))) as Hf.
    { split; [done|]. eexists. split; [done|]. by constructor. }
    destruct (re_state env _) as [s|] eqn:Hs.
    + apply post_ret. split; [done|]. intros v [= <-]. eauto.
    + apply post_bind. eapply post_mono; [apply (stopped_frame P)|]. intros f r2 [Hs2 (l2 & Hl2 & H2)]. apply post_ret.
      split; [|done]. split; [done|]. eexists. rw Hl2 /= -assoc_L. split; [done|]. by constructor.
  - apply post_ret, post_bind. eapply post_mono; [apply (stopped_frame P)|]. intros f r2 H2. by apply post_ret.
Qed.

(** *** The receiving node *)
Definition snapshot_content (sn : Snapshot) : list byte := io_content sn.(snapshot_data).

(** [RaftCore] begins with empty data. *)
Definition begins_empty : Prop :=
  ∀ k d, env.(re_begin) k = Some (ROk d) → io_content d = [] ∧ io_pos d = 0%N.

Section invariant.
Context (m : SnapshotMeta) (D : list byte).

(** A snapshot with the id of [m] that is handed to [RaftCore] is [m] with the content [D]. *)
Definition exact_msg (msg : RaftMsg) : Prop :=
  match msg with
  | Msg_InstallFullSnapshot _ sn _ => sn.(meta).(snapshot_id) = m.(snapshot_id) → sn.(meta) = m ∧ snapshot_content sn = D
  | _ => True
  end.

(** The stream of this snapshot, when one is open. *)
Definition stream_fits (o : N) (r : Raft) : Prop :=
  ∀ s, r.(inner_snapshot) = Some s → s.(streaming_id) = m.(snapshot_id) → stream_ok D o s.

Definition sent_exact (base : list RaftMsg) (r : Raft) : Prop :=
  ∃ l, r.(api_sent) = base ++ l ∧ Forall exact_msg l.

Definition node_ok (base : list RaftMsg) (o : N) (r : Raft) : Prop := stream_fits o r ∧ sent_exact base r.

Lemma node_ok_le base o o' r : (o' ≤ o)%N → node_ok base o r → node_ok base o' r.
Proof.
  intros Hle [Hs Hl]. split; [|done]. intros s Hr Hid. destruct (Hs s Hr Hid) as (l & ? & ? & ? & ?).
  exists l. split_and!; [done|lia..|done|done].
Qed.

Lemma frame_ok base o r r' : frame exact_msg r r' → node_ok base o r → node_ok base o r'.
Proof.
  intros [Hs (l' & Hl' & H')] [Hf (l & Hl & H)]. split; [intros s; rw Hs; apply Hf|].
  exists (l ++ l'). rw Hl' Hl assoc_L. split; [done|]. by apply Forall_app.
Qed.

Lemma set_stream_ok base o r x :
  sent_exact base r → (∀ s, x = Some s → s.(streaming_id) = m.(snapshot_id) → stream_ok D o s) →
  node_ok base o (set_inner_snapshot r x).
Proof. intros Hl Hx. by split. Qed.

Context (Hempty : begins_empty).

(** Starting another stream. *)
Lemma begin_stream_ok base o req r :
  sent_exact base r →
  (∀ s, r.(inner_snapshot) = Some s → s.(streaming_id) ≠ req.(isr_meta).(snapshot_id)) →
  node_ok base o r →
  post (Chunked.begin_stream env req) (λ res r', sent_exact base r' ∧ 
    (res = ROk tt → req.(isr_offset) = 0%N ∧ ∃ s, r'.(inner_snapshot) = Some s ∧
       s.(streaming_id) = req.(isr_meta).(snapshot_id) ∧ stream_ok D 0 s) ∧
    (∀ e, res = RErr e → node_ok base o r')) r.
Proof.
  intros Hsent Hno Hok. rw /Chunked.begin_stream. destruct (N.eqb_spec (isr_offset req) 0) as [H0|H0]; cbn [negb].
  - apply post_bind. rw /Raft.begin_receiving_snapshot. apply post_bind.
    eapply post_mono; [by apply (call_core_frame exact_msg)|]. intros res r1 [Hf Hres].
    pose proof (frame_ok _ _ _ _ Hf Hok) as Hok1.
    destruct res as [d|e]; apply post_ret.
    + apply post_bind, post_modify, post_ret. split_and!; [apply Hok1| |done]. intros _. split; [done|].
      eexists. split; [done|]. cbn. split; [done|]. destruct (Hres d eq_refl) as [[k Hk] _].
      destruct (Hempty k d Hk) as [Hc Hp]. exists 0. cbn. rw Hc Hp. split_and!; lia || done.
    + apply post_bind, post_lift. intros f _. apply post_ret. by split_and!; [apply Hok1| |].
  - apply post_ret. by split_and!.
Qed.

Lemma stream_ok_le o o' s : (o' ≤ o)%N → stream_ok D o s → stream_ok D o' s.
Proof. intros Hle (l & ? & ? & ? & ?). exists l. split_and!; [done|lia..|done|done]. Qed.

Lemma on_streaming_receive (E : Type) o req size r s :
  r.(inner_snapshot) = Some s → stream_ok D o s → req.(isr_offset) = o → req.(isr_data) = chunk size o D →
  wp (Chunked.storage (E := E) (Chunked.on_streaming (Streaming.receive req))) (λ res r', res = ROk req.(isr_done) ∧
    ∃ s', r' = set_inner_snapshot r (Some s') ∧ s'.(streaming_id) = s.(streaming_id) ∧
      stream_ok D (o + N.of_nat (length req.(isr_data)))%N s') r.
Proof.
  intros Hr Hs Ho Hd. destruct (proj1 (wp_elim _ _ _) (receive_ok D o s req size Hs Ho Hd)) as (res & s' & Hrun & -> & Hid & Hs').
  apply wp_bind. rw /Chunked.on_streaming /wp Hr Hrun. split; [done|]. by exists s'.
Qed.

(** A request of ours, at [o]. *)
Record ours (v : Vote) (size o : N) (req : InstallSnapshotRequest) : Prop := {
  or_vote : req.(isr_vote) = v;
  or_meta : req.(isr_meta) = m;
  or_offset : req.(isr_offset) = o;
  or_data : req.(isr_data) = chunk size o D;
  or_done : req.(isr_done) = (o + N.of_nat (length (chunk size o D)) =? N.of_nat (length D))%N;
}.

Definition after_chunk (size o : N) : N := (o + N.of_nat (length (chunk size o D)))%N.

(** A stream of this snapshot is open. *)
Definition is_open (r : Raft) : Prop := ∃ s, r.(inner_snapshot) = Some s ∧ s.(streaming_id) = m.(snapshot_id).

(** The end of the stream: what is handed over has the content [D]. *)
Definition finish (req : InstallSnapshotRequest) : ST Raft (Result (option Snapshot) (RaftError InstallSnapshotError)) :=
  if req.(isr_done) then
    r ← st_get;
    streaming ← lift (unwrap r.(inner_snapshot) "called `Option::unwrap()` on a `None` value");
    _ ← st_modify (λ r, set_inner_snapshot r None);
    data ←? Chunked.storage (Chunked.shut req.(isr_meta) (Streaming.into_snapshot_data streaming));
    mret (ROk (Some {| meta := req.(isr_meta); snapshot_data := data |}))
  else mret (ROk None).

Lemma finish_ours base v size o req r s :
  ours v size o req → r.(inner_snapshot) = Some s → s.(streaming_id) = m.(snapshot_id) →
  stream_ok D (after_chunk size o) s → sent_exact base r →
  wp (finish req) (λ res r', node_ok base (after_chunk size o) r' ∧ r'.(api_sent) = r.(api_sent) ∧
    r'.(api_calls) = r.(api_calls) ∧
    if req.(isr_done) then ∃ sn, res = ROk (Some sn) ∧ sn.(meta) = m ∧ snapshot_content sn = D
    else res = ROk None ∧ is_open r') r.
Proof.
  intros Hreq Hr Hid Hs Hsent. rw /finish. rw (or_done _ _ _ _ Hreq). destruct (N.eqb_spec (o + N.of_nat (length (chunk size o D))) (N.of_nat (length D))) as [Hend|]; last first.
  { apply wp_ret. split_and!; try done; [|by exists s]. split; [|done]. intros s'. rw Hr. by intros [= <-]. }
  apply wp_bind, wp_get, wp_bind. rw Hr. apply wp_lift with s; [done|]. apply wp_bind, wp_modify, wp_bind.
  rw /Chunked.storage. apply wp_bind.
  destruct (proj1 (wp_elim _ _ _) (io_shutdown_ok s.(streaming_data))) as (res & d & Hrun & -> & Hc).
  rw /wp /Chunked.shut /Streaming.into_snapshot_data Hrun. cbn. split_and!; [by apply set_stream_ok|done|done|].
  eexists. split; [done|]. cbn. rw (or_meta _ _ _ _ Hreq). split; [done|]. rw /snapshot_content /= Hc.
  destruct Hs as (l & -> & Hl & _). rw /after_chunk in Hl. apply take_ge. lia.
Qed.

(** What a request of ours does once a stream of its snapshot is open. *)
Lemma receive_open base v size o req r s :
  ours v size o req → r.(inner_snapshot) = Some s → s.(streaming_id) = m.(snapshot_id) → stream_ok D o s →
  sent_exact base r →
  wp (_ ←? Chunked.storage (Chunked.on_streaming (Streaming.receive req)); finish req)
    (λ res r', node_ok base (after_chunk size o) r' ∧ r'.(api_sent) = r.(api_sent) ∧ r'.(api_calls) = r.(api_calls) ∧
      if req.(isr_done) then ∃ sn, res = ROk (Some sn) ∧ sn.(meta) = m ∧ snapshot_content sn = D
    else res = ROk None ∧ is_open r') r.
Proof.
  intros Hreq Hr Hid Hs Hsent. apply wp_bind.
  eapply wp_mono; [exact (on_streaming_receive _ o req size r s Hr Hs (or_offset _ _ _ _ Hreq) (or_data _ _ _ _ Hreq))|].
  intros res r' (-> & s' & -> & Hid' & Hs').
  apply (finish_ours base v size o req (set_inner_snapshot r (Some s')) s'); [done|done|by rw Hid'| |done].
  by rw (or_data _ _ _ _ Hreq) in Hs'.
Qed.

Lemma receive_snapshot_ours base v size o req r :
  ours v size o req → node_ok base o r →
  post (Chunked.receive_snapshot env req) (λ res r', node_ok base o r' ∧ ∀ x, res = ROk x →
    node_ok base (after_chunk size o) r' ∧
    if req.(isr_done) then ∃ sn, x = Some sn ∧ sn.(meta) = m ∧ snapshot_content sn = D else x = None) r.
Proof.
  intros Hreq Hok. rw /Chunked.receive_snapshot. apply post_bind, post_get, post_bind.
  assert (∀ r1 s, r1.(inner_snapshot) = Some s → s.(streaming_id) = m.(snapshot_id) → stream_ok D o s → sent_exact base r1 →
    post (_ ←? Chunked.storage (Chunked.on_streaming (Streaming.receive req)); finish req)
      (λ res r', node_ok base o r' ∧ ∀ x, res = ROk x → node_ok base (after_chunk size o) r' ∧
         if req.(isr_done) then ∃ sn, x = Some sn ∧ sn.(meta) = m ∧ snapshot_content sn = D else x = None) r1) as Hopen.
  { intros r1 s Hr Hid Hs Hsent. eapply wp_post, wp_mono; [by eapply receive_open|].
    intros res r' (Hok' & _ & _ & Hres). split; [eapply node_ok_le; [|exact Hok']; rw /after_chunk; lia|].
    intros x ->. split; [done|]. destruct (isr_done req); [|by destruct Hres as [[= ->] _]].
    destruct Hres as (sn & [= ->] & Hsn). by exists sn. }
  pose proof (or_meta _ _ _ _ Hreq) as Hm. case_bool_decide as Hcur.
  - apply post_ret. destruct (inner_snapshot r) as [s|] eqn:Hr; [|done]. injection Hcur as Hid. rw Hm in Hid.
    apply (Hopen r s); [done|done| |apply Hok]. by apply (proj1 Hok).
  - eapply post_mono; [apply (begin_stream_ok base o req r); [apply Hok| |done]|].
    { intros s Hr Heq. apply Hcur. by rw Hr /= /Streaming.snapshot_id Heq. }
    intros res r1 (Hsent & Hopened & Herr). destruct res as [[]|e]; [|by apply post_ret; split; [eapply Herr|]].
    destruct (Hopened eq_refl) as (H0 & s & Hr & Hid & Hs). rw Hm in Hid.
    rw (or_offset _ _ _ _ Hreq) in H0. subst o. by apply (Hopen r1 s).
Qed.

(** A request for another snapshot. *)
Lemma receive_id req s : post (Streaming.receive req) (λ _ s', s'.(streaming_id) = s.(streaming_id)) s.
Proof.
  assert (∀ A (n : ST SnapshotData (Result A string)) verb s0,
    post (Streaming.io req verb n) (λ _ s', s'.(streaming_id) = s0.(streaming_id)) s0) as Hio.
  { intros A n verb s0. rw /Streaming.io. apply post_bind. intros a s1. rw /zoom.
    destruct (n _) as [[b d]|]; [|done]. intros [= <- <-]. by apply post_ret. }
  rw /Streaming.receive. apply post_bind, post_get, post_bind.
  apply post_mono with (λ _ s', s'.(streaming_id) = s.(streaming_id)).
  - destruct (_ =? _)%N; [by apply post_ret|]. apply post_bind. eapply post_mono; [apply Hio|].
    intros [p|e] s1 H1; [|by apply post_ret]. by apply post_bind, post_modify, post_ret.
  - intros [u|e] s1 H1; [|by apply post_ret]. apply post_bind. eapply post_mono; [apply Hio|].
    intros [w|e] s2 H2; [|apply post_ret; by rw H2]. apply post_bind, post_modify, post_ret. by rw /= H2.
Qed.

Lemma finish_others base o req r :
  req.(isr_meta).(snapshot_id) ≠ m.(snapshot_id) → sent_exact base r →
  (∀ s, r.(inner_snapshot) = Some s → s.(streaming_id) ≠ m.(snapshot_id)) →
  post (finish req) (λ res r', node_ok base o r' ∧ ∀ sn, res = ROk (Some sn) → sn.(meta) = req.(isr_meta)) r.
Proof.
  intros Hne Hsent Hr. assert (∀ r', sent_exact base r' → r'.(inner_snapshot) = None → node_ok base o r') as Hnone.
  { intros r' Hl Hr'. split; [|done]. by rw /stream_fits Hr'. }
  rw /finish. destruct (isr_done req); [|apply post_ret; split; [split; [|done]|done]].
  - apply post_bind, post_get, post_bind, post_lift. intros s _. apply post_bind, post_modify, post_bind, post_bind.
    intros d r' Hrun. rw /Chunked.shut in Hrun.
    destruct (io_shutdown _) as [[[u|e] d']|]; [|..|done]; injection Hrun as <- <-.
    + apply post_ret, post_ret. split; [by apply Hnone|]. by intros sn [= <-].
    + apply post_ret, post_ret. split; [by apply Hnone|done].
  - intros s Hs Hid. by destruct (Hr s Hs).
Qed.

Lemma receive_snapshot_others base o req r :
  req.(isr_meta).(snapshot_id) ≠ m.(snapshot_id) → node_ok base o r →
  post (Chunked.receive_snapshot env req) (λ res r', node_ok base o r' ∧
    ∀ sn, res = ROk (Some sn) → sn.(meta) = req.(isr_meta)) r.
Proof.
  intros Hne Hok. rw /Chunked.receive_snapshot. apply post_bind, post_get, post_bind.
  assert (∀ r1 s, r1.(inner_snapshot) = Some s → s.(streaming_id) ≠ m.(snapshot_id) → sent_exact base r1 →
    post (_ ←? Chunked.storage (Chunked.on_streaming (Streaming.receive req)); finish req)
      (λ res r', node_ok base o r' ∧ ∀ sn, res = ROk (Some sn) → sn.(meta) = req.(isr_meta)) r1) as Hopen.
  { intros r1 s Hr Hid Hsent. rw /Chunked.storage /Chunked.on_streaming. apply post_bind, post_bind. intros res r2.
    rw Hr. destruct (Streaming.receive req s) as [[res' s']|] eqn:Hrun; [|done]. intros [= <- <-].
    pose proof (receive_id req s _ _ Hrun) as Hid'. apply post_ret.
    destruct res' as [b|e]; [|apply post_ret; split; [apply set_stream_ok; [done|]|done]; intros s2 [= <-]; congruence].
    apply finish_others; [done|done|]. intros s2 [= <-]. congruence. }
  case_bool_decide as Hcur.
  - apply post_ret. destruct (inner_snapshot r) as [s|] eqn:Hr; [|done]. injection Hcur as Hid.
    apply (Hopen r s); [done| |apply Hok]. rw /Streaming.snapshot_id in Hid. congruence.
  - eapply post_mono; [apply (begin_stream_ok base o req r); [apply Hok| |done]|].
    { intros s Hr Heq. apply Hcur. by rw Hr /= /Streaming.snapshot_id Heq. }
    intros res r1 (Hsent & Hopened & Herr). destruct res as [[]|e]; [|by apply post_ret; split; [eapply Herr|]].
    destruct (Hopened eq_refl) as (_ & s & Hr & Hid & _). apply (Hopen r1 s); [done|congruence|done].
Qed.

(** The snapshot has been handed to [RaftCore], after the messages [base]. *)
Definition delivered (base : list RaftMsg) (v : Vote) (r : Raft) : Prop :=
  ∃ l sn tx, r.(api_sent) = base ++ l ∧ Msg_InstallFullSnapshot v sn tx ∈ l ∧ sn.(meta) = m.

Lemma install_full_frame v sn r :
  exact_msg (Msg_InstallFullSnapshot v sn 0) →
  post (RaftInner.or_fatal (E := InstallSnapshotError) (Raft.install_full_snapshot env v sn)) (λ res r',
    frame exact_msg r r' ∧ ∀ resp, res = ROk resp → (∃ k, env.(re_install) k = Some (ROk resp)) ∧
      ∃ tx, r'.(api_sent) = r.(api_sent) ++ [Msg_InstallFullSnapshot v sn tx]) r.
Proof.
  intros Hsn. rw /RaftInner.or_fatal /Raft.install_full_snapshot. apply post_bind, post_bind.
  eapply post_mono; [by apply (call_core_frame exact_msg)|]. intros res r1 [Hf Hres]. rw /Raft.fatal_of.
  destruct res as [x|e].
  - apply post_ret, post_ret. split; [done|]. intros resp [= <-]. by apply Hres.
  - apply post_bind, post_lift. intros f _. by apply post_ret, post_ret.
Qed.

Lemma install_ours base v size o req r :
  ours v size o req → node_ok base o r →
  post (Chunked.install_snapshot env req) (λ res r', node_ok base o r' ∧ ∀ resp, res = ROk resp →
    ref_vote_ge (as_ref_vote v) (as_ref_vote resp.(iresp_vote)) = Done false ∨
    node_ok base (after_chunk size o) r' ∧ (req.(isr_done) = true → delivered base v r')) r.
Proof.
  intros Hreq Hok. rw /Chunked.install_snapshot. apply post_bind. rw {1}/RaftInner.or_fatal. apply post_bind.
  eapply post_mono; [by apply (with_raft_state_frame exact_msg)|]. intros res r1 [Hf _]. apply post_ret.
  pose proof (frame_ok _ _ _ _ Hf Hok) as Hok1. destruct res as [my|f]; [|by apply post_ret].
  apply post_bind, post_lift. rw (or_vote _ _ _ _ Hreq). intros ok Hge. destruct ok; cbn [negb]; last first.
  { apply post_ret. split; [done|]. intros resp [= <-]. by left. }
  apply post_bind. eapply post_mono; [by apply (receive_snapshot_ours base v size o)|]. intros res r2 [Hok2 Hrecv].
  destruct res as [x|e]; [|by apply post_ret]. destruct (Hrecv x eq_refl) as [Hok2' Hx].
  destruct (isr_done req) eqn:Hdone; [|subst x; apply post_ret; split; [done|]; intros resp _; by right].
  destruct Hx as (sn & -> & Hmeta & Hc). apply post_bind.
  eapply post_mono; [apply install_full_frame; by intros _|]. intros res r3 [Hf3 Hres].
  destruct res as [resp|e]; apply post_ret; (split; [by eapply frame_ok|]); [|done]. intros resp' _. right.
  split; [by eapply frame_ok|]. intros _. destruct (Hres resp eq_refl) as [_ [tx Htx]].
  destruct (proj2 Hok2) as (l & Hl & _). exists (l ++ [Msg_InstallFullSnapshot v sn tx]), sn, tx.
  rw Htx Hl assoc_L. split_and!; [done|set_solver|done].
Qed.

Lemma install_others base o req r :
  req.(isr_meta).(snapshot_id) ≠ m.(snapshot_id) → node_ok base o r →
  post (Chunked.install_snapshot env req) (λ _ r', node_ok base o r') r.
Proof.
  intros Hne Hok. rw /Chunked.install_snapshot. apply post_bind. rw {1}/RaftInner.or_fatal. apply post_bind.
  eapply post_mono; [by apply (with_raft_state_frame exact_msg)|]. intros res r1 [Hf _]. apply post_ret.
  pose proof (frame_ok _ _ _ _ Hf Hok) as Hok1. destruct res as [my|f]; [|by apply post_ret].
  apply post_bind, post_lift. intros ok _. destruct ok; cbn [negb]; [|by apply post_ret].
  apply post_bind. eapply post_mono; [by apply (receive_snapshot_others base o)|]. intros res r2 [Hok2 Hsn].
  destruct res as [[sn|]|e]; [|by apply post_ret..]. apply post_bind.
  eapply post_mono; [apply install_full_frame; cbn; by rw (Hsn sn eq_refl)|]. intros res r3 [Hf3 _].
  destruct res; apply post_ret; by eapply frame_ok.
Qed.

(** *** The sender *)

(** A committed vote is comparable: a node that refuses it has a higher one. *)
Lemma not_ge_gt (v w : Vote) :
  is_committed v = true → ref_vote_ge (as_ref_vote v) (as_ref_vote w) = Done false →
  ref_vote_gt (as_ref_vote w) (as_ref_vote v) = Done true.
Proof.
  rw /is_committed /ref_vote_ge /ref_vote_gt /RefVote_partial_cmp /=. intros ->.
  rw (lid_cmp_opp (vote_leader_id v) (vote_leader_id w)).
  destruct (lid_partial_cmp _ _) as [[]|]; cbn; try done; by destruct (vote_committed w).
Qed.

Definition fates_ok (fates : list Fate) : Prop :=
  Forall (λ f, Forall (λ q, q.(isr_meta).(snapshot_id) ≠ m.(snapshot_id)) f.(others)) fates.

Definition wire_ok (base : list RaftMsg) (o : N) (w : Wire) : Prop :=
  node_ok base o w.(wire_node) ∧ fates_ok w.(wire_fates).

Lemma post_on_node {A} (n : ST Raft A) (Q : A → Wire → Prop) w :
  post n (λ a r, Q a (set_node w r)) w.(wire_node) → post (on_node n) Q w.
Proof. rw /post /on_node /zoom. intros H a w'. destruct (n _) as [[b r]|]; [|done]. intros [= <- <-]. by apply H. Qed.

Lemma others_post base o l r :
  Forall (λ q, q.(isr_meta).(snapshot_id) ≠ m.(snapshot_id)) l → node_ok base o r →
  post (st_for l (λ other, _ ← Chunked.install_snapshot env other; mret tt)) (λ _, node_ok base o) r.
Proof.
  intros Hl Hr. apply post_for; [done|]. intros q r1 Hq Hr1. rw Forall_forall in Hl. apply post_bind.
  eapply post_mono; [apply (install_others base o); [by apply Hl|done]|]. intros res r2 Hr2. by apply post_ret.
Qed.

(** An RPC: an answer of the target means that it took the chunk, or that it has a higher vote; an
    error keeps the offset, or sets it to 0. *)
Lemma wire_install_post base v size o req opt w :
  is_committed v = true → ours v size o req → wire_ok base o w →
  post (wire_install env req opt) (λ res w', wire_ok base o w' ∧ ∀ resp, res = Some (ROk resp) →
    ref_vote_gt (as_ref_vote resp.(iresp_vote)) (as_ref_vote v) = Done true ∨
    wire_ok base (after_chunk size o) w' ∧ (req.(isr_done) = true → delivered base v w'.(wire_node))) w.
Proof.
  intros Hv Hreq [Hn Hf]. rw /wire_install. apply post_bind.
  apply post_mono with (λ f w1, Forall (λ q, q.(isr_meta).(snapshot_id) ≠ m.(snapshot_id)) f.(others) ∧ wire_ok base o w1).
  { intros f w1. rw /next_fate. destruct (wire_fates w) as [|f0 fates] eqn:Hw; intros [= <- <-].
    - by split; [constructor|split; [|rw Hw]].
    - inversion Hf; subst. by split; [|split]. }
  intros f w1 [Hothers [Hn1 Hf1]]. apply post_bind, post_on_node.
  eapply post_mono; [by apply (others_post base o)|]. intros [] r2 Hr2.
  assert (∀ r, node_ok base o r → wire_ok base o (set_node (set_node w1 r2) r)) as Hset by (intros r Hr; by split).
  destruct (delivery f) as [|e|e].
  - apply post_bind, post_on_node. eapply post_mono; [by apply (install_ours base v size o)|].
    intros res r3 [Hr3 Hres]. apply post_bind, post_get, post_ret. split; [by apply Hset|].
    destruct res as [a|e]; [|done]. intros resp [= <-]. destruct (Hres a eq_refl) as [Hge|[Hok Hd]].
    + left. by apply not_ge_gt.
    + right. split; [by split|done].
  - apply post_bind, post_on_node. eapply post_mono; [by apply (install_ours base v size o)|].
    intros res r3 [Hr3 _]. apply post_ret. split; [by apply Hset|]. by destruct e.
  - apply post_ret. split; [by split|]. by destruct e.
Qed.

Definition sender_ok (base : list RaftMsg) (o : N) (s : Sender Wire) : Prop :=
  io_content s.(sender_data) = D ∧ wire_ok base o s.(sender_net).

Lemma wire_ok_le base o o' w : (o' ≤ o)%N → wire_ok base o w → wire_ok base o' w.
Proof. intros Hle [Hn Hf]. split; [by eapply node_ok_le|done]. Qed.

Lemma sto_res_wp {A} (n : ST SnapshotData (Result A string)) (Q : Result A StreamingError → Sender Wire → Prop)
    (a : A) (P : SnapshotData → Prop) (s : Sender Wire) :
  wp n (λ r d, r = ROk a ∧ P d) s.(sender_data) →
  (∀ d, P d → Q (ROk a) (SendSnapshot.set_data s d)) → wp (SendSnapshot.sto_res m n) Q s.
Proof.
  intros Hn HQ. apply wp_bind, wp_zoom. eapply wp_mono; [exact Hn|]. intros r d [-> HP]. by apply wp_ret, HQ.
Qed.

Lemma seek_wp o (s : Sender Wire) :
  io_content s.(sender_data) = D →
  wp (SendSnapshot.sto_res m (io_seek_start o)) (λ r s', is_ok r = true ∧ io_content s'.(sender_data) = D ∧
    io_pos s'.(sender_data) = o ∧ s'.(sender_net) = s.(sender_net)) s.
Proof.
  intros Hs. apply wp_bind, wp_zoom. eapply wp_mono; [apply io_seek_start_ok|]. intros [p|e] d (Hok & Hc & Hp); [|done].
  apply wp_ret. by rw /= Hc Hp.
Qed.

Lemma read_wp size o (s : Sender Wire) :
  io_content s.(sender_data) = D → io_pos s.(sender_data) = o →
  wp (SendSnapshot.sto_res m (SendSnapshot.read_loop (N.to_nat size) (N.to_nat size) [])) (λ r s', r = ROk (chunk size o D) ∧
    io_content s'.(sender_data) = D ∧ s'.(sender_net) = s.(sender_net)) s.
Proof.
  intros Hs Ho. eapply (sto_res_wp _ _ (chunk size o D) (λ d, io_content d = D)).
  - eapply wp_mono; [apply read_loop_ok; cbn; lia|]. intros r d [Hc ->]. cbn. rw Nat.sub_0_r Ho Hs. by rw Hc.
  - intros d Hd. by split_and!.
Qed.

Lemma send_chunk_post base v size o opt (s : Sender Wire) :
  is_committed v = true → opt.(snapshot_chunk_size) = Some size → sender_ok base o s →
  post (SendSnapshot.send_chunk (Net := wire_network env) v m opt (N.of_nat (length D)) o) (λ res s', match res with
    | ROk (Next o') => sender_ok base o' s'
    | ROk (Finished resp) => sender_ok base 0 s' ∧
        (ref_vote_gt (as_ref_vote resp.(sresp_vote)) (as_ref_vote v) = Done true ∨ delivered base v s'.(sender_net).(wire_node))
    | RErr _ => sender_ok base 0 s'
    end) s.
Proof.
  intros Hv Hsize [Hc Hw]. assert (∀ w o', wire_ok base o' w → wire_ok base 0 w) as H0 by (intros w o'; apply wire_ok_le; lia).
  rw /SendSnapshot.send_chunk. apply post_bind. intros c s1 [= _ <-].
  destruct c as [err|]; [apply post_ret; split; [done|by eapply H0]|].
  apply post_bind. eapply post_mono; [by apply wp_post, (seek_wp o)|]. intros res s1 (Hok & Hc1 & Hp1 & Hn1).
  destruct res as [p|e]; [|done]. apply post_bind, post_lift. rw Hsize. intros ? [= <-].
  apply post_bind. eapply post_mono; [by apply wp_post, (read_wp size o)|]. intros res s2 (-> & Hc2 & Hn2).
  assert (wire_ok base o s2.(sender_net)) as Hw2 by by rw Hn2 Hn1.
  set (req := Build_InstallSnapshotRequest _ _ _ _ _ _). assert (ours v size o req) as Hreq by done.
  apply post_bind. intros res s3 Hrun. rw /SendSnapshot.on_net /zoom in Hrun.
  destruct (net_install_snapshot req opt (sender_net s2)) as [[res' w']|] eqn:Hi; [|done]. injection Hrun as <- <-.
  destruct (wire_install_post base v size o req opt _ Hv Hreq Hw2 _ _ Hi) as [Hw3 Hans].
  destruct res' as [[resp|e]|]; last by apply post_ret.
  2:{ apply post_ret. split; [done|]. destruct e as [| | | |re]; try done. cbn. by destruct (remote_source re) as [[]|]; [eapply H0|]. }
  apply post_bind, post_lift. intros hi Hhi. cbn in Hhi. destruct (Hans resp eq_refl) as [Hgt|[Hok4 Hd]].
  - rw Hgt in Hhi. injection Hhi as <-. apply post_ret. split; [split; [done|by eapply H0]|]. by left.
  - destruct hi; [apply post_ret; split; [split; [done|by eapply H0]|by left]|].
    destruct (_ =? _)%N eqn:Hdone; apply post_ret; [|by split]. split; [split; [done|by eapply H0]|]. right. by apply Hd.
Qed.

Lemma send_loop_post base v size opt fuel o (s : Sender Wire) :
  is_committed v = true → opt.(snapshot_chunk_size) = Some size → sender_ok base o s →
  post (SendSnapshot.send_loop (Net := wire_network env) v m opt fuel (N.of_nat (length D)) o) (λ res s', sender_ok base 0 s' ∧
    ∀ resp, res = Some (ROk resp) → ref_vote_gt (as_ref_vote resp.(sresp_vote)) (as_ref_vote v) = Done true ∨
      delivered base v s'.(sender_net).(wire_node)) s.
Proof.
  intros Hv Hsize. revert o s. induction fuel as [|fuel IH]; intros o s Hs; cbn [SendSnapshot.send_loop].
  { apply post_ret. split; [|done]. destruct Hs as [Hc Hw]. split; [done|]. eapply wire_ok_le; [|exact Hw]. lia. }
  apply post_bind. eapply post_mono; [by apply (send_chunk_post base v size o opt)|]. intros res s1 H1.
  destruct res as [[resp|o']|e]; [|by apply IH|by apply post_ret]. apply post_ret. destruct H1 as [H1 Hd].
  split; [done|]. by intros resp' [= <-].
Qed.
End invariant.

Lemma seek_end_wp m (s : Sender Wire) :
  wp (SendSnapshot.sto_res m io_seek_end) (λ r s', r = ROk (N.of_nat (length (io_content s.(sender_data)))) ∧
    io_content s'.(sender_data) = io_content s.(sender_data) ∧ s'.(sender_net) = s.(sender_net)) s.
Proof.
  eapply (sto_res_wp m _ _ (N.of_nat (length (io_content s.(sender_data))))
           (λ d, io_content d = io_content s.(sender_data))); [apply io_seek_end_ok|].
  intros d Hd. by split_and!.
Qed.

(** The whole of [send_snapshot]. *)
Lemma send_snapshot_exact m v size opt fuel (s : Sender Wire) res s' :
  begins_empty → is_committed v = true → opt.(snapshot_chunk_size) = Some size →
  stream_fits m (io_content s.(sender_data)) 0 s.(sender_net).(wire_node) → fates_ok m s.(sender_net).(wire_fates) →
  SendSnapshot.send_snapshot (Net := wire_network env) v m opt fuel s = Done (res, s') →
  stream_fits m (io_content s.(sender_data)) 0 s'.(sender_net).(wire_node) ∧
  ∃ l, s'.(sender_net).(wire_node).(api_sent) = s.(sender_net).(wire_node).(api_sent) ++ l ∧
    Forall (exact_msg m (io_content s.(sender_data))) l ∧
    ∀ resp, res = Some (ROk resp) →
      ref_vote_gt (as_ref_vote resp.(sresp_vote)) (as_ref_vote v) = Done true ∨
      ∃ sn tx, Msg_InstallFullSnapshot v sn tx ∈ l ∧ sn.(meta) = m.
Proof.
  intros Hempty Hv Hsize Hfits Hfates Hrun. set (base := api_sent (wire_node (sender_net s))).
  destruct (proj1 (wp_elim _ _ _) (seek_end_wp m s)) as (r & s1 & Hseek & -> & Hc & Hn).
  rw /SendSnapshot.send_snapshot (st_bind_run _ _ _ _ _ Hseek) in Hrun.
  assert (sender_ok m (io_content (sender_data s)) base 0 s1) as Hs1.
  { split; [done|]. rw Hn. split; [|done]. split; [done|]. exists []. by rw app_nil_r. }
  destruct (send_loop_post m _ Hempty base v size opt fuel 0 s1 Hv Hsize Hs1 _ _ Hrun) as [(_ & [Hf (l & Hl & Hex)] & _) Hres].
  split; [done|]. exists l. split_and!; [done|done|]. intros resp Hresp.
  destruct (Hres resp Hresp) as [Hgt|(l' & sn & tx & Hl' & Hin & Hm)]; [by left|]. right.
  rw Hl in Hl'. apply app_inv_head in Hl' as ->. by exists sn, tx.
Qed.

(** C18: a snapshot that is sent in chunks over a network that loses requests and answers, while the
    target also receives chunks of other snapshots, and RaftCore of the target may stop at any time.
    Whatever the fates of the RPCs: every snapshot with the id of the sent one that the target hands to
    its RaftCore has the meta data and exactly the bytes of the sent one; and when [send_snapshot]
    returns without having seen a higher vote, the target has handed it over.  The state of the
    receiving stream it leaves is one a next transmission of the same snapshot can start from. *)
Theorem snapshot_transfer_exact m v size opt fuel (s : Sender Wire) res s' :
  begins_empty → is_committed v = true → opt.(snapshot_chunk_size) = Some size →
  stream_fits m (io_content s.(sender_data)) 0 s.(sender_net).(wire_node) → fates_ok m s.(sender_net).(wire_fates) →
  SendSnapshot.send_snapshot (Net := wire_network env) v m opt fuel s = Done (res, s') →
  stream_fits m (io_content s.(sender_data)) 0 s'.(sender_net).(wire_node) ∧
  ∃ l, s'.(sender_net).(wire_node).(api_sent) = s.(sender_net).(wire_node).(api_sent) ++ l ∧
    Forall (exact_msg m (io_content s.(sender_data))) l ∧
    ∀ resp, res = Some (ROk resp) →
      ref_vote_gt (as_ref_vote resp.(sresp_vote)) (as_ref_vote v) = Done true ∨
      ∃ sn tx, Msg_InstallFullSnapshot v sn tx ∈ l ∧ sn.(meta) = m.
Proof. apply send_snapshot_exact. Qed.

(** *** Completion *)
Lemma or_fatal_run {A E} (n : ST Raft (Result A Fatal)) a r r' :
  n r = Done (ROk a, r') → RaftInner.or_fatal (E := E) n r = Done (ROk a, r').
Proof. intros Hn. by rw /RaftInner.or_fatal (st_bind_run _ _ _ _ _ Hn). Qed.

(** The target runs, and follows the sender or nobody newer. *)
Record serving (v : Vote) : Prop := {
  sv_open k : env.(api_open) k = true;
  sv_state k : ∃ st, env.(re_state) k = Some st ∧ vote_le (RaftState.vote_ref st) v;
  sv_begin k : ∃ d, env.(re_begin) k = Some (ROk d);
  sv_install k : ∃ resp, env.(re_install) k = Some (ROk resp) ∧ vote_le resp.(sresp_vote) v;
}.

Lemma vote_le_compat (a b : Vote) : vote_le a b → vote_compat b a.
Proof.
  intros [Hlt| ->] Hb Ha; [|by rw lid_cmp_refl]. revert Hlt.
  rw /vote_lt /vote_cmp (lid_cmp_opp (vote_leader_id a) (vote_leader_id b)) Ha Hb.
  by destruct (lid_partial_cmp (vote_leader_id a) (vote_leader_id b)).
Qed.

Lemma vote_le_ge_run (a b : Vote) : vote_le b a → ref_vote_ge (as_ref_vote a) (as_ref_vote b) = Done true.
Proof.
  intros Hle. rw /ref_vote_ge (partial_cmp_spec _ _ (vote_le_compat _ _ Hle)) /=. f_equal. by apply vote_ge_cmp.
Qed.

Lemma vote_le_not_gt (a b : Vote) : vote_le a b → ref_vote_gt (as_ref_vote a) (as_ref_vote b) = Done false.
Proof.
  intros Hle. assert (vote_compat a b) as Hc by (intros Ha Hb; intros Hn; apply (vote_le_compat _ _ Hle Hb Ha);
    by rw (lid_cmp_opp (vote_leader_id a)) Hn).
  rw /ref_vote_gt (partial_cmp_spec _ _ Hc) /=. f_equal. destruct (pcmp_gt (vote_cmp a b)) eqn:E; [|done].
  apply vote_gt_cmp in E. destruct Hle as [Hlt| ->]; [|by apply vote_lt_irrefl in E].
  by destruct (vote_lt_irrefl a (vote_lt_trans _ _ _ Hlt E)).
Qed.

Section completion.
Context (v : Vote) (Hserve : serving v).

Lemma read_state_run {V} (f : RaftState.RaftState → V) r :
  ∃ st, env.(re_state) r.(api_calls) = Some st ∧ vote_le (RaftState.vote_ref st) v ∧
    Raft.with_raft_state env f r = Done (ROk (f st), after_send r (Msg_ExternalCoreRequest (N.of_nat r.(api_calls)))).
Proof.
  destruct (sv_state _ Hserve r.(api_calls)) as (st & Hst & Hle). exists st. split_and!; [done..|].
  rw /Raft.with_raft_state /RaftInner.try_send /RaftInner.interact /mbind /st_bind /mbind /st_bind /=.
  by rw (sv_open _ Hserve) /= Hst.
Qed.

Lemma begin_run r :
  ∃ d, Raft.begin_receiving_snapshot env r = Done (ROk d, after_send r (Msg_BeginReceivingSnapshot (N.of_nat r.(api_calls)))).
Proof.
  destruct (sv_begin _ Hserve r.(api_calls)) as [d Hd]. exists d. rw /Raft.begin_receiving_snapshot.
  by rw /try_bind (st_bind_run _ _ _ _ _ (call_core_reply env _ _ r d (sv_open _ Hserve _) Hd)).
Qed.

Lemma install_run sn r :
  ∃ resp, vote_le resp.(sresp_vote) v ∧ ∀ u, Raft.install_full_snapshot env u sn r =
    Done (ROk resp, after_send r (Msg_InstallFullSnapshot u sn (N.of_nat r.(api_calls)))).
Proof.
  destruct (sv_install _ Hserve r.(api_calls)) as (resp & Hr & Hle). exists resp. split; [done|]. intros u.
  rw /Raft.install_full_snapshot. by rw (st_bind_run _ _ _ _ _ (call_core_reply env _ _ r resp (sv_open _ Hserve _) Hr)).
Qed.

Context (Hempty : begins_empty) (m : SnapshotMeta) (D : list byte).

(** The target takes a chunk at [o]: it starts a stream, or one of this snapshot is open. *)
Definition ready (o : N) (r : Raft) : Prop := o = 0%N ∨ is_open m r.

Lemma begin_stream_run req r :
  req.(isr_offset) = 0%N → ∃ r', Chunked.begin_stream env req r = Done (ROk tt, r').
Proof using Hserve.
  intros H0. rw /Chunked.begin_stream H0 /=. destruct (begin_run r) as [d Hd].
  eexists. by rw (st_bind_run _ _ _ _ _ Hd).
Qed.

Lemma receive_snapshot_returns base size o req r :
  ours m D v size o req → node_ok m D base o r → ready o r →
  wp (Chunked.receive_snapshot env req) (λ res r', node_ok m D base (after_chunk D size o) r' ∧
    if req.(isr_done) then ∃ sn, res = ROk (Some sn) ∧ sn.(meta) = m ∧ snapshot_content sn = D
    else res = ROk None ∧ is_open m r') r.
Proof using Hserve Hempty.
  intros Hreq Hok Hready. pose proof (or_meta _ _ _ _ _ _ Hreq) as Hm.
  assert (∀ r1 s, r1.(inner_snapshot) = Some s → s.(streaming_id) = m.(snapshot_id) → stream_ok D o s →
    sent_exact m D base r1 →
    wp (_ ←? Chunked.storage (Chunked.on_streaming (Streaming.receive req)); finish req)
      (λ res r', node_ok m D base (after_chunk D size o) r' ∧
         if req.(isr_done) then ∃ sn, res = ROk (Some sn) ∧ sn.(meta) = m ∧ snapshot_content sn = D
         else res = ROk None ∧ is_open m r') r1) as Hopen.
  { intros r1 s Hr Hid Hs Hsent. eapply wp_mono; [by eapply receive_open|]. by intros res r' (? & _ & _ & ?). }
  rw /Chunked.receive_snapshot. apply wp_bind, wp_get, wp_bind. case_bool_decide as Hcur.
  - apply wp_ret. destruct (inner_snapshot r) as [s|] eqn:Hr; [|done]. injection Hcur as Hid. rw Hm in Hid.
    apply (Hopen r s); [done|done| |apply Hok]. by apply (proj1 Hok).
  - assert (o = 0%N) as ->.
    { destruct Hready as [|(s & Hs & Hid)]; [done|]. destruct Hcur. by rw Hs /= /Streaming.snapshot_id Hid Hm. }
    destruct (begin_stream_run req r (or_offset _ _ _ _ _ _ Hreq)) as [r' Hrun].
    destruct (begin_stream_ok m D Hempty base 0%N req r (proj2 Hok)) with (ROk tt : Result unit (RaftError InstallSnapshotError)) r'
      as (Hsent & Hopened & _); [|done|done|].
    { intros s Hs Heq. apply Hcur. by rw Hs /= /Streaming.snapshot_id Heq. }
    destruct (Hopened eq_refl) as (_ & s & Hr & Hid & Hs). rw Hm in Hid.
    apply wp_elim. eexists _, r'. split; [exact Hrun|]. by apply (Hopen r' s).
Qed.

Lemma ready_dec o r : ready o r ∨ o ≠ 0%N ∧ ¬ is_open m r.
Proof.
  rw /ready /is_open. destruct (decide (o = 0%N)); [by left; left|]. destruct (inner_snapshot r) as [s|] eqn:Hs.
  - destruct (decide (s.(streaming_id) = m.(snapshot_id))); [by left; right; exists s|].
    right. split; [done|]. by intros (s' & [= <-] & ?).
  - right. split; [done|]. by intros (s' & ? & _).
Qed.

Lemma receive_snapshot_mismatch size o req r :
  ours m D v size o req → o ≠ 0%N → ¬ is_open m r →
  Chunked.receive_snapshot env req r = Done (RErr (Chunked.mismatch m.(snapshot_id) o), r).
Proof.
  intros Hreq H0 Hno. rw /Chunked.receive_snapshot. rw (st_bind_run st_get _ r r r eq_refl) bool_decide_false.
  { rw (or_meta _ _ _ _ _ _ Hreq). intros Hid. apply Hno. destruct (inner_snapshot r) as [s|] eqn:Hs; [|done].
    injection Hid as Hid. by exists s. }
  rw /Chunked.begin_stream (or_offset _ _ _ _ _ _ Hreq) (or_meta _ _ _ _ _ _ Hreq).
  by apply N.eqb_neq in H0 as ->.
Qed.

(** What the target does with a chunk: takes it, or reports a mismatch when it is not ready. *)
Definition taken (size o : N) (done : bool) (r : Raft) (res : Result InstallSnapshotResponse (RaftError InstallSnapshotError))
    (r' : Raft) : Prop :=
  (∃ resp, res = ROk resp ∧ vote_le resp.(iresp_vote) v ∧ (done = false → is_open m r')) ∨
  o ≠ 0%N ∧ ¬ is_open m r ∧ res = RErr (Chunked.mismatch m.(snapshot_id) o).

Lemma install_ours_returns base size o req r :
  ours m D v size o req → node_ok m D base o r →
  wp (Chunked.install_snapshot env req) (taken size o req.(isr_done) r) r.
Proof using Hserve Hempty.
  intros Hreq Hok. rw /Chunked.install_snapshot.
  destruct (read_state_run RaftState.vote_ref r) as (st & _ & Hle & Hrun). set (r1 := after_send r _) in *.
  assert (node_ok m D base o r1) as Hok1.
  { eapply frame_ok; [|exact Hok]. split; [done|]. eexists. split; [done|]. by constructor. }
  assert (is_open m r1 ↔ is_open m r) as Hopen by done.
  apply wp_bind. eapply wp_of_run; [exact (or_fatal_run _ _ _ _ Hrun)|].
  apply wp_bind, wp_lift with true; [rw (or_vote _ _ _ _ _ _ Hreq); by apply vote_le_ge_run|]. cbn [negb].
  destruct (ready_dec o r1) as [Hready|[H0 Hno]]; last first.
  { apply wp_bind. eapply wp_of_run; [exact (receive_snapshot_mismatch size o req r1 Hreq H0 Hno)|]. right. by split_and!. }
  apply wp_bind. eapply wp_mono; [by apply (receive_snapshot_returns base size o)|]. intros res r2 [_ Hres].
  destruct (isr_done req).
  - destruct Hres as (sn & -> & _). destruct (install_run sn r2) as (resp & Hrle & Hi).
    apply wp_bind. eapply wp_of_run; [exact (or_fatal_run _ _ _ _ (Hi (isr_vote req)))|]. left. by eexists.
  - destruct Hres as [-> Ho]. left. by eexists.
Qed.

(** Any request is answered. *)
Lemma receive_returns req s : wp (Streaming.receive req) (λ _ _, True) s.
Proof.
  assert (∀ A (n : ST SnapshotData (Result A string)) verb s0, wp n (λ _ _, True) s0.(streaming_data) →
    wp (Streaming.io req verb n) (λ _ _, True) s0) as Hio.
  { intros A n verb s0 Hn. by apply wp_bind, wp_zoom, (wp_mono _ _ _ _ Hn). }
  rw /Streaming.receive. apply wp_bind, wp_get, wp_bind. apply wp_mono with (λ _ _, True); last first.
  - intros [u|e] s1 _; [|done]. apply wp_bind. eapply wp_mono; [apply Hio, io_write_returns|]. by intros [w|e] s2 _.
  - destruct (_ =? _)%N; [done|]. apply wp_bind. eapply wp_mono; [apply Hio|].
    + eapply wp_mono; [apply io_seek_start_ok|]. done.
    + by intros [p|e] s1 _.
Qed.

Lemma receive_snapshot_any req r : wp (Chunked.receive_snapshot env req) (λ _ _, True) r.
Proof using Hserve Laws.
  assert (∀ r1, is_Some r1.(inner_snapshot) →
    wp (_ ←? Chunked.storage (Chunked.on_streaming (Streaming.receive req)); finish req) (λ _ _, True) r1) as Hopen.
  { intros r1 [s Hs]. apply wp_bind, wp_bind. rw /wp /Chunked.on_streaming Hs.
    pose proof (receive_returns req s) as Hr. rw /wp in Hr. destruct (Streaming.receive req s) as [[res s']|]; [|done].
    destruct res as [b|e]; [|done]. cbn. rw /finish. destruct (isr_done req); [|done]. cbn.
    rw /try_bind /mbind /st_bind /= /Chunked.storage /mbind /st_bind /Chunked.shut.
    pose proof (io_shutdown_ok (Streaming.into_snapshot_data s')) as Hd. rw /wp in Hd.
    destruct (io_shutdown _) as [[[u|e] d]|]; done. }
  rw /Chunked.receive_snapshot. apply wp_bind, wp_get, wp_bind. case_bool_decide as Hcur.
  - apply wp_ret. apply Hopen. by destruct (inner_snapshot r).
  - rw /Chunked.begin_stream. destruct (N.eqb_spec (isr_offset req) 0); cbn [negb]; [|done].
    destruct (begin_run r) as [d Hd]. apply wp_bind. eapply wp_of_run; [exact Hd|].
    by apply (Hopen (set_inner_snapshot _ (Some (Streaming.new _ d)))).
Qed.

Lemma install_any req r :
  (∀ k st, env.(re_state) k = Some st → vote_compat req.(isr_vote) (RaftState.vote_ref st)) →
  wp (Chunked.install_snapshot env req) (λ _ _, True) r.
Proof using Hserve Laws.
  intros Hc. rw /Chunked.install_snapshot. destruct (read_state_run RaftState.vote_ref r) as (st & Hst & _ & Hrun).
  apply wp_bind. eapply wp_of_run; [exact (or_fatal_run _ _ _ _ Hrun)|].
  destruct (ref_vote_ge_run _ _ (Hc _ _ Hst)) as (b & Hb & _). apply wp_bind, wp_lift with b; [done|].
  destruct b; cbn [negb]; [|done]. apply wp_bind. eapply wp_mono; [apply receive_snapshot_any|]. intros [[sn|]|e] r2 _; [|done..].
  destruct (install_run sn r2) as (resp & _ & Hi). apply wp_bind. by eapply wp_of_run; [exact (or_fatal_run _ _ _ _ (Hi (isr_vote req)))|].
Qed.

(** The transmission is not canceled, and the other senders' votes can be compared. *)
Definition fates_serve (fates : list Fate) : Prop :=
  Forall (λ f, f.(cancel) = None ∧
    Forall (λ q, ∀ k st, env.(re_state) k = Some st → vote_compat q.(isr_vote) (RaftState.vote_ref st)) f.(others)) fates.

Lemma next_fate_run w :
  fates_serve w.(wire_fates) → fates_ok m w.(wire_fates) →
  ∃ f, next_fate w = Done (f, {| wire_node := w.(wire_node); wire_fates := tail w.(wire_fates) |}) ∧
    Forall (λ q, q.(isr_meta).(snapshot_id) ≠ m.(snapshot_id)) f.(others) ∧
    Forall (λ q, ∀ k st, env.(re_state) k = Some st → vote_compat q.(isr_vote) (RaftState.vote_ref st)) f.(others) ∧
    (w.(wire_fates) = [] → f.(others) = [] ∧ f.(delivery) = Answered).
Proof.
  intros Hs Ho. rw /next_fate. destruct w as [r fates]. cbn in *. destruct fates as [|f fates].
  - eexists. split_and!; [done|constructor|constructor|done].
  - inversion Hs as [|? ? [_ ?]]. inversion Ho. by exists f.
Qed.

Lemma others_returns base o l r :
  Forall (λ q, q.(isr_meta).(snapshot_id) ≠ m.(snapshot_id)) l →
  Forall (λ q, ∀ k st, env.(re_state) k = Some st → vote_compat q.(isr_vote) (RaftState.vote_ref st)) l →
  node_ok m D base o r →
  wp (st_for l (λ other, _ ← Chunked.install_snapshot env other; mret tt)) (λ _, node_ok m D base o) r.
Proof using Hserve Hempty Laws.
  intros Hid Hc Hr.
  apply (wp_for l _ (λ l r, node_ok m D base o r ∧ Forall (λ q, q.(isr_meta).(snapshot_id) ≠ m.(snapshot_id)) l ∧
    Forall (λ q, ∀ k st, env.(re_state) k = Some st → vote_compat q.(isr_vote) (RaftState.vote_ref st)) l));
    [done| |by intros s []].
  intros q l' r1 (Hr1 & Hid1 & Hc1). inversion Hid1; inversion Hc1; subst. apply wp_bind.
  eapply wp_mono; [apply wp_and; [by apply install_any|by apply (install_others m D Hempty base o)]|].
  intros res r2 [_ Hr2]. by apply wp_ret.
Qed.

Lemma wp_on_node {A} (n : ST Raft A) (Q : A → Wire → Prop) w :
  wp n (λ a r, Q a (set_node w r)) w.(wire_node) → wp (on_node n) Q w.
Proof. apply wp_zoom. Qed.

Lemma wire_install_returns base size o req opt w :
  ours m D v size o req → wire_ok m D base o w → fates_serve w.(wire_fates) →
  wp (wire_install env req opt) (λ res w', w'.(wire_fates) = tail w.(wire_fates) ∧
    (∀ resp, res = Some (ROk resp) → vote_le resp.(iresp_vote) v) ∧
    (w.(wire_fates) = [] → ∃ target res0, res = answer target res0 ∧
       taken size o req.(isr_done) w.(wire_node) res0 w'.(wire_node))) w.
Proof using Hserve Hempty Laws.
  intros Hreq [Hn Hf] Hs. destruct (next_fate_run w Hs Hf) as (f & Hrun & Hid & Hc & Hnil).
  apply wp_bind. eapply wp_of_run; [exact Hrun|]. apply wp_bind, wp_on_node. cbn [wire_node].
  destruct (decide (wire_fates w = [])) as [Hw|Hw].
  - destruct (Hnil Hw) as [-> ->]. apply wp_ret, wp_bind, wp_on_node.
    eapply wp_mono; [by apply (install_ours_returns base size o)|]. intros res r2 Ht. apply wp_bind, wp_get, wp_ret.
    split_and!; [done| |intros _; by eexists _, res]. intros resp. destruct res as [a|e]; [|done]. intros [= <-].
    destruct Ht as [(? & [= <-] & ? & _)|(_ & _ & ?)]; done.
  - eapply wp_mono; [by apply (others_returns base o)|]. intros [] r2 Hr2.
    assert (∀ e : option (RPCError Empty_set), ∀ resp : InstallSnapshotResponse,
      lost (E := RaftError InstallSnapshotError) e = Some (ROk resp) → vote_le resp.(iresp_vote) v) as Hlost by by intros [].
    destruct (delivery f) as [|e|e]; [..|by apply wp_ret; split_and!; [|exact (Hlost e)|intros Hw'; by destruct Hw]]; apply wp_bind, wp_on_node;
      (eapply wp_mono; [by apply (install_ours_returns base size o)|]); intros res r3 Ht.
    + apply wp_bind, wp_get, wp_ret. split_and!; [done| |intros Hw'; by destruct Hw]. intros resp. destruct res as [a|e]; [|done]. intros [= <-].
      destruct Ht as [(? & [= <-] & ? & _)|(_ & _ & ?)]; done.
    + apply wp_ret. by split_and!; [|exact (Hlost e)|intros Hw'; by destruct Hw].
Qed.

(** How an iteration moves the transmission on: one RPC, and when no faults are left, a full chunk, a
    restart of a stream that is not open, or the end. *)
Definition progressed (size o : N) (s : Sender Wire) (out : ChunkOutcome) (s' : Sender Wire) : Prop :=
  s'.(sender_net).(wire_fates) = tail s.(sender_net).(wire_fates) ∧
  match out with
  | Finished resp => vote_le resp.(sresp_vote) v
  | Next o' => (N.to_nat o' ≤ length D) ∧
      (s.(sender_net).(wire_fates) = [] →
       o' = 0%N ∧ ¬ ready o s.(sender_net).(wire_node) ∨
       N.to_nat o' = N.to_nat o + N.to_nat size ∧ is_open m s'.(sender_net).(wire_node))
  end.

Lemma chunk_length size o : length (chunk size o D) = N.to_nat size `min` (length D - N.to_nat o).
Proof. by rw /chunk length_take length_drop. Qed.

Lemma send_chunk_returns base size o opt (s : Sender Wire) :
  opt.(snapshot_chunk_size) = Some size → sender_ok m D base o s → fates_serve s.(sender_net).(wire_fates) →
  N.to_nat o ≤ length D →
  wp (SendSnapshot.send_chunk (Net := wire_network env) v m opt (N.of_nat (length D)) o)
    (λ res s', ∃ out, res = ROk out ∧ progressed size o s out s') s.
Proof using Hserve Hempty Laws.
  intros Hsize [Hc Hw] Hs Ho. rw /SendSnapshot.send_chunk. apply wp_bind.
  apply wp_zoom, wp_gets.
  assert (∀ f l, wire_fates (sender_net s) = f :: l → cancel f = None) as Hcancel.
  { intros f l Hf. rw Hf in Hs. by inversion Hs as [|? ? [? _]]. }
  assert ((match wire_fates (sender_net s) with f :: _ => cancel f | [] => None end) = None) as ->.
  { destruct (wire_fates (sender_net s)) as [|f l]; [done|]. by eapply Hcancel. }
  apply wp_bind. eapply wp_mono; [by apply (seek_wp m D o)|]. intros res s1 (Hok & Hc1 & Hp1 & Hn1).
  destruct res as [p|e]; [|done]. apply wp_bind, wp_lift with size; [by rw Hsize|].
  apply wp_bind. eapply wp_mono; [by apply (read_wp m D size o)|]. intros res s2 (-> & Hc2 & Hn2).
  set (req := Build_InstallSnapshotRequest _ _ _ _ _ _). assert (ours m D v size o req) as Hreq by done.
  assert (sender_net s2 = sender_net s) as Hnet by by rw Hn2 Hn1 /SendSnapshot.set_net; destruct s.
  apply wp_bind, wp_zoom. eapply wp_mono; [apply (wire_install_returns base size o req opt); [done|by rw Hnet|by rw Hnet]|].
  rw Hnet. intros res w (Hfates & Hvote & Hans). pose proof (chunk_length size o) as Hlen.
  destruct res as [[resp|e]|].
  - apply wp_bind, wp_lift with false; [by apply vote_le_not_gt, Hvote|].
    change (isr_done req) with (o + N.of_nat (length (chunk size o D)) =? N.of_nat (length D))%N in Hans.
    destruct (N.eqb_spec (o + N.of_nat (length (chunk size o D))) (N.of_nat (length D))) as [Hd|Hd]; apply wp_ret;
      eexists; (split; [done|]); (split; [done|]); [by apply Hvote|].
    split; [lia|]. intros Hnil. right. destruct (Hans Hnil) as (tg & res0 & Hres & Ht).
    destruct Ht as [(resp' & -> & _ & Hop)|(_ & _ & ->)]; [|done]. split; [lia|by apply Hop].
  - apply wp_ret. eexists. split; [done|]. split; [done|]. split.
    { rw /SendSnapshot.next_offset. destruct e as [| | | |re]; try lia. destruct (remote_source re) as [[]|]; lia. }
    intros Hnil. left. destruct (Hans Hnil) as (tg & res0 & Hres & Ht).
    destruct Ht as [(resp' & -> & _)|(H0 & Hno & ->)]; [done|]. injection Hres as ->. split; [done|]. by intros [|].
  - apply wp_ret. eexists. split; [done|]. split; [done|]. split; [lia|]. intros Hnil.
    by destruct (Hans Hnil) as (tg & res0 & Hres & _).
Qed.

Lemma fates_serve_tail fates : fates_serve fates → fates_serve (tail fates).
Proof. intros H. destruct fates; [done|]. by inversion H. Qed.

(** Iterations that are enough without faults, from an offset the target is ready for. *)
Definition rounds (size o : N) : nat := (length D - N.to_nat o) / N.to_nat size.

Lemma rounds_step size o o' :
  (0 < size)%N → N.to_nat o' ≤ length D → N.to_nat o' = N.to_nat o + N.to_nat size →
  rounds size o = S (rounds size o').
Proof.
  intros Hsize Hle Ho. rw /rounds. replace (length D - N.to_nat o) with (length D - N.to_nat o' + 1 * N.to_nat size) by lia.
  rw Nat.div_add; lia.
Qed.

Lemma rounds_0 size o : (0 < size)%N → rounds size o ≤ rounds size 0.
Proof. intros Hsize. apply Nat.Div0.div_le_mono. lia. Qed.

(** [fuel] iterations are enough from here. *)
Definition enough (size o : N) (fuel : nat) (s : Sender Wire) : Prop :=
  length s.(sender_net).(wire_fates) + rounds size 0 + 2 ≤ fuel ∨
  s.(sender_net).(wire_fates) = [] ∧ ready o s.(sender_net).(wire_node) ∧ rounds size o < fuel.

Lemma enough_step size o fuel (s s' : Sender Wire) o' :
  (0 < size)%N → enough size o (S fuel) s → progressed size o s (Next o') s' → enough size o' fuel s'.
Proof.
  intros Hsize He (Hf & Ho' & Hnil). rw /enough Hf. pose proof (rounds_0 size o Hsize) as H0.
  destruct (wire_fates (sender_net s)) as [|f fates] eqn:Hw; cbn [tail].
  - right. split; [done|]. destruct (Hnil eq_refl) as [[-> Hno]|[Hstep Hop]].
    + split; [by left|]. destruct He as [He|(_ & Hr & _)]; [cbn in He; lia|done].
    + split; [by right|]. rw (rounds_step size o o' Hsize Ho' Hstep) in H0.
      destruct He as [He|(_ & _ & He)]; [rw Hw in He; cbn in He|rw (rounds_step size o o' Hsize Ho' Hstep) in He]; lia.
  - left. destruct He as [He|(He & _)]; [|by rw Hw in He]. rw Hw in He. cbn in He. lia.
Qed.

Lemma send_loop_returns base size opt fuel o (s : Sender Wire) :
  (0 < size)%N → is_committed v = true → opt.(snapshot_chunk_size) = Some size → sender_ok m D base o s →
  fates_serve s.(sender_net).(wire_fates) → N.to_nat o ≤ length D → enough size o fuel s →
  wp (SendSnapshot.send_loop (Net := wire_network env) v m opt fuel (N.of_nat (length D)) o)
    (λ res _, ∃ resp, res = Some (ROk resp) ∧ vote_le resp.(sresp_vote) v) s.
Proof using Hserve Hempty Laws.
  intros Hsize Hv Hopt. revert o s. induction fuel as [|fuel IH]; intros o s Hs Hf Ho He.
  { destruct He as [He|(_ & _ & He)]; lia. }
  cbn [SendSnapshot.send_loop]. apply wp_bind. eapply wp_mono.
  { apply wp_and; [by apply (send_chunk_returns base size o opt)|].
    by apply (send_chunk_post m D Hempty base v size o opt). }
  intros res s1 [(out & -> & Hp) Hpost]. destruct out as [resp|o'].
  - apply wp_ret. exists resp. split; [done|apply Hp].
  - apply IH; [done| |apply Hp|by eapply enough_step]. rw (proj1 Hp). by apply fates_serve_tail.
Qed.
End completion.

(** C19: sending a snapshot comes to an end.  When the target runs and knows of no vote above the
    sender's, and the transmission is not canceled, [send_snapshot] returns success after at most one
    iteration per RPC that goes wrong, one per chunk and two more, and the target has then handed the
    sent snapshot, byte for byte, to its RaftCore. *)
Theorem snapshot_transfer_completes m v size opt fuel (s : Sender Wire) :
  begins_empty → serving v → (0 < size)%N → is_committed v = true → opt.(snapshot_chunk_size) = Some size →
  stream_fits m (io_content s.(sender_data)) 0 s.(sender_net).(wire_node) →
  fates_ok m s.(sender_net).(wire_fates) → fates_serve s.(sender_net).(wire_fates) →
  length s.(sender_net).(wire_fates) + length (io_content s.(sender_data)) / N.to_nat size + 2 ≤ fuel →
  ∃ resp s' l, SendSnapshot.send_snapshot (Net := wire_network env) v m opt fuel s = Done (Some (ROk resp), s') ∧
    s'.(sender_net).(wire_node).(api_sent) = s.(sender_net).(wire_node).(api_sent) ++ l ∧
    ∃ sn tx, Msg_InstallFullSnapshot v sn tx ∈ l ∧ sn.(meta) = m ∧ snapshot_content sn = io_content s.(sender_data).
Proof.
  intros Hempty Hserve Hsize Hv Hopt Hfits Hfates Hserves Hfuel. set (D := io_content (sender_data s)).
  set (base := api_sent (wire_node (sender_net s))).
  destruct (proj1 (wp_elim _ _ _) (seek_end_wp m s)) as (r & s1 & Hseek & -> & Hc & Hn).
  rw /SendSnapshot.send_snapshot (st_bind_run _ _ _ _ _ Hseek).
  assert (sender_ok m D base 0 s1) as Hs1.
  { split; [done|]. rw Hn. split; [|done]. split; [done|]. exists []. by rw app_nil_r. }
  destruct (proj1 (wp_elim _ _ _) (wp_and _ _ _ _
    (send_loop_returns v Hserve Hempty m D base size opt fuel 0 s1 Hsize Hv Hopt Hs1 ltac:(by rw Hn) ltac:(lia)
       ltac:(left; rw Hn /rounds Nat.sub_0_r; exact Hfuel))
    (send_loop_post m D Hempty base v size opt fuel 0 s1 Hv Hopt Hs1)))
    as (res & s' & Hrun & (resp & -> & Hle) & [(_ & [_ (l & Hl & Hex)] & _) Hres]).
  exists resp, s', l. split_and!; [exact Hrun|done|].
  destruct (Hres resp eq_refl) as [Hgt|(l' & sn & tx & Hl' & Hin & Hm)]; [by rw (vote_le_not_gt _ _ Hle) in Hgt|].
  rw Hl in Hl'. apply app_inv_head in Hl' as <-. exists sn, tx. split_and!; [done|done|].
  rw Forall_forall in Hex. apply (Hex _ Hin). by rw Hm.
Qed.
End transport.

(** ** [std::io::Cursor<Vec<u8>>], and scenarios *)
Definition DataConfig (S : Type) : RaftTypeConfig := {|
  D := unit; R := unit; Node := unit; SnapshotData := S;
  LeaderId := LeaderIdAdv.LeaderId; CommittedLeaderId := LeaderIdAdv.LeaderId;
|}.

Record Cursor := { cursor_inner : list byte; cursor_pos : N }.

Module Cursor.
Definition new (inner : list byte) : Cursor := {| cursor_inner := inner; cursor_pos := 0 |}.
Definition at_pos (c : Cursor) (p : N) : Cursor := {| cursor_inner := c.(cursor_inner); cursor_pos := p |}.
(** Writing behind the end fills the gap with zeros. *)
Definition write (b : list byte) (c : Cursor) : Cursor :=
  let p := N.to_nat c.(cursor_pos) in
  {| cursor_inner := take p (c.(cursor_inner) ++ replicate (p - length c.(cursor_inner)) Byte.x00) ++ b ++
                     drop (p + length b) c.(cursor_inner);
     cursor_pos := c.(cursor_pos) + N.of_nat (length b) |}.

Definition seek_end : ST Cursor (Result N string) := λ c,
  let n := N.of_nat (length c.(cursor_inner)) in Done (ROk n, at_pos c n).
Definition seek_start (o : N) : ST Cursor (Result N string) := λ c, Done (ROk o, at_pos c o).
Definition read_buf (room : nat) : ST Cursor (Result (list byte) string) := λ c,
  let b := take room (drop (N.to_nat c.(cursor_pos)) c.(cursor_inner)) in
  Done (ROk b, at_pos c (c.(cursor_pos) + N.of_nat (length b))).
Definition write_all (b : list byte) : ST Cursor (Result unit string) := λ c, Done (ROk tt, write b c).
Definition shutdown : ST Cursor (Result unit string) := λ c, Done (ROk tt, c).
End Cursor.

#[local] Instance CursorConfig : RaftTypeConfig := DataConfig Cursor.
#[local] Instance cursor_io : SnapshotIO := {|
  io_seek_end := Cursor.seek_end; io_seek_start := Cursor.seek_start; io_read_buf := Cursor.read_buf;
  io_write_all := Cursor.write_all; io_shutdown := Cursor.shutdown;
|}.

#[local] Program Instance cursor_laws : SnapshotIOLaws := {|
  io_content := cursor_inner; io_pos := cursor_pos;
|}.
Next Obligation. done. Qed.
Next Obligation. done. Qed.
Next Obligation.
  intros room c. eexists. split_and!; [done..| | |]; cbn.
  - rw length_take. lia.
  - rw length_take. set (l := drop _ _). destruct (Nat.le_gt_cases room (length l)).
    + by rw Nat.min_l.
    + rw Nat.min_r; [lia|]. rw (take_ge l room); [lia|]. by rw firstn_all.
  - intros Hb. apply (f_equal length) in Hb. rw length_take length_drop in Hb. cbn in *. lia.
Qed.
Next Obligation.
  intros b c Hp. split_and!; [done..|]. cbn in *. f_equal. by rw (proj2 (Nat.sub_0_le _ _)) ?app_nil_r //; lia.
Qed.
Next Obligation. done. Qed.
Next Obligation. done. Qed.

Definition ut_vote : Vote := Vote_new_committed 1 1.
Definition ut_snapshot_meta (id : string) : SnapshotMeta :=
  {| meta_last_log_id := None; last_membership := SnapshotMeta.default.(last_membership); snapshot_id := id |}.
Definition ut_bytes : list byte := [Byte.x01; Byte.x02; Byte.x03; Byte.x04; Byte.x05].

(** A running target, which begins every snapshot with an empty cursor. *)
Definition transport_env : ApiEnv := {|
  api_open := λ _, true; task_end := Join_Ok (RErr Fatal_Stopped);
  re_append := λ _, None; re_vote := λ _, None; re_get_snapshot := λ _, None;
  re_begin := λ _, Some (ROk (Cursor.new []));
  re_install := λ _, Some (ROk {| sresp_vote := ut_vote |});
  re_check_leader := λ _, None; re_initialize := λ _, None; re_client := λ _, None; re_revert := λ _, None;
  re_state := λ _, Some RaftState.default; re_metrics := λ _, (new_initial 2, 0%N, []) |}.

Definition transport_node : Raft := {|
  inner_id := 2; inner_config := ut_core_config; core_task := Core_Running; joiner_dropped := false;
  has_tx_shutdown := true; inner_snapshot := None; api_sent := []; api_calls := 0 |}.

Definition other_request : InstallSnapshotRequest := {|
  isr_vote := ut_vote; isr_meta := ut_snapshot_meta "other"; isr_offset := 0; isr_data := [Byte.xff]; isr_done := false |}.

(** The first request is lost, the answer to the second too, and another snapshot comes in before the third. *)
Definition ut_fates : list Fate := [
  {| cancel := None; others := []; delivery := RequestLost None |};
  {| cancel := None; others := []; delivery := AnswerLost (Some (RPCError_Network "reset")) |};
  {| cancel := None; others := []; delivery := Answered |};
  {| cancel := None; others := [other_request]; delivery := Answered |} ].

Definition ut_sender : Sender Wire := {|
  sender_data := Cursor.new ut_bytes; sender_net := {| wire_node := transport_node; wire_fates := ut_fates |} |}.
Definition ut_option : RPCOption := {| hard_ttl := 100; snapshot_chunk_size := Some 2%N |}.

Lemma transport_serving : serving transport_env ut_vote.
Proof.
  split; intros k; [done| | |].
  - exists RaftState.default. split; [done|]. left. by vm_compute.
  - by eexists.
  - eexists. split; [done|]. by right.
Qed.

Lemma ut_fates_ok : fates_ok (ut_snapshot_meta "snap") ut_fates ∧ fates_serve transport_env ut_fates.
Proof. split; repeat constructor; try done; intros k st [= <-]; by vm_compute. Qed.

(** The offsets that the target sees: a mismatch starts the transmission over. *)
Example ut_transfer_runs : ∃ s',
  SendSnapshot.send_snapshot (Net := wire_network transport_env) ut_vote (ut_snapshot_meta "snap") ut_option 8 ut_sender =
    Done (Some (ROk {| sresp_vote := ut_vote |}), s') ∧
  list.last s'.(sender_net).(wire_node).(api_sent) =
    Some (Msg_InstallFullSnapshot ut_vote {| meta := ut_snapshot_meta "snap";
      snapshot_data := {| cursor_inner := ut_bytes; cursor_pos := 5 |} |} 10).
Proof. eexists. split; vm_compute; reflexivity. Qed.

Lemma snapshot_transfer_completes_witness :
  ∃ resp s' l, SendSnapshot.send_snapshot (Net := wire_network transport_env) ut_vote (ut_snapshot_meta "snap") ut_option 8
      ut_sender = Done (Some (ROk resp), s') ∧
    s'.(sender_net).(wire_node).(api_sent) = [] ++ l ∧
    ∃ sn tx, Msg_InstallFullSnapshot ut_vote sn tx ∈ l ∧ sn.(meta) = ut_snapshot_meta "snap" ∧ snapshot_content sn = ut_bytes.
Proof.
  destruct ut_fates_ok as [Hf Hs].
  destruct (snapshot_transfer_completes transport_env (ut_snapshot_meta "snap") ut_vote 2 ut_option 8 ut_sender)
    as (resp & s' & l & Hrun & Hl & sn & tx & Hin & Hm & Hc);
    [by intros k d [= <-]|exact transport_serving|done|done|done|done|exact Hf|exact Hs|vm_compute; lia|].
  exists resp, s', l. split; [exact Hrun|]. split; [exact Hl|]. exists sn, tx. split; [exact Hin|].
  split; [exact Hm|exact Hc].
Defined.

(** Three iterations: the transmission is still running. *)
Definition ut_sender_3 : Sender Wire :=
  match SendSnapshot.send_snapshot (Net := wire_network transport_env) ut_vote (ut_snapshot_meta "snap") ut_option 3 ut_sender with
  | Done (_, s') => s'
  | Panic _ => ut_sender
  end.
Lemma ut_run_3 :
  SendSnapshot.send_snapshot (Net := wire_network transport_env) ut_vote (ut_snapshot_meta "snap") ut_option 3 ut_sender =
    Done (None, ut_sender_3).
Proof. vm_compute. reflexivity. Qed.

Lemma snapshot_transfer_exact_witness :
  ∃ l, ut_sender_3.(sender_net).(wire_node).(api_sent) = ut_sender.(sender_net).(wire_node).(api_sent) ++ l ∧
    Forall (exact_msg (ut_snapshot_meta "snap") (io_content ut_sender.(sender_data))) l.
Proof.
  destruct (snapshot_transfer_exact transport_env (ut_snapshot_meta "snap") ut_vote 2 ut_option 3 ut_sender None ut_sender_3)
    as (_ & l & Hl & Hex & _); [by intros k d [= <-]|done|done|done|exact (proj1 ut_fates_ok)|exact ut_run_3|].
  exists l. split; [exact Hl|exact Hex].
Defined.

(** *** Chunks out of order *)

Definition ut_chunk (o : N) (b : list byte) (done : bool) : InstallSnapshotRequest := {|
  isr_vote := ut_vote; isr_meta := ut_snapshot_meta "snap"; isr_offset := o; isr_data := b; isr_done := done |}.

Definition install_all (l : list InstallSnapshotRequest) : ST Raft unit :=
  st_for l (λ req, _ ← Chunked.install_snapshot transport_env req; mret tt).

(** [receive] does not compare the offset of a chunk with what it has written.  The last chunk of a
    transmission is delayed, another snapshot makes the sender start over, and the delayed chunk
    arrives after the first chunk of the new attempt: a snapshot with a hole is handed to RaftCore. *)
Theorem late_chunk_leaves_hole : ∃ r',
  install_all [ut_chunk 0 [Byte.x01; Byte.x02] false; ut_chunk 2 [Byte.x03; Byte.x04] false; other_request;
               ut_chunk 0 [Byte.x01; Byte.x02] false; ut_chunk 4 [Byte.x05] true] transport_node = Done (tt, r') ∧
  list.last r'.(api_sent) = Some (Msg_InstallFullSnapshot ut_vote {| meta := ut_snapshot_meta "snap";
    snapshot_data := {| cursor_inner := [Byte.x01; Byte.x02; Byte.x00; Byte.x00; Byte.x05]; cursor_pos := 5 |} |} 8).
Proof. eexists. split; vm_compute; reflexivity. Qed.

(** *** A write that fails *)

(** A file whose next write fails after [k] bytes when [fault] is [Some k]. *)
Record FaultyFile := { file : Cursor; fault : option nat }.

Module FaultyFile.
Definition on_file {A} (n : ST Cursor A) : ST FaultyFile A :=
  zoom file (λ f c, {| file := c; fault := f.(fault) |}) n.
Definition write_all (b : list byte) : ST FaultyFile (Result unit string) := λ f,
  match f.(fault) with
  | None => on_file (Cursor.write_all b) f
  | Some k => Done (RErr "no space left on device", {| file := Cursor.write (take k b) f.(file); fault := None |})
  end.
End FaultyFile.

Section faulty.
#[local] Instance FaultyConfig : RaftTypeConfig := DataConfig FaultyFile.
#[local] Instance faulty_io : SnapshotIO := {|
  io_seek_end := FaultyFile.on_file Cursor.seek_end; io_seek_start := λ o, FaultyFile.on_file (Cursor.seek_start o);
  io_read_buf := λ room, FaultyFile.on_file (Cursor.read_buf room); io_write_all := FaultyFile.write_all;
  io_shutdown := FaultyFile.on_file Cursor.shutdown;
|}.

Definition faulty_request : InstallSnapshotRequest := {|
  isr_vote := Vote_new_committed 1 1;
  isr_meta := {| meta_last_log_id := None; last_membership := SnapshotMeta.default.(last_membership); snapshot_id := "snap" |};
  isr_offset := 0; isr_data := ut_bytes; isr_done := true |}.

Definition faulty_env : ApiEnv := {|
  api_open := λ _, true; task_end := Join_Ok (RErr Fatal_Stopped);
  re_append := λ _, None; re_vote := λ _, None; re_get_snapshot := λ _, None;
  re_begin := λ _, Some (ROk {| file := Cursor.new []; fault := Some 2 |});
  re_install := λ _, Some (ROk {| sresp_vote := Vote_new_committed 1 1 |});
  re_check_leader := λ _, None; re_initialize := λ _, None; re_client := λ _, None; re_revert := λ _, None;
  re_state := λ _, Some RaftState.default; re_metrics := λ _, (new_initial 2, 0%N, []) |}.
Definition faulty_node : Raft := {|
  inner_id := 2; inner_config := ut_core_config; core_task := Core_Running; joiner_dropped := false;
  has_tx_shutdown := true; inner_snapshot := None; api_sent := []; api_calls := 0 |}.

(** After a write that fails half way [receive] keeps its offset, although the file is further; the
    sender sends the chunk again, its offset is the one expected, so [receive] does not seek: the
    bytes that were written are there twice, and the corrupt snapshot is handed to RaftCore. *)
Theorem failed_write_corrupts_retry : ∃ e r1 r2 resp,
  Chunked.install_snapshot faulty_env faulty_request faulty_node = Done (RErr (RaftError_Fatal e), r1) ∧
  Chunked.install_snapshot faulty_env faulty_request r1 = Done (ROk resp, r2) ∧
  list.last r2.(api_sent) = Some (Msg_InstallFullSnapshot (Vote_new_committed 1 1)
    {| meta := faulty_request.(isr_meta);
       snapshot_data := {| file := {| cursor_inner := take 2 ut_bytes ++ ut_bytes; cursor_pos := 7 |}; fault := None |} |} 3).
Proof. eexists _, _, _, _. split_and!; vm_compute; reflexivity. Qed.
End faulty.
