(* ===== verification/Network.v ===== *)
(** * The network interfaces (openraft/src/network/v1/, network/v2/)

    An application implements [RaftNetworkV1] or [RaftNetworkV2], the connection of one node to one target; both
    are classes over the state [W] of the connection.  [adapt_v1] is the blanket implementation of the second
    for an implementation of the first: it takes the fatal errors of the remote node for an unreachable one, and sends a
    snapshot in chunks.  What the documentation of [full_snapshot] promises is proved of it over the network of
    [SnapshotTransport] that loses messages. *)

From S2P Require Export SnapshotTransport.

(** ** [RaftNetwork]: [install_snapshot], and what it is waited for with, is the class of the snapshot transport. *)
Class RaftNetworkV1 {C : RaftTypeConfig} (W : Type) := {
  #[global] v1_install_snapshot :: RaftNetwork W;
  v1_append_entries : AppendEntriesRequest → RPCOption →
    ST W (Result AppendEntriesResponse (RPCError (RaftError Empty_set)));
  v1_vote : VoteRequest → RPCOption → ST W (Result VoteResponse (RPCError (RaftError Empty_set)));
  v1_backoff : W → Backoff;
}.

(** ** [RaftNetworkV2]: a snapshot is the concern of the application.  The future that cancels it is part of the
    connection; the result is [None] while the transmission goes on after [fuel] rounds. *)
Class RaftNetworkV2 {C : RaftTypeConfig} (W : Type) := {
  append_entries : AppendEntriesRequest → RPCOption → ST W (Result AppendEntriesResponse (RPCError Empty_set));
  vote : VoteRequest → RPCOption → ST W (Result VoteResponse (RPCError Empty_set));
  full_snapshot : nat → Vote → Snapshot → RPCOption →
    ST W (option (Result SnapshotResponse StreamingError));
  transfer_leader : TransferLeaderRequest → RPCOption → ST W (Result unit (RPCError Empty_set));
  backoff : W → Backoff;
}.

(** [RaftNetworkFactory], with its state [F]: a connection to a node of the cluster. *)
Class RaftNetworkFactory {C : RaftTypeConfig} (F W : Type) `{!RaftNetworkV2 W} := {
  new_client : NodeId → Node → ST F W;
}.

(** The methods with a default body. *)
Module Defaults.
Section ops.
Context {C : RaftTypeConfig} {W : Type}.
Definition transfer_leader (_req : TransferLeaderRequest) (_option : RPCOption) : ST W (Result unit (RPCError Empty_set)) :=
  mret (RErr (RPCError_Unreachable "transfer_leader not implemented")).
Definition backoff (_ : W) : Backoff := Backoff.constant.
End ops.
End Defaults.

(** ** The adapter (network/v2/adapt_v1.rs) *)
Module AdaptV1.
Section ops.
Context {C : RaftTypeConfig} {IO : SnapshotIO} {W : Type} {V1 : RaftNetworkV1 W}.
(** How a fatal error is formatted. *)
Context (show : Fatal → string).

Definition decompose_infallible {T} (r : Result T (RPCError (RaftError Empty_set))) : Result T (RPCError Empty_set) :=
  into_ok (decompose_rpc_error show r).

Definition append_entries (rpc : AppendEntriesRequest) (option_ : RPCOption) :
    ST W (Result AppendEntriesResponse (RPCError Empty_set)) :=
  r ← v1_append_entries rpc option_; mret (decompose_infallible r).
Definition vote (rpc : VoteRequest) (option_ : RPCOption) : ST W (Result VoteResponse (RPCError Empty_set)) :=
  r ← v1_vote rpc option_; mret (decompose_infallible r).

(** [Chunked::send_snapshot] takes the snapshot; its data is dropped when it returns. *)
Definition full_snapshot (fuel : nat) (vote : Vote) (snapshot : Snapshot) (option_ : RPCOption) :
    ST W (option (Result SnapshotResponse StreamingError)) := λ w,
  match SendSnapshot.send_snapshot vote snapshot.(meta) option_ fuel {| sender_data := snapshot.(snapshot_data); sender_net := w |} with
  | Done (res, s) => Done (res, s.(sender_net))
  | Panic why => Panic why
  end.
Definition backoff (w : W) : Backoff := v1_backoff w.
End ops.
End AdaptV1.

Definition adapt_v1 {C : RaftTypeConfig} {IO : SnapshotIO} {W : Type} {V1 : RaftNetworkV1 W} (show : Fatal → string) :
    RaftNetworkV2 W := {|
  append_entries := AdaptV1.append_entries show; vote := AdaptV1.vote show; full_snapshot := AdaptV1.full_snapshot;
  transfer_leader := Defaults.transfer_leader; backoff := AdaptV1.backoff |}.

(** ** What the adapter makes of answers *)
Section adapter.
Context {C : RaftTypeConfig} {IO : SnapshotIO} {W : Type} {V1 : RaftNetworkV1 W} (show : Fatal → string).

(** An answer is passed on; a remote node that stopped is unreachable, so that the replication backs off. *)
Lemma adapt_append_entries rpc opt w res w' :
  v1_append_entries rpc opt w = Done (res, w') →
  append_entries (RaftNetworkV2 := adapt_v1 show) rpc opt w =
    Done (match res with
          | ROk resp => ROk resp
          | RErr (RPCError_RemoteError e) =>
              match e.(remote_source) with
              | RaftError_Fatal f => RErr (RPCError_Unreachable (show f))
              | APIError e => match e with end
              end
          | RErr (RPCError_Timeout e) => RErr (RPCError_Timeout e)
          | RErr (RPCError_Unreachable e) => RErr (RPCError_Unreachable e)
          | RErr (RPCError_PayloadTooLarge e) => RErr (RPCError_PayloadTooLarge e)
          | RErr (RPCError_Network e) => RErr (RPCError_Network e)
          end, w').
Proof.
  intros Hv. rw /= /AdaptV1.append_entries (st_bind_run _ _ _ _ _ Hv) /AdaptV1.decompose_infallible /mret /st_ret.
  do 2 f_equal. destruct res as [|[| | | |e]]; try done. by destruct e as [? ? [[]|]].
Qed.
End adapter.

(** ** [full_snapshot] keeps its promise

    "The snapshot should be completely transmitted and installed on the target node, or rejected because of
    [vote] being smaller than the remote one." *)
Section contract.
Context {C : RaftTypeConfig} {IO : SnapshotIO} {IOL : SnapshotIOLaws} (env : ApiEnv) (show : Fatal → string).
Context (V1 : RaftNetworkV1 Wire) (Hwire : @v1_install_snapshot _ _ V1 = wire_network env).

Lemma adapt_full_snapshot snapshot v size opt fuel (w : Wire) res w' :
  begins_empty env → is_committed v = true → opt.(snapshot_chunk_size) = Some size →
  stream_fits snapshot.(meta) (io_content snapshot.(snapshot_data)) 0 w.(wire_node) →
  fates_ok snapshot.(meta) w.(wire_fates) →
  full_snapshot (RaftNetworkV2 := adapt_v1 show) fuel v snapshot opt w = Done (res, w') →
  ∃ l, w'.(wire_node).(api_sent) = w.(wire_node).(api_sent) ++ l ∧
    Forall (exact_msg snapshot.(meta) (io_content snapshot.(snapshot_data))) l ∧
    ∀ resp, res = Some (ROk resp) →
      ref_vote_gt (as_ref_vote resp.(sresp_vote)) (as_ref_vote v) = Done true ∨
      ∃ sn tx, Msg_InstallFullSnapshot v sn tx ∈ l ∧ sn.(meta) = snapshot.(meta).
Proof using All.
  intros Hempty Hv Hsize Hfits Hfates. rw /= /AdaptV1.full_snapshot Hwire.
  destruct (SendSnapshot.send_snapshot _ _ _ _ _) as [[r s]|] eqn:Hrun; [|done]. intros [= <- <-].
  by destruct (send_snapshot_exact env snapshot.(meta) v size opt fuel
    {| sender_data := snapshot.(snapshot_data); sender_net := w |} r s Hempty Hv Hsize Hfits Hfates Hrun) as [_ Hex].
Qed.
End contract.
