(* ===== verification/StorageHelper.v ===== *)
(** * Loading the state of a node at startup (openraft/src/storage/helper.rs)

    [StorageHelper] reads the state of a node back from its log store and state machine: it re-applies
    the committed entries in chunks of 64, finds the last two membership configs by scanning the log
    backwards in steps of 64, cleans the log that a snapshot replaced, and loads the key log ids.
    The definitions run against any implementation of the traits of [Storage]; the theorems against
    any that satisfies their laws.  The loops take fuel; the callers give one round per entry, and
    the theorems show it is enough. *)

From S2P Require Export Storage.

Section stores.
Context {C : RaftTypeConfig} {LS SM : Type}.

(** [self.log_store] and [self.state_machine] *)
Definition on_log_store {A} (m : ST LS A) : ST (LS * SM) A := λ st,
  match m st.1 with Done (a, l) => Done (a, (l, st.2)) | Panic why => Panic why end.
Definition on_state_machine {A} (m : ST SM A) : ST (LS * SM) A := λ st,
  match m st.2 with Done (a, s) => Done (a, (st.1, s)) | Panic why => Panic why end.
End stores.

Module StorageHelper.
Section ops.
Context {C : RaftTypeConfig} {LS SM : Type}.
Context `{!RaftLogStorage.RaftLogStorage LS} `{!RaftStateMachine.RaftStateMachine SM}.
Notation IO A := (ST (LS * SM) (Result A StorageError)).

Definition reader {A} (f : LS → Outcome (Result A StorageError)) : IO A := on_log_store (st_reads f).
Definition applied_state : IO (option LogId * StoredMembership) :=
  on_state_machine (st_reads RaftStateMachine.applied_state).

(** [reapply_committed]: one iteration of the loop per unit of fuel. *)
Definition reapply_chunk_size : N := 64.
Definition reapply_error : string := "Failed to get log entries".
Fixpoint reapply_loop (fuel : nat) (start end_ : N) : IO unit :=
  match fuel with
  | O => lift (Panic "out of fuel")
  | S fuel =>
      if (start <? end_)%N then
        let chunk_end := N.min end_ (start + reapply_chunk_size) in
        entries ←? reader (λ s, RaftLogReader.try_get_log_entries s start chunk_end);
        let first := Entry.index <$> head entries in
        let last := Entry.index <$> list.last entries in
        if bool_decide (first ≠ Some start) then
          mret (RErr (StorageError.read_log_at_index start reapply_error))
        else
          last_expected ← lift (sub_u64 chunk_end 1);
          if bool_decide (last ≠ Some last_expected) then
            mret (RErr (StorageError.read_log_at_index last_expected reapply_error))
          else
            _ ←? on_state_machine (RaftStateMachine.apply entries);
            reapply_loop fuel chunk_end end_
      else mret (ROk tt)
  end.
Definition reapply_committed (start end_ : N) : IO unit := reapply_loop (S (N.to_nat (end_ - start))) start end_.

(** The inner loop of [last_membership_in_log] over one step of entries, last entry first. *)
Fixpoint scan_membership (rev_entries : list Entry) (res : list StoredMembership) : list StoredMembership :=
  match rev_entries with
  | [] => res
  | ent :: rest =>
      match Entry.get_membership ent with
      | Some mem =>
          let res := {| stored_log_id := Some (Entry.log_id ent); stored_membership_ := mem |} :: res in
          if (length res =? 2)%nat then res else scan_membership rest res
      | None => scan_membership rest res
      end
  end.

Definition scan_step : N := 64.
Fixpoint membership_loop (fuel : nat) (start end_ : N) (res : list StoredMembership) : IO (list StoredMembership) :=
  match fuel with
  | O => lift (Panic "out of fuel")
  | S fuel =>
      if (start <? end_)%N then
        let step_start := N.max start (saturating_sub end_ scan_step) in
        entries ←? reader (λ s, RaftLogReader.try_get_log_entries s step_start end_);
        let res := scan_membership (rev entries) res in
        if (length res =? 2)%nat then mret (ROk res)
        else membership_loop fuel start (saturating_sub end_ scan_step) res
      else mret (ROk res)
  end.

Definition last_membership_in_log (since_index : N) : IO (list StoredMembership) :=
  st ←? reader (λ s, RaftLogStorage.get_log_state s);
  let end_ := next_index st.(ls_last_log_id) in
  let start := N.max (next_index st.(ls_last_purged_log_id)) since_index in
  membership_loop (S (N.to_nat end_)) start end_ [].

Definition get_membership : IO MembershipState :=
  r ←? applied_state;
  let sm_mem := r.2 in
  log_mem ←? last_membership_in_log (next_index r.1);
  mret (ROk
    match log_mem with
    | [m0; m1] =>
        MembershipState.new (EffectiveMembership.new_from_stored_membership m0)
          (EffectiveMembership.new_from_stored_membership m1)
    | _ =>
        let effective :=
          match log_mem with
          | [] => EffectiveMembership.new_from_stored_membership sm_mem
          | m0 :: _ => EffectiveMembership.new_from_stored_membership m0
          end in
        MembershipState.new (EffectiveMembership.new_from_stored_membership sm_mem) effective
    end).

(** What [get_key_log_ids] does to the keys with the purged log id. *)
Definition add_purged (purged : option LogId) (log_ids : list LogId) : list LogId :=
  match log_ids, purged with
  | k :: t, Some purged =>
      if bool_decide (purged.(leader_id) = k.(leader_id)) then
        if (2 <=? length log_ids)%nat then purged :: t else purged :: log_ids
      else purged :: log_ids
  | _, _ => log_ids
  end.

Definition get_key_log_ids (purged last : option LogId) : IO LogIdList :=
  match last with
  | None => mret (ROk (LogIdList.new []))
  | Some last =>
      if bool_decide (opt_index purged = Some last.(index)) then mret (ROk (LogIdList.new [last]))
      else
        first ←? reader (λ s, RaftLogReader.get_log_id s (next_index purged));
        log_ids ←? reader (λ s, RaftLogReader.get_key_log_ids s first last);
        mret (ROk (LogIdList.new (add_purged purged log_ids)))
  end.

(** [now] is the clock [get_initial_state] reads. *)
Definition get_initial_state (now : Instant) : IO RaftState.RaftState :=
  vote ←? reader (λ s, RaftLogReader.read_vote s);
  let vote := from_option id Vote_default vote in
  committed ←? reader (λ s, RaftLogStorage.read_committed s);
  st ←? reader (λ s, RaftLogStorage.get_log_state s);
  r ←? applied_state;
  let last_applied := r.1 in
  let committed := if committed ≺? last_applied then last_applied else committed in
  last_applied ←? (if last_applied ≺? committed then
                     _ ←? reapply_committed (next_index last_applied) (next_index committed);
                     mret (ROk committed)
                   else mret (ROk last_applied));
  mem_state ←? get_membership;
  ids ←? (if st.(ls_last_log_id) ≺? last_applied then
            upto ← lift (unwrap last_applied "unwrap");
            _ ←? on_log_store (RaftLogStorage.purge upto);
            mret (ROk (last_applied, last_applied))
          else mret (ROk (st.(ls_last_purged_log_id), st.(ls_last_log_id))));
  let '(last_purged_log_id, last_log_id) := ids in
  log_id_list ←? get_key_log_ids last_purged_log_id last_log_id;
  snapshot ←? (snapshot ←? on_state_machine (st_reads RaftStateMachine.get_current_snapshot);
               match snapshot with
               | None =>
                   if bool_decide (last_purged_log_id ≠ None) then
                     s ←? on_state_machine RaftStateMachine.build_snapshot; mret (ROk (Some s))
                   else mret (ROk None)
               | Some s => mret (ROk (Some s))
               end);
  let snapshot_meta := from_option meta SnapshotMeta.default snapshot in
  io_state ← lift (IOState.new vote last_applied snapshot_meta.(meta_last_log_id) last_purged_log_id);
  mret (ROk {|
    RaftState.committed := last_applied;
    RaftState.vote := Leased.new now 0%N vote;
    RaftState.purged_next := next_index last_purged_log_id;
    RaftState.log_ids := log_id_list;
    RaftState.membership_state := mem_state;
    RaftState.snapshot_meta := snapshot_meta;
    RaftState.server_state := Learner;
    RaftState.io_state := io_state;
    RaftState.purge_upto := last_purged_log_id |}).
End ops.
End StorageHelper.

(** ** Running the operations of a lawful store *)
Section laws.
Context {C : RaftTypeConfig} {LS SM : Type}.
Context `{!RaftLogStorage.RaftLogStorage LS, !LogStoreLaws LS}.
Context `{!RaftStateMachine.RaftStateMachine SM, !StateMachineLaws SM}.
Import StorageHelper.
Implicit Types st : LS * SM.

(** The errors that starting up may report: those of the store and of the state machine. *)
Definition boot_error (e : StorageError) : Prop := log_error (LS := LS) e ∨ sm_error (SM := SM) e.

Definition stores_inv st : Prop := log_inv st.1 ∧ sm_inv st.2.
Definition view st : LogView := log_view st.1.
Definition sm_of st : Sv (SM := SM) := sm_view st.2.

Lemma wpr_reader {A} (f : LS → Outcome (Result A StorageError)) (P : A → Prop) Q st :
  wpr log_error (st_reads f) (λ a _, P a) st.1 → (∀ a, P a → Q a st) → wpr boot_error (reader f) Q st.
Proof.
  rw /wpr /wp /reader /on_log_store /st_reads. destruct (f st.1) as [[a|e]|]; [|by left|done].
  intros Ha HQ. destruct st. by apply HQ.
Qed.

Lemma wpr_sm_reader {A} (f : SM → Outcome (Result A StorageError)) (P : A → Prop) Q st :
  wpr sm_error (st_reads f) (λ a _, P a) st.2 → (∀ a, P a → Q a st) →
  wpr boot_error (on_state_machine (st_reads f)) Q st.
Proof.
  rw /wpr /wp /on_state_machine /st_reads. destruct (f st.2) as [[a|e]|]; [|by right|done].
  intros Ha HQ. destruct st. by apply HQ.
Qed.

Lemma wpr_log_store {A} (m : ST LS (Result A StorageError)) (P : A → LS → Prop) Q st :
  wpr log_error m P st.1 → (∀ a l, P a l → Q a (l, st.2)) → wpr boot_error (on_log_store m) Q st.
Proof.
  rw /wpr /wp /on_log_store. destruct (m st.1) as [[[a|e] l]|]; [|by left|done]. intros Ha HQ. by apply HQ.
Qed.

Lemma wpr_state_machine {A} (m : ST SM (Result A StorageError)) (P : A → SM → Prop) Q st :
  wpr sm_error m P st.2 → (∀ a s, P a s → Q a (st.1, s)) → wpr boot_error (on_state_machine m) Q st.
Proof.
  rw /wpr /wp /on_state_machine. destruct (m st.2) as [[[a|e] l]|]; [|by right|done]. intros Ha HQ. by apply HQ.
Qed.

(** ** Re-applying the committed entries *)
Lemma sv_applied_foldl x es :
  sv_applied (SM := SM) (foldl sm_step x es) =
    match list.last es with Some e => Some (Entry.log_id e) | None => sv_applied x end.
Proof. induction es as [|e es IH] using rev_ind; [done|]. by rw foldl_snoc last_snoc sv_applied_law. Qed.

(** The read of a chunk is what the loop expects. *)
Lemma read_ends v a b :
  log_ok v → (next_index v.(lv_purged) ≤ a)%N → (a < b)%N → (b ≤ next_index (LogSpec.last_log_id v))%N →
  (Entry.index <$> head (LogSpec.read v a b)) = Some a ∧
  (Entry.index <$> list.last (LogSpec.read v a b)) = Some (b - 1)%N.
Proof.
  intros Hok Ha Hab Hb. split.
  - destruct (log_total v Hok a) as [e He]; [lia..|]. rw (read_cons v a b e) //=.
    by rw (lo_index v Hok _ _ He).
  - rw last_lookup (read_length v Hok a b) // (read_lookup v Hok a b); [lia..|].
    replace (a + N.of_nat (Init.Nat.pred (N.to_nat (b - a))))%N with (b - 1)%N by lia.
    destruct (log_total v Hok (b - 1)) as [e He]; [lia..|]. rw He /=. by rw (lo_index v Hok _ _ He).
Qed.

Lemma reapply_loop_run fuel a b st :
  stores_inv st → log_ok (view st) → (next_index (view st).(lv_purged) ≤ a)%N → (a ≤ b)%N →
  (b ≤ next_index (LogSpec.last_log_id (view st)))%N → N.to_nat (b - a) < fuel →
  wpr boot_error (reapply_loop fuel a b)
    (λ _ st', stores_inv st' ∧ st'.1 = st.1 ∧ sm_snapshot st'.2 = sm_snapshot st.2 ∧
              sm_of st' = foldl sm_step (sm_of st) (LogSpec.read (view st) a b)) st.
Proof.
  intros Hi Hok. revert a st Hi Hok. induction fuel as [|fuel IH]; intros a st Hi Hok Ha Hab Hb Hf; [lia|].
  cbn [reapply_loop]. destruct (N.ltb_spec a b) as [Hlt|Hge].
  - set (ce := N.min b (a + reapply_chunk_size)). assert (a < ce ∧ ce ≤ b)%N as [Hce1 Hce2].
    { rw /ce /reapply_chunk_size. lia. }
    apply wpr_try. eapply wpr_reader; [apply get_entries_law; [apply Hi|lia]|]. intros es ->.
    change (log_view st.1) with (view st). destruct (read_ends (view st) a ce) as [-> ->]; [done|lia..|].
    rw (bool_decide_eq_false_2 (Some a ≠ Some a)); [by intros []|].
    apply wpr_bind. apply (wp_lift (sub_u64 ce 1) (ce - 1)%N).
    { rw /sub_u64. by destruct (N.leb_spec 1 ce); [|lia]. }
    rw (bool_decide_eq_false_2 (Some (ce - 1)%N ≠ Some (ce - 1)%N)); [by intros []|].
    apply wpr_try. eapply wpr_state_machine; [apply apply_law, Hi|].
    intros r s (Hs & _ & Hv & Hsn). eapply wpr_mono; [apply IH|]; cbn [fst snd].
    + split; [apply Hi|done].
    + done.
    + change (view (st.1, s)) with (view st). lia.
    + done.
    + done.
    + lia.
    + cbn. intros _ st' (Hi' & Hl & Hsn' & Hv'). split_and!; [done..|by rw Hsn'|]. rw Hv'.
      rw (read_split (view st) a ce b); [lia..|]. rw foldl_app. change (sm_of (st.1, s)) with (sm_view s).
      change (view (st.1, s)) with (view st). by rw Hv.
  - apply wpr_ret. split_and!; [done..|]. assert (a = b) as -> by lia.
    by rw /LogSpec.read /LogSpec.range N.sub_diag.
Qed.

(** *** The last two membership configs *)

(** The membership configs of the entries [es]. *)
Definition stored_of (e : Entry) : option StoredMembership :=
  (λ m, {| stored_log_id := Some (Entry.log_id e); stored_membership_ := m |}) <$> Entry.get_membership e.
Definition memberships (es : list Entry) : list StoredMembership := omap stored_of es.
Definition last_two {A} (l : list A) : list A := drop (length l - 2) l.

Lemma last_two_app {A} (l l' : list A) : 2 ≤ length l' → last_two (l ++ l') = last_two l'.
Proof.
  intros Hl. rw /last_two length_app. replace (length l + length l' - 2) with (length l + (length l' - 2)) by lia.
  by rw drop_app_add.
Qed.
Lemma last_two_short {A} (l : list A) : length l ≤ 2 → last_two l = l.
Proof. intros Hl. rw /last_two. by replace (length l - 2) with 0 by lia. Qed.
Lemma last_two_length {A} (l : list A) : length (last_two l) = Nat.min 2 (length l).
Proof. rw /last_two length_drop. lia. Qed.

Lemma scan_membership_spec es res :
  length res < 2 → scan_membership (rev es) res = last_two (memberships es ++ res).
Proof.
  revert res. induction es as [|e es IH] using rev_ind; intros res Hres; [symmetry; apply last_two_short; cbn; lia|].
  rw rev_app_distr /=. rw /memberships omap_app /= {2}/stored_of.
  destruct (Entry.get_membership e) as [m|]; cbn [fmap option_fmap option_map].
  - rw -app_assoc. cbn [app]. destruct (Nat.eqb_spec (length res) 1) as [Heq|Hne].
    + rw last_two_app; [cbn; lia|]. rw last_two_short; [cbn; lia|done].
    + rw IH; [cbn; lia|done].
  - rw app_nil_r. by apply IH.
Qed.

Lemma last_two_absorb {A} (l l' : list A) : last_two (l ++ last_two l') = last_two (l ++ l').
Proof.
  destruct (decide (length l' ≤ 2)) as [Hl|Hl]; [by rw (last_two_short l')|].
  rw last_two_app; [rw last_two_length; lia|]. rw last_two_app; [lia|].
  apply last_two_short. rw last_two_length. lia.
Qed.

Lemma membership_loop_run fuel a b b0 res st :
  stores_inv st → (b ≤ b0)%N → (a ≤ b0)%N → N.to_nat b < fuel → length res < 2 →
  res = last_two (memberships (LogSpec.read (view st) (N.max a b) b0)) →
  wpr boot_error (membership_loop fuel a b res)
    (λ r st', st' = st ∧ r = last_two (memberships (LogSpec.read (view st) a b0))) st.
Proof.
  intros Hi Hb Ha. revert b res Hb. induction fuel as [|fuel IH]; intros b res Hb Hf Hres Heq; [lia|].
  cbn [membership_loop]. destruct (N.ltb_spec a b) as [Hlt|Hge].
  - set (ss := N.max a (saturating_sub b scan_step)). assert (a ≤ ss ∧ ss < b)%N as [Hss1 Hss2].
    { rw /ss /saturating_sub /scan_step. lia. }
    apply wpr_try. eapply wpr_reader; [apply get_entries_law; [apply Hi|lia]|]. intros es ->.
    change (log_view st.1) with (view st). rw scan_membership_spec //.
    replace (N.max a b) with b in Heq by lia.
    assert (last_two (memberships (LogSpec.read (view st) ss b) ++ res) =
            last_two (memberships (LogSpec.read (view st) ss b0))) as ->.
    { rw Heq last_two_absorb (read_split (view st) ss b b0); [lia..|]. by rw /memberships omap_app. }
    destruct (Nat.eqb_spec (length (last_two (memberships (LogSpec.read (view st) ss b0)))) 2) as [H2|H2].
    + apply wpr_ret. split; [done|]. rw last_two_length in H2.
      rw (read_split (view st) a ss b0); [lia..|]. rw /memberships omap_app last_two_app //.
      rw /memberships in H2. lia.
    + apply IH; [rw /saturating_sub; lia|rw /saturating_sub /scan_step; lia| |done].
      rw last_two_length in H2 |- *. lia.
  - apply wpr_ret. split; [done|]. by replace (N.max a b) with a in Heq by lia.
Qed.

(** The config in effect and the one before it, when the entries after those the state machine has
    applied hold the configs [ms]. *)
Definition boot_memberships (sm_mem : StoredMembership) (ms : list StoredMembership) :
    StoredMembership * StoredMembership :=
  match last_two (sm_mem :: ms) with
  | [m0; m1] => (m0, m1)
  | _ => (sm_mem, sm_mem)
  end.

Lemma get_membership_run st :
  stores_inv st →
  let v := view st in
  let '(committed, effective) :=
    boot_memberships (sv_membership (sm_of st))
      (memberships (LogSpec.read v (N.max (next_index v.(lv_purged)) (next_index (sv_applied (sm_of st))))
         (next_index (LogSpec.last_log_id v)))) in
  wpr boot_error get_membership
    (λ r st', st' = st ∧
       r = MembershipState.new (EffectiveMembership.new_from_stored_membership committed)
             (EffectiveMembership.new_from_stored_membership effective)) st.
Proof.
  intros Hi v. set (a := N.max _ _). set (ms := memberships _).
  destruct (boot_memberships _ ms) as [cm ef] eqn:Hbm.
  rw /get_membership /applied_state. apply wpr_try.
  eapply wpr_sm_reader; [apply applied_state_law, Hi|]. intros r ->. cbn [fst snd].
  apply wpr_try. rw /last_membership_in_log. apply wpr_try.
  eapply wpr_reader; [apply get_log_state_law, Hi|]. intros ls ->. cbn [ls_last_log_id ls_last_purged_log_id].
  change (log_view st.1) with v. change (sv_applied (sm_view st.2)) with (sv_applied (sm_of st)). fold a.
  set (b := next_index (LogSpec.last_log_id v)).
  assert (wpr boot_error (membership_loop (S (N.to_nat b)) a b [])
            (λ r st', st' = st ∧ r = last_two ms) st) as Hloop.
  { destruct (decide (a ≤ b)%N) as [Hab|Hab].
    - apply membership_loop_run; [done|done|done|lia|cbn; lia|].
      replace (N.max a b) with b by lia. by rw /LogSpec.read /LogSpec.range N.sub_diag.
    - assert (ms = []) as ->.
      { rw /ms /LogSpec.read /LogSpec.range. fold b. by replace (b - a)%N with 0%N by lia. }
      cbn [membership_loop]. destruct (N.ltb_spec a b); [lia|]. by apply wpr_ret. }
  eapply wpr_mono; [exact Hloop|]. intros r st' [-> ->]. apply wpr_ret. split; [done|].
  rw /boot_memberships in Hbm. change (sv_membership (sm_view st.2)) with (sv_membership (sm_of st)).
  clear Hloop. clearbody ms.
  destruct ms as [|m0 ms]; [by injection Hbm as <- <-|].
  destruct ms as [|m1 ms]; [by injection Hbm as <- <-|].
  change (sv_membership (sm_of st) :: m0 :: m1 :: ms) with ([sv_membership (sm_of st)] ++ m0 :: m1 :: ms) in Hbm.
  rw last_two_app in Hbm; [cbn; lia|].
  assert (length (last_two (m0 :: m1 :: ms)) = 2) as Hlen by (rw last_two_length /=; lia).
  destruct (last_two (m0 :: m1 :: ms)) as [|x [|y [|]]]; try done. by injection Hbm as <- <-.
Qed.

(** *** The key log ids *)
Lemma add_purged_keys p k l :
  LogIdList.keys_wf l = true → head l = Some k → k.(index) = (p.(index) + 1)%N →
  p.(leader_id) ⪯ k.(leader_id) →
  LogIdList.keys_wf (add_purged (Some p) l) = true ∧ head (add_purged (Some p) l) = Some p ∧
  ∀ i, LogIdList.read (add_purged (Some p) l) i = if (i =? p.(index))%N then Some p else LogIdList.read l i.
Proof.
  intros Hwf Hh Hk Hle. destruct l as [|k' t]; [done|]. injection Hh as ->.
  assert (∀ i, LogId_new p.(leader_id) i = p ↔ i = p.(index)) as Hp.
  { intros i. split; [by intros <-|intros ->]. by destruct p. }
  assert (p.(index) < k.(index))%N as Hlt by lia.
  assert ((p.(leader_id) ≠ k.(leader_id) ∨ t = []) →
    LogIdList.keys_wf (p :: k :: t) = true ∧
    ∀ i, LogIdList.read (p :: k :: t) i = if (i =? p.(index))%N then Some p else LogIdList.read (k :: t) i) as Hins.
  { intros Hor. split.
    - cbn [LogIdList.keys_wf]. apply andb_true_iff. split; [|exact Hwf]. apply andb_true_iff.
      split; [by apply N.ltb_lt|]. destruct t; [by apply leb_le|]. apply ltb_lt.
      destruct Hor as [Hne|]; [|done]. by apply ole_lt_eq in Hle as [?|?].
    - intros i. cbn [LogIdList.read]. destruct (N.ltb_spec i p.(index)), (N.eqb_spec i p.(index)); try lia.
      + destruct (N.ltb_spec i k.(index)); [done|lia].
      + f_equal. by apply Hp.
      + destruct (N.ltb_spec i k.(index)); [lia|done]. }
  cbn [add_purged length]. destruct (bool_decide_reflect (p.(leader_id) = k.(leader_id))) as [Heq|Hne];
    [destruct t as [|k' t]|]; cbn [Nat.leb length]; [destruct (Hins (or_intror eq_refl)); done| |
      destruct (Hins (or_introl Hne)); done].
  split_and!; [| done|].
  - cbn [LogIdList.keys_wf] in Hwf |- *. rw Heq. apply andb_true_iff in Hwf as [Hwf Hwf'].
    apply andb_true_iff. split; [|done]. apply andb_true_iff in Hwf as [Hi Hl]. apply andb_true_iff. split; [|done].
    apply N.ltb_lt in Hi. apply N.ltb_lt. lia.
  - intros i. cbn [LogIdList.read]. rw Heq.
    destruct (N.ltb_spec i p.(index)), (N.eqb_spec i p.(index)), (N.ltb_spec i k.(index)); try lia; try done.
    + f_equal. rw -Heq. by apply Hp.
    + destruct (N.eqb_spec i k.(index)) as [-> |]; [|done]. destruct (N.ltb_spec k.(index) k'.(index)) as [|Hge]; [done|].
      cbn [LogIdList.keys_wf] in Hwf. apply andb_true_iff in Hwf as [[Hi _]%andb_true_iff _]. apply N.ltb_lt in Hi. lia.
Qed.

Lemma get_log_id_run v st i e :
  stores_inv st → v = view st → v.(lv_log) !! i = Some e →
  wpr log_error (st_reads (λ s, RaftLogReader.get_log_id s i)) (λ x _, x = Entry.log_id e) st.1.
Proof.
  intros Hi -> He. pose proof (get_entries_law st.1 i (i + 1) (proj1 Hi) ltac:(lia)) as Hr.
  rw /wpr /wp /st_reads /RaftLogReader.get_log_id /mbind /outcome_bind in Hr |- *.
  destruct (RaftLogReader.try_get_log_entries st.1 i (i + 1)) as [[es|e']|]; [|done..].
  change (log_view st.1) with (view st) in Hr. rw (read_cons _ i (i + 1) e) in Hr; [lia|done|]. by rw Hr.
Qed.

(** The leader that wrote the entry [i]. *)
Definition lead_of v (i : N) : CommittedLeaderId :=
  match LogSpec.ref v i with Some x => x.(leader_id) | None => clid_default (LID := LeaderId) end.

Lemma ref_lead v i x : log_ok v → LogSpec.ref v i = Some x → x = LogId_new (lead_of v i) i.
Proof. intros Hok Hx. rw /lead_of Hx. rewrite -(ref_at_index v Hok _ _ Hx). by destruct x. Qed.

Lemma stored_log_id_run v st i e :
  stores_inv st → v = view st → v.(lv_log) !! i = Some e →
  RaftLogReader.stored_log_id st.1 i = ROk (Entry.log_id e) ∨
  ∃ e', RaftLogReader.stored_log_id st.1 i = RErr (inr e') ∧ log_error (LS := LS) e'.
Proof.
  intros Hi Hv He. pose proof (get_log_id_run v st i e Hi Hv He) as Hr.
  rw /wpr /wp /st_reads in Hr. rw /RaftLogReader.stored_log_id.
  destruct (RaftLogReader.get_log_id st.1 i) as [[x|e']|]; [left; by rw Hr|right; eauto|done].
Qed.

(** Loading the keys from a store that may fail gives what the store that does not fail gives, or one
    of the failures. *)
Lemma key_loop_fallible {E} (sto sto' : N → Result LogId E) (P : E → Prop) fuel stack res :
  (∀ i, sto i = sto' i ∨ ∃ e, sto i = RErr e ∧ P e) →
  LogIdList.key_loop sto fuel stack res = LogIdList.key_loop sto' fuel stack res ∨
  ∃ e, LogIdList.key_loop sto fuel stack res = Some (RErr e) ∧ P e.
Proof.
  intros Hs. revert stack res. induction fuel as [|fuel IH]; intros stack res; [by left|]. cbn [LogIdList.key_loop].
  destruct stack as [|[f l] stack]; [by left|]. destruct (bool_decide _); [apply IH|].
  destruct (_ =? _)%N; [apply IH|].
  destruct (Hs ((f.(index) + l.(index)) / 2)%N) as [-> |(e & -> & He)]; [|by right; eauto].
  destruct (sto' _) as [mid|e]; [|by left].
  destruct (bool_decide (_ = mid.(leader_id))); [apply IH|]. destruct (bool_decide _); apply IH.
Qed.

Lemma load_keys_run st (a b : N) (x y : LogId) :
  let v := view st in
  stores_inv st → log_ok v → (next_index v.(lv_purged) ≤ a)%N → (a ≤ b)%N →
  LogSpec.ref v a = Some x → LogSpec.ref v b = Some y →
  wpr log_error (st_reads (λ s, RaftLogReader.get_key_log_ids s x y))
    (λ res _, LogIdList.keys_wf res = true ∧ head res = Some x ∧
       ∀ i, LogIdList.read res i = if ((a <=? i) && (i <=? b))%N then LogSpec.ref v i else None) st.1.
Proof.
  intros v Hi Hok Ha Hab Hx Hy. set (lead := lead_of v).
  assert (∀ i, (a ≤ i)%N → (i ≤ b)%N →
            ∃ e, v.(lv_log) !! i = Some e ∧ LogSpec.ref v i = Some (LogId_new (lead i) i) ∧
                 Entry.log_id e = LogId_new (lead i) i) as Hent.
  { intros i Hai Hib. destruct (log_total v Hok i) as [e He]; [lia| |].
    { pose proof (ref_bound v Hok _ _ Hy). lia. }
    pose proof (ref_present v Hok _ _ He) as Hr. exists e. rw Hr -(ref_lead v _ _ Hok Hr). done. }
  set (sto' := λ i : N, if ((a <=? i) && (i <=? b))%N then ROk (LogId_new (lead i) i)
                        else RaftLogReader.stored_log_id st.1 i).
  assert (∀ i, RaftLogReader.stored_log_id st.1 i = sto' i ∨
            ∃ e, RaftLogReader.stored_log_id st.1 i = RErr e ∧
                 match e with inr e => log_error (LS := LS) e | inl _ => False end) as Hsto.
  { intros i. rw /sto'. destruct (N.leb_spec a i), (N.leb_spec i b); cbn; try by left.
    destruct (Hent i) as (e & He & _ & Hid); [done..|].
    destruct (stored_log_id_run v st i e Hi eq_refl He) as [-> |(e' & -> & He')]; [left; by rw Hid|right; eauto]. }
  pose proof (ref_at_index v Hok _ _ Hx) as Hxa. pose proof (ref_at_index v Hok _ _ Hy) as Hyb.
  assert (x = LogId_new (lead a) a ∧ y = LogId_new (lead b) b) as [Hxe Hye].
  { split; by apply ref_lead. }
  destruct (get_key_log_ids_read sto' lead a b Hab) with (fuel := RaftLogReader.key_fuel x y)
    as (res & Hrun & Hwf & Hf & Hl & Hread).
  { intros i j Hai Hij Hjb. destruct (Hent i) as (? & _ & Hri & _); [lia..|].
    destruct (Hent j) as (? & _ & Hrj & _); [lia..|]. exact (lo_mono v Hok _ _ _ _ Hri Hrj Hij). }
  { intros i Hai Hib. rw /sto'. by destruct (N.leb_spec a i), (N.leb_spec i b); try lia. }
  { rw /RaftLogReader.key_fuel Hxa Hyb. lia. }
  rw /entry_at -Hxe -Hye in Hrun. rw /entry_at -Hxe in Hf. rw /entry_at -Hye in Hl.
  rw /wpr /wp /st_reads /RaftLogReader.get_key_log_ids /LogIdList.get_key_log_ids.
  rw /LogIdList.get_key_log_ids in Hrun.
  destruct (key_loop_fallible _ sto' _ (RaftLogReader.key_fuel x y) [(x, y)] [] Hsto) as [-> |(e & -> & He)].
  - destruct (LogIdList.key_loop sto' _ _ _) as [[res'|]|]; try done. injection Hrun as Hrun. rw Hrun.
    split_and!; [done..|]. intros i. destruct (N.leb_spec a i), (N.leb_spec i b); cbn.
    { destruct (Hent i) as (? & _ & -> & _); [done..|]. by apply Hread. }
    all: destruct (LogIdList.read res i) as [z|] eqn:Hz; [|done]; exfalso;
      destruct (read_bounds _ _ _ Hwf Hz) as (f & q & Hf' & Hq' & ? & ?); simplify_eq; lia.
  - by destruct e as [|e].
Qed.

(** The keys represent the stored log, whose first id is the last purged one. *)
Lemma get_key_log_ids_run st :
  let v := view st in
  stores_inv st → log_ok v →
  wpr boot_error (get_key_log_ids v.(lv_purged) (LogSpec.last_log_id v))
    (λ r st', st' = st ∧ LogIdList.wf r = true ∧ (∀ p, v.(lv_purged) = Some p → LogIdList.first r = Some p) ∧
       ∀ i, LogIdList.read r.(key_log_ids) i = LogSpec.ref v i) st.
Proof.
  intros v Hi Hok. rw /get_key_log_ids. pose proof (purged_next_last v Hok) as Hpl.
  destruct (LogSpec.last_log_id v) as [y|] eqn:Hy.
  - pose proof (ref_last_log_id v Hok y Hy) as Hry. destruct (bool_decide_reflect (opt_index v.(lv_purged) = Some y.(index))) as [Hp|Hp].
    + destruct (v.(lv_purged)) as [p|] eqn:Hpe; [|done]. injection Hp as Hp.
      assert (p = y) as ->. { pose proof (ref_purged v p Hpe) as Hr. rw Hp Hry in Hr. by injection Hr. }
      apply wpr_ret. split_and!; [done..|by intros p' [= <-]|]. intros i.
      change (key_log_ids (LogIdList.new [y])) with [y]. rw read_single.
      destruct (N.eqb_spec i y.(index)) as [-> |Hne]; [by rw Hry|].
      destruct (LogSpec.ref v i) as [z|] eqn:Hz; [|done]. exfalso.
      destruct (ref_bound v Hok _ _ Hz) as [H1 H2]. rw Hpe Hy in H1 H2. cbn in H1, H2. lia.
    + set (a := next_index v.(lv_purged)). assert (a ≤ y.(index))%N as Ha.
      { rw /a. destruct (v.(lv_purged)) as [p|]; cbn in Hp, Hpl |- *; [|lia].
        assert (p.(index) ≠ y.(index)); [congruence|lia]. }
      destruct (log_total v Hok a) as [e He]; [lia|rw Hy; cbn; lia|].
      apply wpr_try. eapply wpr_reader; [by eapply get_log_id_run|]. intros x ->.
      pose proof (ref_present v Hok _ _ He) as Hra. pose proof (ref_at_index v Hok _ _ Hra) as Hai.
      apply wpr_try. eapply wpr_reader; [by eapply (load_keys_run st a (index y))|].
      intros res (Hwf & Hh & Hread). apply wpr_ret. split; [done|].
      assert (∀ i, (i + 1 ≠ a)%N → LogIdList.read res i = LogSpec.ref v i) as Hread1.
      { intros i Hne. rw Hread. destruct (N.leb_spec a i), (N.leb_spec i y.(index)); [done|..]; cbn;
          destruct (LogSpec.ref v i) as [z|] eqn:Hz; try done; exfalso;
          destruct (ref_bound v Hok _ _ Hz) as [Hb1 Hb2]; rw Hy in Hb2; cbn in Hb2; lia. }
      destruct (v.(lv_purged)) as [p|] eqn:Hpe.
      * destruct (add_purged_keys p _ res Hwf Hh) as (Hwf' & Hh' & Hread').
        { by rw Hai. }
        { eapply (lo_mono v Hok p.(index) a); [by apply ref_purged|done|]. cbn in a. lia. }
        split_and!; [done|by intros p' [= <-]|]. intros i.
        change (LogIdList.read (add_purged (Some p) res) i = LogSpec.ref v i). rw Hread'.
        destruct (N.eqb_spec i p.(index)) as [-> |Hne]; [by rw (ref_purged v p)|]. apply Hread1. cbn in a. lia.
      * split_and!; [by destruct res|done|]. intros i. cbn in a. rw -Hread1; [lia|]. by destruct res.
  - apply wpr_ret. split_and!; [done..|intros p Hp; rw Hp in Hpl; cbn in Hpl; lia|]. intros i. cbn.
    destruct (LogSpec.ref v i) as [z|] eqn:Hz; [|done].
    destruct (ref_bound v Hok _ _ Hz) as [_ H2]. rw Hy in H2. cbn in H2. lia.
Qed.
End laws.

(** ** The loaded state *)
Section loaded.
Context {C : RaftTypeConfig}.
Implicit Types v : LogView.

(** The membership log id [p] is of the stored log, maybe of its purged part. *)
Definition on_ref v (p : option LogId) : Prop :=
  (next_index p ≤ next_index (LogSpec.last_log_id v))%N ∧ ∀ i y, LogSpec.ref v i = Some y → same_log p (Some y).

Section keys.
Context v (Hok : log_ok v) (r : LogIdList) (Hwf : LogIdList.wf r = true).
Context (Hread : ∀ i, LogIdList.read r.(key_log_ids) i = LogSpec.ref v i).

Lemma keys_last : LogIdList.last r = LogSpec.last_log_id v.
Proof using All.
  destruct r as [l]. cbn in Hread, Hwf |- *. destruct (list.last l) as [q|] eqn:Hq.
  - pose proof (read_last_key l q Hwf Hq) as Hr. rw Hread in Hr. destruct (ref_bound v Hok _ _ Hr) as [_ Hlt].
    destruct (LogSpec.last_log_id v) as [y|] eqn:Hy; [|cbn in Hlt; lia]. cbn in Hlt.
    pose proof (ref_last_log_id v Hok y Hy) as Hry. pose proof Hry as Hry'. rw -Hread in Hry'.
    destruct (read_bounds l _ _ Hwf Hry') as (f & q' & _ & Hq' & _ & Hle). rw Hq in Hq'. injection Hq' as ->.
    assert (q'.(index) = y.(index)) as Heq by lia. rw Heq Hry in Hr. by injection Hr as ->.
  - destruct (LogSpec.last_log_id v) as [y|] eqn:Hy; [|done].
    pose proof (ref_last_log_id v Hok y Hy) as Hry. rw -Hread in Hry. apply last_None in Hq as ->. done.
Qed.

Context (Hfirst : ∀ p, v.(lv_purged) = Some p → LogIdList.first r = Some p).

Lemma loaded_state_ok s :
  s.(RaftState.log_ids) = r → ref_ptr v s.(RaftState.committed) →
  s.(RaftState.purged_next) = next_index v.(lv_purged) → s.(RaftState.purge_upto) = v.(lv_purged) →
  let snap := s.(RaftState.snapshot_meta).(meta_last_log_id) in
  ref_ptr v snap → v.(lv_purged) ⪯ snap → snap ⪯ s.(RaftState.committed) →
  raft_state_ok s ∧ ∀ i, ref_log_id s i = LogSpec.ref v i.
Proof using All.
  intros Hr Hc Hpn Hpu snap Hs Hps Hsc.
  assert (∀ i, ref_log_id s i = LogSpec.ref v i) as Href by (intros i; by rw ref_read Hr Hread).
  assert (∀ p, ref_ptr v p → log_ptr s p) as Hptr by (intros p Hp x Hx; rw Href; by apply Hp).
  assert (last_purged_log_id s = v.(lv_purged)) as Hlp.
  { cbn. rw Hpn Hr. destruct (v.(lv_purged)) as [p|] eqn:Hp; [|done]. cbn.
    destruct (N.eqb_spec (index p + 1) 0); [lia|]. by apply Hfirst. }
  split; [|done]. split.
  - by rw Hr.
  - rw Hpn Hr. destruct (v.(lv_purged)) as [p|] eqn:Hp.
    + rw decide_False; [cbn; lia|]. by rw (Hfirst p).
    + case_decide as H0; [|by destruct H0]. destruct (LogIdList.first r) as [f|] eqn:Hf; [|done]. apply Some_ole, N_ole.
      destruct r as [l]. cbn in Hf, Hread, Hwf. change (head l = Some f) in Hf. pose proof (read_first_key l f Hf) as Hrf. rw Hread in Hrf.
      destruct (ref_bound v Hok _ _ Hrf) as [_ Hlt]. destruct (ref_defined v Hok 0) as [z Hz]; [rw Hp; cbn; lia|lia|].
      rw -Hread in Hz. destruct (read_bounds l _ _ Hwf Hz) as (f' & _ & Hf' & _ & Hle & _). rw Hf in Hf'.
      by injection Hf' as ->.
  - rw Hlp Hpu. apply ole_refl.
  - rw Hpu. case_decide as Hn; [|done]. change (snap = None) in Hn. rw Hn in Hps. apply ole_None in Hps as ->. apply None_le.
  - done.
  - apply Hptr. rw Hpu. intros x. apply ref_purged.
  - by apply Hptr.
  - by apply Hptr.
Qed.

Lemma loaded_on_log s p : s.(RaftState.log_ids) = r → on_ref v p → on_log s p.
Proof using All.
  intros Hr [Hle Hs]. split.
  - change (last_log_id s) with (LogIdList.last s.(RaftState.log_ids)). by rw Hr keys_last.
  - intros i y. rw ref_read Hr Hread. apply Hs.
Qed.
End keys.
End loaded.



(** ** The membership configs found are in order and of the stored log *)
Section memberships.
Context {C : RaftTypeConfig}.
Implicit Types v : LogView.

Definition older (m m' : StoredMembership) : Prop := log_id_le m.(stored_log_id) m'.(stored_log_id).

Lemma elem_of_memberships v a b m :
  log_ok v → m ∈ memberships (LogSpec.read v a b) →
  ∃ x, m.(stored_log_id) = Some x ∧ LogSpec.ref v x.(index) = Some x ∧ (a ≤ x.(index))%N ∧ (x.(index) < b)%N.
Proof.
  intros Hok (e & He & Hm)%list_elem_of_omap. apply elem_of_read in He as (i & Hai & Hib & He).
  rw /stored_of in Hm. destruct (Entry.get_membership e) as [c|]; [|done]. injection Hm as <-.
  exists (Entry.log_id e). pose proof (lo_index v Hok _ _ He) as Hi. rw /Entry.index in Hi.
  rw /Entry.log_id Hi. split_and!; [done| |done..]. by apply ref_present.
Qed.

Lemma ref_on_ref v x : log_ok v → LogSpec.ref v x.(index) = Some x → on_ref v (Some x).
Proof.
  intros Hok Hx. destruct (ref_bound v Hok _ _ Hx) as [_ Hlt]. split; [cbn; lia|]. intros i y Hy.
  pose proof (ref_at_index v Hok _ _ Hy) as <-. apply same_log_intro; by apply (ref_order v Hok).
Qed.

Lemma older_ref v m x :
  on_ref v m.(stored_log_id) → LogSpec.ref v x.(index) = Some x →
  (next_index m.(stored_log_id) ≤ x.(index) + 1)%N → log_id_le m.(stored_log_id) (Some x).
Proof.
  intros [_ Hs] Hx Hle. assert (opt_index m.(stored_log_id) ⪯ Some x.(index)) as Hi.
  { destruct m.(stored_log_id) as [y|]; [|done]. cbn in Hle. apply Some_ole, N_ole. lia. }
  split; [|done]. exact (proj1 (same_log_le _ (Some x) (Hs _ _ Hx)) Hi).
Qed.

Lemma memberships_sorted v a b : log_ok v → StronglySorted older (memberships (LogSpec.read v a b)).
Proof.
  intros Hok. rw /LogSpec.read. remember (LogSpec.range a b) as l eqn:Hl.
  assert (StronglySorted N.lt l ∧ (∀ i, i ∈ l → (a ≤ i)%N ∧ (i < b)%N)) as [Hs Hb].
  { subst l. split; [|intros i; apply elem_of_range]. remember (N.to_nat (b - a)) as n eqn:Hn. revert a Hn.
    induction n as [|n IH]; intros a Hn; [rw /LogSpec.range -Hn; constructor|].
    rw range_cons; [lia|]. constructor; [apply IH; lia|]. apply Forall_forall. intros i [? _]%elem_of_range. lia. }
  clear Hl. induction Hs as [|i l Hs IH Hi]; [constructor|]. specialize (IH ltac:(set_solver)).
  cbn [omap list_omap]. destruct (v.(lv_log) !! i) as [e|] eqn:He; [|done].
  cbn [memberships omap list_omap]. destruct (stored_of e) as [m|] eqn:Hm; [|done]. constructor; [done|].
  apply Forall_forall. intros m' (e' & He' & Hm')%list_elem_of_omap.
  apply list_elem_of_omap in He' as (j & Hj & He'). rewrite Forall_forall in Hi. specialize (Hi _ Hj).
  rw /stored_of in Hm, Hm'. destruct (Entry.get_membership e), (Entry.get_membership e'); try done.
  injection Hm as <-. injection Hm' as <-. rw /older. cbn [stored_log_id].
  pose proof (lo_index v Hok _ _ He) as Hie. pose proof (lo_index v Hok _ _ He') as Hje.
  assert (LogSpec.ref v (index (Entry.log_id e')) = Some (Entry.log_id e')) as Hr'.
  { change (index (Entry.log_id e')) with (Entry.index e'). rw Hje. by apply ref_present. }
  apply (older_ref v {| stored_log_id := Some (Entry.log_id e); stored_membership_ := m0 |}); [|done|].
  - apply ref_on_ref; [done|]. change (index (Entry.log_id e)) with (Entry.index e). rw Hie. by apply ref_present.
  - cbn. change (index (Entry.log_id e)) with (Entry.index e). change (index (Entry.log_id e')) with (Entry.index e'). lia.
Qed.

Lemma boot_memberships_cases mem ms c e :
  boot_memberships mem ms = (c, e) → (c = mem ∧ e = mem ∧ ms = []) ∨ ∃ l, mem :: ms = l ++ [c; e].
Proof.
  intros Hb. destruct ms as [|m ms]; [injection Hb as <- <-; by left|]. right.
  assert (length (last_two (mem :: m :: ms)) = 2) as Hlen by (rw last_two_length /=; lia).
  exists (take (length (mem :: m :: ms) - 2) (mem :: m :: ms)). rw /boot_memberships in Hb.
  destruct (last_two (mem :: m :: ms)) as [|x [|y [|]]] eqn:Hl; try done. injection Hb as <- <-.
  rw -Hl. symmetry. apply take_drop.
Qed.

Lemma boot_memberships_ok v mem a b c e :
  log_ok v → on_ref v mem.(stored_log_id) → (next_index mem.(stored_log_id) ≤ a)%N →
  boot_memberships mem (memberships (LogSpec.read v a b)) = (c, e) →
  on_ref v c.(stored_log_id) ∧ on_ref v e.(stored_log_id) ∧ older c e.
Proof.
  intros Hok Hmem Ha [(-> & -> & _)|[l Hl]]%boot_memberships_cases.
  { split_and!; [done..|apply log_id_le_refl]. }
  assert (StronglySorted older (mem :: memberships (LogSpec.read v a b))) as Hs.
  { constructor; [by apply memberships_sorted|]. apply Forall_forall.
    intros m (x & Hx & Hr & Hax & _)%elem_of_memberships; [|done]. rw /older Hx. eapply older_ref; [done..|lia]. }
  assert (∀ m, m ∈ mem :: memberships (LogSpec.read v a b) → on_ref v m.(stored_log_id)) as Hon.
  { intros m [-> |(x & -> & Hr & _)%elem_of_memberships]%elem_of_cons; [done| |done]. by apply ref_on_ref. }
  rw Hl in Hs, Hon. split_and!; [apply Hon; set_solver..|].
  apply StronglySorted_app_1_r in Hs. inversion Hs as [|? ? _ Hf]. by apply Forall_inv in Hf.
Qed.
End memberships.

(** ** Starting up *)

(** What a node that stopped leaves behind: a log without holes, of which the state machine has
    applied a prefix that covers the purged part, or a snapshot beyond its end; a saved committed id
    of the log (or one that is applied); a snapshot between the purged part and the applied entries;
    and a membership config at or before the last applied entry. *)
Record boot_ok {C : RaftTypeConfig} (v : LogView) (applied : option LogId) (mem : StoredMembership)
    (snap : option Snapshot) : Prop := {
  bo_log : log_ok v;
  bo_purged : v.(lv_purged) ⪯ applied;
  bo_applied : ∀ x, applied = Some x → LogSpec.ref v x.(index) = Some x ∨
                 (next_index (LogSpec.last_log_id v) ≤ x.(index))%N ∧ LogSpec.last_log_id v ≺ Some x;
  bo_committed : ∀ x, v.(lv_committed) = Some x → Some x ⪯ applied ∨ LogSpec.ref v x.(index) = Some x;
  bo_snapshot : ∀ s, snap = Some s → let p := s.(meta).(meta_last_log_id) in
                  v.(lv_purged) ⪯ p ∧ p ⪯ applied ∧ (p = applied ∨ ref_ptr v p) ∧
                  (LogSpec.last_log_id v ≺ applied → p = applied);
  bo_membership : (next_index mem.(stored_log_id) ≤ next_index applied)%N ∧
                  same_log mem.(stored_log_id) applied ∧
                  ∀ i y, LogSpec.ref v i = Some y → same_log mem.(stored_log_id) (Some y);
}.

Section boot.
Context {C : RaftTypeConfig} {LS SM : Type}.
Context `{!RaftLogStorage.RaftLogStorage LS, !LogStoreLaws LS}.
Context `{!RaftStateMachine.RaftStateMachine SM, !StateMachineLaws SM}.
Import StorageHelper.
Implicit Types st : LS * SM.

(** Everything that is known to be committed is applied. *)
Definition recovered v (applied : option LogId) : option LogId := omax applied v.(lv_committed).

Section recovered.
Context (v : LogView) (applied : option LogId) (mem : StoredMembership) (snap : option Snapshot).
Context (Hb : boot_ok v applied mem snap).

Lemma recovered_cases :
  (LogSpec.last_log_id v ≺ applied ∧ ref_ptr v applied → False) ∧
  (LogSpec.last_log_id v ≺ recovered v applied → recovered v applied = applied ∧
     ∃ x, applied = Some x ∧ (next_index (LogSpec.last_log_id v) ≤ x.(index))%N) ∧
  (¬ LogSpec.last_log_id v ≺ recovered v applied → ref_ptr v applied ∧ ref_ptr v (recovered v applied)).
Proof using Hb.
  pose proof (bo_log _ _ _ _ Hb) as Hok.
  assert (∀ p, ref_ptr v p → p ⪯ LogSpec.last_log_id v) as Hlast.
  { intros p Hp. destruct p as [x|]; [|apply None_le]. specialize (Hp x eq_refl). destruct (ref_bound v Hok _ _ Hp) as [_ Hlt].
    destruct (LogSpec.last_log_id v) as [y|] eqn:Hy; [|cbn in Hlt; lia]. cbn in Hlt.
    apply Some_ole, (ref_order v Hok _ _ _ _ Hp (ref_last_log_id v Hok y Hy)). lia. }
  assert (ref_ptr v applied ∨ LogSpec.last_log_id v ≺ applied) as Happ.
  { destruct applied as [x|]; [|by left]. destruct (bo_applied _ _ _ _ Hb x eq_refl) as [Hx|[_ Hx]]; [left|by right].
    by intros y [= <-]. }
  assert (recovered v applied = applied ∨ ref_ptr v (recovered v applied) ∧ applied ≺ recovered v applied) as Hrec.
  { rw /recovered /omax. destruct (ltbP v.(lv_committed) applied) as [|Hge]; [by left|].
    destruct (v.(lv_committed)) as [c|] eqn:Hc; [|left; symmetry; by apply ole_None].
    destruct (bo_committed _ _ _ _ Hb c Hc) as [Hle|Hr].
    - left. order.
    - destruct (decide (applied = Some c)) as [-> |Hne]; [by left|]. right. split; [by intros y [= <-]|].
      apply ole_lt_eq in Hge as [?|?]; [done|congruence]. }
  split_and!.
  - intros [Hlt Hp%Hlast]. order.
  - intros Hlt. destruct Hrec as [Heq|[Hp%Hlast _]]; [|order]. split; [done|]. rw Heq in Hlt.
    destruct applied as [x|]; [|by destruct (LogSpec.last_log_id v)]. exists x. split; [done|].
    destruct (bo_applied _ _ _ _ Hb x eq_refl) as [Hx|[? _]]; [|done].
    assert (ref_ptr v (Some x)) as Hp%Hlast by (by intros y [= <-]). order.
  - intros Hge. assert (ref_ptr v applied) as Hpa.
    { destruct Happ as [|Hlt]; [done|]. destruct Hge. destruct Hrec as [-> |[_ ?]]; [done|order]. }
    destruct Hrec as [-> |[? _]]; done.
Qed.

Lemma recovered_indexes :
  (next_index v.(lv_purged) ≤ next_index applied)%N ∧ (next_index applied ≤ next_index (recovered v applied))%N ∧
  (applied ≺ recovered v applied → (next_index (recovered v applied) ≤ next_index (LogSpec.last_log_id v))%N).
Proof using Hb.
  pose proof (bo_log _ _ _ _ Hb) as Hok. destruct recovered_cases as (_ & Hbeyond & Hin).
  destruct (ltbP (LogSpec.last_log_id v) (recovered v applied)) as [Hlt|Hge].
  - destruct (Hbeyond Hlt) as [Heq (x & Hx & Hxi)]. rw Heq. pose proof (purged_next_last v Hok).
    rw Hx. cbn. split_and!; [lia|lia|]. intros ?. exfalso. order.
  - destruct Hin as [Ha Hr]; [order|]. pose proof (ref_ptr_purged v) as Hp. split_and!.
    + apply (ref_ptr_le v _ _ Hok Hp Ha), Hb.
    + apply (ref_ptr_le v _ _ Hok Ha Hr). apply omax_l.
    + intros _. by apply ref_ptr_last.
Qed.

(** The config of the state machine after the committed entries are applied to it. *)
Lemma recovered_membership v' :
  let mem' := from_option id mem (list.last (memberships (LogSpec.read v (next_index applied)
                                                  (next_index (recovered v applied))))) in
  (v' = v ∧ ¬ LogSpec.last_log_id v ≺ recovered v applied ∨
   ∃ x, recovered v applied = Some x ∧ v' = LogSpec.purge v x ∧ LogSpec.last_log_id v ≺ recovered v applied) →
  on_ref v' mem'.(stored_log_id) ∧ (next_index mem'.(stored_log_id) ≤ next_index (recovered v applied))%N.
Proof using Hb.
  intros mem' Hv'. pose proof (bo_log _ _ _ _ Hb) as Hok. destruct (bo_membership _ _ _ _ Hb) as (Hm1 & Hm2 & Hm3).
  destruct recovered_indexes as (_ & Hidx & _). destruct recovered_cases as (_ & Hbeyond & Hin).
  destruct Hv' as [[-> Hge]|(x & Hx & -> & Hlt)].
  - destruct (Hin Hge) as [Ha Hr]. rw /mem'. destruct (list.last (memberships _)) as [m|] eqn:Hl.
    + apply last_Some_elem_of in Hl. apply elem_of_memberships in Hl as (y & Hy0 & Hy & _ & Hlt); [|done].
      cbn [from_option id]. rw Hy0. split; [by apply ref_on_ref|]. cbn. lia.
    + cbn. split; [split; [|done]|lia]. pose proof (ref_ptr_last v _ Hok Ha). lia.
  - destruct (Hbeyond Hlt) as [Heq (x' & Hx' & Hxi)]. rw Heq Hx' in Hx. injection Hx as ->.
    assert (mem' = mem) as ->.
    { rw /mem' Heq. by rw /LogSpec.read /LogSpec.range N.sub_diag. }
    destruct (purge_all v x Hok Hxi) as (_ & Hlast & Href). split; [|by rw Heq].
    split; [rw Hlast -Hx'; exact Hm1|]. intros i y. rw Href. case_decide; [|done]. intros [= <-]. by rw -Hx'.
Qed.
End recovered.

(** The first part of [get_initial_state]: re-applying. *)
Lemma recover_run st :
  let v := view st in
  let applied := sv_applied (sm_of st) in
  stores_inv st → boot_ok v applied (sv_membership (sm_of st)) (sm_snapshot st.2) →
  wpr boot_error
    (if applied ≺? recovered v applied then
       _ ←? reapply_committed (next_index applied) (next_index (recovered v applied));
       mret (ROk (recovered v applied))
     else mret (ROk applied))
    (λ r st', r = recovered v applied ∧ stores_inv st' ∧ st'.1 = st.1 ∧ sm_snapshot st'.2 = sm_snapshot st.2 ∧
       sm_of st' = foldl sm_step (sm_of st) (LogSpec.read v (next_index applied) (next_index (recovered v applied))))
    st.
Proof.
  intros v applied Hi Hb. destruct (recovered_indexes _ _ _ _ Hb) as (H1 & H2 & H3).
  destruct (ltbP applied (recovered v applied)) as [Hlt|Hge].
  - apply wpr_try. eapply wpr_mono; [apply reapply_loop_run; [done|apply Hb|done|done|by apply H3|lia]|].
    intros _ st' (? & ? & ? & ?). by apply wpr_ret.
  - assert (recovered v applied = applied) as ->. { apply ole_antisymm; [done|apply omax_l]. }
    apply wpr_ret. split_and!; [done..|]. by rw /LogSpec.read /LogSpec.range N.sub_diag.
Qed.

Lemma sv_membership_foldl (x : Sv (SM := SM)) es :
  sv_membership (foldl sm_step x es) = from_option id (sv_membership x) (list.last (memberships es)).
Proof.
  induction es as [|e es IH] using rev_ind; [done|]. rw foldl_snoc sv_membership_law /memberships omap_app.
  rw last_app IH. simpl. rw /stored_of. by destruct (Entry.get_membership e).
Qed.

Lemma sv_applied_recovered v mem snap (x : Sv (SM := SM)) :
  boot_ok v (sv_applied x) mem snap →
  sv_applied (foldl sm_step x
    (LogSpec.read v (next_index (sv_applied x)) (next_index (recovered v (sv_applied x))))) =
  recovered v (sv_applied x).
Proof.
  intros Hb. pose proof (bo_log _ _ _ _ Hb) as Hok. destruct (recovered_indexes _ _ _ _ Hb) as (H1 & H2 & H3).
  destruct (recovered_cases _ _ _ _ Hb) as (_ & Hbeyond & Hin). rw sv_applied_foldl.
  destruct (ltbP (sv_applied x) (recovered v (sv_applied x))) as [Hlt|Hge].
  - destruct (Hin) as [Ha Hr]; [intros Hc; destruct (Hbeyond Hc) as [Heq _]; rw Heq in Hlt; order|].
    specialize (H3 Hlt). set (a := next_index (sv_applied x)). destruct (recovered v (sv_applied x)) as [y|]; [|by destruct (sv_applied x)].
    cbn in H2, H3 |- *. assert (a ≤ y.(index))%N as Hay.
    { apply (ref_ptr_le v _ _ Hok Ha Hr) in H2 as _. pose proof Hlt as Hlt'.
      destruct (decide (a ≤ index y)%N) as [|Hn]; [done|]. exfalso.
      assert (Some y ⪯ sv_applied x); [|order]. apply (ref_ptr_le v _ _ Hok Hr Ha). cbn. fold a. lia. }
    destruct (log_total v Hok y.(index)) as [e He]; [lia..|].
    pose proof (ref_present v Hok _ _ He) as Hre. rw (Hr y eq_refl) in Hre. injection Hre as Hre.
    rw last_lookup (read_length v Hok a) // (read_lookup v Hok a); [lia..|].
    replace (a + N.of_nat (Init.Nat.pred (N.to_nat (index y + 1 - a))))%N with (index y) by lia.
    by rw He Hre.
  - assert (recovered v (sv_applied x) = sv_applied x) as ->. { apply ole_antisymm; [done|apply omax_l]. }
    by rw /LogSpec.read /LogSpec.range N.sub_diag.
Qed.

(** The log after the dirty part is cleaned: a snapshot beyond its end replaced it. *)
Definition cleaned v (R : option LogId) : LogView :=
  match R with
  | Some x => if LogSpec.last_log_id v ≺? R then LogSpec.purge v x else v
  | None => v
  end.

Lemma cleaned_dirty v R x : LogSpec.last_log_id v ≺ R → R = Some x → cleaned v R = LogSpec.purge v x.
Proof. intros Hlt%ltb_lt ->. by rw /cleaned Hlt. Qed.
Lemma cleaned_clean v R : ¬ LogSpec.last_log_id v ≺ R → cleaned v R = v.
Proof. intros Hge. destruct R as [x|]; [|done]. rw /cleaned. by destruct (ltbP (LogSpec.last_log_id v) (Some x)). Qed.

Lemma cleaned_ok v applied mem snap :
  boot_ok v applied mem snap →
  let R := recovered v applied in let v' := cleaned v R in
  log_ok v' ∧ ref_ptr v' R ∧ v'.(lv_purged) ⪯ R ∧
  (v' = v ∧ ¬ LogSpec.last_log_id v ≺ R ∨
   ∃ x, R = Some x ∧ v' = LogSpec.purge v x ∧ LogSpec.last_log_id v ≺ R) ∧
  ∀ s, snap = Some s → let p := s.(meta).(meta_last_log_id) in v'.(lv_purged) ⪯ p ∧ p ⪯ R ∧ ref_ptr v' p.
Proof.
  intros Hb R v'. pose proof (bo_log _ _ _ _ Hb) as Hok. destruct (recovered_cases _ _ _ _ Hb) as (_ & Hbeyond & Hin).
  assert (applied ⪯ R) as HR by apply omax_l. pose proof (bo_purged _ _ _ _ Hb).
  destruct (ltbP (LogSpec.last_log_id v) R) as [Hlt|Hge].
  - destruct (Hbeyond Hlt) as [Heq (x & Hx & Hxi)]. fold R in Heq. rw Hx in Heq. 
    rw /v' (cleaned_dirty v R x) // Heq. rw Heq in Hlt. destruct (purge_all v x Hok Hxi) as (Hok' & _ & Href).
    assert (ref_ptr (LogSpec.purge v x) (Some x)) as Hptr. { intros y [= <-]. rw Href. by rw decide_True. }
    split; [done|]. split; [done|]. split; [apply ole_refl|]. split; [right; eauto|]. intros s Hs. set (p := meta_last_log_id _).
    assert (p = Some x) as ->; [|split_and!; [apply ole_refl..|done]]. rw -Hx. apply (bo_snapshot _ _ _ _ Hb s Hs). by rw Hx.
  - rw /v' (cleaned_clean v R); [order|]. destruct Hin as [Ha Hr]; [order|]. split; [done|]. split; [done|]. split; [order|]. split; [left; split; [done|order]|].
    intros s Hs. set (p := meta_last_log_id _). destruct (bo_snapshot _ _ _ _ Hb s Hs) as (Hp1 & Hp2 & Hp3 & _). fold p in Hp1, Hp2, Hp3.
    split_and!; [done|order|]. by destruct Hp3 as [-> |].
Qed.

(** The second part: cleaning the log that a snapshot replaced. *)
Lemma clean_run st R :
  let v := view st in
  stores_inv st → v.(lv_purged) ⪯ R →
  wpr boot_error
    (if LogSpec.last_log_id v ≺? R then
       upto ← lift (unwrap R "unwrap");
       _ ←? on_log_store (RaftLogStorage.purge upto);
       mret (ROk (R, R))
     else mret (ROk (v.(lv_purged), LogSpec.last_log_id v)))
    (λ ids st', st'.2 = st.2 ∧ stores_inv st' ∧ view st' = cleaned v R ∧
       (LogSpec.last_log_id v ≺ R → ids = (R, R)) ∧
       (¬ LogSpec.last_log_id v ≺ R → ids = (v.(lv_purged), LogSpec.last_log_id v))) st.
Proof.
  intros v Hi Hp. destruct (ltbP (LogSpec.last_log_id v) R) as [Hlt|Hge].
  - destruct R as [x|]; [|by destruct (LogSpec.last_log_id v)]. apply wpr_bind, (wp_lift _ x); [done|].
    apply wpr_try. eapply wpr_log_store; [apply purge_law; [apply Hi|done]|]. intros _ l [Hl Hv]. apply wpr_ret.
    split_and!; [done|by split; [|apply Hi]|by rw (cleaned_dirty v (Some x) x)|done|done].
  - apply wpr_ret. split_and!; [done..|rw cleaned_clean; [order|done]|by intros ?; order|done].
Qed.

(** The last part: the snapshot, rebuilt when it is lost. *)
Lemma snapshot_run st (purged : option LogId) :
  stores_inv st →
  wpr boot_error
    (snapshot ←? on_state_machine (st_reads RaftStateMachine.get_current_snapshot);
     match snapshot with
     | None =>
         if bool_decide (purged ≠ None) then
           s ←? on_state_machine RaftStateMachine.build_snapshot; mret (ROk (Some s))
         else mret (ROk None)
     | Some s => mret (ROk (Some s))
     end)
    (λ r st', st'.1 = st.1 ∧ stores_inv st' ∧ sm_of st' = sm_of st ∧
       match sm_snapshot st.2 with
       | Some s => r = Some s
       | None => if bool_decide (purged ≠ None)
                 then ∃ s, r = Some s ∧ s.(meta).(meta_last_log_id) = sv_applied (sm_of st) else r = None
       end) st.
Proof.
  intros Hi. apply wpr_try. eapply wpr_sm_reader; [apply current_snapshot_law, Hi|]. intros sn ->.
  destruct (sm_snapshot st.2) as [s|]; [by apply wpr_ret|]. destruct (bool_decide _); [|by apply wpr_ret].
  apply wpr_try. eapply wpr_state_machine; [apply build_law, Hi|]. intros s sm (Hs & Hv & _ & [Hm _]%snapshot_of_law). apply wpr_ret.
  split_and!; [done|by split; [apply Hi|]|done|]. eauto.
Qed.

Lemma cleaned_memberships v applied mem snap c e :
  boot_ok v applied mem snap →
  let R := recovered v applied in
  let mem' := from_option id mem (list.last (memberships (LogSpec.read v (next_index applied) (next_index R)))) in
  boot_memberships mem' (memberships (LogSpec.read v (N.max (next_index v.(lv_purged)) (next_index R))
                                        (next_index (LogSpec.last_log_id v)))) = (c, e) →
  on_ref (cleaned v R) c.(stored_log_id) ∧ on_ref (cleaned v R) e.(stored_log_id) ∧ older c e.
Proof.
  intros Hb R mem' Hbm. pose proof (bo_log _ _ _ _ Hb) as Hok.
  destruct (cleaned_ok _ _ _ _ Hb) as (_ & _ & _ & Hcases & _). fold R in Hcases.
  destruct (recovered_membership _ _ _ _ Hb _ Hcases) as [Hon Hle]. fold R in Hon, Hle. change (on_ref (cleaned v R) mem'.(stored_log_id)) in Hon.
  change (next_index mem'.(stored_log_id) ≤ next_index R)%N in Hle.
  destruct Hcases as [[Hc Hge]|(x & Hx & Hc & Hlt)]; rw Hc; rw Hc in Hon.
  - apply (boot_memberships_ok v mem' _ _ c e Hok Hon) in Hbm; [done|lia].
  - destruct (recovered_cases _ _ _ _ Hb) as (_ & Hbeyond & _). destruct (Hbeyond Hlt) as [Heq (x' & Hx' & Hxi)].
    fold R in Heq. rw Heq Hx' in Hx. injection Hx as ->.
    assert (memberships (LogSpec.read v (N.max (next_index v.(lv_purged)) (next_index R))
              (next_index (LogSpec.last_log_id v))) = []) as Hnil.
    { rw Heq Hx'. cbn [next_index]. rw /LogSpec.read /LogSpec.range.
      by replace (next_index (LogSpec.last_log_id v) - N.max (next_index v.(lv_purged)) (index x + 1))%N with 0%N by lia. }
    rw Hnil in Hbm. injection Hbm as <- <-. split_and!; [done..|apply log_id_le_refl].
Qed.

Lemma cleaned_ends v applied mem snap ids :
  boot_ok v applied mem snap → let R := recovered v applied in
  (LogSpec.last_log_id v ≺ R → ids = (R, R)) →
  (¬ LogSpec.last_log_id v ≺ R → ids = (v.(lv_purged), LogSpec.last_log_id v)) →
  ids = ((cleaned v R).(lv_purged), LogSpec.last_log_id (cleaned v R)).
Proof.
  intros Hb R Hd Hc. pose proof (bo_log _ _ _ _ Hb) as Hok. destruct (ltbP (LogSpec.last_log_id v) R) as [Hlt|Hge].
  - rw (Hd Hlt). destruct (recovered_cases _ _ _ _ Hb) as (_ & Hbeyond & _). destruct (Hbeyond Hlt) as [Heq (x & Hx & Hxi)].
    fold R in Heq. rw Heq Hx in Hlt |- *. destruct (purge_all v x Hok Hxi) as (_ & Hlast & _).
    by rw (cleaned_dirty v (Some x) x) // Hlast.
  - assert (¬ LogSpec.last_log_id v ≺ R) as Hn by order. by rw (Hc Hn) cleaned_clean.
Qed.

(** The snapshot that is loaded or rebuilt is between the purged part and what is applied. *)
Lemma loaded_meta v (R : option LogId) (snap sn : option Snapshot) :
  ref_ptr v R → v.(lv_purged) ⪯ R →
  (∀ s, snap = Some s → let p := s.(meta).(meta_last_log_id) in v.(lv_purged) ⪯ p ∧ p ⪯ R ∧ ref_ptr v p) →
  match snap with
  | Some s => sn = Some s
  | None => if bool_decide (v.(lv_purged) ≠ None) then ∃ s, sn = Some s ∧ s.(meta).(meta_last_log_id) = R else sn = None
  end →
  let p := (from_option meta SnapshotMeta.default sn).(meta_last_log_id) in
  ref_ptr v p ∧ v.(lv_purged) ⪯ p ∧ p ⪯ R.
Proof.
  intros HR Hp Hsnap Hsn. destruct snap as [s0|].
  - subst sn. by destruct (Hsnap s0 eq_refl) as (? & ? & ?).
  - destruct (bool_decide_reflect (v.(lv_purged) ≠ None)) as [Hne|Hne].
    + destruct Hsn as (s0 & -> & Hs0). cbn [from_option]. rw Hs0. split_and!; [done|done|apply ole_refl].
    + subst sn. cbn. destruct (lv_purged v); [by destruct Hne|]. split_and!; [done|done|apply None_le].
Qed.

Lemma io_state_new_run vote applied snapshot purged :
  IOState.new vote applied snapshot purged =
    Done {| building_snapshot := false;
            io_progress := {| accepted := Some (IOId.new vote); submitted := Some (IOId.new vote);
                              flushed := Some (IOId.new vote) |};
            IOState.applied := applied; IOState.snapshot := snapshot; IOState.purged := purged |}.
Proof. done. Qed.

(** The configs that are loaded come from the state machine or from the log. *)
Lemma boot_memberships_from (Q : Membership → Prop) v mem a b a' b' c e :
  Q mem.(stored_membership_) →
  (∀ i x m, v.(lv_log) !! i = Some x → Entry.get_membership x = Some m → Q m) →
  boot_memberships (from_option id mem (list.last (memberships (LogSpec.read v a b))))
    (memberships (LogSpec.read v a' b')) = (c, e) →
  Q c.(stored_membership_) ∧ Q e.(stored_membership_).
Proof.
  intros Hmem Hlog Hbm.
  assert (∀ a b m, m ∈ memberships (LogSpec.read v a b) → Q m.(stored_membership_)) as Hin.
  { intros a0 b0 m (x & Hx & Hm)%list_elem_of_omap. apply list_elem_of_omap in Hx as (i & _ & Hi).
    rw /stored_of in Hm. destruct (Entry.get_membership x) as [m0|] eqn:Hg; [|done]. injection Hm as <-. by eapply Hlog. }
  assert (Q (from_option id mem (list.last (memberships (LogSpec.read v a b)))).(stored_membership_)) as Hlast.
  { destruct (list.last (memberships (LogSpec.read v a b))) as [m|] eqn:Hl; [|done]. by eapply Hin, last_Some_elem_of. }
  apply boot_memberships_cases in Hbm as [(-> & -> & _)|[l Hl]]; [done|].
  assert (∀ m, m ∈ l ++ [c; e] → Q m.(stored_membership_)) as Hall.
  { intros m. rw -Hl. by intros [-> |?%Hin]%elem_of_cons. }
  split; apply Hall; set_solver.
Qed.

(** The whole of [get_initial_state]. *)
Lemma initial_state_run now st :
  let v := view st in
  let applied := sv_applied (sm_of st) in
  let committed := recovered v applied in
  stores_inv st → boot_ok v applied (sv_membership (sm_of st)) (sm_snapshot st.2) →
  wpr boot_error (get_initial_state now)
    (λ s st',
       raft_state_ok s ∧ membership_ok s ∧
       RaftState.vote_ref s = from_option id Vote_default v.(lv_vote) ∧ accepted_below s (RaftState.vote_ref s) ∧
       s.(RaftState.committed) = committed ∧ s.(RaftState.io_state).(IOState.applied) = committed ∧
       (s.(RaftState.purge_upto) ≠ None → snapshot_last_log_id s ≠ None) ∧
       stores_inv st' ∧ view st' = cleaned v committed ∧
       sm_of st' = foldl sm_step (sm_of st) (LogSpec.read v (next_index applied) (next_index committed)) ∧
       (∀ i, ref_log_id s i = LogSpec.ref (view st') i) ∧ log_ok (view st') ∧ (view st').(lv_purged) ⪯ committed ∧
       s.(RaftState.server_state) = Learner ∧
       ∀ Q : Membership → Prop, Q (sv_membership (sm_of st)).(stored_membership_) →
         (∀ i x m, v.(lv_log) !! i = Some x → Entry.get_membership x = Some m → Q m) →
         Q (EffectiveMembership.membership s.(RaftState.membership_state).(ms_committed)) ∧
         Q (EffectiveMembership.membership s.(RaftState.membership_state).(ms_effective))) st.
Proof.
  intros v applied committed Hi Hb. pose proof (bo_log _ _ _ _ Hb) as Hok.
  destruct (cleaned_ok _ _ _ _ Hb) as (Hok' & HptrR & HpR & Hcases & Hsnap). fold committed in Hok', HptrR, HpR, Hcases, Hsnap.
  rw /get_initial_state.
  apply wpr_try. eapply wpr_reader; [apply read_vote_law, Hi|]. intros vote ->.
  apply wpr_try. eapply wpr_reader; [apply read_committed_law, Hi|]. intros cm ->.
  apply wpr_try. eapply wpr_reader; [apply get_log_state_law, Hi|]. intros ls ->.
  apply wpr_try. eapply wpr_sm_reader; [apply applied_state_law, Hi|]. intros ap ->.
  cbn [fst snd ls_last_log_id ls_last_purged_log_id].
  change (log_view st.1) with v. change (sv_applied (sm_view st.2)) with applied.
  change (if lv_committed v ≺? applied then applied else lv_committed v) with committed.
  apply wpr_try. eapply wpr_mono; [by apply recover_run|]. intros R st1 (-> & Hi1 & Hl1 & Hsn1 & Hsm1).
  assert (view st1 = v) as Hv1 by (by rw /view Hl1).
  assert (sv_applied (sm_of st1) = committed) as Hap1 by (rw Hsm1; by eapply sv_applied_recovered).
  apply wpr_try. pose proof (get_membership_run st1 Hi1) as Hmem. cbn zeta in Hmem.
  destruct (boot_memberships _ _) as [mc me] eqn:Hbm in Hmem. rw Hv1 Hap1 in Hbm.
  eapply wpr_mono; [exact Hmem|]. intros ms st2 [-> ->]. clear Hmem.
  assert (sv_membership (sm_of st1) = from_option id (sv_membership (sm_of st))
    (list.last (memberships (LogSpec.read v (next_index applied) (next_index committed))))) as Hm1.
  { by rw Hsm1 sv_membership_foldl. }
  rw Hm1 in Hbm.
  pose proof (λ Q Ha Hl, boot_memberships_from Q _ _ _ _ _ _ _ _ Ha Hl Hbm) as Hsrc. destruct (cleaned_memberships _ _ _ _ _ _ Hb Hbm) as (Honc & Hone & Hold).
  assert (v.(lv_purged) ⪯ committed) as Hpc. { pose proof (bo_purged _ _ _ _ Hb). pose proof (omax_l applied (lv_committed v)). rw /committed /recovered. order. }
  apply wpr_try. pose proof (clean_run st1 committed Hi1) as Hclean. cbn zeta in Hclean. rw Hv1 in Hclean.
  eapply wpr_mono; [by apply Hclean|]. clear Hclean. intros ids st3 (Hs3 & Hi3 & Hv3 & Hd & Hc).
  rw -Hv3 in Hok', HptrR, HpR, Hsnap, Honc, Hone. 
  assert (ids = ((view st3).(lv_purged), LogSpec.last_log_id (view st3))) as ->.
  { rw Hv3. by eapply cleaned_ends. }
  apply wpr_try. eapply wpr_mono; [by apply get_key_log_ids_run|]. intros r st4 (-> & Hwf & Hfirst & Hread).
  apply wpr_try. eapply wpr_mono; [by apply snapshot_run|]. intros sn st5 (Hl5 & Hi5 & Hsm5 & Hsn5).
  assert (view st5 = view st3) as Hv5 by (by rw /view Hl5).
  rw Hs3 Hsn1 /sm_of Hs3 -/(sm_of st1) Hap1 in Hsn5.
  destruct (loaded_meta _ _ _ _ HptrR HpR Hsnap Hsn5) as (Hsp1 & Hsp2 & Hsp3).
  apply wpr_bind. eapply wp_lift; [apply io_state_new_run|]. apply wpr_ret.
  set (s := {| RaftState.vote := _ |}).
  destruct (loaded_state_ok (view st3) Hok' r Hwf Hread Hfirst s) as [Hsok Href]; [done..|].
  rw Hv5 -Hv3. split_and!; try done.
  - split; [by apply validate_ms|by eapply loaded_on_log..].
  - intros cur [= <-]. rw new_to_vote. split; [|apply vote_le_refl]. intros _ _. by rw lid_cmp_refl.
  - intros Hne Hnone. change (lv_purged (view st3) ≠ None) in Hne. destruct Hne. apply ole_None. by rw -Hnone.
  - by rw Hsm5 /sm_of Hs3 -/(sm_of st1) Hsm1.
Qed.

(** Starting up from what a stopped node left behind.  [get_initial_state] returns the state, or
    an error the store or the state machine reported; it does not panic and its loops end.  It applies
    every committed entry that was not applied, each once and in order, and cleans a log that a
    snapshot replaced; the state it returns satisfies the invariants of the engine, its log ids are
    those of the stored log, and every saved vote, commit and config is in it. *)
Theorem get_initial_state_spec now st :
  let v := view st in
  let applied := sv_applied (sm_of st) in
  let committed := recovered v applied in
  stores_inv st → boot_ok v applied (sv_membership (sm_of st)) (sm_snapshot st.2) →
  wpr boot_error (get_initial_state now)
    (λ s st',
       raft_state_ok s ∧ membership_ok s ∧
       RaftState.vote_ref s = from_option id Vote_default v.(lv_vote) ∧ accepted_below s (RaftState.vote_ref s) ∧
       s.(RaftState.committed) = committed ∧ s.(RaftState.io_state).(IOState.applied) = committed ∧
       (s.(RaftState.purge_upto) ≠ None → snapshot_last_log_id s ≠ None) ∧
       stores_inv st' ∧ view st' = cleaned v committed ∧
       sm_of st' = foldl sm_step (sm_of st) (LogSpec.read v (next_index applied) (next_index committed)) ∧
       ∀ i, ref_log_id s i = LogSpec.ref (view st') i) st.
Proof.
  intros v applied committed Hi Hb. eapply wpr_mono; [by apply initial_state_run|]. intros s st' Hs. by destruct_and! Hs; split_and!.
Qed.
End boot.
