(* ===== verification/MemStore.v ===== *)
(** * The in-memory store (stores/memstore/src/lib.rs)

    [MemLogStore] keeps the entries as JSON strings in an ordered map; [MemStateMachine] keeps the last
    status of every client and its snapshots as JSON bytes.  serde_json is outside: its four functions
    are the class [SerdeJson], and what the store relies on is the class [SerdeJsonLaws]: what was
    serialized is read back.  The store implements the traits of [Storage], and its operations refine
    the abstract log store.  The locks are taken and released within one operation, and a blocked
    operation ([BlockConfig]) only sleeps before it runs, so each operation is one step. *)

From S2P Require Export StorageHelper.
From stdpp Require Import pretty.
From Stdlib Require Import Ascii.

(** ** serde_json *)
Class SerdeJson (T : Type) := {
  to_string : T → Result string string;
  from_str : string → Result T string;
  to_vec : T → Result (list Byte.byte) string;
  from_slice : list Byte.byte → Result T string;
}.

(** [std::str::from_utf8]: whether the bytes are UTF-8. *)
Definition byte_in (lo hi : N) (b : Byte.byte) : bool := ((lo <=? Byte.to_N b) && (Byte.to_N b <=? hi))%N.
Notation tail_byte := (byte_in 128 191).
Fixpoint is_utf8 (l : list Byte.byte) : bool :=
  match l with
  | [] => true
  | b0 :: l =>
      if byte_in 0 127 b0 then is_utf8 l
      else if byte_in 194 223 b0 then
        match l with b1 :: l => tail_byte b1 && is_utf8 l | _ => false end
      else if byte_in 224 239 b0 then
        match l with
        | b1 :: b2 :: l =>
            (if byte_in 224 224 b0 then byte_in 160 191 b1
             else if byte_in 237 237 b0 then byte_in 128 159 b1 else tail_byte b1) &&
            tail_byte b2 && is_utf8 l
        | _ => false
        end
      else if byte_in 240 244 b0 then
        match l with
        | b1 :: b2 :: b3 :: l =>
            (if byte_in 240 240 b0 then byte_in 144 191 b1
             else if byte_in 244 244 b0 then byte_in 128 143 b1 else tail_byte b1) &&
            tail_byte b2 && tail_byte b3 && is_utf8 l
        | _ => false
        end
      else false
  end.

(** What is serialized is read back, and the bytes are UTF-8. *)
Class SerdeJsonLaws (T : Type) `{!SerdeJson T} := {
  string_round_trip (x : T) : ∃ s, to_string x = ROk s ∧ from_str s = ROk x;
  vec_round_trip (x : T) : ∃ b, to_vec x = ROk b ∧ from_slice b = ROk x ∧ is_utf8 b = true;
}.

(** ** The types of the application *)
Record ClientRequest := { client : string; serial : N; status : string }.
Definition make_request (client_id : string) (serial : N) : ClientRequest :=
  {| client := client_id; serial := serial; status := "request-" +:+ pretty serial |}.
Record ClientResponse := { previous_status : option string }.

(** [declare_raft_types!(TypeConfig)] *)
Definition MemConfig : RaftTypeConfig := {|
  D := ClientRequest; R := ClientResponse; Node := unit; SnapshotData := list Byte.byte;
  LeaderId := LeaderIdAdv.LeaderId; CommittedLeaderId := LeaderIdAdv.LeaderId;
|}.
#[local] Existing Instance MemConfig.

(** [Display] of the leader id *)
Definition show_leader_id (l : LeaderIdAdv.LeaderId) : string :=
  "T" +:+ pretty l.(LeaderIdAdv.term) +:+ "-N" +:+ pretty l.(LeaderIdAdv.node_id).

(** ** The log store *)
Module MemLogStore.
Record MemLogStore := {
  last_purged_log_id : option LogId;
  enable_saving_committed : bool;
  committed : option LogId;
  log : gmap N string;
  vote : option Vote;
}.

Definition new : MemLogStore :=
  {| last_purged_log_id := None; enable_saving_committed := true; committed := None; log := ∅; vote := None |}.

Section ops.
Context `{!SerdeJson Entry}.
Implicit Types s : MemLogStore.

Definition set_log s l : MemLogStore :=
  {| last_purged_log_id := s.(last_purged_log_id); enable_saving_committed := s.(enable_saving_committed);
     committed := s.(committed); log := l; vote := s.(vote) |}.
Definition set_vote s v : MemLogStore :=
  {| last_purged_log_id := s.(last_purged_log_id); enable_saving_committed := s.(enable_saving_committed);
     committed := s.(committed); log := s.(log); vote := v |}.
Definition set_committed s c : MemLogStore :=
  {| last_purged_log_id := s.(last_purged_log_id); enable_saving_committed := s.(enable_saving_committed);
     committed := c; log := s.(log); vote := s.(vote) |}.
Definition set_last_purged s p : MemLogStore :=
  {| last_purged_log_id := p; enable_saving_committed := s.(enable_saving_committed);
     committed := s.(committed); log := s.(log); vote := s.(vote) |}.

(** [BTreeMap::range(start..end)] *)
Definition btree_range {A} (m : gmap N A) (start end_ : N) : Outcome (list (N * A)) :=
  if (end_ <? start)%N then Panic "range start is greater than range end in BTreeMap"
  else Done (filter (λ kv, (start ≤ kv.1)%N ∧ (kv.1 < end_)%N) (btree_entries m)).

Fixpoint read_entries (l : list (N * string)) (entries : list Entry) : Result (list Entry) StorageError :=
  match l with
  | [] => ROk entries
  | (_, serialized) :: l =>
      match from_str serialized with
      | RErr e => RErr (StorageError.read_logs e)
      | ROk ent => read_entries l (entries ++ [ent])
      end
  end.

Definition try_get_log_entries s (start end_ : N) : Outcome (Result (list Entry) StorageError) :=
  l ← btree_range s.(log) start end_; Done (read_entries l []).

Definition read_vote s : Outcome (Result (option Vote) StorageError) := Done (ROk s.(vote)).

Definition get_log_state s : Outcome (Result LogState StorageError) :=
  let last_serialized := snd <$> list.last (btree_entries s.(log)) in
  Done (match last_serialized with
        | Some serialized =>
            match from_str serialized with
            | RErr e => RErr (StorageError.read_logs e)
            | ROk ent => ROk {| ls_last_purged_log_id := s.(last_purged_log_id);
                                ls_last_log_id := Some (Entry.log_id ent) |}
            end
        | None => ROk {| ls_last_purged_log_id := s.(last_purged_log_id);
                         ls_last_log_id := s.(last_purged_log_id) |}
        end).

Definition save_vote (v : Vote) : ST MemLogStore (Result unit StorageError) :=
  _ ← st_modify (λ s, set_vote s (Some v)); mret (ROk tt).

Definition save_committed (c : option LogId) : ST MemLogStore (Result unit StorageError) :=
  s ← st_get;
  if negb s.(enable_saving_committed) then mret (ROk tt)
  else _ ← st_put (set_committed s c); mret (ROk tt).

Definition read_committed s : Outcome (Result (option LogId) StorageError) :=
  Done (ROk (if negb s.(enable_saving_committed) then None else s.(committed))).

Fixpoint append_entries (entries : list Entry) : ST MemLogStore (Result unit StorageError) :=
  match entries with
  | [] => mret (ROk tt)
  | entry :: entries =>
      match to_string entry with
      | RErr e => mret (RErr (StorageError.write_log_entry (Entry.log_id entry) e))
      | ROk str =>
          _ ← st_modify (λ s, set_log s (<[Entry.index entry := str]> s.(log)));
          append_entries entries
      end
  end.

Definition append (entries : list Entry) (callback : IOFlushedCallback) :
    ST MemLogStore (Result unit StorageError * list Notification) :=
  r ← append_entries entries;
  match r with
  | RErr e => mret (RErr e, [])
  | ROk _ => notes ← lift (IOFlushed.io_completed callback (ROk tt)); mret (ROk tt, notes)
  end.

Definition remove_keys {A} (keys : list N) (m : gmap N A) : gmap N A := foldl (λ m k, delete k m) m keys.

Definition truncate (log_id : LogId) : ST MemLogStore (Result unit StorageError) :=
  s ← st_get;
  let keys := filter (λ k, (log_id.(index) ≤ k)%N) (btree_entries s.(log)).*1 in
  _ ← st_put (set_log s (remove_keys keys s.(log)));
  mret (ROk tt).

Definition purge (log_id : LogId) : ST MemLogStore (Result unit StorageError) :=
  s ← st_get;
  _ ← lift (assert_ (s.(last_purged_log_id) ⪯? Some log_id) "assertion failed: *ld <= Some(log_id)");
  _ ← st_modify (λ s, set_last_purged s (Some log_id));
  let keys := filter (λ k, (k ≤ log_id.(index))%N) (btree_entries s.(log)).*1 in
  _ ← st_modify (λ s, set_log s (remove_keys keys s.(log)));
  mret (ROk tt).
End ops.
End MemLogStore.

#[global] Instance mem_log_reader `{!SerdeJson Entry} : RaftLogReader.RaftLogReader MemLogStore.MemLogStore := {|
  RaftLogReader.try_get_log_entries := MemLogStore.try_get_log_entries;
  RaftLogReader.read_vote := MemLogStore.read_vote;
  RaftLogReader.limited_get_log_entries := MemLogStore.try_get_log_entries;
|}.

#[global] Instance mem_log_storage `{!SerdeJson Entry} : RaftLogStorage.RaftLogStorage MemLogStore.MemLogStore := {|
  RaftLogStorage.get_log_state := MemLogStore.get_log_state;
  RaftLogStorage.read_committed := MemLogStore.read_committed;
  RaftLogStorage.save_vote := MemLogStore.save_vote;
  RaftLogStorage.save_committed := MemLogStore.save_committed;
  RaftLogStorage.append := MemLogStore.append;
  RaftLogStorage.truncate := MemLogStore.truncate;
  RaftLogStorage.purge := MemLogStore.purge;
|}.

(** ** The state machine *)
Record MemStoreStateMachine := {
  last_applied_log : option LogId;
  mem_last_membership : StoredMembership;
  client_status : gmap string string;
}.
Record MemStoreSnapshot := { snap_meta : SnapshotMeta; snap_data : list Byte.byte }.

Module MemStateMachine.
Record MemStateMachine := {
  sm : MemStoreStateMachine;
  snapshot_idx : N;
  current_snapshot : option MemStoreSnapshot;
}.

Definition default_sm : MemStoreStateMachine := {|
  last_applied_log := None;
  mem_last_membership := {| stored_log_id := None; stored_membership_ := Membership.default |};
  client_status := ∅ |}.
Definition new : MemStateMachine := {| sm := default_sm; snapshot_idx := 0; current_snapshot := None |}.

Section ops.
Context `{!SerdeJson MemStoreStateMachine}.
Implicit Types s : MemStateMachine.

Definition set_sm s x : MemStateMachine :=
  {| sm := x; snapshot_idx := s.(snapshot_idx); current_snapshot := s.(current_snapshot) |}.
Definition set_snapshot_idx s i : MemStateMachine :=
  {| sm := s.(sm); snapshot_idx := i; current_snapshot := s.(current_snapshot) |}.
Definition set_current_snapshot s x : MemStateMachine :=
  {| sm := s.(sm); snapshot_idx := s.(snapshot_idx); current_snapshot := x |}.

Definition drop_snapshot s : MemStateMachine := set_current_snapshot s None.
Definition clear_state_machine s : MemStateMachine := set_sm s default_sm.

Definition applied_state s : Outcome (Result (option LogId * StoredMembership) StorageError) :=
  Done (ROk (s.(sm).(last_applied_log), s.(sm).(mem_last_membership))).

(** Applying one entry: the state machine and the response. *)
Definition apply_entry (x : MemStoreStateMachine) (entry : Entry) : ClientResponse * MemStoreStateMachine :=
  let applied := Some (Entry.log_id entry) in
  match entry.(payload) with
  | Blank =>
      ({| previous_status := None |},
       {| last_applied_log := applied; mem_last_membership := x.(mem_last_membership);
          client_status := x.(client_status) |})
  | Normal data =>
      ({| previous_status := x.(client_status) !! data.(client) |},
       {| last_applied_log := applied; mem_last_membership := x.(mem_last_membership);
          client_status := <[data.(client) := data.(status)]> x.(client_status) |})
  | MembershipPayload mem =>
      ({| previous_status := None |},
       {| last_applied_log := applied;
          mem_last_membership := {| stored_log_id := Some (Entry.log_id entry); stored_membership_ := mem |};
          client_status := x.(client_status) |})
  end.

Fixpoint apply_entries (entries : list Entry) (res : list ClientResponse) :
    ST MemStateMachine (Result (list ClientResponse) StorageError) :=
  match entries with
  | [] => mret (ROk res)
  | entry :: entries =>
      s ← st_get;
      let '(resp, x) := apply_entry s.(sm) entry in
      _ ← st_put (set_sm s x);
      apply_entries entries (res ++ [resp])
  end.
Definition apply (entries : list Entry) : ST MemStateMachine (Result (list ClientResponse) StorageError) :=
  apply_entries entries [].

Definition snapshot_id_of (last : option LogId) (snapshot_idx : N) : string :=
  match last with
  | Some last => show_leader_id last.(leader_id) +:+ "-" +:+ pretty last.(index) +:+ "-" +:+ pretty snapshot_idx
  | None => "--" +:+ pretty snapshot_idx
  end.

Definition build_snapshot : ST MemStateMachine (Result Snapshot StorageError) :=
  s ← st_get;
  match to_vec s.(sm) with
  | RErr e => mret (RErr (StorageError.read_state_machine e))
  | ROk data =>
      let last_applied_log := s.(sm).(last_applied_log) in
      let last_membership := s.(sm).(mem_last_membership) in
      let snapshot_idx := (s.(snapshot_idx) + 1)%N in
      _ ← st_modify (λ s, set_snapshot_idx s snapshot_idx);
      let meta := {| meta_last_log_id := last_applied_log; last_membership := last_membership;
                     snapshot_id := snapshot_id_of last_applied_log snapshot_idx |} in
      _ ← st_modify (λ s, set_current_snapshot s (Some {| snap_meta := meta; snap_data := data |}));
      mret (ROk {| meta := meta; snapshot_data := data |})
  end.

Definition begin_receiving_snapshot : ST MemStateMachine (Result (list Byte.byte) StorageError) := mret (ROk []).

Definition install_snapshot (m : SnapshotMeta) (snapshot : list Byte.byte) :
    ST MemStateMachine (Result unit StorageError) :=
  let new_snapshot := {| snap_meta := m; snap_data := snapshot |} in
  _ ← lift (assert_ (is_utf8 new_snapshot.(snap_data)) "called `Result::unwrap()` on an `Err` value: Utf8Error");
  match from_slice new_snapshot.(snap_data) with
  | RErr e => mret (RErr (StorageError.read_snapshot (Some (SnapshotMeta.signature new_snapshot.(snap_meta))) e))
  | ROk new_sm =>
      _ ← st_modify (λ s, set_sm s new_sm);
      _ ← st_modify (λ s, set_current_snapshot s (Some new_snapshot));
      mret (ROk tt)
  end.

Definition get_current_snapshot s : Outcome (Result (option Snapshot) StorageError) :=
  Done (ROk (match s.(current_snapshot) with
             | Some snapshot => Some {| meta := snapshot.(snap_meta); snapshot_data := snapshot.(snap_data) |}
             | None => None
             end)).
End ops.
End MemStateMachine.

#[global] Instance mem_state_machine `{!SerdeJson MemStoreStateMachine} :
  RaftStateMachine.RaftStateMachine MemStateMachine.MemStateMachine := {|
  RaftStateMachine.applied_state := MemStateMachine.applied_state;
  RaftStateMachine.get_current_snapshot := MemStateMachine.get_current_snapshot;
  RaftStateMachine.apply := MemStateMachine.apply;
  RaftStateMachine.begin_receiving_snapshot := MemStateMachine.begin_receiving_snapshot;
  RaftStateMachine.install_snapshot := MemStateMachine.install_snapshot;
  RaftStateMachine.build_snapshot := MemStateMachine.build_snapshot;
|}.

(** ** Ranges and removals of an ordered map *)
Section btree_ops.
Import MemLogStore.

Lemma filter_range {A} (m : gmap N A) a b :
  filter (λ kv, (a ≤ kv.1)%N ∧ (kv.1 < b)%N) (btree_entries m) =
    omap (λ i, (λ a, (i, a)) <$> m !! i) (LogSpec.range a b).
Proof.
  apply strict_sorted_eq.
  - pose proof (btree_sorted m) as Hs. induction Hs as [|x l Hs IH Hx]; [constructor|]. rw filter_cons.
    case_decide; [|done]. constructor; [done|]. rewrite Forall_forall in Hx. apply Forall_forall.
    intros y [_ Hy]%list_elem_of_filter. by apply Hx.
  - rw /LogSpec.range. remember (N.to_nat (b - a)) as n eqn:Hn. clear Hn. revert a. induction n as [|n IH]; intros a; [constructor|].
    cbn [seq fmap list_fmap omap list_omap]. rw -fmap_S_seq -list_fmap_compose.
    specialize (IH (a + 1)%N). assert (((λ k, a + N.of_nat k)%N ∘ S) <$> seq 0 n = (λ k, a + 1 + N.of_nat k)%N <$> seq 0 n) as ->.
    { apply list_fmap_ext. intros k x _. cbn. lia. }
    destruct (m !! (a + N.of_nat 0)%N); [|done]. cbn. constructor; [done|]. apply Forall_forall.
    intros [j y] (k & Hk & Hy)%list_elem_of_omap. apply list_elem_of_fmap in Hk as (k' & -> & _).
    destruct (m !! _); [|done]. injection Hy as <- _. rw /key_strict /=. lia.
  - intros [i str]. rw list_elem_of_filter elem_of_btree list_elem_of_omap /=. setoid_rewrite elem_of_range. split.
    + intros [[??] Hi]. exists i. by rw Hi.
    + intros (j & [??] & Hj). destruct (m !! j) eqn:Hm; [|done]. injection Hj as -> ->. done.
Qed.

Lemma lookup_remove_keys {A} keys (m : gmap N A) i :
  remove_keys keys m !! i = if decide (i ∈ keys) then None else m !! i.
Proof.
  revert m. induction keys as [|k keys IH]; intros m; [done|]. cbn. rw IH. destruct (decide (i ∈ keys)) as [Hin|Hin].
  - rw decide_True; [set_solver|done].
  - destruct (decide (i = k)) as [-> |Hne].
    + rw decide_True; [set_solver|]. apply lookup_delete_eq.
    + rw decide_False; [set_solver|]. by apply lookup_delete_ne.
Qed.

Lemma remove_keys_filter {A} (P : N → Prop) `{!∀ k, Decision (P k)} (Q : N * A → Prop) `{!∀ x, Decision (Q x)} (m : gmap N A) :
  (∀ i a, Q (i, a) ↔ ¬ P i) → remove_keys (filter P (btree_entries m).*1) m = filter Q m.
Proof.
  intros HPQ. apply map_eq. intros i. rw lookup_remove_keys.
  destruct (filter Q m !! i) as [a|] eqn:Hf.
  - apply map_lookup_filter_Some in Hf as [Hm HQ]. rw decide_False //. intros [HP _]%list_elem_of_filter. by apply HPQ in HQ.
  - case_decide as Hin; [done|]. destruct (m !! i) as [a|] eqn:Hm; [|done]. exfalso.
    apply map_lookup_filter_None in Hf as [Hf|Hf]; [congruence|]. destruct (decide (P i)) as [HP|HP].
    + apply Hin, list_elem_of_filter. split; [done|]. apply list_elem_of_fmap. exists (i, a). split; [done|by apply elem_of_btree].
    + by apply (Hf a Hm), HPQ.
Qed.
End btree_ops.

(** ** The log store refines the abstract one *)
Section mem_log_laws.
Context `{!SerdeJson Entry, !SerdeJsonLaws Entry}.
Implicit Types s : MemLogStore.MemLogStore.
Import MemLogStore.

Definition parse_entry (str : string) : option Entry := match from_str str with ROk e => Some e | RErr _ => None end.

(** The entries the store holds. *)
Definition mem_view s : LogView := {|
  lv_purged := s.(last_purged_log_id);
  lv_log := omap parse_entry s.(log);
  lv_vote := s.(vote);
  lv_committed := if s.(enable_saving_committed) then s.(committed) else None;
|}.

(** Every string of the map is an entry. *)
Definition mem_inv s : Prop := ∀ i str, s.(log) !! i = Some str → ∃ e, from_str str = ROk e.

Lemma parse_present s i str : mem_inv s → s.(log) !! i = Some str → ∃ e, parse_entry str = Some e ∧ from_str str = ROk e.
Proof. intros Hi [e He]%Hi. exists e. by rw /parse_entry He. Qed.

Lemma read_entries_spec l acc :
  Forall (λ kv, is_Some (parse_entry kv.2)) l → read_entries l acc = ROk (acc ++ omap (λ kv, parse_entry kv.2) l).
Proof.
  intros Hl. revert acc. induction Hl as [|[k str] l [e He] _ IH]; intros acc; [by rw app_nil_r|].
  cbn in He |- *. rw He. rw /parse_entry in He. destruct (from_str str) as [e'|]; [|done]. injection He as ->.
  by rw IH -app_assoc.
Qed.

Lemma omap_fuse (m : gmap N string) (l : list N) :
  omap (λ kv : N * string, parse_entry kv.2) (omap (λ i, (λ str, (i, str)) <$> m !! i) l) =
  omap (λ i, omap parse_entry m !! i) l.
Proof.
  assert (∀ f : N → option Entry, (∀ i, f i = m !! i ≫= parse_entry) →
    omap (λ kv : N * string, parse_entry kv.2) (omap (λ i, (λ str, (i, str)) <$> m !! i) l) = omap f l) as Hf.
  { intros f Hf. induction l as [|i l IH]; [done|]. simpl. rw Hf.
    destruct (m !! i) as [str|]; simpl; [destruct (parse_entry str); [f_equal|]; exact IH|exact IH]. }
  apply Hf. intros i. apply lookup_omap.
Qed.

Lemma get_entries_mem s a b :
  mem_inv s → (a ≤ b)%N → try_get_log_entries s a b = Done (ROk (LogSpec.read (mem_view s) a b)).
Proof.
  intros Hi Hab. rw /try_get_log_entries /btree_range. destruct (N.ltb_spec b a); [lia|]. cbn [mbind outcome_bind].
  rw filter_range read_entries_spec; [|by rw omap_fuse].
  apply Forall_forall. intros [k str] (i & _ & Hk)%list_elem_of_omap. destruct (s.(log) !! i) as [str'|] eqn:Hs; [|done].
  injection Hk as -> ->. destruct (parse_present s k str Hi Hs) as (e & He & _). cbn. eauto.
Qed.

Lemma get_log_state_mem s :
  mem_inv s →
  get_log_state s = Done (ROk {| ls_last_purged_log_id := s.(last_purged_log_id);
                                 ls_last_log_id := LogSpec.last_log_id (mem_view s) |}).
Proof.
  intros Hi. rw /get_log_state /LogSpec.last_log_id. cbn [mem_view lv_log lv_purged].
  pose proof (btree_last s.(log)) as Hl. pose proof (btree_last (omap parse_entry s.(log))) as Hv.
  destruct (list.last (btree_entries (log s))) as [[i str]|].
  - destruct Hl as [Hs Hmax]. destruct (parse_present s i str Hi Hs) as (e & Hd & He). cbn. rw He.
    assert (omap parse_entry (log s) !! i = Some e) as Hvi by (by rw lookup_omap Hs).
    destruct (list.last (btree_entries (omap parse_entry (log s)))) as [[j x]|]; [|by rw Hv in Hvi].
    destruct Hv as [Hvj Hmax']. specialize (Hmax' _ _ Hvi). pose proof Hvj as Hj. rw lookup_omap in Hj.
    destruct (log s !! j) as [str'|] eqn:Hs'; [|done]. specialize (Hmax _ _ Hs'). assert (i = j) as -> by lia.
    rw Hvi in Hvj. by injection Hvj as ->.
  - rw Hl omap_empty in Hv |- *. done.
Qed.

Lemma append_entries_mem es s :
  mem_inv s → ∃ s', append_entries es s = Done (ROk tt, s') ∧ mem_inv s' ∧ mem_view s' = LogSpec.append (mem_view s) es.
Proof.
  revert s. induction es as [|e es IH]; intros s Hi; [by exists s|]. cbn [append_entries].
  destruct (string_round_trip e) as (str & -> & He). rw /mbind /st_bind /st_modify.
  destruct (IH (set_log s (<[Entry.index e := str]> (log s)))) as (s' & Hrun & Hi' & Hv).
  { intros i x. cbn. rw lookup_insert_Some. intros [[<- <-]|[_ Hx]]; [eauto|by eapply Hi]. }
  exists s'. split_and!; [done..|]. rw Hv /LogSpec.append /=. f_equal.
  rw /mem_view /LogSpec.set_log /=. f_equal. f_equal. apply omap_insert_Some. by rw /parse_entry He.
Qed.

(** Removing the keys that satisfy [P], seen through the decoding. *)
Lemma remove_keys_view (P : N → Prop) `{!∀ k, Decision (P k)} (Q : N * Entry → Prop) `{!∀ x, Decision (Q x)} m :
  (∀ i e, Q (i, e) ↔ ¬ P i) →
  omap parse_entry (remove_keys (filter P (btree_entries m).*1) m) = filter Q (omap parse_entry m).
Proof.
  intros HPQ. apply map_eq. intros i. rw lookup_omap lookup_remove_keys.
  destruct (omap parse_entry m !! i) as [e|] eqn:He.
  - rw lookup_omap in He. destruct (m !! i) as [str|] eqn:Hs; [|done].
    assert (omap parse_entry m !! i = Some e) as He' by (by rw lookup_omap Hs).
    destruct (decide (P i)) as [HP|HP].
    + rw decide_True.
      { apply list_elem_of_filter. split; [done|]. apply list_elem_of_fmap. exists (i, str). split; [done|by apply elem_of_btree]. }
      symmetry. apply map_lookup_filter_None. right. intros x _ HQ%HPQ. done.
    + rw decide_False; [rw list_elem_of_filter; naive_solver|]. cbn in He |- *. rw He. symmetry.
      apply map_lookup_filter_Some. split; [done|]. by apply HPQ.
  - transitivity (@None Entry); [|symmetry; apply map_lookup_filter_None; by left].
    rw lookup_omap in He. case_decide; [done|]. done.
Qed.

Lemma remove_keys_inv s (P : N → Prop) `{!∀ k, Decision (P k)} :
  mem_inv s → mem_inv (set_log s (remove_keys (filter P (btree_entries s.(log)).*1) s.(log))).
Proof. intros Hi i str. cbn. rw lookup_remove_keys. case_decide; [done|]. apply Hi. Qed.
End mem_log_laws.

Section mem_log_instance.
Context `{!SerdeJson Entry, !SerdeJsonLaws Entry}.
Import MemLogStore.

#[global] Program Instance mem_log_laws : LogStoreLaws MemLogStore.MemLogStore := {|
  log_error := λ _, False; log_inv := mem_inv; log_view := mem_view;
|}.
Next Obligation.
  intros s a b Hi Hab. rw /wpr /wp /st_reads. change (RaftLogReader.try_get_log_entries s a b) with (try_get_log_entries s a b).
  by rw get_entries_mem.
Qed.
Next Obligation.
  intros s a b Hi Hab Hok [e He]. rw /wpr /wp /st_reads.
  change (RaftLogReader.limited_get_log_entries s a b) with (try_get_log_entries s a b).
  rw get_entries_mem //; [lia|]. split; [by rw (read_cons _ a b e)|done].
Qed.
Next Obligation. done. Qed.
Next Obligation.
  intros s Hi. rw /wpr /wp /st_reads. change (RaftLogStorage.get_log_state s) with (get_log_state s). by rw get_log_state_mem.
Qed.
Next Obligation.
  intros s Hi. rw /wpr /wp /st_reads /=. rw /read_committed. by destruct (enable_saving_committed s).
Qed.
Next Obligation. done. Qed.
Next Obligation.
  intros s c Hi. rw /wpr /wp. cbn. rw /save_committed /mbind /st_bind /st_get.
  destruct (enable_saving_committed s) eqn:He; cbn; (split; [done|]); [left|by right].
  by rw /mem_view /LogSpec.save_committed /= He.
Qed.
Next Obligation.
  intros s es cb Hi. rw /wp. cbn. rw /append /mbind /st_bind.
  destruct (append_entries_mem es s Hi) as (s' & -> & Hi' & Hv). rw /lift /IOFlushed.io_completed. by destruct (io_tx cb).
Qed.
Next Obligation.
  intros s x Hi. rw /wpr /wp. cbn. split; [by apply remove_keys_inv|].
  rw /mem_view /LogSpec.truncate /LogSpec.set_log /=. f_equal. apply (remove_keys_view (λ k, (index x ≤ k)%N)).
  intros i e. lia.
Qed.
Next Obligation.
  intros s x Hi Hp. rw /wpr /wp. cbn in Hp |- *. rw /purge /mbind /st_bind /st_get /lift /assert_ (proj2 (leb_le _ _) Hp).
  cbn. split; [by apply (remove_keys_inv (set_last_purged s (Some x)))|].
  rw /mem_view /LogSpec.purge /=. f_equal. apply (remove_keys_view (λ k, (k ≤ index x)%N)). intros i e. lia.
Qed.
End mem_log_instance.

(** ** The state machine *)
Section mem_sm_instance.
Context `{!SerdeJson MemStoreStateMachine, !SerdeJsonLaws MemStoreStateMachine}.
Import MemStateMachine.

Definition to_snapshot (x : MemStoreSnapshot) : Snapshot := {| meta := x.(snap_meta); snapshot_data := x.(snap_data) |}.

Lemma apply_entries_mem es s res :
  ∃ r, apply_entries es res s =
         Done (ROk (res ++ r), set_sm s (foldl (λ x e, (apply_entry x e).2) s.(sm) es)) ∧ length r = length es.
Proof.
  revert s res. induction es as [|e es IH]; intros s res.
  { exists []. rw app_nil_r. split; [by destruct s|done]. }
  cbn [apply_entries]. rw /mbind /st_bind /st_get /st_put. destruct (apply_entry s.(sm) e) as [resp x] eqn:He.
  destruct (IH (set_sm s x) (res ++ [resp])) as (r & -> & Hr). exists (resp :: r). cbn. rw He -app_assoc. cbn.
  split; [done|lia].
Qed.

#[global] Program Instance mem_sm_laws : StateMachineLaws MemStateMachine.MemStateMachine := {|
  sm_error := λ _, False; sm_inv := λ _, True; Sv := MemStoreStateMachine;
  sm_view := sm; sm_step := λ x e, (apply_entry x e).2;
  sv_applied := last_applied_log; sv_membership := mem_last_membership;
  sm_snapshot := λ s, to_snapshot <$> s.(current_snapshot);
  snapshot_of := λ r x, from_slice r.(snapshot_data) = ROk x ∧ is_utf8 r.(snapshot_data) = true ∧
    r.(meta).(meta_last_log_id) = x.(last_applied_log) ∧ r.(meta).(last_membership) = x.(mem_last_membership);
|}.
Next Obligation. intros x e. rw /apply_entry. by destruct (payload e). Qed.
Next Obligation. intros x e. rw /apply_entry /Entry.get_membership. by destruct (payload e). Qed.
Next Obligation. done. Qed.
Next Obligation. intros s _. rw /wpr /wp /st_reads /=. by destruct (current_snapshot s). Qed.
Next Obligation.
  intros s es _. rw /wpr /wp /=. rw /apply. destruct (apply_entries_mem es s []) as (r & -> & Hr).
  split_and!; [done|exact Hr|done|done].
Qed.
Next Obligation.
  intros s _. rw /wpr /wp /=. rw /build_snapshot /mbind /st_bind /st_get. destruct (vec_round_trip s.(sm)) as (b & -> & Hf & Hu). done.
Qed.
Next Obligation. done. Qed.
Next Obligation. by intros r x (_ & _ & ? & ?). Qed.
Next Obligation.
  intros s r x _ (Hf & Hu & _). rw /wpr /wp /=. rw /install_snapshot /mbind /st_bind /lift /assert_ /= Hu Hf.
  split_and!; [done..|]. by destruct r.
Qed.
End mem_sm_instance.

(** ** Properties *)
Section mem_properties.
Context `{!SerdeJson Entry, !SerdeJsonLaws Entry, !SerdeJson MemStoreStateMachine, !SerdeJsonLaws MemStoreStateMachine}.
Import MemLogStore.

Lemma exec_op_mem op (s : MemLogStore) :
  mem_inv s → legal_op (mem_view s) op →
  ∃ s', exec_op op s = Done (ROk tt, s') ∧ mem_inv s' ∧
    mem_view s' = spec_op s.(enable_saving_committed) (mem_view s) op ∧
    s'.(enable_saving_committed) = s.(enable_saving_committed).
Proof.
  intros Hi Hl. destruct op as [vt|c|es cb|x|x]; cbn in Hl |- *.
  - by eexists.
  - rw /save_committed /mbind /st_bind /st_get. destruct (enable_saving_committed s) eqn:He; cbn; eexists;
      (split; [done|]); split_and!; try done. by rw /mem_view /LogSpec.save_committed /= He.
  - rw /mbind /st_bind. cbn. rw /append /mbind /st_bind.
    destruct (append_entries_mem es s Hi) as (s' & Hrun & Hi' & Hv). rw Hrun.
    assert (∃ notes, IOFlushed.io_completed cb (ROk tt) = Done notes) as [notes Hn].
    { rw /IOFlushed.io_completed. destruct (io_tx cb); cbn; eauto. }
    rw /lift Hn. exists s'. split_and!; [done..|]. clear -Hrun. revert s Hrun.
    induction es as [|e es IH]; intros s; cbn; [by intros [= ->]|]. destruct (to_string e) as [str|]; [|done].
    rw /mbind /st_bind /st_modify. by intros ->%IH.
  - exists (set_log s (remove_keys (filter (λ k, (index x ≤ k)%N) (btree_entries s.(log)).*1) s.(log))). split; [done|]. split_and!; [by apply remove_keys_inv| |done].
    rw /mem_view /LogSpec.truncate /LogSpec.set_log /=. f_equal. apply (remove_keys_view (λ k, (index x ≤ k)%N)).
    intros i e. lia.
  - destruct Hl as [Hp _]. rw /purge /mbind /st_bind /st_get /lift /assert_ (proj2 (leb_le _ _) Hp).
    eexists. split; [reflexivity|]. split_and!; [by apply (remove_keys_inv (set_last_purged s (Some x)))| |done].
    rw /mem_view /LogSpec.purge /=. f_equal. apply (remove_keys_view (λ k, (k ≤ index x)%N)). intros i e. lia.
Qed.

(** The in-memory log store implements the abstract one.  Every legal sequence of writes (appends
    at the end, truncations, purges, votes, committed ids) succeeds and leaves the store with exactly
    the entries, vote and ids the abstract store has, without a hole; every read then answers what the
    abstract store holds. *)
Theorem log_store_refines ops (s : MemLogStore) :
  mem_inv s → log_ok (mem_view s) → legal_ops s.(enable_saving_committed) (mem_view s) ops →
  ∃ s', exec_ops ops s = Done (ROk tt, s') ∧
    mem_view s' = foldl (spec_op s.(enable_saving_committed)) (mem_view s) ops ∧ log_ok (mem_view s') ∧
    (∀ a b, (a ≤ b)%N → try_get_log_entries s' a b = Done (ROk (LogSpec.read (mem_view s') a b))) ∧
    get_log_state s' = Done (ROk {| ls_last_purged_log_id := (mem_view s').(lv_purged);
                                    ls_last_log_id := LogSpec.last_log_id (mem_view s') |}) ∧
    read_vote s' = Done (ROk (mem_view s').(lv_vote)) ∧ read_committed s' = Done (ROk (mem_view s').(lv_committed)).
Proof.
  revert s. induction ops as [|op ops IH]; intros s Hi Hok Hl.
  - exists s. split_and!; [done..|intros a b; by apply get_entries_mem|by apply get_log_state_mem|done|].
    rw /read_committed /=. by destruct (enable_saving_committed s).
  - destruct Hl as [Hop Hl]. destruct (exec_op_mem op s Hi Hop) as (s1 & Hrun & Hi1 & Hv1 & He1).
    destruct (IH s1 Hi1) as (s' & Hrun' & Hrest).
    { rw Hv1. by apply legal_op_ok. }
    { by rw He1 Hv1. }
    exists s'. rw He1 Hv1 in Hrest. split; [|done]. cbn [exec_ops]. by rw /try_bind (st_bind_run _ _ _ _ _ Hrun).
Qed.

(** A snapshot carries the state machine.  Building one succeeds, changes nothing but the current
    snapshot, and records the last applied log id and membership; installing it on any node replaces
    the state machine there by an equal one and saves the snapshot. *)
Theorem snapshot_round_trip (s t : MemStateMachine.MemStateMachine) :
  ∃ snap s' t', MemStateMachine.build_snapshot s = Done (ROk snap, s') ∧
    s'.(MemStateMachine.sm) = s.(MemStateMachine.sm) ∧
    MemStateMachine.get_current_snapshot s' = Done (ROk (Some snap)) ∧
    MemStateMachine.applied_state s =
      Done (ROk (snap.(meta).(meta_last_log_id), snap.(meta).(last_membership))) ∧
    MemStateMachine.install_snapshot snap.(meta) snap.(snapshot_data) t = Done (ROk tt, t') ∧
    t'.(MemStateMachine.sm) = s.(MemStateMachine.sm) ∧
    MemStateMachine.get_current_snapshot t' = Done (ROk (Some snap)).
Proof.
  destruct (vec_round_trip s.(MemStateMachine.sm)) as (b & Hto & Hfrom & Hutf).
  rw /MemStateMachine.build_snapshot /MemStateMachine.install_snapshot /mbind /st_bind /st_get Hto.
  eexists _, _, _. split; [done|]. split; [done|]. split; [done|]. split; [done|]. cbn [meta snapshot_data snap_data].
  rw /lift /assert_ Hutf Hfrom. done.
Qed.
End mem_properties.

(** ** A serialization for the witnesses: the numbers [Countable] gives, in binary *)
Section codec.
Fixpoint pos_to_string (p : positive) : string :=
  match p with xH => "" | xO p => String "0"%char (pos_to_string p) | xI p => String "1"%char (pos_to_string p) end.
Fixpoint string_to_pos (s : string) : positive :=
  match s with
  | EmptyString => xH
  | String c s => if Ascii.eqb c "0"%char then xO (string_to_pos s) else xI (string_to_pos s)
  end.
Fixpoint pos_to_bytes (p : positive) : list Byte.byte :=
  match p with xH => [] | xO p => Byte.x30 :: pos_to_bytes p | xI p => Byte.x31 :: pos_to_bytes p end.
Fixpoint bytes_to_pos (l : list Byte.byte) : positive :=
  match l with [] => xH | b :: l => if Byte.eqb b Byte.x30 then xO (bytes_to_pos l) else xI (bytes_to_pos l) end.

Lemma string_pos p : string_to_pos (pos_to_string p) = p.
Proof. induction p; cbn; congruence. Qed.
Lemma bytes_pos p : bytes_to_pos (pos_to_bytes p) = p.
Proof. induction p; cbn; congruence. Qed.
Lemma bytes_utf8 p : is_utf8 (pos_to_bytes p) = true.
Proof. by induction p. Qed.

Context (T : Type) `{Countable T}.
Definition countable_json : SerdeJson T := {|
  to_string x := ROk (pos_to_string (encode x));
  from_str s := match decode (string_to_pos s) with Some x => ROk x | None => RErr "invalid" end;
  to_vec x := ROk (pos_to_bytes (encode x));
  from_slice b := match decode (bytes_to_pos b) with Some x => ROk x | None => RErr "invalid" end;
|}.
Lemma countable_json_laws : SerdeJsonLaws T (SerdeJson0 := countable_json).
Proof.
  split; intros x; eexists; (split; [reflexivity|]); cbn.
  - by rw string_pos decode_encode.
  - by rw bytes_pos decode_encode bytes_utf8.
Qed.
End codec.

(** The store with this serialization: three entries, of which the first two are a config and a write,
    and a state machine that has applied them. *)
Section witness.
Local Ltac countable f g := refine (inj_countable' f g _); by intros [].
#[local] Instance leader_id_countable : Countable LeaderIdAdv.LeaderId.
Proof. countable (λ l, (LeaderIdAdv.term l, LeaderIdAdv.node_id l)) (λ p, LeaderIdAdv.new p.1 p.2). Defined.
#[local] Instance log_id_countable : Countable LogId.
Proof. countable (λ l, (leader_id l, index l)) (λ p, LogId_new p.1 p.2). Defined.
#[local] Instance membership_countable : Countable Membership.
Proof. countable (λ m, (configs m, nodes m)) (λ p, {| configs := p.1; nodes := p.2 |}). Defined.
#[local] Instance request_eq_dec : EqDecision ClientRequest.
Proof. solve_decision. Defined.
#[local] Instance request_countable : Countable ClientRequest.
Proof.
  countable (λ d, (client d, serial d, status d)) (λ p, {| client := p.1.1; serial := p.1.2; status := p.2 |}).
Defined.
#[local] Instance payload_eq_dec : EqDecision EntryPayload.
Proof. solve_decision. Defined.
#[local] Instance payload_countable : Countable EntryPayload.
Proof.
  countable (λ p, match p with Blank => None | Normal d => Some (inl d) | MembershipPayload m => Some (inr m) end)
    (λ p, match p with None => Blank | Some (inl d) => Normal d | Some (inr m) => MembershipPayload m end).
Defined.
#[local] Instance entry_eq_dec : EqDecision Entry.
Proof. solve_decision. Defined.
#[local] Instance entry_countable : Countable Entry.
Proof. countable (λ e, (entry_log_id e, payload e)) (λ p, Entry.new p.1 p.2). Defined.
#[local] Instance stored_countable : Countable StoredMembership.
Proof.
  countable (λ m, (stored_log_id m, stored_membership_ m)) (λ p, {| stored_log_id := p.1; stored_membership_ := p.2 |}).
Defined.
#[local] Instance sm_eq_dec : EqDecision MemStoreStateMachine.
Proof. solve_decision. Defined.
#[local] Instance sm_countable : Countable MemStoreStateMachine.
Proof.
  countable (λ x, (last_applied_log x, mem_last_membership x, client_status x))
    (λ p, {| last_applied_log := p.1.1; mem_last_membership := p.1.2; client_status := p.2 |}).
Defined.

#[local] Instance entry_json : SerdeJson Entry := countable_json Entry.
#[local] Instance entry_json_laws : SerdeJsonLaws Entry := countable_json_laws Entry.
#[local] Instance sm_json : SerdeJson MemStoreStateMachine := countable_json MemStoreStateMachine.
#[local] Instance sm_json_laws : SerdeJsonLaws MemStoreStateMachine := countable_json_laws MemStoreStateMachine.

Definition mem_id (term index : N) : LogId := LogId_new (LeaderIdAdv.new term 1) index.
Definition mem_m1 : Membership := {| configs := [{[1%N]}]; nodes := {[1%N := tt]} |}.
Definition mem_entries : list Entry := [
  Entry.new_membership (mem_id 0 0) mem_m1;
  Entry.new_normal (mem_id 1 1) (make_request "a" 5);
  Entry.new_normal (mem_id 1 2) (make_request "a" 6);
  Entry.new_blank (mem_id 2 3)].
Definition mem_cb : IOFlushedCallback := {| io_notification := N_Tick 0; io_tx := true |}.
Definition mem_ops : list LogOp := [
  Op_SaveVote (Vote_new_committed 2 1); Op_Append mem_entries mem_cb; Op_SaveCommitted (Some (mem_id 1 1));
  Op_Truncate (mem_id 2 3); Op_Purge (mem_id 0 0)].

Lemma mem_new_ok : mem_inv MemLogStore.new ∧ log_ok (mem_view MemLogStore.new).
Proof. split; [by intros i str; rw lookup_empty|]. by apply (empty_log_ok (C := MemConfig) None None None). Qed.

Lemma log_store_refines_witness :
  ∃ s', exec_ops mem_ops MemLogStore.new = Done (ROk tt, s') ∧
    MemLogStore.try_get_log_entries s' 0 10 = Done (ROk (take 2 (drop 1 mem_entries))) ∧
    MemLogStore.get_log_state s' = Done (ROk {| ls_last_purged_log_id := Some (mem_id 0 0);
                                                ls_last_log_id := Some (mem_id 1 2) |}).
Proof.
  destruct (log_store_refines mem_ops MemLogStore.new) as (s' & Hrun & Hv & _ & Hread & Hst & _).
  - apply mem_new_ok.
  - apply mem_new_ok.
  - cbn [legal_ops mem_ops]. split_and!; try done; try (by vm_compute). split; [by vm_compute|left; by vm_compute].
  - exists s'. split; [done|]. rw Hread // Hst Hv. split; by vm_compute.
Defined.

Lemma snapshot_round_trip_witness :
  ∃ snap s' t', MemStateMachine.build_snapshot MemStateMachine.new = Done (ROk snap, s') ∧
    MemStateMachine.install_snapshot snap.(meta) snap.(snapshot_data) MemStateMachine.new = Done (ROk tt, t') ∧
    t'.(MemStateMachine.sm) = MemStateMachine.default_sm.
Proof.
  destruct (snapshot_round_trip MemStateMachine.new MemStateMachine.new) as (snap & s' & t' & H1 & _ & _ & _ & H2 & H3 & _).
  exists snap, s', t'. done.
Defined.

(** A node that crashed after its commit index 1 was saved and before anything was applied. *)
Definition mem_crashed : MemLogStore.MemLogStore * MemStateMachine.MemStateMachine :=
  (match exec_ops (take 3 mem_ops) MemLogStore.new with Done (_, s) => s | Panic _ => MemLogStore.new end,
   MemStateMachine.new).

Lemma mem_crashed_view :
  mem_inv mem_crashed.1 ∧
  mem_view mem_crashed.1 = foldl (spec_op true) (mem_view MemLogStore.new) (take 3 mem_ops) ∧ log_ok (mem_view mem_crashed.1).
Proof.
  assert (∀ ops (s : MemLogStore.MemLogStore), s.(MemLogStore.enable_saving_committed) = true → mem_inv s →
    log_ok (mem_view s) → legal_ops true (mem_view s) ops →
    ∃ s', exec_ops ops s = Done (ROk tt, s') ∧ mem_inv s' ∧ mem_view s' = foldl (spec_op true) (mem_view s) ops ∧
      log_ok (mem_view s')) as Hrun.
  { induction ops as [|op ops IH]; intros s He Hi Hok Hl; [by exists s|]. destruct Hl as [Hop Hl].
    destruct (exec_op_mem op s Hi Hop) as (s1 & Hr & Hi1 & Hv1 & He1). rw He in He1, Hv1.
    destruct (IH s1 He1 Hi1) as (s' & Hr' & Hi' & Hv' & Hok').
    - rw Hv1. by apply legal_op_ok.
    - by rw Hv1.
    - exists s'. rw Hv1 in Hv'. split; [|done]. cbn [exec_ops]. by rw /try_bind (st_bind_run _ _ _ _ _ Hr). }
  destruct mem_new_ok as [Hi Hok].
  destruct (Hrun (take 3 mem_ops) MemLogStore.new eq_refl Hi Hok) as (s' & Hr & Hi' & Hv' & Hok').
  { cbn [legal_ops mem_ops take]. split_and!; try done; by vm_compute. }
  rw /mem_crashed Hr. done.
Qed.

Lemma mem_crashed_boot :
  stores_inv mem_crashed ∧
  boot_ok (view mem_crashed) (sv_applied (sm_of mem_crashed)) (sv_membership (sm_of mem_crashed))
    (sm_snapshot mem_crashed.2).
Proof.
  destruct mem_crashed_view as (Hi & Hv & Hok). split; [by split|].
  split; [exact Hok|..]; rw /view; cbn [log_view mem_log_laws]; try done.
  - intros x Hx. right. rw Hv in Hx |- *. assert (x = mem_id 1 1) as -> by (vm_compute in Hx; by injection Hx as <-). by vm_compute.
Qed.

Lemma get_initial_state_witness :
  ∃ s st', StorageHelper.get_initial_state 7 mem_crashed = Done (ROk s, st') ∧
    s.(RaftState.committed) = Some (mem_id 1 1) ∧ raft_state_ok s ∧
    st'.2.(MemStateMachine.sm).(client_status) !! "a"%string = Some "request-5"%string ∧
    ref_log_id s 3 = Some (mem_id 2 3).
Proof.
  destruct mem_crashed_boot as [Hi Hb]. destruct mem_crashed_view as (_ & Hv & _).
  destruct (wpr_total _ _ _ mem_crashed (λ e He, match He with or_introl f => f | or_intror f => f end)
    (get_initial_state_spec 7 mem_crashed Hi Hb)) as (s & st' & Hrun & Hok & _ & _ & _ & Hc & _ & _ & _ & Hv' & Hsm & Href).
  exists s, st'. split; [exact Hrun|]. rw /view in Hc, Hv', Hsm. cbn [log_view mem_log_laws] in Hc, Hv', Hsm.
  rw Hv in Hc, Hv', Hsm. split_and!; [rw Hc; by vm_compute|done| |].
  - change (st'.2.(MemStateMachine.sm)) with (sm_of st'). rw Hsm. by vm_compute.
  - rw Href /view. cbn [log_view mem_log_laws]. rw Hv'. by vm_compute.
Defined.
End witness.
