(* ===== verification/KvStore.v ===== *)
(** * The key-value example stores (examples/memstore/, examples/raft-kv-memstore/)

    [LogStore] keeps the log entries themselves in an ordered map, for any type configuration.
    [StateMachineStore] is a map from strings to strings, of which a snapshot holds only the data as JSON: what is
    applied and the membership come back from the meta data of the snapshot.  Both implement the traits of
    [Storage] and satisfy their laws, so a node can be started from them ([Startup]). *)

From S2P Require Export MemStore Network.
From stdpp Require Import pretty.

(** ** The log store (examples/memstore/src/log_store.rs) *)
Module LogStore.
Record LogStore {C : RaftTypeConfig} := {
  last_purged_log_id : option LogId;
  log : gmap N Entry;
  committed : option LogId;
  vote : option Vote;
}.

Section ops.
Context {C : RaftTypeConfig}.
Implicit Types s : LogStore.

Definition default : LogStore := {| last_purged_log_id := None; log := ∅; committed := None; vote := None |}.

Definition set_log s l : LogStore :=
  {| last_purged_log_id := s.(last_purged_log_id); log := l; committed := s.(committed); vote := s.(vote) |}.

Definition try_get_log_entries s (start end_ : N) : Outcome (Result (list Entry) StorageError) :=
  l ← MemLogStore.btree_range s.(log) start end_; Done (ROk l.*2).

Definition get_log_state s : Outcome (Result LogState StorageError) :=
  let last := (λ kv, Entry.log_id kv.2) <$> list.last (btree_entries s.(log)) in
  let last_purged := s.(last_purged_log_id) in
  let last := match last with None => last_purged | Some x => Some x end in
  Done (ROk {| ls_last_purged_log_id := last_purged; ls_last_log_id := last |}).

Definition save_committed (c : option LogId) : ST LogStore (Result unit StorageError) :=
  _ ← st_modify (λ s, {| last_purged_log_id := s.(last_purged_log_id); log := s.(log); committed := c; vote := s.(vote) |});
  mret (ROk tt).
Definition read_committed s : Outcome (Result (option LogId) StorageError) := Done (ROk s.(committed)).

Definition save_vote (v : Vote) : ST LogStore (Result unit StorageError) :=
  _ ← st_modify (λ s, {| last_purged_log_id := s.(last_purged_log_id); log := s.(log); committed := s.(committed);
                         vote := Some v |});
  mret (ROk tt).
Definition read_vote s : Outcome (Result (option Vote) StorageError) := Done (ROk s.(vote)).

Definition append (entries : list Entry) (callback : IOFlushedCallback) :
    ST LogStore (Result unit StorageError * list Notification) :=
  _ ← st_for entries (λ entry, st_modify (λ s, set_log s (<[Entry.index entry := entry]> s.(log))));
  notes ← lift (IOFlushed.io_completed callback (ROk tt));
  mret (ROk tt, notes).

Definition truncate (log_id : LogId) : ST LogStore (Result unit StorageError) :=
  s ← st_get;
  let keys := filter (λ k, (log_id.(index) ≤ k)%N) (btree_entries s.(log)).*1 in
  _ ← st_put (set_log s (MemLogStore.remove_keys keys s.(log)));
  mret (ROk tt).

Definition purge (log_id : LogId) : ST LogStore (Result unit StorageError) :=
  s ← st_get;
  _ ← lift (assert_ (s.(last_purged_log_id) ⪯? Some log_id) "assertion failed: ld.as_ref() <= Some(&log_id)");
  _ ← st_modify (λ s, {| last_purged_log_id := Some log_id; log := s.(log); committed := s.(committed); vote := s.(vote) |});
  s ← st_get;
  let keys := filter (λ k, (k ≤ log_id.(index))%N) (btree_entries s.(log)).*1 in
  _ ← st_put (set_log s (MemLogStore.remove_keys keys s.(log)));
  mret (ROk tt).
End ops.
End LogStore.

#[global] Instance log_store_reader {C : RaftTypeConfig} : RaftLogReader.RaftLogReader LogStore.LogStore := {|
  RaftLogReader.try_get_log_entries := LogStore.try_get_log_entries;
  RaftLogReader.read_vote := LogStore.read_vote;
  RaftLogReader.limited_get_log_entries := LogStore.try_get_log_entries;
|}.
#[global] Instance log_store_storage {C : RaftTypeConfig} : RaftLogStorage.RaftLogStorage LogStore.LogStore := {|
  RaftLogStorage.get_log_state := LogStore.get_log_state;
  RaftLogStorage.read_committed := LogStore.read_committed;
  RaftLogStorage.save_vote := LogStore.save_vote;
  RaftLogStorage.save_committed := LogStore.save_committed;
  RaftLogStorage.append := LogStore.append;
  RaftLogStorage.truncate := LogStore.truncate;
  RaftLogStorage.purge := LogStore.purge;
|}.

Section log_store_laws.
Context {C : RaftTypeConfig}.
Implicit Types s : LogStore.LogStore.
Import LogStore.

Definition kv_log_view s : LogView := {|
  lv_purged := s.(last_purged_log_id); lv_log := s.(log); lv_vote := s.(vote); lv_committed := s.(committed) |}.

Lemma snd_lookups (m : gmap N Entry) (l : list N) : (omap (λ i, (λ a, (i, a)) <$> m !! i) l).*2 = omap (λ i, m !! i) l.
Proof. induction l as [|i l IH]; [done|]. simpl. destruct (m !! i); simpl; [f_equal|]; exact IH. Qed.

Lemma get_entries_kv s a b :
  (a ≤ b)%N → try_get_log_entries s a b = Done (ROk (LogSpec.read (kv_log_view s) a b)).
Proof.
  intros Hab. rw /try_get_log_entries /MemLogStore.btree_range. destruct (N.ltb_spec b a); [lia|].
  cbn [mbind outcome_bind]. by rw filter_range snd_lookups.
Qed.

Lemma append_kv es s :
  st_for es (λ e, st_modify (λ s, set_log s (<[Entry.index e := e]> s.(log)))) s =
    Done (tt, set_log s (foldl LogSpec.insert_entry s.(log) es)).
Proof. revert s. induction es as [|e es IH]; intros s; [by destruct s|]. cbn. rw /mbind /st_bind /st_modify. by rw IH. Qed.

#[global] Program Instance log_store_laws : LogStoreLaws LogStore.LogStore := {|
  log_error := λ _, False; log_inv := λ _, True; log_view := kv_log_view;
|}.
Next Obligation.
  intros s a b _ Hab. rw /wpr /wp /st_reads. change (RaftLogReader.try_get_log_entries s a b) with (try_get_log_entries s a b).
  by rw get_entries_kv.
Qed.
Next Obligation.
  intros s a b _ Hab Hok [e He]. rw /wpr /wp /st_reads.
  change (RaftLogReader.limited_get_log_entries s a b) with (try_get_log_entries s a b).
  rw get_entries_kv; [lia|]. split; [by rw (read_cons _ a b e)|done].
Qed.
Next Obligation. done. Qed.
Next Obligation.
  intros s _. rw /wpr /wp /st_reads /= /LogSpec.last_log_id /=. by destruct (list.last _) as [[i e]|].
Qed.
Next Obligation. done. Qed.
Next Obligation. done. Qed.
Next Obligation. intros s c _. rw /wpr /wp /=. split; [done|by left]. Qed.
Next Obligation.
  intros s es cb _. rw /wp /= /append (st_bind_run _ _ _ _ _ (append_kv es s)) /IOFlushed.io_completed.
  by destruct (io_tx cb).
Qed.
Next Obligation.
  intros s x _. rw /wpr /wp. cbn. split; [done|].
  rw /kv_log_view /LogSpec.truncate /LogSpec.set_log /=. f_equal. apply remove_keys_filter. intros i e. lia.
Qed.
Next Obligation.
  intros s x _ Hp. rw /wpr /wp. cbn in Hp |- *. rw /purge /mbind /st_bind /st_get /lift /assert_ (proj2 (leb_le _ _) Hp).
  cbn. split; [done|]. rw /kv_log_view /LogSpec.purge /=. f_equal. apply remove_keys_filter. intros i e. lia.
Qed.
End log_store_laws.

(** ** The types of the application (examples/raft-kv-memstore/src/store/mod.rs, openraft/src/node.rs) *)
Inductive Request := Request_Set (key value : string).
Record KvResponse := { kv_value : option string }.
Record BasicNode := { addr : string }.
#[global] Instance basic_node_eq_dec : EqDecision BasicNode.
Proof. solve_decision. Defined.

(** [declare_raft_types!(TypeConfig)] with its defaults *)
Definition KvConfig : RaftTypeConfig := {|
  D := Request; R := KvResponse; Node := BasicNode; SnapshotData := Cursor;
  LeaderId := LeaderIdAdv.LeaderId; CommittedLeaderId := LeaderIdAdv.LeaderId;
|}.

Module KvStateMachine.
#[local] Existing Instance KvConfig.

Record StoredSnapshot := { ss_meta : SnapshotMeta; ss_data : list Byte.byte }.
Record StateMachineData := {
  last_applied_log : option LogId;
  last_membership : StoredMembership;
  data : gmap string string;
}.
Record StateMachineStore := {
  state_machine : StateMachineData;
  snapshot_idx : N;
  current_snapshot : option StoredSnapshot;
}.

Definition default_data : StateMachineData := {|
  last_applied_log := None;
  last_membership := {| stored_log_id := None; stored_membership_ := Membership.default |}; data := ∅ |}.
Definition default : StateMachineStore :=
  {| state_machine := default_data; snapshot_idx := 0; current_snapshot := None |}.

Section ops.
Context `{!SerdeJson (gmap string string)}.
Implicit Types s : StateMachineStore.

Definition set_state_machine s x : StateMachineStore :=
  {| state_machine := x; snapshot_idx := s.(snapshot_idx); current_snapshot := s.(current_snapshot) |}.
Definition set_current_snapshot s x : StateMachineStore :=
  {| state_machine := s.(state_machine); snapshot_idx := s.(snapshot_idx); current_snapshot := x |}.

(** [snapshot_idx] is an [AtomicU64]; it counts the builds of one process and does not wrap. *)
Definition fetch_add s : StateMachineStore :=
  {| state_machine := s.(state_machine); snapshot_idx := s.(snapshot_idx) + 1; current_snapshot := s.(current_snapshot) |}.

(** [format!("{}-{}-{}", ..)] *)
Definition snapshot_id_of (last : option LogId) (snapshot_idx : N) : string :=
  match last with
  | Some last => show_leader_id last.(leader_id) +:+ "-" +:+ pretty last.(index) +:+ "-" +:+ pretty snapshot_idx
  | None => "--" +:+ pretty snapshot_idx
  end.

Definition build_snapshot : ST StateMachineStore (Result Snapshot StorageError) :=
  s ← st_get;
  match to_vec s.(state_machine).(data) with
  | RErr e => mret (RErr (StorageError.read_state_machine e))
  | ROk data =>
      let last_applied_log := s.(state_machine).(last_applied_log) in
      let last_membership := s.(state_machine).(last_membership) in
      _ ← st_modify fetch_add;
      s ← st_get;
      let snapshot_id := snapshot_id_of last_applied_log s.(snapshot_idx) in
      let meta := {| meta_last_log_id := last_applied_log; RaftState.last_membership := last_membership;
                     RaftState.snapshot_id := snapshot_id |} in
      _ ← st_modify (λ s, set_current_snapshot s (Some {| ss_meta := meta; ss_data := data |}));
      mret (ROk {| meta := meta; snapshot_data := Cursor.new data |})
  end.

Definition applied_state s : Outcome (Result (option LogId * StoredMembership) StorageError) :=
  Done (ROk (s.(state_machine).(last_applied_log), s.(state_machine).(last_membership))).

(** Applying one entry: the response and the state machine. *)
Definition apply_entry (sm : StateMachineData) (entry : Entry) : KvResponse * StateMachineData :=
  let applied := Some (Entry.log_id entry) in
  match entry.(payload) with
  | Blank =>
      ({| kv_value := None |},
       {| last_applied_log := applied; last_membership := sm.(last_membership); data := sm.(data) |})
  | Normal (Request_Set key value) =>
      ({| kv_value := Some value |},
       {| last_applied_log := applied; last_membership := sm.(last_membership); data := <[key := value]> sm.(data) |})
  | MembershipPayload mem =>
      ({| kv_value := None |},
       {| last_applied_log := applied;
          last_membership := {| stored_log_id := Some (Entry.log_id entry); stored_membership_ := mem |};
          data := sm.(data) |})
  end.

Fixpoint apply_loop (entries : list Entry) (res : list KvResponse) :
    ST StateMachineStore (Result (list KvResponse) StorageError) :=
  match entries with
  | [] => mret (ROk res)
  | entry :: entries =>
      s ← st_get;
      let '(resp, sm) := apply_entry s.(state_machine) entry in
      _ ← st_put (set_state_machine s sm);
      apply_loop entries (res ++ [resp])
  end.
Definition apply (entries : list Entry) : ST StateMachineStore (Result (list KvResponse) StorageError) :=
  apply_loop entries [].

Definition begin_receiving_snapshot : ST StateMachineStore (Result Cursor StorageError) := mret (ROk (Cursor.new [])).

(** The data is decoded before anything is changed. *)
Definition install_snapshot (m : SnapshotMeta) (snapshot : Cursor) : ST StateMachineStore (Result unit StorageError) :=
  let new_snapshot := {| ss_meta := m; ss_data := snapshot.(cursor_inner) |} in
  match from_slice new_snapshot.(ss_data) with
  | RErr e => mret (RErr (StorageError.read_snapshot (Some (SnapshotMeta.signature new_snapshot.(ss_meta))) e))
  | ROk updated_state_machine_data =>
      let updated_state_machine := {|
        last_applied_log := m.(meta_last_log_id); last_membership := m.(RaftState.last_membership);
        data := updated_state_machine_data |} in
      _ ← st_modify (λ s, set_state_machine s updated_state_machine);
      _ ← st_modify (λ s, set_current_snapshot s (Some new_snapshot));
      mret (ROk tt)
  end.

Definition to_snapshot (x : StoredSnapshot) : Snapshot := {| meta := x.(ss_meta); snapshot_data := Cursor.new x.(ss_data) |}.
Definition get_current_snapshot s : Outcome (Result (option Snapshot) StorageError) :=
  Done (ROk (to_snapshot <$> s.(current_snapshot))).
End ops.

#[global] Instance kv_state_machine `{!SerdeJson (gmap string string)} :
  RaftStateMachine.RaftStateMachine StateMachineStore := {|
  RaftStateMachine.applied_state := applied_state;
  RaftStateMachine.get_current_snapshot := get_current_snapshot;
  RaftStateMachine.apply := apply;
  RaftStateMachine.begin_receiving_snapshot := begin_receiving_snapshot;
  RaftStateMachine.install_snapshot := install_snapshot;
  RaftStateMachine.build_snapshot := build_snapshot;
|}.

(** ** The state machine satisfies the laws of the interface *)
Section laws.
Context `{!SerdeJson (gmap string string), !SerdeJsonLaws (gmap string string)}.
Implicit Types s : StateMachineStore.

Lemma apply_loop_kv es s res :
  ∃ r, apply_loop es res s =
         Done (ROk (res ++ r), set_state_machine s (foldl (λ x e, (apply_entry x e).2) s.(state_machine) es)) ∧
       length r = length es.
Proof.
  revert s res. induction es as [|e es IH]; intros s res.
  { exists []. rw app_nil_r. split; [by destruct s|done]. }
  cbn [apply_loop]. rw /mbind /st_bind /st_get /st_put. destruct (apply_entry s.(state_machine) e) as [resp x] eqn:He.
  destruct (IH (set_state_machine s x) (res ++ [resp])) as (r & -> & Hr). exists (resp :: r). cbn. rw He -app_assoc. cbn.
  split; [done|lia].
Qed.

(** What an installation needs of a snapshot to get the state [x] from it. *)
Definition carries (r : Snapshot) (x : StateMachineData) : Prop :=
  from_slice r.(snapshot_data).(cursor_inner) = ROk x.(data) ∧
  r.(meta).(meta_last_log_id) = x.(last_applied_log) ∧ r.(meta).(RaftState.last_membership) = x.(last_membership).

Lemma build_snapshot_kv s : ∃ b, to_vec s.(state_machine).(data) = ROk b ∧
  let snap := {| meta := {| meta_last_log_id := s.(state_machine).(last_applied_log);
                            RaftState.last_membership := s.(state_machine).(last_membership);
                            RaftState.snapshot_id := snapshot_id_of s.(state_machine).(last_applied_log) (s.(snapshot_idx) + 1) |};
                 snapshot_data := Cursor.new b |} in
  build_snapshot s = Done (ROk snap,
    set_current_snapshot (fetch_add s) (Some {| ss_meta := snap.(meta); ss_data := b |})) ∧
  carries snap s.(state_machine).
Proof.
  destruct (vec_round_trip s.(state_machine).(data)) as (b & Hto & Hfrom & _). exists b. split; [done|].
  rw /build_snapshot /mbind /st_bind /st_get Hto. done.
Qed.

Lemma install_snapshot_kv s r x : carries r x →
  install_snapshot r.(meta) r.(snapshot_data) s = Done (ROk tt,
    {| state_machine := x; snapshot_idx := s.(snapshot_idx);
       current_snapshot := Some {| ss_meta := r.(meta); ss_data := r.(snapshot_data).(cursor_inner) |} |}).
Proof.
  intros (Hf & Ha & Hm). rw /install_snapshot /mbind /st_bind /= Hf /st_modify /set_state_machine /set_current_snapshot /= Ha Hm.
  by destruct x.
Qed.

#[global] Program Instance kv_sm_laws : StateMachineLaws StateMachineStore := {|
  sm_error := λ _, False; sm_inv := λ _, True; Sv := StateMachineData;
  sm_view := state_machine; sm_step := λ x e, (apply_entry x e).2;
  sv_applied := last_applied_log; sv_membership := last_membership;
  sm_snapshot := λ s, to_snapshot <$> s.(current_snapshot);
  snapshot_of := λ r x, carries r x ∧ r.(snapshot_data).(cursor_pos) = 0%N;
|}.
Next Obligation. intros x e. rw /apply_entry. by destruct (payload e) as [|[]|]. Qed.
Next Obligation. intros x e. rw /apply_entry /Entry.get_membership. by destruct (payload e) as [|[]|]. Qed.
Next Obligation. done. Qed.
Next Obligation. done. Qed.
Next Obligation.
  intros s es _. rw /wpr /wp /=. rw /apply. destruct (apply_loop_kv es s []) as (r & -> & Hr). split_and!; [done|exact Hr|done|done].
Qed.
Next Obligation.
  intros s _. rw /wpr /wp /=. destruct (build_snapshot_kv s) as (b & _ & -> & Hc). by split_and!.
Qed.
Next Obligation. done. Qed.
Next Obligation. by intros r x [(_ & ? & ?) _]. Qed.
Next Obligation.
  intros s r x _ [Hc Hp]. rw /wpr /wp /=. rw (install_snapshot_kv s r x Hc). split_and!; [done..|].
  rw /to_snapshot /=. destruct r as [m [inner pos]]. cbn in Hp |- *. by subst.
Qed.

(** A snapshot whose data is not valid changes nothing. *)
Lemma install_invalid s m d e : from_slice d.(cursor_inner) = RErr e →
  install_snapshot m d s = Done (RErr (StorageError.read_snapshot (Some (SnapshotMeta.signature m)) e), s).
Proof. intros He. by rw /install_snapshot /= He. Qed.
End laws.
End KvStateMachine.
