(* ===== verification/Rocks.v ===== *)
(** * The store on RocksDB (examples/rocksstore/)

    [RocksLogStore] keeps the log in a column family of a RocksDB, under the indexes in big-endian order, and the vote
    and the last purged log id as JSON in another; [RocksStateMachine] is in memory, and is restored from the
    snapshot it saved last.  RocksDB, byteorder and serde_json are outside: [RocksDB] and [ByteOrder] are
    classes with the laws of their documentation, [RocksDBLaws] and [ByteOrderLaws].  An operation of the
    database may fail at any time with an error that satisfies [db_error].

    The two halves share one database, but use different column families; each is modelled on its own. *)

From S2P Require Export KvStore.
From stdpp Require Import pretty.

(** ** Byte strings and their order *)
#[global] Instance byte_eq_dec : EqDecision Byte.byte.
Proof. intros x y. destruct (Byte.byte_eq_dec x y); [by left|by right]. Defined.
#[global] Instance byte_countable : Countable Byte.byte :=
  inj_countable Byte.to_N Byte.of_N Byte.of_to_N.

Notation bytes := (list Byte.byte).

Fixpoint bytes_lt (a b : bytes) : bool :=
  match a, b with
  | [], [] => false
  | [], _ :: _ => true
  | _ :: _, [] => false
  | x :: a, y :: b =>
      if (Byte.to_N x <? Byte.to_N y)%N then true
      else if (Byte.to_N y <? Byte.to_N x)%N then false else bytes_lt a b
  end.

Lemma bytes_lt_irrefl a : bytes_lt a a = false.
Proof. induction a as [|x a IH]; [done|]. cbn. by rw N.ltb_irrefl. Qed.
Lemma bytes_lt_asym a b : bytes_lt a b = true → bytes_lt b a = false.
Proof.
  revert b. induction a as [|x a IH]; intros [|y b]; try done. cbn.
  destruct (N.ltb_spec (Byte.to_N x) (Byte.to_N y)), (N.ltb_spec (Byte.to_N y) (Byte.to_N x)); try done; [lia|]. apply IH.
Qed.

Lemma strongly_sorted_filter {A} (R : A → A → Prop) (P : A → Prop) `{!∀ x, Decision (P x)} l :
  StronglySorted R l → StronglySorted R (filter P l).
Proof.
  induction 1 as [|x l Hs IH Hx]; [constructor|]. rw filter_cons. case_decide; [|done]. constructor; [done|].
  rewrite -> Forall_forall in Hx. apply Forall_forall. intros y [_ Hy]%list_elem_of_filter. by apply Hx.
Qed.
Lemma filter_none {A} (P : A → Prop) `{!∀ x, Decision (P x)} l : Forall (λ x, ¬ P x) l → filter P l = [].
Proof. induction 1 as [|x l Hx _ IH]; [done|]. by rw filter_cons decide_False. Qed.

(** ** byteorder *)
Class ByteOrder := { write_u64 : N → bytes; read_u64 : bytes → option N }.
Class ByteOrderLaws `{!ByteOrder} := {
  read_write i : (i ≤ u64_max)%N → read_u64 (write_u64 i) = Some i;
  length_write i : length (write_u64 i) = 8;
  (** "big endian encoding to ensure correct sorting of keys" *)
  write_lt i j : (i < j)%N → (j ≤ u64_max)%N → bytes_lt (write_u64 i) (write_u64 j) = true;
}.

(** [bin_to_id] reads the first eight bytes. *)
Definition id_to_bin `{!ByteOrder} (id : N) : bytes := write_u64 id.
Definition bin_to_id `{!ByteOrder} (buf : bytes) : Outcome N :=
  if length buf <? 8 then Panic "range end index 8 out of range for slice"
  else unwrap (read_u64 (take 8 buf)) "called `Result::unwrap()` on an `Err` value".

(** ** RocksDB *)
Inductive IteratorMode := From (start : bytes) | End_.

Class RocksDB (DB : Type) := {
  get_cf : DB → string → bytes → Result (option bytes) string;
  put_cf : string → bytes → bytes → ST DB (Result unit string);
  (** The keys from the first, up to the second excluded. *)
  delete_range_cf : string → bytes → bytes → ST DB (Result unit string);
  iterator_cf : DB → string → IteratorMode → list (Result (bytes * bytes) string);
  flush_wal : bool → ST DB (Result unit string);
}.

(** The items of an iterator over [l], until an error. *)
Inductive iterates {A} (P : string → Prop) : list (Result A string) → list A → Prop :=
| iterates_nil : iterates P [] []
| iterates_cons a items l : iterates P items l → iterates P (ROk a :: items) (a :: l)
| iterates_err e items l : P e → iterates P (RErr e :: items) l.

Definition key_bytes_lt (a b : bytes * bytes) : Prop := bytes_lt a.1 b.1 = true.

(** The column families are ordered maps. *)
Class RocksDBLaws (DB : Type) `{!RocksDB DB} := {
  db_error : string → Prop;
  db_content : DB → string → gmap bytes bytes;
  get_law d cf k : match get_cf d cf k with ROk v => v = db_content d cf !! k | RErr e => db_error e end;
  put_law d cf k v : wpr db_error (put_cf cf k v)
    (λ _ d', db_content d' cf = <[k := v]> (db_content d cf) ∧ ∀ cf', cf' ≠ cf → db_content d' cf' = db_content d cf') d;
  delete_range_law d cf a b : wpr db_error (delete_range_cf cf a b)
    (λ _ d', (∀ k, db_content d' cf !! k =
                if negb (bytes_lt k a) && bytes_lt k b then None else db_content d cf !! k) ∧
             ∀ cf', cf' ≠ cf → db_content d' cf' = db_content d cf') d;
  flush_law d sync : wpr db_error (flush_wal sync) (λ _ d', ∀ cf, db_content d' cf = db_content d cf) d;
  iterator_from_law d cf start : ∃ l, iterates db_error (iterator_cf d cf (From start)) l ∧
    StronglySorted key_bytes_lt l ∧
    ∀ k v, (k, v) ∈ l ↔ db_content d cf !! k = Some v ∧ bytes_lt k start = false;
  iterator_end_law d cf :
    match head (iterator_cf d cf End_) with
    | None => db_content d cf = ∅
    | Some (ROk (k, v)) => db_content d cf !! k = Some v ∧
        ∀ k' v', db_content d cf !! k' = Some v' → bytes_lt k k' = false
    | Some (RErr e) => db_error e
    end;
}.

(** ** The metadata of the store: [meta::StoreMeta] *)
Record StoreMeta {C : RaftTypeConfig} (Value : Type) := { KEY : string; meta_subject : option Value → ErrorSubject }.
Arguments KEY {C Value} _.
Arguments meta_subject {C Value} _ _.

Module RocksMeta.
Section ops.
Context {C : RaftTypeConfig} {Value : Type}.
Definition read_err (M : StoreMeta Value) (e : string) : StorageError := StorageError.new (M.(meta_subject) None) Verb_Read e.
Definition write_err (M : StoreMeta Value) (v : Value) (e : string) : StorageError :=
  StorageError.new (M.(meta_subject) (Some v)) Verb_Write e.
End ops.
Definition LastPurged {C : RaftTypeConfig} : StoreMeta LogId := {| KEY := "last_purged_log_id"; meta_subject := λ _, Subject_Store |}.
Definition Vote_ {C : RaftTypeConfig} : StoreMeta Vote := {| KEY := "vote"; meta_subject := λ _, Subject_Vote |}.
End RocksMeta.

(** ** The log store (log_store.rs) *)
Module RocksLogStore.
Section ops.
Context {C : RaftTypeConfig} {DB : Type} `{!RocksDB DB, !ByteOrder}.
Context `{!SerdeJson Entry, !SerdeJson Vote, !SerdeJson LogId}.

(** [map_err] *)
Definition map_err {A} (f : string → StorageError) (m : ST DB (Result A string)) : ST DB (Result A StorageError) :=
  r ← m; mret (match r with ROk a => ROk a | RErr e => RErr (f e) end).

Definition key_bytes {V} (M : StoreMeta V) : bytes := String.list_byte_of_string M.(KEY).
Definition get_meta {V} `{!SerdeJson V} (M : StoreMeta V) (d : DB) : Result (option V) StorageError :=
  match get_cf d "meta" (key_bytes M) with
  | RErr e => RErr (RocksMeta.read_err M e)
  | ROk None => ROk None
  | ROk (Some bytes) =>
      match from_slice bytes with RErr e => RErr (RocksMeta.read_err M e) | ROk t => ROk (Some t) end
  end.

Definition put_meta {V} `{!SerdeJson V} (M : StoreMeta V) (value : V) : ST DB (Result unit StorageError) :=
  match to_vec value with
  | RErr e => mret (RErr (RocksMeta.write_err M value e))
  | ROk json_value => map_err (RocksMeta.write_err M value) (put_cf "meta" (key_bytes M) json_value)
  end.

(** The loop over the iterator, from the key of [start]. *)
Fixpoint read_loop (start end_ : N) (it : list (Result (bytes * bytes) string)) (res : list Entry) :
    Outcome (Result (list Entry) StorageError) :=
  match it with
  | [] => Done (ROk res)
  | RErr e :: _ => Done (RErr (StorageError.read_logs e))
  | ROk (id, val) :: it =>
      id ← bin_to_id id;
      if negb ((start <=? id) && (id <? end_))%N then Done (ROk res)
      else
        match from_slice val with
        | RErr e => Done (RErr (StorageError.read_logs e))
        | ROk entry =>
            _ ← assert_ (id =? Entry.index entry)%N "assertion `left == right` failed";
            read_loop start end_ it (res ++ [entry])
        end
  end.
Definition try_get_log_entries (d : DB) (start end_ : N) : Outcome (Result (list Entry) StorageError) :=
  read_loop start end_ (iterator_cf d "logs" (From (id_to_bin start))) [].

Definition read_vote (d : DB) : Outcome (Result (option Vote) StorageError) := Done (get_meta RocksMeta.Vote_ d).

Definition get_log_state (d : DB) : Outcome (Result LogState StorageError) :=
  Done (match head (iterator_cf d "logs" End_) with
        | Some (RErr e) => RErr (StorageError.read_logs e)
        | last =>
            match (match last with
                   | Some (ROk (_, entry_bytes)) =>
                       match from_slice entry_bytes with
                       | RErr e => RErr (StorageError.read_logs e)
                       | ROk ent => ROk (Some (Entry.log_id ent))
                       end
                   | _ => ROk None
                   end) with
            | RErr e => RErr e
            | ROk last_log_id =>
                match get_meta RocksMeta.LastPurged d with
                | RErr e => RErr e
                | ROk last_purged_log_id =>
                    let last_log_id := match last_log_id with None => last_purged_log_id | Some x => Some x end in
                    ROk {| ls_last_purged_log_id := last_purged_log_id; ls_last_log_id := last_log_id |}
                end
            end
        end).

Definition save_vote (v : Vote) : ST DB (Result unit StorageError) :=
  _ ←? put_meta RocksMeta.Vote_ v;
  map_err StorageError.write_vote (flush_wal true).

(** The defaults of the trait: the committed log id is not saved. *)
Definition save_committed (_ : option LogId) : ST DB (Result unit StorageError) := mret (ROk tt).
Definition read_committed (_ : DB) : Outcome (Result (option LogId) StorageError) := Done (ROk None).

Fixpoint append_entries (entries : list Entry) : ST DB (Result unit StorageError) :=
  match entries with
  | [] => mret (ROk tt)
  | entry :: entries =>
      let id := id_to_bin (Entry.index entry) in
      i ← lift (bin_to_id id);
      _ ← lift (assert_ (i =? Entry.index entry)%N "assertion `left == right` failed");
      match to_vec entry with
      | RErr e => mret (RErr (StorageError.write_logs e))
      | ROk v => _ ←? map_err StorageError.write_logs (put_cf "logs" id v); append_entries entries
      end
  end.

(** An error drops the callback. *)
Definition append (entries : list Entry) (callback : IOFlushedCallback) :
    ST DB (Result unit StorageError * list Notification) :=
  r ← (_ ←? append_entries entries; map_err StorageError.write_logs (flush_wal true));
  match r with
  | RErr e => mret (RErr e, [])
  | ROk _ => notes ← lift (IOFlushed.io_completed callback (ROk tt)); mret (ROk tt, notes)
  end.

Definition truncate (log_id : LogId) : ST DB (Result unit StorageError) :=
  let from := id_to_bin log_id.(index) in
  let to := id_to_bin u64_max in
  _ ←? map_err StorageError.write_logs (delete_range_cf "logs" from to);
  map_err StorageError.write_logs (flush_wal true).

Definition purge (log_id : LogId) : ST DB (Result unit StorageError) :=
  _ ←? put_meta RocksMeta.LastPurged log_id;
  let from := id_to_bin 0 in
  _ ← lift (assert_ (log_id.(index) <? u64_max)%N "attempt to add with overflow");
  let to := id_to_bin (log_id.(index) + 1) in
  map_err StorageError.write_logs (delete_range_cf "logs" from to).
End ops.
End RocksLogStore.

#[global] Instance rocks_log_reader {C : RaftTypeConfig} {DB} `{!RocksDB DB, !ByteOrder}
    `{!SerdeJson Entry, !SerdeJson Vote, !SerdeJson LogId} : RaftLogReader.RaftLogReader DB := {|
  RaftLogReader.try_get_log_entries := RocksLogStore.try_get_log_entries;
  RaftLogReader.read_vote := RocksLogStore.read_vote;
  RaftLogReader.limited_get_log_entries := RocksLogStore.try_get_log_entries;
|}.
#[global] Instance rocks_log_storage {C : RaftTypeConfig} {DB} `{!RocksDB DB, !ByteOrder}
    `{!SerdeJson Entry, !SerdeJson Vote, !SerdeJson LogId} : RaftLogStorage.RaftLogStorage DB := {|
  RaftLogStorage.get_log_state := RocksLogStore.get_log_state;
  RaftLogStorage.read_committed := RocksLogStore.read_committed;
  RaftLogStorage.save_vote := RocksLogStore.save_vote;
  RaftLogStorage.save_committed := RocksLogStore.save_committed;
  RaftLogStorage.append := RocksLogStore.append;
  RaftLogStorage.truncate := RocksLogStore.truncate;
  RaftLogStorage.purge := RocksLogStore.purge;
|}.

(** ** The order of the keys *)
Section keys.
Context `{!ByteOrder, !ByteOrderLaws}.

Lemma bin_to_id_to_bin i : (i ≤ u64_max)%N → bin_to_id (id_to_bin i) = Done i.
Proof. intros Hi. rw /bin_to_id /id_to_bin length_write /= take_ge ?length_write // read_write //. Qed.

(** The keys are in the order of the indexes. *)
Lemma id_to_bin_lt i j : (i ≤ u64_max)%N → (j ≤ u64_max)%N → bytes_lt (id_to_bin i) (id_to_bin j) = (i <? j)%N.
Proof.
  intros Hi Hj. destruct (N.ltb_spec i j) as [Hlt|Hge]; [by apply write_lt|].
  destruct (decide (i = j)) as [-> |Hne]; [apply bytes_lt_irrefl|]. apply bytes_lt_asym, write_lt; lia.
Qed.
Lemma id_to_bin_inj i j : (i ≤ u64_max)%N → (j ≤ u64_max)%N → id_to_bin i = id_to_bin j → i = j.
Proof. intros Hi Hj Heq. pose proof (read_write i Hi). pose proof (read_write j Hj). rw /id_to_bin in Heq. congruence. Qed.
End keys.

(** ** The entries a database holds *)
Section rocks_log.
Context {C : RaftTypeConfig} {DB : Type} `{!RocksDB DB, !RocksDBLaws DB, !ByteOrder, !ByteOrderLaws}.
Context `{!SerdeJson Entry, !SerdeJsonLaws Entry, !SerdeJson Vote, !SerdeJsonLaws Vote, !SerdeJson LogId, !SerdeJsonLaws LogId}.
Implicit Types (d : DB) (m : gmap bytes bytes).
Import RocksLogStore.

(** The errors of the store are those of the database. *)
Definition rocks_error (e : StorageError) : Prop := db_error e.(source).

Definition parsed {T} `{!SerdeJson T} (b : bytes) : option T := match from_slice b with ROk x => Some x | RErr _ => None end.
Definition decode (kv : bytes * bytes) : option (N * Entry) :=
  i ← read_u64 kv.1; e ← parsed kv.2; Some (i, e).
Definition log_of_content m : gmap N Entry := list_to_map (omap decode (map_to_list m)).

Definition meta_of {V} `{!SerdeJson V} (M : StoreMeta V) d : option V := db_content d "meta" !! key_bytes M ≫= parsed.

Definition rocks_view d : LogView := {|
  lv_purged := meta_of RocksMeta.LastPurged d;
  lv_log := log_of_content (db_content d "logs");
  lv_vote := meta_of RocksMeta.Vote_ d;
  lv_committed := None |}.

(** Every pair of the column family is an entry under its index, below the largest number. *)
Definition logs_inv m : Prop := ∀ k v, m !! k = Some v →
  ∃ e, k = id_to_bin (Entry.index e) ∧ (Entry.index e < u64_max)%N ∧ from_slice v = ROk e.
Definition meta_inv {V} `{!SerdeJson V} (M : StoreMeta V) d : Prop :=
  ∀ b, db_content d "meta" !! key_bytes M = Some b → ∃ x : V, from_slice b = ROk x.
Record rocks_inv d : Prop := {
  ri_logs : logs_inv (db_content d "logs");
  ri_vote : meta_inv RocksMeta.Vote_ d;
  ri_purged : meta_inv RocksMeta.LastPurged d;
}.

Lemma decode_entry k v e : k = id_to_bin (Entry.index e) → (Entry.index e < u64_max)%N → from_slice v = ROk e →
  decode (k, v) = Some (Entry.index e, e).
Proof. intros -> Hi He. rw /decode /= /parsed He /id_to_bin read_write; [lia|]. done. Qed.

Lemma elem_of_decoded m i e : logs_inv m →
  (i, e) ∈ omap decode (map_to_list m) ↔ i = Entry.index e ∧ (i < u64_max)%N ∧ m !! id_to_bin i ≫= parsed = Some e.
Proof.
  intros Hm. rw list_elem_of_omap. split.
  - intros ([k v] & Hkv%elem_of_map_to_list & Hd). destruct (Hm k v Hkv) as (e' & Hk & Hlt & Hv).
    rw (decode_entry k v e' Hk Hlt Hv) in Hd. injection Hd as <- <-. rw -Hk Hkv /= /parsed Hv. done.
  - intros (-> & Hlt & Hv). destruct (m !! id_to_bin (Entry.index e)) as [v|] eqn:Hkv; [|done].
    exists (id_to_bin (Entry.index e), v). split; [by apply elem_of_map_to_list|]. apply decode_entry; [done|done|].
    cbn in Hv. rw /parsed in Hv. destruct (from_slice v); [by injection Hv as ->|done].
Qed.

Lemma log_lookup m i : logs_inv m →
  log_of_content m !! i = if decide (i < u64_max)%N then m !! id_to_bin i ≫= parsed else None.
Proof.
  intros Hm. apply option_eq. intros e. rw /log_of_content. setoid_rewrite <-elem_of_list_to_map'.
  - setoid_rewrite elem_of_decoded; [|done]. case_decide as Hlt; [|naive_solver].
    split; [by intros (_ & _ & ?)|]. intros He. split_and!; [|done|done].
    destruct (m !! id_to_bin i) as [v|] eqn:Hkv; [|done]. destruct (Hm _ _ Hkv) as (e' & Hk & Hlt' & Hv).
    cbn in He. rw /parsed Hv in He. injection He as <-. by apply id_to_bin_inj; [lia|lia|].
  - intros e' He He'. apply elem_of_decoded in He as (_ & _ & He); [|done]. apply elem_of_decoded in He' as (_ & _ & He'); [|done]. congruence.
Qed.

(** *** Reading *)
Definition entry_pair (start : N) (kv : bytes * bytes) : Prop := ∃ e,
  kv.1 = id_to_bin (Entry.index e) ∧ (Entry.index e < u64_max)%N ∧ from_slice kv.2 = ROk e ∧ (start ≤ Entry.index e)%N.

Lemma entry_pair_decode start kv : entry_pair start kv → ∃ e, decode kv = Some (Entry.index e, e) ∧
  (start ≤ Entry.index e)%N ∧ (Entry.index e < u64_max)%N ∧ kv.1 = id_to_bin (Entry.index e) ∧ from_slice kv.2 = ROk e.
Proof. destruct kv as [k v]. intros (e & Hk & Hlt & Hv & Hs). exists e. split; [by apply decode_entry|done]. Qed.

Lemma decoded_sorted start l : StronglySorted key_bytes_lt l → Forall (entry_pair start) l →
  StronglySorted key_strict (omap decode l).
Proof.
  intros Hs Hl. induction Hs as [|kv l Hs IH Hkv]; [constructor|]. apply Forall_cons in Hl as [Hkv0 Hl].
  destruct (entry_pair_decode _ _ Hkv0) as (e & Hd & _ & Hlt & Hk & _). simpl. rw Hd. constructor; [by apply IH|].
  apply Forall_forall. intros [j x] (kv' & Hin & Hd')%list_elem_of_omap. rewrite -> Forall_forall in Hkv, Hl.
  destruct (entry_pair_decode _ _ (Hl _ Hin)) as (e' & He' & _ & Hlt' & Hk' & _). rw He' in Hd'. injection Hd' as <- <-.
  specialize (Hkv _ Hin). rw /key_bytes_lt Hk Hk' id_to_bin_lt in Hkv; [lia..|]. by apply N.ltb_lt in Hkv.
Qed.

Lemma read_loop_run start end_ items l res :
  iterates db_error items l → StronglySorted key_bytes_lt l → Forall (entry_pair start) l →
  match read_loop start end_ items res with
  | Done (ROk es) => es = res ++ (filter (λ x, (x.1 < end_)%N) (omap decode l)).*2
  | Done (RErr e) => rocks_error e
  | Panic _ => False
  end.
Proof.
  intros Hi. revert res. induction Hi as [|[k v] items l Hi IH|e items l He]; intros res Hs Hl; [by rw app_nil_r| |done].
  pose proof (decoded_sorted _ _ Hs Hl) as Hsd. inversion Hs as [|? ? Hs' Hkv]; subst. apply Forall_cons in Hl as [Hkv0 Hl].
  destruct (entry_pair_decode _ _ Hkv0) as (e & Hd & Hst & Hlt & Hk & Hv). cbn in Hk, Hv. subst k.
  cbn [read_loop omap list_omap] in Hsd |- *. rw Hd in Hsd. rw Hd bin_to_id_to_bin; [lia|]. cbn [mbind outcome_bind].
  destruct (N.leb_spec start (Entry.index e)); [|lia]. rw filter_cons. cbn [fst andb].
  destruct (N.ltb_spec (Entry.index e) end_) as [Hin|Hout]; cbn [negb].
  - rw decide_True // Hv N.eqb_refl. cbn [assert_ mbind outcome_bind]. specialize (IH (res ++ [e]) Hs' Hl).
    destruct (read_loop _ _ _ _) as [[es|?]|?]; [|done..]. by rw IH -app_assoc.
  - rw decide_False; [lia|]. inversion Hsd as [|? ? _ Hgt]; subst. assert (filter (λ x : N * Entry, (x.1 < end_)%N) (omap decode l) = []) as ->.
    { apply filter_none. eapply Forall_impl; [exact Hgt|]. intros [j x]. rw /key_strict /=. lia. }
    by rw app_nil_r.
Qed.

Lemma decoded_range d start end_ l :
  rocks_inv d → (start ≤ u64_max)%N → StronglySorted key_bytes_lt l →
  (∀ k v, (k, v) ∈ l ↔ db_content d "logs" !! k = Some v ∧ bytes_lt k (id_to_bin start) = false) →
  Forall (entry_pair start) l ∧ (filter (λ x, (x.1 < end_)%N) (omap decode l)).*2 = LogSpec.read (rocks_view d) start end_.
Proof.
  intros Hd Hst Hs Hl. pose proof (ri_logs _ Hd) as Hm.
  assert (Forall (entry_pair start) l) as Hp.
  { apply Forall_forall. intros [k v] [Hk Hge]%Hl. destruct (Hm _ _ Hk) as (e & -> & Hlt & Hv). exists e. split_and!; [done..|].
    rw id_to_bin_lt in Hge; [lia..|]. by apply N.ltb_ge in Hge. }
  split; [done|]. rw /LogSpec.read -(snd_lookups (rocks_view d).(lv_log)) -filter_range. f_equal. apply strict_sorted_eq.
  - pose proof (decoded_sorted _ _ Hs Hp) as Hsd. by apply strongly_sorted_filter.
  - apply strongly_sorted_filter, btree_sorted.
  - intros [i e]. rw !list_elem_of_filter elem_of_btree list_elem_of_omap /= log_lookup //. split.
    + intros (Hlt & [k v] & Hin & Hdk). rewrite -> Forall_forall in Hp. destruct (entry_pair_decode _ _ (Hp _ Hin)) as (e' & He' & Hge & Hmax & Hk & Hv).
      rw He' in Hdk. injection Hdk as <- <-. split; [done|]. rw decide_True //. apply Hl in Hin as [Hin _]. cbn in Hk. rw -Hk Hin /= /parsed Hv. done.
    + intros [[Hge Hlt] He]. case_decide as Hmax; [|done]. split; [done|].
      destruct (db_content d "logs" !! id_to_bin i) as [v|] eqn:Hv; [|done]. exists (id_to_bin i, v). split.
      * apply Hl. split; [done|]. rw id_to_bin_lt; [lia..|]. by apply N.ltb_ge.
      * destruct (Hm _ _ Hv) as (e' & Hk & Hlt' & Hp'). apply id_to_bin_inj in Hk as ->; [|lia..].
        rw (decode_entry _ _ e') //. cbn in He. rw /parsed Hp' in He. by injection He as ->.
Qed.

Lemma get_entries_rocks d a b :
  rocks_inv d → (a ≤ u64_max)%N →
  wpr rocks_error (st_reads (λ d, try_get_log_entries d a b)) (λ es _, es = LogSpec.read (rocks_view d) a b) d.
Proof.
  intros Hd Ha. destruct (iterator_from_law d "logs" (id_to_bin a)) as (l & Hi & Hs & Hl).
  destruct (decoded_range d a b l Hd Ha Hs Hl) as [Hp <-]. pose proof (read_loop_run a b _ l [] Hi Hs Hp) as Hrun.
  rw /wpr /wp /st_reads /try_get_log_entries. by destruct (read_loop a b _ []) as [[es|e]|].
Qed.

Lemma get_meta_run {V} `{!SerdeJson V} (M : StoreMeta V) d : meta_inv M d →
  match get_meta M d with ROk v => v = meta_of M d | RErr e => rocks_error e end.
Proof.
  intros Hi. rw /get_meta /meta_of. pose proof (get_law d "meta" (key_bytes M)) as Hg.
  destruct (get_cf d "meta" (key_bytes M)) as [[b|]|e]; [|by rw -Hg|done].
  symmetry in Hg. destruct (Hi b Hg) as [x Hx]. by rw Hg Hx /= /parsed Hx.
Qed.

Lemma get_log_state_rocks d : rocks_inv d →
  wpr rocks_error (st_reads get_log_state)
    (λ r _, r = {| ls_last_purged_log_id := (rocks_view d).(lv_purged);
                   ls_last_log_id := LogSpec.last_log_id (rocks_view d) |}) d.
Proof.
  intros Hd. pose proof (iterator_end_law d "logs") as Hl. pose proof (get_meta_run _ d (ri_purged _ Hd)) as Hp.
  pose proof (btree_last (rocks_view d).(lv_log)) as Hb.
  rw /wpr /wp /st_reads /get_log_state /LogSpec.last_log_id.
  destruct (head _) as [[[k v]|e]|]; [|done|].
  - destruct Hl as [Hk Hmax]. destruct (ri_logs _ Hd _ _ Hk) as (e & -> & Hlt & Hv). rw Hv.
    destruct (get_meta _ d) as [p|]; [|done]. subst p. f_equal.
    assert (lv_log (rocks_view d) !! Entry.index e = Some e) as He.
    { cbn. rw log_lookup; [apply Hd|]. rw decide_True // Hk /= /parsed Hv. done. }
    destruct (list.last _) as [[j x]|]; [|by rw Hb in He]. destruct Hb as [Hj Hm].
    assert (j = Entry.index e) as ->; [|by rw He in Hj; injection Hj as <-].
    specialize (Hm _ _ He). pose proof Hj as Hj'. cbn in Hj'. rw log_lookup in Hj'; [apply Hd|]. case_decide as Hjm; [|done].
    destruct (db_content d "logs" !! id_to_bin j) as [v'|] eqn:Hv'; [|done]. specialize (Hmax _ _ Hv').
    rw id_to_bin_lt in Hmax; [lia..|]. apply N.ltb_ge in Hmax. lia.
  - destruct (get_meta _ d) as [p|]; [|done]. subst p. f_equal. rw /rocks_view /= Hl in Hb |- *.
    assert (log_of_content ∅ = ∅) as He by (by rw /log_of_content map_to_list_empty). rw He in Hb |- *.
    destruct (list.last _) as [[i e]|]; [by destruct Hb as [Hb _]; rw lookup_empty in Hb|].
    by destruct (meta_of _ d).
Qed.

(** *** Writing *)
Lemma map_err_run {A} (f : string → StorageError) (n : ST DB (Result A string)) (Q : A → DB → Prop) d :
  (∀ e, (f e).(source) = e) → wpr db_error n Q d → wpr rocks_error (map_err f n) Q d.
Proof.
  intros Hf Hn. rw /map_err. apply wpr_bind. rw /wpr in Hn. eapply wp_mono; [exact Hn|]. intros [a|e] d' H'; [done|].
  rw /wpr /wp /= /rocks_error Hf. done.
Qed.

Lemma flush_run f sync d : (∀ e, (f e).(source) = e) →
  wpr rocks_error (map_err f (flush_wal sync)) (λ _ d', ∀ cf, db_content d' cf = db_content d cf) d.
Proof. intros Hf. by apply map_err_run, flush_law. Qed.

Lemma put_meta_run {V} `{!SerdeJson V, !SerdeJsonLaws V} (M : StoreMeta V) (x : V) d :
  wpr rocks_error (put_meta M x)
    (λ _ d', db_content d' "logs" = db_content d "logs" ∧
       ∃ b, from_slice b = ROk x ∧ db_content d' "meta" = <[key_bytes M := b]> (db_content d "meta")) d.
Proof.
  destruct (vec_round_trip x) as (b & Hto & Hfrom & _). rw /put_meta Hto. apply map_err_run; [done|].
  eapply wpr_mono; [apply put_law|]. intros _ d' [Hm Hother]. split; [by apply Hother|]. eauto.
Qed.

Lemma same_content d d' : (∀ cf, db_content d' cf = db_content d cf) → rocks_inv d →
  rocks_inv d' ∧ rocks_view d' = rocks_view d.
Proof.
  intros Hc [H1 H2 H3]. split; [split; rw /meta_inv ?Hc //|]. by rw /rocks_view /meta_of !Hc.
Qed.

Lemma log_insert m e v : logs_inv m → (Entry.index e < u64_max)%N → from_slice v = ROk e →
  let m' := <[id_to_bin (Entry.index e) := v]> m in
  logs_inv m' ∧ log_of_content m' = <[Entry.index e := e]> (log_of_content m).
Proof.
  intros Hm Hlt Hv m'. assert (logs_inv m') as Hm'.
  { intros k x. rw /m' lookup_insert_Some. intros [[<- <-]|[_ Hk]]; [by exists e|by apply Hm]. }
  split; [done|]. apply map_eq. intros i. rw lookup_insert log_lookup // /m'. destruct (decide (Entry.index e = i)) as [<-|Hne].
  - by rw decide_True // lookup_insert_eq /= /parsed Hv.
  - rw log_lookup //. case_decide; [|done]. rw lookup_insert_ne //. intros Heq%id_to_bin_inj; [done|lia..].
Qed.

Lemma log_delete m m' (P : N → Prop) `{!∀ i, Decision (P i)} (a b : N) : logs_inv m → (a ≤ u64_max)%N → (b ≤ u64_max)%N →
  (∀ k, m' !! k = if negb (bytes_lt k (id_to_bin a)) && bytes_lt k (id_to_bin b) then None else m !! k) →
  (∀ i, (i < u64_max)%N → P i ↔ ¬ ((a ≤ i)%N ∧ (i < b)%N)) →
  logs_inv m' ∧ log_of_content m' = filter (λ '(i, _), P i) (log_of_content m).
Proof.
  intros Hm Ha Hb Hm' HP. assert (logs_inv m') as Hi.
  { intros k v. rw Hm'. case_match; [done|]. apply Hm. }
  split; [done|]. apply map_eq. intros i. apply option_eq. intros e. rw map_lookup_filter_Some !log_lookup //.
  case_decide as Hlt; [|naive_solver]. rw Hm' !id_to_bin_lt; [lia..|]. rw (HP i Hlt).
  destruct (N.ltb_spec i a), (N.ltb_spec i b); cbn; naive_solver lia.
Qed.

Lemma append_entries_rocks es d : rocks_inv d → Forall (λ e, (Entry.index e < u64_max)%N) es →
  wpr rocks_error (append_entries es) (λ _ d', rocks_inv d' ∧ rocks_view d' = LogSpec.append (rocks_view d) es) d.
Proof.
  intros Hd Hes. revert d Hd. induction Hes as [|e es He _ IH]; intros d Hd; [by apply wpr_ret|]. cbn [append_entries].
  apply wpr_bind. eapply wp_lift; [apply bin_to_id_to_bin; lia|]. apply wpr_bind. rw N.eqb_refl.
  eapply wp_lift; [done|]. destruct (vec_round_trip e) as (b & -> & Hb & _).
  apply wpr_try. eapply wpr_mono; [apply map_err_run; [done|apply put_law]|]. intros _ d1 [Hl Ho].
  destruct (log_insert _ e b (ri_logs _ Hd) He Hb) as [Hi Hv]. assert (db_content d1 "meta" = db_content d "meta") as Hm by by apply Ho.
  assert (rocks_inv d1) as Hd1. { split; rw /meta_inv ?Hl ?Hm; [done|apply Hd..]. }
  eapply wpr_mono; [by apply IH|]. intros _ d' [Hd' ->]. split; [done|].
  rw /LogSpec.append /rocks_view /LogSpec.set_log /meta_of /= Hm Hl Hv. done.
Qed.

(** The numbers an operation uses are in range: RocksDB has no key behind the largest one. *)
Definition op_in_range (op : LogOp) : Prop :=
  match op with
  | Op_Append es _ => Forall (λ e, (Entry.index e < u64_max)%N) es
  | Op_Truncate x => (x.(index) ≤ u64_max)%N
  | Op_Purge x => (x.(index) < u64_max)%N
  | _ => True
  end.

Lemma put_meta_vote v d : rocks_inv d →
  wpr rocks_error (put_meta RocksMeta.Vote_ v) (λ _ d', rocks_inv d' ∧ rocks_view d' = LogSpec.save_vote (rocks_view d) v) d.
Proof.
  intros Hd. eapply wpr_mono; [apply put_meta_run|]. intros _ d' (Hl & b & Hb & Hm). split.
  - split; rw /meta_inv ?Hl ?Hm; [apply Hd| |].
    + intros b'. rw lookup_insert_eq. intros [= <-]. by exists v.
    + intros b'. rw lookup_insert_ne //. apply Hd.
  - rw /rocks_view /LogSpec.save_vote /meta_of /= Hl Hm lookup_insert_ne // lookup_insert_eq /= /parsed Hb. done.
Qed.
Lemma put_meta_purged x d : rocks_inv d →
  wpr rocks_error (put_meta RocksMeta.LastPurged x)
    (λ _ d', rocks_inv d' ∧ rocks_view d' = {| lv_purged := Some x; lv_log := (rocks_view d).(lv_log);
       lv_vote := (rocks_view d).(lv_vote); lv_committed := None |} ∧ db_content d' "logs" = db_content d "logs") d.
Proof.
  intros Hd. eapply wpr_mono; [apply put_meta_run|]. intros _ d' (Hl & b & Hb & Hm). split_and!; [|..|done].
  - split; rw /meta_inv ?Hl ?Hm; [apply Hd| |].
    + intros b'. rw lookup_insert_ne //. apply Hd.
    + intros b'. rw lookup_insert_eq. intros [= <-]. by exists x.
  - rw /rocks_view /meta_of /= Hl Hm lookup_insert_eq lookup_insert_ne //= /parsed Hb. done.
Qed.

(** Deleting a range leaves the metadata alone. *)
Lemma delete_run f (P : N → Prop) `{!∀ i, Decision (P i)} a b d : rocks_inv d → (a ≤ u64_max)%N → (b ≤ u64_max)%N →
  (∀ e, (f e).(source) = e) → (∀ i, (i < u64_max)%N → P i ↔ ¬ ((a ≤ i)%N ∧ (i < b)%N)) →
  wpr rocks_error (map_err f (delete_range_cf "logs" (id_to_bin a) (id_to_bin b)))
    (λ _ d', rocks_inv d' ∧ rocks_view d' = LogSpec.set_log (rocks_view d) (filter (λ '(i, _), P i) (rocks_view d).(lv_log))) d.
Proof.
  intros Hd Ha Hb Hf HP. eapply wpr_mono; [apply map_err_run; [done|apply delete_range_law]|]. intros _ d' [Hl Ho].
  assert (db_content d' "meta" = db_content d "meta") as Hm by by apply Ho.
  destruct (log_delete _ _ P a b (ri_logs _ Hd) Ha Hb Hl HP) as [Hi Hv]. split.
  - split; rw /meta_inv ?Hm; [done|apply Hd..].
  - by rw /rocks_view /LogSpec.set_log /meta_of /= Hm Hv.
Qed.

Lemma exec_op_rocks op d : rocks_inv d → op_in_range op →
  wpr rocks_error (exec_op op) (λ _ d', rocks_inv d' ∧ rocks_view d' = spec_op false (rocks_view d) op) d.
Proof.
  intros Hd Hr. destruct op as [v|c|es cb|x|x]; cbn [exec_op spec_op op_in_range] in Hr |- *.
  - change (RaftLogStorage.save_vote v) with (save_vote v). rw /save_vote. apply wpr_try.
    eapply wpr_mono; [by apply put_meta_vote|]. intros _ d1 [Hd1 Hv1]. eapply wpr_mono; [by apply flush_run|].
    intros [] d' Hc. rewrite <- Hv1. by apply same_content.
  - by apply wpr_ret.
  - change (RaftLogStorage.append es cb) with (append es cb). rw /append.
    assert (wpr rocks_error (_ ←? append_entries es; map_err StorageError.write_logs (flush_wal true))
      (λ _ d', rocks_inv d' ∧ rocks_view d' = LogSpec.append (rocks_view d) es) d) as Happ.
    { apply wpr_try. eapply wpr_mono; [by apply append_entries_rocks|]. intros _ d1 [Hd1 Hv1].
      eapply wpr_mono; [by apply flush_run|]. intros [] d' Hc. rewrite <- Hv1. by apply same_content. }
    apply wpr_bind, wp_bind. rw /wpr in Happ. eapply wp_mono; [exact Happ|]. intros [[]|e] d' H'; [|done].
    rw /wp /mbind /st_bind /lift /IOFlushed.io_completed. by destruct (io_tx cb).
  - change (RaftLogStorage.truncate x) with (truncate (DB := DB) x). rw /truncate. apply wpr_try.
    eapply wpr_mono; [apply (delete_run _ (λ i, (i < x.(index))%N)); try done; intros i Hi; lia|]. intros _ d1 [Hd1 Hv1].
    eapply wpr_mono; [by apply flush_run|]. intros [] d' Hc. rewrite /LogSpec.truncate -Hv1. by apply same_content.
  - change (RaftLogStorage.purge x) with (purge (DB := DB) x). rw /purge. apply wpr_try.
    eapply wpr_mono; [by apply put_meta_purged|]. intros _ d1 (Hd1 & Hv1 & _). apply wpr_bind.
    destruct (N.ltb_spec x.(index) u64_max); [|lia]. eapply wp_lift; [done|].
    eapply wpr_mono; [apply (delete_run _ (λ i, (x.(index) < i)%N)); try done; [lia|intros i Hi; lia]|]. intros _ d' [Hd' ->].
    split; [done|]. by rw Hv1.
Qed.

(** C21: The store on RocksDB implements the abstract log store.  Every legal sequence of writes with indexes below
    the largest number either reports an error of the database or leaves it with exactly the entries, vote and
    purged id of the abstract store (committed ids are not saved); a read then answers what the abstract store
    holds, in the order of the indexes, or reports an error. *)
Theorem rocks_log_store_refines ops d :
  rocks_inv d → log_ok (rocks_view d) → legal_ops false (rocks_view d) ops → Forall op_in_range ops →
  wpr rocks_error (exec_ops ops)
    (λ _ d', rocks_inv d' ∧ rocks_view d' = foldl (spec_op false) (rocks_view d) ops ∧ log_ok (rocks_view d') ∧
       (∀ a b, (a ≤ u64_max)%N →
          wpr rocks_error (st_reads (λ d, try_get_log_entries d a b)) (λ es _, es = LogSpec.read (rocks_view d') a b) d') ∧
       wpr rocks_error (st_reads get_log_state)
         (λ r _, r = {| ls_last_purged_log_id := (rocks_view d').(lv_purged);
                        ls_last_log_id := LogSpec.last_log_id (rocks_view d') |}) d' ∧
       wpr rocks_error (st_reads read_vote) (λ r _, r = (rocks_view d').(lv_vote)) d') d.
Proof.
  intros Hd Hok Hl Hr. revert d Hd Hok Hl. induction Hr as [|op ops Hop _ IH]; intros d Hd Hok Hl.
  - apply wpr_ret. split_and!; [done..|intros a b; by apply get_entries_rocks|by apply get_log_state_rocks|].
    rw /wpr /wp /st_reads /read_vote. pose proof (get_meta_run _ d (ri_vote _ Hd)) as Hg. by destruct (get_meta _ d).
  - destruct Hl as [Hlop Hl]. cbn [exec_ops]. apply wpr_try. eapply wpr_mono; [by apply exec_op_rocks|].
    intros _ d1 [Hd1 Hv1]. cbn [foldl]. rw -Hv1. apply IH; [done|..]; rw Hv1; [by apply legal_op_ok|done].
Qed.
End rocks_log.

(** ** Big-endian numbers satisfy the laws of [ByteOrder] *)
Section big_endian.
Open Scope N_scope.

Definition byte_of (m : N) : Byte.byte := default Byte.x00 (Byte.of_N m).
Fixpoint be_bytes (n : nat) (i : N) : bytes :=
  match n with O => [] | S n => be_bytes n (i / 256) ++ [byte_of (i mod 256)] end.
Definition be_value (b : bytes) : N := foldl (λ a x, a * 256 + Byte.to_N x) 0 b.
Definition big_endian : ByteOrder := {|
  write_u64 := be_bytes 8; read_u64 b := if (length b =? 8)%nat then Some (be_value b) else None |}.

Lemma to_byte_of m : m < 256 → Byte.to_N (byte_of m) = m.
Proof.
  intros Hm. rw /byte_of. destruct (Byte.of_N m) as [b|] eqn:Hb; [by apply Byte.to_of_N_iff|].
  apply Byte.of_N_None_iff in Hb. lia.
Qed.
Lemma mod_256 i : i mod 256 < 256.
Proof. by apply N.mod_lt. Qed.
Lemma length_be n i : length (be_bytes n i) = n.
Proof. revert i. induction n as [|n IH]; intros i; [done|]. cbn. rw length_app IH /=. lia. Qed.
Lemma div_256_lt n i : i < 256 ^ N.of_nat (S n) → i / 256 < 256 ^ N.of_nat n.
Proof. intros Hi. apply N.Div0.div_lt_upper_bound. by rw -N.pow_succ_r' -Nnat.Nat2N.inj_succ. Qed.

Lemma value_be n i : i < 256 ^ N.of_nat n → be_value (be_bytes n i) = i.
Proof.
  revert i. induction n as [|n IH]; intros i Hi; [cbn in Hi |- *; lia|]. cbn [be_bytes].
  rw /be_value foldl_snoc -/(be_value _) IH; [by apply div_256_lt|]. rw to_byte_of; [apply mod_256|].
  rw N.mul_comm. symmetry. by apply N.div_mod.
Qed.

Lemma bytes_lt_app a b x y : length a = length b → bytes_lt a b = true → bytes_lt (a ++ x) (b ++ y) = true.
Proof.
  revert b. induction a as [|c a IH]; intros [|c' b]; try done. cbn. intros [= Hlen].
  destruct (_ <? _); [done|]. destruct (_ <? _); [done|]. by apply IH.
Qed.
Lemma bytes_lt_prefix a x y : bytes_lt (a ++ x) (a ++ y) = bytes_lt x y.
Proof. induction a as [|c a IH]; [done|]. cbn. by rw N.ltb_irrefl. Qed.

Lemma be_lt n i j : i < j → j < 256 ^ N.of_nat n → bytes_lt (be_bytes n i) (be_bytes n j) = true.
Proof.
  revert i j. induction n as [|n IH]; intros i j Hij Hj; [cbn in Hj; lia|]. cbn [be_bytes].
  assert (i / 256 ≤ j / 256) as Hle by (apply N.Div0.div_le_mono; lia).
  destruct (decide (i / 256 = j / 256)) as [Heq|Hne].
  - rw Heq bytes_lt_prefix. cbn. rw !to_byte_of; [apply mod_256|apply mod_256|].
    assert (i mod 256 < j mod 256) as ->%N.ltb_lt; [|done].
    pose proof (N.div_mod i 256 ltac:(done)) as Hi'. pose proof (N.div_mod j 256 ltac:(done)) as Hj'. rw Heq in Hi'.
    revert Hi' Hj' Hij. generalize (j / 256) (i mod 256) (j mod 256). intros. lia.
  - apply bytes_lt_app; [by rw !length_be|]. apply IH; [|by apply div_256_lt].
    revert Hne Hle. generalize (i / 256) (j / 256). intros. lia.
Qed.

(** The keys round-trip and sort like the numbers. *)
Lemma big_endian_laws : ByteOrderLaws (H := big_endian).
Proof.
  assert (∀ i, i ≤ u64_max → i < 256 ^ N.of_nat 8) as Hmax. { intros i. change (256 ^ N.of_nat 8) with (u64_max + 1). lia. }
  split.
  - intros i Hi. cbn [read_u64 write_u64 big_endian]. rw length_be value_be //. by apply Hmax.
  - intros i. apply length_be.
  - intros i j Hij Hj. apply be_lt; [done|by apply Hmax].
Qed.
End big_endian.

(** ** A database that does not fail: an ordered map per column family *)
Section map_db.
Lemma bytes_lt_total a b : bytes_lt a b = false → bytes_lt b a = false → a = b.
Proof.
  revert b. induction a as [|x a IH]; intros [|y b]; try done. cbn.
  destruct (N.ltb_spec (Byte.to_N x) (Byte.to_N y)), (N.ltb_spec (Byte.to_N y) (Byte.to_N x)); try done.
  intros H1 H2. f_equal; [|by apply IH]. assert (Byte.to_N x = Byte.to_N y) as Heq by lia.
  pose proof (Byte.of_to_N x) as Hx. rw Heq Byte.of_to_N in Hx. by injection Hx.
Qed.
Lemma bytes_lt_trans a b c : bytes_lt a b = true → bytes_lt b c = true → bytes_lt a c = true.
Proof.
  revert b c. induction a as [|x a IH]; intros [|y b] [|z c]; try done. cbn.
  destruct (N.ltb_spec (Byte.to_N x) (Byte.to_N y)), (N.ltb_spec (Byte.to_N y) (Byte.to_N z)),
    (N.ltb_spec (Byte.to_N x) (Byte.to_N z)); try done; try lia.
  - destruct (N.ltb_spec (Byte.to_N z) (Byte.to_N y)); [done|lia].
  - destruct (N.ltb_spec (Byte.to_N y) (Byte.to_N x)); [done|lia].
  - destruct (N.ltb_spec (Byte.to_N y) (Byte.to_N x)), (N.ltb_spec (Byte.to_N z) (Byte.to_N y)),
      (N.ltb_spec (Byte.to_N z) (Byte.to_N x)); try done; try lia. apply IH.
Qed.

Definition key_bytes_le (a b : bytes * bytes) : Prop := bytes_lt b.1 a.1 = false.
#[local] Instance key_bytes_le_dec : RelDecision key_bytes_le.
Proof. intros a b. rw /key_bytes_le. apply _. Defined.
#[local] Instance key_bytes_le_total : Total key_bytes_le.
Proof.
  intros [a x] [b y]. rw /key_bytes_le /=. destruct (bytes_lt b a) eqn:H; [right; by apply bytes_lt_asym|by left].
Qed.
#[local] Instance key_bytes_le_trans : Transitive key_bytes_le.
Proof.
  intros [a x] [b y] [c z]. rw /key_bytes_le /=. intros H1 H2. destruct (bytes_lt c a) eqn:H3; [|done].
  destruct (bytes_lt a b) eqn:H4; [by rw (bytes_lt_trans c a b) in H2|]. by rw (bytes_lt_total a b H4 H1) H2 in H3.
Qed.

Definition MapDB : Type := gmap string (gmap bytes bytes).
Definition family (d : MapDB) (cf : string) : gmap bytes bytes := default ∅ (d !! cf).
Definition sorted_pairs (d : MapDB) (cf : string) : list (bytes * bytes) := merge_sort key_bytes_le (map_to_list (family d cf)).
Definition set_family (cf : string) (f : gmap bytes bytes → gmap bytes bytes) : ST MapDB (Result unit string) := λ d,
  Done (ROk tt, <[cf := f (family d cf)]> d).

#[local] Instance map_db : RocksDB MapDB := {|
  get_cf d cf k := ROk (family d cf !! k);
  put_cf cf k v := set_family cf (insert k v);
  delete_range_cf cf a b := set_family cf (filter (λ kv, negb (bytes_lt kv.1 a) && bytes_lt kv.1 b = false));
  iterator_cf d cf mode :=
    ROk <$> match mode with
            | From start => filter (λ kv, bytes_lt kv.1 start = false) (sorted_pairs d cf)
            | End_ => reverse (sorted_pairs d cf)
            end;
  flush_wal _ := mret (ROk tt);
|}.

Lemma elem_of_sorted d cf k v : (k, v) ∈ sorted_pairs d cf ↔ family d cf !! k = Some v.
Proof. rw /sorted_pairs merge_sort_Permutation. apply elem_of_map_to_list. Qed.
Lemma sorted_pairs_sorted d cf : StronglySorted key_bytes_lt (sorted_pairs d cf).
Proof.
  assert (StronglySorted key_bytes_le (sorted_pairs d cf)) as Hs by (apply StronglySorted_merge_sort; apply _).
  assert (NoDup (sorted_pairs d cf).*1) as Hd.
  { rw /sorted_pairs. rewrite (fmap_Permutation fst _ _ (merge_sort_Permutation _ _)). apply NoDup_fst_map_to_list. }
  revert Hs Hd. generalize (sorted_pairs d cf). intros l Hs. induction Hs as [|x l Hs IH Hx]; intros Hd; [constructor|].
  apply NoDup_cons in Hd as [Hni Hd]. constructor; [by apply IH|]. rewrite -> Forall_forall in Hx. apply Forall_forall. intros y Hy.
  specialize (Hx y Hy). rw /key_bytes_le in Hx. rw /key_bytes_lt. destruct (bytes_lt x.1 y.1) eqn:Hlt; [done|].
  destruct Hni. rw (bytes_lt_total _ _ Hlt Hx). by apply list_elem_of_fmap_2.
Qed.
Lemma iterates_all {A} (P : string → Prop) (l : list A) : iterates P (ROk <$> l) l.
Proof. induction l; by constructor. Qed.
Lemma family_set cf f d cf' : family (<[cf := f]> d) cf' = if decide (cf = cf') then f else family d cf'.
Proof. rw /family lookup_insert. by case_decide. Qed.

#[local] Program Instance map_db_laws : RocksDBLaws MapDB := {| db_error := λ _, False; db_content := family |}.
Next Obligation. done. Qed.
Next Obligation.
  intros d cf k v. rw /wpr /wp /=. split; [by rw family_set decide_True|].
  intros cf' Hne. by rw family_set decide_False.
Qed.
Next Obligation.
  intros d cf a b. rw /wpr /wp /=. split; [|intros cf' Hne; by rw family_set decide_False].
  intros k. rw family_set decide_True //. apply option_eq. intros v. rw map_lookup_filter_Some /=.
  destruct (_ && _); naive_solver.
Qed.
Next Obligation. done. Qed.
Next Obligation.
  intros d cf start. eexists. split; [apply iterates_all|]. split; [apply strongly_sorted_filter, sorted_pairs_sorted|].
  intros k v. rw list_elem_of_filter elem_of_sorted /=. tauto.
Qed.
Next Obligation.
  intros d cf. cbn. pose proof (sorted_pairs_sorted d cf) as Hs. pose proof (elem_of_sorted d cf) as He.
  destruct (sorted_pairs d cf) as [|x l _] using rev_ind.
  - cbn. apply map_empty. intros k. destruct (family d cf !! k) as [v|] eqn:Hk; [|done]. by apply He, not_elem_of_nil in Hk.
  - rw reverse_snoc /=. destruct x as [k v]. split; [apply He; set_solver|]. intros k' v' Hk'. apply He in Hk'.
    apply elem_of_app in Hk' as [Hin|Heq%list_elem_of_singleton].
    + eapply StronglySorted_app_1_elem_of in Hs; [|done|by apply list_elem_of_singleton]. by apply bytes_lt_asym.
    + injection Heq as -> ->. apply bytes_lt_irrefl.
Qed.

(** The operations of the fixture of [MemStore]. *)
#[local] Existing Instances MemConfig entry_json entry_json_laws leader_id_countable log_id_countable.
#[local] Instance vote_countable : Countable Vote.
Proof.
  refine (inj_countable' (λ v, (v.(vote_leader_id), is_committed v)) (λ p, from_leader_id p.1 p.2) _). by intros [].
Defined.
#[local] Instance vote_json : SerdeJson Vote := countable_json Vote.
#[local] Instance vote_json_laws : SerdeJsonLaws Vote := countable_json_laws Vote.
#[local] Instance log_id_json : SerdeJson LogId := countable_json LogId.
#[local] Instance log_id_json_laws : SerdeJsonLaws LogId := countable_json_laws LogId.
#[local] Existing Instances big_endian big_endian_laws.

Lemma rocks_new_ok : rocks_inv (∅ : MapDB) ∧ rocks_view (∅ : MapDB) = LogSpec.empty.
Proof. split; [|by vm_compute]. split; intros k; cbn; rw /family lookup_empty /= ?lookup_empty; done. Qed.

Lemma rocks_log_store_refines_witness :
  ∃ d' : MapDB, exec_ops mem_ops (∅ : MapDB) = Done (ROk tt, d') ∧
    RocksLogStore.try_get_log_entries d' 0 10 = Done (ROk (take 2 (drop 1 mem_entries))) ∧
    RocksLogStore.get_log_state d' = Done (ROk {| ls_last_purged_log_id := Some (mem_id 0 0);
                                                 ls_last_log_id := Some (mem_id 1 2) |}).
Proof.
  destruct rocks_new_ok as [Hi Hv]. assert (∀ e, ¬ rocks_error (DB := MapDB) e) as Hno by (by intros e He; exact He).
  assert (log_ok (rocks_view (∅ : MapDB))) as Hok by (rw Hv; exact (empty_log_ok None None None eq_refl)).
  assert (legal_ops false (rocks_view (∅ : MapDB)) mem_ops) as Hl.
  { rw Hv. cbn [legal_ops mem_ops]. split_and!; try done; try (by vm_compute). split; [by vm_compute|left; by vm_compute]. }
  assert (Forall op_in_range mem_ops) as Hr by (repeat constructor; by vm_compute).
  destruct (wpr_total _ _ _ (∅ : MapDB) Hno (rocks_log_store_refines mem_ops (∅ : MapDB) Hi Hok Hl Hr))
    as ([] & d' & Hrun & _ & Hview & _ & Hread & Hst & _). exists d'. split; [exact Hrun|].
  specialize (Hread 0%N 10%N ltac:(by vm_compute)).
  apply wpr_total in Hread as (es & d1 & Hes & ->); [|done]. apply wpr_total in Hst as (st & d2 & Hst & ->); [|done].
  rw Hview Hv in Hes Hst. revert Hes Hst. rw /st_reads.
  destruct (RocksLogStore.try_get_log_entries d' 0 10) as [res|]; [|done]. intros [= -> _].
  destruct (RocksLogStore.get_log_state d') as [res|]; [|done]. intros [= -> _]. split; by vm_compute.
Defined.
End map_db.
