(* ===== verification/RocksMachine.v ===== *)
(** * The state machine over RocksDB (examples/rocksstore/src/lib.rs)

    [RocksStateMachine] keeps its data in memory and the last snapshot in the database; a new one starts from that
    snapshot.  It satisfies the laws of the interface whatever the database does, and a snapshot that was saved
    survives a restart. *)

From S2P Require Export Rocks.
From stdpp Require Import pretty.

(** ** Snapshot meta data is countable, for the witnesses *)
Section meta_countable.
Context {C : RaftTypeConfig} `{!Countable CommittedLeaderId, !Countable Node}.
Local Ltac countable f g := refine (inj_countable' f g _); by intros [].
#[local] Instance meta_log_id_countable : Countable LogId.
Proof. countable (λ l, (leader_id l, index l)) (λ p, LogId_new p.1 p.2). Defined.
#[local] Instance meta_membership_countable : Countable Membership.
Proof. countable (λ m, (configs m, nodes m)) (λ p, {| configs := p.1; nodes := p.2 |}). Defined.
#[local] Instance meta_stored_countable : Countable StoredMembership.
Proof. countable (λ m, (stored_log_id m, stored_membership_ m)) (λ p, {| stored_log_id := p.1; stored_membership_ := p.2 |}). Defined.
#[local] Instance meta_eq_dec : EqDecision SnapshotMeta.
Proof. solve_decision. Defined.
#[local] Instance meta_countable : Countable SnapshotMeta.
Proof.
  countable (λ m, (meta_last_log_id m, RaftState.last_membership m, RaftState.snapshot_id m))
    (λ p, {| meta_last_log_id := p.1.1; RaftState.last_membership := p.1.2; RaftState.snapshot_id := p.2 |}).
Defined.
End meta_countable.

(** ** The state machine *)
Inductive RocksRequest := RocksRequest_Set (key value : string).
Record RocksResponse := { rocks_value : option string }.

(** [declare_raft_types!(TypeConfig)] with its defaults *)
Definition RocksConfig : RaftTypeConfig := {|
  D := RocksRequest; R := RocksResponse; Node := BasicNode; SnapshotData := Cursor;
  LeaderId := LeaderIdAdv.LeaderId; CommittedLeaderId := LeaderIdAdv.LeaderId;
|}.

Module RocksSm.
#[local] Existing Instance RocksConfig.

Record RocksSnapshot := { rs_meta : SnapshotMeta; rs_data : bytes }.
Record StateMachine := {
  last_applied_log : option LogId;
  last_membership : StoredMembership;
  data : gmap string string;
}.
(** [rng] are the numbers [thread_rng] draws below 1000. *)
Record RocksStateMachine {DB : Type} := { db : DB; sm : StateMachine; rng : nat → N; draws : nat }.
Arguments RocksStateMachine DB : clear implicits.

Section ops.
Context {DB : Type} `{!RocksDB DB, !SerdeJson StateMachine, !SerdeJson RocksSnapshot}.
Implicit Types s : RocksStateMachine DB.

Definition default_sm : StateMachine := {|
  last_applied_log := None;
  last_membership := {| stored_log_id := None; stored_membership_ := Membership.default |}; data := ∅ |}.

Definition set_sm s x : RocksStateMachine DB := {| db := s.(db); sm := x; rng := s.(rng); draws := s.(draws) |}.
Definition on_db {A} (m : ST DB A) : ST (RocksStateMachine DB) A :=
  zoom db (λ s d, {| db := d; sm := s.(sm); rng := s.(rng); draws := s.(draws) |}) m.
Definition gen_range : ST (RocksStateMachine DB) N := λ s,
  Done (s.(rng) s.(draws), {| db := s.(db); sm := s.(sm); rng := s.(rng); draws := S s.(draws) |}).

Definition snapshot_key : bytes := String.list_byte_of_string "snapshot".
Definition write_err (m : SnapshotMeta) (e : string) : StorageError :=
  StorageError.write_snapshot (Some (SnapshotMeta.signature m)) e.

Definition snapshot_id_of (last : option LogId) (snapshot_idx : N) : string :=
  match last with
  | Some last => show_leader_id last.(leader_id) +:+ "-" +:+ pretty last.(index) +:+ "-" +:+ pretty snapshot_idx
  | None => "--" +:+ pretty snapshot_idx
  end.

Definition build_snapshot : ST (RocksStateMachine DB) (Result Snapshot StorageError) :=
  s ← st_get;
  match to_vec s.(sm) with
  | RErr e => mret (RErr (StorageError.read_state_machine e))
  | ROk data =>
      let last_applied_log := s.(sm).(last_applied_log) in
      let last_membership := s.(sm).(last_membership) in
      snapshot_idx ← gen_range;
      let meta := {| meta_last_log_id := last_applied_log; RaftState.last_membership := last_membership;
                     RaftState.snapshot_id := snapshot_id_of last_applied_log snapshot_idx |} in
      let snapshot := {| rs_meta := meta; rs_data := data |} in
      match to_vec snapshot with
      | RErr e => mret (RErr (write_err meta e))
      | ROk serialized_snapshot =>
          _ ←? RocksLogStore.map_err (write_err meta) (on_db (put_cf "sm_meta" snapshot_key serialized_snapshot));
          mret (ROk {| meta := meta; snapshot_data := Cursor.new data |})
      end
  end.

Definition applied_state s : Outcome (Result (option LogId * StoredMembership) StorageError) :=
  Done (ROk (s.(sm).(last_applied_log), s.(sm).(last_membership))).

(** Applying one entry: the response and the state machine. *)
Definition apply_entry (x : StateMachine) (entry : Entry) : RocksResponse * StateMachine :=
  let applied := Some (Entry.log_id entry) in
  match entry.(payload) with
  | Blank =>
      ({| rocks_value := None |},
       {| last_applied_log := applied; last_membership := x.(last_membership); data := x.(data) |})
  | Normal (RocksRequest_Set key value) =>
      ({| rocks_value := Some value |},
       {| last_applied_log := applied; last_membership := x.(last_membership); data := <[key := value]> x.(data) |})
  | MembershipPayload mem =>
      ({| rocks_value := None |},
       {| last_applied_log := applied;
          last_membership := {| stored_log_id := Some (Entry.log_id entry); stored_membership_ := mem |};
          data := x.(data) |})
  end.

Fixpoint apply_loop (entries : list Entry) (res : list RocksResponse) :
    ST (RocksStateMachine DB) (Result (list RocksResponse) StorageError) :=
  match entries with
  | [] => mret (ROk res)
  | entry :: entries =>
      s ← st_get;
      let '(resp, x) := apply_entry s.(sm) entry in
      _ ← st_put (set_sm s x);
      apply_loop entries (res ++ [resp])
  end.
Definition apply (entries : list Entry) : ST (RocksStateMachine DB) (Result (list RocksResponse) StorageError) :=
  apply_loop entries [].

Definition begin_receiving_snapshot : ST (RocksStateMachine DB) (Result Cursor StorageError) :=
  mret (ROk (Cursor.new [])).

(** The state machine is replaced before the snapshot is saved. *)
Definition install_snapshot (m : SnapshotMeta) (snapshot : Cursor) : ST (RocksStateMachine DB) (Result unit StorageError) :=
  let new_snapshot := {| rs_meta := m; rs_data := snapshot.(cursor_inner) |} in
  match from_slice new_snapshot.(rs_data) with
  | RErr e => mret (RErr (StorageError.read_snapshot (Some (SnapshotMeta.signature new_snapshot.(rs_meta))) e))
  | ROk updated_state_machine =>
      _ ← st_modify (λ s, set_sm s updated_state_machine);
      match to_vec new_snapshot with
      | RErr e => mret (RErr (write_err m e))
      | ROk serialized_snapshot =>
          _ ←? RocksLogStore.map_err (write_err m) (on_db (put_cf "sm_meta" snapshot_key serialized_snapshot));
          RocksLogStore.map_err (write_err m) (on_db (flush_wal true))
      end
  end.

Definition get_current_snapshot s : Outcome (Result (option Snapshot) StorageError) :=
  Done (match get_cf s.(db) "sm_meta" snapshot_key with
        | RErr e => RErr (StorageError.write_snapshot None e)
        | ROk None => ROk None
        | ROk (Some bytes) =>
            match from_slice bytes with
            | RErr e => RErr (StorageError.write_snapshot None e)
            | ROk snapshot =>
                ROk (Some {| meta := snapshot.(rs_meta); snapshot_data := Cursor.new snapshot.(rs_data) |})
            end
        end).

(** [RocksStateMachine::new] *)
Definition new (db : DB) (rng : nat → N) : Outcome (RocksStateMachine DB) :=
  let state_machine := {| db := db; sm := default_sm; rng := rng; draws := 0 |} in
  snapshot ← get_current_snapshot state_machine;
  match snapshot with
  | RErr _ => Panic "called `Result::unwrap()` on an `Err` value"
  | ROk None => Done state_machine
  | ROk (Some s) =>
      match from_slice (T := StateMachine) s.(snapshot_data).(cursor_inner) with
      | RErr _ => Panic "called `Result::unwrap()` on an `Err` value"
      | ROk prev => Done (set_sm state_machine prev)
      end
  end.
End ops.

#[global] Instance rocks_state_machine {DB : Type} `{!RocksDB DB, !SerdeJson StateMachine, !SerdeJson RocksSnapshot} :
  RaftStateMachine.RaftStateMachine (RocksStateMachine DB) := {|
  RaftStateMachine.applied_state := applied_state;
  RaftStateMachine.get_current_snapshot := get_current_snapshot;
  RaftStateMachine.apply := apply;
  RaftStateMachine.begin_receiving_snapshot := begin_receiving_snapshot;
  RaftStateMachine.install_snapshot := install_snapshot;
  RaftStateMachine.build_snapshot := build_snapshot;
|}.

(** ** The laws *)
Section laws.
Context {DB : Type} `{!RocksDB DB, !RocksDBLaws DB}.
Context `{!SerdeJson StateMachine, !SerdeJsonLaws StateMachine, !SerdeJson RocksSnapshot, !SerdeJsonLaws RocksSnapshot}.
Implicit Types s : RocksStateMachine DB.

Definition saved (d : DB) : option bytes := db_content d "sm_meta" !! snapshot_key.
(** What is saved is a snapshot. *)
Definition rocks_sm_inv s : Prop := ∀ b, saved s.(db) = Some b → ∃ r : RocksSnapshot, from_slice b = ROk r.
Definition to_snapshot (r : RocksSnapshot) : Snapshot := {| meta := r.(rs_meta); snapshot_data := Cursor.new r.(rs_data) |}.
Definition saved_snapshot s : option Snapshot := b ← saved s.(db); r ← parsed b; Some (to_snapshot r).

Definition carries (r : Snapshot) (x : StateMachine) : Prop :=
  from_slice r.(snapshot_data).(cursor_inner) = ROk x ∧ r.(snapshot_data).(cursor_pos) = 0%N ∧
  r.(meta).(meta_last_log_id) = x.(last_applied_log) ∧ r.(meta).(RaftState.last_membership) = x.(last_membership).

Lemma get_current_snapshot_rocks s : rocks_sm_inv s →
  wpr rocks_error (st_reads get_current_snapshot) (λ r _, r = saved_snapshot s) s.
Proof.
  intros Hs. rw /wpr /wp /st_reads /get_current_snapshot /saved_snapshot. pose proof (get_law s.(db) "sm_meta" snapshot_key) as Hg.
  fold (saved s.(db)) in Hg. destruct (get_cf s.(db) "sm_meta" snapshot_key) as [[b|]|e]; [|by rw -Hg|done].
  symmetry in Hg. destruct (Hs b Hg) as [r Hr]. rw Hg Hr /= /parsed Hr. done.
Qed.

Lemma apply_loop_rocks es s res :
  ∃ r, apply_loop es res s = Done (ROk (res ++ r), set_sm s (foldl (λ x e, (apply_entry x e).2) s.(sm) es)) ∧
       length r = length es.
Proof.
  revert s res. induction es as [|e es IH]; intros s res.
  { exists []. rw app_nil_r. split; [by destruct s|done]. }
  cbn [apply_loop]. rw /mbind /st_bind /st_get /st_put. destruct (apply_entry s.(sm) e) as [resp x] eqn:He.
  destruct (IH (set_sm s x) (res ++ [resp])) as (r & -> & Hr). exists (resp :: r). cbn. rw He -app_assoc. cbn.
  split; [done|lia].
Qed.

(** Saving a snapshot. *)
Lemma save_run m r b s : to_vec r = ROk b → from_slice b = ROk r →
  wpr rocks_error (RocksLogStore.map_err (write_err m) (on_db (put_cf "sm_meta" snapshot_key b)))
    (λ _ s', rocks_sm_inv s' ∧ s'.(sm) = s.(sm) ∧ saved_snapshot s' = Some (to_snapshot r)) s.
Proof.
  intros Hto Hfrom. rw /RocksLogStore.map_err. apply wpr_bind. rw /on_db. apply wp_zoom.
  eapply wp_mono; [apply put_law|]. intros [[]|e] d' Hd; [|done]. destruct Hd as [Hd _]. rw /wpr /wp /=.
  rw /rocks_sm_inv /saved_snapshot /saved /= Hd lookup_insert_eq /= /parsed Hfrom.
  split_and!; [intros b' [= <-]; by exists r|done..].
Qed.

#[global] Program Instance rocks_sm_laws : StateMachineLaws (RocksStateMachine DB) := {|
  sm_error := rocks_error; sm_inv := rocks_sm_inv; Sv := StateMachine;
  sm_view := sm; sm_step := λ x e, (apply_entry x e).2;
  sv_applied := last_applied_log; sv_membership := last_membership;
  sm_snapshot := saved_snapshot; snapshot_of := carries;
|}.
Next Obligation. intros x e. rw /apply_entry. by destruct (payload e) as [|[]|]. Qed.
Next Obligation. intros x e. rw /apply_entry /Entry.get_membership. by destruct (payload e) as [|[]|]. Qed.
Next Obligation. done. Qed.
Next Obligation. intros s Hs. by apply get_current_snapshot_rocks. Qed.
Next Obligation.
  intros s es Hs. rw /wpr /wp /=. rw /apply. destruct (apply_loop_rocks es s []) as (r & -> & Hr).
  split_and!; [exact Hs|exact Hr|done|done].
Qed.
Next Obligation.
  intros s Hs. cbn. rw /build_snapshot. apply wpr_bind, wp_get. destruct (vec_round_trip s.(sm)) as (b & -> & Hf & _).
  apply wpr_bind. rw /gen_range /wp. set (meta := {| meta_last_log_id := _ |}). set (snap := {| rs_meta := meta; rs_data := b |}).
  destruct (vec_round_trip snap) as (b' & Hto & Hfrom & _). rw Hto.
  eapply wpr_try, wpr_mono; [by apply (save_run meta snap b')|]. intros _ s' (Hi & Hsm & Hsn). apply wpr_ret. done.
Qed.
Next Obligation. done. Qed.
Next Obligation. by intros r x (_ & _ & ? & ?). Qed.
Next Obligation.
  intros s r x Hs (Hf & Hp & Ha & Hm). cbn. rw /install_snapshot /= Hf. apply wpr_bind, wp_modify.
  set (snap := {| rs_meta := meta r; rs_data := _ |}). destruct (vec_round_trip snap) as (b & Hto & Hfrom & _). rw Hto.
  eapply wpr_try, wpr_mono; [by apply (save_run (meta r) snap b)|]. intros _ s1 (Hi & Hsm & Hsn).
  rw /RocksLogStore.map_err. apply wpr_bind. rw /on_db. apply wp_zoom. eapply wp_mono; [apply flush_law|].
  intros [[]|e] d' Hd; [|done]. rw /wpr /wp /= /rocks_sm_inv /saved_snapshot /saved /= !Hd.
  split_and!; [exact Hi|exact Hsm|]. rw /saved_snapshot /saved in Hsn. rw Hsn /to_snapshot /=.
  destruct r as [m [inner pos]]. cbn in Hp |- *. by subst.
Qed.

(** A new state machine on a database that holds a snapshot. *)
Lemma new_restores s r x rng' : rocks_sm_inv s → saved_snapshot s = Some r → carries r x →
  match new s.(db) rng' with
  | Done s' => s'.(sm) = x ∧ s'.(db) = s.(db)
  | Panic _ => ∃ e, get_cf s.(db) "sm_meta" snapshot_key = RErr e
  end.
Proof.
  intros Hs Hr (Hf & _). rw /new /get_current_snapshot. pose proof (get_law s.(db) "sm_meta" snapshot_key) as Hg. cbn [db].
  rw /saved_snapshot /saved in Hr. rw /rocks_sm_inv /saved in Hs.
  destruct (get_cf s.(db) "sm_meta" snapshot_key) as [[b|]|e]; [|by rw -Hg in Hr|cbn; by exists e].
  rw -Hg in Hr. symmetry in Hg. destruct (Hs b Hg) as [r0 Hr0]. rw Hr0. cbn in Hr. rw /parsed Hr0 in Hr. injection Hr as <-.
  cbn in Hf |- *. by rw Hf.
Qed.

(** A snapshot survives a crash.  When a snapshot was built, however many entries are applied after it, a state
    machine made anew from the database has exactly the state the snapshot was built of, and the snapshot is its
    current one; what was applied since is left to be applied again. *)
Theorem rocks_restart (s : RocksStateMachine DB) es rng' : rocks_sm_inv s →
  wpr rocks_error (snap ←? build_snapshot; _ ←? apply es; mret (ROk snap))
    (λ snap s',
       s'.(sm) = foldl (λ x e, (apply_entry x e).2) s.(sm) es ∧
       match new s'.(db) rng' with
       | Done s1 => s1.(sm) = s.(sm) ∧ saved_snapshot s1 = Some snap ∧
           snap.(meta).(meta_last_log_id) = s1.(sm).(last_applied_log)
       | Panic _ => ∃ e, get_cf s'.(db) "sm_meta" snapshot_key = RErr e
       end) s.
Proof.
  intros Hs. apply wpr_try. eapply wpr_mono; [exact (build_law s Hs)|]. intros snap s1 (Hi & Hsm & Hsn & Hc).
  change (s1.(sm) = s.(sm)) in Hsm. change (saved_snapshot s1 = Some snap) in Hsn. change (carries snap s.(sm)) in Hc.
  apply wpr_try. rw /apply /wpr /wp. destruct (apply_loop_rocks es s1 []) as (r & -> & _). split; [by rw -Hsm|].
  cbn [db set_sm]. pose proof (new_restores s1 snap s.(sm) rng' Hi Hsn Hc) as Hnew.
  destruct (new s1.(db) rng') as [s2|]; [|done]. destruct Hnew as [Hx Hd]. rw Hx. split; [done|]. split.
  - by rw /saved_snapshot Hd.
  - by destruct Hc as (_ & _ & ? & _).
Qed.
End laws.

(** ** A witness: a write, a snapshot, another write, and a crash *)
Section witness.
#[local] Existing Instances map_db map_db_laws leader_id_countable.
Local Ltac countable f g := refine (inj_countable' f g _); by intros [].
#[local] Existing Instances meta_log_id_countable meta_stored_countable meta_eq_dec meta_countable.
#[local] Instance node_countable : Countable BasicNode.
Proof. countable (λ n, addr n) Build_BasicNode. Defined.
#[local] Instance rocks_sm_eq_dec : EqDecision StateMachine.
Proof. solve_decision. Defined.
#[local] Instance rocks_sm_countable : Countable StateMachine.
Proof.
  countable (λ x, (last_applied_log x, last_membership x, data x))
    (λ p, {| last_applied_log := p.1.1; last_membership := p.1.2; data := p.2 |}).
Defined.
#[local] Instance rocks_snapshot_eq_dec : EqDecision RocksSnapshot.
Proof. solve_decision. Defined.
#[local] Instance rocks_snapshot_countable : Countable RocksSnapshot.
Proof. countable (λ r, (rs_meta r, rs_data r)) (λ p, {| rs_meta := p.1; rs_data := p.2 |}). Defined.
#[local] Instance rocks_sm_json : SerdeJson StateMachine := countable_json StateMachine.
#[local] Instance rocks_sm_json_laws : SerdeJsonLaws StateMachine := countable_json_laws StateMachine.
#[local] Instance rocks_snapshot_json : SerdeJson RocksSnapshot := countable_json RocksSnapshot.
#[local] Instance rocks_snapshot_json_laws : SerdeJsonLaws RocksSnapshot := countable_json_laws RocksSnapshot.

Definition rocks_id (i : N) : LogId := LogId_new (LeaderIdAdv.new 1 1) i.
Definition rocks_write (i : N) (v : string) : Entry := Entry.new_normal (rocks_id i) (RocksRequest_Set "x" v).
Definition rocks_fresh : RocksStateMachine MapDB := {| db := ∅; sm := default_sm; rng := λ _, 7%N; draws := 0 |}.
(** After the first write. *)
Definition rocks_written : RocksStateMachine MapDB := set_sm rocks_fresh (apply_entry default_sm (rocks_write 1 "one")).2.

Lemma rocks_restart_witness :
  ∃ snap s' s1, (snap ←? build_snapshot; _ ←? apply [rocks_write 2 "two"]; mret (ROk snap)) rocks_written = Done (ROk snap, s') ∧
    s'.(sm).(data) !! "x"%string = Some "two"%string ∧
    new s'.(db) (λ _, 9%N) = Done s1 ∧ s1.(sm).(data) !! "x"%string = Some "one"%string.
Proof.
  assert (rocks_sm_inv rocks_written) as Hi by (intros b; by vm_compute).
  assert (∀ e, ¬ rocks_error (DB := MapDB) e) as Hno by (by intros e He; exact He).
  destruct (wpr_total _ _ _ rocks_written Hno (rocks_restart rocks_written [rocks_write 2 "two"] (λ _, 9%N) Hi))
    as (snap & s' & Hrun & Hsm & Hnew). exists snap, s'.
  destruct (new s'.(db) (λ _, 9%N)) as [s1|]; [|by destruct Hnew as [e He]]. exists s1. destruct Hnew as (Hx & _).
  split; [exact Hrun|]. rw Hsm Hx. split_and!; by vm_compute.
Defined.
End witness.
End RocksSm.
