(* ===== verification/RocksKv.v ===== *)
(** * The key-value store of the RocksDB example (examples/raft-kv-rocksdb/src/store.rs)

    The pairs are in one cell that the state machine and every clone of it share: a snapshot builder is a clone, so
    it has the log id and the membership of the moment it was made, but reads the pairs when it builds.  The model
    has the cell and the database as a shared store ([Shared]) next to the handle ([StateMachineStore]); a builder is
    another handle on the same store.

    Run without interruption, the operations satisfy the laws of the interface.  A build that is overtaken by
    entries gives a snapshot that is newer than its meta data says ([overtaken_build]); applying the entries again
    repairs it, because a write replaces the value ([overtaken_snapshot_converges]).  A build that is overtaken by
    the installation of a snapshot replaces the installed snapshot with an older one ([overtaken_by_install]). *)

From S2P Require Export RocksMachine.
From stdpp Require Import pretty.

Inductive RocksKvRequest := RocksKvRequest_Set (key value : string).
Record RocksKvResponse := { rocks_kv_value : option string }.
Record RocksKvNode := { rpc_addr : string; api_addr : string }.
#[global] Instance rocks_kv_node_eq_dec : EqDecision RocksKvNode.
Proof. solve_decision. Defined.

(** [declare_raft_types!(TypeConfig)] with its defaults *)
Definition RocksKvConfig : RaftTypeConfig := {|
  D := RocksKvRequest; R := RocksKvResponse; Node := RocksKvNode; SnapshotData := Cursor;
  LeaderId := LeaderIdAdv.LeaderId; CommittedLeaderId := LeaderIdAdv.LeaderId;
|}.

Module RocksKv.
#[local] Existing Instance RocksKvConfig.

Record StoredSnapshot := { ss_meta : SnapshotMeta; ss_data : bytes }.
(** Without the pairs, which are shared *)
Record StateMachineData := { last_applied_log_id : option LogId; last_membership : StoredMembership }.
Record StateMachineStore := { data : StateMachineData; snapshot_idx : N }.
(** What the [Arc]s of a handle point to *)
Record Shared {DB : Type} := { kvs : gmap string string; db : DB }.
Arguments Shared DB : clear implicits.

Section ops.
Context {DB : Type} `{!RocksDB DB, !SerdeJson (gmap string string), !SerdeJson StoredSnapshot}.
Notation Store := (StateMachineStore * Shared DB)%type.
Implicit Types s : Store.

Definition set_data (x : StateMachineData) s : Store := ({| data := x; snapshot_idx := s.1.(snapshot_idx) |}, s.2).
Definition set_kvs (m : gmap string string) s : Store := (s.1, {| kvs := m; db := s.2.(db) |}).
Definition on_db {A} (m : ST DB A) : ST Store A :=
  zoom (λ s, s.2.(db)) (λ s d, (s.1, {| kvs := s.2.(kvs); db := d |})) m.

Definition snapshot_key : bytes := String.list_byte_of_string "snapshot".
Definition snapshot_id_of (last : option LogId) (snapshot_idx : N) : string :=
  match last with
  | Some last => show_leader_id last.(leader_id) +:+ "-" +:+ pretty last.(index) +:+ "-" +:+ pretty snapshot_idx
  | None => "--" +:+ pretty snapshot_idx
  end.

Definition flush (subject : ErrorSubject) (verb : ErrorVerb) : ST Store (Result unit StorageError) :=
  RocksLogStore.map_err (StorageError.new subject verb) (on_db (flush_wal true)).

(** What cannot be parsed counts as no snapshot. *)
Definition get_current_snapshot_ s : Result (option StoredSnapshot) StorageError :=
  match get_cf s.2.(db) "store" snapshot_key with
  | RErr e => RErr (StorageError.read e)
  | ROk v => ROk (v ← v; match from_slice v with ROk x => Some x | RErr _ => None end)
  end.

Definition set_current_snapshot_ (snap : StoredSnapshot) : ST Store (Result unit StorageError) :=
  let sig := Some (SnapshotMeta.signature snap.(ss_meta)) in
  match to_vec snap with
  | RErr _ => lift (Panic "called `Result::unwrap()` on an `Err` value")
  | ROk v =>
      _ ←? RocksLogStore.map_err (StorageError.write_snapshot sig) (on_db (put_cf "store" snapshot_key v));
      flush (Subject_Snapshot sig) Verb_Write
  end.

Definition update_state_machine_ (snapshot : StoredSnapshot) : ST Store (Result unit StorageError) :=
  match from_slice snapshot.(ss_data) with
  | RErr e => mret (RErr (StorageError.read_snapshot (Some (SnapshotMeta.signature snapshot.(ss_meta))) e))
  | ROk kvs =>
      _ ← st_modify (set_data {| last_applied_log_id := snapshot.(ss_meta).(meta_last_log_id);
                                 last_membership := snapshot.(ss_meta).(RaftState.last_membership) |});
      _ ← st_modify (set_kvs kvs);
      mret (ROk tt)
  end.

Definition build_snapshot : ST Store (Result Snapshot StorageError) :=
  s ← st_get;
  let last_applied_log := s.1.(data).(last_applied_log_id) in
  let last_membership := s.1.(data).(last_membership) in
  match to_vec s.2.(kvs) with
  | RErr e => mret (RErr (StorageError.read_state_machine e))
  | ROk kv_json =>
      let snapshot_id := snapshot_id_of last_applied_log s.1.(snapshot_idx) in
      let meta := {| meta_last_log_id := last_applied_log; RaftState.last_membership := last_membership;
                     RaftState.snapshot_id := snapshot_id |} in
      let snapshot := {| ss_meta := meta; ss_data := kv_json |} in
      _ ←? set_current_snapshot_ snapshot;
      mret (ROk {| meta := meta; snapshot_data := Cursor.new kv_json |})
  end.

(** [StateMachineStore::new]: the pairs are a new cell. *)
Definition new (db : DB) : Outcome (Result unit StorageError * Store) :=
  let sm := ({| data := {| last_applied_log_id := None;
                           last_membership := {| stored_log_id := None; stored_membership_ := Membership.default |} |};
                snapshot_idx := 0 |},
             {| kvs := ∅; db := db |}) in
  match get_current_snapshot_ sm with
  | RErr e => Done (RErr e, sm)
  | ROk None => Done (ROk tt, sm)
  | ROk (Some snap) => update_state_machine_ snap sm
  end.

(** [new_storage], after the database was opened: the log store is the database. *)
Definition new_storage (db : DB) : Outcome (DB * Store) :=
  sm ← new db;
  match sm.1 with
  | ROk _ => Done (db, sm.2)
  | RErr _ => Panic "called `Result::unwrap()` on an `Err` value"
  end.

Definition applied_state s : Outcome (Result (option LogId * StoredMembership) StorageError) :=
  Done (ROk (s.1.(data).(last_applied_log_id), s.1.(data).(last_membership))).

(** One iteration of the loop of [apply] *)
Definition apply_entry (ent : Entry) : ST Store RocksKvResponse :=
  _ ← st_modify (λ s, set_data {| last_applied_log_id := Some (Entry.log_id ent);
                                  last_membership := s.1.(data).(last_membership) |} s);
  match ent.(payload) with
  | Blank => mret {| rocks_kv_value := None |}
  | Normal (RocksKvRequest_Set key value) =>
      _ ← st_modify (λ s, set_kvs (<[key := value]> s.2.(kvs)) s);
      mret {| rocks_kv_value := Some value |}
  | MembershipPayload mem =>
      _ ← st_modify (λ s, set_data {| last_applied_log_id := s.1.(data).(last_applied_log_id);
                                      last_membership := {| stored_log_id := Some (Entry.log_id ent);
                                                            stored_membership_ := mem |} |} s);
      mret {| rocks_kv_value := None |}
  end.
Fixpoint apply_loop (entries : list Entry) (replies : list RocksKvResponse) :
    ST Store (Result (list RocksKvResponse) StorageError) :=
  match entries with
  | [] => mret (ROk replies)
  | ent :: entries => resp ← apply_entry ent; apply_loop entries (replies ++ [resp])
  end.
Definition apply (entries : list Entry) : ST Store (Result (list RocksKvResponse) StorageError) := apply_loop entries [].

(** The builder is a clone, a handle on the same cells.  The [u64] counts the builds of one process and does not
    overflow. *)
Definition get_snapshot_builder : ST Store StateMachineStore :=
  _ ← st_modify (λ s, ({| data := s.1.(data); snapshot_idx := s.1.(snapshot_idx) + 1 |}, s.2));
  s ← st_get;
  mret s.1.

(** Running an operation of the builder [b]: the state machine keeps its own handle. *)
Definition on_builder {A} (b : StateMachineStore) (m : ST Store A) : ST Store A :=
  zoom (λ s, (b, s.2)) (λ s t, (s.1, t.2)) m.

Definition begin_receiving_snapshot : ST Store (Result Cursor StorageError) := mret (ROk (Cursor.new [])).

Definition install_snapshot (m : SnapshotMeta) (snapshot : Cursor) : ST Store (Result unit StorageError) :=
  let new_snapshot := {| ss_meta := m; ss_data := snapshot.(cursor_inner) |} in
  _ ←? update_state_machine_ new_snapshot;
  _ ←? set_current_snapshot_ new_snapshot;
  mret (ROk tt).

Definition to_snapshot (x : StoredSnapshot) : Snapshot := {| meta := x.(ss_meta); snapshot_data := Cursor.new x.(ss_data) |}.
Definition get_current_snapshot s : Outcome (Result (option Snapshot) StorageError) :=
  Done (match get_current_snapshot_ s with RErr e => RErr e | ROk x => ROk (to_snapshot <$> x) end).
End ops.

#[global] Instance rocks_kv_state_machine {DB : Type}
    `{!RocksDB DB, !SerdeJson (gmap string string), !SerdeJson StoredSnapshot} :
  RaftStateMachine.RaftStateMachine (StateMachineStore * Shared DB) := {|
  RaftStateMachine.applied_state := applied_state;
  RaftStateMachine.get_current_snapshot := get_current_snapshot;
  RaftStateMachine.apply := apply;
  RaftStateMachine.begin_receiving_snapshot := begin_receiving_snapshot;
  RaftStateMachine.install_snapshot := install_snapshot;
  RaftStateMachine.build_snapshot := b ← get_snapshot_builder; on_builder b build_snapshot;
|}.
(** ** The laws *)
Section laws.
Context {DB : Type} `{!RocksDB DB, !RocksDBLaws DB}.
Context `{!SerdeJson (gmap string string), !SerdeJsonLaws (gmap string string)}.
Context `{!SerdeJson StoredSnapshot, !SerdeJsonLaws StoredSnapshot}.
Notation Store := (StateMachineStore * Shared DB)%type.
Implicit Types s : Store.

(** The state machine: the log id and the membership of the handle, and the shared pairs. *)
Definition View : Type := StateMachineData * gmap string string.
Definition view s : View := (s.1.(data), s.2.(kvs)).
Definition set_view s (x : View) : Store :=
  ({| data := x.1; snapshot_idx := s.1.(snapshot_idx) |}, {| kvs := x.2; db := s.2.(db) |}).

Definition step_data (x : StateMachineData) (e : Entry) : StateMachineData :=
  {| last_applied_log_id := Some (Entry.log_id e);
     last_membership := match Entry.get_membership e with
                        | Some m => {| stored_log_id := Some (Entry.log_id e); stored_membership_ := m |}
                        | None => x.(last_membership)
                        end |}.
Definition step_kvs (m : gmap string string) (e : Entry) : gmap string string :=
  match e.(payload) with Normal (RocksKvRequest_Set key value) => <[key := value]> m | _ => m end.
Definition step (x : View) (e : Entry) : View := (step_data x.1 e, step_kvs x.2 e).

Lemma foldl_step es x : foldl step x es = (foldl step_data x.1 es, foldl step_kvs x.2 es).
Proof. revert x. induction es as [|e es IH]; intros x; [by destruct x|]. cbn. by rw IH. Qed.

Definition saved (d : DB) : option StoredSnapshot := db_content d "store" !! snapshot_key ≫= parsed.
Definition carries (r : Snapshot) (x : View) : Prop :=
  from_slice r.(snapshot_data).(cursor_inner) = ROk x.2 ∧ r.(snapshot_data).(cursor_pos) = 0%N ∧
  r.(meta).(meta_last_log_id) = x.1.(last_applied_log_id) ∧ r.(meta).(RaftState.last_membership) = x.1.(last_membership).

Lemma view_set s x : view (set_view s x) = x.
Proof. by destruct x. Qed.

Lemma apply_entry_run e s : ∃ r, apply_entry e s = Done (r, set_view s (step (view s) e)).
Proof.
  rw /apply_entry /step /step_data /step_kvs /Entry.get_membership. destruct s as [[d i] [m x]].
  destruct (payload e) as [|[k v]|mem]; by eexists.
Qed.
Lemma rocks_kv_apply_loop es s res :
  ∃ r, apply_loop es res s = Done (ROk (res ++ r), set_view s (foldl step (view s) es)) ∧ length r = length es.
Proof.
  revert s res. induction es as [|e es IH]; intros s res.
  { exists []. rw app_nil_r. split; [by destruct s as [[] []]|done]. }
  cbn [apply_loop]. destruct (apply_entry_run e s) as [x Hx]. rw (st_bind_run _ _ _ _ _ Hx).
  destruct (IH (set_view s (step (view s) e)) (res ++ [x])) as (r & -> & Hr). exists (x :: r).
  rw view_set -app_assoc. split; [done|cbn; lia].
Qed.
Lemma rocks_kv_apply es s : ∃ r, apply es s = Done (ROk r, set_view s (foldl step (view s) es)) ∧ length r = length es.
Proof. exact (rocks_kv_apply_loop es s []). Qed.

Lemma get_current_snapshot_law s :
  match get_current_snapshot_ s with ROk x => x = saved s.2.(db) | RErr e => rocks_error (DB := DB) e end.
Proof.
  rw /get_current_snapshot_ /saved. pose proof (get_law s.2.(db) "store" snapshot_key) as Hg.
  destruct (get_cf _ _ _) as [v|e]; [by rw -Hg|exact Hg].
Qed.

Lemma on_db_law {A} (f : string → StorageError) (n : ST DB (Result A string)) (P : DB → Prop) s :
  (∀ e, (f e).(source) = e) → wpr db_error n (λ _ d, P d) s.2.(db) →
  wpr (rocks_error (DB := DB)) (RocksLogStore.map_err f (on_db n))
    (λ _ s', s'.1 = s.1 ∧ s'.2.(kvs) = s.2.(kvs) ∧ P s'.2.(db)) s.
Proof.
  intros Hf Hn. rw /RocksLogStore.map_err. apply wpr_bind, wp_zoom. eapply wp_mono; [exact Hn|].
  intros [a|e] d Hd; rw /wpr /wp /=; [done|]. by rw /rocks_error Hf.
Qed.

Lemma set_current_snapshot_law x s :
  wpr (rocks_error (DB := DB)) (set_current_snapshot_ x)
    (λ _ s', s'.1 = s.1 ∧ s'.2.(kvs) = s.2.(kvs) ∧ saved s'.2.(db) = Some x) s.
Proof.
  rw /set_current_snapshot_. destruct (vec_round_trip x) as (b & -> & Hf & _). apply wpr_try.
  eapply wpr_mono; [apply (on_db_law _ _ (λ d, saved d = Some x)); [done|]|].
  - eapply wp_mono; [apply put_law|]. intros [[]|e] d Hd; [|exact Hd]. destruct Hd as [Hd _].
    by rw /saved Hd lookup_insert_eq /= /parsed Hf.
  - intros _ s1 (H1 & H2 & H3). eapply wpr_mono; [apply (on_db_law _ _ (λ d, saved d = Some x)); [done|]|].
    + eapply wp_mono; [apply flush_law|]. intros [[]|e] d Hd; [|exact Hd]. by rw /saved Hd.
    + intros _ s2 (? & ? & ?). by split_and!; [congruence..|].
Qed.

(** A build saves the log id and the membership of the builder with the pairs of this moment. *)
Lemma build_snapshot_law b s :
  wpr (rocks_error (DB := DB)) (on_builder b build_snapshot)
    (λ r s', s'.1 = s.1 ∧ s'.2.(kvs) = s.2.(kvs) ∧ to_snapshot <$> saved s'.2.(db) = Some r ∧
             carries r (b.(data), s.2.(kvs))) s.
Proof.
  apply wp_zoom. rw /build_snapshot. apply wpr_bind, wp_get. cbn [fst snd].
  destruct (vec_round_trip s.2.(kvs)) as (j & -> & Hf & _). cbn zeta. apply wpr_try.
  eapply wpr_mono; [apply set_current_snapshot_law|]. intros _ s1 (H1 & H2 & H3). apply wpr_ret. cbn. by rw H3.
Qed.
Lemma get_snapshot_builder_run s : ∃ b s1, get_snapshot_builder s = Done (b, s1) ∧
  b.(data) = s.1.(data) ∧ view s1 = view s ∧ s1.2 = s.2.
Proof. by eexists _, _. Qed.

Lemma update_state_machine_run x s m : from_slice x.(ss_data) = ROk m →
  update_state_machine_ x s = Done (ROk tt, set_view s
    ({| last_applied_log_id := x.(ss_meta).(meta_last_log_id); last_membership := x.(ss_meta).(RaftState.last_membership) |}, m)).
Proof. intros Hm. by rw /update_state_machine_ Hm. Qed.

Lemma install_snapshot_law r x s : carries r x →
  wpr (rocks_error (DB := DB)) (install_snapshot r.(meta) r.(snapshot_data))
    (λ _ s', view s' = x ∧ to_snapshot <$> saved s'.2.(db) = Some r) s.
Proof.
  intros (Hf & Hp & Ha & Hm). rw /install_snapshot. apply wpr_try. rw /wpr /wp.
  rw (update_state_machine_run {| ss_meta := r.(meta); ss_data := _ |} s x.2 Hf). apply wpr_try.
  eapply wpr_mono; [apply set_current_snapshot_law|]. intros _ s1 (H1 & H2 & H3). apply wpr_ret.
  rw /view H1 H2 H3 /= Ha Hm. destruct x as [[] ?], r as [? [? p]]. cbn in Hp |- *. by subst p.
Qed.

#[global] Program Instance rocks_kv_sm_laws : StateMachineLaws Store := {|
  sm_error := rocks_error (DB := DB); sm_inv := λ _, True; Sv := View;
  sm_view := view; sm_step := step;
  sv_applied := λ x, x.1.(last_applied_log_id); sv_membership := λ x, x.1.(last_membership);
  sm_snapshot := λ s, to_snapshot <$> saved s.2.(db); snapshot_of := carries;
|}.
Next Obligation. done. Qed.
Next Obligation. done. Qed.
Next Obligation. done. Qed.
Next Obligation.
  intros s _. rw /wpr /wp /st_reads /= /get_current_snapshot. pose proof (get_current_snapshot_law s) as H.
  destruct (get_current_snapshot_ s) as [x|e]; [by rw H|exact H].
Qed.
Next Obligation.
  intros s es _. rw /wpr /wp /=. destruct (rocks_kv_apply es s) as (r & -> & Hr). split_and!; [done|exact Hr| |done].
  by destruct (foldl step (view s) es).
Qed.
Next Obligation.
  intros s _. cbn. destruct (get_snapshot_builder_run s) as (b & s1 & Hb & Hd & Hv & _). rw /wpr /wp (st_bind_run _ _ _ _ _ Hb).
  eapply wpr_mono; [apply build_snapshot_law|]. intros r s2 (H1 & H2 & H3 & H4).
  rw Hd in H4. injection Hv as Hv1 Hv2. rw Hv2 in H4. split_and!; [done| |done|done]. by rw /view H1 H2 Hv1 Hv2.
Qed.
Next Obligation. done. Qed.
Next Obligation. by intros r x (_ & _ & ? & ?). Qed.
Next Obligation.
  intros s r x _ Hc. eapply wpr_mono; [by apply install_snapshot_law|]. intros _ s' [? ?]. by split_and!.
Qed.

(** ** Builds that are overtaken

    What applying writes to the pairs does not depend on them. *)
Lemma foldl_step_union es a m : foldl step_kvs (a ∪ m) es = foldl step_kvs a es ∪ m.
Proof.
  revert a. induction es as [|e es IH]; intros a; [done|]. cbn. rw -IH. f_equal. rw /step_kvs.
  destruct (payload e) as [|[k v]|mem]; [done| |done]. apply insert_union_l.
Qed.
Lemma foldl_step_kvs es m : foldl step_kvs m es = foldl step_kvs ∅ es ∪ m.
Proof. by rw -foldl_step_union (left_id_L ∅ (∪)). Qed.

(** Applying entries again to pairs that already have some of them gives the same pairs. *)
Lemma replay_kvs es1 es2 m : foldl step_kvs (foldl step_kvs m es1) (es1 ++ es2) = foldl step_kvs m (es1 ++ es2).
Proof.
  rw !foldl_app. f_equal. rw (foldl_step_kvs es1 (foldl step_kvs m es1)) (foldl_step_kvs es1 m) (assoc_L (∪)).
  by rw map_union_idemp.
Qed.
Lemma replay es1 es2 x :
  foldl step (x.1, foldl step_kvs x.2 es1) (es1 ++ es2) = foldl step x (es1 ++ es2).
Proof. by rw !foldl_step /= replay_kvs. Qed.

(** A state machine on a database with a saved snapshot *)
Lemma rocks_kv_new_restores d r x : to_snapshot <$> saved d = Some r → carries r x →
  match new d with
  | Done (ROk _, s) => view s = x ∧ s.2.(db) = d
  | Done (RErr e, _) => rocks_error (DB := DB) e
  | Panic _ => False
  end.
Proof.
  intros Hr (Hf & _ & Ha & Hm). rw /new. set (s := (_, _)). pose proof (get_current_snapshot_law s) as Hg.
  destruct (get_current_snapshot_ s) as [y|e]; [|exact Hg]. change (s.2.(db)) with d in Hg. rw Hg.
  destruct (saved d) as [p|]; [|done]. injection Hr as <-. cbn in Hf, Ha, Hm. rw (update_state_machine_run _ _ _ Hf).
  rw view_set. split; [|done]. rw Ha Hm. by destruct x as [[] ?].
Qed.

(** A builder that was made before entries were applied, and builds after: its snapshot has the log id and the
    membership of then, and the pairs of now. *)
Lemma overtaken_build {A} es s (k : Snapshot → ST Store (Result A StorageError)) Q :
  (∀ snap s', view s' = foldl step (view s) es → to_snapshot <$> saved s'.2.(db) = Some snap →
     carries snap (s.1.(data), foldl step_kvs s.2.(kvs) es) → wpr (rocks_error (DB := DB)) (k snap) Q s') →
  wpr (rocks_error (DB := DB))
    (b ← get_snapshot_builder; _ ←? apply es; snap ←? on_builder b build_snapshot; k snap) Q s.
Proof.
  intros Hk. destruct (get_snapshot_builder_run s) as (b & s1 & Hb & Hd & Hv & _). apply wpr_bind. rw /wp Hb.
  apply wpr_try. destruct (rocks_kv_apply es s1) as (r & Ha & _). rw /wpr /wp Ha. apply wpr_try.
  eapply wpr_mono; [apply build_snapshot_law|]. intros snap s2 (H1 & H2 & H3 & H4). rw Hv foldl_step in H1 H2 H4.
  rw Hd in H4. cbn in H1, H2, H4. apply Hk; [|done|done]. by rw /view H1 H2 foldl_step.
Qed.

(** C32: A snapshot build that is overtaken by entries does no harm.  When a builder is made, entries [es1] are
    applied, the builder builds, and more entries [es2] are applied, then the saved snapshot has the log id and the
    membership of before [es1].  A state machine made anew from the database after a crash, and any other one that
    installs the snapshot, has exactly the state of the live one once the entries after that log id, [es1] and
    [es2], are applied to it.  Only the database can fail, nothing panics. *)
Theorem overtaken_snapshot_converges s es1 es2 :
  wpr (rocks_error (DB := DB))
    (b ← get_snapshot_builder; _ ←? apply es1; snap ←? on_builder b build_snapshot; _ ←? apply es2; mret (ROk snap))
    (λ snap s',
       view s' = foldl step (view s) (es1 ++ es2) ∧
       snap.(meta).(meta_last_log_id) = s.1.(data).(last_applied_log_id) ∧
       match new s'.2.(db) with
       | Done (ROk _, s1) =>
           applied_state s1 = applied_state s ∧
           wp (apply (es1 ++ es2)) (λ res s2, (∃ r, res = ROk r) ∧ view s2 = view s') s1
       | Done (RErr e, _) => rocks_error (DB := DB) e
       | Panic _ => False
       end ∧
       ∀ t, wpr (rocks_error (DB := DB)) (_ ←? install_snapshot snap.(meta) snap.(snapshot_data); apply (es1 ++ es2))
              (λ _ t', view t' = view s') t) s.
Proof.
  apply overtaken_build. intros snap s1 Hv1 Hs1 Hc1. apply wpr_try.
  destruct (rocks_kv_apply es2 s1) as (r2 & Ha2 & _). rw /wpr /wp Ha2 /= view_set Hv1 -foldl_app.
  assert (∀ t, view t = (s.1.(data), foldl step_kvs s.2.(kvs) es1) → ∃ r,
    apply (es1 ++ es2) t = Done (ROk r, set_view t (foldl step (view s) (es1 ++ es2)))) as Hrun.
  { intros t Ht. destruct (rocks_kv_apply (es1 ++ es2) t) as (r & Hr & _). exists r. by rw Hr Ht (replay es1 es2 (view s)). }
  split_and!; [done|by destruct Hc1 as (_ & _ & ? & _)| |].
  - pose proof (rocks_kv_new_restores s1.2.(db) snap _ Hs1 Hc1) as Hn. destruct (new s1.2.(db)) as [[[[]|e] s3]|]; [|done|done].
    destruct Hn as [Hv3 _]. split; [by rw /applied_state (f_equal fst Hv3 : s3.1.(data) = s.1.(data))|]. destruct (Hrun s3 Hv3) as (r & Hr).
    rw /wp Hr view_set. by eauto.
  - intros t. apply wpr_try. eapply wpr_mono; [by apply install_snapshot_law|]. intros _ t1 [Ht1 _].
    destruct (Hrun t1 Ht1) as (r & Hr). by rw /wpr /wp Hr view_set.
Qed.

(** A build that is overtaken by the installation of a snapshot saves its older one in the place of the installed
    one: a restart goes back to the log id of the builder, with the pairs of the installed snapshot. *)
Lemma overtaken_by_install s snap x : carries snap x →
  wpr (rocks_error (DB := DB))
    (b ← get_snapshot_builder; _ ←? install_snapshot snap.(meta) snap.(snapshot_data); on_builder b build_snapshot)
    (λ _ s', view s' = x ∧
       match new s'.2.(db) with
       | Done (ROk _, s1) => view s1 = (s.1.(data), x.2)
       | Done (RErr e, _) => rocks_error (DB := DB) e
       | Panic _ => False
       end) s.
Proof.
  intros Hc. destruct (get_snapshot_builder_run s) as (b & s1 & Hb & Hd & Hv & _). apply wpr_bind. rw /wp Hb.
  apply wpr_try. eapply wpr_mono; [by apply install_snapshot_law|]. intros _ s2 [Hv2 _].
  eapply wpr_mono; [apply build_snapshot_law|]. intros r s3 (H1 & H2 & H3 & H4).
  split; [by rw /view H1 H2|]. rw Hd in H4. pose proof (rocks_kv_new_restores s3.2.(db) r _ H3 H4) as Hn.
  destruct (new s3.2.(db)) as [[[[]|e] s4]|]; [|done|done]. destruct Hn as [-> _]. by rw -Hv2.
Qed.
End laws.

(** ** A witness: the pair [x] is written again between the making of the builder and the build *)
Section witness.
#[local] Existing Instances map_db map_db_laws leader_id_countable.
#[local] Existing Instances meta_eq_dec meta_countable.
Local Ltac countable f g := refine (inj_countable' f g _); by intros [].
#[local] Instance rocks_kv_node_countable : Countable RocksKvNode.
Proof. countable (λ n, (rpc_addr n, api_addr n)) (λ p, {| rpc_addr := p.1; api_addr := p.2 |}). Defined.
#[local] Instance stored_snapshot_eq_dec : EqDecision StoredSnapshot.
Proof. solve_decision. Defined.
#[local] Instance stored_snapshot_countable : Countable StoredSnapshot.
Proof. countable (λ r, (ss_meta r, ss_data r)) (λ p, {| ss_meta := p.1; ss_data := p.2 |}). Defined.
#[local] Instance kvs_json : SerdeJson (gmap string string) := countable_json (gmap string string).
#[local] Instance kvs_json_laws : SerdeJsonLaws (gmap string string) := countable_json_laws (gmap string string).
#[local] Instance stored_json : SerdeJson StoredSnapshot := countable_json StoredSnapshot.
#[local] Instance stored_json_laws : SerdeJsonLaws StoredSnapshot := countable_json_laws StoredSnapshot.

Definition kv_id (i : N) : LogId := LogId_new (LeaderIdAdv.new 1 1) i.
Definition kv_write (i : N) (v : string) : Entry := Entry.new_normal (kv_id i) (RocksKvRequest_Set "x" v).
(** After the write of "one" at index 1. *)
Definition kv_written : StateMachineStore * Shared MapDB :=
  ({| data := {| last_applied_log_id := Some (kv_id 1);
                 last_membership := {| stored_log_id := None; stored_membership_ := Membership.default |} |};
      snapshot_idx := 0 |},
   {| kvs := {["x" := "one"]}; db := ∅ |})%string.

Lemma overtaken_snapshot_converges_witness :
  ∃ snap s', (b ← get_snapshot_builder; _ ←? apply [kv_write 2 "two"]; snap ←? on_builder b build_snapshot;
              _ ←? apply [kv_write 3 "three"]; mret (ROk snap)) kv_written = Done (ROk snap, s') ∧
    snap.(meta).(meta_last_log_id) = Some (kv_id 1) ∧
    match new s'.2.(db) with
    | Done (ROk _, s1) =>
        ∃ r s2, apply [kv_write 2 "two"; kv_write 3 "three"] s1 = Done (ROk r, s2) ∧
                s2.2.(kvs) = {["x" := "three"]}%string ∧ s2.1.(data).(last_applied_log_id) = Some (kv_id 3)
    | _ => False
    end.
Proof.
  assert (∀ e, ¬ rocks_error (DB := MapDB) e) as Hno by (by intros e He; exact He).
  destruct (wpr_total _ _ _ kv_written Hno (overtaken_snapshot_converges kv_written [kv_write 2 "two"] [kv_write 3 "three"]))
    as (snap & s' & Hrun & Hv & Hm & Hnew & _).
  exists snap, s'. split; [exact Hrun|]. split; [exact Hm|].
  destruct (new s'.2.(db)) as [[[[]|e] s1]|]; [|by apply Hno in Hnew|done].
  destruct Hnew as [_ (res & s2 & Hr & (r & ->) & Hv2)%wp_elim]. exists r, s2. split; [exact Hr|]. rw Hv in Hv2.
  split; [exact (f_equal snd Hv2)|exact (f_equal (λ x, x.1.(last_applied_log_id)) Hv2)].
Defined.

(** The saved snapshot says that it is of index 1 and holds the pair that index 2 wrote. *)
Example overtaken_snapshot_is_newer :
  match (b ← get_snapshot_builder; _ ←? apply [kv_write 2 "two"]; on_builder b build_snapshot) kv_written with
  | Done (ROk snap, s') =>
      meta_last_log_id snap.(meta) = Some (kv_id 1) ∧
      from_slice snap.(snapshot_data).(cursor_inner) = ROk ({["x" := "two"]}%string : gmap string string)
  | _ => False
  end.
Proof. by vm_compute. Qed.
End witness.
End RocksKv.
