(* ===== verification/Worker.v ===== *)
(** * The state machine worker (openraft/src/core/sm/worker.rs)

    The worker is the task that owns the state machine.  It takes the commands [RaftCore] sends one at
    a time, runs them on the state machine, and reports with notifications; building a snapshot is a
    task of its own, so it finishes at some later point.  A run is a list of events: a command is
    received, or a build that was started finishes.  An error ends the worker and is reported.  The
    closures of [Command::Func] are a parameter: what each does to the state machine, or [None] when
    the closure is of another type. *)

From S2P Require Export StorageHelper MemStore.

(** What the worker answers on the channels that came with a command. *)
Inductive SmReply {C : RaftTypeConfig} :=
| Reply_Snapshot (snapshot : option Snapshot)
| Reply_SnapshotData (data : SnapshotData).

Record Worker {C : RaftTypeConfig} (LS SM : Type) := {
  w_log : LS;
  w_sm : SM;
  (** Builds that were started and did not finish. *)
  w_builds : nat;
  w_sent : list Notification;
  w_replies : list (Tx * SmReply);
}.
Arguments w_log {C LS SM} _.
Arguments w_sm {C LS SM} _.
Arguments w_builds {C LS SM} _.
Arguments w_sent {C LS SM} _.
Arguments w_replies {C LS SM} _.

Inductive WorkerEvent {C : RaftTypeConfig} :=
| W_Command (cmd : SmCommand)
| W_BuildDone.

Module Worker.
Section ops.
Context {C : RaftTypeConfig} {LS SM : Type}.
Context `{!RaftLogReader.RaftLogReader LS} `{!RaftStateMachine.RaftStateMachine SM}.
Context (funcs : N → option (SM → SM)).
Notation W := (Worker LS SM).
Notation WM A := (ST W (Result A StorageError)).
Implicit Types w : W.

Definition spawn (log : LS) (sm : SM) : W := {| w_log := log; w_sm := sm; w_builds := 0; w_sent := []; w_replies := [] |}.

Definition set_sm w x : W :=
  {| w_log := w.(w_log); w_sm := x; w_builds := w.(w_builds); w_sent := w.(w_sent); w_replies := w.(w_replies) |}.
Definition set_builds w n : W :=
  {| w_log := w.(w_log); w_sm := w.(w_sm); w_builds := n; w_sent := w.(w_sent); w_replies := w.(w_replies) |}.
Definition send (n : Notification) : ST W unit := st_modify (λ w,
  {| w_log := w.(w_log); w_sm := w.(w_sm); w_builds := w.(w_builds); w_sent := w.(w_sent) ++ [n]; w_replies := w.(w_replies) |}).
Definition reply (tx : Tx) (r : SmReply) : ST W unit := st_modify (λ w,
  {| w_log := w.(w_log); w_sm := w.(w_sm); w_builds := w.(w_builds); w_sent := w.(w_sent);
     w_replies := w.(w_replies) ++ [(tx, r)] |}).

Definition state_machine {A} (m : ST SM A) : ST W A := λ w,
  match m w.(w_sm) with Done (a, s) => Done (a, set_sm w s) | Panic why => Panic why end.

Definition apply (first last : LogId) : WM ApplyResult :=
  let since := first.(index) in
  let end_ := (last.(index) + 1)%N in
  entries ←? st_reads (λ w, RaftLogReader.try_get_log_entries w.(w_log) since end_);
  n_entries ← lift (sub_u64 end_ since);
  if negb (N.of_nat (length entries) =? n_entries)%N then
    mret (RErr (StorageError.read_logs "returned log entries count does not match the input"))
  else
    let last_applied := last in
    let applying_entries := (λ e, ApplyingEntry_new (Entry.log_id e) (Entry.get_membership e)) <$> entries in
    apply_results ←? state_machine (RaftStateMachine.apply entries);
    let n_replies := N.of_nat (length apply_results) in
    _ ← lift (assert_ (n_entries =? n_replies)%N "n_entries should equal n_replies");
    mret (ROk {| since := since; end_ := end_; last_applied := last_applied;
                 applying_entries := applying_entries; apply_results := apply_results |}).

(** [build_snapshot] only starts the build. *)
Definition build_snapshot : ST W unit := st_modify (λ w, set_builds w (S w.(w_builds))).

(** The task it spawns: what it does when it runs. *)
Definition build_done : ST W unit :=
  w ← st_get;
  match w.(w_builds) with
  | O => mret tt
  | S n =>
      _ ← st_put (set_builds w n);
      res ← state_machine RaftStateMachine.build_snapshot;
      send (N_StateMachine (match res with ROk snap => ROk (Resp_BuildSnapshot snap.(meta)) | RErr e => RErr e end))
  end.

Definition get_snapshot (tx : Tx) : WM unit :=
  snapshot ←? state_machine (st_reads RaftStateMachine.get_current_snapshot);
  _ ← reply tx (Reply_Snapshot snapshot);
  mret (ROk tt).

(** The body of [worker_loop]. *)
Definition handle (cmd : SmCommand) : WM unit :=
  match cmd with
  | BuildSnapshot => _ ← build_snapshot; mret (ROk tt)
  | GetSnapshot tx => get_snapshot tx
  | InstallFullSnapshot io_id snapshot =>
      let m := snapshot.(meta) in
      _ ←? state_machine (RaftStateMachine.install_snapshot m snapshot.(snapshot_data));
      _ ← send (N_StateMachine (ROk (Resp_InstallSnapshot io_id (Some m))));
      mret (ROk tt)
  | BeginReceivingSnapshot tx =>
      data ←? state_machine RaftStateMachine.begin_receiving_snapshot;
      _ ← reply tx (Reply_SnapshotData data);
      mret (ROk tt)
  | SmApply first last =>
      resp ←? apply first last;
      _ ← send (N_StateMachine (ROk (Resp_Apply resp)));
      mret (ROk tt)
  | Func func =>
      _ ← match funcs func with Some f => st_modify (λ w, set_sm w (f w.(w_sm))) | None => mret tt end;
      mret (ROk tt)
  end.

(** [worker_loop] with the builds that finish meanwhile. *)
Fixpoint worker_loop (events : list WorkerEvent) : WM unit :=
  match events with
  | [] => mret (ROk tt)
  | W_Command cmd :: events => _ ←? handle cmd; worker_loop events
  | W_BuildDone :: events => _ ← build_done; worker_loop events
  end.

(** The task of [do_spawn]. *)
Definition do_spawn (events : list WorkerEvent) : ST W unit :=
  res ← worker_loop events;
  match res with
  | RErr err => send (N_StateMachine (RErr err))
  | ROk _ => mret tt
  end.
End ops.
End Worker.

(** ** Properties *)
Section worker.
Context {C : RaftTypeConfig} {LS SM : Type}.
Context `{!RaftLogStorage.RaftLogStorage LS, !LogStoreLaws LS}.
Context `{!RaftStateMachine.RaftStateMachine SM, !StateMachineLaws SM}.
Context (funcs : N → option (SM → SM)).
Implicit Types w : Worker LS SM.
Import Worker.

Definition worker_inv w : Prop := log_inv w.(w_log) ∧ sm_inv w.(w_sm).
Definition log_of w : LogView := log_view w.(w_log).

(** The ranges of the [Apply] commands. *)
Fixpoint apply_ranges (events : list WorkerEvent) : list (LogId * LogId) :=
  match events with
  | [] => []
  | W_Command (SmApply first last) :: events => (first, last) :: apply_ranges events
  | _ :: events => apply_ranges events
  end.

(** The index after the last entry to apply, when every [Apply] starts where the one before it ended
    and no other command replaces the state. *)
Fixpoint applied_upto (next : N) (events : list WorkerEvent) : option N :=
  match events with
  | [] => Some next
  | W_Command (SmApply first last) :: events =>
      if ((first.(index) =? next) && (next <=? last.(index)))%N then applied_upto (last.(index) + 1) events else None
  | W_Command (InstallFullSnapshot _ _) :: _ | W_Command (Func _) :: _ => None
  | _ :: events => applied_upto next events
  end.

(** The results reported. *)
Definition reported (ns : list Notification) : list ApplyResult :=
  omap (λ n, match n with N_StateMachine (ROk (Resp_Apply res)) => Some res | _ => None end) ns.

(** The result of applying the entries of [r]: one result for each entry, with the clients and configs
    [RaftCore] needs to answer them. *)
Definition result_for v (r : LogId * LogId) (res : ApplyResult) : Prop :=
  let es := LogSpec.read v r.1.(index) (r.2.(index) + 1) in
  res.(since) = r.1.(index) ∧ res.(end_) = (r.2.(index) + 1)%N ∧ res.(last_applied) = r.2 ∧
  res.(applying_entries) = (λ e, ApplyingEntry_new (Entry.log_id e) (Entry.get_membership e)) <$> es ∧
  length res.(apply_results) = length es ∧ N.of_nat (length es) = (res.(end_) - res.(since))%N.

Lemma wpr_worker_sm {A} (m : ST SM (Result A StorageError)) (P : A → SM → Prop) Q w :
  wpr sm_error m P w.(w_sm) → (∀ a s, P a s → Q a (set_sm w s)) → wpr (λ e, log_error (LS := LS) e ∨ sm_error (SM := SM) e) (state_machine m) Q w.
Proof.
  rw /wpr /wp /state_machine. destruct (m w.(w_sm)) as [[[a|e] s]|]; [|by right|done]. intros Ha HQ. by apply HQ.
Qed.

Lemma apply_run w first last :
  let v := log_of w in
  worker_inv w → log_ok v → (next_index v.(lv_purged) ≤ first.(index))%N → (first.(index) ≤ last.(index))%N →
  (last.(index) < next_index (LogSpec.last_log_id v))%N →
  wpr (λ e, log_error (LS := LS) e ∨ sm_error (SM := SM) e) (Worker.apply first last)
    (λ res w', result_for v (first, last) res ∧ worker_inv w' ∧ w' = set_sm w w'.(w_sm) ∧
       sm_view w'.(w_sm) = foldl sm_step (sm_view w.(w_sm)) (LogSpec.read v first.(index) (last.(index) + 1))) w.
Proof.
  intros v [Hl Hs] Hok H1 H2 H3. rw /Worker.apply. apply wpr_try.
  pose proof (get_entries_law w.(w_log) first.(index) (last.(index) + 1) Hl ltac:(lia)) as Hr.
  rw /wpr /wp /st_reads in Hr |- *. destruct (RaftLogReader.try_get_log_entries _ _ _) as [[es|e]|]; [|by left|done].
  change (log_view (w_log w)) with v in Hr. subst es.
  assert (length (LogSpec.read v first.(index) (last.(index) + 1)) = N.to_nat (last.(index) + 1 - first.(index))) as Hlen.
  { apply read_length; [done|done|lia]. }
  apply wpr_bind. apply (wp_lift _ (index last + 1 - index first)%N).
  { rw /sub_u64. by destruct (N.leb_spec (index first) (index last + 1)); [|lia]. }
  rw Hlen N2Nat.id N.eqb_refl. cbn [negb]. apply wpr_try.
  eapply wpr_worker_sm; [by apply apply_law|]. intros r s (Hsi & Hr & Hv & _).
  rw Hr Hlen N2Nat.id N.eqb_refl. apply wpr_bind, wp_assert; [done|]. apply wpr_ret.
  split_and!; [|by split|by destruct w|done]. split_and!; cbn; try done. rw Hlen. lia.
Qed.

(** Neither the store nor the state machine fails. *)
Context (Hreliable : ∀ e, ¬ (log_error (LS := LS) e ∨ sm_error (SM := SM) e)).

(** The state [w'] after some events that report [ns]. *)
Definition advanced w w' ns x : Prop :=
  worker_inv w' ∧ w'.(w_log) = w.(w_log) ∧ w'.(w_sent) = w.(w_sent) ++ ns ∧ sm_view w'.(w_sm) = x.

Lemma state_machine_total {A} (m : ST SM (Result A StorageError)) P w :
  wpr sm_error m P w.(w_sm) → ∃ a s, state_machine m w = Done (ROk a, set_sm w s) ∧ P a s.
Proof using Hreliable.
  intros (a & s & Hrun & HP)%wpr_total; [|by intros e He; apply (Hreliable e); right].
  exists a, s. by rw /state_machine Hrun.
Qed.

Lemma build_done_run w :
  worker_inv w → ∃ w' ns, build_done w = Done (tt, w') ∧ advanced w w' ns (sm_view w.(w_sm)) ∧ reported ns = [].
Proof using Hreliable.
  intros [Hl Hs]. rw /build_done /mbind /st_bind /st_get. destruct (w_builds w) as [|n].
  { exists w, []. by rw /advanced app_nil_r. }
  rw /st_put. destruct (state_machine_total RaftStateMachine.build_snapshot _ (set_builds w n) (build_law _ Hs))
    as (snap & s & -> & Hsi & Hv & _).
  eexists _, [N_StateMachine (ROk (Resp_BuildSnapshot snap.(meta)))]. split; [reflexivity|]. done.
Qed.

(** A command that leaves the state machine as it is. *)
Definition quiet (cmd : SmCommand) : bool :=
  match cmd with BuildSnapshot | GetSnapshot _ | BeginReceivingSnapshot _ => true | _ => false end.

Lemma quiet_run cmd w :
  worker_inv w → quiet cmd = true →
  ∃ w', handle funcs cmd w = Done (ROk tt, w') ∧ advanced w w' [] (sm_view w.(w_sm)).
Proof using Hreliable.
  intros [Hl Hs] Hq. rw /advanced app_nil_r. destruct cmd; try done; cbn [handle].
  - by eexists.
  - rw /get_snapshot /try_bind. destruct (state_machine_total _ _ w (current_snapshot_law _ Hs)) as (sn & s & Hrun & _).
    rw (st_bind_run _ _ _ _ _ Hrun). eexists. split; [reflexivity|]. cbn in Hrun |- *.
    rw /state_machine /st_reads in Hrun. destruct (RaftStateMachine.get_current_snapshot _) as [r|]; [|done].
    injection Hrun as _ <-. done.
  - rw /try_bind. destruct (state_machine_total _ _ w (begin_receiving_law _ Hs)) as (d & s & Hrun & Hsi & Hv & _).
    rw (st_bind_run _ _ _ _ _ Hrun). eexists. split; [reflexivity|]. done.
Qed.

(** The worker, run from [w] over [events], applies the entries from [next] to [upto] to [x] and reports
    what it should; [w0] is where the notifications are counted from. *)
Definition loops w0 w events next upto x : Prop :=
  ∃ w' ns, worker_loop funcs events w = Done (ROk tt, w') ∧ (next ≤ upto)%N ∧
    advanced w0 w' ns (foldl sm_step x (LogSpec.read (log_of w0) next upto)) ∧
    Forall2 (result_for (log_of w0)) (apply_ranges events) (reported ns).

Lemma advanced_trans w w1 w2 ns1 ns2 x y : advanced w w1 ns1 x → advanced w1 w2 ns2 y → advanced w w2 (ns1 ++ ns2) y.
Proof.
  intros (_ & Hl1 & Hs1 & _) (Hi2 & Hl2 & Hs2 & Hv2). split_and!; [done|congruence|by rw Hs2 Hs1 app_assoc|done].
Qed.

Lemma loops_quiet w w1 ns events next upto :
  advanced w w1 ns (sm_view w.(w_sm)) → reported ns = [] → loops w1 w1 events next upto (sm_view w1.(w_sm)) →
  loops w w1 events next upto (sm_view w.(w_sm)).
Proof.
  intros Ha Hns (w' & ns' & Hrun & Hle & Ha' & Hres). pose proof Ha as (_ & Hl & _ & Hv).
  rw /log_of Hl -/(log_of w) Hv in Ha', Hres. exists w', (ns ++ ns'). split_and!; [done..| |].
  - by eapply advanced_trans.
  - by rw /reported omap_app -/(reported ns) Hns.
Qed.

Lemma loops_apply w w1 first last res events upto :
  let v := log_of w in let n := N_StateMachine (ROk (Resp_Apply res)) in
  result_for v (first, last) res → (first.(index) ≤ last.(index))%N →
  advanced w w1 [n] (foldl sm_step (sm_view w.(w_sm)) (LogSpec.read v first.(index) (last.(index) + 1))) →
  loops w1 w1 events (last.(index) + 1) upto (sm_view w1.(w_sm)) →
  ∃ w' ns, worker_loop funcs events w1 = Done (ROk tt, w') ∧ (first.(index) ≤ upto)%N ∧
    advanced w w' ns (foldl sm_step (sm_view w.(w_sm)) (LogSpec.read v first.(index) upto)) ∧
    Forall2 (result_for v) ((first, last) :: apply_ranges events) (reported ns).
Proof.
  intros v n Hres Hfl Ha (w' & ns & Hrun & Hle & Ha' & Hress). pose proof Ha as (_ & Hl & _ & Hv).
  rw /log_of Hl -/(log_of w) Hv in Ha', Hress. exists w', (n :: ns). split_and!; [done|lia| |by constructor].
  rw (read_split v first.(index) (last.(index) + 1) upto); [lia..|]. rw foldl_app. exact (advanced_trans _ _ _ [n] ns _ _ Ha Ha').
Qed.

Lemma applied_upto_le next events upto : applied_upto next events = Some upto → (next ≤ upto)%N.
Proof.
  revert next. induction events as [|[cmd|] events IH]; intros next; cbn [applied_upto]; [by intros [= ->]| |apply IH].
  destruct cmd as [| | | |first last|]; try done; try apply IH.
  destruct (N.eqb_spec first.(index) next), (N.leb_spec next last.(index)); try done. intros ?%IH. lia.
Qed.

Lemma handle_apply_run w first last :
  let v := log_of w in
  worker_inv w → log_ok v → (next_index v.(lv_purged) ≤ first.(index))%N → (first.(index) ≤ last.(index))%N →
  (last.(index) < next_index (LogSpec.last_log_id v))%N →
  ∃ res w', handle funcs (SmApply first last) w = Done (ROk tt, w') ∧ result_for v (first, last) res ∧
    advanced w w' [N_StateMachine (ROk (Resp_Apply res))]
      (foldl sm_step (sm_view w.(w_sm)) (LogSpec.read v first.(index) (last.(index) + 1))).
Proof using Hreliable.
  intros v Hi Hok H1 H2 H3.
  destruct (wpr_total _ _ _ _ Hreliable (apply_run w first last Hi Hok H1 H2 H3))
    as (res & w1 & Hrun & Hres & [Hi1 Hs1] & Hw1 & Hv1).
  eexists res, _. split; [cbn [handle]; rw /try_bind (st_bind_run _ _ _ _ _ Hrun); reflexivity|].
  split; [done|]. by split_and!; [|rw /= Hw1|rw /= Hw1|].
Qed.

Lemma worker_loop_run events w next upto :
  worker_inv w → log_ok (log_of w) → (next_index (log_of w).(lv_purged) ≤ next)%N →
  applied_upto next events = Some upto → (upto ≤ next_index (LogSpec.last_log_id (log_of w)))%N →
  loops w w events next upto (sm_view w.(w_sm)).
Proof using Hreliable.
  revert w next. induction events as [|ev events IH]; intros w next Hi Hok Hp Hu Hlast.
  { injection Hu as ->. exists w, []. rw /advanced app_nil_r /LogSpec.read /LogSpec.range N.sub_diag. done. }
  (* a step that leaves the state as it is *)
  assert (∀ w1 ns, advanced w w1 ns (sm_view w.(w_sm)) → reported ns = [] → applied_upto next events = Some upto →
    loops w w1 events next upto (sm_view w.(w_sm))) as Hquiet.
  { intros w1 ns Ha Hns Hu1. apply (loops_quiet w w1 ns); [done..|]. destruct Ha as (Hi1 & Hl1 & _).
    apply IH; rw /log_of ?Hl1 //. }
  destruct ev as [cmd|]; cbn [applied_upto] in Hu.
  - destruct (quiet cmd) eqn:Hq.
    { destruct (quiet_run cmd w Hi Hq) as (w1 & Hrun & Ha). destruct (Hquiet w1 [] Ha eq_refl) as (w' & ns & Hr & Hrest).
      { by destruct cmd. }
      exists w', ns. cbn [worker_loop]. rw /try_bind (st_bind_run _ _ _ _ _ Hrun). split; [done|]. by destruct cmd. }
    destruct cmd as [| | | |first last|]; try done.
    destruct (N.eqb_spec first.(index) next) as [Hf|]; [|done]. destruct (N.leb_spec next last.(index)); [|done].
    cbn [andb] in Hu. pose proof (applied_upto_le _ _ _ Hu).
    destruct (handle_apply_run w first last Hi Hok) as (res & w1 & Hrun & Hres & Ha); [lia..|].
    destruct (loops_apply w w1 first last res events upto Hres) as (w' & ns & Hr & Hrest); [lia|done| |].
    { destruct Ha as (? & Hl1 & _). apply IH; rw /log_of ?Hl1 -?/(log_of w) //. lia. }
    exists w', ns. rw Hf in Hrest. split; [|done]. cbn [worker_loop]. by rw /try_bind (st_bind_run _ _ _ _ _ Hrun).
  - destruct (build_done_run w Hi) as (w1 & ns & Hrun & Ha & Hns). destruct (Hquiet w1 ns Ha Hns Hu) as (w' & ns' & Hr & Hrest).
    exists w', ns'. split; [|done]. cbn [worker_loop]. by rw (st_bind_run _ _ _ _ _ Hrun).
Qed.

(** The worker applies every entry once and in order.  When the [Apply] commands it receives are
    contiguous and start at the next entry to apply, then whatever reads and snapshot builds are
    interleaved with them, the state machine ends up with exactly the log entries from the first to the
    last index applied one after the other, and [RaftCore] is sent the result of each [Apply], in
    order, with one result for each entry. *)
Theorem worker_applies_in_order events w next upto :
  let v := log_of w in
  worker_inv w → log_ok v → (next_index v.(lv_purged) ≤ next)%N → applied_upto next events = Some upto →
  (upto ≤ next_index (LogSpec.last_log_id v))%N →
  ∃ w' ns, do_spawn funcs events w = Done (tt, w') ∧ w'.(w_sent) = w.(w_sent) ++ ns ∧ (next ≤ upto)%N ∧
    sm_view w'.(w_sm) = foldl sm_step (sm_view w.(w_sm)) (LogSpec.read v next upto) ∧
    Forall2 (result_for v) (apply_ranges events) (reported ns).
Proof using Hreliable.
  intros v Hi Hok Hp Hu Hlast.
  destruct (worker_loop_run events w next upto Hi Hok Hp Hu Hlast) as (w' & ns & Hrun & Hle & (_ & _ & Hsent & Hv) & Hres).
  exists w', ns. split; [|done]. by rw /do_spawn (st_bind_run _ _ _ _ _ Hrun).
Qed.
End worker.

Section worker_errors.
Context {C : RaftTypeConfig} {LS SM : Type}.
Context `{!RaftLogReader.RaftLogReader LS} `{!RaftStateMachine.RaftStateMachine SM}.
Context (funcs : N → option (SM → SM)).
Implicit Types w : Worker LS SM.
Import Worker.

Lemma worker_loop_app events ev post w w1 :
  worker_loop funcs events w = Done (ROk tt, w1) →
  worker_loop funcs (events ++ ev :: post) w = worker_loop funcs (ev :: post) w1.
Proof.
  revert w. induction events as [|ev' events IH]; intros w; [by intros [= ->]|].
  destruct ev' as [cmd|]; cbn [app worker_loop]; rw /try_bind /mbind /st_bind.
  - destruct (handle funcs cmd w) as [[[[]|e] w']|]; try done. apply IH.
  - destruct (build_done w) as [[[] w']|]; [|done]. apply IH.
Qed.

(** A log that lost entries is never applied.  When the log store returns another number of entries
    than [Apply] asks for, the worker applies nothing, reports the storage error to [RaftCore] and
    handles nothing after it. *)
Theorem worker_refuses_short_log events first last post es w w1 :
  worker_loop funcs events w = Done (ROk tt, w1) →
  RaftLogReader.try_get_log_entries w1.(w_log) first.(index) (last.(index) + 1) = Done (ROk es) →
  (first.(index) ≤ last.(index) + 1)%N → N.of_nat (length es) ≠ (last.(index) + 1 - first.(index))%N →
  ∃ w', do_spawn funcs (events ++ W_Command (SmApply first last) :: post) w = Done (tt, w') ∧
    w'.(w_sm) = w1.(w_sm) ∧ w'.(w_replies) = w1.(w_replies) ∧
    w'.(w_sent) = w1.(w_sent) ++
      [N_StateMachine (RErr (StorageError.read_logs "returned log entries count does not match the input"))].
Proof.
  intros Hpre Hes Hle Hne.
  exists {| w_log := w1.(w_log); w_sm := w1.(w_sm); w_builds := w1.(w_builds);
            w_sent := w1.(w_sent) ++
              [N_StateMachine (RErr (StorageError.read_logs "returned log entries count does not match the input"))];
            w_replies := w1.(w_replies) |}.
  split; [|done].
  rw /do_spawn /mbind /st_bind (worker_loop_app _ _ _ _ _ Hpre). cbn [worker_loop handle].
  rw /Worker.apply /try_bind /mbind /st_bind /st_reads Hes /lift /sub_u64.
  destruct (N.leb_spec (index first) (index last + 1)); [|lia].
  destruct (N.eqb_spec (N.of_nat (length es)) (index last + 1 - index first)); [done|]. cbn [negb]. reflexivity.
Qed.
End worker_errors.

(** ** Witnesses, with the in-memory store *)
Section witness.
#[local] Existing Instances MemConfig entry_json entry_json_laws sm_json sm_json_laws.

Definition mem_worker : Worker MemLogStore.MemLogStore MemStateMachine.MemStateMachine :=
  Worker.spawn mem_crashed.1 MemStateMachine.new.
Definition mem_events : list WorkerEvent := [
  W_Command (SmApply (mem_id 0 0) (mem_id 1 1)); W_Command BuildSnapshot;
  W_Command (SmApply (mem_id 1 2) (mem_id 2 3)); W_BuildDone; W_Command (GetSnapshot 5%N)].

Lemma worker_applies_in_order_witness :
  ∃ w' ns, Worker.do_spawn (λ _, None) mem_events mem_worker = Done (tt, w') ∧ w'.(w_sent) = ns ∧
    w'.(w_sm).(MemStateMachine.sm).(client_status) !! "a"%string = Some "request-6"%string ∧
    length (reported ns) = 2.
Proof.
  destruct mem_crashed_view as (Hi & Hv & Hok).
  assert (∀ e, ¬ (log_error (LS := MemLogStore.MemLogStore) e ∨ sm_error (SM := MemStateMachine.MemStateMachine) e)) as Hno
    by (by intros e []).
  destruct (worker_applies_in_order (λ _, None) Hno
              mem_events mem_worker 0 4) as (w' & ns & Hrun & Hs & _ & Hsm & Hres).
  - by split.
  - done.
  - rw /log_of. cbn [log_view mem_log_laws]. change (w_log mem_worker) with mem_crashed.1. rw Hv. by vm_compute.
  - done.
  - rw /log_of. cbn [log_view mem_log_laws]. change (w_log mem_worker) with mem_crashed.1. rw Hv. by vm_compute.
  - exists w', ns. split; [exact Hrun|]. split; [exact Hs|]. split.
    + change (w'.(w_sm).(MemStateMachine.sm)) with (sm_view w'.(w_sm)). rw Hsm /log_of. cbn [log_view mem_log_laws].
      change (w_log mem_worker) with mem_crashed.1. rw Hv. by vm_compute.
    + by rw -(Forall2_length _ _ _ Hres).
Defined.

Lemma worker_refuses_short_log_witness :
  ∃ w', Worker.do_spawn (λ _, None) [W_Command (SmApply (mem_id 0 0) (mem_id 2 9)); W_Command (SmApply (mem_id 0 0) (mem_id 1 1))]
          mem_worker = Done (tt, w') ∧ w'.(w_sm) = MemStateMachine.new.
Proof.
  destruct mem_crashed_view as (Hi & Hv & _).
  destruct (worker_refuses_short_log (λ _, None) [] (mem_id 0 0) (mem_id 2 9)
              [W_Command (SmApply (mem_id 0 0) (mem_id 1 1))] (LogSpec.read (mem_view mem_crashed.1) 0 10)
              mem_worker mem_worker) as (w' & Hrun & Hsm & _).
  - done.
  - by apply get_entries_mem.
  - by vm_compute.
  - rw Hv. by vm_compute.
  - by exists w'.
Defined.
End witness.
