(* ===== verification/Election.v ===== *)
(** * Elections (openraft/src/engine/engine_impl.rs: elect, handle_vote_resp, establish_leader)

    What becoming a candidate does, and that counting the votes makes a leader exactly when the
    granters are a quorum.  Only theorems: the definitions are those of [EngineImpl]. *)

From S2P Require Export EngineImpl.

Section election.
Context {C : RaftTypeConfig}.
Implicit Types (r : Rt) (s : RaftState.RaftState).

(** The vote of the next term for this node. *)
Definition candidate_vote r : Vote :=
  from_leader_id (lid_new (next_term (vote_term (RaftState.vote_ref (state_of r)))) (id_of r)) false.

Lemma candidate_vote_gt r : vote_lt (RaftState.vote_ref (state_of r)) (candidate_vote r).
Proof. apply vote_lt_of_term. rw /candidate_vote /vote_term /= lid_new_term /next_term. lia. Qed.

Lemma not_committed_compat v v' : is_committed v = false → vote_compat v v'.
Proof. intros Hv Hc. rw /is_committed in Hv. congruence. Qed.

(** A vote for this node itself changes nothing else, as long as it is not granted by a quorum. *)
Lemma internal_leading r :
  MembershipState.contains (state_of r).(RaftState.membership_state) (id_of r) = true →
  leader_node_id (RaftState.vote_ref (state_of r)) = Some (id_of r) →
  is_committed (RaftState.vote_ref (state_of r)) = false →
  VoteHandler.update_internal_server_state r = Done (tt, r).
Proof.
  intros Hc Hid Hv. rw /VoteHandler.update_internal_server_state.
  rw (bind_run get_config _ r _ r eq_refl) (bind_run get_state _ r (state_of r) r eq_refl).
  assert (RaftState.is_leading (state_of r) (id_of r) = true) as Hl.
  { rw /RaftState.is_leading Hc. by rw bool_decide_true. }
  change (EngineConfig.id (Engine.config (eng r))) with (id_of r). rw /RaftState.is_leader Hl Hv. done.
Qed.

(** Becoming a candidate, on a node that is a member: the node votes for itself in the next
    term, the vote is saved before the requests for votes go out with its last log id, and the
    tally starts without a grant over the quorums of the effective membership.  Nothing else of the
    log or membership changes. *)
Theorem elect_spec r :
  let s := state_of r in
  let v := candidate_vote r in
  let m := EffectiveMembership.membership s.(RaftState.membership_state).(ms_effective) in
  MembershipState.contains s.(RaftState.membership_state) (id_of r) = true →
  accepted_below s (RaftState.vote_ref s) → RaftState.vote_last_modified s ⪯ Some r.(clock) →
  ∃ r', EngineImpl.elect r = Done (tt, r') ∧
    let s' := state_of r' in
    RaftState.vote_ref s' = v ∧ vote_lt (RaftState.vote_ref s) v ∧
    s'.(RaftState.server_state) = Candidate_ ∧
    r'.(eng).(Engine.candidate) = Some (Candidate.new r.(clock) v (last_log_id s) (Membership.to_quorum_set m)
                                          (Membership.learner_ids m)) ∧
    r'.(eng).(Engine.leader) = r.(eng).(Engine.leader) ∧
    log_part s' = log_part s ∧ s'.(RaftState.membership_state) = s.(RaftState.membership_state) ∧
    commands_of r' = commands_of r ++
      [SaveVote v; SendVote {| vreq_vote := v; vreq_last_log_id := last_log_id s |}].
Proof.
  intros s v m Hc Hacc Hlm. pose proof (candidate_vote_gt r) as Hgt. fold s v in Hgt.
  set (c := Candidate.new r.(clock) v (last_log_id s) (Membership.to_quorum_set m) (Membership.learner_ids m)).
  set (r1 := set_eng (ticked r) (Engine.set_candidate r.(eng) (Some c))).
  assert (EngineImpl.new_candidate v r = Done (c, r1)) as Hnew by done.
  assert (RaftState.vote_ref s ≠ v) as Hne by (intros Heq; rw Heq in Hgt; by apply vote_lt_irrefl in Hgt).
  destruct (update_vote_run r1 v) as (s1 & Hup & Hs1).
  { by apply not_committed_compat. } { by left. }
  { intros cur Hcur. split; [by apply not_committed_compat|]. eapply vote_le_trans; [by apply Hacc|by left]. }
  { eapply ole_trans; [exact Hlm|]. apply Some_ole, N_ole. cbn. lia. }
  change (RaftState.vote_ref (state_of r1)) with (RaftState.vote_ref s) in Hup, Hs1.
  rewrite -> !(bool_decide_false _ Hne) in Hup, Hs1. destruct Hs1 as (a & -> & Ha & _).
  match type of Hup with _ = _ (voted r1 ?s2 _) => set (s2' := s2) in Hup end. set (r2 := voted r1 s2' [SaveVote v]) in Hup.
  assert (leader_node_id v = Some (id_of r)) as Hid by by rw /leader_node_id /= lid_new_node_id.
  assert (VoteHandler.update_internal_server_state r2 = Done (tt, r2)) as Hint.
  { apply internal_leading; [exact Hc|exact Hid|done]. }
  rw (bind_run _ _ _ _ _ Hint) in Hup.
  set (req := {| vreq_vote := v; vreq_last_log_id := last_log_id s |}).
  set (r3 := emits r2 [SendVote req] (state_of r2)).
  assert (RaftState.calc_server_state (state_of r3) (id_of r3) = Candidate_) as Hcalc.
  { assert (RaftState.is_leading (state_of r3) (id_of r3) = true) as Hl.
    { rw /RaftState.is_leading. change (RaftState.vote_ref (state_of r3)) with v. rw Hid.
      rw bool_decide_true; [done|]. rw andb_true_r. exact Hc. }
    rw /RaftState.calc_server_state /RaftState.is_leader Hl. done. }
  eexists. split.
  { rw /EngineImpl.elect (bind_run get_config _ r _ r eq_refl) (bind_run get_state _ r s r eq_refl).
    change (from_leader_id _ false) with v. rw (bind_run _ _ _ _ _ Hnew) (bind_run _ _ _ _ _ Hup).
    rw (bind_run (lift (assert_ (is_ok (ROk tt : Result unit RejectVoteRequest)) _)) _ r2 tt r2); [done|].
    rw (bind_run (push_command (SendVote req)) _ r2 tt r3 eq_refl).
    apply update_server_state_does. }
  cbn zeta. split_and!; try done.
  rw /commands_of. cbn. by rw app_nil_r -app_assoc.
Qed.

(** *** Counting the votes *)
Lemma reset_inflight_forall id (P : ProgressEntry → Prop) v :
  (∀ e, P e → P (ProgressEntry.set_inflight e Inflight_None)) →
  Forall (λ te, te.1 ≠ id → P te.2) v → Forall (λ te, te.1 ≠ id → P te.2) (ReplicationHandler.reset_inflight id v).1.
Proof.
  intros HP. induction 1 as [|[t e] v He _ IH]; [done|]. cbn.
  destruct (ReplicationHandler.reset_inflight id v) as [rest targets]. cbn in IH |- *.
  case_bool_decide; apply Forall_cons; (split; [|done]); cbn in *; auto.
Qed.

Lemma rebuild_streams_run r l :
  r.(eng).(Engine.leader) = Some l →
  let v := ReplicationHandler.reset_inflight (id_of r) l.(Leader.progress).(vector) in
  ReplicationHandler.rebuild_replication_streams r = Done (tt,
    emits (set_eng r (Engine.set_leader r.(eng) (Some (Leader.set_progress l (set_vector l.(Leader.progress) v.1)))))
      [RebuildReplicationStreams v.2] (state_of r)).
Proof.
  intros Hl v. assert (get_leader r = Done (l, r)) as Hg by by rw /get_leader Hl.
  rw /ReplicationHandler.rebuild_replication_streams (bind_run get_config _ r _ r eq_refl) (bind_run _ _ _ _ _ Hg).
  change (EngineConfig.id (Engine.config (eng r))) with (id_of r). fold v. destruct v as [v' targets].
  rw /ReplicationHandler.put_progress. rw {1}/mbind /st_bind (bind_run _ _ _ _ _ Hg). done.
Qed.

(** The candidate counts the votes for the vote it holds, with the log it has, on a node that is a
    member, did not accept anything under a newer vote, and whose log was written in earlier terms. *)
Record electable r (c : Candidate.Candidate LeaderQuorumSet) : Prop := {
  el_vote : c.(Candidate.vote) = RaftState.vote_ref (state_of r);
  el_pending : is_committed c.(Candidate.vote) = false;
  el_mine : leader_node_id c.(Candidate.vote) = Some (id_of r);
  el_last : c.(Candidate.last_log_id) = last_log_id (state_of r);
  el_member : MembershipState.contains (state_of r).(RaftState.membership_state) (id_of r) = true;
  el_quorum_set : qs_ok c.(Candidate.quorum_set) c.(Candidate.learner_ids);
  el_leader : r.(eng).(Engine.leader) = None;
  el_log : ∀ q, last_log_id (state_of r) = Some q →
    q.(leader_id) ⪯ lid_to_committed c.(Candidate.vote).(vote_leader_id);
  el_accepted : ∀ cur, RaftState.accepted_io (state_of r) = Some cur →
    vote_compat (committed_into_vote (to_committed c.(Candidate.vote))) (IOId.to_vote cur) ∧
    vote_le (IOId.to_vote cur) c.(Candidate.vote);
  el_clock : RaftState.vote_last_modified (state_of r) ⪯ Some r.(clock);
}.

Lemma into_leader_run r c t :
  electable r c →
  ∃ l, Candidate.into_leader t c = Done l ∧ l.(Leader.committed_vote) = to_committed c.(Candidate.vote) ∧
    l.(Leader.transfer_to) = None ∧ l.(Leader.last_log_id) = last_log_id (state_of r) ∧
    l.(Leader.progress) = VecProgress_new c.(Candidate.quorum_set) c.(Candidate.learner_ids)
                            (ProgressEntry.empty (next_index (last_log_id (state_of r)))).
Proof.
  intros He. rw /Candidate.into_leader (el_pending _ _ He) (el_last _ _ He). cbn [negb assert_ mbind outcome_bind].
  rw /Leader.new /assert_.
  destruct (last_log_id (state_of r)) as [q|] eqn:Hq; [|eexists; by split_and!].
  assert ((leader_id <$> Some q) ⪯? Some (committed_leader_id (to_committed (Candidate.vote c))) = true) as Hle.
  { apply leb_le, Some_ole. by apply (el_log _ _ He). }
  change (LeaderLogIds.last {| log_id_range := (λ last, (last, last)) <$> Some q |}) with (Some q).
  change (LeaderLogIds.first {| log_id_range := (λ last, (last, last)) <$> Some q |}) with (Some q).
  rw Hle. cbn [mbind outcome_bind]. eexists. by split_and!.
Qed.

(** The node turns its own, now committed, vote into its state: it already is the leader of it. *)
Lemma internal_leader r l :
  r.(eng).(Engine.leader) = Some l → RaftState.is_leader (state_of r) (id_of r) = true →
  l.(Leader.committed_vote) = to_committed (RaftState.vote_ref (state_of r)) →
  VoteHandler.update_internal_server_state r = Done (tt, emits r [] (RaftState.set_server_state (state_of r) Leader_)).
Proof.
  intros Hl Hlead Hv. rw /VoteHandler.update_internal_server_state.
  rw (bind_run get_config _ r _ r eq_refl) (bind_run get_state _ r (state_of r) r eq_refl).
  change (EngineConfig.id (Engine.config (eng r))) with (id_of r). rw Hlead.
  rw /VoteHandler.become_leader (bind_run get_engine _ r r.(eng) r eq_refl) Hl.
  change (Engine.state (eng r)) with (state_of r). rw Hv. rw bool_decide_true; [done|].
  assert (Leader.set_committed_vote l (to_committed (RaftState.vote_ref (state_of r))) = l) as ->.
  { rw -Hv. by destruct l. }
  assert (put_leader (Some l) r = Done (tt, r)) as Hput.
  { rw /put_leader /st_modify. do 2 f_equal. rw -Hl. by destruct r as [[] ? ? ? ?]. }
  rw (bind_run _ _ _ _ _ Hput) update_server_state_does. do 3 f_equal.
  by rw /RaftState.calc_server_state Hlead.
Qed.

Lemma ref_vote_ge_refl (v : Vote) : ref_vote_ge (as_ref_vote v) (as_ref_vote v) = Done true.
Proof.
  destruct (ref_vote_ge_run v v) as (x & Hx & Hi); [apply vote_compat_refl|]. rw Hx. f_equal. apply Hi, vote_le_refl.
Qed.

Lemma leader_handler_run r l :
  r.(eng).(Engine.leader) = Some l → committed_into_vote l.(Leader.committed_vote) = RaftState.vote_ref (state_of r) →
  EngineImpl.leader_handler r = Done (ROk tt, r).
Proof.
  intros Hl Hv. rw /EngineImpl.leader_handler (bind_run get_engine _ r r.(eng) r eq_refl) Hl.
  change (committed_as_ref_vote (Leader.committed_vote l)) with (as_ref_vote (committed_into_vote (Leader.committed_vote l))).
  rw Hv. change (Engine.state (eng r)) with (state_of r). by rw ref_vote_ge_refl.
Qed.

(** The candidate is turned into the leader, with the tally gone. *)
Lemma establish_run r c :
  electable r c →
  ∃ l, EstablishHandler.establish c r =
      Done (Some l, set_eng (ticked r) (Engine.set_leader r.(eng) (Some l))) ∧
    l.(Leader.committed_vote) = to_committed c.(Candidate.vote) ∧
    l.(Leader.transfer_to) = None ∧ l.(Leader.last_log_id) = last_log_id (state_of r) ∧
    l.(Leader.progress) = VecProgress_new c.(Candidate.quorum_set) c.(Candidate.learner_ids)
                            (ProgressEntry.empty (next_index (last_log_id (state_of r)))).
Proof.
  intros He. destruct (into_leader_run r c r.(clock) He) as (l & Hl & H1). exists l. split; [|exact H1].
  rw /EstablishHandler.establish (bind_run get_config _ r _ r eq_refl).
  change (EngineConfig.id (Engine.config (eng r))) with (id_of r).
  rw (bool_decide_true _ (el_mine _ _ He)). rw (bind_run (lift (assert_ true _)) _ r tt r eq_refl).
  rw (bind_run get_engine _ r r.(eng) r eq_refl) (el_leader _ _ He). rw (bind_run (mret true) _ r true r eq_refl).
  cbn [negb]. rw (bind_run now _ r r.(clock) (ticked r) eq_refl). by rw (bind_run (lift _) _ _ l (ticked r)); [rw Hl|].
Qed.

(** Accepting its own vote, now committed, the new leader becomes the leader in its state. *)
Lemma commit_own_vote_run r c l :
  electable r c → l.(Leader.committed_vote) = to_committed c.(Candidate.vote) →
  let v := committed_into_vote (to_committed c.(Candidate.vote)) in
  let r1 := set_eng r (Engine.set_leader r.(eng) (Some l)) in
  ∃ r', VoteHandler.update_vote v r1 = Done (ROk tt, r') ∧
    r'.(eng).(Engine.leader) = Some l ∧ r'.(eng).(Engine.candidate) = r.(eng).(Engine.candidate) ∧
    id_of r' = id_of r ∧ RaftState.vote_ref (state_of r') = v ∧
    (state_of r').(RaftState.server_state) = Leader_ ∧ accepted_below (state_of r') v ∧
    log_part (state_of r') = log_part (state_of r) ∧
    (state_of r').(RaftState.membership_state) = (state_of r).(RaftState.membership_state) ∧
    commands_of r' = commands_of r ++ [SaveVote v].
Proof.
  intros He Hl v r1. pose proof (el_vote _ _ He) as Hv. pose proof (el_pending _ _ He) as Hp.
  assert (vote_lt (Candidate.vote c) v) as Hlt.
  { rw /vote_lt /vote_cmp /= lid_cmp_refl. rw /is_committed in Hp. by rw Hp. }
  destruct (update_vote_run r1 v) as (s1 & Hup & Hs1).
  { change (state_of r1) with (state_of r). rw -Hv. intros _ Hc. rw /is_committed in Hp. congruence. }
  { change (state_of r1) with (state_of r). rw -Hv. by left. }
  { intros cur Hcur. destruct (el_accepted _ _ He cur Hcur) as [H1 H2]. split; [done|].
    eapply vote_le_trans; [exact H2|by left]. }
  { apply (el_clock _ _ He). }
  assert (RaftState.vote_ref (state_of r1) ≠ v) as Hne.
  { change (state_of r1) with (state_of r). rw -Hv. intros Heq. rw Heq in Hlt. by apply vote_lt_irrefl in Hlt. }
  rewrite -> !(bool_decide_false _ Hne) in Hup, Hs1. destruct Hs1 as (a & Hs1 & Ha & _).
  set (r2 := voted r1 s1 [SaveVote v]) in Hup.
  assert (RaftState.vote_ref s1 = v) as Hv1 by by rw Hs1.
  assert (RaftState.is_leader (state_of r2) (id_of r2) = true) as Hlead.
  { rw /RaftState.is_leader /RaftState.is_leading. change (state_of r2) with s1. rw Hv1. cbn [is_committed v].
    rw bool_decide_true; [exact (el_mine _ _ He)|]. rw !andb_true_r. rw Hs1. exact (el_member _ _ He). }
  assert (VoteHandler.update_internal_server_state r2 =
    Done (tt, emits r2 [] (RaftState.set_server_state (state_of r2) Leader_))) as Hint.
  { apply (internal_leader r2 l); [done|exact Hlead|]. change (state_of r2) with s1. by rw Hv1 Hl. }
  rw (bind_run _ _ _ _ _ Hint) in Hup. eexists. split; [exact Hup|]. subst s1. split_and!; try done.
  - intros cur Hcur. injection Hcur as <-. rw Ha. split; [apply vote_compat_refl|apply vote_le_refl].
  - rw /commands_of. cbn. by rw app_nil_r.
Qed.

Lemma electable_ext r r' c :
  electable r c → state_of r' = state_of r → id_of r' = id_of r → r'.(eng).(Engine.leader) = None →
  (r.(clock) ≤ r'.(clock))%N → electable r' c.
Proof.
  intros [E1 E2 E3 E4 E5 E6 E7 E8 E9 E10] Hs Hid Hl Hc. split; rw ?Hs ?Hid; try done.
  eapply ole_trans; [exact E10|]. by apply Some_ole, N_ole.
Qed.

(** The election is won: the node proposes a blank entry of its term. *)
(** The followers of a new leader can be sent to. *)
Lemma new_progress_sendable id lid s (qs : LeaderQuorumSet) learners n :
  (n ≤ next_index (last_log_id s))%N →
  Forall (λ te, te.1 ≠ id → sendable s te.2 ∧ ∀ x, te.2.(matching) = Some x → x.(leader_id) ⪯ lid)
    (ReplicationHandler.reset_inflight id (vector (VecProgress_new qs learners (ProgressEntry.empty n)))).1.
Proof.
  intros Hn. apply (reset_inflight_forall _ (λ e, sendable s e ∧ ∀ x, matching e = Some x → leader_id x ⪯ lid)).
  - intros e [[V M N] H]. split; [|exact H]. split; [|exact M|exact N]. revert V.
    rw /ProgressEntry.validate /= !andb_true_iff. naive_solver.
  - cbn [VecProgress_new vector]. rw -fmap_app. apply Forall_fmap, Forall_forall. intros x _ _. cbn.
    split; [|done]. split; [|by intros ? ?|done]. rw /ProgressEntry.validate /= !andb_true_r. apply N.leb_le. lia.
Qed.

(** [establish_leader], given how its parts run. *)
Lemma establish_leader_parts r c l rC rD rE rF r' a :
  r.(eng).(Engine.candidate) = Some c →
  EstablishHandler.establish c (set_eng r (Engine.set_candidate r.(eng) None)) = Done (Some l, rC) →
  ReplicationHandler.rebuild_replication_streams rC = Done (tt, rD) →
  VoteHandler.update_vote (committed_into_vote l.(Leader.committed_vote)) rD = Done (ROk tt, rE) →
  accept_io (IOId.new_log_io l.(Leader.committed_vote) l.(Leader.last_log_id)) rE = Done (a, rF) →
  EngineImpl.leader_handler rF = Done (ROk tt, rF) →
  LeaderHandler.leader_append_entries [Entry.new_blank LogId_default] rF = Done (tt, r') →
  EngineImpl.establish_leader r = Done (tt, r').
Proof.
  intros Hc H1 H2 H3 H4 H5 H6. rw /EngineImpl.establish_leader (bind_run get_engine _ r r.(eng) r eq_refl).
  rw (bind_run (lift _) _ r c r); [by rw Hc|]. rw (bind_run (put_candidate None) _ r tt _ eq_refl).
  rw (bind_run _ _ _ _ _ H1) (bind_run _ _ _ _ _ H2). cbn beta zeta. rw (bind_run _ _ _ _ _ H3).
  rw (bind_run (lift (assert_ (is_ok (ROk tt : Result unit RejectVoteRequest)) _)) _ rE tt rE); [done|].
  rw (bind_run _ _ _ _ _ H4) (bind_run _ _ _ _ _ H5).
  by rw (bind_run (lift (assert_ (is_ok (ROk tt : Result unit ForwardToLeader)) _)) _ rF tt rF).
Qed.

Lemma establish_leader_run r c :
  let s := state_of r in
  let lid := lid_to_committed c.(Candidate.vote).(vote_leader_id) in
  let v := committed_into_vote (to_committed c.(Candidate.vote)) in
  let noop := LogId_new lid (next_index (last_log_id s)) in
  r.(eng).(Engine.candidate) = Some c → electable r c →
  raft_state_ok s → membership_ok s → (s.(RaftState.purge_upto) ≠ None → snapshot_last_log_id s ≠ None) →
  ∃ r' l targets cs, EngineImpl.establish_leader r = Done (tt, r') ∧
    r'.(eng).(Engine.leader) = Some l ∧ r'.(eng).(Engine.candidate) = None ∧
    l.(Leader.committed_vote) = to_committed c.(Candidate.vote) ∧
    RaftState.vote_ref (state_of r') = v ∧ (state_of r').(RaftState.server_state) = Leader_ ∧
    raft_state_ok (state_of r') ∧ membership_ok (state_of r') ∧
    (state_of r').(RaftState.committed) = s.(RaftState.committed) ∧
    (∀ i, ref_log_id (state_of r') i = if (i <? noop.(index))%N then ref_log_id s i
                                       else if (i =? noop.(index))%N then Some noop else None) ∧
    commands_of r' = commands_of r ++ [RebuildReplicationStreams targets; SaveVote v;
      AppendInputEntries l.(Leader.committed_vote) [Entry.new_blank noop]] ++ cs ∧
    Forall (is_replicate (id_of r)) cs.
Proof.
  intros s lid v noop Hc He Hok Hmo Hpu.
  set (rA := set_eng r (Engine.set_candidate r.(eng) None)).
  assert (electable rA c) as HeA by (apply (electable_ext r); try done; apply (el_leader _ _ He)).
  destruct (establish_run rA c HeA) as (l & Hest & Hlv & Hlt & Hll & Hlp).
  set (rC := set_eng (ticked rA) (Engine.set_leader rA.(eng) (Some l))) in Hest.
  pose proof (rebuild_streams_run rC l eq_refl) as Hreb. cbn zeta in Hreb.
  set (reset := ReplicationHandler.reset_inflight (id_of rC) (vector (Leader.progress l))) in Hreb.
  set (l1 := Leader.set_progress l (set_vector l.(Leader.progress) reset.1)) in Hreb.
  set (rD := emits (set_eng rC (Engine.set_leader rC.(eng) None)) [RebuildReplicationStreams reset.2] s).
  assert (electable rD c) as HeD by (apply (electable_ext r); try done; cbn; lia).
  destruct (commit_own_vote_run rD c l1 HeD Hlv) as (rE & Hup & HE1 & HE2 & HE3 & HE4 & HE5 & HE6 & HE7 & HE8 & HE9).
  destruct (does_accept_io (IOId.new_log_io l.(Leader.committed_vote) l.(Leader.last_log_id)) rE) as (a & Hio & _ & _ & Ha & _).
  { cbn [IOId.to_vote IOId.new_log_io committed_vote]. rw Hlv. exact HE6. }
  set (sF := with_accepted (state_of rE) a) in Hio. set (rF := emits rE [] sF) in *.
  assert (log_part sF = log_part s) as Hlog by exact HE7.
  assert (RaftState.membership_state sF = RaftState.membership_state s) as Hms by exact HE8.
  pose proof Hlog as [= Hlc _ Hlids _ Hlpu].
  assert (next_index (last_log_id sF) = next_index (last_log_id s)) as Hnext by (cbn; by rw Hlids).
  destruct (leader_append_run rF l1 [Entry.new_blank LogId_default]) as
    (r' & es' & cs & Hrun & R1 & R2 & R3 & R4 & R5 & R6 & R7 & R8 & R9 & R10 & R11 & l' & R12 & R13 & _).
  { exact HE1. } { exact Hlt. } { rw Hll. change (state_of rF) with sF. cbn. by rw Hlids. } { done. }
  { by apply Forall_singleton. } { by apply (raft_state_ok_ext s). } { by apply (membership_ok_ext s). }
  { change (state_of rF) with sF. rw Hlpu. cbn. injection Hlog as _ _ _ Hsn _. rw Hsn. exact Hpu. }
  { change (state_of rF) with sF. intros q Hq. cbn in Hq. rw Hlids in Hq. change (leader_id q ⪯ committed_leader_id (Leader.committed_vote l)).
    rw Hlv. by apply (el_log _ _ He). }
  { intros cur [= <-]. rw Ha. split; [apply vote_compat_refl|apply vote_le_refl]. }
  { assert (id_of rF = id_of rC) as -> by exact HE3. change (vector (Leader.progress l1)) with reset.1. rw /reset Hlp.
    apply new_progress_sendable. rw Hnext. apply N.le_refl. }
  exists r', l', reset.2, cs. split.
  { eapply (establish_leader_parts r c); [exact Hc|exact Hest|exact Hreb|by rw Hlv|exact Hio| |exact Hrun].
    apply (leader_handler_run rF l1); [exact HE1|]. rw Hlv. symmetry. exact HE4. }
  assert (es' = [Entry.new_blank noop]) as Hes'.
  { destruct es' as [|e [|]]; try done. injection R1 as Hp. pose proof (R2 0 e eq_refl) as Hid.
    destruct e as [i p]. cbn in Hp, Hid. subst. rw /noop. f_equal. rw /Entry.new_blank /Entry.new. f_equal.
    rw Hlv Hlids. f_equal. cbn. lia. }
  assert (id_of rF = id_of r) as Hidf by exact HE3. rw Hidf in R8.
  subst es'. split_and!; [exact R12| | | | |exact R3|exact R4|by rw R6| | |exact R8].
  - by rw R11.
  - by rw R13.
  - rw /RaftState.vote_ref R9. exact HE4.
  - rw R10. exact HE5.
  - intros i. rw R5. change (state_of rF) with sF. rw Hnext. cbn [index noop LogId_new].
    destruct (N.ltb_spec i (next_index (last_log_id s))); [cbn; by rw Hlids|].
    destruct (N.eqb_spec i (next_index (last_log_id s))) as [->|Hne]; [by rw N.sub_diag|].
    apply lookup_ge_None. rw length_fmap. cbn [length]. lia.
  - rw R7 R13. change (commands_of rF) with (commands_of rE ++ []). rw HE9 app_nil_r.
    change (commands_of rD) with (commands_of r ++ [RebuildReplicationStreams reset.2]). by rw -!app_assoc.
Qed.

End election.

(** ** Witnesses *)
Section ut.
#[local] Existing Instance UTConfig.

Lemma elect_spec_witness :
  ∃ r', EngineImpl.elect (ut_rt 2) = Done (tt, r') ∧ (state_of r').(RaftState.server_state) = Candidate_.
Proof.
  destruct (elect_spec (ut_rt 2)) as (r' & Hrun & _ & _ & Hs & _); [done|by intros cur|done|]. by exists r'.
Defined.

(** Node 2 is a candidate of term 4, and its own vote is in. *)
Definition ut_tally : Candidate.Candidate LeaderQuorumSet :=
  Candidate.new 0 (Vote_new 4 2) (Some (ut_log_id 3 1 6)) (Joint_new [[1; 2]]%N) [3]%N.
Definition ut_candidate_rt : Rt :=
  let s := RaftState.set_vote ut_state (Leased.without_last_update (Vote_new 4 2)) in
  set_eng (ut_rt 2) (Engine.set_candidate (Engine.set_state (eng (ut_rt 2)) s) (Some ut_tally)).

Lemma ut_electable : electable ut_candidate_rt ut_tally.
Proof.
  split; try done.
  - split; [by apply (bool_decide_unpack _)|done|done].
  - intros q [= <-]. by apply olt_le.
Qed.

End ut.
