(* ===== verification/Purge.v ===== *)
(** * Purging the log (openraft/src/engine/engine_impl.rs: trigger_purge_log, finish_building_snapshot;
      replication_handler/mod.rs: try_purge_log; log_handler/mod.rs)

    The purge on request and the purge the policy schedules after a snapshot: what is deleted is in
    the snapshot, and a leader that is still sending the entries postpones the deletion.  Only
    theorems: the definitions are those of [LogHandler], [ReplicationHandler] and [EngineImpl]. *)

From S2P Require Export EngineImpl.

Section purge.
Context {C : RaftTypeConfig}.
Implicit Types (r : Rt) (s : RaftState.RaftState).

(** The purge that is scheduled in [s] leads to [s'], with the output [cs]: it is carried out up to
    [upto], or postponed. *)
Definition purge_outcome s (cs : list Command) s' : Prop :=
  cs = [] ∧ s' = s ∨
  ∃ upto l, s.(RaftState.purge_upto) = Some upto ∧ cs = [PurgeLog upto] ∧ s' = purged s upto l ∧
    LogIdList.first l = Some upto ∧ LogIdList.last l = last_log_id s ∧
    ∀ i, LogIdList.ref_at l i = if (i <? upto.(index))%N then None else ref_log_id s i.

Lemma try_purge_does r :
  raft_state_ok (state_of r) →
  ∃ cs s', does EngineImpl.try_purge_log r tt cs s' ∧ raft_state_ok s' ∧ purge_outcome (state_of r) cs s' ∧
    (r.(eng).(Engine.leader) = None → last_purged_log_id (state_of r) ≺ (state_of r).(RaftState.purge_upto) → cs ≠ []).
Proof.
  intros Hok. destruct (purge_log_does r Hok) as (cs & s' & Hrun & Hok' & Hwhy).
  assert (purge_outcome (state_of r) cs s') as Hcase.
  { destruct Hwhy as [(_ & -> & ->)|(upto & l & H1 & _ & H2)]; [by left|right; by exists upto, l]. }
  destruct (r.(eng).(Engine.leader)) as [l|] eqn:Hl.
  - assert (∀ b : bool, ∃ cs s', does (if b then mret tt else LogHandler.purge_log) r tt cs s' ∧ raft_state_ok s' ∧
      purge_outcome (state_of r) cs s') as Hif.
    { intros [|]; [|by exists cs, s']. exists [], (state_of r). split_and!; [apply does_ret|done|by left]. }
    assert (∃ cs s', does ReplicationHandler.try_purge_log r tt cs s' ∧ raft_state_ok s' ∧ purge_outcome (state_of r) cs s')
      as (cs1 & s1 & Hrun1 & H1 & H2).
    { destruct (lebP (RaftState.purge_upto (state_of r)) (last_purged_log_id (state_of r))) as [Hle|Hlt].
      - exists [], (state_of r). split_and!; [|done|by left]. rw /ReplicationHandler.try_purge_log.
        eapply does_pure; [apply does_get_state|].
        change (Config.purge_upto (state_of r)) with (RaftState.purge_upto (state_of r)).
        rw (proj2 (leb_le _ _) Hle). apply does_ret.
      - destruct (RaftState.purge_upto (state_of r)) as [upto|] eqn:Hu; [|by apply olt_None in Hlt].
        destruct (Hif (existsb (λ e : NodeId * ProgressEntry, ProgressEntry.is_log_range_inflight e.2 upto)
          l.(Leader.progress).(vector))) as (cs1 & s1 & Hrun1 & H1 & H2).
        exists cs1, s1. split_and!; [|done|done]. rw /ReplicationHandler.try_purge_log.
        eapply does_pure; [apply does_get_state|].
        change (Config.purge_upto (state_of r)) with (RaftState.purge_upto (state_of r)). rw Hu.
        destruct (lebP (Some upto) (last_purged_log_id (state_of r))) as [?|_]; [exfalso; order|].
        eapply does_pure; [by apply does_lift|].
        eapply does_pure; [|exact Hrun1]. rw /does emits_nil /get_leader Hl. done. }
    exists cs1, s1. split_and!; [|done|done|done]. rw /EngineImpl.try_purge_log.
    eapply does_pure; [apply does_get_engine|]. rw Hl. exact Hrun1.
  - exists cs, s'. split_and!; [|done|done|].
    + rw /EngineImpl.try_purge_log. eapply does_pure; [apply does_get_engine|]. rw Hl. exact Hrun.
    + intros _ Hlt. destruct Hwhy as [(Hle & _)|(upto & l & _ & _ & -> & _)]; [exfalso; order|done].
Qed.

(** A requested purge never reaches beyond the snapshot: the position is cut to the last entry
    of the snapshot and becomes the one to purge up to; then the log is purged up to exactly there
    (the last purged entry stays as the first one), or not at all when a leader is still sending
    those entries.  A request below what is already scheduled, or without a snapshot, changes
    nothing; what is not in the snapshot is never touched, and the invariant holds. *)
Theorem trigger_purge_spec r i :
  let s := state_of r in
  raft_state_ok s →
  ∃ cs s', EngineImpl.trigger_purge_log i r = Done (tt, emits r cs s') ∧ raft_state_ok s' ∧
    s'.(RaftState.vote) = s.(RaftState.vote) ∧ s'.(RaftState.committed) = s.(RaftState.committed) ∧
    s'.(RaftState.snapshot_meta) = s.(RaftState.snapshot_meta) ∧
    (∀ j, (i ≤ j)%N ∨ (next_index (snapshot_last_log_id s) ≤ j + 1)%N → ref_log_id s' j = ref_log_id s j) ∧
    match snapshot_last_log_id s with
    | Some sn =>
        if (i <? next_index s.(RaftState.purge_upto))%N then cs = [] ∧ s' = s
        else ∃ x, ref_log_id s (N.min i sn.(index)) = Some x ∧ s'.(RaftState.purge_upto) = Some x ∧
               (cs = [] ∧ s'.(RaftState.log_ids) = s.(RaftState.log_ids) ∨
                cs = [PurgeLog x] ∧ LogIdList.first s'.(RaftState.log_ids) = Some x)
    | None => cs = [] ∧ s' = s
    end.
Proof.
  intros s Hok. pose proof (pointers_chain s Hok) as (Hp1 & Hp2 & Hp3 & Hp4).
  destruct (snapshot_last_log_id s) as [sn|] eqn:Hsn; last first.
  { exists [], s. split_and!; try done. change (does (EngineImpl.trigger_purge_log i) r tt [] s).
    rw /EngineImpl.trigger_purge_log. eapply does_pure; [apply does_get_state|]. fold s. rw Hsn. apply does_ret. }
  destruct (N.ltb_spec i (next_index (RaftState.purge_upto s))) as [Hlt|Hge].
  { exists [], s. split_and!; try done. change (does (EngineImpl.trigger_purge_log i) r tt [] s).
    rw /EngineImpl.trigger_purge_log. eapply does_pure; [apply does_get_state|]. fold s. rw Hsn.
    change (Config.purge_upto s) with (RaftState.purge_upto s). apply N.ltb_lt in Hlt as ->. apply does_ret. }
  assert (next_index (RaftState.purge_upto s) ≤ next_index (snapshot_last_log_id s))%N as Hps.
  { apply (ptr_le s Hok); [apply Hok..|]. pose proof (rs_purge_upto_le s Hok) as Hle. rw decide_False // in Hle. by rw Hsn. }
  rw Hsn in Hps. cbn [next_index] in Hps, Hp3. destruct (ref_total s Hok (N.min i sn.(index))) as [x Hx]; [lia..|].
  pose proof (ref_index _ _ _ Hx) as Hxi.
  assert (log_ptr s (Some x)) as Hptr by (intros y [= <-]; by rw Hxi).
  assert (RaftState.purge_upto s ⪯ Some x) as Hpx.
  { apply (ptr_le s Hok); [apply Hok|done|]. cbn. lia. }
  assert (Some x ⪯ snapshot_last_log_id s) as Hxs.
  { apply (ptr_le s Hok); [done|apply Hok|]. rw Hsn. cbn. lia. }
  set (s1 := RaftState.set_purge_upto s (Some x)).
  assert (raft_state_ok s1) as Hok1 by by apply set_purge_upto_ok.
  destruct (try_purge_does (emits r [] s1) Hok1) as (cs & s' & Hrun & Hok' & Hout & _).
  exists cs, s'. split.
  { change (does (EngineImpl.trigger_purge_log i) r tt cs s'). rw /EngineImpl.trigger_purge_log.
    eapply does_pure; [apply does_get_state|]. fold s. rw Hsn. change (Config.purge_upto s) with (RaftState.purge_upto s).
    apply N.ltb_ge in Hge as ->. eapply does_pure; [|eapply does_quiet; [by apply (update_purge_upto_does r x)|exact Hrun]].
    apply does_lift. assert ((if (index sn <? i)%N then index sn else i) = N.min i (index sn)) as ->.
    { destruct (N.ltb_spec (index sn) i); lia. }
    rw /get_log_id Hx. done. }
  split; [done|]. destruct Hout as [[-> ->]|(upto & l & Hu & -> & -> & Hf & Hl & Hr)].
  - split_and!; try done. exists x. split_and!; try done. by left.
  - injection Hu as <-. split_and!; try done.
    + intros j Hj. change (LogIdList.ref_at l j = ref_log_id s j). rw Hr. cbn [next_index] in Hj.
      destruct (N.ltb_spec j (index x)); [lia|done].
    + exists x. split_and!; try done. by right.
Qed.

(** The policy leaves everything but the position to purge up to, which it may move forward to an
    entry that keeps the configured number of entries. *)
Lemma policy_schedule_does r sn :
  let s := state_of r in
  let c := r.(eng).(Engine.config) in
  let keep := c.(EngineConfig.max_in_snapshot_log_to_keep) in
  raft_state_ok s → (0 < c.(EngineConfig.purge_batch_size))%N → snapshot_last_log_id s = Some sn →
  (next_index s.(RaftState.purge_upto) + keep ≤ sn.(index) + 1)%N →
  ∃ u, does LogHandler.schedule_policy_based_purge r tt [] (RaftState.set_purge_upto s u) ∧
    raft_state_ok (RaftState.set_purge_upto s u) ∧ (next_index u + keep ≤ sn.(index) + 1)%N ∧
    (u = s.(RaftState.purge_upto) ∨
     ∃ p, u = Some p ∧ (p.(index) + keep = sn.(index))%N ∧
       (s.(RaftState.purged_next) + c.(EngineConfig.purge_batch_size) ≤ p.(index) + 1)%N).
Proof.
  intros s c keep Hok Hb Hs Hsched. destruct (calc_purge_upto_does r Hok Hb) as (o & Hcalc & Ho).
  change (state_of r) with s in Hcalc, Ho. rw Hs in Ho. cbn [next_index] in Ho. fold c keep in Ho.
  destruct o as [p|].
  - destruct Ho as (Hr & Hk & Hbatch). assert (log_ptr s (Some p)) as Hpp by by intros y [= <-].
    assert (s.(RaftState.purge_upto) ⪯ Some p) as Hup by (apply (ptr_le s Hok); [apply Hok|done|cbn; lia]).
    exists (Some p). split_and!.
    + eapply does_pure; [exact Hcalc|]. by apply (update_purge_upto_does r p).
    + apply set_purge_upto_ok; [done|done| |].
      * done.
      * rw Hs. apply (ptr_le s Hok); [done|by rw -Hs; apply Hok|]. cbn. lia.
    + cbn. lia.
    + right. exists p. split; [done|lia].
  - exists s.(RaftState.purge_upto). assert (RaftState.set_purge_upto s s.(RaftState.purge_upto) = s) as -> by by destruct s.
    split_and!; [|done|exact Hsched|by left]. eapply does_pure; [exact Hcalc|]. apply does_ret.
Qed.

(** What taking over a newer snapshot does before the log is purged. *)
Lemma newer_snapshot_does r m sn cs s' :
  let s := state_of r in
  m.(meta_last_log_id) = Some sn → snapshot_last_log_id s ≺ Some sn → ∀ u,
  let s2 := RaftState.set_snapshot_meta
    (RaftState.set_io_state s (IOState.set_building_snapshot s.(RaftState.io_state) false)) m in
  does LogHandler.schedule_policy_based_purge (emits r [] s2) tt [] (RaftState.set_purge_upto s2 u) →
  does EngineImpl.try_purge_log (emits r [] (RaftState.set_purge_upto s2 u)) tt cs s' →
  does (EngineImpl.finish_building_snapshot m) r tt cs s'.
Proof.
  intros s Hm Hlt u s2 Hsch Hrun.
  rw /EngineImpl.finish_building_snapshot. eapply does_quiet; [apply does_modify_state|]. fold s.
  eapply does_quiet; [apply update_snapshot_does|].
  change (snapshot_last_log_id (state_of (emits r [] _))) with (snapshot_last_log_id s).
  rw Hm. destruct (lebP (Some sn) (snapshot_last_log_id s)); [exfalso; order|]. cbn [negb].
  match goal with |- context [emits (emits r [] ?x) [] ?y] => change y with s2 end.
  rw emits_emits. eapply does_quiet; [exact Hsch|]. rw emits_emits. exact Hrun.
Qed.

End purge.

(** ** Witnesses *)
Section ut.
#[local] Existing Instance UTConfig.

Lemma trigger_purge_spec_witness :
  ∃ cs s', EngineImpl.trigger_purge_log 2 (ut_rt 2) = Done (tt, emits (ut_rt 2) cs s') ∧ raft_state_ok s'.
Proof.
  destruct (trigger_purge_spec (ut_rt 2) 2 ut_state_ok) as (cs & s' & Hrun & Hok & _). by exists cs, s'.
Defined.

Definition ut_meta : SnapshotMeta := {|
  meta_last_log_id := Some (ut_log_id 1 1 2);
  last_membership := {| stored_log_id := Some (ut_log_id 1 1 0); stored_membership_ := ut_m12 |};
  snapshot_id := "1-1-2" |}.
Definition ut_purge_rt : Rt :=
  let c := {| EngineConfig.id := 2; EngineConfig.snapshot_policy := Never;
              EngineConfig.max_in_snapshot_log_to_keep := 1; EngineConfig.purge_batch_size := 1;
              EngineConfig.max_payload_entries := 300; EngineConfig.allow_log_reversion := false;
              EngineConfig.timer_config := TimeState.default |} in
  run_at 1000 (Engine.new ut_state c).

End ut.
