(* ===== verification/Cluster.v ===== *)
(** * Elections in a cluster

    A cluster of nodes, each running [RaftCore] one message, one notification or one command at a
    time, over a network that delays, duplicates, reorders and loses messages, with nodes that crash at
    any point and start again from what they have saved.  [core_ok] extends the invariant of the engine
    ([node_ok]) to the runtime: the votes given away were saved, and the responses waiting in the
    channel report votes that were given.  The theorems: at most one leader in a term, whatever the
    interleaving, and no second vote in a term, restarts included. *)

From S2P Require Export CoreRun Pledges.

(** ** The runtime *)
Section core_ok.
Context {C : RaftTypeConfig}.
Implicit Types c : Core.

(** The votes saved by the log store. *)
Definition eff_saves (e : Effect) : list Vote := match e with Eff_Store (Store_SaveVote v) => [v] | _ => [] end.
Definition persisted c : list Vote := c.(out) ≫= eff_saves.

(** The memberships of the cluster, the node, and the votes the other nodes have saved. *)
Context (P : Membership → Prop) (id : NodeId) (others : NodeId → Vote → Prop).

Definition pledge c (t : NodeId) (v : Vote) : Prop :=
  nobodys v ∨ (t = id ∧ v ∈ persisted c) ∨ (t ≠ id ∧ others t v).

(** What a message or a notification must not lie about. *)
Definition msg_ok (pledged : NodeId → Vote → Prop) (m : RaftMsg) : Prop :=
  match m with
  | Msg_AppendEntries rpc _ => vote_ok P pledged rpc.(areq_vote) ∧ Forall (entry_ok P) rpc.(areq_entries)
  | Msg_RequestVote rpc _ => vote_ok P pledged rpc.(vreq_vote)
  | Msg_InstallFullSnapshot v sn _ => vote_ok P pledged v ∧ snapshot_ok P sn
  | Msg_Initialize members _ => member_ok P (Membership.from_nodes members)
  | Msg_ChangeMembership changes retain _ =>
      ∀ ms m, members_ok P ms → ChangeHandler.apply ms changes retain = ROk m → member_ok P m
  | _ => True
  end.
Definition note_ok (pledged : NodeId → Vote → Prop) (n : Notification) : Prop :=
  match n with
  | N_VoteResponse t resp _ =>
      (resp.(vote_granted) = true → pledged t resp.(vresp_vote)) ∧ vote_ok P pledged resp.(vresp_vote)
  | N_HigherVote _ v _ => vote_ok P pledged v
  | _ => True
  end.

Record core_ok c : Prop := {
  co_id : c.(env).(ce_id) = id;
  co_node : node_ok P id (persisted c) (pledge c) c.(rt);
  co_sent : ∀ v, v ∈ votes_sent c → v ∈ persisted c ∨ nobodys v;
  co_api : Forall (msg_ok (pledge c)) c.(rx_api);
  co_notes : Forall (note_ok (pledge c)) c.(rx_notification);
}.

(** The invariant is kept, and what is saved stays. *)
Definition coreR c c' : Prop := core_ok c → persisted c ⊆ persisted c' ∧ core_ok c'.
#[export] Instance coreR_preorder : PreOrder coreR.
Proof.
  split; [by intros c|]. intros c1 c2 c3 H1 H2 H. destruct (H1 H) as [S1 N1]. destruct (H2 N1). split; [by etrans|done].
Qed.

(** Running the engine. *)
Lemma core_ok_engine c r' :
  core_ok c → node_ok P id (persisted c) (pledge c) r' → core_ok (set_rt c r').
Proof. intros [] Hr. by split. Qed.
Lemma cok_engine {A} (m : M A) :
  (∀ saved pledged, keeps_by (okR P id saved pledged) m) → ckeeps_by coreR (engine m).
Proof.
  intros Hm c a c'. rw /engine. destruct (m c.(rt)) as [[a' r]|] eqn:E; [|done]. intros [= _ <-] Hc.
  split; [done|]. apply core_ok_engine; [done|]. exact (proj2 (Hm _ _ _ _ _ E (co_node c Hc))).
Qed.

(** Changes of what is not mentioned. *)
Lemma core_ok_ext c c' :
  core_ok c → c'.(env).(ce_id) = c.(env).(ce_id) → c'.(rt) = c.(rt) → persisted c' = persisted c →
  votes_sent c' = votes_sent c → c'.(rx_api) = c.(rx_api) → c'.(rx_notification) = c.(rx_notification) → core_ok c'.
Proof.
  intros [] He Hr Hp Hv Ha Hn. assert (pledge c' = pledge c) as Hpl by by rw /pledge Hp.
  split; rw ?He ?Hr ?Hp ?Hv ?Ha ?Hn ?Hpl; done.
Qed.
Lemma cok_modify (f : Core → Core) :
  (∀ c, ce_id (env (f c)) = ce_id (env c) ∧ rt (f c) = rt c ∧ out (f c) = out c ∧ rx_api (f c) = rx_api c ∧
        rx_notification (f c) = rx_notification c) →
  ckeeps_by coreR (st_modify f).
Proof.
  intros Hf c a c' [= _ <-] Hc. destruct (Hf c) as (H1 & H2 & H3 & H4 & H5).
  split; [by rw /persisted H3|]. apply (core_ok_ext c); try done; by rw /persisted /votes_sent H3.
Qed.
Lemma cok_emit e : eff_saves e = [] → eff_votes e = [] → ckeeps_by coreR (emit e).
Proof.
  intros H1 H2 c a c' [= _ <-] Hc. set (c' := set_store _ _ _).
  assert (persisted c' = persisted c) as Hp by by rw /persisted /= bind_app /= H1 !app_nil_r.
  split; [by rw Hp|]. apply (core_ok_ext c); try done. by rw /votes_sent /= bind_app /= H2 !app_nil_r.
Qed.
Lemma cok_store op : eff_saves (Eff_Store op) = [] → ckeeps_by coreR (store op).
Proof.
  intros Hop c a c' Hrun Hc. revert Hrun. rw /store. destruct (store_fault _ _); intros [= _ <-].
  - split; [done|]. by apply (core_ok_ext c).
  - destruct (cok_emit (Eff_Store op) Hop eq_refl c tt _ eq_refl Hc) as [Hp Hc']. split; [exact Hp|].
    by apply (core_ok_ext (set_store c c.(store_calls) (c.(out) ++ [Eff_Store op]))).
Qed.
Lemma core_ok_notify c n :
  core_ok c → note_ok (pledge c) n → core_ok (set_rx_notification c (c.(rx_notification) ++ [n])).
Proof. intros [] Hn. split; try done. cbn. apply Forall_app. by split; [|apply Forall_singleton]. Qed.
Lemma cok_notify_local io : ckeeps_by coreR (notify (N_LocalIO io)).
Proof. intros c a c' [= _ <-] Hc. split; [done|]. by apply core_ok_notify. Qed.
End core_ok.

#[export] Hint Resolve cok_store cok_notify_local : ckeeps.
#[export] Hint Extern 0 (eff_saves _ = []) => reflexivity : ckeeps.
#[export] Hint Extern 1 (ckeeps_by (coreR _ _ _) (engine _)) =>
  apply cok_engine; intros ? ?; solve [auto with keeps] : ckeeps.
#[export] Hint Extern 1 (ckeeps_by (coreR _ _ _) (emit _)) => apply cok_emit; reflexivity : ckeeps.
#[export] Hint Extern 1 (ckeeps_by (coreR _ _ _) (st_modify _)) => apply cok_modify; done : ckeeps.

Section runtime.
Context {C : RaftTypeConfig}.
Context (P : Membership → Prop) (id : NodeId) (others : NodeId → Vote → Prop).
Context (HP : ∀ m, P m → membership_valid m ∧ m.(Membership.configs) ≠ []).
Implicit Types c : Core.

Notation coreR := (coreR P id others).
Notation coks := (ckeeps_by coreR).

Section engine_parts.
Context (saved : list Vote) (pledged : NodeId → Vote → Prop).
Notation oks := (keeps_by (okR P id saved pledged)).
Lemma ok_get_state : oks get_state.
Proof. by intros r a r' [= _ <-]. Qed.
Lemma ok_get_engine : oks get_engine.
Proof. by intros r a r' [= _ <-]. Qed.
Lemma ok_modify_io f : oks (modify_io f).
Proof. rw /modify_io. oks_tac. Qed.
Lemma ok_disable_lease : oks (modify_state (λ s, RaftState.set_vote s (Leased.disable_lease s.(RaftState.vote)))).
Proof. oks_tac. Qed.
Lemma ok_get_read_log_id : oks LeaderHandler.get_read_log_id.
Proof. rw /LeaderHandler.get_read_log_id. oks_tac. Qed.
Lemma ok_last_quorum_acked : oks RaftCore.last_quorum_acked_time.
Proof.
  rw /RaftCore.last_quorum_acked_time. intros r. apply kept_engine_bind.
  destruct (Engine.leader (eng r)) as [l|] eqn:Hl; [|apply kept_ret; reflexivity].
  change (kept_by (okR P id saved pledged) r (
    '(acked, l) ← lift (Leader.last_quorum_acked_time r.(clock) l); _ ← put_leader (Some l); mret acked) (ticked r)).
  apply kept_lift_bind. intros [acked l'] Hrun. assert (l'.(Leader.committed_vote) = l.(Leader.committed_vote)) as Hv.
  { revert Hrun. rw /Leader.last_quorum_acked_time /mbind /outcome_bind. intros Hrun.
    repeat (case_match; try done); by simplify_eq. }
  eapply kept_put_leader_bind; [|exact Hl|exact Hv|].
  - intros Hr. split; [done|]. by apply (node_ok_ext _ _ _ _ r).
  - apply kept_ret. eapply okR_leader; [|exact Hl|exact Hv]. intros Hr. split; [done|]. by apply (node_ok_ext _ _ _ _ r).
Qed.
End engine_parts.
#[local] Hint Resolve ok_get_state ok_get_engine ok_modify_io ok_disable_lease ok_get_read_log_id ok_last_quorum_acked
  : keeps.

Lemma ok_io_submit saved pledged io : keeps_by (okR P id saved pledged) (io_submit io).
Proof. apply ok_modify_io. Qed.
Lemma ok_io_flush saved pledged io : keeps_by (okR P id saved pledged) (io_flush io).
Proof. apply ok_modify_io. Qed.
#[local] Hint Resolve ok_io_submit ok_io_flush : keeps.

Lemma cok_get_core_state : coks RaftCore.get_core_state.
Proof. rw /RaftCore.get_core_state. ckeeps_tac. Qed.
Lemma cok_get_id : coks RaftCore.get_id.
Proof. rw /RaftCore.get_id. ckeeps_tac. Qed.
#[local] Hint Resolve cok_get_core_state cok_get_id : ckeeps.
Lemma cok_effective : coks RaftCore.effective.
Proof. rw /RaftCore.effective. ckeeps_tac. Qed.
Lemma cok_sm_send cmd : coks (sm_send cmd).
Proof. rw /sm_send. ckeeps_tac. Qed.
#[local] Hint Resolve cok_effective cok_sm_send : ckeeps.
Lemma cok_check_is_leader tx : coks (RaftCore.handle_check_is_leader_request tx).
Proof. rw /RaftCore.handle_check_is_leader_request. ckeeps_tac. Qed.
Lemma cok_send_heartbeat : coks RaftCore.send_heartbeat.
Proof. rw /RaftCore.send_heartbeat. ckeeps_tac. Qed.
Lemma cok_report_metrics a b : coks (RaftCore.report_metrics a b).
Proof. rw /RaftCore.report_metrics. ckeeps_tac. Qed.
#[local] Hint Resolve cok_check_is_leader cok_send_heartbeat cok_report_metrics : ckeeps.
Lemma cok_flush_metrics : coks RaftCore.flush_metrics.
Proof. rw /RaftCore.flush_metrics. ckeeps_tac. Qed.
Lemma cok_trigger_snapshot : coks RaftCore.trigger_snapshot.
Proof. rw /RaftCore.trigger_snapshot. ckeeps_tac. Qed.
Lemma cok_spawn_stream t p : coks (RaftCore.spawn_replication_stream t p).
Proof. rw /RaftCore.spawn_replication_stream. ckeeps_tac. Qed.
Lemma cok_remove_all : coks RaftCore.remove_all_replication.
Proof. rw /RaftCore.remove_all_replication. ckeeps_tac. Qed.
Lemma cok_broadcast_transfer req : coks (RaftCore.broadcast_transfer_leader req).
Proof. rw /RaftCore.broadcast_transfer_leader. ckeeps_tac. Qed.
Lemma cok_apply_to_sm a b : coks (RaftCore.apply_to_state_machine a b).
Proof. rw /RaftCore.apply_to_state_machine. ckeeps_tac. Qed.
#[local] Hint Resolve cok_flush_metrics cok_trigger_snapshot cok_spawn_stream cok_remove_all cok_broadcast_transfer
  cok_apply_to_sm : ckeeps.
Lemma cok_external_command cmd : coks (RaftCore.handle_external_command cmd).
Proof. rw /RaftCore.handle_external_command. ckeeps_tac. Qed.
Lemma cok_tick_election : coks RaftCore.handle_tick_election.
Proof. rw /RaftCore.handle_tick_election. ckeeps_tac. Qed.
#[local] Hint Resolve cok_external_command cok_tick_election : ckeeps.

Lemma cok_next_heartbeat (f : Instant → Instant) :
  coks (e ← engine get_engine;
        match e.(Engine.leader) with
        | Some l => t ← engine now; engine (put_leader (Some (Leader.set_next_heartbeat l (f t))))
        | None => mret tt
        end).
Proof.
  intros c a c' (e & c1 & H & Hrun)%st_bind_inv. rw /engine in H. cbn in H. injection H as <- <-. rw set_rt_id in Hrun.
  destruct (Engine.leader (eng (rt c))) as [l|] eqn:Hl; [|injection Hrun as _ <-; reflexivity].
  injection Hrun as _ <-. intros Hc. split; [done|]. apply (core_ok_engine _ _ _ c _ Hc).
  apply (okR_leader _ _ _ _ (rt c) (ticked (rt c)) l); [|exact Hl|done|apply Hc].
  intros Hr. split; [done|]. by apply (node_ok_ext _ _ _ _ (rt c)).
Qed.
Lemma cok_tick : coks RaftCore.handle_tick.
Proof.
  rw /RaftCore.handle_tick. apply ckeeps_bind; [apply _|ckeeps_tac|]. intros t. apply ckeeps_bind; [apply _|ckeeps_tac|].
  intros []. apply ckeeps_bind; [apply _|ckeeps_tac|]. intros e. apply ckeeps_bind; [apply _|ckeeps_tac|]. intros c.
  apply ckeeps_bind; [apply _| |intros []; ckeeps_tac].
  destruct (Engine.leader e) as [l|]; [|ckeeps_tac]. destruct (_ <=? _)%N; [|ckeeps_tac].
  apply ckeeps_bind; [apply _|ckeeps_tac|]. intros []. apply (cok_next_heartbeat (λ t, t + _)%N).
Qed.
#[local] Hint Resolve cok_tick : ckeeps.

(** *** Requests *)
(** [m] run from [c]. *)
Definition cok_at c {A} (m : CM A) : Prop := ∀ a c', m c = Done (a, c') → coreR c c'.
Lemma cok_at_bind c {A B} (m : CM A) (k : A → CM B) : cok_at c m → (∀ a, coks (k a)) → cok_at c (m ≫= k).
Proof.
  intros Hm Hk b c' (a & c1 & H1 & H2)%st_bind_inv. etrans; [by eapply Hm|by eapply Hk].
Qed.
Lemma cok_at_engine c {A} (m : M A) :
  keeps_by (okR P id (persisted c) (pledge id others c)) m → cok_at c (engine m).
Proof.
  intros Hm a c'. rw /engine. destruct (m c.(rt)) as [[a' r]|] eqn:E; [|done]. intros [= _ <-] Hc.
  split; [done|]. apply core_ok_engine; [done|]. exact (proj2 (Hm _ _ _ E (co_node _ _ _ c Hc))).
Qed.
(** Reading the clock first. *)
Lemma cok_at_now c {A} (k : Instant → CM A) :
  (∀ t, cok_at (set_rt c (ticked c.(rt))) (k t)) → cok_at c (engine now ≫= k).
Proof.
  intros Hk a c' (t & c1 & H1 & H2)%st_bind_inv. injection H1 as <- <-. etrans; [|by eapply Hk].
  intros Hc. split; [done|]. apply core_ok_engine; [done|]. by apply (node_ok_ext _ _ _ _ c.(rt)); [apply Hc|..].
Qed.
Lemma cok_at_get_engine c {A} (k : Engine.Engine → CM A) :
  cok_at c (k c.(rt).(eng)) → cok_at c (engine get_engine ≫= k).
Proof.
  intros Hk a c' (e & c1 & H1 & H2)%st_bind_inv. rw /engine in H1. cbn in H1. injection H1 as <- <-.
  rw set_rt_id in H2. by eapply Hk.
Qed.
Lemma cok_at_all c {A} (m : CM A) : coks m → cok_at c m.
Proof. intros Hm a c'. apply Hm. Qed.

Lemma cok_write_entry e tx : entry_ok P e → coks (RaftCore.write_entry e tx).
Proof.
  intros He. assert (Forall (entry_ok P) [e]) by by apply Forall_singleton. rw /RaftCore.write_entry. ckeeps_tac.
Qed.
Lemma cok_change_membership c changes retain tx :
  msg_ok P (pledge id others c) (Msg_ChangeMembership changes retain tx) →
  cok_at c (RaftCore.change_membership changes retain tx).
Proof.
  intros Hm a c' (s & c1 & H & Hrun)%st_bind_inv. rw get_core_state_run in H. injection H as <- <-. intros Hc.
  pose proof (no_members _ _ _ _ _ (co_node _ _ _ c Hc)) as Hms. destruct (ChangeHandler.apply _ _ _) as [m|e] eqn:Happ.
  - refine (cok_write_entry _ _ _ _ _ _ Hrun Hc). intros m' [= <-]. exact (Hm _ _ Hms Happ).
  - by refine (cok_emit _ _ _ _ _ _ _ _ _ Hrun Hc).
Qed.

(** The reply to a vote request repeats the vote of the node. *)
Lemma cok_handle_vote_request c req tx :
  vote_ok P (pledge id others c) req.(vreq_vote) → cok_at c (RaftCore.handle_vote_request req tx).
Proof.
  intros Hv a c' (resp & c1 & H & Hrun)%st_bind_inv Hc. rw /engine in H.
  destruct (EngineImpl.handle_vote_req req (rt c)) as [[resp' r1]|] eqn:E; [|done]. injection H as <- <-.
  assert (node_ok P id (persisted c) (pledge id others c) r1) as Hr1.
  { eapply ok_handle_vote_req; [exact Hv|exact E|apply Hc]. }
  apply vote_resp_post in E. apply st_bind_inv in Hrun as (s & c2 & H & Hrun). rw get_core_state_run in H.
  injection H as <- <-. injection Hrun as _ <-. split; [done|]. apply (core_ok_engine _ _ _ (set_rt c r1)); [by apply core_ok_engine|].
  apply node_ok_push; [done..|]. cbn. destruct (vote_granted resp'); [|done]. apply Forall_singleton. rw E. by apply Hr1.
Qed.
Lemma cok_handle_append_request c req tx :
  msg_ok P (pledge id others c) (Msg_AppendEntries req tx) → cok_at c (RaftCore.handle_append_entries_request req tx).
Proof.
  intros [Hv Hes]. apply cok_at_bind; [by apply cok_at_engine, ok_handle_append|]. intros a. ckeeps_tac.
Qed.
Lemma cok_handle_initialize c members tx :
  msg_ok P (pledge id others c) (Msg_Initialize members tx) → cok_at c (RaftCore.handle_initialize members tx).
Proof.
  intros Hm. apply cok_at_bind; [apply cok_at_engine, ok_initialize; [done|by intros m [= <-]]|]. intros a. ckeeps_tac.
Qed.

Lemma cok_api_msg c msg : msg_ok P (pledge id others c) msg → cok_at c (RaftCore.handle_api_msg msg).
Proof.
  destruct msg; intros Hm; cbn [RaftCore.handle_api_msg]; try (apply cok_at_all; ckeeps_tac; fail).
  - by apply cok_handle_append_request.
  - apply cok_at_now. intros t. by apply cok_handle_vote_request.
  - by apply cok_at_engine, ok_handle_install; apply Hm.
  - by apply cok_at_all, cok_write_entry.
  - by apply cok_handle_initialize.
  - by apply cok_change_membership.
Qed.

(** *** Notifications *)
Lemma cok_apply_loop n i es rs : coks (RaftCore.apply_result_loop n i es rs).
Proof.
  revert i es rs. induction n as [|n IH]; intros i es rs; cbn [RaftCore.apply_result_loop]; [ckeeps_tac|].
  apply ckeeps_bind; [apply _|ckeeps_tac|]. intros [e es']. apply ckeeps_bind; [apply _|ckeeps_tac|]. intros [x rs'].
  apply ckeeps_bind; [apply _|ckeeps_tac|]. intros c. apply ckeeps_bind; [apply _|ckeeps_tac|]. intros [].
  apply ckeeps_bind; [apply _|rw /RaftCore.send_response; ckeeps_tac|]. intros []. apply IH.
Qed.
Lemma cok_handle_apply_result res : coks (RaftCore.handle_apply_result res).
Proof. apply cok_apply_loop. Qed.
#[local] Hint Resolve cok_handle_apply_result : ckeeps.
Lemma cok_sm_response res : coks (RaftCore.handle_sm_response res).
Proof. rw /RaftCore.handle_sm_response. ckeeps_tac. Qed.
#[local] Hint Resolve cok_sm_response : ckeeps.

Lemma cok_notification c n : note_ok P (pledge id others c) n → cok_at c (RaftCore.handle_notification n).
Proof.
  destruct n as [t resp cv|t v lv|e|io|pr|s t0 t|res|i]; intros Hn; cbn [RaftCore.handle_notification];
    try (apply cok_at_all; ckeeps_tac; fail).
  - apply cok_at_now. intros t0. apply cok_at_get_engine. apply cok_at_bind; [|intros []; ckeeps_tac].
    destruct (RaftCore.does_candidate_vote_match _ _); [|apply cok_at_all; ckeeps_tac].
    by apply cok_at_engine, ok_handle_vote_resp; [|apply Hn..].
  - apply cok_at_get_engine. apply cok_at_bind; [|intros []; ckeeps_tac].
    destruct (RaftCore.does_leader_vote_match _ _); [|apply cok_at_all; ckeeps_tac].
    apply cok_at_bind; [by apply cok_at_engine, ok_update_vote|]. intros a. ckeeps_tac.
Qed.

(** *** Commands *)
Lemma cok_execute cmd : cmd_votes cmd = [] → cmd_saves cmd = [] → coks (RaftCore.execute cmd).
Proof.
  intros Hv Hs. destruct cmd; try done; cbn [RaftCore.execute]; try (ckeeps_tac; fail).
  apply ckeeps_bind; [apply _|by apply cok_emit|]. intros []. ckeeps_tac.
Qed.

(** Effects that give away a vote that is saved. *)
Lemma core_ok_gives c es v :
  core_ok P id others c → Forall (λ e, eff_votes e = [v]) es → v ∈ persisted c ∨ nobodys v →
  let c' := set_store c c.(store_calls) (c.(out) ++ es) in persisted c ⊆ persisted c' ∧ core_ok P id others c'.
Proof.
  intros Hc Hes Hv c'.
  assert (es ≫= eff_saves = []) as Hsv.
  { clear c'. induction Hes as [|e es He _ IH]; [done|]. rw bind_cons IH. by destruct e. }
  assert (persisted c' = persisted c) as Hp by by rw /persisted /= bind_app Hsv app_nil_r.
  assert (pledge id others c' = pledge id others c) as Hpl by by rw /pledge Hp.
  split; [by rw Hp|]. destruct Hc as [H1 H2 H3 H4 H5]. split; rw ?Hp ?Hpl; try done.
  intros w. rw /votes_sent /= bind_app. intros [Hw|(e & He & Hin)%list_elem_of_bind]%elem_of_app; [by apply H3|].
  rewrite -> Forall_forall in Hes. rw (Hes e Hin) in He. by apply list_elem_of_singleton in He as ->.
Qed.

Lemma pledge_mono c c' t v : persisted c ⊆ persisted c' → pledge id others c t v → pledge id others c' t v.
Proof. intros Hp [?|[[? ?]|?]]; [by left|right; left; auto|by right; right]. Qed.
Lemma msg_ok_mono (pl pl' : NodeId → Vote → Prop) m : (∀ t v, pl t v → pl' t v) → msg_ok P pl m → msg_ok P pl' m.
Proof.
  intros Hpl. pose proof (vote_ok_mono P pl pl' Hpl) as Hv. destruct m; cbn; try done; [|by apply Hv|].
  - intros [? ?]. split; [by apply Hv|done].
  - intros [? ?]. split; [by apply Hv|done].
Qed.
Lemma note_ok_mono (pl pl' : NodeId → Vote → Prop) n : (∀ t v, pl t v → pl' t v) → note_ok P pl n → note_ok P pl' n.
Proof.
  intros Hpl. pose proof (vote_ok_mono P pl pl' Hpl) as Hv. destruct n; cbn; try done; [|by apply Hv].
  intros [? ?]. split; [by auto|by apply Hv].
Qed.

Lemma engine_inv {A} (m : M A) c a c' : engine m c = Done (a, c') → ∃ r, m c.(rt) = Done (a, r) ∧ c' = set_rt c r.
Proof. rw /engine. destruct (m (rt c)) as [[a' r]|]; [|done]. intros [= <- <-]. by exists r. Qed.
Lemma store_inv op c a c' : store op c = Done (ROk a, c') → c' = set_store c (S c.(store_calls)) (c.(out) ++ [Eff_Store op]).
Proof. rw /store. destruct (store_fault _ _); [done|]. by intros [= _ <-]. Qed.

(** A saved vote is a pledge, of this node for itself too. *)
Lemma execute_save_ok c v rest res c' :
  core_ok P id others c → commands_of c.(rt) = SaveVote v :: rest →
  RaftCore.execute (SaveVote v) (with_queue c rest) = Done (ROk res, c') →
  persisted c ⊆ persisted c' ∧ core_ok P id others c'.
Proof.
  intros [C1 C2 C3 C4 C5] Hq ([] & c1 & (r1 & H1 & ->)%engine_inv & Hrun)%st_bind_inv.
  apply st_bind_inv in Hrun as (s & c2 & H2 & Hrun). destruct s as [[]|e]; [|done]. apply store_inv in H2 as ->.
  set (c2 := set_store _ _ _) in Hrun.
  assert (persisted c2 = persisted c ++ [v]) as Hp by by rw /persisted /= bind_app.
  assert (votes_sent c2 = votes_sent c) as Hv by by rw /votes_sent /= bind_app app_nil_r.
  assert (∀ t w, pledge id others c t w → pledge id others c2 t w) as Hmono.
  { intros t w. apply pledge_mono. rw Hp. by apply list_subseteq_app_l. }
  assert (persisted c ⊆ persisted c2) as Hsub by by rw Hp; apply list_subseteq_app_l.
  assert (core_ok P id others c2) as Hc2.
  { split; try done.
    - apply (node_ok_pop _ _ _ _ _ (with_queue c rest).(rt) _ _ C2) in Hq; [|done..]. rw Hp.
      apply (node_ok_mono _ _ _ _ _ Hmono). exact (proj2 (ok_io_submit _ _ _ _ _ _ H1 Hq)).
    - intros w. rw Hv Hp elem_of_app. intros [?|?]%C3; [by left; left|by right].
    - eapply Forall_impl; [exact C4|]. intros m. by apply msg_ok_mono.
    - eapply Forall_impl; [exact C5|]. intros n. by apply note_ok_mono. }
  apply st_bind_inv in Hrun as ([] & c3 & H3 & Hrun). destruct (cok_notify_local P id others _ _ _ _ H3 Hc2) as [_ Hc3].
  injection H3 as <-.
  rw /into_vote_status in Hrun. destruct (is_committed v) eqn:Hcm; [by injection Hrun as _ <-|].
  apply st_bind_inv in Hrun as (me & c4 & H4 & Hrun). injection H4 as <- <-.
  apply st_bind_inv in Hrun as ([] & c4 & H4 & Hrun). injection H4 as <-. injection Hrun as _ <-.
  split; [exact Hsub|]. apply core_ok_notify; [exact Hc3|]. split; [|intros Hv'; cbn in Hv'; congruence]. intros _. right. left.
  split; [exact C1|]. cbn. change (v ∈ persisted c2). rw Hp. apply elem_of_app. right. by left.
Qed.

Lemma core_ok_pop c cmd rest :
  core_ok P id others c → commands_of c.(rt) = cmd :: rest → cmd_saves cmd = [] → core_ok P id others (with_queue c rest).
Proof.
  intros [C1 C2 C3 C4 C5] Hq Hs. split; try done.
  apply (node_ok_pop _ _ _ _ _ (with_queue c rest).(rt) _ _ C2) in Hq; [|done..]. by rw Hs app_nil_r in Hq.
Qed.

(** Executing the first command of the queue. *)
Lemma execute_ok c cmd rest res c' :
  core_ok P id others c → commands_of c.(rt) = cmd :: rest →
  RaftCore.execute cmd (with_queue c rest) = Done (ROk res, c') → persisted c ⊆ persisted c' ∧ core_ok P id others c'.
Proof.
  intros Hc Hq Hrun. destruct (decide (cmd_saves cmd = [])) as [Hs|Hs]; last first.
  { destruct cmd; try done. by eapply execute_save_ok. }
  pose proof (core_ok_pop c cmd rest Hc Hq Hs) as Hc1.
  destruct (decide (cmd_votes cmd = [])) as [Hv|Hv]; [exact (cok_execute cmd Hv Hs _ _ _ Hrun Hc1)|].
  assert (Forall (λ v, v ∈ persisted c ∨ nobodys v) (cmd_votes cmd)) as Hpr.
  { pose proof (no_promises _ _ _ _ _ (co_node _ _ _ c Hc)) as Hpr. rw Hq in Hpr. apply Hpr. }
  destruct cmd as [| | | | | | | | | |req| | | |when resp]; try done.
  - apply st_bind_inv in Hrun as ([] & c1 & (es & Hes & ->)%only_vote_requests & Hrun). injection Hrun as _ <-.
    apply (core_ok_gives (with_queue c rest) es req.(vreq_vote)); [done| |exact (proj1 (Forall_singleton _ _) Hpr)].
    eapply Forall_impl; [exact Hes|]. by intros e [? _].
  - apply st_bind_inv in Hrun as ([] & c1 & H & Hrun). injection H as <-. injection Hrun as _ <-.
    destruct resp as [resp tx| | | | |]; try done. revert Hv Hpr. cbn. destruct (vote_granted resp) eqn:Hgr; [|done].
    intros _ Hpr%Forall_inv. apply (core_ok_gives (with_queue c rest) [Eff_Respond (Respond_Vote resp tx)] resp.(vresp_vote)); [done| |exact Hpr].
    apply Forall_singleton. by rw /= Hgr.
Qed.
End runtime.

(** ** The cluster *)
Module Cluster.
Section cluster.
Context {C : RaftTypeConfig}.
Implicit Types c : Core.

(** What a node does in one go: it starts, updates its metrics, handles the next message or notification,
    executes the next command, or waits while its environment changes.  A handler that panics or returns
    an error is a node that crashes. *)
Inductive turn : Core → Core → Prop :=
| turn_startup c c' : engine EngineImpl.startup c = Done (tt, c') → turn c c'
| turn_metrics c c' : RaftCore.flush_metrics c = Done (tt, c') → turn c c'
| turn_report c c' : RaftCore.report_metrics None None c = Done (tt, c') → turn c c'
| turn_message c msg rest c' :
    c.(rx_api) = msg :: rest → RaftCore.handle_api_msg msg (set_rx_api c rest) = Done (tt, c') → turn c c'
| turn_notification c n rest c' :
    c.(rx_notification) = n :: rest →
    RaftCore.handle_notification n (set_rx_notification c rest) = Done (ROk tt, c') → turn c c'
| turn_command c cmd rest c' :
    commands_of c.(rt) = cmd :: rest → RaftCore.run_command cmd (with_queue c rest) = Done (ROk None, c') → turn c c'
| turn_replicate c c' :
    (l ← engine EngineImpl.leader_handler;
     match l with ROk _ => engine ReplicationHandler.initiate_replication | RErr _ => mret tt end) c = Done (tt, c') →
    turn c c'
| turn_env c e : e.(ce_id) = c.(env).(ce_id) → turn c (set_env c e)
| turn_time c (d : Duration) :
    turn c (set_rt c {| eng := c.(rt).(eng); clock := c.(rt).(clock) + d; readings := c.(rt).(readings);
                        drift := c.(rt).(drift); sent := c.(rt).(sent) |}).

(** A node that is down keeps what it has done so far. *)
Record Peer := { core : Core; up : bool }.

(** The nodes, and the votes that messages may carry: those some node has had. *)
Record State := { nodes : gmap NodeId Peer; wire : list Vote }.

Definition held c : list Vote :=
  core_vote c :: match c.(rt).(eng).(Engine.leader) with
                 | Some l => [committed_into_vote l.(Leader.committed_vote)]
                 | None => []
                 end.
Definition set_node (s : State) (i : NodeId) (n : Peer) (vs : list Vote) : State :=
  {| nodes := <[i := n]> s.(nodes); wire := vs ++ s.(wire) |}.

(** Memberships in use, [P]. *)
Context (P : Membership → Prop).

(** The network does not make up committed votes, granted votes and memberships; anything else may
    arrive. *)
Definition carried (s : State) (v : Vote) : Prop := is_committed v = true → v ∈ s.(wire).
Definition deliverable (s : State) (m : RaftMsg) : Prop :=
  match m with
  | Msg_AppendEntries rpc _ => carried s rpc.(areq_vote) ∧ Forall (entry_ok P) rpc.(areq_entries)
  | Msg_RequestVote rpc _ => carried s rpc.(vreq_vote)
  | Msg_InstallFullSnapshot v sn _ => carried s v ∧ snapshot_ok P sn
  | Msg_Initialize members _ => member_ok P (Membership.from_nodes members)
  | Msg_ChangeMembership changes retain _ =>
      ∀ ms m, members_ok P ms → ChangeHandler.apply ms changes retain = ROk m → member_ok P m
  | _ => True
  end.
Definition notifiable (s : State) (n : Notification) : Prop :=
  match n with
  | N_VoteResponse t resp _ =>
      (resp.(vote_granted) = true → ∃ n, s.(nodes) !! t = Some n ∧ resp.(vresp_vote) ∈ votes_sent n.(core)) ∧
      carried s resp.(vresp_vote)
  | N_HigherVote _ v _ => carried s v
  | _ => True
  end.

(** A node [i] that has just read its state back, after the effects [o] of its earlier lives: the vote
    is the last one saved. *)
Record booted (i : NodeId) (o : list Effect) c : Prop := {
  bo_out : c.(out) = o;
  bo_id : c.(env).(ce_id) = i;
  bo_engine_id : id_of c.(rt) = i;
  bo_vote : core_vote c = default Vote_default (list.last (o ≫= eff_saves));
  bo_commands : commands_of c.(rt) = [];
  bo_candidate : c.(rt).(eng).(Engine.candidate) = None;
  bo_leader : c.(rt).(eng).(Engine.leader) = None;
  bo_members : members_ok P (core_state c).(RaftState.membership_state);
  bo_api : c.(rx_api) = [];
  bo_notification : c.(rx_notification) = [];
}.

Inductive step (s : State) : State → Prop :=
| step_turn i c c' : s.(nodes) !! i = Some {| core := c; up := true |} → turn c c' →
    step s (set_node s i {| core := c'; up := true |} (held c'))
| step_deliver i c m : s.(nodes) !! i = Some {| core := c; up := true |} → deliverable s m →
    step s (set_node s i {| core := set_rx_api c (c.(rx_api) ++ [m]); up := true |} [])
| step_notify i c n : s.(nodes) !! i = Some {| core := c; up := true |} → notifiable s n →
    step s (set_node s i {| core := set_rx_notification c (c.(rx_notification) ++ [n]); up := true |} [])
| step_crash i c : s.(nodes) !! i = Some {| core := c; up := true |} →
    step s (set_node s i {| core := c; up := false |} [])
| step_restart i c c' : s.(nodes) !! i = Some {| core := c; up := false |} → booted i c.(out) c' →
    step s (set_node s i {| core := c'; up := true |} []).

Definition initial (s : State) : Prop :=
  s.(wire) = [] ∧ ∀ i n, s.(nodes) !! i = Some n → booted i [] n.(core).
Definition reachable (s : State) : Prop := ∃ s0, initial s0 ∧ rtc step s0 s.

(** *** The invariant *)
Definition saved_by (s : State) (t : NodeId) (v : Vote) : Prop :=
  ∃ n, s.(nodes) !! t = Some n ∧ v ∈ persisted n.(core).
Definition pledged (s : State) (t : NodeId) (v : Vote) : Prop := nobodys v ∨ saved_by s t v.

Record cluster_ok (s : State) : Prop := {
  cl_nodes : ∀ i n, s.(nodes) !! i = Some n → core_ok P i (saved_by s) n.(core);
  cl_wire : ∀ v, v ∈ s.(wire) → vote_ok P (pledged s) v;
}.
End cluster.
End Cluster.

Section invariant.
Context {C : RaftTypeConfig} (P : Membership → Prop).
Context (HP : ∀ m, P m → membership_valid m ∧ m.(Membership.configs) ≠ []).
Implicit Types (c : Core) (s : Cluster.State) (v : Vote).
Import Cluster.

Lemma turn_ok i others c c' : turn c c' → coreR P i others c c'.
Proof.
  intros [c1 c2 H|c1 c2 H|c1 c2 H|c1 m rest c2 Hq H|c1 n rest c2 Hq H|c1 cmd rest c2 Hq H|c1 c2 H|c1 e He|c1 d].
  - refine (cok_engine P i others _ _ _ _ _ H). intros saved pledged. apply ok_startup.
  - exact (cok_flush_metrics P i others _ _ _ H).
  - exact (cok_report_metrics P i others _ _ _ _ _ H).
  - intros [H1 H2 H3 H4 H5]. rw Hq in H4. apply Forall_cons in H4 as [Hm H4].
    refine (cok_api_msg P i others HP _ m _ _ _ H _); [exact Hm|by split].
  - intros [H1 H2 H3 H4 H5]. rw Hq in H5. apply Forall_cons in H5 as [Hn H5].
    refine (cok_notification P i others HP _ n _ _ _ H _); [exact Hn|by split].
  - apply run_command_inv in H as [(_ & ? & _)|(_ & r & Hex & Hr)]; [done|].
    destruct r as [[]|]; [|done]. intros Hc. by eapply execute_ok.
  - assert (ckeeps_by (coreR P i others) (l ← engine EngineImpl.leader_handler;
      match l with ROk _ => engine ReplicationHandler.initiate_replication | RErr _ => mret tt end)) as Hk by ckeeps_tac.
    exact (Hk _ _ _ H).
  - intros Hc. split; [done|]. by apply (core_ok_ext _ _ _ c1).
  - intros Hc. split; [done|]. apply (core_ok_engine _ _ _ c1 _ Hc). by apply (node_ok_ext _ _ _ _ c1.(rt)); [apply Hc|..].
Qed.

(** What a node knows does not change when others save more votes. *)
Lemma core_ok_others i (o o' : NodeId → Vote → Prop) c :
  (∀ t v, o t v → o' t v) → core_ok P i o c → core_ok P i o' c.
Proof.
  intros Ho. assert (∀ t v, pledge i o c t v → pledge i o' c t v) as Hpl.
  { intros t v [?|[?|[? ?]]]; [by left|by right; left|right; right; split; [done|by apply Ho]]. }
  intros [H1 H2 H3 H4 H5]. split; try done.
  - by apply (node_ok_mono _ _ _ _ _ Hpl).
  - eapply Forall_impl; [exact H4|]. intros m. by apply msg_ok_mono.
  - eapply Forall_impl; [exact H5|]. intros n. by apply note_ok_mono.
Qed.

Lemma vote_chain_last lo vs hi : vote_chain lo vs hi → vote_chain lo vs (default lo (list.last vs)).
Proof.
  revert lo. induction vs as [|v vs IH]; intros lo; [intros _; apply vote_le_refl|]. intros [H1 H2]. split; [done|].
  destruct vs as [|w vs]; [apply vote_le_refl|]. apply IH in H2. rw last_cons_cons.
  destruct (list.last (w :: vs)) eqn:E; [done|]. by apply last_None in E.
Qed.

Lemma booted_ok i others c c' :
  core_ok P i others c → booted P i c.(out) c' → core_ok P i others c'.
Proof.
  intros [H1 H2 H3 H4 H5] [B1 B2 B3 B4 B5 B6 B7 B8 B9 B10].
  assert (persisted c' = persisted c) as Hp by by rw /persisted B1.
  assert (pledge i others c' = pledge i others c) as Hpl by by rw /pledge Hp.
  assert (saves (persisted c) c'.(rt) = persisted c) as Hsv by by rw /saves B5 app_nil_r.
  split; rw ?Hp ?Hpl ?B9 ?B10; try done; [|by rw /votes_sent B1].
  destruct H2 as [N1 N2 N3 N4 N5 N6 N7 N8]. split; rw ?Hsv ?B5 ?B6 ?B7; try done.
  - change (RaftState.vote_ref (state_of (rt c'))) with (core_vote c'). rw B4. apply vote_chain_app_inv in N2 as (hi & Hch & _). by eapply vote_chain_last.
  - change (RaftState.vote_ref (state_of (rt c'))) with (core_vote c'). rw B4 -/(persisted c).
    destruct (list.last (persisted c)) as [v|] eqn:Hl; [left; by eapply last_Some_elem_of|by right].
  - intros v Hv. apply N5. apply elem_of_app. by left.
Qed.

Lemma fresh_ok i others c : booted P i [] c → core_ok P i others c.
Proof.
  intros [B1 B2 B3 B4 B5 B6 B7 B8 B9 B10]. assert (persisted c = []) as Hp by by rw /persisted B1.
  split; rw ?Hp ?B9 ?B10; try done. 2:{ intros v. rw /votes_sent B1. by intros ?%elem_of_nil. }
  split; rw /saves ?B5 ?B6 ?B7; try done; cbn [app].
  - change (vote_le Vote_default (core_vote c)). rw B4. apply vote_le_refl.
  - right. change (nobodys (core_vote c)). by rw B4.
  - by intros v ?%elem_of_nil.
Qed.

(** *** The steps of the cluster *)
Lemma set_node_saved s i n n' vs t v :
  s.(nodes) !! i = Some n → persisted n.(core) ⊆ persisted n'.(core) →
  saved_by s t v → saved_by (set_node s i n' vs) t v.
Proof.
  intros Hi Hp (m & Hm & Hv). destruct (decide (i = t)) as [->|Hne].
  - exists n'. rw /set_node /= lookup_insert_eq. split; [done|]. rw Hi in Hm. injection Hm as <-. by apply Hp.
  - exists m. rw /set_node /= lookup_insert_ne //.
Qed.

Lemma pledge_pledged s i n t v :
  s.(nodes) !! i = Some n → pledge i (saved_by s) n.(core) t v ↔ pledged s t v.
Proof.
  intros Hi. rw /pledge /pledged. split.
  - intros [?|[[-> ?]|[? ?]]]; [by left|right; by exists n|by right].
  - intros [?|Hs]; [by left|]. destruct (decide (t = i)) as [->|Hne]; [|by right; right].
    right. left. split; [done|]. destruct Hs as (m & Hm & Hv). rw Hi in Hm. by injection Hm as <-.
Qed.

(** One node moves, and the votes it holds may be sent. *)
Lemma set_node_ok s i n n' vs :
  cluster_ok P s → s.(nodes) !! i = Some n → persisted n.(core) ⊆ persisted n'.(core) →
  core_ok P i (saved_by s) n'.(core) →
  (∀ v, v ∈ vs → vote_ok P (pledge i (saved_by s) n'.(core)) v) → cluster_ok P (set_node s i n' vs).
Proof.
  intros [H1 H2] Hi Hp Hn Hvs. set (s' := set_node s i n' vs).
  assert (∀ t v, saved_by s t v → saved_by s' t v) as Hs by (intros t v; by eapply set_node_saved).
  assert (s'.(nodes) !! i = Some n') as Hi' by by rw /s' /set_node /= lookup_insert_eq.
  assert (core_ok P i (saved_by s') n'.(core)) as Hn' by by eapply core_ok_others.
  split.
  - intros j m Hm. destruct (decide (i = j)) as [<-|Hne].
    + rw Hi' in Hm. by injection Hm as <-.
    + rw /s' /set_node /= lookup_insert_ne // in Hm. by eapply core_ok_others; [|apply H1].
  - intros v [Hv|Hv]%elem_of_app.
    + eapply vote_ok_mono; [|by apply Hvs]. intros t w Hw. apply (pledge_pledged s' i n' t w Hi').
      destruct Hw as [?|[?|[? ?]]]; [by left|by right; left|right; right; by split; [|apply Hs]].
    + eapply vote_ok_mono; [|by apply H2]. intros t w [?|?]; [by left|right; by apply Hs].
Qed.

Lemma held_ok i others c v : core_ok P i others c → v ∈ held c → vote_ok P (pledge i others c) v.
Proof.
  intros Hc. rw /held. destruct (Engine.leader (eng (rt c))) as [l|] eqn:Hl.
  - intros [->|[->|[]%elem_of_nil]%elem_of_cons]%elem_of_cons; [apply node_vote_ok with i (persisted c), Hc|].
    intros _. by apply (no_leader _ _ _ _ _ (co_node _ _ _ c Hc) l).
  - intros [->|[]%elem_of_nil]%elem_of_cons. apply node_vote_ok with i (persisted c), Hc.
Qed.

Lemma carried_ok s v : cluster_ok P s → carried s v → vote_ok P (pledged s) v.
Proof. intros Hs Hv Hc. by apply (cl_wire _ s Hs); [apply Hv|]. Qed.
Lemma deliverable_ok s m : cluster_ok P s → deliverable P s m → msg_ok P (pledged s) m.
Proof.
  intros Hs. destruct m; cbn; try done; [| |].
  - intros [? ?]. split; [by apply carried_ok|done].
  - by apply carried_ok.
  - intros [? ?]. split; [by apply carried_ok|done].
Qed.
Lemma notifiable_ok s n : cluster_ok P s → notifiable s n → note_ok P (pledged s) n.
Proof.
  intros Hs. destruct n; cbn; try done; [|by apply carried_ok]. intros [Hg Hv]. split; [|by apply carried_ok].
  intros (p & Hp & Hin)%Hg. destruct (co_sent _ _ _ _ (cl_nodes _ s Hs _ _ Hp) _ Hin); [right; by exists p|by left].
Qed.

Lemma step_ok s s' : Cluster.step P s s' → cluster_ok P s → cluster_ok P s'.
Proof.
  intros Hstep Hs. destruct Hstep as [i c c' Hi Ht|i c m Hi Hm|i c n Hi Hn|i c Hi|i c c' Hi Hb];
    pose proof (cl_nodes _ s Hs _ _ Hi) as Hc; cbn [core] in Hc;
    assert (∀ t v, pledged s t v → pledge i (saved_by s) c t v) as Hpl by (intros t v; by apply (pledge_pledged s i _ t v Hi)).
  - destruct (turn_ok i (saved_by s) c c' Ht Hc) as [Hp Hc']. eapply set_node_ok; [done|done|done|done|].
    intros v. by apply held_ok.
  - eapply set_node_ok; [done|done|done| |by intros v ?%elem_of_nil]. destruct Hc as [H1 H2 H3 H4 H5]. split; try done.
    cbn. apply Forall_app. split; [done|]. apply Forall_singleton. eapply msg_ok_mono; [exact Hpl|by apply deliverable_ok].
  - eapply set_node_ok; [done|done|done| |by intros v ?%elem_of_nil]. apply core_ok_notify; [done|].
    eapply note_ok_mono; [exact Hpl|by apply notifiable_ok].
  - eapply set_node_ok; [done|done|done|done|by intros v ?%elem_of_nil].
  - eapply set_node_ok; [done|done| | |by intros v ?%elem_of_nil].
    + cbn. by rw /persisted (bo_out _ _ _ _ Hb).
    + by eapply booted_ok.
Qed.

Lemma reachable_ok s : Cluster.reachable P s → cluster_ok P s.
Proof.
  intros (s0 & [Hw Hn] & Hrun). assert (cluster_ok P s0) as H0.
  { split; [|by rw Hw; intros v ?%elem_of_nil]. intros i n Hi. by apply fresh_ok, Hn. }
  clear Hw Hn. induction Hrun as [|s1 s2 s3 Hst _ IH]; [done|]. apply IH. by eapply step_ok.
Qed.
End invariant.

(** ** The loop of the runtime goes in turns *)
Section turns.
Context {C : RaftTypeConfig}.
Implicit Types c : Core.
Import Cluster.

Lemma or_fatal_ok c (a : unit) c' :
  RaftCore.or_fatal RaftCore.run_engine_commands c = Done (ROk a, c') → RaftCore.run_engine_commands c = Done (ROk tt, c').
Proof. intros (r & c1 & H & Hr)%st_bind_inv. destruct r as [[]|e]; [by injection Hr as _ <-|done]. Qed.
Lemma try_inv {S A B E} (m : ST S (Result A E)) (k : A → ST S (Result B E)) s b s' :
  try_bind m k s = Done (ROk b, s') → ∃ a s1, m s = Done (ROk a, s1) ∧ k a s1 = Done (ROk b, s').
Proof. intros (r & s1 & Hm & Hk)%st_bind_inv. destruct r as [a|e]; [eauto|done]. Qed.

Lemma run_loop_turns fuel c c' : RaftCore.run_loop fuel c = Done (ROk tt, c') → rtc turn c c'.
Proof.
  revert c. induction fuel as [|fuel IH]; intros c; [done|]. cbn [RaftCore.run_loop].
  intros (cmd & c1 & Hpop & Hrun)%st_bind_inv. rw pop_command_run in Hpop.
  destruct (commands_of (rt c)) as [|cmd0 rest] eqn:Hq; injection Hpop as <- <-; [injection Hrun as <-; apply rtc_refl|].
  apply try_inv in Hrun as (r & c2 & Hcmd & Hrun). pose proof Hcmd as [(_ & [= ->] & ->)|(_ & r' & Hex & Hr)]%run_command_inv.
  - apply st_bind_inv in Hrun as ([] & c3 & H & Hrun). rw postpone_run in H. injection H as <-. injection Hrun as <-.
    rw with_queue_twice. change (commands_of _) with rest. rw -Hq with_queue_id. apply rtc_refl.
  - destruct r'; [|done]. injection Hr as ->. eapply rtc_l; [by eapply turn_command|by apply IH].
Qed.
Lemma run_commands_turns c a c' : RaftCore.or_fatal RaftCore.run_engine_commands c = Done (ROk a, c') → rtc turn c c'.
Proof.
  intros (e & c1 & H & Hrun)%or_fatal_ok%st_bind_inv. rw /engine in H. cbn in H. injection H as <- <-.
  rw set_rt_id in Hrun. by apply run_loop_turns in Hrun.
Qed.

Lemma process_msg_turns n i c a c' : RaftCore.process_raft_msg_from n i c = Done (ROk a, c') → rtc turn c c'.
Proof.
  revert i c. induction n as [|n IH]; intros i c; [intros [= _ <-]; apply rtc_refl|]. cbn [RaftCore.process_raft_msg_from].
  intros (c0 & c1 & H & Hrun)%st_bind_inv. injection H as <- <-. destruct (rx_api c) as [|msg rest] eqn:Hq.
  { destruct (api_closed _); [done|]. injection Hrun as _ <-. apply rtc_refl. }
  apply st_bind_inv in Hrun as ([] & c1 & H & Hrun). injection H as <-.
  apply st_bind_inv in Hrun as ([] & c2 & H & Hrun). apply try_inv in Hrun as (u & c3 & Hcmds & Hrun).
  eapply rtc_l; [by eapply turn_message|]. etrans; [by eapply run_commands_turns|by eapply IH].
Qed.
Lemma process_notification_turns n i c a c' :
  RaftCore.process_notification_from n i c = Done (ROk a, c') → rtc turn c c'.
Proof.
  revert i c. induction n as [|n IH]; intros i c; [intros [= _ <-]; apply rtc_refl|]. cbn [RaftCore.process_notification_from].
  intros (c0 & c1 & H & Hrun)%st_bind_inv. injection H as <- <-. destruct (rx_notification c) as [|m rest] eqn:Hq.
  { injection Hrun as _ <-. apply rtc_refl. }
  apply st_bind_inv in Hrun as ([] & c1 & H & Hrun). injection H as <-.
  apply try_inv in Hrun as ([] & c2 & H & Hrun). apply try_inv in Hrun as (u & c3 & Hcmds & Hrun).
  eapply rtc_l; [by eapply turn_notification|]. etrans; [by eapply run_commands_turns|by eapply IH].
Qed.
Lemma select_turns c a c' : RaftCore.select c = Done (ROk a, c') → rtc turn c c'.
Proof.
  intros (c0 & c1 & H & Hrun)%st_bind_inv. injection H as <- <-. destruct (rx_shutdown _); [done|].
  destruct (rx_notification c) as [|m rest] eqn:Hn.
  - destruct (rx_api c) as [|msg rest] eqn:Hq; [destruct (api_closed _); [done|]; injection Hrun as _ <-; apply rtc_refl|].
    apply st_bind_inv in Hrun as ([] & c1 & H & Hrun). injection H as <-.
    apply st_bind_inv in Hrun as ([] & c2 & H & Hrun). injection Hrun as _ <-. by eapply rtc_once, turn_message.
  - apply st_bind_inv in Hrun as ([] & c1 & H & Hrun). injection H as <-.
    apply try_inv in Hrun as ([] & c2 & H & Hrun). injection Hrun as _ <-. by eapply rtc_once, turn_notification.
Qed.

Lemma process_turns b c a c' : RaftCore.process b c = Done (ROk a, c') → rtc turn c c'.
Proof.
  intros (u1 & c1 & H1 & Hrun)%try_inv. apply try_inv in Hrun as (n1 & c2 & H2 & Hrun).
  apply st_bind_inv in Hrun as (at_most & c3 & [_ ->]%lift_inv & Hrun). apply try_inv in Hrun as (n2 & c4 & H4 & Hrun).
  apply st_bind_inv in Hrun as (l & c5 & H5 & Hrun). apply st_bind_inv in Hrun as ([] & c6 & H6 & Hrun).
  apply try_inv in Hrun as (u2 & c7 & H7 & Hrun). injection Hrun as _ <-.
  etrans; [by eapply run_commands_turns|]. etrans; [by eapply process_msg_turns|].
  etrans; [by eapply process_notification_turns|]. eapply rtc_l; [|by eapply run_commands_turns].
  apply turn_replicate. by rw (st_bind_run _ _ _ _ _ H5).
Qed.

Lemma start_is_turns c b c' : RaftCore.start c = Done (ROk b, c') → rtc turn c c'.
Proof.
  intros ([] & c1 & H1 & Hrun)%st_bind_inv. apply try_inv in Hrun as (u & c2 & H2 & Hrun).
  apply st_bind_inv in Hrun as ([] & c3 & H3 & Hrun). injection Hrun as _ <-.
  eapply rtc_l; [by apply turn_startup|]. etrans; [by eapply run_commands_turns|]. by eapply rtc_once, turn_report.
Qed.

Lemma round_turns b c a c' : RaftCore.runtime_round b c = Done (ROk a, c') → rtc turn c c'.
Proof.
  intros ([] & c1 & H1 & Hrun)%st_bind_inv. apply try_inv in Hrun as (ready & c2 & H2 & Hrun).
  eapply rtc_l; [by apply turn_metrics|]. etrans; [by eapply select_turns|].
  destruct ready; [by eapply process_turns|injection Hrun as _ <-; apply rtc_refl].
Qed.

End turns.

(** ** Theorems *)
(** The memberships in use are valid, and any two of them share a configuration: one membership with
    its changes of learners, or a joint configuration with the ones before or after it. *)
Definition coherent {C : RaftTypeConfig} (P : Membership → Prop) : Prop := ∀ m1 m2, P m1 → P m2 →
  membership_valid m1 ∧
  is_coherent_with (Joint_new m1.(Membership.configs)) (Joint_new m2.(Membership.configs)) = true.

Section coherent.
Context {C : RaftTypeConfig} (P : Membership → Prop) (HP : coherent P).

Lemma coherent_valid m : P m → membership_valid m ∧ m.(Membership.configs) ≠ [].
Proof using HP.
  intros Hm. destruct (HP m m Hm Hm) as [Hv (c & Hc & _)%is_coherent_with_spec]. split; [done|].
  cbn in Hc. intros He. rw He in Hc. by apply elem_of_nil in Hc.
Qed.
Lemma coherent_meet m1 m2 l1 l2 :
  P m1 → P m2 → NoDup l1 → NoDup l2 → is_quorum (Membership.to_quorum_set m1) l1 = true →
  is_quorum (Membership.to_quorum_set m2) l2 = true → ∃ x, x ∈ l1 ∧ x ∈ l2.
Proof using HP.
  intros H1 H2 Hn1 Hn2. rw !to_quorum_set_quorum. cbn. rw !joint_is_quorum_spec. intros Hq1 Hq2.
  destruct (HP m1 m2 H1 H2) as [_ (c & Hc1 & Hc2)%is_coherent_with_spec].
  by apply (quorum_intersect c l1 l2); auto.
Qed.

(** Two elected votes: a node pledged both, so they are comparable. *)
Lemma elected_comparable s v1 v2 :
  Cluster.cluster_ok P s → elected P (Cluster.pledged s) v1 → elected P (Cluster.pledged s) v2 →
  ¬ nobodys v1 → ¬ nobodys v2 →
  vote_le (uncommitted v1) (uncommitted v2) ∨ vote_le (uncommitted v2) (uncommitted v1).
Proof using HP.
  intros Hs [|(m1 & S1 & Hm1 & Hn1 & Hq1 & Hp1)]; [done|]. intros [|(m2 & S2 & Hm2 & Hn2 & Hq2 & Hp2)]; [done|].
  intros N1 N2. destruct (coherent_meet m1 m2 S1 S2 Hm1 Hm2 Hn1 Hn2 Hq1 Hq2) as (x & Hx1 & Hx2).
  destruct (Hp1 x Hx1) as [?|(n & Hn & H1)]; [done|]. destruct (Hp2 x Hx2) as [?|(n' & Hn' & H2)]; [done|].
  rw Hn in Hn'. injection Hn' as <-.
  pose proof (no_chain _ _ _ _ _ (co_node _ _ _ _ (Cluster.cl_nodes _ s Hs x n Hn))) as Hch.
  apply vote_chain_app_inv in Hch as (hi & Hch & _). by eapply vote_chain_total.
Qed.

(** C4: a vote is saved before it is given away: whatever happens in the cluster, every vote a node has
    granted or asked for has been saved by it, and survives its crashes. *)
Theorem votes_given_are_saved s i n v :
  Cluster.reachable P s → s.(Cluster.nodes) !! i = Some n → v ∈ votes_sent n.(Cluster.core) → ¬ nobodys v →
  v ∈ persisted n.(Cluster.core).
Proof using HP.
  intros Hs%(reachable_ok P coherent_valid) Hn Hv Hno.
  destruct (co_sent _ _ _ _ (Cluster.cl_nodes _ s Hs i n Hn) v Hv); done.
Qed.
End coherent.

(** *** Standard Raft *)
Section std.
#[local] Existing Instance StdConfig.
Context (P : Membership → Prop) (HP : coherent P).

Lemma std_not_nobodys (v : Vote) : leader_node_id v ≠ None → ¬ nobodys v.
Proof. intros Hn Hv. apply Hn. rw /leader_node_id. by rw Hv. Qed.

Lemma std_elected_unique s v1 v2 :
  Cluster.cluster_ok P s → elected P (Cluster.pledged s) v1 → elected P (Cluster.pledged s) v2 →
  is_committed v1 = true → is_committed v2 = true → vote_term v1 = vote_term v2 →
  leader_node_id v1 ≠ None → leader_node_id v2 ≠ None → v1 = v2.
Proof using HP.
  intros Hs H1 H2 Hc1 Hc2 Ht Hn1 Hn2.
  assert (uncommitted v1 = uncommitted v2) as Heq.
  { destruct (elected_comparable P HP s v1 v2 Hs H1 H2) as [H|H]; [by apply std_not_nobodys..| |].
    - by apply std_vote_unique.
    - symmetry. by apply std_vote_unique. }
  destruct v1 as [l1 c1], v2 as [l2 c2]. cbn in *. by injection Heq as ->; subst.
Qed.

(** C1: election safety: in standard mode there is at most one leader in a term.  Whatever messages are
    lost, delayed, repeated or reordered, whichever nodes crash and start again and whenever elections
    start, two nodes that lead in the same term are the same node, with the same vote. *)
Theorem election_safety s i j ni nj li lj :
  Cluster.reachable P s → s.(Cluster.nodes) !! i = Some ni → s.(Cluster.nodes) !! j = Some nj →
  ni.(Cluster.core).(rt).(eng).(Engine.leader) = Some li → nj.(Cluster.core).(rt).(eng).(Engine.leader) = Some lj →
  let vi := committed_into_vote li.(Leader.committed_vote) in
  let vj := committed_into_vote lj.(Leader.committed_vote) in
  vote_term vi = vote_term vj → i = j ∧ vi = vj.
Proof using HP.
  intros Hs%(reachable_ok P (coherent_valid P HP)) Hi Hj Hli Hlj vi vj Ht.
  assert (∀ k n l, s.(Cluster.nodes) !! k = Some n → n.(Cluster.core).(rt).(eng).(Engine.leader) = Some l →
    elected P (Cluster.pledged s) (committed_into_vote l.(Leader.committed_vote)) ∧
    leader_node_id (committed_into_vote l.(Leader.committed_vote)) = Some k) as Hlead.
  { intros k n l Hk Hl. destruct (no_leader _ _ _ _ _ (co_node _ _ _ _ (Cluster.cl_nodes _ s Hs k n Hk)) l Hl) as [He Hid].
    split; [|exact Hid]. eapply elected_mono; [|exact He]. intros t v. by apply pledge_pledged. }
  destruct (Hlead i ni li Hi Hli) as [E1 I1]. destruct (Hlead j nj lj Hj Hlj) as [E2 I2].
  assert (vi = vj) as Heq by (apply (std_elected_unique s); try done; rw /vi /vj ?I1 ?I2; done).
  split; [|exact Heq]. rw -/vi in I1. rw -/vj in I2. rw Heq I2 in I1. by injection I1.
Qed.

(** C2: the nodes that accept a leader in a term accept the same one: the committed votes that nodes have
    had in one term are the same vote. *)
Theorem one_leader_accepted s v1 v2 :
  Cluster.reachable P s → v1 ∈ s.(Cluster.wire) → v2 ∈ s.(Cluster.wire) →
  is_committed v1 = true → is_committed v2 = true → vote_term v1 = vote_term v2 →
  leader_node_id v1 ≠ None → leader_node_id v2 ≠ None → v1 = v2.
Proof using HP.
  intros Hs%(reachable_ok P (coherent_valid P HP)) H1 H2 Hc1 Hc2.
  apply (std_elected_unique s); [done|by apply (Cluster.cl_wire _ s Hs)..|done|done].
Qed.

(** C3: in one term a node gives its vote to one candidate only, over all its lives: the votes it has
    granted or asked for before and after its crashes are the same vote if they are of the same term. *)
Theorem one_vote_across_restarts s i n v1 v2 :
  Cluster.reachable P s → s.(Cluster.nodes) !! i = Some n →
  v1 ∈ votes_sent n.(Cluster.core) → v2 ∈ votes_sent n.(Cluster.core) → vote_term v1 = vote_term v2 →
  leader_node_id v1 ≠ None → leader_node_id v2 ≠ None → is_committed v1 = false → is_committed v2 = false →
  v1 = v2.
Proof using HP.
  intros Hs%(reachable_ok P (coherent_valid P HP)) Hi H1 H2 Ht Hn1 Hn2 Hc1 Hc2.
  pose proof (Cluster.cl_nodes _ s Hs i n Hi) as Hc.
  pose proof (no_chain _ _ _ _ _ (co_node _ _ _ _ Hc)) as (hi & Hch & _)%vote_chain_app_inv.
  assert (v1 ∈ persisted n.(Cluster.core) ∧ v2 ∈ persisted n.(Cluster.core)) as [P1 P2].
  { split; [destruct (co_sent _ _ _ _ Hc v1 H1) as [|Hno]|destruct (co_sent _ _ _ _ Hc v2 H2) as [|Hno]]; try done;
      by apply std_not_nobodys in Hno. }
  destruct (vote_chain_total _ _ _ v1 v2 Hch P1 P2) as [H|H]; [by apply std_vote_unique|symmetry; by apply std_vote_unique].
Qed.
End std.

(** ** Evaluating rounds *)
Section evaluate.
Context {C : RaftTypeConfig}.

Definition after {A} (m : CM A) (c : Core) : Core := match m c with Done (_, c') => c' | Panic _ => c end.
Definition ok_run {A E} (m : CM (Result A E)) (c : Core) : bool := match m c with Done (ROk _, _) => true | _ => false end.
Definition main_round : CM (Result Balancer Fatal) := RaftCore.runtime_round (Balancer.new 1000).

Lemma after_ok c : ok_run main_round c = true → ∃ b, main_round c = Done (ROk b, after main_round c).
Proof. rw /ok_run /after. destruct (main_round c) as [[[b|e] c']|]; try done. by exists b. Qed.
Lemma after_turns c : ok_run main_round c = true → rtc Cluster.turn c (after main_round c).
Proof. by intros (b & H%round_turns)%after_ok. Qed.
End evaluate.

(** ** An election among three nodes *)
Section scenario.
#[local] Existing Instance StdConfig.
Import Cluster.

(** A node runs while the others wait. *)
Lemma node_runs P s i c c' :
  s.(nodes) !! i = Some {| core := c; up := true |} → rtc turn c c' →
  ∃ vs, rtc (step P) s (set_node s i {| core := c'; up := true |} vs) ∧ held c' ⊆ vs.
Proof.
  intros Hi Hrun. assert (∃ vs, rtc (step P) s (set_node s i {| core := c'; up := true |} vs)) as (vs & Hvs).
  { revert s Hi. induction Hrun as [c|c1 c2 c3 Ht _ IH]; intros s Hi.
    - exists []. rw /set_node insert_id //. destruct s. apply rtc_refl.
    - set (s1 := set_node s i {| core := c2; up := true |} (held c2)).
      destruct (IH s1) as (vs & Hvs); [by rw /= lookup_insert_eq|]. exists (vs ++ held c2).
      eapply rtc_l; [by eapply step_turn|]. rw /s1 /set_node /= insert_insert_eq in Hvs. by rw /set_node -app_assoc. }
  exists (held c' ++ vs). split; [|by apply list_subseteq_app_l]. etrans; [exact Hvs|]. apply rtc_once.
  pose proof (step_turn P (set_node s i {| core := c'; up := true |} vs) i c' c') as Hst.
  rw /set_node /= insert_insert_eq in Hst. rw /set_node -app_assoc. apply Hst; [by rw lookup_insert_eq|].
  pose proof (turn_env c' c'.(env) eq_refl) as He. by destruct c'.
Qed.

(** A round of node [i], after what [s1] brought it. *)
Lemma node_round P s i c n :
  Cluster.step P s (set_node s i {| core := c; up := true |} []) → ok_run main_round c = true →
  n = {| core := after main_round c; up := true |} →
  ∃ s', rtc (step P) s s' ∧ s'.(nodes) !! i = Some n ∧ (∀ j, j ≠ i → s'.(nodes) !! j = s.(nodes) !! j) ∧
        held n.(core) ⊆ s'.(wire).
Proof.
  intros Hst (b & Hr%round_turns)%after_ok ->. set (c' := after main_round c) in *.
  destruct (node_runs P (set_node s i {| core := c; up := true |} []) i c c') as (vs & Hvs & Hsub); [|done|].
  - by rw /= lookup_insert_eq.
  - exists (set_node (set_node s i {| core := c; up := true |} []) i {| core := c'; up := true |} vs).
    split_and!; [by eapply rtc_l|by rw /= lookup_insert_eq| |].
    + intros j Hj. rw /= !lookup_insert_ne //; congruence.
    + intros v Hv. apply elem_of_app. left. by apply Hsub.
Qed.

(** The rounds are computed by [vm_compute] only. *)
#[local] Opaque after.

Definition delivered_to (c : Core) (m : RaftMsg) : Core := set_rx_api c (c.(rx_api) ++ [m]).
Definition notified_of (c : Core) (n : Notification) : Core := set_rx_notification c (c.(rx_notification) ++ [n]).
Definition ut_fresh (i : NodeId) : Core := core_at i (run_at 1000 (Engine.testing_default i)).
Definition ut_members : gmap NodeId Node := {[1%N := tt; 2%N := tt; 3%N := tt]}.
Definition ut_P (m : Membership) : Prop := m = Membership.from_nodes ut_members.

(** Node 1 initializes the cluster and asks for votes. *)
Definition ut_ask : RaftMsg := Msg_Initialize ut_members 9%N.
Definition ut_1a : Core := after main_round (delivered_to (ut_fresh 1) ut_ask).
(** Node 2 grants its vote, crashes, starts again and is asked once more. *)
Definition ut_vote : Vote := Vote_new 1 1.
Definition ut_request : RaftMsg :=
  Msg_RequestVote {| vreq_vote := ut_vote; vreq_last_log_id := Some {| leader_id := {| LeaderIdStd.cterm := 0 |}; index := 0 |} |} 7%N.
Definition ut_2a : Core := after main_round (delivered_to (ut_fresh 2) ut_request).
Definition ut_2b : Core :=
  let s := RaftState.set_vote RaftState.default (Leased.without_last_update ut_vote) in
  let c := core_at 2 (run_at 2000 (Engine.new s (EngineConfig.new_default 2))) in
  set_store c 0 ut_2a.(out).
Definition ut_2c : Core := after main_round (delivered_to ut_2b ut_request).
(** Node 1 is elected. *)
Definition ut_granted : Notification :=
  N_VoteResponse 2 {| vresp_vote := ut_vote; vote_granted := true; vresp_last_log_id := None |}
    {| ncv_leader_id := vote_leader_id ut_vote |}.
Definition ut_1b : Core := after main_round (notified_of ut_1a ut_granted).

Lemma ut_coherent : coherent ut_P.
Proof. intros m1 m2 -> ->. split; [by apply ensure_valid_ok; vm_compute|by vm_compute]. Qed.
Lemma ut_fresh_booted i : booted ut_P i [] (ut_fresh i).
Proof. split; try done. by split; left. Qed.
Lemma ut_2b_booted : booted ut_P 2 ut_2a.(out) ut_2b.
Proof. split; [vm_compute; reflexivity| | | | | | |by split; left| |]; vm_compute; reflexivity. Qed.

Lemma ut_2c_votes : ut_vote ∈ votes_sent ut_2c.
Proof. assert (votes_sent ut_2c = [ut_vote]) as -> by by vm_compute. apply list_elem_of_here. Qed.
Lemma ut_1b_leads : Vote_new_committed 1 1 ∈ held ut_1b.
Proof.
  assert (held ut_1b = [Vote_new_committed 1 1; Vote_new_committed 1 1]) as -> by by vm_compute.
  apply list_elem_of_here.
Qed.

Lemma ut_election : ∃ s, reachable ut_P s ∧
  s.(nodes) !! 1%N = Some {| core := ut_1b; up := true |} ∧ s.(nodes) !! 2%N = Some {| core := ut_2c; up := true |} ∧
  Vote_new_committed 1 1 ∈ s.(wire).
Proof.
  set (s0 := {| nodes := {[1%N := {| core := ut_fresh 1; up := true |}; 2%N := {| core := ut_fresh 2; up := true |}]};
                wire := [] |}).
  assert (initial ut_P s0) as H0.
  { split; [done|]. intros i n. rw /s0 /= lookup_insert_Some lookup_singleton_Some. intros [[<- <-]|[_ [<- <-]]]; apply ut_fresh_booted. }
  destruct (node_round ut_P s0 1 (delivered_to (ut_fresh 1) ut_ask) {| core := ut_1a; up := true |})
    as (s1 & R1 & A1 & O1 & _); [|by vm_compute|done|].
  { apply step_deliver with (m := ut_ask); [done|by right]. }
  destruct (node_round ut_P s1 2 (delivered_to (ut_fresh 2) ut_request) {| core := ut_2a; up := true |})
    as (s2 & R2 & A2 & O2 & _); [|by vm_compute|done|].
  { apply step_deliver with (m := ut_request); [by rw O1|done]. }
  assert (∃ s4, rtc (step ut_P) s2 s4 ∧ s4.(nodes) !! 2%N = Some {| core := ut_2b; up := true |} ∧
    s4.(nodes) !! 1%N = Some {| core := ut_1a; up := true |}) as (s4 & R4 & A4 & B4).
  { exists (set_node (set_node s2 2 {| core := ut_2a; up := false |} []) 2 {| core := ut_2b; up := true |} []).
    split_and!; [|apply lookup_insert_eq|by rewrite !lookup_insert_ne // O2].
    eapply rtc_l; [by apply step_crash|]. apply rtc_once. apply step_restart with (c := ut_2a); [|apply ut_2b_booted].
    apply lookup_insert_eq. }
  destruct (node_round ut_P s4 2 (delivered_to ut_2b ut_request) {| core := ut_2c; up := true |})
    as (s5 & R5 & A5 & O5 & _); [|by vm_compute|done|].
  { by apply (step_deliver ut_P s4 2 ut_2b ut_request). }
  destruct (node_round ut_P s5 1 (notified_of ut_1a ut_granted)
    {| core := ut_1b; up := true |}) as (s6 & R6 & A6 & O6 & W6); [|by vm_compute|done|].
  { apply (step_notify ut_P s5 1 ut_1a ut_granted); [by rw O5|]. split; [|done]. intros _. exists {| core := ut_2c; up := true |}. split; [exact A5|apply ut_2c_votes]. }
  exists s6. split_and!; [|done|by rw O6|].
  - exists s0. split; [done|]. by repeat (etrans; [eassumption|]).
  - apply W6, ut_1b_leads.
Qed.

(** The leader that node 1 has become. *)
Lemma ut_1b_leader : ∃ l, ut_1b.(rt).(eng).(Engine.leader) = Some l ∧
  committed_into_vote l.(Leader.committed_vote) = Vote_new_committed 1 1.
Proof.
  assert ((λ l, committed_into_vote l.(Leader.committed_vote)) <$> ut_1b.(rt).(eng).(Engine.leader) =
    Some (Vote_new_committed 1 1)) as H by by vm_compute.
  apply fmap_Some in H as (l & Hl & Hv). exists l. split; [exact Hl|symmetry; exact Hv].
Qed.


Lemma votes_given_are_saved_witness :
  ∃ s, reachable ut_P s ∧ s.(nodes) !! 2%N = Some {| core := ut_2c; up := true |} ∧ ut_vote ∈ persisted ut_2c.
Proof.
  destruct ut_election as (s & Hs & H1 & H2 & _). exists s. split; [exact Hs|]. split; [exact H2|].
  refine (votes_given_are_saved ut_P ut_coherent s 2 _ ut_vote Hs H2 ut_2c_votes _). by apply std_not_nobodys.
Defined.

Lemma election_safety_witness :
  ∃ s l, reachable ut_P s ∧ s.(nodes) !! 1%N = Some {| core := ut_1b; up := true |} ∧
    ut_1b.(rt).(eng).(Engine.leader) = Some l ∧
    ∀ j nj lj, s.(nodes) !! j = Some nj → nj.(core).(rt).(eng).(Engine.leader) = Some lj →
      vote_term (committed_into_vote lj.(Leader.committed_vote)) = 1%N → j = 1%N.
Proof.
  destruct ut_election as (s & Hs & H1 & _ & _). destruct ut_1b_leader as (l & Hl & Hv). exists s, l.
  split; [exact Hs|]. split; [exact H1|]. split; [exact Hl|]. intros j nj lj Hj Hlj Ht.
  refine (proj1 (election_safety ut_P ut_coherent s j 1 nj _ lj l Hs Hj H1 Hlj Hl _)). by rw Ht Hv.
Defined.

Lemma one_leader_accepted_witness :
  ∃ s, reachable ut_P s ∧ Vote_new_committed 1 1 ∈ s.(wire) ∧
    ∀ v, v ∈ s.(wire) → is_committed v = true → vote_term v = 1%N → leader_node_id v ≠ None → v = Vote_new_committed 1 1.
Proof.
  destruct ut_election as (s & Hs & _ & _ & Hw). exists s. split; [exact Hs|]. split; [exact Hw|].
  intros v Hv Hc Ht Hn. by apply (one_leader_accepted ut_P ut_coherent s v _ Hs Hv Hw).
Defined.

Lemma one_vote_across_restarts_witness :
  ∃ s, reachable ut_P s ∧ s.(nodes) !! 2%N = Some {| core := ut_2c; up := true |} ∧
    ∀ v, v ∈ votes_sent ut_2c → vote_term v = 1%N → leader_node_id v ≠ None → is_committed v = false → v = ut_vote.
Proof.
  destruct ut_election as (s & Hs & _ & H2 & _). exists s. split; [exact Hs|]. split; [exact H2|].
  intros v Hv Ht Hn Hc. by apply (one_vote_across_restarts ut_P ut_coherent s 2 _ v ut_vote Hs H2 Hv ut_2c_votes).
Defined.
End scenario.
