(* ===== verification/LeaderLog.v ===== *)
(** * The log of a leader

    A leader never deletes or replaces an entry of its log: as long as a node leads with one vote, its
    log is the log it was elected with, less what was purged, followed by entries it proposed itself.
    [stays] is the relation every handler keeps: the node goes on leading with an extended log ([led]),
    or it has lost the vote for good ([past]).  The handlers are run symbolically as in Evolves. *)

From S2P Require Export Cluster.

(** ** How the log of a leader changes *)
Section grows.
Context {C : RaftTypeConfig} (v : CommittedVote).
Implicit Types s : RaftState.RaftState.

Record grows s s' : Prop := {
  (** An entry stays, unless it was purged with everything before it... *)
  gr_keep : ∀ i x, ref_log_id s i = Some x →
    ref_log_id s' i = Some x ∨ ∀ j y, ref_log_id s' j = Some y → (i < j)%N;
  (** ... and what is added comes after the last one, and is of this leader. *)
  gr_new : ∀ i y, ref_log_id s' i = Some y →
    ref_log_id s i = Some y ∨ (next_index (last_log_id s) ≤ i)%N ∧ y.(leader_id) = committed_leader_id v;
  gr_last : (next_index (last_log_id s) ≤ next_index (last_log_id s'))%N;
}.

Lemma grows_same s s' : s'.(RaftState.log_ids) = s.(RaftState.log_ids) → grows s s'.
Proof. intros Hl. split; rewrite ?/ref_log_id /= ?Hl; auto. Qed.

Lemma wf_lt_last s i x :
  LogIdList.wf s.(RaftState.log_ids) = true → ref_log_id s i = Some x → (i < next_index (last_log_id s))%N.
Proof.
  rw ref_read. intros Hwf (f & q & _ & Hq & _ & Hi)%read_bounds; [|done]. cbn. rw /LogIdList.last Hq /=. lia.
Qed.

Lemma grows_trans s1 s2 s3 : LogIdList.wf s1.(RaftState.log_ids) = true → grows s1 s2 → grows s2 s3 → grows s1 s3.
Proof.
  intros Hwf [K1 N1 L1] [K2 N2 L2]. split; [| |lia].
  - intros i x Hx. pose proof (wf_lt_last _ _ _ Hwf Hx). destruct (K1 i x Hx) as [Hx2|Hp].
    + destruct (K2 i x Hx2) as [?|?]; [by left|by right].
    + right. intros j y Hy. destruct (N2 j y Hy) as [Hy2|[? _]]; [by eapply Hp|lia].
  - intros i y Hy. destruct (N2 i y Hy) as [Hy2|[? ?]]; [by apply N1|]. right. split; [lia|done].
Qed.
End grows.

(** ** Leading with a vote, and having lost it *)
Section stays.
Context {C : RaftTypeConfig} (v : CommittedVote).
Implicit Types (r : Rt) (s : RaftState.RaftState) (l : Leader.Leader LeaderQuorumSet).

Definition purgeable s : Prop := (next_index (Config.purge_upto s) ≤ next_index (last_log_id s))%N.

(** The node leads with the vote [v], or has stepped down and has seen no greater vote. *)
Record led r : Prop := {
  ld_wf : LogIdList.wf (state_of r).(RaftState.log_ids) = true;
  ld_below : (leader_id <$> last_log_id (state_of r)) ⪯ Some (committed_leader_id v);
  ld_purge : purgeable (state_of r);
  ld_vote : vote_le (committed_into_vote v) (RaftState.vote_ref (state_of r));
  ld_leader : match r.(eng).(Engine.leader) with
              | Some l => l.(Leader.committed_vote) = v ∧ l.(Leader.last_log_id) = last_log_id (state_of r)
              | None => RaftState.vote_ref (state_of r) = committed_into_vote v
              end;
  ld_candidate : ∀ k, r.(eng).(Engine.candidate) = Some k → to_committed k.(Candidate.vote) ≠ v;
}.
Record past r : Prop := {
  ps_vote : vote_lt (committed_into_vote v) (RaftState.vote_ref (state_of r));
  ps_leader : ∀ l, r.(eng).(Engine.leader) = Some l → l.(Leader.committed_vote) ≠ v;
}.

Record stays r r' : Prop := {
  st_past : past r → past r';
  st_led : led r → led r' ∧ grows v (state_of r) (state_of r') ∨ past r';
}.
#[export] Instance stays_preorder : PreOrder stays.
Proof.
  split; [intros r; split; [done|]; intros Hr; left; split; [done|by apply grows_same]|].
  intros r1 r2 r3 [P1 L1] [P2 L2]. split; [auto|]. intros H1. destruct (L1 H1) as [[H2 G1]|H2]; [|by right; apply P2].
  destruct (L2 H2) as [[H3 G2]|H3]; [|by right]. left. split; [done|]. eapply grows_trans; [apply H1|done..].
Qed.
Notation sts := (keeps_by stays).

(** *** Calm operations: the vote, the log and what the leader knows of it stay. *)
Definition lead_part r : option (CommittedVote * option LogId) :=
  (λ l, (l.(Leader.committed_vote), l.(Leader.last_log_id))) <$> r.(eng).(Engine.leader).
Record calm r r' : Prop := {
  cm_vote : RaftState.vote_ref (state_of r') = RaftState.vote_ref (state_of r);
  cm_log : (state_of r').(RaftState.log_ids) = (state_of r).(RaftState.log_ids);
  cm_purge : (state_of r').(RaftState.purge_upto) = (state_of r).(RaftState.purge_upto);
  cm_leader : lead_part r' = lead_part r;
  cm_candidate : r'.(eng).(Engine.candidate) = r.(eng).(Engine.candidate);
}.
#[export] Instance calm_preorder : PreOrder calm.
Proof. split; [done|]. intros r1 r2 r3 [] []. split; congruence. Qed.

(** Operations on the log of a follower: the vote and the leader stay. *)
Record quiet r r' : Prop := {
  qt_vote : RaftState.vote_ref (state_of r') = RaftState.vote_ref (state_of r);
  qt_leader : Leader.committed_vote <$> r'.(eng).(Engine.leader) = Leader.committed_vote <$> r.(eng).(Engine.leader);
}.
#[export] Instance quiet_preorder : PreOrder quiet.
Proof. split; [done|]. intros r1 r2 r3 [] []. split; congruence. Qed.

Lemma lead_part_vote r r' : lead_part r' = lead_part r →
  Leader.committed_vote <$> r'.(eng).(Engine.leader) = Leader.committed_vote <$> r.(eng).(Engine.leader).
Proof. rw /lead_part. by destruct (Engine.leader (eng r')), (Engine.leader (eng r)); cbn; [intros [= -> _]|..]. Qed.
Lemma calm_quiet r r' : calm r r' → quiet r r'.
Proof. intros []. split; [done|]. by apply lead_part_vote. Qed.
Lemma quiet_past r r' : quiet r r' → past r → past r'.
Proof.
  intros [Hv Hl] [H1 H2]. split; [by rw Hv|]. intros l Hl'. rw Hl' in Hl.
  destruct (Engine.leader (eng r)) as [l0|] eqn:E; [|done]. injection Hl as ->. by apply H2.
Qed.
Lemma calm_stays r r' : calm r r' → stays r r'.
Proof.
  intros Hc. split; [by apply quiet_past, calm_quiet|]. destruct Hc as [H1 H2 H3 H4 H5]. intros [L1 L2 L3 L4 L5 L6]. left.
  assert (last_log_id (state_of r') = last_log_id (state_of r)) as Hlast by by rw /last_log_id /= H2.
  split; [|by apply grows_same]. split; rw ?H1 ?H2 ?H5 ?Hlast; try done.
  - by rw /purgeable Hlast /= H3.
  - revert L5 H4. rw /lead_part. destruct (Engine.leader (eng r')), (Engine.leader (eng r)); try done. cbn.
    by intros [-> ->] [= -> ->].
Qed.

Lemma calm_keeps {A} (m : M A) : keeps_by calm m → sts m.
Proof. intros Hm r a r' Hrun. by eapply calm_stays, Hm. Qed.
Lemma calm_keeps_quiet {A} (m : M A) : keeps_by calm m → keeps_by quiet m.
Proof. intros Hm r a r' Hrun. by eapply calm_quiet, Hm. Qed.

(** Assignments. *)
Lemma calm_state r0 r s :
  calm r0 r → RaftState.vote_ref s = RaftState.vote_ref (state_of r) →
  s.(RaftState.log_ids) = (state_of r).(RaftState.log_ids) →
  s.(RaftState.purge_upto) = (state_of r).(RaftState.purge_upto) → calm r0 (set_eng r (Engine.set_state r.(eng) s)).
Proof. intros Hr H1 H2 H3. etrans; [exact Hr|]. by split. Qed.
Lemma calm_leader r0 r l l' :
  calm r0 r → r.(eng).(Engine.leader) = Some l → l'.(Leader.committed_vote) = l.(Leader.committed_vote) →
  l'.(Leader.last_log_id) = l.(Leader.last_log_id) → calm r0 (set_eng r (Engine.set_leader r.(eng) (Some l'))).
Proof. intros Hr Hl H1 H2. etrans; [exact Hr|]. split; try done. by rw /lead_part /= Hl /= H1 H2. Qed.
Lemma quiet_state r0 r s :
  quiet r0 r → RaftState.vote_ref s = RaftState.vote_ref (state_of r) → quiet r0 (set_eng r (Engine.set_state r.(eng) s)).
Proof. intros Hr H1. etrans; [exact Hr|]. by split. Qed.
Lemma quiet_leader r0 r l l' :
  quiet r0 r → r.(eng).(Engine.leader) = Some l → l'.(Leader.committed_vote) = l.(Leader.committed_vote) →
  quiet r0 (set_eng r (Engine.set_leader r.(eng) (Some l'))).
Proof. intros Hr Hl H1. etrans; [exact Hr|]. split; [done|]. by rw /= Hl /= H1. Qed.

(** Without the leader. *)
Lemma stays_no_leader r0 r : stays r0 r → stays r0 (set_eng r (Engine.set_leader r.(eng) None)).
Proof.
  intros Hr. etrans; [exact Hr|]. split; [intros []; by split|]. intros [L1 L2 L3 L4 L5 L6].
  destruct L4 as [Hlt|Heq].
  - right. by split.
  - left. split; [|by apply grows_same]. split; try done. by right.
Qed.
(** A greater vote. *)
Lemma stays_vote r0 r s :
  stays r0 r → vote_le (RaftState.vote_ref (state_of r)) (RaftState.vote_ref s) →
  s.(RaftState.log_ids) = (state_of r).(RaftState.log_ids) →
  s.(RaftState.purge_upto) = (state_of r).(RaftState.purge_upto) → stays r0 (set_eng r (Engine.set_state r.(eng) s)).
Proof.
  intros Hr Hv Hl Hp. etrans; [exact Hr|]. split.
  { intros [P1 P2]. split; [by eapply vote_lt_le_trans|done]. }
  intros [L1 L2 L3 L4 L5 L6]. set (r' := set_eng _ _).
  assert (last_log_id (state_of r') = last_log_id (state_of r)) as Hlast by by rw /last_log_id /= Hl.
  assert (vote_le (committed_into_vote v) (RaftState.vote_ref s)) as Hle by by eapply vote_le_trans.
  destruct (Engine.leader (eng r)) as [l|] eqn:El.
  - left. split; [|by apply grows_same]. split; rw ?Hlast /=; try done; [by rw Hl|by rw /purgeable /= Hp Hl|by rw El].
  - destruct Hle as [Hlt|Heq].
    + right. split; [done|]. cbn. by rw El.
    + left. split; [|by apply grows_same]. split; rw ?Hlast /=; try done; [by rw Hl|by rw /purgeable /= Hp Hl|by right|by rw El].
Qed.
(** A new leader, with the committed vote of the node. *)
Lemma stays_new_leader r0 r l :
  stays r0 r → is_committed (RaftState.vote_ref (state_of r)) = true →
  l.(Leader.committed_vote) = to_committed (RaftState.vote_ref (state_of r)) →
  l.(Leader.last_log_id) = last_log_id (state_of r) →
  stays r0 (set_eng r (Engine.set_leader r.(eng) (Some l))).
Proof.
  intros Hr Hc Hv Hl. etrans; [exact Hr|].
  assert (committed_into_vote l.(Leader.committed_vote) = RaftState.vote_ref (state_of r)) as Hvr by by rw Hv committed_again.
  assert (vote_lt (committed_into_vote v) (RaftState.vote_ref (state_of r)) → l.(Leader.committed_vote) ≠ v) as Hne.
  { intros Hlt Heq. rw -Hvr Heq in Hlt. by apply vote_lt_irrefl in Hlt. }
  split.
  { intros [P1 P2]. split; [done|]. intros ? [= <-]. by apply Hne. }
  intros [L1 L2 L3 L4 L5 L6]. destruct L4 as [Hlt|Heq].
  - right. split; [done|]. intros ? [= <-]. by apply Hne.
  - left. split; [|by apply grows_same]. split; try done; [by right|]. split; [|done].
    rw Hv -Heq. by destruct v.
Qed.
End stays.

#[export] Hint Extern 3 (keeps_by (stays _) _) => apply calm_keeps; solve [auto with keeps] : keeps.
#[export] Hint Extern 3 (keeps_by quiet _) => apply calm_keeps_quiet; solve [auto with keeps] : keeps.

Section leader_steps.
Context {C : RaftTypeConfig} (R : Rt → Rt → Prop).
Lemma kept_get_leader_bind {A} (k : Leader.Leader LeaderQuorumSet → M A) r0 r :
  (∀ l, r.(eng).(Engine.leader) = Some l → kept_by R r0 (k l) r) → kept_by R r0 (get_leader ≫= k) r.
Proof.
  intros Hk a r'. rw /get_leader /mbind /st_bind. destruct (Engine.leader (eng r)) as [l|] eqn:E; [|done].
  exact (Hk l eq_refl a r').
Qed.
Lemma kept_put_leader_then {A} o (k : unit → M A) r0 r :
  kept_by R r0 (k tt) (set_eng r (Engine.set_leader r.(eng) o)) → kept_by R r0 (put_leader o ≫= k) r.
Proof. done. Qed.
Lemma kept_put_leader_end o r0 r :
  R r0 (set_eng r (Engine.set_leader r.(eng) o)) → kept_by R r0 (put_leader o) r.
Proof. intros Hr a r' [= _ <-]. done. Qed.
End leader_steps.

Ltac calm_tac :=
  first [assumption | reflexivity | apply calm_state; [calm_tac|reflexivity..] |
         eapply calm_leader; [calm_tac|eassumption|reflexivity..]].
Ltac quiet_tac :=
  first [assumption | reflexivity | apply quiet_state; [quiet_tac|reflexivity..] |
         eapply quiet_leader; [quiet_tac|eassumption|reflexivity]].
Ltac evolves_tac ::= first [calm_tac | quiet_tac].
(** A step of a symbolic run that keeps track of the borrowed leader. *)
Ltac log_step :=
  lazymatch goal with
  | |- kept_by _ _ (get_leader ≫= _) _ => apply kept_get_leader_bind; intros ? ?
  | |- kept_by _ _ (put_leader (Some _) ≫= _) _ => apply kept_put_leader_then
  | |- kept_by _ _ (put_leader (Some _)) _ => apply kept_put_leader_end; evolves_tac
  | _ => kept_step
  end.
Ltac log_run := repeat (log_step; cbn beta iota zeta).
Ltac logs_tac := intros ?r; log_run.


Section calm_handlers.
Context {C : RaftTypeConfig}.
Notation calms := (keeps_by calm).

Lemma calm_now : calms now.
Proof. intros r a r' [= _ <-]. by split. Qed.
Lemma calm_push_command c : calms (push_command c).
Proof. intros r a r' [= _ <-]. by split. Qed.
Lemma calm_push_sent tx f : calms (push_sent tx f).
Proof. intros r a r' [= _ <-]. by split. Qed.
Lemma calm_greater_log b : calms (st_modify (λ r : Rt, set_eng r (Engine.set_seen_greater_log r.(eng) b))).
Proof. intros r a r' [= _ <-]. by split. Qed.
Lemma calm_accept_io io : calms (accept_io io).
Proof.
  intros r a r'. rw /accept_io /mbind /st_bind /get_state /st_gets /lift.
  destruct (RaftState.accept_io _ io) as [[p s]|] eqn:E; [|done]. intros [= _ <-].
  revert E. rw /RaftState.accept_io /mbind /outcome_bind. intros Hrun. repeat (case_match; try done); by simplify_eq.
Qed.
#[local] Hint Resolve calm_now calm_push_command calm_push_sent calm_greater_log calm_accept_io : keeps.

Lemma calm_update_server_state : calms ServerStateHandler.update_server_state_if_changed.
Proof. rw /ServerStateHandler.update_server_state_if_changed. logs_tac. Qed.
Lemma calm_trigger_snapshot : calms SnapshotHandler.trigger_snapshot.
Proof. rw /SnapshotHandler.trigger_snapshot. logs_tac. Qed.
Lemma calm_update_snapshot m : calms (SnapshotHandler.update_snapshot m).
Proof. rw /SnapshotHandler.update_snapshot. logs_tac. Qed.
Lemma calm_calc_purge_upto : calms LogHandler.calc_purge_upto.
Proof. rw /LogHandler.calc_purge_upto. logs_tac. Qed.
#[local] Hint Resolve calm_update_server_state calm_trigger_snapshot calm_update_snapshot calm_calc_purge_upto : keeps.

Lemma calm_update_committed r0 r c p s :
  calm r0 r → RaftState.update_committed (state_of r) c = Done (p, s) → calm r0 (set_eng r (Engine.set_state r.(eng) s)).
Proof.
  intros Hr. rw /RaftState.update_committed. destruct (_ ≺? _).
  - cbn. destruct (MembershipState.commit _ _) as [ms|] eqn:E; [|done]. intros [= _ <-]. by apply calm_state.
  - intros [= _ <-]. by apply calm_state.
Qed.

(** *** The following handler *)
Lemma calm_append_membership es : calms (FollowingHandler.append_membership es).
Proof.
  rw /FollowingHandler.append_membership. intros r.
  destruct (FollowingHandler.last_two_memberships es) as [|sm l]; [apply kept_ret; reflexivity|].
  apply kept_bind; [apply _| |reflexivity|intros [] r' Hr; log_run].
  apply keeps_for; [apply _|]. intros x _. logs_tac.
Qed.
Lemma calm_commit_entries c : calms (FollowingHandler.commit_entries c).
Proof.
  rw /FollowingHandler.commit_entries. logs_tac; try (by eapply calm_update_committed).
Qed.
Lemma calm_update_committed_membership em : calms (FollowingHandler.update_committed_membership em).
Proof. rw /FollowingHandler.update_committed_membership. logs_tac. Qed.
#[local] Hint Resolve calm_append_membership calm_commit_entries calm_update_committed_membership : keeps.

(** *** Replication and leader handlers *)
Lemma calm_put_progress p : calms (ReplicationHandler.put_progress p).
Proof. rw /ReplicationHandler.put_progress. logs_tac. Qed.
#[local] Hint Resolve calm_put_progress : keeps.
Lemma calm_rebuild_progresses : calms ReplicationHandler.rebuild_progresses.
Proof. rw /ReplicationHandler.rebuild_progresses. logs_tac. Qed.
Lemma calm_rebuild_streams : calms ReplicationHandler.rebuild_replication_streams.
Proof. rw /ReplicationHandler.rebuild_replication_streams. logs_tac. Qed.
Lemma calm_send_to_target t i : calms (ReplicationHandler.send_to_target t i).
Proof. rw /ReplicationHandler.send_to_target. logs_tac. Qed.
#[local] Hint Resolve calm_rebuild_progresses calm_rebuild_streams calm_send_to_target : keeps.
Lemma calm_initiate_loop me mx es : calms (ReplicationHandler.initiate_loop me mx es).
Proof. induction es as [|[t e] es IH]; cbn; logs_tac. Qed.
#[local] Hint Resolve calm_initiate_loop : keeps.
Lemma calm_initiate : calms ReplicationHandler.initiate_replication.
Proof. rw /ReplicationHandler.initiate_replication. logs_tac. Qed.
#[local] Hint Resolve calm_initiate : keeps.
Lemma calm_leader_append_membership i m : calms (ReplicationHandler.append_membership i m).
Proof. rw /ReplicationHandler.append_membership. logs_tac. Qed.
Lemma calm_update_leader_clock n t : calms (ReplicationHandler.update_leader_clock n t).
Proof. rw /ReplicationHandler.update_leader_clock. logs_tac. Qed.
Lemma calm_try_commit g : calms (ReplicationHandler.try_commit_quorum_accepted g).
Proof. rw /ReplicationHandler.try_commit_quorum_accepted. logs_tac; by eapply calm_update_committed. Qed.
#[local] Hint Resolve calm_leader_append_membership calm_update_leader_clock calm_try_commit : keeps.
Lemma calm_update_matching n i : calms (ReplicationHandler.update_matching n i).
Proof. rw /ReplicationHandler.update_matching. logs_tac. Qed.
Lemma calm_update_conflicting n i : calms (ReplicationHandler.update_conflicting n i).
Proof. rw /ReplicationHandler.update_conflicting. logs_tac. Qed.
Lemma calm_allow_next_revert n b : calms (ReplicationHandler.allow_next_revert n b).
Proof. rw /ReplicationHandler.allow_next_revert. logs_tac. Qed.
#[local] Hint Resolve calm_update_matching calm_update_conflicting calm_allow_next_revert : keeps.
Lemma calm_update_local_progress u : calms (ReplicationHandler.update_local_progress u).
Proof. rw /ReplicationHandler.update_local_progress. logs_tac. Qed.
Lemma calm_send_heartbeat : calms LeaderHandler.send_heartbeat.
Proof. rw /LeaderHandler.send_heartbeat. logs_tac. Qed.
Lemma calm_transfer_leader n : calms (LeaderHandler.transfer_leader n).
Proof. rw /LeaderHandler.transfer_leader. logs_tac. Qed.
Lemma calm_get_read_log_id : calms LeaderHandler.get_read_log_id.
Proof. rw /LeaderHandler.get_read_log_id. logs_tac. Qed.

(** *** The engine *)
Lemma calm_following_handler : calms EngineImpl.following_handler.
Proof. rw /EngineImpl.following_handler. logs_tac. Qed.
Lemma calm_leader_handler : calms EngineImpl.leader_handler.
Proof. rw /EngineImpl.leader_handler. logs_tac. Qed.
#[local] Hint Resolve calm_update_local_progress calm_send_heartbeat calm_transfer_leader calm_get_read_log_id
  calm_following_handler calm_leader_handler : keeps.
Lemma calm_get_leader_or_reject tx : calms (EngineImpl.get_leader_handler_or_reject tx).
Proof. rw /EngineImpl.get_leader_handler_or_reject. logs_tac. Qed.
#[local] Hint Resolve calm_get_leader_or_reject : keeps.
Lemma calm_handle_commit c : calms (EngineImpl.handle_commit_entries c).
Proof. rw /EngineImpl.handle_commit_entries. logs_tac. Qed.
Lemma calm_trigger_transfer n : calms (EngineImpl.trigger_transfer_leader n).
Proof. rw /EngineImpl.trigger_transfer_leader. logs_tac. Qed.
Lemma calm_begin_snapshot tx : calms (EngineImpl.handle_begin_receiving_snapshot tx).
Proof. rw /EngineImpl.handle_begin_receiving_snapshot. logs_tac. Qed.
Lemma calm_set_greater_log : calms EngineImpl.set_greater_log.
Proof. apply calm_greater_log. Qed.
Lemma calm_reset_greater_log : calms EngineImpl.reset_greater_log.
Proof. apply calm_greater_log. Qed.
End calm_handlers.

#[export] Hint Resolve calm_now calm_push_command calm_push_sent calm_greater_log calm_accept_io calm_update_server_state
  calm_trigger_snapshot calm_update_snapshot calm_calc_purge_upto calm_append_membership calm_commit_entries
  calm_update_committed_membership calm_put_progress calm_rebuild_progresses calm_rebuild_streams calm_send_to_target
  calm_initiate_loop calm_initiate calm_leader_append_membership calm_update_leader_clock calm_try_commit
  calm_update_matching calm_update_conflicting calm_allow_next_revert calm_update_local_progress calm_send_heartbeat
  calm_transfer_leader calm_get_read_log_id calm_following_handler calm_leader_handler calm_get_leader_or_reject
  calm_handle_commit calm_trigger_transfer calm_begin_snapshot calm_set_greater_log calm_reset_greater_log : keeps.

(** *** The log of a follower *)
Section quiet_handlers.
Context {C : RaftTypeConfig}.
Notation quiets := (keeps_by quiet).

(** Operations that assign the vote as it was. *)
Lemma quiet_part r0 r o s : quiet r0 r → log_part_only o (state_of r) → o = Done s →
  quiet r0 (set_eng r (Engine.set_state r.(eng) s)).
Proof. intros Hr Ho Hs. apply Ho in Hs as [? _]. by apply quiet_state. Qed.

Lemma quiet_purge_log : quiets LogHandler.purge_log.
Proof. rw /LogHandler.purge_log. logs_tac. eapply quiet_part; [done|apply purge_part|done]. Qed.
Lemma quiet_truncate_logs since : quiets (FollowingHandler.truncate_logs since).
Proof. rw /FollowingHandler.truncate_logs. logs_tac. Qed.
#[local] Hint Resolve quiet_purge_log quiet_truncate_logs : keeps.
Lemma quiet_ensure_consecutive prev : quiets (FollowingHandler.ensure_log_consecutive prev).
Proof. rw /FollowingHandler.ensure_log_consecutive. logs_tac. Qed.
Lemma quiet_do_append lv es : quiets (FollowingHandler.do_append_entries lv es).
Proof. rw /FollowingHandler.do_append_entries. logs_tac. eapply quiet_part; [done|apply extend_part|done]. Qed.
#[local] Hint Resolve quiet_ensure_consecutive quiet_do_append : keeps.
Lemma quiet_append_entries lv prev es : quiets (FollowingHandler.append_entries lv prev es).
Proof. rw /FollowingHandler.append_entries. logs_tac. Qed.
Lemma quiet_install lv sn : quiets (FollowingHandler.install_full_snapshot lv sn).
Proof. rw /FollowingHandler.install_full_snapshot. logs_tac. Qed.
Lemma assign_inv (l : Leader.Leader LeaderQuorumSet) es es' l' :
  (length es =? 0) = false → Leader.assign_log_ids l es = Done (es', l') →
  es' = (Leader.assign_from (committed_leader_id l.(Leader.committed_vote)) (next_index l.(Leader.last_log_id)) es).1 ∧
  l' = Leader.set_last_log_id l (list.last (Entry.log_id <$> es')).
Proof.
  intros Hlen Hrun. destruct (decide (l.(Leader.transfer_to) = None)) as [Ht|Ht]; last first.
  { revert Hrun. rw /Leader.assign_log_ids bool_decide_false //. }
  destruct (assign_log_ids_run l es Ht) as (es1 & Hrun' & ->); [by destruct es|].
  rw Hrun in Hrun'. by injection Hrun' as -> ->.
Qed.
Lemma quiet_leader_append es : quiets (LeaderHandler.leader_append_entries es).
Proof.
  rw /LeaderHandler.leader_append_entries. logs_tac.
  eapply quiet_part; [|apply extend_same_leader_part|done]. eapply quiet_leader; [reflexivity|done|].
  by match goal with H : Leader.assign_log_ids _ _ = _ |- _ => apply assign_inv in H as [_ ->] end.
Qed.
End quiet_handlers.
#[export] Hint Resolve quiet_purge_log quiet_truncate_logs quiet_ensure_consecutive quiet_do_append quiet_append_entries
  quiet_install quiet_leader_append : keeps.

(** *** The log of a leader *)
Section stays_handlers.
Context {C : RaftTypeConfig} (v : CommittedVote).
Implicit Types (r : Rt) (s : RaftState.RaftState).
Notation stays := (stays v).
Notation sts := (keeps_by stays).

(** Purging. *)
Lemma led_purge r s upto :
  led v r → (state_of r).(RaftState.purge_upto) = Some upto → RaftState.purge_log (state_of r) upto = Done s →
  led v (set_eng r (Engine.set_state r.(eng) s)) ∧ grows v (state_of r) s.
Proof.
  intros [L1 L2 L3 L4 L5 L6] Hu. rw /purgeable /= Hu /= in L3. cbn in L2.
  rw /RaftState.purge_log /mbind /outcome_bind. cbn [RaftState.set_purged_next RaftState.log_ids].
  destruct (RaftState.log_ids (state_of r)) as [l] eqn:El. cbn in L3.
  destruct (purge_within l upto L1) as (l' & Hrun & Hwf & Hlast & Hread); [rw /LogIdList.last /= in L3; lia|].
  change {| key_log_ids := l |} with (LogIdList.new l). rw Hrun. intros [= <-].
  set (s := RaftState.set_log_ids _ _).
  assert (last_log_id s = last_log_id (state_of r)) as Hl by by rw /last_log_id /= El /LogIdList.last /= Hlast.
  assert (∀ i, ref_log_id s i = if (i <? upto.(index))%N then None else ref_log_id (state_of r) i) as Href.
  { intros i. rw !ref_read El. exact (Hread i). }
  split; [|split].
  - split; cbn [state_of set_eng eng]; try done; change (state_of (set_eng r (Engine.set_state (eng r) s))) with s; rw ?Hl //.
    + rw /last_log_id /= El. exact L2.
    + rw /purgeable Hl /= Hu El /LogIdList.last /=. exact L3.
  - intros i x Hx. rw Href. destruct (N.ltb_spec i upto.(index)) as [Hi|Hi]; [right|by left].
    intros j y. rw Href. destruct (N.ltb_spec j upto.(index)); [done|]. intros _. lia.
  - intros i y. rw Href. destruct (_ <? _)%N; [done|]. by left.
  - by rw Hl.
Qed.
Lemma stays_purge_log : sts LogHandler.purge_log.
Proof.
  rw /LogHandler.purge_log. intros r. apply kept_state_bind. destruct (_ ⪯? _); [apply kept_ret; reflexivity|].
  apply kept_lift_bind. intros upto Hu. apply kept_lift_bind. intros s Hs. apply kept_put_bind.
  apply kept_keeps; [apply _|auto with keeps|]. split.
  - apply quiet_past. eapply quiet_part; [reflexivity|apply purge_part|exact Hs].
  - intros Hr. left. eapply led_purge; [done| |exact Hs]. revert Hu. cbn. by destruct (RaftState.purge_upto _); [intros [= ->]|].
Qed.
Lemma stays_update_purge_upto r u :
  (led v r → (u.(index) < next_index (last_log_id (state_of r)))%N) → kept_by stays r (LogHandler.update_purge_upto u) r.
Proof.
  intros Hu. rw /LogHandler.update_purge_upto. apply kept_state_bind, kept_lift_bind. intros _ _. apply kept_put.
  split; [by intros []; split|]. intros Hr. left. split; [|by apply grows_same]. pose proof (Hu Hr) as Hi. destruct Hr. split; try done.
  rw /purgeable /=. cbn in Hi. lia.
Qed.

(** Proposing. *)
Lemma led_append r l es es' l' s :
  led v r → r.(eng).(Engine.leader) = Some l → (length es =? 0) = false → Leader.assign_log_ids l es = Done (es', l') →
  RaftState.extend_log_ids_from_same_leader (state_of r) (Entry.log_id <$> es') = Done s →
  led v (set_eng r (Engine.set_state (Engine.set_leader r.(eng) (Some l')) s)) ∧ grows v (state_of r) s.
Proof.
  intros [L1 L2 L3 L4 L5 L6] Hl Hlen [Hes ->]%assign_inv; [|done]. rw Hl in L5. destruct L5 as [Hcv Hlast].
  rw Hcv Hlast in Hes. set (lid := committed_leader_id v) in *. set (n := next_index (last_log_id (state_of r))) in *.
  pose proof (assign_from_sorted lid n es) as (Hsort & Hlid & Hhead). rw -Hes in Hsort Hlid Hhead.
  pose proof (assign_from_spec lid n es) as (_ & Hlen' & _ & _). rw -Hes in Hlen'.
  set (ids := Entry.log_id <$> es') in *.
  assert (∃ it, ids = LogId_new lid n :: it) as [it Hit].
  { destruct ids as [|x it] eqn:E; [|exists it; by rw (Hhead x eq_refl)]. apply fmap_nil_inv in E. rw E /= in Hlen'.
    by rw -Hlen' in Hlen. }
  rw /RaftState.extend_log_ids_from_same_leader. destruct (RaftState.log_ids (state_of r)) as [k] eqn:Ek.
  assert (last_log_id (state_of r) = list.last k) as Hk by by rw /last_log_id /= Ek.
  destruct (extend_from_same_leader_wf k ids L1) as (k' & Hrun & Hwf & Hlast' & _ & Hread).
  { split; [done|]. intros q x Hq [= ->]%Hhead. rw /n Hk Hq. split; [done|]. by rw Hk Hq in L2. }
  { intros x y Hx%Hlid Hy%Hlid. by rw Hx Hy. }
  change {| key_log_ids := k |} with (LogIdList.new k). rw Hrun. intros [= <-]. set (s := RaftState.set_log_ids _ _).
  assert (∀ i, ref_log_id s i = if (i <? n)%N then ref_log_id (state_of r) i else ids !! N.to_nat (i - n)) as Href.
  { intros i. rw !ref_read Ek. change (LogIdList.read k' i = if (i <? n)%N then LogIdList.read k i else ids !! N.to_nat (i - n)).
    by rw Hread /extended Hit. }
  assert (n < next_index (last_log_id s))%N as Hn.
  { eapply wf_lt_last; [exact Hwf|]. rw Href N.ltb_irrefl N.sub_diag Hit. done. }
  assert (last_log_id s = list.last ids) as Hls.
  { change (list.last k' = list.last ids). rw Hlast' Hit. by destruct (list.last (_ :: it)) eqn:E; [|apply last_None in E]. }
  split; [split|split]; cbn [state_of set_eng eng]; change (Engine.state (Engine.set_state _ s)) with s; try done.
  - rw Hls. destruct (list.last ids) as [y|] eqn:E; [|done]. apply last_Some_elem_of in E. cbn. rw (Hlid y E). apply ole_refl.
  - apply N.lt_le_incl. eapply N.le_lt_trans; [exact L3|exact Hn].
  - intros i x Hx. left. rw Href. apply wf_lt_last in Hx as Hi; [|by rw Ek]. fold n in Hi. by destruct (N.ltb_spec i n); [|lia].
  - intros i y. rw Href. destruct (N.ltb_spec i n); [by left|]. intros Hy%list_elem_of_lookup_2%Hlid. right. done.
  - fold n. lia.
Qed.
Lemma stays_leader_append es : sts (LeaderHandler.leader_append_entries es).
Proof.
  intros r. rw /LeaderHandler.leader_append_entries. destruct (length es =? 0) eqn:Hlen; [apply kept_ret; reflexivity|].
  apply kept_get_leader_bind. intros l Hl. apply kept_lift_bind. intros [es' l'] Hass. apply kept_put_leader_then.
  apply kept_state_bind, kept_lift_bind. intros s Hs. apply kept_put_bind, kept_lift_bind. intros m _.
  set (r1 := set_eng _ _). assert (stays r r1) as Hr1.
  { split.
    - apply quiet_past. eapply quiet_part; [|apply extend_same_leader_part|exact Hs].
      eapply quiet_leader; [reflexivity|exact Hl|]. by apply assign_inv in Hass as [_ ->].
    - intros Hr. left. exact (led_append r l es es' l' s Hr Hl Hlen Hass Hs). }
  apply kept_bind; [apply _|auto with keeps|exact Hr1|]. intros io r2 Hr2.
  apply kept_bind; [apply _|auto with keeps|exact Hr2|]. intros [] r3 Hr3.
  apply kept_bind; [apply _|destruct m as [[i m]|]; [auto with keeps|intros ? ? ? [= _ <-]; reflexivity]|exact Hr3|].
  intros [] r4 Hr4. by apply kept_keeps; [apply _|auto with keeps|].
Qed.
#[local] Hint Resolve stays_purge_log stays_leader_append : keeps.

(** *** The vote *)
Lemma by_last_leader_last (ids : LogIdList) ll : LogIdList.by_last_leader ids = Done ll → LeaderLogIds.last ll = LogIdList.last ids.
Proof.
  rw /LogIdList.by_last_leader /LogIdList.last /LeaderLogIds.last. destruct (length _ <? 2).
  { intros [= <-]. cbn. by destruct (list.last _). }
  rw last_lookup Nat.sub_1_r. destruct (_ !! pred _) as [a|]; [|done]. destruct (_ !! (_ - 2)) as [b|]; [|done]. cbn.
  destruct (bool_decide _); by intros [= <-].
Qed.
Lemma new_leader_inv t s l :
  RaftState.new_leader t s = Done l →
  l.(Leader.committed_vote) = to_committed (RaftState.vote_ref s) ∧ l.(Leader.last_log_id) = last_log_id s.
Proof.
  rw /RaftState.new_leader. intros Hrun. split; [by eapply new_leader_vote|].
  destruct (LogIdList.by_last_leader s.(RaftState.log_ids)) as [ll|] eqn:E; [|done].
  apply by_last_leader_last in E. revert Hrun. rw /mbind /outcome_bind /Leader.new /mbind /outcome_bind /assert_.
  intros Hrun. repeat (case_match; try done); by injection Hrun as <-.
Qed.

Lemma stays_become_new_leader r0 r :
  stays r0 r → is_committed (RaftState.vote_ref (state_of r)) = true → kept_by stays r0 VoteHandler.become_new_leader r.
Proof.
  intros Hr Hc. rw /VoteHandler.become_new_leader. apply kept_state_bind.
  apply kept_now_bind; [apply _|auto with keeps|exact Hr|]. intros t r1 Hr1 Hs1.
  apply kept_lift_bind. intros l [Hv Hl]%new_leader_inv. apply kept_put_leader_then.
  set (r2 := set_eng _ _). assert (stays r0 r2) as Hr2 by by apply stays_new_leader; rw ?Hs1.
  clearbody r2. log_run.
Qed.
Lemma stays_become_leader r :
  is_committed (RaftState.vote_ref (state_of r)) = true → kept_by stays r VoteHandler.become_leader r.
Proof.
  intros Hc. rw /VoteHandler.become_leader. apply kept_engine_bind.
  destruct (Engine.leader (eng r)) as [l|] eqn:Hl; [|by apply stays_become_new_leader].
  case_bool_decide as Hlid; [|by apply stays_become_new_leader]. apply kept_put_leader_then.
  apply kept_keeps; [apply _|auto with keeps|].
  apply calm_stays. eapply calm_leader; [reflexivity|exact Hl| |done].
  cbn in Hlid |- *. destruct (Leader.committed_vote l). rw /to_committed. by rw -Hlid.
Qed.
Lemma stays_become_following : sts VoteHandler.become_following.
Proof.
  rw /VoteHandler.become_following. intros r. apply kept_config_bind, kept_state_bind, kept_lift_bind. intros _ _.
  apply kept_put_leader_then. apply kept_bind; [apply _| |by apply stays_no_leader|intros [] r1 Hr1; by apply kept_keeps; [apply _|auto with keeps|]].
  intros r1 a r2 [= _ <-]. split; [by intros []; split|]. intros []. left. split; [by split|by apply grows_same].
Qed.
#[local] Hint Resolve stays_become_following : keeps.
Lemma stays_update_internal : sts VoteHandler.update_internal_server_state.
Proof.
  rw /VoteHandler.update_internal_server_state. intros r. apply kept_config_bind, kept_state_bind.
  destruct (RaftState.is_leader _ _) eqn:Hl; [|log_run]. apply andb_true_iff in Hl as [_ Hc]. by apply stays_become_leader.
Qed.
#[local] Hint Resolve stays_update_internal : keeps.

(** The leader after its vote was looked at: as before, or with the vote of the node. *)
Definition lead_with r w r' : Prop := ∀ l, r'.(eng).(Engine.leader) = Some l →
  l.(Leader.committed_vote) = to_committed w ∨ Some l.(Leader.committed_vote) = Leader.committed_vote <$> r.(eng).(Engine.leader).
Lemma quiet_lead_with r r1 w r2 : lead_with r w r1 → quiet r1 r2 → lead_with r w r2.
Proof.
  intros H [_ Hl] l Hl2. rw Hl2 in Hl. destruct (Engine.leader (eng r1)) as [l1|] eqn:E; [|done]. injection Hl as ->. by apply H.
Qed.
Lemma new_lead_with r0 r w r' :
  Leader.committed_vote <$> r.(eng).(Engine.leader) = Some (to_committed w) → quiet r r' → lead_with r0 w r'.
Proof. intros Hr [_ Hl] l Hl'. left. rw Hl' Hr in Hl. by injection Hl. Qed.

Lemma update_internal_post r :
  post VoteHandler.update_internal_server_state (λ _ r', RaftState.vote_ref (state_of r') = RaftState.vote_ref (state_of r) ∧
    lead_with r (RaftState.vote_ref (state_of r)) r') r.
Proof.
  rw /VoteHandler.update_internal_server_state. apply post_bind. intros c r1 [= <- <-]. apply post_bind. intros s r1 [= <- <-].
  assert (post VoteHandler.become_new_leader (λ _ r', RaftState.vote_ref (state_of r') = RaftState.vote_ref (state_of r) ∧
    lead_with r (RaftState.vote_ref (state_of r)) r') r) as Hnew.
  { rw /VoteHandler.become_new_leader. apply post_bind. intros s r1 [= <- <-]. apply post_bind. intros t r1 [= <- <-].
    apply post_bind, post_lift. intros l [Hv _]%new_leader_inv. apply post_bind. intros [] r1 [= <-]. set (r1 := set_eng _ _).
    intros a r2 Hrun. assert (quiet r1 r2) as Hq by (revert a r2 Hrun; change (kept_by quiet r1 (
      _ ← accept_io (IOId.new_log_io l.(Leader.committed_vote) l.(Leader.last_log_id));
      _ ← push_command (UpdateIOProgress None (IOId.new_log_io l.(Leader.committed_vote) l.(Leader.last_log_id)));
      _ ← ServerStateHandler.update_server_state_if_changed;
      _ ← ReplicationHandler.rebuild_replication_streams;
      if l.(Leader.last_log_id) ≺? l.(Leader.noop_log_id) then LeaderHandler.leader_append_entries [Entry.new_blank LogId_default]
      else ReplicationHandler.initiate_replication) r1); log_run).
    split; [apply Hq|]. eapply new_lead_with; [|exact Hq]. by rw /= Hv. }
  destruct (RaftState.is_leader _ _) eqn:Hl.
  - rw /VoteHandler.become_leader. apply post_bind. intros e r1 [= <- <-].
    destruct (Engine.leader (eng r)) as [l|] eqn:El; [|exact Hnew]. case_bool_decide; [|exact Hnew].
    apply post_bind. intros [] r1 [= <-] a r2 Hq%calm_update_server_state%calm_quiet. split; [apply Hq|].
    by eapply new_lead_with; [|exact Hq].
  - destruct (RaftState.is_leading _ _).
    { apply post_ret. split; [done|]. intros l' Hl'. right. by rw Hl'. }
    rw /VoteHandler.become_following. apply post_bind. intros c r1 [= <- <-]. apply post_bind. intros s r1 [= <- <-].
    apply post_bind, post_lift. intros _ _. apply post_bind. intros [] r1 [= <-]. apply post_bind. intros [] r2 [= <-].
    intros a r3 Hq%calm_update_server_state%calm_quiet. split; [apply Hq|]. by eapply quiet_lead_with; [|exact Hq].
Qed.

(** The vote [w] is accepted when it is at least the node's, and is the node's then. *)
Lemma update_vote_stays w r :
  post (VoteHandler.update_vote w) (λ a r', stays r r' ∧ (is_ok a = true →
    RaftState.vote_ref (state_of r') = w ∧ vote_le (RaftState.vote_ref (state_of r)) w ∧ lead_with r w r')) r.
Proof.
  rw /VoteHandler.update_vote. apply post_bind. intros s r1 [= <- <-].
  apply post_bind, post_lift. intros ge Hge%ref_vote_ge_done.
  destruct ge; cbn [negb]; [|by apply post_ret]. pose proof (proj1 Hge eq_refl) as Hle.
  apply post_bind. intros c r1 [= <- <-]. apply post_bind, post_lift. intros gt Hgt%ref_vote_gt_done. apply post_bind.
  intros [] r1 Hfirst.
  assert (stays r r1 ∧ RaftState.vote_ref (state_of r1) = w ∧ lead_part r1 = lead_part r) as (Hr1 & Hv & Hl).
  { destruct gt.
    - apply st_bind_inv in Hfirst as (t & r2 & H2 & Hfirst). pose proof (calm_now _ _ _ H2) as C2. injection H2 as _ <-.
      apply st_bind_inv in Hfirst as ([] & r3 & [= <-] & Hfirst).
      apply st_bind_inv in Hfirst as (io & r4 & C4%calm_accept_io & C5%calm_push_command).
      match type of C4 with calm ?x _ => assert (calm x r1) as Cr by by etrans end. split; [|split].
      + etrans; [|by apply calm_stays]. match type of C2 with calm _ ?x => apply (stays_vote v r x) end; [by apply calm_stays|exact Hle|done..].
      + by rw (cm_vote _ _ Cr).
      + by rw (cm_leader _ _ Cr).
    - assert (w = RaftState.vote_ref (state_of r)) as ->.
      { destruct Hle as [Hlt|Heq]; [|done]. by apply Hgt in Hlt. }
      apply st_bind_inv in Hfirst as (t & r2 & H2 & Hfirst). pose proof (calm_now _ _ _ H2) as C2. injection H2 as _ <-.
      apply st_bind_inv in Hfirst as (l & r3 & [Ht%touch_data ->]%lift_inv & Hfirst). injection Hfirst as <-.
      split; [|by split].
      match type of C2 with calm _ ?x => by apply calm_stays, (calm_state r x) end. }
  apply post_bind. intros [] r2 Hint. apply post_ret. split; [etrans; [exact Hr1|by eapply stays_update_internal]|].
  intros _. apply update_internal_post in Hint as [Hv2 Hl2]. rw Hv in Hv2 Hl2. split; [done|]. split; [done|].
  intros l Hl'. destruct (Hl2 l Hl') as [?|Hs]; [by left|right]. by rw Hs (lead_part_vote _ _ Hl).
Qed.
Lemma stays_update_vote w : sts (VoteHandler.update_vote w).
Proof. intros r a r' Hrun. by apply update_vote_stays in Hrun as [? _]. Qed.
#[local] Hint Resolve stays_update_vote : keeps.

(** Closes goals whose state differs in other fields only. *)
Lemma stays_state r0 r s :
  stays r0 r → RaftState.vote_ref s = RaftState.vote_ref (state_of r) →
  s.(RaftState.log_ids) = (state_of r).(RaftState.log_ids) →
  s.(RaftState.purge_upto) = (state_of r).(RaftState.purge_upto) → stays r0 (set_eng r (Engine.set_state r.(eng) s)).
Proof. intros Hr H1 H2 H3. etrans; [exact Hr|]. by apply calm_stays, calm_state. Qed.
Local Ltac evolves_tac ::= first [assumption | reflexivity | apply stays_state; [evolves_tac|reflexivity..]].

(** What a node does to its log as a follower happens when it leads no more. *)
Lemma follower_stays r r1 r2 :
  stays r r1 → RaftState.vote_ref (state_of r1) ≠ committed_into_vote v → r1.(eng).(Engine.leader) = None →
  quiet r1 r2 → stays r r2.
Proof.
  intros [P L] Hw Hl Hq. split; [intros Hr; by eapply quiet_past, P|]. intros Hr. right.
  destruct (L Hr) as [[[_ _ _ _ Hl1 _] _]|H1]; [|by eapply quiet_past]. by rw Hl in Hl1.
Qed.
Lemma following_handler_inv r lv r' :
  EngineImpl.following_handler r = Done (lv, r') → r' = r ∧ r.(eng).(Engine.leader) = None.
Proof.
  rw /EngineImpl.following_handler. intros (e & r1 & [= <- <-] & Hrun)%st_bind_inv.
  apply st_bind_inv in Hrun as ([] & r1 & [Hn ->]%lift_inv & Hrun). apply st_bind_inv in Hrun as ([] & r1 & [_ ->]%lift_inv & [= _ <-]).
  split; [done|]. revert Hn. by rw /assert_; destruct (Engine.leader (eng r)).
Qed.

Lemma stays_engine_append w p es : w ≠ committed_into_vote v → sts (EngineImpl.append_entries w p es).
Proof.
  intros Hw r a r' (res & r1 & [Hr1 Hok]%update_vote_stays & Hrun)%st_bind_inv.
  destruct res as [[]|e]; [|by apply st_bind_inv in Hrun as (? & ? & [_ ->]%lift_inv & [= _ <-])].
  destruct (Hok eq_refl) as (Hv & _). apply st_bind_inv in Hrun as (lv & r2 & [-> Hl]%following_handler_inv & Hrun).
  eapply follower_stays; [exact Hr1|by rw Hv|exact Hl|].
  apply st_bind_inv in Hrun as (c & r3 & H3%quiet_ensure_consecutive & Hrun). destruct c; [|by injection Hrun as _ <-].
  apply st_bind_inv in Hrun as (x & r4 & H4%quiet_append_entries & [= _ <-]). by etrans.
Qed.
Lemma stays_handle_append w p es tx : w ≠ committed_into_vote v → sts (EngineImpl.handle_append_entries w p es tx).
Proof.
  intros Hw. pose proof (stays_engine_append w p es Hw). rw /EngineImpl.handle_append_entries. logs_tac.
Qed.
Lemma stays_accept_vote w tx f : sts (VoteHandler.accept_vote w tx f).
Proof. rw /VoteHandler.accept_vote. logs_tac. Qed.
Lemma stays_handle_install w sn tx : w ≠ committed_into_vote v → sts (EngineImpl.handle_install_full_snapshot w sn tx).
Proof.
  intros Hw r a r' (o & r1 & Hacc & Hrun)%st_bind_inv. pose proof (stays_accept_vote _ _ _ _ _ _ Hacc) as Hr1.
  destruct o as [tx'|]; [|by injection Hrun as _ <-].
  assert (RaftState.vote_ref (state_of r1) = w) as Hv.
  { apply st_bind_inv in Hacc as (res & r2 & [_ Hok]%update_vote_stays & Hacc). destruct res as [[]|e].
    - injection Hacc as _ <-. by apply Hok.
    - by apply st_bind_inv in Hacc as (? & ? & [= <- <-] & ([] & ? & _ & [=])%st_bind_inv). }
  apply st_bind_inv in Hrun as (lv & r2 & [-> Hl]%following_handler_inv & Hrun).
  apply st_bind_inv in Hrun as (c & r3 & H3%quiet_install & Hrun).
  apply st_bind_inv in Hrun as (s & r4 & [= <- <-] & H5%calm_push_command%calm_quiet).
  eapply follower_stays; [exact Hr1|by rw Hv|exact Hl|by etrans].
Qed.
Lemma stays_startup : sts EngineImpl.startup.
Proof. rw /EngineImpl.startup. logs_tac. Qed.
Lemma stays_leader_step_down : sts EngineImpl.leader_step_down.
Proof. rw /EngineImpl.leader_step_down. logs_tac. Qed.
Lemma stays_handle_vote_req req : sts (EngineImpl.handle_vote_req req).
Proof. rw /EngineImpl.handle_vote_req. logs_tac. Qed.
Lemma stays_leader_try_purge : sts ReplicationHandler.try_purge_log.
Proof. rw /ReplicationHandler.try_purge_log. logs_tac. Qed.
#[local] Hint Resolve stays_startup stays_leader_step_down stays_handle_vote_req stays_leader_try_purge : keeps.
Lemma stays_try_purge : sts EngineImpl.try_purge_log.
Proof. rw /EngineImpl.try_purge_log. logs_tac. Qed.
Lemma stays_update_progress t res : sts (ReplicationHandler.update_progress t res).
Proof. rw /ReplicationHandler.update_progress. logs_tac. Qed.
#[local] Hint Resolve stays_try_purge stays_update_progress : keeps.

(** *** Purging what the log holds *)
Lemma led_ref r i u : led v r → ref_log_id (state_of r) i = Some u → (u.(index) < next_index (last_log_id (state_of r)))%N.
Proof. intros Hr Hu. rw (ref_index _ _ _ Hu). eapply wf_lt_last; [apply Hr|exact Hu]. Qed.
Lemma calc_purge_inv r o r' :
  LogHandler.calc_purge_upto r = Done (o, r') → r' = r ∧ ∀ u, o = Some u → ∃ i, ref_log_id (state_of r) i = Some u.
Proof.
  rw /LogHandler.calc_purge_upto. intros (c & r1 & [= <- <-] & Hrun)%st_bind_inv.
  apply st_bind_inv in Hrun as (s & r1 & [= <- <-] & Hrun). destruct (_ <? _)%N; [by injection Hrun as <- <-|].
  apply st_bind_inv in Hrun as (i & r1 & [_ ->]%lift_inv & Hrun). apply st_bind_inv in Hrun as ([] & r1 & [_ ->]%lift_inv & [= <- <-]).
  split; [done|]. intros u Hu. by exists i.
Qed.
Lemma stays_schedule_purge : sts LogHandler.schedule_policy_based_purge.
Proof.
  rw /LogHandler.schedule_policy_based_purge. intros r a r' (o & r1 & [-> Ho]%calc_purge_inv & Hrun)%st_bind_inv.
  destruct o as [u|]; [|by injection Hrun as _ <-]. eapply stays_update_purge_upto; [|exact Hrun].
  intros Hr. destruct (Ho u eq_refl) as [i Hi]. by eapply led_ref.
Qed.
#[local] Hint Resolve stays_schedule_purge : keeps.
Lemma stays_finish_building m : sts (EngineImpl.finish_building_snapshot m).
Proof. rw /EngineImpl.finish_building_snapshot. logs_tac. Qed.
Lemma stays_trigger_purge i : sts (EngineImpl.trigger_purge_log i).
Proof.
  rw /EngineImpl.trigger_purge_log. intros r. apply kept_state_bind. destruct (snapshot_last_log_id _) as [x|]; [|apply kept_ret; reflexivity].
  destruct (_ <? _)%N; [apply kept_ret; reflexivity|]. apply kept_lift_bind. intros u Hu.
  intros a r' ([] & r1 & H1 & H2%stays_try_purge)%st_bind_inv. etrans; [|exact H2].
  eapply stays_update_purge_upto; [|exact H1]. intros Hr. eapply led_ref; [exact Hr|].
  revert Hu. rw /get_log_id. destruct (ref_log_id _ _) eqn:E; [|done]. intros [= <-]. exact E.
Qed.

(** *** Elections *)
Lemma stays_new_candidate w r :
  (led v r → to_committed w ≠ v) → kept_by stays r (EngineImpl.new_candidate w) r.
Proof.
  intros Hw k r' Hrun. injection Hrun as _ <-. split; [by intros []; split|]. intros Hr. left. pose proof (Hw Hr) as Hne.
  destruct Hr. split; [|by apply grows_same]. split; try done. by intros ? [= <-].
Qed.
Lemma next_vote_ne r : led v r →
  to_committed (from_leader_id (lid_new (next_term (vote_term (RaftState.vote_ref (state_of r)))) (id_of r)) false) ≠ v.
Proof.
  intros Hr Heq. pose proof (vote_le_term _ _ (ld_vote _ _ Hr)) as Ht. rw -Heq in Ht.
  rw {1}/vote_term /= lid_new_term /next_term in Ht. lia.
Qed.
Lemma stays_elect : sts EngineImpl.elect.
Proof.
  rw /EngineImpl.elect. intros r. apply kept_config_bind, kept_state_bind.
  intros a r' (k & r1 & H1 & Hrun)%st_bind_inv. etrans; [by eapply stays_new_candidate; [apply next_vote_ne|exact H1]|].
  revert a r' Hrun. match goal with |- ∀ a r', ?m r1 = _ → _ => change (kept_by stays r1 m r1) end. log_run.
Qed.
#[local] Hint Resolve stays_elect stays_finish_building stays_trigger_purge : keeps.

Lemma stays_initialize e : sts (EngineImpl.initialize e).
Proof.
  rw /EngineImpl.initialize. intros r. apply kept_state_bind.
  destruct (EngineImpl.check_initialize (state_of r)) eqn:Hci; [|apply kept_ret; reflexivity].
  apply check_initialize_ok in Hci as [_ Hv]. apply kept_lift_bind. intros m _. apply kept_config_bind.
  destruct (EngineImpl.check_members_contain_me _ _); [|apply kept_ret; reflexivity].
  intros a r' (t1 & r1 & [= <- <-] & Hrun)%st_bind_inv. apply st_bind_inv in Hrun as ([] & r2 & H2 & Hrun).
  apply st_bind_inv in Hrun as (lv & r3 & [-> Hl]%following_handler_inv & Hrun).
  apply st_bind_inv in Hrun as ([] & r4 & H4%quiet_do_append & Hrun).
  apply st_bind_inv in Hrun as ([] & r5 & H5%stays_elect & [= _ <-]). etrans; [|exact H5]. injection H2 as <-.
  split.
  - intros [P1 P2]. eapply quiet_past; [exact H4|]. split; [|exact P2]. eapply vote_lt_le_trans; [exact P1|].
    rw Hv. apply default_vote_le.
  - intros Hr. pose proof (ld_leader _ _ Hr) as Hlr. cbn in Hl. rw Hl Hv in Hlr. by injection Hlr.
Qed.

(** A candidate that wins leads with its own vote, which is beyond every vote it has led with. *)
Lemma establish_inv k r o r' :
  EstablishHandler.establish k r = Done (o, r') →
  match o with
  | None => r' = r
  | Some l => l.(Leader.committed_vote) = to_committed k.(Candidate.vote) ∧
      RaftState.vote_ref (state_of r') = RaftState.vote_ref (state_of r) ∧
      Leader.committed_vote <$> r'.(eng).(Engine.leader) = Some (to_committed k.(Candidate.vote))
  end.
Proof.
  rw /EstablishHandler.establish. intros (c & r1 & [= <- <-] & Hrun)%st_bind_inv.
  apply st_bind_inv in Hrun as ([] & r1 & [_ ->]%lift_inv & Hrun). apply st_bind_inv in Hrun as (e & r1 & [= <- <-] & Hrun).
  apply st_bind_inv in Hrun as (ok & r1 & Hok & Hrun). assert (r1 = r) as ->.
  { destruct (Engine.leader (eng r)); [by apply lift_inv in Hok as [_ ->]|by injection Hok]. }
  destruct ok; cbn [negb] in Hrun; [|by injection Hrun as <- <-].
  apply st_bind_inv in Hrun as (t1 & r1 & [= _ <-] & Hrun). apply st_bind_inv in Hrun as (l1 & r2 & [Hl1%into_leader_vote ->]%lift_inv & Hrun).
  apply st_bind_inv in Hrun as ([] & r3 & [= <-] & [= <- <-]). split; [done|]. split; [done|]. by rw /= Hl1.
Qed.
Lemma establish_leader_stays : sts EngineImpl.establish_leader.
Proof.
  rw /EngineImpl.establish_leader. intros r a r' (e & r1 & [= <- <-] & Hrun)%st_bind_inv.
  apply st_bind_inv in Hrun as (k & r1 & [Hk ->]%lift_inv & Hrun).
  assert (Engine.candidate (eng r) = Some k) as Hc by (revert Hk; rw /unwrap; by destruct (Engine.candidate _); [intros [= ->]|]).
  apply st_bind_inv in Hrun as ([] & r1 & [= <-] & Hrun). set (r1 := set_eng _ _) in Hrun.
  assert (stays r r1) as Hr1.
  { split; [by intros []; split|]. intros []. left. split; [by split|by apply grows_same]. }
  apply st_bind_inv in Hrun as (o & r2 & Hest%establish_inv & Hrun). destruct o as [l|]; [|by injection Hrun as _ <-; subst r2].
  destruct Hest as (Hl & Hv2 & Hl2).
  apply st_bind_inv in Hrun as ([] & r3 & H3%calm_rebuild_streams%calm_quiet & Hrun).
  apply st_bind_inv in Hrun as (res & r4 & [_ Hok]%update_vote_stays & Hrun).
  apply st_bind_inv in Hrun as ([] & r5 & [Hres ->]%lift_inv & Hrun). destruct res as [[]|]; [|done].
  destruct (Hok eq_refl) as (Hv4 & Hle & Hl4). clear Hok Hres.
  assert (quiet r4 r') as H5.
  { revert a r' Hrun. match goal with |- ∀ a r', ?m r4 = _ → _ => change (kept_by quiet r4 m r4) end. log_run. }
  set (cv := to_committed k.(Candidate.vote)) in *. rw Hl in Hv4 Hle Hl4.
  assert (vote_le (RaftState.vote_ref (state_of r)) (committed_into_vote cv)) as Hle'.
  { by rw (qt_vote _ _ H3) Hv2 in Hle. }
  (** The leader in the end leads with [cv]. *)
  assert (cv ≠ v → ∀ l', r'.(eng).(Engine.leader) = Some l' → l'.(Leader.committed_vote) ≠ v) as Hlead.
  { intros Hne l' Hl'. destruct (quiet_lead_with _ _ _ _ Hl4 H5 l' Hl') as [->|Hs]; [by destruct cv|].
    rw (qt_leader _ _ H3) Hl2 in Hs. by injection Hs as ->. }
  assert (vote_lt (committed_into_vote v) (committed_into_vote cv) → past v r') as Hpast.
  { intros Hlt. split; [by rw (qt_vote _ _ H5) Hv4|]. apply Hlead. intros Heq. rw Heq in Hlt. by apply vote_lt_irrefl in Hlt. }
  split.
  - intros [P1 _]. apply Hpast. by eapply vote_lt_le_trans.
  - intros Hr. right. apply Hpast. destruct (vote_le_trans _ _ _ (ld_vote _ _ Hr) Hle') as [|Heq]; [done|].
    destruct (ld_candidate _ _ Hr k Hc). injection Heq as Heq. destruct v as [lv]. by rw /= in Heq; subst.
Qed.
#[local] Hint Resolve establish_leader_stays : keeps.
Lemma stays_handle_vote_resp t resp : sts (EngineImpl.handle_vote_resp t resp).
Proof.
  rw /EngineImpl.handle_vote_resp. intros r. apply kept_engine_bind.
  destruct (Engine.candidate (eng r)) as [k|] eqn:Hk; [|apply kept_ret; reflexivity].
  destruct (_ && _); [|log_run]. apply kept_lift_bind. intros [b k'] Hgrant.
  assert (k'.(Candidate.vote) = k.(Candidate.vote)) as Hv.
  { revert Hgrant. rw /Candidate.grant_by /mbind /outcome_bind. intros Hrun. repeat (case_match; try done); by simplify_eq. }
  cbn beta iota. set (r1 := set_eng r (Engine.set_candidate r.(eng) (Some k'))).
  assert (stays r r1) as Hr1.
  { split; [by intros []; split|]. intros []. left. split; [|by apply grows_same]. split; try done.
    intros ? [= <-]. rw Hv. auto. }
  change (kept_by stays r (if b then EngineImpl.establish_leader else mret tt) r1). log_run.
Qed.
End stays_handlers.

#[export] Hint Resolve stays_purge_log stays_leader_append stays_become_following stays_update_internal stays_update_vote
  stays_accept_vote stays_startup stays_leader_step_down stays_handle_vote_req stays_leader_try_purge stays_try_purge
  stays_update_progress stays_schedule_purge stays_finish_building stays_trigger_purge stays_elect stays_initialize
  establish_leader_stays stays_handle_vote_resp : keeps.

(** ** The runtime *)
Section runtime.
Context {C : RaftTypeConfig} (v : CommittedVote).
Implicit Types c : Core.

(** No request of a leader with the vote [v] arrives: a leader sends none to itself. *)
Definition not_own (m : RaftMsg) : Prop :=
  match m with
  | Msg_AppendEntries rpc _ => rpc.(areq_vote) ≠ committed_into_vote v
  | Msg_InstallFullSnapshot w _ _ => w ≠ committed_into_vote v
  | _ => True
  end.
Definition logR c c' : Prop := stays v c.(rt) c'.(rt) ∧ (Forall not_own c.(rx_api) → Forall not_own c'.(rx_api)).
#[export] Instance logR_preorder : PreOrder logR.
Proof. split; [done|]. intros c1 c2 c3 [H1 Q1] [H2 Q2]. split; [by etrans|auto]. Qed.
Notation clog := (ckeeps_by logR).

Lemma clog_engine {A} (m : M A) : keeps_by (stays v) m → clog (engine m).
Proof.
  intros Hm c a c'. rw /engine. destruct (m c.(rt)) as [[a' r]|] eqn:E; [|done]. intros [= _ <-].
  split; [|done]. by eapply Hm.
Qed.
Lemma clog_modify (f : Core → Core) : (∀ c, rt (f c) = rt c ∧ rx_api (f c) = rx_api c) → clog (st_modify f).
Proof. intros Hf c a c' [= _ <-]. destruct (Hf c) as [H1 H2]. split; [by rw H1|by rw H2]. Qed.
Lemma clog_emit e : clog (emit e).
Proof. by intros c a c' [= _ <-]. Qed.
Lemma clog_store op : clog (store op).
Proof. intros c a c'. rw /store. by destruct (store_fault _ _); intros [= _ <-]. Qed.
Lemma clog_notify n : clog (notify n).
Proof. by intros c a c' [= _ <-]. Qed.
End runtime.
#[export] Hint Resolve clog_emit clog_store clog_notify : ckeeps.
#[export] Hint Extern 1 (ckeeps_by (logR _) (engine _)) => apply clog_engine; solve [auto with keeps] : ckeeps.
#[export] Hint Extern 1 (ckeeps_by (logR _) (st_modify _)) => apply clog_modify; done : ckeeps.

Section runtime_handlers.
Context {C : RaftTypeConfig} (v : CommittedVote).
Implicit Types c : Core.
Notation clog := (ckeeps_by (logR v)).

Lemma calm_modify_io f : keeps_by calm (modify_io f).
Proof. rw /modify_io. intros r. log_run. Qed.
Lemma calm_disable_lease : keeps_by calm (modify_state (λ s, RaftState.set_vote s (Leased.disable_lease s.(RaftState.vote)))).
Proof. logs_tac. Qed.
Lemma calm_get_state : keeps_by calm get_state.
Proof. by intros r a r' [= _ <-]. Qed.
Lemma calm_get_engine : keeps_by calm get_engine.
Proof. by intros r a r' [= _ <-]. Qed.
Lemma calm_last_quorum_acked : keeps_by calm RaftCore.last_quorum_acked_time.
Proof.
  rw /RaftCore.last_quorum_acked_time. intros r. apply kept_engine_bind.
  destruct (Engine.leader (eng r)) as [l|] eqn:Hl; [|apply kept_ret; reflexivity].
  intros a r2 (t & r1 & [= <- <-] & Hrun)%st_bind_inv.
  apply st_bind_inv in Hrun as ([acked l'] & r3 & [Hacked ->]%lift_inv & Hrun).
  apply st_bind_inv in Hrun as ([] & r4 & [= <-] & [= _ <-]).
  change (calm r (set_eng (ticked r) (Engine.set_leader (eng r) (Some l')))).
  assert (l'.(Leader.committed_vote) = l.(Leader.committed_vote) ∧ l'.(Leader.last_log_id) = l.(Leader.last_log_id)) as [H1 H2].
  { revert Hacked. rw /Leader.last_quorum_acked_time /mbind /outcome_bind. intros Hrun.
    repeat (case_match; try done); by simplify_eq. }
  apply (calm_leader r (ticked r) l l'); [by split|exact Hl|done..].
Qed.
Lemma calm_io_submit io : keeps_by calm (io_submit io).
Proof. apply calm_modify_io. Qed.
Lemma calm_io_flush io : keeps_by calm (io_flush io).
Proof. apply calm_modify_io. Qed.
#[local] Hint Resolve calm_modify_io calm_disable_lease calm_get_state calm_get_engine calm_last_quorum_acked
  calm_io_submit calm_io_flush : keeps.

Lemma clog_get_core_state : clog RaftCore.get_core_state.
Proof. rw /RaftCore.get_core_state. ckeeps_tac. Qed.
Lemma clog_get_id : clog RaftCore.get_id.
Proof. rw /RaftCore.get_id. ckeeps_tac. Qed.
#[local] Hint Resolve clog_get_core_state clog_get_id : ckeeps.
Lemma clog_effective : clog RaftCore.effective.
Proof. rw /RaftCore.effective. ckeeps_tac. Qed.
Lemma clog_sm_send cmd : clog (sm_send cmd).
Proof. rw /sm_send. ckeeps_tac. Qed.
#[local] Hint Resolve clog_effective clog_sm_send : ckeeps.
Lemma clog_check_is_leader tx : clog (RaftCore.handle_check_is_leader_request tx).
Proof. rw /RaftCore.handle_check_is_leader_request. ckeeps_tac. Qed.
Lemma clog_send_heartbeat : clog RaftCore.send_heartbeat.
Proof. rw /RaftCore.send_heartbeat. ckeeps_tac. Qed.
Lemma clog_report_metrics a b : clog (RaftCore.report_metrics a b).
Proof. rw /RaftCore.report_metrics. ckeeps_tac. Qed.
#[local] Hint Resolve clog_check_is_leader clog_send_heartbeat clog_report_metrics : ckeeps.
Lemma clog_flush_metrics : clog RaftCore.flush_metrics.
Proof. rw /RaftCore.flush_metrics. ckeeps_tac. Qed.
Lemma clog_trigger_snapshot : clog RaftCore.trigger_snapshot.
Proof. rw /RaftCore.trigger_snapshot. ckeeps_tac. Qed.
Lemma clog_spawn_stream t p : clog (RaftCore.spawn_replication_stream t p).
Proof. rw /RaftCore.spawn_replication_stream. ckeeps_tac. Qed.
Lemma clog_remove_all : clog RaftCore.remove_all_replication.
Proof. rw /RaftCore.remove_all_replication. ckeeps_tac. Qed.
Lemma clog_broadcast_transfer req : clog (RaftCore.broadcast_transfer_leader req).
Proof. rw /RaftCore.broadcast_transfer_leader. ckeeps_tac. Qed.
Lemma clog_apply_to_sm a b : clog (RaftCore.apply_to_state_machine a b).
Proof. rw /RaftCore.apply_to_state_machine. ckeeps_tac. Qed.
#[local] Hint Resolve clog_flush_metrics clog_trigger_snapshot clog_spawn_stream clog_remove_all clog_broadcast_transfer
  clog_apply_to_sm : ckeeps.
Lemma clog_external_command cmd : clog (RaftCore.handle_external_command cmd).
Proof. rw /RaftCore.handle_external_command. ckeeps_tac. Qed.
Lemma clog_tick_election : clog RaftCore.handle_tick_election.
Proof. rw /RaftCore.handle_tick_election. ckeeps_tac. Qed.
#[local] Hint Resolve clog_external_command clog_tick_election : ckeeps.
Lemma clog_next_heartbeat (f : Instant → Instant) :
  clog (e ← engine get_engine;
        match e.(Engine.leader) with
        | Some l => t ← engine now; engine (put_leader (Some (Leader.set_next_heartbeat l (f t))))
        | None => mret tt
        end).
Proof.
  intros c a c' (e & c1 & H & Hrun)%st_bind_inv. rw /engine in H. cbn in H. injection H as <- <-. rw set_rt_id in Hrun.
  destruct (Engine.leader (eng (rt c))) as [l|] eqn:Hl; [|injection Hrun as _ <-; reflexivity].
  injection Hrun as _ <-. split; [|done]. apply calm_stays.
  apply (calm_leader (rt c) (ticked (rt c)) l); [by split|exact Hl|done..].
Qed.
Lemma clog_tick : clog RaftCore.handle_tick.
Proof.
  rw /RaftCore.handle_tick. apply ckeeps_bind; [apply _|ckeeps_tac|]. intros t. apply ckeeps_bind; [apply _|ckeeps_tac|].
  intros []. apply ckeeps_bind; [apply _|ckeeps_tac|]. intros e. apply ckeeps_bind; [apply _|ckeeps_tac|]. intros c.
  apply ckeeps_bind; [apply _| |intros []; ckeeps_tac].
  destruct (Engine.leader e) as [l|]; [|ckeeps_tac]. destruct (_ <=? _)%N; [|ckeeps_tac].
  apply ckeeps_bind; [apply _|ckeeps_tac|]. intros []. apply (clog_next_heartbeat (λ t, t + _)%N).
Qed.
Lemma clog_write_entry e tx : clog (RaftCore.write_entry e tx).
Proof. rw /RaftCore.write_entry. ckeeps_tac. Qed.
#[local] Hint Resolve clog_tick clog_write_entry : ckeeps.
Lemma clog_change_membership changes retain tx : clog (RaftCore.change_membership changes retain tx).
Proof. rw /RaftCore.change_membership. ckeeps_tac. Qed.
Lemma clog_handle_vote_request req tx : clog (RaftCore.handle_vote_request req tx).
Proof. rw /RaftCore.handle_vote_request. ckeeps_tac. Qed.
Lemma clog_handle_append_request req tx :
  req.(areq_vote) ≠ committed_into_vote v → clog (RaftCore.handle_append_entries_request req tx).
Proof.
  intros Hw. rw /RaftCore.handle_append_entries_request. apply ckeeps_bind; [apply _| |intros a; ckeeps_tac].
  by apply clog_engine, stays_handle_append.
Qed.
Lemma clog_handle_initialize members tx : clog (RaftCore.handle_initialize members tx).
Proof. rw /RaftCore.handle_initialize. ckeeps_tac. Qed.
#[local] Hint Resolve clog_change_membership clog_handle_vote_request clog_handle_append_request clog_handle_initialize : ckeeps.
Lemma clog_api_msg msg : not_own v msg → clog (RaftCore.handle_api_msg msg).
Proof.
  destruct msg; intros Hm; cbn [RaftCore.handle_api_msg]; try (ckeeps_tac; fail).
  by apply clog_engine, stays_handle_install.
Qed.

Lemma clog_apply_loop n i es rs : clog (RaftCore.apply_result_loop n i es rs).
Proof.
  revert i es rs. induction n as [|n IH]; intros i es rs; cbn [RaftCore.apply_result_loop]; [ckeeps_tac|].
  apply ckeeps_bind; [apply _|ckeeps_tac|]. intros [e es']. apply ckeeps_bind; [apply _|ckeeps_tac|]. intros [x rs'].
  apply ckeeps_bind; [apply _|ckeeps_tac|]. intros c. apply ckeeps_bind; [apply _|ckeeps_tac|]. intros [].
  apply ckeeps_bind; [apply _|rw /RaftCore.send_response; ckeeps_tac|]. intros []. apply IH.
Qed.
Lemma clog_handle_apply_result res : clog (RaftCore.handle_apply_result res).
Proof. apply clog_apply_loop. Qed.
#[local] Hint Resolve clog_handle_apply_result : ckeeps.
Lemma clog_sm_response res : clog (RaftCore.handle_sm_response res).
Proof. rw /RaftCore.handle_sm_response. ckeeps_tac. Qed.
#[local] Hint Resolve clog_sm_response : ckeeps.
Lemma clog_notification n : clog (RaftCore.handle_notification n).
Proof. destruct n; cbn [RaftCore.handle_notification]; ckeeps_tac. Qed.
Lemma clog_execute cmd : clog (RaftCore.execute cmd).
Proof. destruct cmd; cbn [RaftCore.execute]; rewrite ?/RaftCore.spawn_parallel_vote_requests; ckeeps_tac. Qed.

Lemma turn_log c c' : Cluster.turn c c' → Forall (not_own v) c.(rx_api) → logR v c c'.
Proof.
  intros Ht Hapi. destruct Ht as [c1 c2 H|c1 c2 H|c1 c2 H|c1 m rest c2 Hq H|c1 n rest c2 Hq H|c1 cmd rest c2 Hq H|c1 c2 H|c1 e He|c1 d].
  - refine (clog_engine v _ _ _ _ _ H). auto with keeps.
  - exact (clog_flush_metrics _ _ _ H).
  - exact (clog_report_metrics _ _ _ _ _ H).
  - rw Hq in Hapi. apply Forall_cons in Hapi as [Hm Hrest]. destruct (clog_api_msg m Hm _ _ _ H) as [H1 H2].
    split; [exact H1|]. intros _. by apply H2.
  - exact (clog_notification n _ _ _ H).
  - apply run_command_inv in H as [(_ & ? & _)|(_ & r & Hex & Hr)]; [done|].
    etrans; [|exact (clog_execute cmd _ _ _ Hex)]. split; [|done]. apply calm_stays. by split.
  - assert (clog (l ← engine EngineImpl.leader_handler;
      match l with ROk _ => engine ReplicationHandler.initiate_replication | RErr _ => mret tt end)) as Hk by ckeeps_tac.
    exact (Hk _ _ _ H).
  - done.
  - split; [|done]. apply calm_stays. by split.
Qed.
End runtime_handlers.

(** ** A leader only appends to its log *)
Module LeaderRun.
Section steps.
Context {C : RaftTypeConfig} (v : CommittedVote).

(** The node takes a turn, or a message that it has not sent itself or a notification arrives. *)
Inductive step : Core → Core → Prop :=
| step_turn c c' : Cluster.turn c c' → step c c'
| step_message c m : not_own v m → step c (set_rx_api c (c.(rx_api) ++ [m]))
| step_notification c n : step c (set_rx_notification c (c.(rx_notification) ++ [n])).
End steps.
End LeaderRun.

Section theorems.
Context {C : RaftTypeConfig} (v : CommittedVote).
Implicit Types c : Core.

Lemma run_log c c' : Forall (not_own v) c.(rx_api) → rtc (LeaderRun.step v) c c' → logR v c c'.
Proof.
  intros Hapi Hrun. induction Hrun as [|c1 c2 c3 Hst _ IH]; [done|].
  assert (logR v c1 c2) as H12.
  { destruct Hst as [c1 c2 Ht|c1 m Hm|c1 n]; [by apply turn_log|split; [done|]|done].
    intros H. apply Forall_app. split; [done|by apply Forall_singleton]. }
  etrans; [exact H12|]. apply IH. by apply H12.
Qed.

(** C5: leader append-only: while a node leads with one vote, across any messages but its own, losses of
    followers, membership changes, purges, stepping down and leading again, its log only grows: an entry
    stays unless it was purged with everything before it, and what is added follows the last entry and has
    the leader id of this leader.  The log stays well formed, and the leader knows its last log id. *)
Theorem leader_append_only c c' l :
  led v c.(rt) → Forall (not_own v) c.(rx_api) → rtc (LeaderRun.step v) c c' →
  c'.(rt).(eng).(Engine.leader) = Some l → l.(Leader.committed_vote) = v →
  let s := core_state c in
  let s' := core_state c' in
  LogIdList.wf s'.(RaftState.log_ids) = true ∧ l.(Leader.last_log_id) = last_log_id s' ∧
  (next_index (last_log_id s) ≤ next_index (last_log_id s'))%N ∧
  (∀ i x, ref_log_id s i = Some x →
     ref_log_id s' i = Some x ∨ ∀ j y, ref_log_id s' j = Some y → (i < j)%N) ∧
  (∀ i y, ref_log_id s' i = Some y →
     ref_log_id s i = Some y ∨ (next_index (last_log_id s) ≤ i)%N ∧ y.(leader_id) = committed_leader_id v).
Proof.
  intros Hled Hapi Hrun Hl Hv s s'. destruct (run_log c c' Hapi Hrun) as [[_ Hst] _].
  destruct (Hst Hled) as [[[H1 _ _ _ H5 _] []]|Hp]; [|by destruct (ps_leader _ _ Hp l Hl)].
  rw Hl in H5. by split_and!; [|apply H5|..].
Qed.
End theorems.

(** ** A witness: the elected node 1 takes a write of a client *)
Section witness.
#[local] Existing Instance StdConfig.

Definition ut_own : CommittedVote := to_committed (Vote_new_committed 1 1).
Definition ut_write : RaftMsg := Msg_ClientWriteRequest tt 8%N.
Definition ut_1c : Core := after main_round (delivered_to ut_1b ut_write).

Lemma ut_1b_led : led ut_own ut_1b.(rt).
Proof.
  split; [by vm_compute|by apply leb_le; vm_compute|by vm_compute|right; by vm_compute|by vm_compute|].
  intros k. assert (ut_1b.(rt).(eng).(Engine.candidate) = None) as -> by by vm_compute. done.
Qed.
Lemma ut_1c_run : rtc (LeaderRun.step ut_own) ut_1b ut_1c.
Proof.
  eapply rtc_l; [by apply (LeaderRun.step_message ut_own ut_1b ut_write)|].
  eapply rtc_subrel; [|apply after_turns; by vm_compute]. intros x y. apply LeaderRun.step_turn.
Qed.

Lemma leader_append_only_witness :
  ∃ l, ut_1c.(rt).(eng).(Engine.leader) = Some l ∧
    (∀ i x, ref_log_id (core_state ut_1b) i = Some x →
       ref_log_id (core_state ut_1c) i = Some x ∨ ∀ j y, ref_log_id (core_state ut_1c) j = Some y → (i < j)%N) ∧
    next_index (last_log_id (core_state ut_1b)) = 2%N ∧
    ref_log_id (core_state ut_1c) 2 = Some {| leader_id := committed_leader_id ut_own; index := 2 |}.
Proof.
  destruct ut_1c.(rt).(eng).(Engine.leader) as [l|] eqn:Hl; [|by vm_compute in Hl].
  assert (l.(Leader.committed_vote) = ut_own) as Hv.
  { assert (Leader.committed_vote <$> ut_1c.(rt).(eng).(Engine.leader) = Some ut_own) as H by by vm_compute.
    rw Hl in H. by injection H. }
  exists l. split; [done|].
  destruct (leader_append_only ut_own ut_1b ut_1c l ut_1b_led) as (_ & _ & _ & H & _);
    [by vm_compute|exact ut_1c_run|exact Hl|exact Hv|].
  split; [exact H|]. split; by vm_compute.
Defined.
End witness.
