(* ===== verification/Applies.v ===== *)
(** * What is committed is applied: once, in order, with nothing left out

    [RaftCore] (openraft/src/core/raft_core.rs) sends the state machine worker the ranges of entries to
    apply and the snapshots to install.  [told] is what was sent and what is queued to be sent: it leads
    from the commit position a node starts with to its present one without a gap ([applies_in_order]).
    With the theorem about the worker (core/sm/worker.rs), the state machine of a node has exactly the
    committed entries, applied one after the other ([committed_entries_applied]). *)

From S2P Require Export Cluster Worker.

(** ** What the runtime tells the worker *)
Section capplies.
Context {C : RaftTypeConfig}.
Implicit Types c : Core.

Definition sent_moves c : list Move := c.(out) ≫= eff_moves.
Definition told c : list Move := sent_moves c ++ moves_of (commands_of c.(rt)).

(** Nothing is told by the way: the moves that were queued lead on to the commit position. *)
Record capplies c c' : Prop := {
  ca_api : c'.(rx_api) = c.(rx_api);
  ca_sent : sent_moves c' = sent_moves c;
  ca_moved : moved c.(rt) c'.(rt);
}.

Lemma capplies_same c c' : c'.(rx_api) = c.(rx_api) → sent_moves c' = sent_moves c → c'.(rt) = c.(rt) → capplies c c'.
Proof. intros H1 H2 H3. split; [done..|]. rw H3. by apply moved_same. Qed.
#[export] Instance capplies_preorder : PreOrder capplies.
Proof.
  split; [intros c; by apply capplies_same|]. intros c1 c2 c3 [] []. split; [congruence..|by eapply moved_trans].
Qed.
Notation kept := (ckeeps_by capplies).

Lemma capplies_engine {A} (m : M A) : (∀ r, post m (λ _ r', moved r r') r) → kept (engine m).
Proof.
  intros Hm c a c'. rw /engine. destruct (m c.(rt)) as [[a' r]|] eqn:E; [|done]. intros [= _ <-].
  split; [done..|]. by eapply Hm.
Qed.
Lemma sent_app c es :
  es ≫= eff_moves = [] → sent_moves (set_store c c.(store_calls) (c.(out) ++ es)) = sent_moves c.
Proof. intros He. by rw /sent_moves /= bind_app He app_nil_r. Qed.
Lemma capplies_emit e : eff_moves e = [] → kept (emit e).
Proof. intros He c a c' [= _ <-]. apply capplies_same; [done| |done]. apply sent_app. by rw bind_cons He. Qed.
Lemma capplies_store op : kept (store op).
Proof.
  intros c a c'. rw /store. destruct (store_fault _ _); intros [= _ <-]; apply capplies_same; try done.
  by apply (sent_app c [Eff_Store op]).
Qed.
Lemma capplies_modify (f : Core → Core) :
  (∀ c, rt (f c) = rt c ∧ rx_api (f c) = rx_api c ∧ out (f c) = out c) → kept (st_modify f).
Proof.
  intros Hf c a c' [= _ <-]. destruct (Hf c) as (H1 & H2 & H3). apply capplies_same; [done| |done]. by rw /sent_moves H3.
Qed.
#[export] Instance capplies_rel : CoreRel capplies.
Proof.
  split; [apply _| | | |by intros; apply capplies_emit|apply capplies_store|by intros n; apply capplies_modify].
  - intros A m Hm. apply capplies_engine. intros r a r' Hrun. apply (Hm r a r' Hrun).
  - intros A m Hm. apply capplies_engine. intros r a r' Hrun. by destruct (Hm r a r' Hrun) as [vs []].
  - intros f Hf. apply capplies_modify. intros c. by destruct (Hf c) as (_ & ? & _ & ? & ?).
Qed.

Lemma moved_push cmd r : cmd_moves cmd = [] → post (push_command cmd) (λ _ r', moved r r') r.
Proof.
  intros Hc [] r' [= <-]. exists []. split; [|done].
  change (moves_of (commands_of r ++ [cmd]) = moves_of (commands_of r) ++ []). by rw moves_of_app /moves_of /= Hc.
Qed.
Lemma moved_leader_or_reject tx r : post (EngineImpl.get_leader_handler_or_reject tx) (λ _ r', moved r r') r.
Proof.
  rw /EngineImpl.get_leader_handler_or_reject. apply post_bind. intros l r1 H1%keeps_leader_handler.
  destruct l; [apply post_ret; apply H1|]. destruct tx; [|apply post_ret; apply H1].
  apply post_bind. intros [] r2 [= <-]. apply post_ret. apply H1.
Qed.
End capplies.
#[export] Hint Extern 0 (ckeeps_by capplies (emit _)) => apply capplies_emit; reflexivity : ckeeps.
#[export] Hint Extern 0 (ckeeps_by capplies (st_modify _)) => apply capplies_modify; done : ckeeps.
#[export] Hint Extern 2 (ckeeps_by capplies (engine (push_command _))) =>
  apply capplies_engine; intros ?; apply moved_push; reflexivity : ckeeps.
#[export] Hint Extern 2 (ckeeps_by capplies (engine (EngineImpl.get_leader_handler_or_reject _))) =>
  apply capplies_engine, moved_leader_or_reject : ckeeps.

Section runtime.
Context {C : RaftTypeConfig}.
Implicit Types c : Core.
Notation kept := (ckeeps_by capplies).

(** The API builds closures only, and no other command, for [ExternalCommand::StateMachineCommand]
    (raft/mod.rs: [with_state_machine]). *)
Definition msg_quiet (m : RaftMsg) : Prop :=
  match m with Msg_ExternalCommand (EC_StateMachineCommand c) => sm_moves c = [] | _ => True end.

Lemma kept_write_entry e tx : kept (RaftCore.write_entry e tx).
Proof. rw /RaftCore.write_entry. ckeeps_tac. Qed.
#[local] Hint Resolve kept_write_entry : ckeeps.
Lemma kept_change_membership ch retain tx : kept (RaftCore.change_membership ch retain tx).
Proof. rw /RaftCore.change_membership. ckeeps_tac. Qed.
Lemma kept_handle_vote_request req tx : kept (RaftCore.handle_vote_request req tx).
Proof. rw /RaftCore.handle_vote_request. ckeeps_tac. Qed.
#[local] Hint Resolve kept_change_membership kept_handle_vote_request : ckeeps.
Lemma kept_api_msg msg : msg_quiet msg → kept (RaftCore.handle_api_msg msg).
Proof.
  destruct msg; intros Hm; cbn [RaftCore.handle_api_msg]; try (ckeeps_tac; fail).
  apply ckeeps_external_command; [apply _|]. destruct cmd; try done. by apply ckeeps_sm_send; [apply _|].
Qed.

Lemma kept_apply_loop n i es rs : kept (RaftCore.apply_result_loop n i es rs).
Proof.
  revert i es rs. induction n as [|n IH]; intros i es rs; cbn [RaftCore.apply_result_loop]; [ckeeps_tac|].
  ckeeps_tac. rw /RaftCore.send_response. ckeeps_tac.
Qed.
Lemma kept_handle_apply_result res : kept (RaftCore.handle_apply_result res).
Proof. apply kept_apply_loop. Qed.
#[local] Hint Resolve kept_handle_apply_result : ckeeps.
Lemma kept_sm_response res : kept (RaftCore.handle_sm_response res).
Proof. rw /RaftCore.handle_sm_response. ckeeps_tac. Qed.
#[local] Hint Resolve kept_sm_response : ckeeps.
Lemma kept_notification n : kept (RaftCore.handle_notification n).
Proof. rw /RaftCore.handle_notification. ckeeps_tac. Qed.

(** *** Commands *)
Lemma kept_vote_requests req : kept (RaftCore.spawn_parallel_vote_requests req).
Proof. rw /RaftCore.spawn_parallel_vote_requests. ckeeps_tac. Qed.
#[local] Hint Resolve kept_vote_requests : ckeeps.
Lemma kept_execute cmd : cmd_moves cmd = [] → kept (RaftCore.execute cmd).
Proof.
  destruct cmd as [| | | | | | | | | | | | |cmd|]; try done; intros Hm; [..|destruct cmd|]; try done; cbn [RaftCore.execute];
    ckeeps_tac.
Qed.

(** A range of entries is not empty. *)
Definition run_ok (m : Move) : Prop := match m with Run first next => (first < next)%N | _ => True end.

(** What is told from the start, and when the commit position was [n]. *)
Record apply_ok (n : N) c : Prop := {
  ao_api : Forall msg_quiet c.(rx_api);
  ao_chain : moves_chain n (told c) (next_commit c.(rt));
  ao_runs : Forall run_ok (sent_moves c);
}.

Lemma apply_ok_capplies n c c' : capplies c c' → apply_ok n c → apply_ok n c'.
Proof.
  intros [Ha Hs (ms & Hm & Hch)] [A1 A2 A3]. split; rw ?Ha ?Hs; try done.
  rw /told Hs Hm app_assoc. by eapply moves_chain_app.
Qed.

(** A command leaves the queue, and its moves are sent. *)
Lemma apply_ok_pop n c c' cmd rest :
  commands_of c.(rt) = cmd :: rest → c'.(rx_api) = c.(rx_api) → commands_of c'.(rt) = rest →
  next_commit c'.(rt) = next_commit c.(rt) → sent_moves c' = sent_moves c ++ cmd_moves cmd →
  Forall run_ok (cmd_moves cmd) → apply_ok n c → apply_ok n c'.
Proof.
  intros Hq Ha Hr Hn Hs Hok [A1 A2 A3]. split; rw ?Ha ?Hn ?Hs; [done| |by apply Forall_app].
  revert A2. rw /told Hs Hr Hq. change (moves_of (cmd :: rest)) with (cmd_moves cmd ++ moves_of rest). by rw app_assoc.
Qed.
Lemma moves_chain_app_inv n ms ms' m : moves_chain n (ms ++ ms') m → ∃ k, moves_chain n ms k ∧ moves_chain k ms' m.
Proof. revert n. induction ms as [|[first next|next|] ms IH]; intros n; cbn; [by exists n|intros [-> ?%IH]; naive_solver|apply IH|done]. Qed.
Lemma sm_send_inv cmd c b c' :
  sm_send cmd c = Done (b, c') → if b then c' = set_store c c.(store_calls) (c.(out) ++ [Eff_Sm cmd]) else c' = c.
Proof.
  rw /sm_send. intros (c0 & c1 & H & Hrun)%st_bind_inv. injection H as <- <-. destruct (sm_closed _).
  - by injection Hrun as <- <-.
  - apply st_bind_inv in Hrun as ([] & c2 & H & Hrun). injection H as <-. by injection Hrun as <- <-.
Qed.

Lemma execute_applies n cmd rest c c' :
  commands_of c.(rt) = cmd :: rest → RaftCore.execute cmd (with_queue c rest) = Done (ROk tt, c') →
  apply_ok n c → apply_ok n c'.
Proof.
  intros Hq Hrun Hc. destruct (decide (cmd_moves cmd = [])) as [Hm|Hm].
  { apply (apply_ok_capplies n (with_queue c rest)); [by apply (kept_execute cmd Hm) in Hrun|].
    apply (apply_ok_pop n c _ cmd rest); rw ?Hm; try done. by rw app_nil_r. }
  destruct cmd as [| | | | |already upto| | | | | | | |cmd|]; try done; [|destruct cmd as [| | |io sn|first last|]; try done].
  - apply st_bind_inv in Hrun as (s & c1 & H & Hrun). rw get_core_state_run in H. injection H as <- <-.
    apply st_bind_inv in Hrun as (first & c1 & [Hf ->]%lift_inv & Hrun).
    apply st_bind_inv in Hrun as ([] & c1 & [Hle ->]%lift_inv & Hrun).
    apply st_bind_inv in Hrun as (b & c1 & H%sm_send_inv & Hrun). destruct b; [|done]. injection Hrun as <-. rw H.
    destruct (get_log_id _ _) as [x|] eqn:Hx; [|done]. injection Hf as ->. apply ref_index in Hx.
    destruct (N.leb_spec first.(LogId.index) upto.(LogId.index)); [|done].
    apply (apply_ok_pop n c _ (Apply already upto) rest); try done.
    + by rw /sent_moves /= bind_app /= Hx.
    + apply Forall_singleton. cbn. lia.
  - apply st_bind_inv in Hrun as ([] & c1 & (r & Hr & ->)%engine_inv & Hrun).
    apply st_bind_inv in Hrun as (b & c2 & H%sm_send_inv & Hrun). destruct b; [|done]. injection Hrun as <-. rw H.
    assert (moved (with_queue c rest).(rt) r) as Hmv by by apply (keeps_io_submit io) in Hr as [].
    apply (apply_ok_capplies n (set_store (with_queue c rest) c.(store_calls) (c.(out) ++ [Eff_Sm (InstallFullSnapshot io sn)]))).
    { by split. }
    apply (apply_ok_pop n c _ (StateMachine (InstallFullSnapshot io sn)) rest); try done.
    + by rw /sent_moves /= bind_app.
    + by apply Forall_singleton.
  - exfalso. destruct Hc as [_ Hch _]. revert Hch. rw /told Hq. by intros (k & _ & ?)%moves_chain_app_inv.
Qed.

Lemma turn_applies n c c' : Cluster.turn c c' → apply_ok n c → apply_ok n c'.
Proof.
  intros [c1 c2 H|c1 c2 H|c1 c2 H|c1 m rest c2 Hq H|c1 m rest c2 Hq H|c1 cmd rest c2 Hq H|c1 c2 H|c1 e He|c1 d] Hc.
  - apply (apply_ok_capplies n c1); [|done]. apply (cr_engine _ keeps_startup _ _ _ H).
  - apply (apply_ok_capplies n c1); [|done]. by apply (ckeeps_flush_metrics capplies) in H.
  - apply (apply_ok_capplies n c1); [|done]. by apply (ckeeps_report_metrics capplies) in H.
  - destruct Hc as [A1 A2 A3]. rw Hq in A1. apply Forall_cons in A1 as [Hm A1].
    apply (apply_ok_capplies n (set_rx_api c1 rest)); [|by split]. by apply (kept_api_msg m Hm) in H.
  - apply (apply_ok_capplies n c1); [|done]. apply kept_notification in H as [? ? ?]. by split.
  - apply run_command_inv in H as [(_ & ? & _)|(_ & r & Hex & Hr)]; [done|]. destruct r as [[]|]; [|done].
    by eapply execute_applies.
  - apply (apply_ok_capplies n c1); [|done].
    assert (kept (l ← engine EngineImpl.leader_handler;
      match l with ROk _ => engine ReplicationHandler.initiate_replication | RErr _ => mret tt end)) as Hk by ckeeps_tac.
    by apply Hk in H.
  - by destruct Hc.
  - by destruct Hc.
Qed.
End runtime.

(** ** Runs of a node *)
Module Applies.
Section steps.
Context {C : RaftTypeConfig}.

(** The node takes a turn, or a message or a notification arrives. *)
Inductive step : Core → Core → Prop :=
| step_turn c c' : Cluster.turn c c' → step c c'
| step_message c m : msg_quiet m → step c (set_rx_api c (c.(rx_api) ++ [m]))
| step_notification c n : step c (set_rx_notification c (c.(rx_notification) ++ [n])).

(** A node that starts: it has told the worker nothing, and the worker has applied what is committed. *)
Record fresh (c : Core) : Prop := {
  fr_out : c.(out) = [];
  fr_commands : commands_of c.(rt) = [];
  fr_api : c.(rx_api) = [];
}.
End steps.
End Applies.

Section theorems.
Context {C : RaftTypeConfig}.
Implicit Types c : Core.

Lemma run_applies c0 c : Applies.fresh c0 → rtc Applies.step c0 c → apply_ok (next_commit c0.(rt)) c.
Proof.
  intros [H1 H2 H3] Hrun. assert (apply_ok (next_commit c0.(rt)) c0) as H0.
  { split; rw ?/told /sent_moves ?H1 ?H2 ?H3; done. }
  revert H0. generalize (next_commit c0.(rt)). clear H1 H2 H3. intros n.
  induction Hrun as [c|c1 c2 c3 Hst _ IH]; [done|]. intros H0. apply IH. destruct Hst as [c1 c2 Ht|c1 m Hm|c1 m].
  - by eapply turn_applies.
  - destruct H0 as [A1 A2 A3]. split; try done. cbn. apply Forall_app. by split; [|apply Forall_singleton].
  - by destruct H0.
Qed.

(** C8: what is committed is applied once, in order and without a gap: the ranges of entries the worker was
    sent start where the node started and each begins where the one before it ended, or after the
    snapshot installed in between; the commands that still wait lead from there to the commit position. *)
Theorem applies_in_order c0 c :
  Applies.fresh c0 → rtc Applies.step c0 c →
  Forall run_ok (sent_moves c) ∧ ∃ m, moves_chain (next_commit c0.(rt)) (sent_moves c) m ∧
    moves_chain m (moves_of (commands_of c.(rt))) (next_commit c.(rt)).
Proof. intros Hf [_ Hch Hr]%(run_applies c0); [|done]. split; [done|]. by apply moves_chain_app_inv. Qed.
End theorems.

(** ** With the worker *)
Section with_worker.
Context {C : RaftTypeConfig} {LS SM : Type}.
Context `{!RaftLogStorage.RaftLogStorage LS, !LogStoreLaws LS}.
Context `{!RaftStateMachine.RaftStateMachine SM, !StateMachineLaws SM}.
Context (funcs : N → option (SM → SM)).
Implicit Types (c : Core) (w : Worker LS SM).

(** The commands sent to the worker, and those it received. *)
Definition eff_worker (e : Effect) : option SmCommand := match e with Eff_Sm cmd => Some cmd | _ => None end.
Definition worker_commands c : list SmCommand := omap eff_worker c.(out).
Definition received (events : list WorkerEvent) : list SmCommand :=
  omap (λ ev, match ev with W_Command cmd => Some cmd | W_BuildDone => None end) events.
(** No snapshot is installed, and no closure of the application changes the state machine. *)
Definition only_applies (cmd : SmCommand) : Prop :=
  match cmd with InstallFullSnapshot _ _ | Func _ => False | _ => True end.

Lemma sent_worker c : sent_moves c = worker_commands c ≫= sm_moves.
Proof.
  rw /sent_moves /worker_commands. induction (out c) as [|e es IH]; [done|]. rw bind_cons IH. by destruct e.
Qed.

Lemma applied_upto_moves n events m :
  moves_chain n (received events ≫= sm_moves) m → Forall run_ok (received events ≫= sm_moves) →
  Forall only_applies (received events) → applied_upto n events = Some m.
Proof.
  revert n. induction events as [|[cmd|] events IH]; intros n; [by intros ->| |by apply IH].
  change (received (W_Command cmd :: events)) with (cmd :: received events).
  rw bind_cons. intros Hch Hok Ho. apply Forall_cons in Ho as [Hc Ho]. apply Forall_app in Hok as [Hok1 Hok].
  destruct cmd as [| | | |first last|]; try done; cbn in Hch |- *; [by apply IH..|].
  destruct Hch as [<- Hch]. apply Forall_inv in Hok1 as Hlt. cbn [run_ok] in Hlt.
  destruct (N.eqb_spec first.(LogId.index) first.(LogId.index)); [|done].
  destruct (N.leb_spec first.(LogId.index) last.(LogId.index)); [|lia]. by apply IH.
Qed.

(** [RaftCore] and the worker together: when the commands of [RaftCore] have been executed and the
    worker has gone through what it was sent, whatever snapshot builds finish in between, the state
    machine is the one it started with after exactly the entries committed since, in order. *)
Theorem committed_entries_applied c0 c w events :
  (∀ e, ¬ (log_error (LS := LS) e ∨ sm_error (SM := SM) e)) →
  Applies.fresh c0 → rtc Applies.step c0 c → commands_of c.(rt) = [] →
  received events = worker_commands c → Forall only_applies (worker_commands c) →
  let v := log_of w in
  worker_inv w → log_ok v → (next_index v.(lv_purged) ≤ next_commit c0.(rt))%N →
  (next_commit c.(rt) ≤ next_index (LogSpec.last_log_id v))%N →
  ∃ w' ns, Worker.do_spawn funcs events w = Done (tt, w') ∧ w'.(w_sent) = w.(w_sent) ++ ns ∧
    sm_view w'.(w_sm) = foldl sm_step (sm_view w.(w_sm)) (LogSpec.read v (next_commit c0.(rt)) (next_commit c.(rt))).
Proof.
  intros Hrel Hf Hrun Hq Hev Ho v Hi Hok Hp Hl. destruct (run_applies c0 c Hf Hrun) as [_ Hch Hr].
  rw /told Hq app_nil_r sent_worker -Hev in Hch. rw sent_worker -Hev in Hr. rw -Hev in Ho.
  pose proof (applied_upto_moves _ _ _ Hch Hr Ho) as Hu.
  destruct (worker_loop_run funcs Hrel events w _ _ Hi Hok Hp Hu Hl) as (w' & ns & Hloop & _ & (_ & _ & Hsent & Hv) & _).
  exists w', ns. split; [|done]. by rw /Worker.do_spawn (st_bind_run _ _ _ _ _ Hloop).
Qed.
End with_worker.

(** ** Witnesses: a learner that is told what is committed, with the in-memory store *)
Section ut.
#[local] Existing Instances MemConfig entry_json entry_json_laws sm_json sm_json_laws.

(** Node 2 has the entries 0 to 3 of the fixture in its log, and none is committed. *)
Definition ut_learner : Core :=
  let s := {|
    RaftState.vote := Leased.without_last_update (Vote_new_committed 2 1);
    RaftState.committed := None; RaftState.purged_next := 0;
    RaftState.log_ids := LogIdList.new [mem_id 0 0; mem_id 1 1; mem_id 2 3];
    RaftState.membership_state := MembershipState.default; RaftState.snapshot_meta := SnapshotMeta.default;
    RaftState.server_state := Learner; RaftState.io_state := IOState.default; RaftState.purge_upto := None |} in
  core_at 2 (run_at 1000 (Engine.new s (EngineConfig.new_default 2))).
Definition ut_commit (upto : LogId) : RaftMsg :=
  Msg_AppendEntries {| areq_vote := Vote_new_committed 2 1; areq_prev_log_id := Some (mem_id 2 3);
    areq_entries := []; areq_leader_commit := Some upto |} 7%N.
Definition ut_tell (c : Core) (m : RaftMsg) : Core := after main_round (set_rx_api c (c.(rx_api) ++ [m])).
Definition ut_told : Core := ut_tell (ut_tell ut_learner (ut_commit (mem_id 1 1))) (ut_commit (mem_id 2 3)).

Lemma ut_tell_run c m : msg_quiet m → ok_run main_round (set_rx_api c (c.(rx_api) ++ [m])) = true →
  rtc Applies.step c (ut_tell c m).
Proof.
  intros Hm Hok%after_turns. eapply rtc_l; [by apply Applies.step_message|]. rw /ut_tell.
  revert Hok. generalize (after main_round (set_rx_api c (c.(rx_api) ++ [m]))) as c2. intros c2.
  induction 1 as [|c3 c4 c5 Ht _ IH]; [apply rtc_refl|]. eapply rtc_l; [by apply Applies.step_turn|exact IH].
Qed.
Lemma ut_told_run : rtc Applies.step ut_learner ut_told.
Proof. etrans; [apply ut_tell_run|apply ut_tell_run]; [done|by vm_compute|done|by vm_compute]. Qed.
Lemma ut_learner_fresh : Applies.fresh ut_learner.
Proof. by split. Qed.

Lemma applies_in_order_witness :
  sent_moves ut_told = [Run 0 2; Run 2 4] ∧ commands_of ut_told.(rt) = [] ∧ Forall run_ok (sent_moves ut_told) ∧
  ∃ m, moves_chain 0 (sent_moves ut_told) m ∧ moves_chain m [] 4.
Proof.
  split; [by vm_compute|]. split; [by vm_compute|].
  destruct (applies_in_order ut_learner ut_told ut_learner_fresh ut_told_run) as (Hok & m & H1 & H2).
  split; [exact Hok|]. exists m. split; [exact H1|].
  assert (moves_of (commands_of ut_told.(rt)) = []) as Hq by by vm_compute.
  assert (next_commit ut_told.(rt) = 4%N) as Hn by by vm_compute. by rw Hq Hn in H2.
Defined.

(** The worker of the fixture, which also builds a snapshot in between. *)
Definition ut_worker_events : list WorkerEvent :=
  [W_Command (SmApply (mem_id 0 0) (mem_id 1 1)); W_BuildDone; W_Command (SmApply (mem_id 1 2) (mem_id 2 3))].

Lemma committed_entries_applied_witness :
  ∃ w' ns, Worker.do_spawn (λ _, None) ut_worker_events mem_worker = Done (tt, w') ∧
    w'.(w_sent) = mem_worker.(w_sent) ++ ns ∧
    sm_view w'.(w_sm) = foldl sm_step (sm_view mem_worker.(w_sm)) (LogSpec.read (log_of mem_worker) 0 4).
Proof.
  destruct mem_crashed_view as (Hi & Hv & Hok).
  assert (∀ e, ¬ (log_error (LS := MemLogStore.MemLogStore) e ∨ sm_error (SM := MemStateMachine.MemStateMachine) e)) as Hno
    by (by intros e []).
  assert (next_commit ut_told.(rt) = 4%N) as Hn by by vm_compute.
  assert (worker_commands ut_told = received ut_worker_events) as Hw by by vm_compute.
  assert (log_of mem_worker = foldl (spec_op true) (mem_view MemLogStore.new) (take 3 mem_ops)) as Hlog by exact Hv.
  destruct (committed_entries_applied (λ _, None) ut_learner ut_told mem_worker ut_worker_events) as (w' & ns & H);
    [exact Hno|apply ut_learner_fresh|apply ut_told_run|by vm_compute|by rw Hw|by rw Hw; repeat constructor|by split
    |exact Hok|rw Hlog; by vm_compute|rw Hn Hlog; by vm_compute|].
  exists w', ns. rw Hn in H. exact H.
Defined.
End ut.
