(* ===== verification/Scenarios.v ===== *)
(** * Scenarios: concrete runs of the engine

    Runs that end in a failed assertion or in a state that contradicts the documentation, each on
    the unit-test configuration and evaluated to the end.  They are the evidence of the findings. *)

From S2P Require Export Election Purge CoreRun.

(** The message of a panic, if any. *)
Definition panic_of {A} (o : Outcome A) : option string :=
  match o with Done _ => None | Panic why => Some why end.

Section scenarios.
#[local] Existing Instance UTConfig.

(** A refused vote request is answered with a vote below the requested one. *)
Lemma vote_response_below_request :
  let req := {| vreq_vote := Vote_new 5 1; vreq_last_log_id := Some (ut_log_id 1 1 2) |} in
  match EngineImpl.handle_vote_req req (ut_rt 2) with
  | Done (resp, _) => vote_lt resp.(vresp_vote) req.(vreq_vote)
  | Panic _ => False
  end.
Proof. by vm_compute. Qed.

Definition purge_config (keep batch : N) : EngineConfig.EngineConfig := {|
  EngineConfig.id := 1; EngineConfig.snapshot_policy := Never;
  EngineConfig.max_in_snapshot_log_to_keep := keep; EngineConfig.purge_batch_size := batch;
  EngineConfig.max_payload_entries := 300; EngineConfig.allow_log_reversion := false;
  EngineConfig.timer_config := TimeState.default |}.

Definition snapshot_at (x : LogId) : SnapshotMeta := {|
  meta_last_log_id := Some x;
  last_membership := {| stored_log_id := Some (ut_log_id 1 1 0); stored_membership_ := ut_m12 |};
  snapshot_id := "" |}.

(** With [purge_batch_size = 0] the purge policy underflows when there is nothing to purge. *)
Lemma zero_batch_underflow :
  panic_of (EngineImpl.finish_building_snapshot (snapshot_at (ut_log_id 1 1 2))
              (run_at 0 (Engine.new ut_state (purge_config 1000 0)))) =
  Some "attempt to subtract with overflow".
Proof. by vm_compute. Qed.

(** A purge is requested up to entry 2 while the leader replicates it, so it is postponed; then a
    snapshot of the entries up to 3 is built, and the policy wants less to be purged. *)
Definition busy_leader_rt : Rt :=
  let s := RaftState.set_committed (RaftState.set_snapshot_meta ut_state (snapshot_at (ut_log_id 1 1 2)))
             (Some (ut_log_id 1 1 3)) in
  let e := Engine.new s (purge_config 2 1) in
  run_at 0 (Engine.set_leader e (Some ut_busy_leader)).

Lemma schedule_goes_back :
  panic_of ((_ ← EngineImpl.trigger_purge_log 2;
             EngineImpl.finish_building_snapshot (snapshot_at (ut_log_id 1 1 3))) busy_leader_rt) =
  Some "self.state.purge_upto() <= Some(&purge_upto)".
Proof. by vm_compute. Qed.

(** A follower with uncommitted entries 3 (a membership) of a lost leader installs a snapshot beyond
    the end of its log: the log is replaced, but the uncommitted membership stays in effect. *)
Definition diverged_state : RaftState.RaftState :=
  let m := EffectiveMembership.new (Some (ut_log_id 1 1 0)) ut_m12 in
  let m' := EffectiveMembership.new (Some (ut_log_id 2 2 3)) ut_m12_23 in
  RaftState.set_membership_state
    (RaftState.set_log_ids ut_state (LogIdList.new [ut_log_id 1 1 0; ut_log_id 2 2 3])) (MembershipState.new m m').

Lemma stale_membership_survives_snapshot :
  let r := run_at 0 (Engine.new diverged_state (EngineConfig.new_default 3)) in
  let snapshot := {| meta := snapshot_at (ut_log_id 3 1 5); snapshot_data := tt |} in
  match EngineImpl.handle_install_full_snapshot (Vote_new_committed 3 1) snapshot 0 r with
  | Done (_, r') =>
      let s' := state_of r' in
      LogIdList.first s'.(RaftState.log_ids) = Some (ut_log_id 3 1 5) ∧
      effective_id s' = Some (ut_log_id 2 2 3) ∧ ref_log_id s' 3 = None
  | Panic _ => False
  end.
Proof. by vm_compute. Qed.

(** A follower that has committed entry 3 appended the memberships 4 and 6, so it knows that 4 is
    committed; a snapshot that conflicts at entry 7 makes it delete from entry 4 on. *)
Definition lagging_commit_state : RaftState.RaftState :=
  let m := EffectiveMembership.new (Some (ut_log_id 1 1 4)) ut_m12_23 in
  let m' := EffectiveMembership.new (Some (ut_log_id 1 1 6)) ut_m12 in
  RaftState.set_committed (RaftState.set_membership_state
    (RaftState.set_log_ids ut_state (LogIdList.new [ut_log_id 1 1 0; ut_log_id 2 2 7])) (MembershipState.new m m'))
    (Some (ut_log_id 1 1 3)).

Lemma snapshot_truncates_committed_membership :
  let r := run_at 0 (Engine.new lagging_commit_state (EngineConfig.new_default 3)) in
  let snapshot := {| meta := snapshot_at (ut_log_id 3 1 7); snapshot_data := tt |} in
  panic_of (EngineImpl.handle_install_full_snapshot (Vote_new_committed 3 1) snapshot 0 r) =
  Some "committed log should never be truncated".
Proof. by vm_compute. Qed.

(** An election triggered on the leader itself: it keeps leading with its old vote, and the next
    client request fails the assertion of [leader_handler]. *)
Lemma elect_on_leader :
  panic_of ((_ ← EngineImpl.elect; EngineImpl.get_leader_handler_or_reject None) ut_leader_rt) =
  Some "leader.vote >= state.vote".
Proof. by vm_compute. Qed.

(** A node that led and has a client waiting for entry 6 is sent a snapshot up to entry 8 by the next
    leader.  The snapshot is installed, but the client is neither answered nor dropped. *)
Definition install_on_former_leader : CM unit :=
  _ ← st_put (set_rx_api (set_clients (ut_core 2) {[ 6%N := 9%N ]}) [Msg_InstallFullSnapshot ut_vote4 ut_snapshot 7%N]);
  _ ← RaftCore.runtime_round (Balancer.new 100);
  _ ← notify (N_StateMachine (ROk (Resp_InstallSnapshot
        (IOId.new_log_io (to_committed ut_vote4) (Some (ut_log_id 4 1 8))) (Some ut_snapshot.(meta)))));
  _ ← RaftCore.runtime_round (Balancer.new 100);
  mret tt.

Lemma client_waits_for_replaced_entry :
  wp install_on_former_leader (λ _ c,
    Config.io_applied (core_state c) = Some (ut_log_id 4 1 8) ∧ commands_of c.(rt) = [] ∧
    c.(client_resp_channels) !! 6%N = Some 9%N ∧ answered c = []) (ut_core 2).
Proof. by vm_compute. Qed.
End scenarios.

(** ** A leader that restarts gives out a log id twice

    A node that was the leader when it crashed leads again with the same vote as soon as it is back.
    What it had appended but not flushed is lost, although followers may have it and it may even be
    committed: it is committed once a quorum has flushed it, and the leader need not be in the quorum.
    The new entries of the leader get the lost log ids again, and a follower that has the old entry takes
    the new one for it, since it compares log ids only. *)
Section restarted_leader.

(** Standard Raft with numbers as application data. *)
Definition NumConfig : RaftTypeConfig := {|
  D := N; R := unit; Node := unit; SnapshotData := unit;
  LeaderId := LeaderIdStd.LeaderId; CommittedLeaderId := LeaderIdStd.CommittedLeaderId;
|}.
#[local] Existing Instance NumConfig.

Definition num_id (i : N) : LogId := {| leader_id := {| LeaderIdStd.cterm := 1 |}; index := i |}.
Definition num_entry (i d : N) : Entry := {| entry_log_id := num_id i; payload := Normal d |}.

(** Node [id] of the voters [nodes] with the entries up to [last] in its log, as it is read back: it
    knows of node 1 as the leader of term 1. *)
Definition num_node_of (nodes : gmap NodeId Node) (id last : N) : Core :=
  let m := EffectiveMembership.new (Some (num_id 0)) (Membership.from_nodes nodes) in
  let io := IOState.new (Vote_new_committed 1 1) (Some (num_id 2)) None None in
  let s := {|
    RaftState.vote := Leased.without_last_update (Vote_new_committed 1 1);
    RaftState.committed := Some (num_id 2); RaftState.purged_next := 0;
    RaftState.log_ids := LogIdList.new [num_id 0; num_id last];
    RaftState.membership_state := MembershipState.new m m; RaftState.snapshot_meta := SnapshotMeta.default;
    RaftState.server_state := Follower;
    RaftState.io_state := match io with Done io => io | Panic _ => IOState.default end;
    RaftState.purge_upto := None |} in
  core_at id (run_at 1000 (Engine.new s (EngineConfig.new_default id))).
Definition num_node : N → N → Core := num_node_of {[1%N := tt; 2%N := tt; 3%N := tt]}.

Definition receive (m : RaftMsg) : CM unit :=
  _ ← st_modify (λ c, set_rx_api c (c.(rx_api) ++ [m])); _ ← RaftCore.runtime_round (Balancer.new 100); mret tt.
Definition replicated (target : NodeId) (upto : N) : CM unit :=
  _ ← notify (N_ReplicationProgress {| repl_target := target; repl_result := ROk (ROk (Some (num_id upto)));
    repl_session_id := ReplicationSessionId_new (to_committed (Vote_new_committed 1 1)) (Some (num_id 0)) |});
  _ ← RaftCore.runtime_round (Balancer.new 100); mret tt.

(** Node 1 leads from the log up to entry 4: it takes a write, and nodes 2 and 3 acknowledge entry 5. *)
Definition lead_and_write (d : N) : CM unit :=
  _ ← RaftCore.start; _ ← receive (Msg_ClientWriteRequest d 9%N);
  _ ← replicated 2 4; _ ← replicated 2 5; _ ← replicated 3 4; replicated 3 5.

Definition appended (c : Core) : list Entry :=
  c.(out) ≫= λ e, match e with Eff_Store (Store_Append es _) => es | _ => [] end.
Definition flushed_of (c : Core) : option IOId := flushed (core_state c).(RaftState.io_state).(io_progress).

Lemma restarted_leader_reuses_log_id :
  (* the leader commits 100 as entry 5 before its own write is flushed *)
  wp (lead_and_write 100) (λ _ c, Config.committed (core_state c) = Some (num_id 5) ∧
    appended c = [num_entry 5 100] ∧
    flushed_of c = Some (IOId.new_log_io (to_committed (Vote_new_committed 1 1)) (Some (num_id 4)))) (num_node 1 4) ∧
  (* back without entry 5, it leads at once and commits 200 as entry 5 *)
  wp (lead_and_write 200) (λ _ c, Config.committed (core_state c) = Some (num_id 5) ∧
    appended c = [num_entry 5 200]) (num_node 1 4) ∧
  (* a follower that has 100 as entry 5 accepts 200, and keeps 100 *)
  wp (_ ← RaftCore.start;
      receive (Msg_AppendEntries {| areq_vote := Vote_new_committed 1 1; areq_prev_log_id := Some (num_id 4);
        areq_entries := [num_entry 5 200]; areq_leader_commit := Some (num_id 2) |} 7%N))
    (λ _ c, c.(out) = [Eff_Respond (Respond_AppendEntries Success 7%N)] ∧ commands_of c.(rt) = []) (num_node 2 5).
Proof. split_and!; by vm_compute. Qed.

(** A leader of five voters with the entries up to 3 takes two writes, of which it has flushed the first.
    Node 2 acknowledges entry 3 and then entry 5, so it overtakes the leader, but stays behind it in the
    progress; then node 3 acknowledges entries 3 and 5. *)
Definition five_voters : gmap NodeId Node := {[1%N := tt; 2%N := tt; 3%N := tt; 4%N := tt; 5%N := tt]}.
Definition lead_five : CM unit :=
  _ ← RaftCore.start; _ ← receive (Msg_ClientWriteRequest 100%N 9%N); _ ← receive (Msg_ClientWriteRequest 200%N 8%N);
  _ ← notify (N_LocalIO (IOId.new_log_io (to_committed (Vote_new_committed 1 1)) (Some (num_id 4))));
  _ ← RaftCore.runtime_round (Balancer.new 100);
  _ ← replicated 2 3; _ ← replicated 2 5; _ ← replicated 3 3; replicated 3 5.

(** What the replication progress of the leader says of the voters. *)
Definition matching_of (c : Core) : list (NodeId * option LogId) :=
  match c.(rt).(eng).(Engine.leader) with
  | Some l => (λ e, (e.1, matching e.2)) <$> vector l.(Leader.progress)
  | None => []
  end.

(** The leader commits entry 5, which two of the five voters have. *)
Lemma two_of_five_commit :
  wp lead_five (λ _ c, Config.committed (core_state c) = Some (num_id 5) ∧
    matching_of c = [(1%N, Some (num_id 4)); (2%N, Some (num_id 5)); (3%N, Some (num_id 5)); (4%N, None); (5%N, None)])
    (num_node_of five_voters 1 3).
Proof. by vm_compute. Qed.
End restarted_leader.
