(* ===== verification/Startup.v ===== *)
(** * Starting a node (openraft/src/raft/mod.rs, raft/runtime_config_handle.rs)

    [Startup.new] is [Raft::new]: it reads the state of the node back from its stores, makes the engine, and
    puts together the tasks of the node and the handle of the application.  The record [Node] holds them; each is
    modelled in its own file.  The theorems connect them: a node made from lawful stores is one that the
    theorems on clusters ([Cluster.booted]) and on the state machine ([Applies.fresh]) start from. *)

From S2P Require Export ConfigText Tick RaftApi Applies.

Record Node {C : RaftTypeConfig} (LS SM : Type) := {
  handle : Raft;
  node_core : Core;
  log_store : LS;
  sm_worker : Worker LS SM;
  tick_handle : TickHandle;
  tick_interval : Duration;
}.
Arguments handle {C LS SM} _.
Arguments node_core {C LS SM} _.
Arguments log_store {C LS SM} _.
Arguments sm_worker {C LS SM} _.
Arguments tick_handle {C LS SM} _.
Arguments tick_interval {C LS SM} _.

(** What the new node finds: the number drawn for its election timeout, the clock and how it goes on, and the
    faults of the log store. *)
Record World {C : RaftTypeConfig} := {
  wo_rand : N;
  wo_now : Instant;
  wo_drift : nat → Duration;
  wo_store_fault : nat → option StorageError;
}.

(** [RaftDataMetrics::default] and [RaftServerMetrics::default] *)
Definition data_metrics_default {C : RaftTypeConfig} : RaftDataMetrics := {|
  dm_last_log := None; dm_last_applied := None; dm_snapshot := None; dm_purged := None;
  dm_millis_since_quorum_ack := None; dm_last_quorum_acked := None; dm_replication := None; dm_heartbeat := None |}.
Definition server_metrics_default {C : RaftTypeConfig} : RaftServerMetrics := {|
  sm_id := 0%N; sm_vote := Vote_default; sm_state := Learner; sm_current_leader := None;
  sm_membership_config := {| stored_log_id := None; stored_membership_ := Membership.default |} |}.

Module Startup.
Section ops.
Context {C : RaftTypeConfig} {LS SM : Type}.
Context `{!RaftLogStorage.RaftLogStorage LS} `{!RaftStateMachine.RaftStateMachine SM}.

(** The record [RaftCore] that [Raft::new] fills in; the channels are open and empty. *)
Definition new_core (id : NodeId) (config : Config.Config) (runtime : RuntimeConfig.RuntimeConfig) (w : World)
    (engine : Engine.Engine) : Core := {|
  env := {| ce_id := id; ce_config := config; enable_heartbeat := runtime.(RuntimeConfig.enable_heartbeat);
            enable_elect := runtime.(RuntimeConfig.enable_elect); store_fault := w.(wo_store_fault);
            sm_closed := false; api_closed := false; rx_shutdown := false |};
  rt := {| eng := engine; clock := w.(wo_now); readings := 0; drift := w.(wo_drift); sent := [] |};
  client_resp_channels := ∅; replications := ∅; heartbeat_handle := Heartbeat.new;
  rx_api := []; rx_notification := [];
  tx_metrics := new_initial id; tx_data_metrics := data_metrics_default; tx_server_metrics := server_metrics_default;
  store_calls := 0; out := [] |}.

Definition new_inner (id : NodeId) (config : Config.Config) : Raft := {|
  inner_id := id; inner_config := config; core_task := Core_Running; joiner_dropped := false;
  has_tx_shutdown := true; inner_snapshot := None; api_sent := []; api_calls := 0 |}.

Definition new (w : World) (id : NodeId) (config : Config.Config) (log_store : LS) (state_machine : SM) :
    Outcome (Result (Node LS SM) Fatal) :=
  let tick := Tick.spawn config.(Config.enable_tick) in
  let runtime := RuntimeConfig.new config in
  election_timeout ← ConfigText.new_rand_election_timeout config w.(wo_rand);
  let eng_config := EngineConfig.new id config election_timeout in
  r ← StorageHelper.get_initial_state w.(wo_now) (log_store, state_machine);
  match r with
  | (RErr e, _) => Done (RErr (Fatal_StorageError e))
  | (ROk state, (log_store, state_machine)) =>
      Done (ROk {|
        handle := new_inner id config;
        node_core := new_core id config runtime w (Engine.new state eng_config);
        log_store := log_store;
        sm_worker := Worker.spawn log_store state_machine;
        tick_handle := tick;
        tick_interval := config.(Config.heartbeat_interval) * 3 / 2 |})
  end.
End ops.
End Startup.

(** ** The runtime configuration: flags that the handle shares with [RaftCore] and the tick task *)
Module RuntimeConfigHandle.
Section ops.
Context {C : RaftTypeConfig} {LS SM : Type}.
Implicit Types n : Node LS SM.

Definition with_core n (c : Core) : Node LS SM := {|
  handle := n.(handle); node_core := c; log_store := n.(log_store); sm_worker := n.(sm_worker);
  tick_handle := n.(tick_handle); tick_interval := n.(tick_interval) |}.
Definition set_flags (e : CoreEnv) (heartbeat elect : bool) : CoreEnv := {|
  ce_id := e.(ce_id); ce_config := e.(ce_config); enable_heartbeat := heartbeat; enable_elect := elect;
  store_fault := e.(store_fault); sm_closed := e.(sm_closed); api_closed := e.(api_closed);
  rx_shutdown := e.(rx_shutdown) |}.

Definition tick n (enabled : bool) : Node LS SM := {|
  handle := n.(handle); node_core := n.(node_core); log_store := n.(log_store); sm_worker := n.(sm_worker);
  tick_handle := Tick.enable n.(tick_handle) enabled; tick_interval := n.(tick_interval) |}.
Definition heartbeat n (enabled : bool) : Node LS SM :=
  let c := n.(node_core) in with_core n (set_env c (set_flags c.(env) enabled c.(env).(enable_elect))).
Definition elect n (enabled : bool) : Node LS SM :=
  let c := n.(node_core) in with_core n (set_env c (set_flags c.(env) c.(env).(enable_heartbeat) enabled)).
End ops.
End RuntimeConfigHandle.

(** The getters of the handle: what it was made with, and what [RaftCore] published last. *)
Module Getters.
Section ops.
Context {C : RaftTypeConfig} {LS SM : Type}.
Implicit Types n : Node LS SM.
Definition config n : Config.Config := n.(handle).(inner_config).
Definition metrics n : RaftMetrics := n.(node_core).(tx_metrics).
Definition data_metrics n : RaftDataMetrics := n.(node_core).(tx_data_metrics).
Definition server_metrics n : RaftServerMetrics := n.(node_core).(tx_server_metrics).
End ops.
End Getters.

(** What the flags do: with elections disabled a tick does not make a node a candidate, and with the tick
    disabled none is sent. *)
Lemma elect_disabled {C : RaftTypeConfig} c : c.(env).(enable_elect) = false →
  wp RaftCore.handle_tick_election (λ _ c', c'.(rt).(eng) = c.(rt).(eng) ∧ c'.(out) = c.(out)) c.
Proof.
  intros He. rw /RaftCore.handle_tick_election. apply wp_bind. rw /wp /=. rw /mbind /st_bind /=.
  destruct (bool_decide _); [done|]. destruct (negb (EffectiveMembership.is_voter _ _)); [done|]. by rw He.
Qed.
Lemma tick_disabled {C : RaftTypeConfig} i (events : list TickEvent) :
  Forall (λ e, match e with TickSlept enabled _ => enabled = false | TickCancel => True end) events →
  (Tick.tick_loop i events).1 = [].
Proof. induction 1 as [|[|en rc] events He _ IH]; [done..|]. cbn in He |- *. by rw He. Qed.

(** ** A node that is made from lawful stores *)
Section ready.
Context {C : RaftTypeConfig} {LS SM : Type}.
Context `{!RaftLogStorage.RaftLogStorage LS, !LogStoreLaws LS}.
Context `{!RaftStateMachine.RaftStateMachine SM, !StateMachineLaws SM}.
Implicit Types (n : Node LS SM) (w : World) (config : Config.Config).

(** The node after the effects [o] of its earlier lives. *)
Definition reborn (o : list Effect) c : Core := set_store c c.(store_calls) o.

(** What holds of a node [n] started from the stores [st]. *)
Record ready (id : NodeId) config (st : LS * SM) n : Prop := {
  rd_state : raft_state_ok (core_state n.(node_core)) ∧ membership_ok (core_state n.(node_core));
  rd_committed : (core_state n.(node_core)).(RaftState.committed) = recovered (view st) (sv_applied (sm_of st));
  rd_stores : stores_inv (n.(log_store), n.(sm_worker).(w_sm)) ∧ n.(sm_worker).(w_log) = n.(log_store);
  rd_log : log_ok (log_view n.(log_store)) ∧
    log_view n.(log_store) = cleaned (view st) (recovered (view st) (sv_applied (sm_of st))) ∧
    ∀ i, ref_log_id (core_state n.(node_core)) i = LogSpec.ref (log_view n.(log_store)) i;
  rd_purged : (log_view n.(log_store)).(lv_purged) ⪯ recovered (view st) (sv_applied (sm_of st));
  rd_applied : sm_view n.(sm_worker).(w_sm) =
    foldl sm_step (sm_of st) (LogSpec.read (view st) (next_index (sv_applied (sm_of st)))
                                (next_index (recovered (view st) (sv_applied (sm_of st)))));
  rd_fresh : Applies.fresh n.(node_core);
  rd_booted : ∀ (P : Membership → Prop) (o : list Effect),
    default Vote_default (list.last (o ≫= eff_saves)) = default Vote_default (view st).(lv_vote) →
    member_ok P (sv_membership (sm_of st)).(stored_membership_) →
    (∀ i x, (view st).(lv_log) !! i = Some x → entry_ok P x) →
    Cluster.booted P id o (reborn o n.(node_core));
  rd_flags : n.(node_core).(env).(enable_heartbeat) = config.(Config.enable_heartbeat) ∧
    n.(node_core).(env).(enable_elect) = config.(Config.enable_elect) ∧
    n.(tick_handle).(tick_enabled) = config.(Config.enable_tick) ∧ Getters.config n = config;
}.

Lemma new_core_booted P id config rc w s o timeout :
  default Vote_default (list.last (o ≫= eff_saves)) = RaftState.vote_ref s →
  member_ok P (EffectiveMembership.membership s.(RaftState.membership_state).(ms_committed)) →
  member_ok P (EffectiveMembership.membership s.(RaftState.membership_state).(ms_effective)) →
  Cluster.booted P id o (reborn o (Startup.new_core id config rc w (Engine.new s (EngineConfig.new id config timeout)))).
Proof. intros Ho Hc He. by split. Qed.

Lemma startup_run w id config (log : LS) (sm : SM) :
  stores_inv (log, sm) →
  boot_ok (log_view log) (sv_applied (sm_view sm)) (sv_membership (sm_view sm)) (sm_snapshot sm) →
  (config.(Config.election_timeout_min) < config.(Config.election_timeout_max))%N →
  match Startup.new w id config log sm with
  | Done (ROk n) => ready id config (log, sm) n
  | Done (RErr f) => ∃ e, f = Fatal_StorageError e ∧ boot_error (LS := LS) (SM := SM) e
  | Panic _ => False
  end.
Proof.
  intros Hi Hb Ht. rw /Startup.new /ConfigText.new_rand_election_timeout. destruct (N.ltb_spec (Config.election_timeout_min config)
    (Config.election_timeout_max config)) as [_|]; [|lia]. cbn [assert_ mbind outcome_bind].
  pose proof (initial_state_run w.(wo_now) (log, sm) Hi Hb) as Hrun. rw /wpr /wp in Hrun.
  destruct (StorageHelper.get_initial_state (wo_now w) (log, sm)) as [[[s|e] [log' sm']]|]; [|by exists e|done].
  destruct Hrun as (Hs & Hm & Hv & _ & Hc & _ & _ & Hi' & Hcl & Hsm & Href & Hok & Hp & _ & Hq).
  split; try done.
  intros P o Ho Hmem Hlog. destruct (Hq (member_ok P) Hmem) as [Hqc Hqe].
  { intros i x m Hx Hm0. by eapply Hlog. }
  apply new_core_booted; [|done..]. rw Hv Ho. by destruct (lv_vote _).
Qed.

(** C20: [Raft::new] puts a node together that can take part in a cluster.  Started from lawful stores that a
    stopped node left, with a valid range of election timeouts, it does not panic, and fails only with an
    error of the stores.  The new node has applied everything that is known to be committed, holds the log
    and the vote that were saved, has told its tasks nothing yet, and is a node that restarts in the sense
    of the cluster. *)
Theorem raft_new_ready w id config (log : LS) (sm : SM) :
  stores_inv (log, sm) →
  boot_ok (log_view log) (sv_applied (sm_view sm)) (sv_membership (sm_view sm)) (sm_snapshot sm) →
  (config.(Config.election_timeout_min) < config.(Config.election_timeout_max))%N →
  match Startup.new w id config log sm with
  | Done (ROk n) => ready id config (log, sm) n
  | Done (RErr f) => ∃ e, f = Fatal_StorageError e ∧ boot_error (LS := LS) (SM := SM) e
  | Panic _ => False
  end.
Proof. apply startup_run. Qed.

Lemma startup_range w id config (log : LS) (sm : SM) r :
  Startup.new w id config log sm = Done r → (config.(Config.election_timeout_min) < config.(Config.election_timeout_max))%N.
Proof.
  rw /Startup.new /ConfigText.new_rand_election_timeout. by destruct (N.ltb_spec (Config.election_timeout_min config)
    (Config.election_timeout_max config)).
Qed.

End ready.

(** ** Witnesses: node 2 with the in-memory stores of the fixture, which it left before anything was applied *)
Section ut.
#[local] Existing Instances MemConfig entry_json entry_json_laws sm_json sm_json_laws.

Definition ut_world : World := {| wo_rand := 200; wo_now := 1000; wo_drift := λ _, 1%N; wo_store_fault := λ _, None |}.
Definition ut_restart := Startup.new ut_world 2 ConfigText.default mem_crashed.1 mem_crashed.2.
Definition ut_restarted : Core :=
  match ut_restart with Done (ROk n) => n.(node_core) | _ => ut_learner end.
Definition ut_caught_up : Core := ut_tell ut_restarted (ut_commit (mem_id 2 3)).

Lemma ut_restart_done : ∃ n, ut_restart = Done (ROk n) ∧ n.(node_core) = ut_restarted.
Proof.
  assert (match ut_restart with Done (ROk _) => true | _ => false end = true) as H by by vm_compute.
  rw /ut_restarted. destruct ut_restart as [[n|]|]; [by exists n|done..].
Qed.
Lemma ut_caught_up_run : rtc Applies.step ut_restarted ut_caught_up.
Proof. apply ut_tell_run; [done|by vm_compute]. Qed.

Lemma raft_new_ready_witness :
  ∃ n, Startup.new ut_world 2 ConfigText.default mem_crashed.1 mem_crashed.2 = Done (ROk n) ∧
    Applies.fresh n.(node_core) ∧ (core_state n.(node_core)).(RaftState.committed) = Some (mem_id 1 1) ∧
    core_vote n.(node_core) = Vote_new_committed 2 1.
Proof.
  destruct mem_crashed_boot as [Hi Hb].
  pose proof (raft_new_ready ut_world 2 ConfigText.default mem_crashed.1 mem_crashed.2 Hi Hb eq_refl) as H.
  destruct ut_restart_done as (n & Hn & Hc). rw /ut_restart in Hn. rw Hn in H. exists n. split; [exact Hn|].
  split; [apply H|]. rw Hc. by vm_compute.
Defined.

End ut.
